(* ===== verification/_CoqProject ===== *)
-Q . S2P
Prelude.v
Buffer.v
Nocopy.v
Ip.v
Protocol.v
Wire.v
Frames.v
Rpc.v
Session.v
Gate.v
Packet.v
Registry.v
Dispatcher.v
Balance.v
ClientConn.v
Policy.v
Watch.v
Context.v
Scheduler.v
Node.v
NodeLink.v
GateLink.v
NodeServer.v
NodeRpc.v
GateServer.v
Ring.v
Elastic.v
LockFree.v
Poller.v
NetConn.v
ConnMatrix.v
LoadBalance.v
TcpConn.v
TcpLife.v
TcpServe.v
Decimals.v
DecimalMath.v
DecimalRound.v
DecimalText.v
DecimalFloat.v
XCache.v
XCacheMap.v
XCacheShards.v
Snowflake.v
