(* ===== verification/Prelude.v ===== *)
(** * xbase: a verification library

    xbase is a game-server framework in Go.  Gates hold the connections of the
    players; nodes run the games; both talk over an RPC transport of their own
    and find each other through a service registry.  This library models the
    path a request takes through that framework and proves what each part
    promises to the next.

    ** The parts and how they interact

    A client's message is a packet ([Packet], src/packet).  The gate keeps its
    connections, users and channels in a session ([Session], src/session), picks
    a node through the dispatcher ([Dispatcher], src/internal/dispatcher) from
    the instances of the registry ([Registry], src/registry), and calls it over
    the transport.  Nodes in turn call the gate: [Gate] holds the provider
    (src/cluster/gate), its RPC server and its RPC client
    (src/internal/transporter/gate).  A call is a frame of the protocol
    ([Protocol], src/internal/transporter/internal/protocol), made with typed
    writers and readers over pooled blocks ([Buffer], [Nocopy],
    src/core/buffer), and moved by the connections ([Rpc],
    src/internal/transporter/internal/client and server).

    On the way to a node the linker ([NodeLink], src/internal/link) finds where
    the user is bound and calls the node's RPC server ([NodeRpc],
    src/internal/transporter/node); the node's provider ([NodeServer],
    src/cluster/node) checks the message and puts it into the request queue; a
    worker takes it through middlewares to a handler, or to an actor ([Node],
    [Scheduler], [Context]); the answer goes back through the other linker
    ([GateLink]).  The gate's policy ([Policy]) chooses the lane of a user, and
    two watchers of the registry ([Watch]) keep the routes' flags and retire
    outdated processes.

    Below the gate, the framework's own network engine (src/utils/xnet) keeps
    the connections: an event loop waits at a poller ([Poller],
    src/utils/xnetpoll) for what the kernel reports and for the tasks that other
    goroutines put into its two lock-free queues ([LockFree],
    src/utils/xqueue); a connection ([NetConn]) writes to its socket, keeps what
    the kernel does not take in an elastic buffer ([Elastic]: a ring, [Ring],
    and behind it a list of blocks, src/utils/xbuffer), and gives the handler
    what it reads from an inbound ring and the last read.  The other network
    servers keep a connection in three goroutines of its own; that of
    src/network/tcp is [TcpConn].

    ** Files

    - [Prelude]: Go results ([outcome]: a value, an error or a run-time panic),
      operations on a state ([Op]), machine integers ([wrapU], [wrapS]), slices
      with their bounds, byte orders; the hint databases and tactics the other
      files use.
    - [Buffer]: Modules [Writer], [Reader], [Bytes], [Pool] for writer.go,
      reader.go, bytes.go and the two pools.  A writer is the array behind its
      slice, the slice's length and [off]; a reader is its bytes and [off]; a
      pool is one list of items per grade and [Get] takes an arbitrary one, as
      sync.Pool may.  The classes [WriterAlloc] and [BytesAlloc] are what the
      encoders and the frame reader rely on; the pools implement them.
    - [Nocopy]: the chain of blocks of nocopy_buffer.go and nocopy_node.go, as
      the tree of what is mounted.
    - [Ip]: IP2Long and Long2IP of utils/xnet.
    - [Protocol]: every encoder and decoder, one Definition each, with the
      sizes, routes and codes; ReadMessage, ReaderBuffer, ParseBuffer on a byte
      stream.  The JSON of the delivery metadata is the class [JsonMap].
    - [Wire]: the frames as byte strings: one sum type of requests ([Req]) and
      one of responses ([Res]), what each encoder writes and each decoder
      reads.
    - [Frames]: the contract of the protocol: requests and responses arrive
      unchanged, a stream of frames is read frame by frame, nothing a peer
      sends makes a decoder panic.
    - [Rpc]: one call over a healthy connection: writing a buffer, the read
      loop of the server with its handler table and heartbeats, matching the
      answer by its sequence number.
    - [Session]: the maps of session.go over a heap of connections, so that one
      connection is shared by the maps as it is by pointer in the code; [wf] is
      the representation invariant, [step] the operations any client can make.
    - [Gate]: the provider on a session, a locator and a cluster state; the
      fourteen handlers of the gate server; the methods of the gate client.
    - [Packet]: packer.go.
    - [Registry]: version.go and service_status.go.
    - [Dispatcher]: abstract.go, gameRoute.go, event.go, dispatcher.go and
      core/endpoint.
    - [Balance]: what sequences of round-robin and weighted picks do.
    - [ClientConn]: the client end of a connection as a step relation: callers,
      the writer, the reader, the pending table, the message pool, dialing and
      closing, one step per visible action of a goroutine.
    - [Policy]: the service-status policy of a gate (cluster/gate/options.go,
      policy.go): options, events, and the lane of each user.
    - [Watch]: cluster/gate/route_watcher.go and cluster/versionretire.
    - [Context]: the requests and events of a node as objects with a version, a
      chain of deferred functions (core/chains) and a pool.
    - [Scheduler]: actor.go and scheduler.go; [wf] is what every reachable state
      satisfies, [step] the operations of any goroutine.
    - [Node]: router.go, middleware.go, trigger.go: registrations, queues, and
      the threads (workers, actors, tasks) that handle contexts; [exec] is one
      action of one thread, [run] a sequence of them.
    - [NodeLink], [GateLink]: internal/link: what a linker remembers, and calls
      with their second turn.
    - [NodeServer]: node.go and provider.go: start, close, destroy, the
      instances in the registry, deliveries.
    - [NodeRpc]: the four handlers of the node's RPC server and its client.
    - [GateServer]: gate.go, proxy.go, deliver.go and the steps of a binding:
      connections, the queue of messages and its workers, start, close and
      destroy; [exec] is one action of one goroutine.
    - [Ring]: xring_buffer.go: the block, the two positions and the flag that
      tells full from empty; [rep] says which bytes a ring holds, [queue] what
      each operation does to them.
    - [Elastic]: Modules [Linked] (xlinked_list_buffer.go) and [ElasticRing]
      (xelastic_ring_buffer.go: a ring taken from the pool when it is first
      written), and on top of them xelastic_ring_list_buffer.go.
    - [LockFree]: lock_free_xqueue.go: nodes in a store that only grows, one
      atomic access of one thread a step ([Enqueue_turn], [Dequeue_turn]), any
      schedule ([run]); every step says what effect it had on the queue.
    - [Poller]: Trigger, the chores of Polling and the list of events of
      poller_epoll_default.go and defs_poller_epoll.go, one access a step.
    - [NetConn]: connection_unix.go, connection_linux.go and the handlers of
      eventloop_unix.go.  The outbound buffer is the interface [OutboundBuffer]
      ([elastic_outbound] implements it), the kernel the interface [Socket].
    - [ConnMatrix]: the two stores of connections (conn_matrix.go, conn_map.go)
      and the identifiers of utils/xgfd (Module [Gfd]); [shows] says what is in
      which place of the matrix.
    - [LoadBalance]: load_balancer.go: which loop a new connection goes to.
    - [TcpConn]: server_conn.go and server_conn_mgr.go of network/tcp: a pooled
      connection, the lives it has had, its goroutines and those that call it;
      [turn] is one access of one of them.  [TcpLife] says what each kind of
      goroutine leaves alone, [TcpServe] proves what a connection promises.
    - [Decimals], [DecimalMath], [DecimalRound], [DecimalText], [DecimalFloat]:
      utils/decimal: the operations, what they mean in units of a power of ten
      ([units]), the ways of rounding ([rounded]), text and bytes, floats.
    - [XCache]: utils/xcache, one cache and its shards, an operation and a time a
      step; [XCacheMap] and [XCacheShards] compare both with one map.
    - [Snowflake]: utils/xsnowflake over the readings of a clock.

    ** What the theorems show

    - Bytes: what typed writes put is what typed reads get, in both byte orders;
      no typed read panics; a pooled writer is an append-only string whatever
      it was used for before; a pool hands out blocks of the size asked for.
    - Frames: every request and all but one response cross the wire unchanged
      ([request_over_the_wire], [response_over_the_wire]); any prefix of a
      stream of frames is read into exactly the frames that are complete; the
      exact inputs on which the framing layer panics.
    - Calls: a call of a gate client is a local call of the provider, for every
      method but two ([remote_call_is_local]); the two exchange their arguments
      ([remote_unbind_exchanged]).
    - Session: in every reachable state the maps agree with each other; binding
      takes a user over and unbinding, closing and disconnecting touch only
      what they name; publishing and broadcasting reach exactly whom they
      should.
    - Packets: round trip; a half packet waits; every byte string is classified.
    - Dispatch: after a registry update every pick, under every policy, is a
      registered instance of the game, of the latest version, in the lane the
      requested status prefers; round robin is a rotation and weighted round
      robin exact at the end of each cycle, never a full pick ahead before.
    - Nodes: a remote call of a node is a call of its provider
      ([node_calls_are_local]); an accepted message is in the queue unchanged
      ([accepted_messages_are_queued]); a request is handled once, its deferred
      functions are called once and its object returns to the pool once, as long
      as nobody uses it after it was handed on ([request_handled_once],
      [task_takes_over]; [late_middleware_breaks] and [event_recycled_twice] are
      what happens otherwise).
    - Gates: every message taken from a connection is handled once, in order
      with one worker, and all of them before the gate is destroyed
      ([every_message_handled_once]); a client's message goes to the node its
      user is bound to ([client_messages_forwarded]); a connection that closes is
      forgotten everywhere ([disconnects_clean_up], but see [late_unbinding]).
    - Actors: a request reaches the actor its user is bound to
      ([requests_reach_bound_actors]); what each operation does to the bindings
      ([bindings_change_exactly]).
    - Linkers: a node waits for exactly the users bound to it
      ([own_bindings_are_waited_for]), messages follow the bindings
      ([messages_follow_bindings]), a call for a user is tried twice at most
      ([user_calls_retry_once]).
    - Policy and watchers: the lane of every user ([lanes_of_users]) and what
      events change ([policy_events]); the table of routes that need a session
      ([requires_auth_exact]); an outdated process ends
      ([outdated_processes_retire]).
    - Buffers: rings and elastic buffers are queues of bytes in every operation
      ([ring_is_a_queue], [elastic_is_a_queue]), and what streams through them
      is in order and complete outside the cases that are spelled out
      ([ring_streams], [elastic_streams], [elastic_peek] and the counterexamples
      below them); growing takes four turns at most ([growing_ends]).
    - Task queue and poller: the queue is linearizable and its calls end when
      left alone ([queue_linearizable], [calls_end]); the poller never sleeps on
      a task and runs each queue in order ([no_lost_wakeup],
      [triggered_tasks_run]).
    - Sockets: what is written to a connection is sent in order and nothing of
      it is lost while it is open ([connection_keeps_order]); bytes that wait
      are polled for ([waiting_is_polled]); what is received reaches the handler
      in order ([inbound_is_a_queue], [reading_keeps_order]); closing ends
      ([closing_ends]).
    - Stores and balancing: the packed matrix answers as the map does
      ([matrix_is_a_map], [matrix_stays_packed]); round robin takes turns and
      the least-connections policy keeps the loops level ([round_robin_turns],
      [least_connections_level]).
    - Connections over TCP, for one player, any number of goroutines and any
      schedule: messages go out in the order in which they were accepted
      ([tcp_sends_in_order]), a graceful close waits for those before it
      ([graceful_close_flushes]), what arrives is handled in order
      ([tcp_receives_in_order]), a connection ends once and completely
      ([tcp_closes_once], [force_close_completes]).  [reader_crashes],
      [early_failure_leaks], [late_push_reaches_another] and [two_readers] are
      runs in which closing and the pool break the rest.
    - Decimals: operations are exact in any unit that is fine enough
      ([decimal_arithmetic_exact]); roundings and divisions give the number that
      their names say ([rounding_modes], [division_rounds]); powers are exact and
      panic exactly when the exponent does not fit ([PowBigInt_exact]); what is
      written is read back ([decimal_roundtrips], [StringFixed_reads]); a float
      becomes the nearest decimal ([NewFromFloat_nearest]).
    - Caches and identifiers: a cache, or any number of shards, answers as a map
      with deadlines that is never cleaned ([cache_is_a_map],
      [shards_are_one_map]), cleaning removes and tells what has expired
      ([cleaning_exact]); identifiers are unique ([snowflake_ids_unique]).
    - Calls of clients: whatever the interleaving, no message is held twice and an
      answer goes to the call whose number it carries
      ([messages_in_one_hand], [answers_match_numbers]), as long as the call
      still finds its own channel in the message; pooling breaks that in three
      ways ([pooled_messages_race]).

    ** Conventions, bounds and fuel

    A byte and a [w]-bit integer are a [Z] with the wrap-around written out at
    every conversion; strings are their bytes; floats their bits.  Bounds in
    hypotheses (2^62 or 2^63 for lengths and offsets) are those of Go slices.
    [read_frames] and [read_loop] take fuel; [stream_reads_whole_frames] is
    proved for the fuel of the stream's length plus one, which every turn
    consumes at least one byte of.  [chunks] takes the length of its input.
    [doGenSequence] is total with two turns ([doGenSequence_total]).  The
    two turns of the linkers' calls are the code's own bound.  A step that
    cannot be taken ([None] of [exec], [Next], [register], ...) is a goroutine
    that waits for room in a channel.
    [grow_loop] has four turns, which is enough for any size it is called with
    ([growing_ends]); the loops over a list of blocks have a turn per block and
    one more, those that write a turn per byte, since a write that succeeds takes
    a byte at least; [el_read] has a turn for each read the kernel answers
    ([reads_left], a bound that the class [Socket] asks for); [ReadFrom] takes
    fuel and [ring_streams] and [elastic_streams] say how much is enough.
    A thread of [LockFree] is through in eighteen turns of its own
    ([calls_end]).  [pow_loop] has a turn per bit of the exponent, [digits_loop]
    and [bytes_loop] one per bit of the number, [normalize] one per bit of a
    mantissa.

    ** What the theorems assume

    Readers and writers keep the contract of package io ([IoReader],
    [IoWriter]); write(2) takes a byte or fails ([Socket]); blocks of the pool
    have the length asked for and arbitrary contents; a connection keeps less
    than [MaxPending] bytes for sending, since [Peek] takes the number 2^31-1
    to mean all; in [NetConn], OnClose writes nothing and OnTraffic only
    takes bytes from the front of what it is offered.  Each such assumption is
    a field of a class or a variable of a section, and the witnesses give
    concrete instances.

    ** What is not modelled

    Durations of timers, and, outside [ClientConn], [Scheduler], [Node],
    [LockFree], [Poller] and [TcpConn], goroutines and locks: an operation of a component that holds its lock is one
    step, and interleavings are sequences of such steps ([step], [pool_reach]);
    the goroutines of one call of a linker run one after the other.  Handlers
    that panic, and what a handler of a node does besides handing its context
    on.  Reference counts of pooled blocks, the configuration sources and every
    client of a third-party service (redis, consul, kafka, ...) are left out, and
    of the decimals whatever computes with floats inside;
    the locator, the registry, the network, net/url and JSON are parameters
    with, where needed, their laws.  Of the network engine: datagrams, accepting
    and enrolling, socket options, the pollers of the BSDs and Windows; blocks
    that go back to the pool while a slice of them is still in use.

    ** Plan

    Next: the client's end of the tcp connections and those over websocket and
    kcp (src/network); the server end of a transport connection; the reference counts of
    [NocopyBuffer]; the limiters and the in-process event bus. *)
From stdpp Require Export base tactics numbers option list gmap strings.
From Stdlib Require Export ZArith Lia.

Open Scope Z_scope.

(** ** Go results: a value, an error, or a run-time panic *)

Inductive error :=
  | EOF
  | ErrUnexpectedEOF
  | ErrInvalidWhence
  | ErrNegativePosition
  | ErrInvalidMessage
  | ErrMessageTooLarge
  | ErrInvalidMetadata
  | ErrUnknownError
  | ErrNotFoundSession
  | ErrInvalidSessionKind
  | ErrNotFoundEndpoint
  | ErrNotFoundRoute
  | ErrNotFoundEvent
  | ErrInvalidEndpoint
  | ErrInvalidArgument
  | ErrIllegalRequest
  | ErrConnectionClosed
  | ErrConnectionHanged
  | ErrIllegalOperation
  | ErrInvalidGameID
  | ErrDeliverQueueFull
  | ErrMailboxFull
  | ErrMissingDispatchStrategy
  | ErrActorExists
  | ErrUnregisterRoute
  | ErrNotBindActor
  | ErrNotFoundActor
  | ErrNotFoundUserLocation
  | ErrInvalidGID
  | ErrInvalidNID
  | ErrNotFoundLocator
  | ErrReceiveTargetEmpty
  | ErrTooManyConnection
  | ErrConnectionNotOpened
  | ErrConnectionNotHanged
  | ErrIsEmpty
  | ErrShortBuffer
  | ErrShortWrite
  | ErrWriteQueueTimeout
  | ErrTooLong
  | ErrExponent
  | ErrTooManyPoints
  | ErrNotDecimal
  | ErrUndefinedPower
  | ErrBinary
  | ErrItemExists
  | ErrItemNotFound
  | ErrItemType
  | ErrInvalidNodeID
  | ErrClockMovedBackwards
  | ErrNotInitialized
  | ErrAlreadyInitialized
  | ErrNegativeSize
  | ErrUnsupportedOp
  | ErrEngineShutdown
  | ErrClosed
  | EAGAIN
  | ErrConn (reason : Z).

#[export] Instance error_eq_dec : EqDecision error.
Proof. solve_decision. Defined.

Inductive outcome (A : Type) :=
  | Ok (a : A)
  | Err (e : error)
  | Panic.
Arguments Ok {A} a.
Arguments Err {A} e.
Arguments Panic {A}.

#[export] Instance outcome_eq_dec `{EqDecision A} : EqDecision (outcome A).
Proof. solve_decision. Defined.

#[export] Instance outcome_ret : MRet outcome := @Ok.
#[export] Instance outcome_bind : MBind outcome := fun A B f m =>
  match m with Ok a => f a | Err e => Err e | Panic => Panic end.
#[export] Instance outcome_fmap : FMap outcome := fun A B f m =>
  match m with Ok a => Ok (f a) | Err e => Err e | Panic => Panic end.

(** [m] returns to its caller: a value or an error, never a panic. *)
Definition no_panic {A} (m : outcome A) : Prop := m ≠ Panic.

Lemma bind_Ok {A B} (m : outcome A) (f : A → outcome B) b :
  m ≫= f = Ok b ↔ ∃ a, m = Ok a ∧ f a = Ok b.
Proof. destruct m; simpl; naive_solver. Qed.

(** Running a value through the rest of the computation. *)
Lemma mbind_Ok {A B} (a : A) (f : A → outcome B) : Ok a ≫= f = f a.
Proof. done. Qed.

Lemma no_panic_bind {A B} (m : outcome A) (f : A → outcome B) :
  no_panic m → (∀ a, m = Ok a → no_panic (f a)) → no_panic (m ≫= f).
Proof. unfold no_panic. destruct m; simpl; naive_solver. Qed.

Lemma no_panic_fmap {A B} (m : outcome A) (f : A → B) : no_panic m → no_panic (f <$> m).
Proof. unfold no_panic. by destruct m. Qed.

Lemma no_panic_Ok {A} (a : A) : no_panic (Ok a).
Proof. done. Qed.

Lemma no_panic_Err {A} e : no_panic (@Err A e).
Proof. done. Qed.

(** ** Operations on a state

    An operation of a component takes its state and returns the new one with a
    value, an error or a panic; the state reached before an error is kept. *)
Definition Op (S A : Type) : Type := S → S * outcome A.
#[export] Instance Op_ret {S} : MRet (Op S) := fun A a s => (s, Ok a).
#[export] Instance Op_bind {S} : MBind (Op S) := fun A B f m s =>
  let '(s, r) := m s in
  match r with Ok a => f a s | Err e => (s, Err e) | Panic => (s, Panic) end.

Definition get {S} : Op S S := fun s => (s, Ok s).
Definition modify {S} (f : S → S) : Op S unit := fun s => (f s, Ok ()).

(** A computation that does not touch the state. *)
Definition lift {S A} (m : outcome A) : Op S A := fun s => (s, m).
(** Run an operation and go on with its result, as Go code does that looks at
    [err] itself. *)
Definition try {S A} (m : Op S A) : Op S (outcome A) := fun s =>
  let '(s, r) := m s in
  match r with Panic => (s, Panic) | _ => (s, Ok r) end.

Lemma op_bind_ok {S A B} (m : Op S A) (f : A → Op S B) l l' a :
  m l = (l', Ok a) → (m ≫= f) l = f a l'.
Proof. intros E. unfold mbind, Op_bind. by rewrite E. Qed.

Lemma try_ok {S A} (m : Op S A) l l' r :
  m l = (l', r) → r ≠ Panic → try m l = (l', Ok r).
Proof. intros E H. unfold try. rewrite E. by destruct r. Qed.

(** [error] results of operations without a value. *)
Definition to_outcome (e : option error) : outcome unit :=
  match e with None => Ok () | Some e => Err e end.
Definition err_of {A} (r : outcome A) : option error :=
  match r with Err e => Some e | _ => None end.
Definition val_of {A} (d : A) (r : outcome A) : A :=
  match r with Ok a => a | _ => d end.

(** ** Machine integers

    A [w]-bit Go integer is a [Z]; a conversion or an operation wraps with
    [wrapU] (unsigned) or [wrapS] (signed, two's complement). *)

Definition wrapU (w z : Z) : Z := z mod 2 ^ w.
Definition wrapS (w z : Z) : Z := (z + 2 ^ (w - 1)) mod 2 ^ w - 2 ^ (w - 1).

Definition in_u (w z : Z) : Prop := 0 ≤ z < 2 ^ w.
Definition in_s (w z : Z) : Prop := - 2 ^ (w - 1) ≤ z < 2 ^ (w - 1).

#[export] Instance in_u_dec w z : Decision (in_u w z).
Proof. unfold in_u. apply _. Defined.
#[export] Instance in_s_dec w z : Decision (in_s w z).
Proof. unfold in_s. apply _. Defined.

Lemma pow2_half w : 0 < w → 2 ^ w = 2 * 2 ^ (w - 1).
Proof. intros. rewrite <- Z.pow_succ_r by lia. f_equal. lia. Qed.

Lemma wrapU_id w z : in_u w z → wrapU w z = z.
Proof. intros. by apply Z.mod_small. Qed.

Lemma wrapU_range w z : 0 ≤ w → in_u w (wrapU w z).
Proof. intros. apply Z.mod_pos_bound. lia. Qed.

Lemma wrapS_id w z : 0 < w → in_s w z → wrapS w z = z.
Proof.
  unfold in_s, wrapS. intros Hw ?. rewrite (pow2_half w) by done.
  rewrite Z.mod_small; lia.
Qed.

Lemma wrapS_range w z : 0 < w → in_s w (wrapS w z).
Proof.
  unfold in_s, wrapS. intros Hw. rewrite (pow2_half w) by done.
  pose proof (Z.mod_pos_bound (z + 2 ^ (w - 1)) (2 * 2 ^ (w - 1))). lia.
Qed.

Lemma wrapS_wrapU w z : 0 < w → wrapS w (wrapU w z) = wrapS w z.
Proof.
  unfold wrapS, wrapU. intros. by rewrite Z.add_mod_idemp_l by lia.
Qed.

(** The conversion round trip [intN(uintN(v)) = v]. *)
Lemma wrapS_wrapU_id w z : 0 < w → in_s w z → wrapS w (wrapU w z) = z.
Proof. intros. rewrite wrapS_wrapU by done. by apply wrapS_id. Qed.

Lemma wrapU_wrapS w z : 0 < w → in_u w z → wrapU w (wrapS w z) = z.
Proof.
  intros Hw Hz. unfold wrapS, wrapU.
  rewrite Zminus_mod_idemp_l. replace (z + 2 ^ (w - 1) - 2 ^ (w - 1)) with z by lia.
  by apply Z.mod_small.
Qed.

(** ** Slices of bytes

    [len s] is Go's [len]; a Go slice expression [s[lo:hi]] panics unless
    [0 <= lo <= hi <= cap(s)]. *)

Abbreviation len s := (Z.of_nat (length s)).

Definition is_byte (z : Z) : Prop := 0 ≤ z < 256.

Definition slice_check (cap lo hi : Z) : outcome unit :=
  if bool_decide (0 ≤ lo ∧ lo ≤ hi ∧ hi ≤ cap) then Ok () else Panic.

(** [s[lo:hi]] of a slice whose capacity is its length. *)
Definition slice {A} (s : list A) (lo hi : Z) : outcome (list A) :=
  _ ← slice_check (len s) lo hi;
  Ok (take (Z.to_nat (hi - lo)) (drop (Z.to_nat lo) s)).

(** [s[lo:]] *)
Definition slice_from {A} (s : list A) (lo : Z) : outcome (list A) :=
  slice s lo (len s).

(** [s[i]] *)
Definition index {A} (s : list A) (i : Z) : outcome A :=
  if bool_decide (i < 0) then Panic
  else match s !! Z.to_nat i with Some x => Ok x | None => Panic end.

Lemma slice_Ok {A} (s : list A) lo hi :
  0 ≤ lo → lo ≤ hi → hi ≤ len s →
  slice s lo hi = Ok (take (Z.to_nat (hi - lo)) (drop (Z.to_nat lo) s)).
Proof. intros. unfold slice, slice_check. by rewrite bool_decide_eq_true_2. Qed.

Lemma slice_from_Ok {A} (s : list A) lo :
  0 ≤ lo → lo ≤ len s → slice_from s lo = Ok (drop (Z.to_nat lo) s).
Proof.
  intros. unfold slice_from. rewrite slice_Ok by lia.
  rewrite take_ge; [done|]. rewrite length_drop. lia.
Qed.

(** The middle of a concatenation. *)
Lemma slice_mid {A} (s a b c : list A) lo hi :
  s = a ++ b ++ c → lo = len a → hi = len a + len b → slice s lo hi = Ok b.
Proof.
  intros -> -> ->. rewrite slice_Ok by (rewrite ?length_app; lia).
  rewrite Nat2Z.id, drop_app_length. by rewrite take_app_length' by lia.
Qed.

(** ** Byte orders (encoding/binary) *)

Inductive ByteOrder := BigEndian | LittleEndian.

#[export] Instance ByteOrder_eq_dec : EqDecision ByteOrder.
Proof. solve_decision. Defined.

Fixpoint le_bytes (n : nat) (z : Z) : list Z :=
  match n with
  | O => []
  | S n => z mod 256 :: le_bytes n (z / 256)
  end.

Fixpoint le_val (l : list Z) : Z :=
  match l with
  | [] => 0
  | b :: l => b + 256 * le_val l
  end.

(** [PutUintN] writes [n] bytes; [UintN] reads a whole [n]-byte slice. *)
Definition put_uint (o : ByteOrder) (n : nat) (z : Z) : list Z :=
  match o with LittleEndian => le_bytes n z | BigEndian => rev (le_bytes n z) end.

Definition get_uint (o : ByteOrder) (l : list Z) : Z :=
  match o with LittleEndian => le_val l | BigEndian => le_val (rev l) end.

Lemma length_le_bytes n z : length (le_bytes n z) = n.
Proof. revert z. induction n; intros; simpl; auto. Qed.

Lemma length_put_uint o n z : length (put_uint o n z) = n.
Proof. destruct o; simpl; rewrite ?length_rev; apply length_le_bytes. Qed.

Lemma le_bytes_is_byte n z : Forall is_byte (le_bytes n z).
Proof.
  revert z. induction n; intros; simpl; constructor; auto.
  apply Z.mod_pos_bound. lia.
Qed.

Lemma put_uint_is_byte o n z : Forall is_byte (put_uint o n z).
Proof.
  destruct o; simpl; [apply Forall_rev|]; apply le_bytes_is_byte.
Qed.

Lemma le_val_bytes n z : le_val (le_bytes n z) = z mod 256 ^ Z.of_nat n.
Proof.
  revert z. induction n as [|n IH]; intros; simpl le_bytes; simpl le_val.
  - by rewrite Z.mod_1_r.
  - rewrite IH, Nat2Z.inj_succ, Z.pow_succ_r by lia.
    rewrite Z.rem_mul_r by lia. done.
Qed.

Lemma le_val_range l : Forall is_byte l → 0 ≤ le_val l < 256 ^ len l.
Proof.
  unfold is_byte. induction 1; simpl length; simpl le_val; [done|].
  rewrite Nat2Z.inj_succ, Z.pow_succ_r by lia. lia.
Qed.

Lemma le_bytes_val l : Forall is_byte l → le_bytes (length l) (le_val l) = l.
Proof.
  unfold is_byte. induction 1 as [|b l Hb Hl IH]; simpl; [done|].
  replace (b + 256 * le_val l) with (b + le_val l * 256) by lia. f_equal.
  - rewrite Z.mod_add by lia. by apply Z.mod_small.
  - rewrite Z.div_add by lia. rewrite Z.div_small by lia. by rewrite Z.add_0_l.
Qed.

Lemma get_put_uint o n z :
  0 ≤ z < 256 ^ Z.of_nat n → get_uint o (put_uint o n z) = z.
Proof.
  intros. destruct o; simpl; rewrite ?rev_involutive, le_val_bytes;
    by apply Z.mod_small.
Qed.

Lemma put_get_uint o l :
  Forall is_byte l → put_uint o (length l) (get_uint o l) = l.
Proof.
  intros. destruct o; simpl; [|by apply le_bytes_val].
  rewrite <- length_rev, le_bytes_val, rev_involutive; [done|by apply Forall_rev].
Qed.

Lemma get_uint_range o l : Forall is_byte l → 0 ≤ get_uint o l < 256 ^ len l.
Proof.
  intros. destruct o; simpl; [|by apply le_val_range].
  rewrite <- length_rev. apply le_val_range. by apply Forall_rev.
Qed.

(** ** Lists addressed by [Z] offsets *)

Lemma drop_take_split {A} (l : list A) (n m : nat) (a b : list A) :
  drop n l = a ++ b → length a = m → take m (drop n l) = a ∧ drop (n + m) l = b.
Proof.
  intros Hl <-. rewrite <- drop_drop, Hl. by rewrite take_app_length, drop_app_length.
Qed.

Lemma app_inv_len {A} (a b c d : list A) :
  length a = length c → a ++ b = c ++ d → a = c ∧ b = d.
Proof. intros H E. by apply app_inj_1. Qed.

Lemma filter_ext_in {A} (P Q : A → Prop) `{!∀ x, Decision (P x), !∀ x, Decision (Q x)}
    (l : list A) :
  (∀ x, x ∈ l → P x ↔ Q x) → filter P l = filter Q l.
Proof.
  induction l as [|a l IH]; intros Hpq; [done|].
  assert (filter P l = filter Q l) as E by (apply IH; intros; apply Hpq; by right).
  assert (P a ↔ Q a) by (apply Hpq; by left).
  destruct (decide (P a)).
  - rewrite !filter_cons_True by tauto. by rewrite E.
  - rewrite !filter_cons_False by tauto. done.
Qed.

Lemma nonempty_len {A} (l : list A) : l ≠ [] ↔ (0 < len l)%Z.
Proof. destruct l; cbn; split; intros; try done; lia. Qed.

Lemma len_nil {A} (l : list A) : len l = 0%Z → l = [].
Proof. destruct l; [done|]. cbn. lia. Qed.

(** ** Automation *)

Create Rewrite HintDb golen.
Create HintDb gopanic.
#[export] Hint Rewrite @length_app @length_put_uint @length_replicate
  @length_rev @length_take @length_drop : golen.
#[export] Hint Resolve no_panic_Ok no_panic_Err put_uint_is_byte : gopanic.

(** Normalise lengths, then decide the arithmetic. *)
Ltac len_solve :=
  repeat (autorewrite with golen in *; simpl length in *); try lia.

(** Run the value at the head of a bind. *)
Ltac run := rewrite mbind_Ok; cbv beta iota.

(** Case on the next [bool_decide] or match of the goal. *)
Ltac bcase :=
  match goal with
  | |- context [bool_decide ?P] => destruct (bool_decide_reflect P)
  end.
