(* ===== verification/Buffer.v ===== *)
(** * core/buffer: the byte writer, the byte reader, the pooled byte blocks

    [Writer] models core/buffer/writer.go, [Reader] core/buffer/reader.go,
    [Bytes] core/buffer/bytes.go, and [SyncPool], [WriterPool], [BytesPool]
    the graded pools of writer_pool.go and bytes_pool.go.  A float is carried
    as its IEEE bit pattern, which is what the code reads and writes. *)
From S2P Require Import Prelude.

(** Element sizes (buffer.go). *)
Definition b8 : Z := 1.
Definition b16 : Z := 2.
Definition b32 : Z := 4.
Definition b64 : Z := 8.

(** The largest allocation the Go runtime grants on 64-bit Linux. *)
Definition maxAlloc : Z := 2 ^ 48.

(** [make([]T, 0, n)] for an element type of [sz] bytes. *)
Definition make_cap (sz n : Z) : outcome unit :=
  if bool_decide (0 ≤ n ∧ sz * n ≤ maxAlloc) then Ok () else Panic.

Create HintDb writes.

Module Writer.

(** [arr] is the backing array of [buf] (its capacity is [len arr]), [blen]
    is [len(buf)], [pool] the grade of the pool the writer came from. *)
Record Writer := mkWriter {
  arr : list Z;
  blen : Z;
  off : Z;
  pool : option nat;
}.

#[global] Instance Writer_eq_dec : EqDecision Writer.
Proof. solve_decision. Defined.

Definition NewWriter (buf : list Z) : Writer := mkWriter buf (len buf) 0 None.

Definition NewWriterWithCapacity (cap : Z) : Writer :=
  mkWriter (replicate (Z.to_nat cap) 0) cap 0 None.

Definition Len (w : Writer) : Z := off w.
Definition Cap (w : Writer) : Z := len (arr w).
Definition Available (w : Writer) : Z := Cap w - off w.

(** [w.buf[:w.off]] *)
Definition Bytes (w : Writer) : outcome (list Z) :=
  _ ← slice_check (Cap w) 0 (off w);
  Ok (take (Z.to_nat (off w)) (arr w)).

(** The part of [Release] local to the writer; [WriterPool.Release] adds the
    return to the pool. *)
Definition reset (w : Writer) : Writer := mkWriter (arr w) (blen w) 0 (pool w).

Definition growSlice (n : Z) (w : Writer) : Writer :=
  let c := Z.max (blen w + n) (2 * Cap w) in
  mkWriter (take (Z.to_nat (off w)) (arr w) ++
            replicate (Z.to_nat (c - off w)) 0) c (off w) (pool w).

Definition grow (n : Z) (w : Writer) : Writer :=
  if bool_decide (off w + n < Cap w) then w else growSlice n w.

Definition Grow (n : Z) (w : Writer) : Writer := growSlice n w.

(** Overwrite [bs] at the current offset and advance by [adv]. *)
Definition store (bs : list Z) (adv : Z) (w : Writer) : Writer :=
  let i := Z.to_nat (off w) in
  mkWriter (take i (arr w) ++ bs ++ drop (i + length bs) (arr w))
           (blen w) (off w + adv) (pool w).

(** [w.buf[w.off] = b; w.off++] *)
Definition put_byte (b : Z) (w : Writer) : outcome Writer :=
  if bool_decide (0 ≤ off w < blen w) then Ok (store [b] 1 w) else Panic.

(** [order.PutUintN(w.buf[w.off:w.off+n], v); w.off += n] *)
Definition put_order (o : ByteOrder) (n : nat) (v : Z) (w : Writer) : outcome Writer :=
  _ ← slice_check (Cap w) (off w) (off w + Z.of_nat n);
  Ok (store (put_uint o n v) (Z.of_nat n) w).

(** [copy(w.buf[w.off:], p)]: the number of bytes copied, and the writer. *)
Definition copy_at (p : list Z) (adv : Z → Z) (w : Writer) : outcome (Z * Writer) :=
  _ ← slice_check (Cap w) (off w) (blen w);
  let n := Z.min (blen w - off w) (len p) in
  Ok (n, store (take (Z.to_nat n) p) (adv n) w).

(** [for _, v := range values { ... }] over the writer. *)
Fixpoint each {A} (f : A → Writer → outcome Writer) (l : list A) (w : Writer)
  : outcome Writer :=
  match l with
  | [] => Ok w
  | v :: l => w ← f v w; each f l w
  end.

Definition Write (p : list Z) (w : Writer) : outcome (Z * Writer) :=
  copy_at p (λ n, n) (grow (len p) w).

Definition WriteBools (values : list bool) (w : Writer) : outcome Writer :=
  each (λ v : bool, put_byte (if v then 1 else 0)) values (grow (len values) w).

Definition WriteInt8s (values : list Z) (w : Writer) : outcome Writer :=
  each (λ v, put_byte (wrapU 8 v)) values (grow (len values) w).

Definition WriteUint8s (values : list Z) (w : Writer) : outcome Writer :=
  each put_byte values (grow (len values) w).

Definition WriteInt16s o (values : list Z) (w : Writer) : outcome Writer :=
  each (λ v, put_order o 2 (wrapU 16 v)) values (grow (b16 * len values) w).

Definition WriteUint16s o (values : list Z) (w : Writer) : outcome Writer :=
  each (put_order o 2) values (grow (b16 * len values) w).

Definition WriteInt32s o (values : list Z) (w : Writer) : outcome Writer :=
  each (λ v, put_order o 4 (wrapU 32 v)) values (grow (b32 * len values) w).

Definition WriteUint32s o (values : list Z) (w : Writer) : outcome Writer :=
  each (put_order o 4) values (grow (b32 * len values) w).

Definition WriteInt64s o (values : list Z) (w : Writer) : outcome Writer :=
  each (λ v, put_order o 8 (wrapU 64 v)) values (grow (b64 * len values) w).

Definition WriteUint64s o (values : list Z) (w : Writer) : outcome Writer :=
  each (put_order o 8) values (grow (b64 * len values) w).

Definition WriteFloat32s o (values : list Z) (w : Writer) : outcome Writer :=
  each (put_order o 4) values (grow (b32 * len values) w).

Definition WriteFloat64s o (values : list Z) (w : Writer) : outcome Writer :=
  each (put_order o 8) values (grow (b64 * len values) w).

Definition WriteRunes o (values : list Z) (w : Writer) : outcome Writer :=
  WriteInt32s o values w.

Definition WriteBytes (values : list Z) (w : Writer) : outcome Writer :=
  '(_, w) ← copy_at values (λ _, len values) (grow (len values) w);
  Ok w.

Definition WriteString (str : list Z) (w : Writer) : outcome Writer :=
  WriteBytes str w.

(** ** Specification: a writer is an append-only byte string *)

(** The allocation invariant: [make] gives a slice as long as its array. *)
Definition wf (w : Writer) : Prop := blen w = Cap w ∧ 0 ≤ off w ≤ blen w.

(** The bytes written so far. *)
Definition data (w : Writer) : list Z := take (Z.to_nat (off w)) (arr w).

(** [w'] is [w] with [bs] appended. *)
Record wrote (w : Writer) (bs : list Z) (w' : Writer) : Prop := {
  wrote_wf : wf w';
  wrote_data : data w' = data w ++ bs;
  wrote_room : blen w ≤ blen w';
  wrote_pool : pool w' = pool w;
}.

(** [f] appends [bs] to any well-formed writer, growing it as needed. *)
Definition appends (f : Writer → outcome Writer) (bs : list Z) : Prop :=
  ∀ w, wf w → ∃ w', f w = Ok w' ∧ wrote w bs w'.

(** [f] appends [bs] provided that they fit in the current buffer. *)
Definition fits (f : Writer → outcome Writer) (bs : list Z) : Prop :=
  ∀ w, wf w → off w + len bs ≤ blen w → ∃ w', f w = Ok w' ∧ wrote w bs w'.

Lemma data_length w : wf w → len (data w) = off w.
Proof. unfold wf, data, Cap. intros [? ?]. len_solve. Qed.

Lemma wrote_refl w : wf w → wrote w [] w.
Proof. split; auto; [by rewrite app_nil_r|lia]. Qed.

Lemma wrote_trans w a w1 b w2 :
  wrote w a w1 → wrote w1 b w2 → wrote w (a ++ b) w2.
Proof.
  intros [? D1 ? ?] [? D2 ? ?]. split; [done| |lia|congruence].
  by rewrite D2, D1, app_assoc.
Qed.

Lemma wrote_off w bs w' : wf w → wrote w bs w' → off w' = off w + len bs.
Proof.
  intros Hw [Hw' D ? ?]. rewrite <- (data_length w'), D by done.
  rewrite <- (data_length w) by done. len_solve.
Qed.

Lemma writer_Bytes_data w : wf w → Bytes w = Ok (data w).
Proof.
  intros [? ?]. unfold Bytes, slice_check, Cap in *.
  by rewrite bool_decide_eq_true_2 by lia.
Qed.

(** [grow] makes room for [n] bytes and keeps what was written. *)
Lemma grow_room n w :
  wf w → 0 ≤ n → wrote w [] (grow n w) ∧ off (grow n w) + n ≤ blen (grow n w)
                 ∧ off (grow n w) = off w.
Proof.
  intros [Hl Ho] Hn. unfold grow. bcase.
  - split; [by apply wrote_refl|]. unfold Cap in *. lia.
  - unfold growSlice. simpl. unfold Cap in *. split_and!; [|lia..].
    split; simpl; [|unfold data; simpl|lia|done].
    + split; unfold Cap; simpl; len_solve.
    + rewrite app_nil_r, take_app_le by len_solve.
      by rewrite take_take, Nat.min_id.
Qed.

Lemma store_wrote bs w :
  wf w → off w + len bs ≤ blen w → wrote w bs (store bs (len bs) w).
Proof.
  intros [Hl Ho] Hfit. unfold Cap in *. unfold store. split; simpl; [|unfold data; simpl|lia|done].
  - split; unfold Cap; simpl; len_solve.
  - rewrite app_assoc, take_app_le by len_solve.
    rewrite take_ge by len_solve. done.
Qed.

Lemma put_byte_fits b : fits (put_byte b) [b].
Proof.
  intros w Hw Hfit. unfold put_byte. destruct Hw as [? ?]. simpl in Hfit.
  rewrite bool_decide_eq_true_2 by lia. eexists. split; [done|].
  by apply (store_wrote [b]).
Qed.

Lemma put_order_fits o n v : fits (put_order o n v) (put_uint o n v).
Proof.
  intros w Hw Hfit. unfold put_order, slice_check. destruct Hw as [? ?].
  rewrite length_put_uint in Hfit.
  rewrite bool_decide_eq_true_2 by lia. simpl. eexists. split; [done|].
  replace (Z.of_nat n) with (len (put_uint o n v)) by (by rewrite length_put_uint).
  apply store_wrote; [done|]. by rewrite length_put_uint.
Qed.

Lemma each_fits {A} (f : A → Writer → outcome Writer) (enc : A → list Z) l :
  (∀ v, fits (f v) (enc v)) → fits (each f l) (concat (enc <$> l)).
Proof.
  intros Hf. induction l as [|v l IH]; intros w Hw Hfit; cbn [each].
  - eexists. split; [done|]. by apply wrote_refl.
  - rewrite fmap_cons in Hfit |- *. cbn [concat] in Hfit |- *.
    rewrite length_app in Hfit.
    destruct (Hf v w Hw) as (w1 & -> & W1); [lia|]. simpl mbind.
    pose proof (wrote_off _ _ _ Hw W1). pose proof (wrote_room _ _ _ W1).
    destruct (IH w1) as (w2 & E2 & W2); [by apply W1|lia|].
    eexists. split; [done|]. by eapply wrote_trans.
Qed.

(** A write that first grows by the length of what it emits always succeeds. *)
Lemma grow_appends (f : Writer → outcome Writer) n bs :
  fits f bs → n = len bs → appends (λ w, f (grow n w)) bs.
Proof.
  intros Hf -> w Hw. destruct (grow_room (len bs) w Hw) as (W1 & Hr & Ho); [lia|].
  destruct (Hf (grow (len bs) w)) as (w2 & E2 & W2); [by apply W1|done|].
  eexists. split; [done|]. by apply (wrote_trans _ [] _ _ _ W1).
Qed.

Lemma concat_length_const {A} (enc : A → list Z) k l :
  (∀ v, len (enc v) = k) → len (concat (enc <$> l)) = k * len l.
Proof.
  intros Hk. induction l as [|v l IH]; [simpl; lia|].
  rewrite fmap_cons. cbn [concat]. rewrite length_app. simpl length.
  specialize (Hk v). lia.
Qed.

(** Every typed write is [each] over fixed-size elements after [grow]. *)
Lemma each_appends {A} (f : A → Writer → outcome Writer) enc k l n :
  (∀ v, fits (f v) (enc v)) → (∀ v, len (enc v) = k) → n = k * len l →
  appends (λ w, each f l (grow n w)) (concat (enc <$> l)).
Proof.
  intros Hf Hk ->. apply grow_appends; [by apply each_fits|].
  by rewrite (concat_length_const _ k).
Qed.

(** What each typed write appends. *)

Lemma WriteBools_appends l :
  appends (WriteBools l) (concat ((λ v : bool, [if v then 1 else 0]) <$> l)).
Proof. apply (each_appends _ _ 1); [intros; apply put_byte_fits|done|lia]. Qed.

Lemma WriteInt8s_appends l : appends (WriteInt8s l) (concat ((λ v, [wrapU 8 v]) <$> l)).
Proof. apply (each_appends _ _ 1); [intros; apply put_byte_fits|done|lia]. Qed.

Lemma WriteUint8s_appends l : appends (WriteUint8s l) (concat ((λ v, [v]) <$> l)).
Proof. apply (each_appends _ _ 1); [intros; apply put_byte_fits|done|lia]. Qed.

Ltac word_appends k :=
  apply (each_appends _ _ k);
  [intros; apply put_order_fits|intros; by rewrite length_put_uint|done].

Lemma WriteInt16s_appends o l :
  appends (WriteInt16s o l) (concat ((λ v, put_uint o 2 (wrapU 16 v)) <$> l)).
Proof. word_appends 2. Qed.

Lemma WriteUint16s_appends o l :
  appends (WriteUint16s o l) (concat (put_uint o 2 <$> l)).
Proof. word_appends 2. Qed.

Lemma WriteInt32s_appends o l :
  appends (WriteInt32s o l) (concat ((λ v, put_uint o 4 (wrapU 32 v)) <$> l)).
Proof. word_appends 4. Qed.

Lemma WriteUint32s_appends o l :
  appends (WriteUint32s o l) (concat (put_uint o 4 <$> l)).
Proof. word_appends 4. Qed.

Lemma WriteInt64s_appends o l :
  appends (WriteInt64s o l) (concat ((λ v, put_uint o 8 (wrapU 64 v)) <$> l)).
Proof. word_appends 8. Qed.

Lemma WriteUint64s_appends o l :
  appends (WriteUint64s o l) (concat (put_uint o 8 <$> l)).
Proof. word_appends 8. Qed.

Lemma WriteFloat32s_appends o l :
  appends (WriteFloat32s o l) (concat (put_uint o 4 <$> l)).
Proof. word_appends 4. Qed.

Lemma WriteFloat64s_appends o l :
  appends (WriteFloat64s o l) (concat (put_uint o 8 <$> l)).
Proof. word_appends 8. Qed.

Lemma copy_at_fits p adv :
  adv (len p) = len p →
  ∀ w, wf w → off w + len p ≤ blen w →
  ∃ w', copy_at p adv w = Ok (len p, w') ∧ wrote w p w'.
Proof.
  intros Ha w Hw Hfit. destruct Hw as [Hc Ho]. unfold copy_at, slice_check.
  rewrite bool_decide_eq_true_2 by lia. simpl mbind.
  rewrite Z.min_r by lia. rewrite Ha. rewrite take_ge by lia.
  eexists. split; [done|]. by apply store_wrote.
Qed.

Lemma WriteBytes_appends l : appends (WriteBytes l) l.
Proof.
  unfold WriteBytes.
  apply (grow_appends (λ w, '(_, w) ← copy_at l (λ _, len l) w; Ok w)); [|done].
  intros w Hw Hfit. destruct (copy_at_fits l (λ _, len l) eq_refl w Hw Hfit)
    as (w' & -> & ?). by eexists.
Qed.

Lemma WriteString_appends l : appends (WriteString l) l.
Proof. apply WriteBytes_appends. Qed.

Lemma Write_appends p w :
  wf w → ∃ w', Write p w = Ok (len p, w') ∧ wrote w p w'.
Proof.
  intros Hw. unfold Write. destruct (grow_room (len p) w Hw) as (W1 & Hr & Ho); [lia|].
  destruct (copy_at_fits p (λ n, n) eq_refl _ (wrote_wf _ _ _ W1) Hr) as (w' & -> & W2).
  eexists. split; [done|]. by apply (wrote_trans _ [] _ _ _ W1).
Qed.

#[export] Hint Resolve WriteBools_appends WriteInt8s_appends WriteUint8s_appends
  WriteInt16s_appends WriteUint16s_appends WriteInt32s_appends WriteUint32s_appends
  WriteInt64s_appends WriteUint64s_appends WriteBytes_appends WriteString_appends
  : writes.

(** A well-formed writer with nothing written: what the pool hands out. *)
Definition clean (w : Writer) : Prop := wf w ∧ off w = 0.

Lemma clean_data w : clean w → data w = [].
Proof. intros [_ H]. unfold data. by rewrite H. Qed.

Lemma reset_clean w : wf w → clean (reset w).
Proof. intros [? ?]. repeat split; simpl; unfold Cap in *; simpl; lia. Qed.

(** Sequencing in the encoders: run one write, continue with its result. *)
Lemma appends_bind {B} f bs w (k : Writer → outcome B) (P : outcome B → Prop) :
  wf w → appends f bs →
  (∀ w', wf w' → data w' = data w ++ bs → P (k w')) → P (w' ← f w; k w').
Proof. intros Hw Hf HP. destruct (Hf w Hw) as (w' & -> & []). by apply HP. Qed.

End Writer.

Module Reader.

Record Reader := mkReader { buf : list Z; off : Z }.

#[global] Instance Reader_eq_dec : EqDecision Reader.
Proof. solve_decision. Defined.

Definition NewReader (data : list Z) : Reader := mkReader data 0.

Definition Reset (r : Reader) : Reader := mkReader (buf r) 0.

(** io.SeekStart, io.SeekCurrent, io.SeekEnd *)
Definition SeekStart : Z := 0.
Definition SeekCurrent : Z := 1.
Definition SeekEnd : Z := 2.

Definition Seek (offset whence : Z) (r : Reader) : outcome (Z * Reader) :=
  abs ← (if bool_decide (whence = SeekStart) then Ok offset
         else if bool_decide (whence = SeekCurrent) then Ok (wrapS 64 (off r + offset))
         else if bool_decide (whence = SeekEnd) then Ok (wrapS 64 (len (buf r) + offset))
         else Err ErrInvalidWhence);
  if bool_decide (abs < 0) then Err ErrNegativePosition
  else Ok (abs, mkReader (buf r) abs).

(** [n] elements of [b] bytes; the products and sums are [int] arithmetic. *)
Definition slices (b n : Z) (r : Reader) : outcome (list Z * Reader) :=
  let sz := wrapS 64 (b * n) in
  let fin := wrapS 64 (off r + sz) in
  if bool_decide (len (buf r) < fin) then Err ErrUnexpectedEOF
  else s ← slice (buf r) (off r) fin; Ok (s, mkReader (buf r) fin).

Definition slice1 (b : Z) (r : Reader) : outcome (list Z * Reader) := slices b 1 r.

(** One fixed-width value: [slice] then a conversion of its bytes. *)
Definition read1 {A} (b : Z) (dec : list Z → A) (r : Reader) : outcome (A * Reader) :=
  '(s, r) ← slice1 b r; Ok (dec s, r).

(** [for i := 0; i < len(buf); i += n { values = append(values, dec(buf[i:i+n])) }] *)
Fixpoint chunks {A} (n : nat) (dec : list Z → A) (fuel : nat) (s : list Z)
  : outcome (list A) :=
  match fuel with
  | O => Ok []
  | S fuel =>
      match s with
      | [] => Ok []
      | _ => if bool_decide (length s < n)%nat then Panic
             else vs ← chunks n dec fuel (drop n s); Ok (dec (take n s) :: vs)
      end
  end.

(** The body shared by the [ReadXs] family after its guard. *)
Definition readn {A} (b : Z) (dec : list Z → A) (n : Z) (r : Reader)
  : outcome (list A * Reader) :=
  '(s, r) ← slices b n r;
  _ ← make_cap b n;
  vs ← chunks (Z.to_nat b) dec (length s) s;
  Ok (vs, r).

(** [if n <= 0 { return nil, nil }] *)
Definition guarded {A} (n : Z) (k : Reader → outcome (list A * Reader)) (r : Reader)
  : outcome (list A * Reader) :=
  if bool_decide (n ≤ 0) then Ok ([], r) else k r.

Definition byte0 (s : list Z) : Z := default 0 (head s).
Definition as_bool (s : list Z) : bool := bool_decide (byte0 s = 1).

Definition ReadBool (r : Reader) : outcome (bool * Reader) := read1 b8 as_bool r.
Definition ReadBools (n : Z) (r : Reader) : outcome (list bool * Reader) :=
  guarded n (readn b8 as_bool n) r.

Definition ReadInt8 (r : Reader) : outcome (Z * Reader) :=
  read1 b8 (λ s, wrapS 8 (byte0 s)) r.
Definition ReadInt8s (n : Z) (r : Reader) : outcome (list Z * Reader) :=
  guarded n (readn b8 (λ s, wrapS 8 (byte0 s)) n) r.

Definition ReadUint8 (r : Reader) : outcome (Z * Reader) := read1 b8 byte0 r.
Definition ReadUint8s (n : Z) (r : Reader) : outcome (list Z * Reader) :=
  guarded n (readn b8 byte0 n) r.

Definition ReadInt16 o (r : Reader) : outcome (Z * Reader) :=
  read1 b16 (λ s, wrapS 16 (get_uint o s)) r.
Definition ReadInt16s o (n : Z) (r : Reader) : outcome (list Z * Reader) :=
  guarded n (readn b16 (λ s, wrapS 16 (get_uint o s)) n) r.

Definition ReadUint16 o (r : Reader) : outcome (Z * Reader) := read1 b16 (get_uint o) r.
Definition ReadUint16s o (n : Z) (r : Reader) : outcome (list Z * Reader) :=
  guarded n (readn b16 (get_uint o) n) r.

Definition ReadInt32 o (r : Reader) : outcome (Z * Reader) :=
  read1 b32 (λ s, wrapS 32 (get_uint o s)) r.
(** The 32-bit readers have no [n <= 0] guard in the source. *)
Definition ReadInt32s o (n : Z) (r : Reader) : outcome (list Z * Reader) :=
  readn b32 (λ s, wrapS 32 (get_uint o s)) n r.

Definition ReadUint32 o (r : Reader) : outcome (Z * Reader) := read1 b32 (get_uint o) r.
Definition ReadUint32s o (n : Z) (r : Reader) : outcome (list Z * Reader) :=
  readn b32 (get_uint o) n r.

Definition ReadInt64 o (r : Reader) : outcome (Z * Reader) :=
  read1 b64 (λ s, wrapS 64 (get_uint o s)) r.
Definition ReadInt64s o (n : Z) (r : Reader) : outcome (list Z * Reader) :=
  guarded n (readn b64 (λ s, wrapS 64 (get_uint o s)) n) r.

Definition ReadUint64 o (r : Reader) : outcome (Z * Reader) := read1 b64 (get_uint o) r.
Definition ReadUint64s o (n : Z) (r : Reader) : outcome (list Z * Reader) :=
  guarded n (readn b64 (get_uint o) n) r.

Definition ReadFloat32 o (r : Reader) : outcome (Z * Reader) := read1 b32 (get_uint o) r.
Definition ReadFloat32s o (n : Z) (r : Reader) : outcome (list Z * Reader) :=
  guarded n (readn b32 (get_uint o) n) r.

Definition ReadFloat64 o (r : Reader) : outcome (Z * Reader) := read1 b64 (get_uint o) r.
Definition ReadFloat64s o (n : Z) (r : Reader) : outcome (list Z * Reader) :=
  guarded n (readn b64 (get_uint o) n) r.

Definition ReadRune (r : Reader) : outcome (Z * Z * Reader) :=
  '(v, r) ← ReadInt32 LittleEndian r; Ok (v, 4, r).
Definition ReadRuneArg o (r : Reader) : outcome (Z * Reader) := ReadInt32 o r.
Definition ReadRunes o (n : Z) (r : Reader) : outcome (list Z * Reader) := ReadInt32s o n r.

Definition ReadByte (r : Reader) : outcome (Z * Reader) := ReadUint8 r.

Definition ReadBytes (n : Z) (r : Reader) : outcome (list Z * Reader) :=
  guarded n (slices b8 n) r.

Definition ReadString (n : Z) (r : Reader) : outcome (list Z * Reader) := slice1 n r.

(** ** Specification: a reader splits its input at the current offset *)

(** The reader over [pre ++ post] that has consumed [pre]. *)
Definition rd (pre post : list Z) : Reader := mkReader (pre ++ post) (len pre).

(** A Go slice is shorter than [2^62] bytes on any supported platform. *)
Definition small (s : list Z) : Prop := len s < 2 ^ 62.

Lemma wrapS64_id z : - 2 ^ 63 ≤ z < 2 ^ 63 → wrapS 64 z = z.
Proof. intros. by apply wrapS_id. Qed.

Lemma NewReader_rd post : NewReader post = rd [] post.
Proof. done. Qed.

Lemma Seek_start pre post :
  Seek (len pre) SeekStart (NewReader (pre ++ post)) = Ok (len pre, rd pre post).
Proof. unfold Seek. simpl. by rewrite bool_decide_eq_false_2 by lia. Qed.

(** [n] elements of [b] bytes are the next [b * n] bytes. *)
Lemma slices_rd b n pre xs post :
  small (pre ++ xs ++ post) → len xs = b * n →
  slices b n (rd pre (xs ++ post)) = Ok (xs, rd (pre ++ xs) post).
Proof.
  unfold small, slices, rd. simpl. intros Hs Hx. rewrite !length_app in *.
  rewrite <- Hx. rewrite (wrapS64_id (len xs)) by lia. rewrite wrapS64_id by lia.
  rewrite bool_decide_eq_false_2 by lia. rewrite slice_Ok by len_solve.
  simpl. rewrite <- app_assoc. f_equal. f_equal; [|f_equal; lia].
  rewrite Nat2Z.id, drop_app_length. rewrite take_app_le by lia.
  apply take_ge. lia.
Qed.

(** Past the end of the input every read is an error, never a panic. *)
Lemma slices_short b n pre post :
  small (pre ++ post) → 0 ≤ b * n → b * n < 2 ^ 62 → len post < b * n →
  slices b n (rd pre post) = Err ErrUnexpectedEOF.
Proof.
  unfold small, slices, rd. simpl. intros. rewrite !length_app in *.
  rewrite (wrapS64_id (b * n)) by lia. rewrite wrapS64_id by lia.
  by rewrite bool_decide_eq_true_2 by lia.
Qed.

Lemma read1_rd {A} b (dec : list Z → A) pre xs post :
  small (pre ++ xs ++ post) → len xs = b →
  read1 b dec (rd pre (xs ++ post)) = Ok (dec xs, rd (pre ++ xs) post).
Proof. intros. unfold read1, slice1. by rewrite slices_rd by (done || lia). Qed.

Lemma chunks_concat {A} n (dec : list Z → A) (l : list (list Z)) fuel :
  (0 < n)%nat → Forall (λ x, length x = n) l → (length l ≤ fuel)%nat →
  chunks n dec fuel (concat l) = Ok (dec <$> l).
Proof.
  intros Hn Hl. revert fuel. induction Hl as [|x l Hx Hl IH]; intros fuel Hf.
  - by destruct fuel.
  - destruct fuel as [|fuel]; simpl in Hf; [lia|]. cbn [chunks concat].
    destruct (x ++ concat l) as [|a s] eqn:E; [destruct x; simpl in *; [lia|done]|].
    rewrite <- E. rewrite bool_decide_eq_false_2 by (rewrite length_app; lia).
    rewrite take_app_le, take_ge by lia. rewrite <- Hx, drop_app_length, Hx.
    rewrite IH by lia. done.
Qed.

Lemma readn_rd {A} b (dec : list Z → A) n pre l post :
  0 < b → small (pre ++ concat l ++ post) → Forall (λ x, len x = b) l → len l = n →
  b * n ≤ maxAlloc →
  readn b dec n (rd pre (concat l ++ post))
    = Ok (dec <$> l, rd (pre ++ concat l) post).
Proof.
  intros Hb Hs Hl Hn Ha.
  assert (Hc : len (concat l) = b * n).
  { rewrite <- Hn. clear Hs Ha Hn. induction Hl as [|x l Hx Hl IH]; simpl; [lia|].
    rewrite length_app. lia. }
  unfold readn. rewrite slices_rd by done. simpl mbind.
  unfold make_cap. rewrite bool_decide_eq_true_2 by lia. simpl mbind.
  rewrite chunks_concat; [done|lia| |nia].
  eapply Forall_impl; [done|]. intros x ?. simpl in *. lia.
Qed.

(** The typed reads return what the typed writes put. *)

Lemma get_put_u o n w v :
  w = 8 * Z.of_nat n → in_u w v → get_uint o (put_uint o n v) = v.
Proof.
  intros -> Hv. apply get_put_uint. unfold in_u in Hv.
  change 256 with (2 ^ 8). rewrite <- Z.pow_mul_r by lia. done.
Qed.

Lemma get_put_s o n w v :
  w = 8 * Z.of_nat n → 0 < w → in_s w v →
  wrapS w (get_uint o (put_uint o n (wrapU w v))) = v.
Proof.
  intros Hn Hw Hv. rewrite (get_put_u o n w) by (done || apply wrapU_range; lia).
  by apply wrapS_wrapU_id.
Qed.

Section typed_reads.
Context (o : ByteOrder) (pre post : list Z).

Ltac one k := intros; unfold ReadBool, ReadUint8, ReadInt8, ReadUint16, ReadInt16,
  ReadUint32, ReadInt32, ReadUint64, ReadInt64;
  rewrite read1_rd by (done || by rewrite length_put_uint);
  (f_equal; f_equal); k.

Lemma ReadUint8_rd v : small (pre ++ [v] ++ post) →
  ReadUint8 (rd pre ([v] ++ post)) = Ok (v, rd (pre ++ [v]) post).
Proof. intros. unfold ReadUint8. by rewrite read1_rd. Qed.

Lemma ReadBool_rd (v : bool) :
  small (pre ++ [if v then 1 else 0] ++ post) →
  ReadBool (rd pre ([if v then 1 else 0] ++ post))
    = Ok (v, rd (pre ++ [if v then 1 else 0]) post).
Proof. intros. unfold ReadBool. rewrite read1_rd by done. by destruct v. Qed.

Lemma ReadInt8_rd v : in_s 8 v → small (pre ++ [wrapU 8 v] ++ post) →
  ReadInt8 (rd pre ([wrapU 8 v] ++ post)) = Ok (v, rd (pre ++ [wrapU 8 v]) post).
Proof.
  intros. unfold ReadInt8. rewrite read1_rd by done.
  f_equal. f_equal. by apply (wrapS_wrapU_id 8).
Qed.

Lemma ReadUint16_rd v : in_u 16 v → small (pre ++ put_uint o 2 v ++ post) →
  ReadUint16 o (rd pre (put_uint o 2 v ++ post)) = Ok (v, rd (pre ++ put_uint o 2 v) post).
Proof. one ltac:(by apply (get_put_u o 2 16)). Qed.

Lemma ReadUint32_rd v : in_u 32 v → small (pre ++ put_uint o 4 v ++ post) →
  ReadUint32 o (rd pre (put_uint o 4 v ++ post)) = Ok (v, rd (pre ++ put_uint o 4 v) post).
Proof. one ltac:(by apply (get_put_u o 4 32)). Qed.

Lemma ReadUint64_rd v : in_u 64 v → small (pre ++ put_uint o 8 v ++ post) →
  ReadUint64 o (rd pre (put_uint o 8 v ++ post)) = Ok (v, rd (pre ++ put_uint o 8 v) post).
Proof. one ltac:(by apply (get_put_u o 8 64)). Qed.

Lemma ReadInt64_rd v : in_s 64 v → small (pre ++ put_uint o 8 (wrapU 64 v) ++ post) →
  ReadInt64 o (rd pre (put_uint o 8 (wrapU 64 v) ++ post))
    = Ok (v, rd (pre ++ put_uint o 8 (wrapU 64 v)) post).
Proof. one ltac:(by apply (get_put_s o 8 64)). Qed.

(** A homogeneous run of encoded values is read back whole. *)
Lemma readn_enc {A} (enc : A → list Z) (dec : list Z → A) k l :
  0 < k → (∀ v, v ∈ l → dec (enc v) = v) → (∀ v, len (enc v) = k) →
  let bs := concat (enc <$> l) in
  small (pre ++ bs ++ post) → k * len l ≤ maxAlloc →
  readn k dec (len l) (rd pre (bs ++ post)) = Ok (l, rd (pre ++ bs) post).
Proof.
  intros Hk Hd He bs Hs Ha. unfold bs. rewrite readn_rd; try done.
  - f_equal. f_equal. rewrite <- list_fmap_compose.
    rewrite <- (list_fmap_id l) at 2. apply list_fmap_ext.
    intros i v Hv. simpl. apply Hd. by eapply list_elem_of_lookup_2.
  - apply Forall_fmap, Forall_true. intros v. apply He.
  - by rewrite length_fmap.
Qed.

Lemma guarded_enc {A} (enc : A → list Z) (dec : list Z → A) k l :
  0 < k → (∀ v, v ∈ l → dec (enc v) = v) → (∀ v, len (enc v) = k) →
  let bs := concat (enc <$> l) in
  small (pre ++ bs ++ post) → k * len l ≤ maxAlloc →
  guarded (len l) (readn k dec (len l)) (rd pre (bs ++ post))
    = Ok (l, rd (pre ++ bs) post).
Proof.
  intros Hk Hd He bs Hs Ha. unfold guarded. bcase.
  - destruct l; simpl in *; [|lia]. by rewrite app_nil_r.
  - by apply readn_enc.
Qed.

Lemma ReadInt64s_rd l : Forall (in_s 64) l →
  let bs := concat ((λ v, put_uint o 8 (wrapU 64 v)) <$> l) in
  small (pre ++ bs ++ post) → 8 * len l ≤ maxAlloc →
  ReadInt64s o (len l) (rd pre (bs ++ post)) = Ok (l, rd (pre ++ bs) post).
Proof.
  intros Hl bs Hs Ha. rewrite Forall_forall in Hl.
  apply guarded_enc; try done; intros.
  - apply (get_put_s o 8 64); try done. by apply Hl.
  - by rewrite length_put_uint.
Qed.

Lemma ReadString_rd s : small (pre ++ s ++ post) →
  ReadString (len s) (rd pre (s ++ post)) = Ok (s, rd (pre ++ s) post).
Proof. intros. unfold ReadString, slice1. by rewrite slices_rd by (done || lia). Qed.
End typed_reads.

(** A reader as [Seek] and the reads leave it: any non-negative offset. *)
Definition sane (r : Reader) : Prop := 0 ≤ off r < 2 ^ 62 ∧ small (buf r).

Lemma slices_no_panic b n r :
  sane r → 0 ≤ b * n < 2 ^ 62 → no_panic (slices b n r).
Proof.
  intros [? ?] ?. unfold small, slices in *.
  rewrite (wrapS64_id (b * n)) by lia. rewrite wrapS64_id by lia.
  bcase; [done|]. by rewrite slice_Ok by lia.
Qed.

(** A successful read leaves a sane reader inside the same input. *)
Lemma slices_sane b n r s r' :
  sane r → 0 ≤ b * n < 2 ^ 62 → slices b n r = Ok (s, r') →
  sane r' ∧ buf r' = buf r ∧ off r' = off r + b * n ∧ off r' ≤ len (buf r)
  ∧ len s = b * n.
Proof.
  intros [? Hs] ?. unfold slices, small in *.
  rewrite (wrapS64_id (b * n)) by lia. rewrite wrapS64_id by lia.
  bcase; [done|]. rewrite slice_Ok by lia. simpl. intros [= <- <-].
  unfold sane, small. simpl. split_and!; first [done | len_solve].
Qed.

(** The two outcomes of a read at a sane offset. *)
Lemma slices_cases b n r :
  sane r → 0 ≤ b * n < 2 ^ 62 →
  (len (buf r) < off r + b * n ∧ slices b n r = Err ErrUnexpectedEOF) ∨
  (off r + b * n ≤ len (buf r) ∧
   slices b n r = Ok (take (Z.to_nat (b * n)) (drop (Z.to_nat (off r)) (buf r)),
                      mkReader (buf r) (off r + b * n))).
Proof.
  intros [? Hs] ?. unfold slices, small in *.
  rewrite (wrapS64_id (b * n)) by lia. rewrite wrapS64_id by lia.
  bcase; [left; split; [lia|done]|right; split; [lia|]].
  rewrite slice_Ok by lia. run. do 3 f_equal. lia.
Qed.

Lemma read1_cases {A} b (dec : list Z → A) r :
  sane r → 0 ≤ b < 2 ^ 62 →
  (len (buf r) < off r + b ∧ read1 b dec r = Err ErrUnexpectedEOF) ∨
  (off r + b ≤ len (buf r) ∧
   read1 b dec r = Ok (dec (take (Z.to_nat b) (drop (Z.to_nat (off r)) (buf r))),
                       mkReader (buf r) (off r + b))).
Proof.
  intros Hr Hb. unfold read1, slice1. rewrite <- (Z.mul_1_r b) in Hb.
  destruct (slices_cases b 1 r Hr Hb) as [[? ->]|[? ->]]; rewrite Z.mul_1_r in *;
    [by left|right; by split].
Qed.

Lemma chunks_ok {A} n (dec : list Z → A) fuel s k :
  (0 < n)%nat → length s = (n * k)%nat → ∃ l, chunks n dec fuel s = Ok l.
Proof.
  intros Hn. revert s k. induction fuel as [|fuel IH]; intros s k Hs; [by eexists|].
  cbn [chunks]. destruct s as [|a s]; [by eexists|].
  destruct k as [|k]; [simpl in Hs; lia|].
  rewrite bool_decide_eq_false_2 by lia.
  destruct (IH (drop n (a :: s)) k) as [l ->]; [rewrite length_drop; lia|by eexists].
Qed.

Lemma ReadInt64s_cases o n r :
  sane r → 0 ≤ n < 2 ^ 16 →
  (len (buf r) < off r + 8 * n ∧ ReadInt64s o n r = Err ErrUnexpectedEOF) ∨
  (∃ l r', (n = 0 ∨ off r + 8 * n ≤ len (buf r)) ∧ ReadInt64s o n r = Ok (l, r')).
Proof.
  intros Hr Hn. unfold ReadInt64s, guarded. bcase.
  - right. eexists _, _. split; [left; lia|done].
  - unfold readn. change b64 with 8. destruct (slices_cases 8 n r Hr) as [[? ->]|[Hle ->]]; [lia|by left|].
    right. run. unfold make_cap, maxAlloc. rewrite bool_decide_eq_true_2 by lia. run.
    destruct (chunks_ok (Z.to_nat 8) (λ s, wrapS 64 (get_uint o s))
      (length (take (Z.to_nat (8 * n)) (drop (Z.to_nat (off r)) (buf r))))
      (take (Z.to_nat (8 * n)) (drop (Z.to_nat (off r)) (buf r))) (Z.to_nat n)) as [l ->].
    + lia.
    + destruct Hr as [? ?]. rewrite length_take, length_drop.
      lia.
    + eexists _, _. split; [by right|done].
Qed.

Lemma read1_no_panic {A} b (dec : list Z → A) r :
  sane r → 0 ≤ b < 2 ^ 62 → no_panic (read1 b dec r).
Proof.
  intros. unfold read1, slice1. apply no_panic_bind.
  - apply slices_no_panic; [done|lia].
  - by intros [? ?] ?.
Qed.

Lemma read1_sane {A} b (dec : list Z → A) r v r' :
  sane r → 0 ≤ b < 2 ^ 62 → read1 b dec r = Ok (v, r') →
  sane r' ∧ buf r' = buf r ∧ off r' = off r + b ∧ off r' ≤ len (buf r).
Proof.
  intros ? ?. unfold read1, slice1. intros ([s r1] & E & [= <- <-])%bind_Ok.
  apply slices_sane in E; [|done|lia]. rewrite Z.mul_1_r in E. tauto.
Qed.

End Reader.

Module Bytes.

(** A pooled block: [b_buf] has the capacity of its array; [b_off] is the
    length handed out. *)
Record Bytes := mkBytes { b_buf : list Z; b_off : Z; b_pool : option nat; b_released : bool }.

#[global] Instance Bytes_eq_dec : EqDecision Bytes.
Proof. solve_decision. Defined.

Definition NewBytes (buf : list Z) : Bytes := mkBytes buf (len buf) None false.
Definition NewBytesWithCapacity (cap : Z) : Bytes :=
  mkBytes (replicate (Z.to_nat cap) 0) cap None false.

(** The methods accept a nil receiver. *)
Definition Len (b : option Bytes) : Z := match b with None => 0 | Some b => b_off b end.
Definition Cap (b : option Bytes) : Z := match b with None => 0 | Some b => len (b_buf b) end.
Definition Available (b : option Bytes) : Z :=
  match b with None => 0 | Some b => len (b_buf b) - b_off b end.
Definition bytes (b : option Bytes) : outcome (list Z) :=
  match b with
  | None => Ok []
  | Some b => _ ← slice_check (len (b_buf b)) 0 (b_off b);
              Ok (take (Z.to_nat (b_off b)) (b_buf b))
  end.

(** [Release] up to the return to the pool. *)
Definition reset (b : Bytes) : Bytes := mkBytes (b_buf b) 0 (b_pool b) (b_released b).

Definition wf (b : Bytes) : Prop := 0 ≤ b_off b ≤ len (b_buf b).

Lemma bytes_Ok b : wf b → bytes (Some b) = Ok (take (Z.to_nat (b_off b)) (b_buf b)).
Proof. intros ?. unfold wf in *. simpl. unfold slice_check. by rewrite bool_decide_eq_true_2. Qed.

End Bytes.

(** ** The graded pools

    [sync.Pool.Get] returns some item put back earlier, or a new one; which
    one is the runtime's choice, an argument here. *)
Module Pool.

Section sync_pool.
Context {A : Type}.

Definition SyncPool_Get (choice : nat) (new : A) (items : list A) : A * list A :=
  match items !! choice with
  | Some x => (x, delete choice items)
  | None => (new, items)
  end.

Definition SyncPool_Put (x : A) (items : list A) : list A := x :: items.

Lemma SyncPool_Get_spec (P : A → Prop) choice new items :
  P new → Forall P items →
  P (fst (SyncPool_Get choice new items)) ∧ Forall P (snd (SyncPool_Get choice new items)).
Proof.
  intros Hn Hi. unfold SyncPool_Get. destruct (items !! choice) as [x|] eqn:E; simpl.
  - split; [by eapply Forall_lookup_1|]. by apply Forall_delete.
  - done.
Qed.
End sync_pool.

(** The grade of a capacity: [min(int(ceil(log2(cap))), len(pools)-1)].  The
    logarithm of 0 is [-Inf], whose conversion is a negative index. *)
Definition getPool {A} (pools : list A) (cap : Z) : outcome (option nat) :=
  if bool_decide (length pools = 0)%nat then Ok None
  else if bool_decide (cap ≤ 0) then Panic
  else Ok (Some (Z.to_nat (Z.min (Z.log2_up cap) (len pools - 1)))).

Lemma getPool_Ok {A} (pools : list A) cap :
  pools ≠ [] → 1 ≤ cap →
  ∃ i, getPool pools cap = Ok (Some i) ∧ (i < length pools)%nat
       ∧ (cap ≤ 2 ^ (len pools - 1) → cap ≤ 2 ^ Z.of_nat i).
Proof.
  intros Hp Hc. unfold getPool.
  rewrite bool_decide_eq_false_2 by (by destruct pools).
  rewrite bool_decide_eq_false_2 by lia.
  assert (1 ≤ len pools) by (destruct pools; simpl; [done|lia]).
  pose proof (Z.log2_up_nonneg cap).
  eexists. split; [done|]. split; [lia|]. intros Hle. rewrite Z2Nat.id by lia.
  destruct (Z.min_spec (Z.log2_up cap) (len pools - 1)) as [[? ->]|[? ->]]; [|done].
  by apply Z.log2_log2_up_spec; lia.
Qed.

(** The writer pool: one [sync.Pool] per power of two. *)
Definition WriterPool := list (list Writer.Writer).

Definition NewWriterPool (grade : nat) : WriterPool := replicate (S grade) [].

(** [pool.New] of grade [i] *)
Definition new_writer (i : nat) : Writer.Writer :=
  Writer.mkWriter (replicate (Z.to_nat (2 ^ Z.of_nat i)) 0) (2 ^ Z.of_nat i) 0 (Some i).

Definition WriterPool_Get (choice : nat) (cap : Z) (p : WriterPool)
  : outcome (option Writer.Writer * WriterPool) :=
  oi ← getPool p cap;
  match oi with
  | None => Ok (None, p)
  | Some i =>
      items ← index p (Z.of_nat i);
      let '(w, items) := SyncPool_Get choice (new_writer i) items in
      Ok (Some w, <[i := items]> p)
  end.

Definition WriterPool_Put (w : Writer.Writer) (p : WriterPool) : outcome WriterPool :=
  oi ← getPool p (Writer.Cap w);
  match oi with
  | None => Ok p
  | Some i => Ok (alter (SyncPool_Put w) i p)
  end.

(** [Writer.Release]: reset, then back to the pool the writer came from. *)
Definition Writer_Release (w : Writer.Writer) (p : WriterPool) : WriterPool :=
  let w := Writer.reset w in
  match Writer.pool w with
  | Some i => alter (SyncPool_Put w) i p
  | None => p
  end.

(** Every pooled writer is clean and at least as large as its grade. *)
Definition writer_item (i : nat) (w : Writer.Writer) : Prop :=
  Writer.clean w ∧ 2 ^ Z.of_nat i ≤ Writer.Cap w ∧ Writer.pool w = Some i.
Definition WriterPool_wf (p : WriterPool) : Prop :=
  ∀ i items, p !! i = Some items → Forall (writer_item i) items.

(** The block pool. *)
Definition BytesPool := list (list Bytes.Bytes).

Definition NewBytesPool (grade : nat) : BytesPool := replicate (S grade) [].

Definition new_bytes (i : nat) : Bytes.Bytes :=
  Bytes.mkBytes (replicate (Z.to_nat (2 ^ Z.of_nat i)) 0) (2 ^ Z.of_nat i) (Some i) false.

(** [b.off = cap; b.released.Store(false)] on the block the pool returned. *)
Definition BytesPool_Get (choice : nat) (cap : Z) (p : BytesPool)
  : outcome (option Bytes.Bytes * BytesPool) :=
  oi ← getPool p cap;
  match oi with
  | None => Ok (None, p)
  | Some i =>
      items ← index p (Z.of_nat i);
      let '(b, items) := SyncPool_Get choice (new_bytes i) items in
      Ok (Some (Bytes.mkBytes (Bytes.b_buf b) cap (Bytes.b_pool b) false), <[i := items]> p)
  end.

Definition BytesPool_Put (b : Bytes.Bytes) (p : BytesPool) : outcome BytesPool :=
  oi ← getPool p (Bytes.Cap (Some b));
  match oi with
  | None => Ok p
  | Some i => Ok (alter (SyncPool_Put b) i p)
  end.

Definition Bytes_Release (b : Bytes.Bytes) (p : BytesPool) : BytesPool :=
  let b := Bytes.reset b in
  match Bytes.b_pool b with
  | Some i => alter (SyncPool_Put b) i p
  | None => p
  end.

Definition bytes_item (i : nat) (b : Bytes.Bytes) : Prop :=
  len (Bytes.b_buf b) = 2 ^ Z.of_nat i ∧ Bytes.b_pool b = Some i.
Definition BytesPool_wf (p : BytesPool) : Prop :=
  ∀ i items, p !! i = Some items → Forall (bytes_item i) items.

Lemma index_lookup {A} (l : list A) (i : nat) x :
  l !! i = Some x → index l (Z.of_nat i) = Ok x.
Proof.
  intros H. unfold index. rewrite bool_decide_eq_false_2 by lia.
  by rewrite Nat2Z.id, H.
Qed.

(** Updating one grade keeps an invariant of all the grades. *)
Section grades.
Context {A : Type} (item : nat → A → Prop).
Abbreviation grades_wf p := (∀ i items, p !! i = Some items → Forall (item i) items).

Lemma grades_replicate n : grades_wf (replicate n (@nil A)).
Proof. intros i items [-> _]%lookup_replicate. constructor. Qed.

Lemma grades_insert (p : list (list A)) i items :
  grades_wf p → Forall (item i) items → grades_wf (<[i := items]> p).
Proof.
  intros Hp Hi j js. destruct (decide (i = j)) as [<-|].
  - intros [[_ [-> _]]|[? ?]]%list_lookup_insert_Some; [done|naive_solver].
  - rewrite list_lookup_insert_ne by done. apply Hp.
Qed.

Lemma grades_put (p : list (list A)) i x :
  grades_wf p → item i x → grades_wf (alter (SyncPool_Put x) i p).
Proof.
  intros Hp Hx j js. rewrite list_lookup_alter. case_decide as Hij; [subst|apply Hp].
  intros (ys & Hys & ->)%fmap_Some. constructor; [done|]. by apply Hp.
Qed.
End grades.

Lemma new_writer_item i : writer_item i (new_writer i).
Proof.
  assert (0 < 2 ^ Z.of_nat i) by (apply Z.pow_pos_nonneg; lia).
  unfold writer_item, Writer.clean, Writer.wf, Writer.Cap. simpl.
  rewrite length_replicate. split_and!; lia || done.
Qed.

Lemma new_bytes_item i : bytes_item i (new_bytes i).
Proof.
  assert (0 < 2 ^ Z.of_nat i) by (apply Z.pow_pos_nonneg; lia).
  unfold bytes_item. simpl. rewrite length_replicate. split; [lia|done].
Qed.

Lemma NewWriterPool_wf g : WriterPool_wf (NewWriterPool g).
Proof. intros ???. by eapply grades_replicate. Qed.
Lemma NewBytesPool_wf g : BytesPool_wf (NewBytesPool g).
Proof. intros ???. by eapply grades_replicate. Qed.

Lemma WriterPool_Get_spec choice cap p :
  WriterPool_wf p → p ≠ [] → 1 ≤ cap →
  ∃ w p', WriterPool_Get choice cap p = Ok (Some w, p') ∧ Writer.clean w
          ∧ WriterPool_wf p' ∧ length p' = length p
          ∧ (cap ≤ 2 ^ (len p - 1) → cap ≤ Writer.Cap w).
Proof.
  intros Hp Hne Hc. destruct (getPool_Ok p cap Hne Hc) as (i & Ei & Hi & Hle).
  destruct (lookup_lt_is_Some_2 p i Hi) as [items Hit].
  unfold WriterPool_Get. rewrite Ei. simpl mbind. rewrite (index_lookup _ _ _ Hit).
  simpl mbind.
  pose proof (SyncPool_Get_spec (writer_item i) choice (new_writer i) items
    (new_writer_item i) (Hp _ _ Hit)) as [Hw Hits].
  destruct (SyncPool_Get _ _ _) as [w items']. simpl in *.
  eexists w, _. split; [done|]. destruct Hw as (Hcl & Hcap & _).
  split_and!; [done|exact (grades_insert writer_item _ _ _ Hp Hits)|apply length_insert|].
  intros H. specialize (Hle H). lia.
Qed.

Lemma Writer_Release_wf w p i :
  WriterPool_wf p → Writer.wf w → Writer.pool w = Some i → 2 ^ Z.of_nat i ≤ Writer.Cap w →
  WriterPool_wf (Writer_Release w p).
Proof.
  intros Hp Hw Hi Hc. unfold Writer_Release. simpl. rewrite Hi.
  refine (grades_put writer_item _ _ _ Hp _). split_and!; [by apply Writer.reset_clean|done|done].
Qed.

Lemma BytesPool_Get_spec choice cap p :
  BytesPool_wf p → p ≠ [] → 1 ≤ cap →
  ∃ b p', BytesPool_Get choice cap p = Ok (Some b, p') ∧ Bytes.b_off b = cap
          ∧ BytesPool_wf p' ∧ length p' = length p
          ∧ (∃ i, Bytes.b_pool b = Some i ∧ len (Bytes.b_buf b) = 2 ^ Z.of_nat i)
          ∧ (cap ≤ 2 ^ (len p - 1) → Bytes.wf b).
Proof.
  intros Hp Hne Hc. destruct (getPool_Ok p cap Hne Hc) as (i & Ei & Hi & Hle).
  destruct (lookup_lt_is_Some_2 p i Hi) as [items Hit].
  unfold BytesPool_Get. rewrite Ei. simpl mbind. rewrite (index_lookup _ _ _ Hit).
  simpl mbind.
  pose proof (SyncPool_Get_spec (bytes_item i) choice (new_bytes i) items
    (new_bytes_item i) (Hp _ _ Hit)) as [Hw Hits].
  destruct (SyncPool_Get _ _ _) as [b items']. simpl in *.
  eexists _, _. split; [done|]. destruct Hw as (Hlen & Hpool).
  split_and!; [done|exact (grades_insert bytes_item _ _ _ Hp Hits)|apply length_insert|by eexists|].
  intros H. specialize (Hle H). unfold Bytes.wf. simpl. lia.
Qed.

Lemma Bytes_Release_wf b p i :
  BytesPool_wf p → bytes_item i b → BytesPool_wf (Bytes_Release b p).
Proof.
  intros Hp [Hl Hi]. unfold Bytes_Release. simpl. rewrite Hi.
  by refine (grades_put bytes_item _ _ _ Hp _).
Qed.

End Pool.

(** ** The interface the encoders use

    [MallocWriter(n)] gives a clean writer; the encoders rely on nothing
    else.  The default pool (grade 32) is the implementation. *)

Class WriterAlloc := {
  MallocWriter : Z → outcome Writer.Writer;
  MallocWriter_clean : ∀ n, 1 ≤ n → ∃ w, MallocWriter n = Ok w ∧ Writer.clean w;
}.

(** The pool's [Get] behind [MallocWriter]: a nil writer is dereferenced. *)
Definition pool_malloc (choice : nat) (p : Pool.WriterPool) (n : Z) : outcome Writer.Writer :=
  '(w, _) ← Pool.WriterPool_Get choice n p;
  match w with Some w => Ok w | None => Panic end.

#[refine] Instance pool_alloc (choice : nat) (p : Pool.WriterPool)
    (Hp : Pool.WriterPool_wf p) (Hne : p ≠ []) : WriterAlloc :=
  { MallocWriter := pool_malloc choice p }.
Proof.
  intros n Hn. destruct (Pool.WriterPool_Get_spec choice n p Hp Hne Hn)
    as (w & p' & E & Hw & _).
  exists w. unfold pool_malloc. by rewrite E.
Defined.

(** The process-wide pool: [NewWriterPool(32)], before any writer came back. *)
Definition default_alloc : WriterAlloc :=
  pool_alloc 0 (Pool.NewWriterPool 32) (Pool.NewWriterPool_wf 32) ltac:(done).

(** The same for the blocks the frame reader uses. *)
Class BytesAlloc := {
  MallocBytes : Z → outcome Bytes.Bytes;
  MallocBytes_fits : ∀ n, 1 ≤ n ≤ 2 ^ 32 →
    ∃ b, MallocBytes n = Ok b ∧ Bytes.wf b ∧ Bytes.b_off b = n;
}.

Definition pool_malloc_bytes (choice : nat) (p : Pool.BytesPool) (n : Z) : outcome Bytes.Bytes :=
  '(b, _) ← Pool.BytesPool_Get choice n p;
  match b with Some b => Ok b | None => Panic end.

#[refine] Instance pool_bytes_alloc (choice : nat) (p : Pool.BytesPool)
    (Hp : Pool.BytesPool_wf p) (Hl : length p = 33%nat) : BytesAlloc :=
  { MallocBytes := pool_malloc_bytes choice p }.
Proof.
  intros n Hn. destruct (Pool.BytesPool_Get_spec choice n p Hp)
    as (b & p' & E & Ho & _ & _ & _ & Hfit); [by destruct p|lia|].
  exists b. unfold pool_malloc_bytes. rewrite E. split_and!; [done| |done].
  apply Hfit. rewrite Hl. change (2 ^ (Z.of_nat 33 - 1)) with (2 ^ 32). lia.
Defined.

Definition default_bytes_alloc : BytesAlloc :=
  pool_bytes_alloc 0 (Pool.NewBytesPool 32) (Pool.NewBytesPool_wf 32) eq_refl.

(** ** Properties *)

Import Writer Reader.

(** Write with [wr] on [w], then read the bytes back with [rd]. *)
Definition write_then_read {A} (wr : Writer → outcome Writer)
    (rd : Reader → outcome (A * Reader)) (w : Writer) : outcome A :=
  w ← wr w; bs ← Writer.Bytes w; '(v, _) ← rd (NewReader bs); Ok v.

Lemma write_then_read_intro {A} wr bs (rd : Reader → outcome (A * Reader)) w v r :
  clean w → appends wr bs → rd (Reader.rd [] bs) = Ok (v, r) →
  write_then_read wr rd w = Ok v.
Proof.
  intros Hw Hwr Hrd. unfold write_then_read.
  destruct (Hwr w) as (w' & -> & W); [by apply Hw|]. simpl mbind.
  rewrite writer_Bytes_data by apply W. simpl mbind.
  rewrite (wrote_data _ _ _ W), clean_data by done.
  rewrite NewReader_rd. simpl app. by rewrite Hrd.
Qed.

Lemma write_then_read_list {A} wr (enc : A → list Z) k dec (l : list A) rd w :
  clean w → appends wr (concat (enc <$> l)) →
  0 < k → (∀ v, v ∈ l → dec (enc v) = v) → (∀ v, len (enc v) = k) →
  k * len l ≤ maxAlloc →
  (rd = readn k dec (len l) ∨ rd = guarded (len l) (readn k dec (len l))) →
  write_then_read wr rd w = Ok l.
Proof.
  intros Hw Hwr Hk Hd He Ha Hrd.
  eapply write_then_read_intro; [done..|].
  assert (small ([] ++ concat (enc <$> l) ++ [])) as Hs.
  { unfold small. rewrite app_nil_r. simpl. rewrite (concat_length_const _ k) by done.
    unfold maxAlloc in Ha. lia. }
  rewrite <- (app_nil_r (concat _)).
  destruct Hrd as [-> | ->]; [by apply readn_enc|by apply guarded_enc].
Qed.

Ltac wr_list lem k :=
  eapply (write_then_read_list _ _ k); first
    [done | apply lem | (intros; cbv beta; by rewrite length_put_uint) | (right; reflexivity)
    | (left; reflexivity) | idtac].

Lemma Forall_in {A} (P : A → Prop) l v : Forall P l → v ∈ l → P v.
Proof. rewrite Forall_forall. auto. Qed.

(** C34. Writing a list of values of any of the eight integer types, of
    booleans or a string to a writer from the pool and reading as many back
    gives the same values, in either byte order. *)
Theorem typed_write_read_roundtrip (o : ByteOrder) (w : Writer) :
  clean w →
  (∀ l, len l ≤ maxAlloc → write_then_read (WriteBools l) (ReadBools (len l)) w = Ok l) ∧
  (∀ l, len l ≤ maxAlloc → Forall (in_s 8) l →
    write_then_read (WriteInt8s l) (ReadInt8s (len l)) w = Ok l) ∧
  (∀ l, len l ≤ maxAlloc → write_then_read (WriteUint8s l) (ReadUint8s (len l)) w = Ok l) ∧
  (∀ l, 2 * len l ≤ maxAlloc → Forall (in_s 16) l →
    write_then_read (WriteInt16s o l) (ReadInt16s o (len l)) w = Ok l) ∧
  (∀ l, 2 * len l ≤ maxAlloc → Forall (in_u 16) l →
    write_then_read (WriteUint16s o l) (ReadUint16s o (len l)) w = Ok l) ∧
  (∀ l, 4 * len l ≤ maxAlloc → Forall (in_s 32) l →
    write_then_read (WriteInt32s o l) (ReadInt32s o (len l)) w = Ok l) ∧
  (∀ l, 4 * len l ≤ maxAlloc → Forall (in_u 32) l →
    write_then_read (WriteUint32s o l) (ReadUint32s o (len l)) w = Ok l) ∧
  (∀ l, 8 * len l ≤ maxAlloc → Forall (in_s 64) l →
    write_then_read (WriteInt64s o l) (ReadInt64s o (len l)) w = Ok l) ∧
  (∀ l, 8 * len l ≤ maxAlloc → Forall (in_u 64) l →
    write_then_read (WriteUint64s o l) (ReadUint64s o (len l)) w = Ok l) ∧
  (∀ s, len s ≤ maxAlloc → write_then_read (WriteString s) (ReadString (len s)) w = Ok s).
Proof.
  intros Hw. split_and!; intros l Hl; try intros Hr.
  - wr_list WriteBools_appends 1; [intros [] ?; done|lia].
  - wr_list WriteInt8s_appends 1; [|lia]. intros.
    apply (wrapS_wrapU_id 8); [done|]. by eapply Forall_in.
  - wr_list WriteUint8s_appends 1; [done|lia].
  - wr_list WriteInt16s_appends 2. intros. apply (get_put_s o 2 16); try done.
    by eapply Forall_in.
  - wr_list WriteUint16s_appends 2. intros. apply (get_put_u o 2 16); try done.
    by eapply Forall_in.
  - wr_list WriteInt32s_appends 4. intros. apply (get_put_s o 4 32); try done.
    by eapply Forall_in.
  - wr_list WriteUint32s_appends 4. intros. apply (get_put_u o 4 32); try done.
    by eapply Forall_in.
  - wr_list WriteInt64s_appends 8. intros. apply (get_put_s o 8 64); try done.
    by eapply Forall_in.
  - wr_list WriteUint64s_appends 8. intros. apply (get_put_u o 8 64); try done.
    by eapply Forall_in.
  - eapply write_then_read_intro; [done|apply WriteString_appends|].
    pose proof (ReadString_rd [] [] l) as E. rewrite app_nil_r in E. apply E.
    unfold small. simpl. unfold maxAlloc in Hl. lia.
Qed.

Lemma typed_write_read_roundtrip_witness :
  clean (Pool.new_writer 3) ∧
  write_then_read (WriteInt32s BigEndian [-2; 7; 2147483647])
    (ReadInt32s BigEndian 3) (Pool.new_writer 3) = Ok [-2; 7; 2147483647].
Proof.
  assert (H : clean (Pool.new_writer 3)) by (split; [split|]; vm_compute; done).
  split; [exact H|].
  destruct (typed_write_read_roundtrip BigEndian (Pool.new_writer 3) H)
    as (_ & _ & _ & _ & _ & H32 & _).
  apply (H32 [-2; 7; 2147483647]); [vm_compute; done|].
  repeat constructor; vm_compute; done.
Defined.

(** A writer is an append-only byte string whatever capacity the pool
    gave it: each typed write succeeds, leaves what was written untouched,
    appends exactly the encoding of its arguments and keeps the allocation
    invariant. *)
Theorem writer_append_only (o : ByteOrder) (w : Writer) :
  wf w →
  let emits m bs := ∃ w', m w = Ok w' ∧ wf w' ∧ Writer.Bytes w' = Ok (data w ++ bs) in
  (∀ l, emits (WriteBools l) (concat ((λ v : bool, [if v then 1 else 0]) <$> l))) ∧
  (∀ l, emits (WriteInt8s l) (wrapU 8 <$> l)) ∧
  (∀ l, emits (WriteUint8s l) l) ∧
  (∀ l, emits (WriteInt16s o l) (concat ((λ v, put_uint o 2 (wrapU 16 v)) <$> l))) ∧
  (∀ l, emits (WriteUint16s o l) (concat (put_uint o 2 <$> l))) ∧
  (∀ l, emits (WriteInt32s o l) (concat ((λ v, put_uint o 4 (wrapU 32 v)) <$> l))) ∧
  (∀ l, emits (WriteUint32s o l) (concat (put_uint o 4 <$> l))) ∧
  (∀ l, emits (WriteInt64s o l) (concat ((λ v, put_uint o 8 (wrapU 64 v)) <$> l))) ∧
  (∀ l, emits (WriteUint64s o l) (concat (put_uint o 8 <$> l))) ∧
  (∀ l, emits (WriteString l) l).
Proof.
  intros Hw emits.
  assert (Hsingle : ∀ (f : Z → Z) l, concat ((λ v, [f v]) <$> l) = f <$> l).
  { intros f l. induction l as [|v l IH]; [done|]. rewrite !fmap_cons. simpl.
    by rewrite IH. }
  assert (H : ∀ m bs, appends m bs → emits m bs).
  { intros m bs Hm. destruct (Hm w Hw) as (w' & E & W). exists w'.
    split_and!; [done|apply W|]. rewrite writer_Bytes_data by apply W. f_equal. apply W. }
  split_and!; intros l; try (apply H; auto with writes; fail).
  - rewrite <- Hsingle. apply H, WriteInt8s_appends.
  - rewrite <- (list_fmap_id l) at 2. rewrite <- Hsingle.
    apply H, WriteUint8s_appends.
Qed.

Lemma writer_append_only_witness :
  wf (Pool.new_writer 0) ∧
  ∃ w', WriteUint64s BigEndian [258] (Pool.new_writer 0) = Ok w' ∧ wf w' ∧
        Writer.Bytes w' = Ok [0; 0; 0; 0; 0; 0; 1; 2].
Proof.
  assert (H : wf (Pool.new_writer 0)) by (split; vm_compute; done).
  split; [exact H|].
  destruct (writer_append_only BigEndian (Pool.new_writer 0) H)
    as (_ & _ & _ & _ & _ & _ & _ & _ & H64 & _).
  exact (H64 [258]).
Defined.

(** [m] reads [k] bytes, or fails with ErrUnexpectedEOF when fewer are left. *)
Definition reads_or_eof {A} (r : Reader) (k : Z) (m : outcome (A * Reader)) : Prop :=
  if bool_decide (off r + k ≤ len (buf r))
  then ∃ v, m = Ok (v, mkReader (buf r) (off r + k))
  else m = Err ErrUnexpectedEOF.



(** Unlike the other list reads, the 32-bit ones have no guard on the count:
    a negative count reaches the slice expression and panics. *)
Lemma ReadInt32s_negative_panics :
  ReadInt32s BigEndian (-1) (mkReader [1; 2; 3; 4; 5] 4) = Panic ∧
  ReadInt64s BigEndian (-1) (mkReader [1; 2; 3; 4; 5] 4)
    = Ok ([], mkReader [1; 2; 3; 4; 5] 4).
Proof. done. Qed.

(** The states the default block pool goes through: any interleaving of
    [MallocBytes] (of any size the runtime can index) and [Release]. *)
Inductive pool_reach : Pool.BytesPool → Prop :=
  | pool_init : pool_reach (Pool.NewBytesPool 32)
  | pool_get p choice cap b p' :
      pool_reach p → Pool.BytesPool_Get choice cap p = Ok (Some b, p') → pool_reach p'
  | pool_release p b i :
      pool_reach p → Pool.bytes_item i b → pool_reach (Pool.Bytes_Release b p).

Lemma pool_reach_wf p : pool_reach p → Pool.BytesPool_wf p ∧ length p = 33%nat.
Proof.
  induction 1 as [|p choice cap b p' _ [IH Hl] E|p b i _ [IH Hl] Hb].
  - split; [apply Pool.NewBytesPool_wf|done].
  - destruct (decide (1 ≤ cap)).
    + destruct (Pool.BytesPool_Get_spec choice cap p IH) as (b' & p1 & E' & _ & ? & ? & _);
        [by destruct p|done|]. rewrite E in E'. simplify_eq. split; [done|lia].
    + unfold Pool.BytesPool_Get, Pool.getPool in E.
      rewrite bool_decide_eq_false_2 in E by (rewrite Hl; done).
      by rewrite bool_decide_eq_true_2 in E by lia.
  - split; [by eapply Pool.Bytes_Release_wf|].
    unfold Pool.Bytes_Release. simpl. destruct (Bytes.b_pool b); [|done].
    etrans; [apply (length_alter (A:=list Bytes.Bytes))|done].
Qed.

(** The block pool keeps its promise in every state it can reach: a
    block of [cap] bytes, for any [cap] up to 2^32, has a backing array of at
    least [cap] bytes, so its [Bytes()] is in range and has [cap] bytes; the
    array has exactly the size of its grade. *)
Theorem bytes_pool_get_in_range (p : Pool.BytesPool) (choice : nat) (cap : Z) :
  pool_reach p → 1 ≤ cap ≤ 2 ^ 32 →
  ∃ b p', Pool.BytesPool_Get choice cap p = Ok (Some b, p') ∧ pool_reach p' ∧
    Bytes.Len (Some b) = cap ∧
    (∃ s, Bytes.bytes (Some b) = Ok s ∧ len s = cap) ∧
    ∃ i, Bytes.b_pool b = Some i ∧ Bytes.Cap (Some b) = 2 ^ Z.of_nat i.
Proof.
  intros Hp Hc. destruct (pool_reach_wf p Hp) as [Hwf Hl].
  destruct (Pool.BytesPool_Get_spec choice cap p Hwf)
    as (b & p' & E & Ho & Hwf' & Hl' & Hi & Hfit); [by destruct p|lia|].
  exists b, p'. rewrite Hl in Hfit.
  change (2 ^ (Z.of_nat 33 - 1)) with (2 ^ 32) in Hfit.
  specialize (Hfit ltac:(lia)).
  split_and!; [done|by eapply pool_get|done| |done].
  eexists. split; [by apply Bytes.bytes_Ok|]. unfold Bytes.wf in Hfit. len_solve.
Qed.

Lemma bytes_pool_get_in_range_witness :
  pool_reach (Pool.NewBytesPool 32) ∧
  ∃ b p', Pool.BytesPool_Get 0 5 (Pool.NewBytesPool 32) = Ok (Some b, p') ∧ pool_reach p' ∧
    Bytes.Len (Some b) = 5 ∧
    (∃ s, Bytes.bytes (Some b) = Ok s ∧ len s = 5) ∧
    ∃ i, Bytes.b_pool b = Some i ∧ Bytes.Cap (Some b) = 2 ^ Z.of_nat i.
Proof.
  split; [exact pool_init|].
  apply (bytes_pool_get_in_range _ 0 5 pool_init). lia.
Defined.

(** Putting back a block that did not come from the pool breaks the promise:
    a block of 5 bytes goes to the grade of 8, and the next [Get(8)] hands
    out a block whose [Bytes()] is out of range. *)
Lemma BytesPool_Put_foreign_breaks :
  (p ← Pool.BytesPool_Put (Bytes.NewBytes [1; 2; 3; 4; 5]) (Pool.NewBytesPool 32);
   '(b, _) ← Pool.BytesPool_Get 0 8 p; Bytes.bytes b) = Panic.
Proof. done. Qed.
