(* ===== verification/Nocopy.v ===== *)
(** * core/buffer: the scatter/gather buffer

    [NocopyBuffer] (core/buffer/nocopy_buffer.go) chains blocks and other
    buffers without copying them.  Module [Tree] is the value a buffer stands
    for, used by the encoders: the mounted elements in order together with
    the node counter [num], which steers [Bytes()]. *)
From S2P Require Import Prelude Buffer.

#[local] Set Warnings "-register-all".


(** What a node holds: a raw slice, a pooled block or a writer
    (nocopy_node.go). *)
Inductive block :=
  | BRaw (s : list Z)
  | BBytes (b : Bytes.Bytes)
  | BWriter (w : Writer.Writer).

#[export] Instance block_eq_dec : EqDecision block.
Proof. solve_decision. Defined.

Module Node.

Definition Len (k : block) : Z :=
  match k with
  | BRaw s => len s
  | BBytes b => Bytes.Len (Some b)
  | BWriter w => Writer.Len w
  end.

Definition bytes (k : block) : outcome (list Z) :=
  match k with
  | BRaw s => Ok s
  | BBytes b => Bytes.bytes (Some b)
  | BWriter w => Writer.Bytes w
  end.

Definition wf (k : block) : Prop :=
  match k with BRaw _ => True | BBytes b => Bytes.wf b | BWriter w => Writer.wf w end.

(** The contents of a well-formed block. *)
Definition data (k : block) : list Z :=
  match k with
  | BRaw s => s
  | BBytes b => take (Z.to_nat (Bytes.b_off b)) (Bytes.b_buf b)
  | BWriter w => Writer.data w
  end.

Lemma bytes_data k : wf k → bytes k = Ok (data k).
Proof. destruct k; simpl; intros; [done|by apply Bytes.bytes_Ok|by apply Writer.writer_Bytes_data]. Qed.

Lemma node_Len_data k : wf k → Len k = len (data k).
Proof.
  destruct k; simpl; intros H; [done| |by rewrite Writer.data_length].
  unfold Bytes.wf in H. len_solve.
Qed.

End Node.

Module Tree.

Inductive NocopyBuffer := Nocopy (num : Z) (elems : list (block + NocopyBuffer)).

Inductive Whence := Head | Tail.

Definition num (b : NocopyBuffer) : Z := match b with Nocopy n _ => n end.
Definition elems (b : NocopyBuffer) : list (block + NocopyBuffer) :=
  match b with Nocopy _ es => es end.

Definition empty : NocopyBuffer := Nocopy 0 [].

(** [b.num++] for a node, [b.num += n.num] for a buffer. *)
Definition weight (e : block + NocopyBuffer) : Z :=
  match e with inl _ => 1 | inr c => num c end.

Definition addToHead (e : block + NocopyBuffer) (b : NocopyBuffer) : NocopyBuffer :=
  Nocopy (num b + weight e) (e :: elems b).

Definition addToTail (e : block + NocopyBuffer) (b : NocopyBuffer) : NocopyBuffer :=
  Nocopy (num b + weight e) (elems b ++ [e]).

Definition Mount (e : block + NocopyBuffer) (whence : Whence) (b : NocopyBuffer)
  : NocopyBuffer :=
  match whence with Head => addToHead e b | Tail => addToTail e b end.

Definition NewNocopyBuffer (blocks : list (block + NocopyBuffer)) : NocopyBuffer :=
  foldl (λ b e, Mount e Tail b) empty blocks.

Fixpoint Len (b : NocopyBuffer) : Z :=
  match b with
  | Nocopy _ es =>
      (fix go es := match es with
        | [] => 0
        | inl k :: es => Node.Len k + go es
        | inr c :: es => Len c + go es
        end) es
  end.

(** With one node counted the head's own bytes are returned, uncopied. *)
Fixpoint Bytes (b : NocopyBuffer) : outcome (list Z) :=
  match b with
  | Nocopy n es =>
      if bool_decide (n = 0) then Ok []
      else if bool_decide (n = 1) then
        match es with
        | [] => Ok []
        | inl k :: _ => Node.bytes k
        | inr c :: _ => Bytes c
        end
      else
        (fix go es := match es with
          | [] => Ok []
          | inl k :: es => s ← Node.bytes k; t ← go es; Ok (s ++ t)
          | inr c :: es => s ← Bytes c; t ← go es; Ok (s ++ t)
          end) es
  end.

(** The nodes [Visit] reaches, in order. *)
Fixpoint leaves (b : NocopyBuffer) : list block :=
  match b with
  | Nocopy _ es =>
      (fix go es := match es with
        | [] => []
        | inl k :: es => k :: go es
        | inr c :: es => leaves c ++ go es
        end) es
  end.

(** [Visit(fn)] with a callback over a state: stops when it returns false. *)
Fixpoint visit_nodes {S} (fn : S → block → S * bool) (s : S) (l : list block) : S * bool :=
  match l with
  | [] => (s, true)
  | k :: l => let '(s, more) := fn s k in
              if more then visit_nodes fn s l else (s, false)
  end.

Definition Visit {S} (fn : S → block → S * bool) (s : S) (b : NocopyBuffer) : S * bool :=
  visit_nodes fn s (leaves b).

Definition elem_leaves (e : block + NocopyBuffer) : list block :=
  match e with inl k => [k] | inr c => leaves c end.

Lemma leaves_concat n es : leaves (Nocopy n es) = concat (elem_leaves <$> es).
Proof.
  unfold leaves. fold leaves. induction es as [|[k|c] es IH]; [done|..];
    rewrite fmap_cons; cbn [concat elem_leaves]; by rewrite <- IH.
Qed.

(** The bytes the buffer stands for. *)
Definition data (b : NocopyBuffer) : list Z := concat (Node.data <$> leaves b).
Definition elem_data (e : block + NocopyBuffer) : list Z :=
  concat (Node.data <$> elem_leaves e).

Lemma data_concat n es : data (Nocopy n es) = concat (elem_data <$> es).
Proof.
  unfold data. rewrite leaves_concat. induction es as [|e es IH]; [done|].
  rewrite !fmap_cons. cbn [concat]. rewrite fmap_app, concat_app.
  by rewrite IH.
Qed.

(** A solid buffer: its counter is its number of nodes, its blocks are well
    formed and no buffer mounted in it is empty. *)
Inductive solid : NocopyBuffer → Prop :=
  | solid_intro n es :
      n = len (leaves (Nocopy n es)) →
      (∀ k, inl k ∈ es → Node.wf k) →
      (∀ c, inr c ∈ es → solid c ∧ leaves c ≠ []) →
      solid (Nocopy n es).

Definition elem_solid (e : block + NocopyBuffer) : Prop :=
  match e with inl k => Node.wf k | inr c => solid c ∧ leaves c ≠ [] end.

Lemma solid_elems n es : solid (Nocopy n es) → Forall elem_solid es.
Proof.
  inversion 1; subst. apply Forall_forall. intros [k|c] He; simpl; auto.
Qed.

(** Induction along nested buffers. *)
Lemma nocopy_ind (P : NocopyBuffer → Prop) :
  (∀ n es, (∀ c, inr c ∈ es → P c) → P (Nocopy n es)) → ∀ b, P b.
Proof.
  intros H. fix IH 1. intros [n es]. apply H.
  assert (Hall : Forall (λ e, match e with inl _ => True | inr c => P c end) es).
  { induction es as [|[k|c] es IHes]; constructor;
      [exact I|exact IHes|exact (IH c)|exact IHes]. }
  clear IH. intros c Hc. rewrite Forall_forall in Hall. exact (Hall _ Hc).
Qed.

Definition elem_Len (e : block + NocopyBuffer) : Z :=
  match e with inl k => Node.Len k | inr c => Len c end.
Definition elem_Bytes (e : block + NocopyBuffer) : outcome (list Z) :=
  match e with inl k => Node.bytes k | inr c => Bytes c end.

Lemma Len_data b : solid b → Len b = len (data b).
Proof.
  induction b as [n es IH] using nocopy_ind. intros Hs%solid_elems.
  rewrite data_concat. induction Hs as [|e es He Hs IHs]; [done|].
  rewrite fmap_cons. cbn [concat]. rewrite length_app, Nat2Z.inj_add.
  rewrite <- IHs by (intros; apply IH; [by right|done]).
  destruct e as [k|c]; cbn -[Node.Len Z.add]; f_equal.
  - unfold elem_data. simpl. rewrite app_nil_r. by apply Node.node_Len_data.
  - apply IH; [left|by destruct He].
Qed.

Lemma leaves_nil_data c : leaves c = [] → data c = [].
Proof. unfold data. by intros ->. Qed.

(** In a solid buffer [Bytes()] returns every byte, whatever branch the
    counter takes. *)
Lemma Bytes_data b : solid b → Bytes b = Ok (data b).
Proof.
  induction b as [n es IH] using nocopy_ind. intros Hsol.
  pose proof (solid_elems _ _ Hsol) as Hs.
  assert (Hn : n = len (leaves (Nocopy n es))) by (by inversion Hsol). clear Hsol.
  assert (He : ∀ e, e ∈ es → elem_Bytes e = Ok (elem_data e)).
  { intros [k|c] Hin; rewrite Forall_forall in Hs; specialize (Hs _ Hin); simpl in *.
    - unfold elem_data. simpl. rewrite app_nil_r. by apply Node.bytes_data.
    - apply IH; tauto. }
  assert (Hne : ∀ e, e ∈ es → elem_leaves e ≠ []).
  { intros [k|c] Hin; rewrite Forall_forall in Hs; specialize (Hs _ Hin); simpl in *;
      [done|tauto]. }
  rewrite leaves_concat in Hn.
  cbn [Bytes]. rewrite data_concat. bcase; [|bcase].
  - destruct es as [|x es]; [done|]. exfalso.
    assert (elem_leaves x ≠ []) by (apply Hne; left). rewrite fmap_cons in Hn.
    cbn [concat] in Hn. rewrite length_app in Hn.
    destruct (elem_leaves x); simpl in *; [done|lia].
  - destruct es as [|x [|y es]].
    + simpl in *. lia.
    + rewrite fmap_cons. cbn [concat]. simpl. rewrite app_nil_r.
      rewrite <- (He x) by left. by destruct x.
    + exfalso. assert (elem_leaves x ≠ []) by (apply Hne; left).
      assert (elem_leaves y ≠ []) by (apply Hne; right; left).
      rewrite !fmap_cons in Hn. cbn [concat] in Hn. rewrite !length_app in Hn.
      destruct (elem_leaves x), (elem_leaves y); simpl in *; done || lia.
  - clear -He. induction es as [|x es IHes]; [done|]. rewrite fmap_cons. cbn [concat].
    specialize (IHes ltac:(intros; apply He; by right)).
    pose proof (He x ltac:(left)) as Hx. destruct x; cbn [elem_Bytes] in Hx;
      rewrite Hx; simpl mbind; by rewrite IHes.
Qed.

Lemma NewNocopyBuffer_elems l :
  NewNocopyBuffer l = Nocopy (foldr Z.add 0 (weight <$> l)) l.
Proof.
  unfold NewNocopyBuffer. assert (∀ b, foldl (λ b e, Mount e Tail b) b l
    = Nocopy (num b + foldr Z.add 0 (weight <$> l)) (elems b ++ l)) as ->; [|done].
  induction l as [|e l IH]; intros b.
  - simpl. rewrite Z.add_0_r, app_nil_r. by destruct b.
  - cbn [foldl]. rewrite IH, fmap_cons. cbn [foldr Mount addToTail num elems].
    f_equal; [lia|]. by rewrite <- app_assoc.
Qed.

Lemma weight_leaves e : elem_solid e → weight e = len (elem_leaves e).
Proof. destruct e as [k|[n es]]; [done|]. intros [Hs _]. by inversion Hs. Qed.

(** Mounting solid elements gives a solid buffer of their concatenation. *)
Lemma NewNocopyBuffer_solid l :
  Forall elem_solid l →
  solid (NewNocopyBuffer l) ∧ data (NewNocopyBuffer l) = concat (elem_data <$> l).
Proof.
  intros Hl. rewrite NewNocopyBuffer_elems, data_concat. split; [|done].
  constructor.
  - rewrite leaves_concat. induction Hl as [|e l He Hl IH]; [done|].
    rewrite !fmap_cons. cbn [concat foldr]. rewrite length_app, IH, weight_leaves by done.
    lia.
  - intros k Hk. rewrite Forall_forall in Hl. by apply (Hl (inl k)).
  - intros c Hc. rewrite Forall_forall in Hl. by apply (Hl (inr c)).
Qed.

End Tree.
