(* ===== verification/Ip.v ===== *)
(** * utils/xnet: dotted IPv4 addresses and 32-bit integers

    [IP2Long] and [Long2IP] of utils/xnet/x_net_tool.go, with the parts of
    package net they use: [net.ParseIP] on dotted addresses and the printing
    of a 4-byte address.  Parsing of IPv6 text is an argument: the code keeps
    of it only what [To4] gives. *)
From S2P Require Import Prelude.

Module Ip.

Definition dot : Z := 46.

(** One octet in decimal, without leading zeros. *)
Definition octet (b : Z) : list Z :=
  if bool_decide (b < 10) then [48 + b]
  else if bool_decide (b < 100) then [48 + b / 10; 48 + b mod 10]
  else [48 + b / 100; 48 + (b / 10) mod 10; 48 + b mod 10].

Definition Long2IP (v : Z) : list Z :=
  match put_uint BigEndian 4 v with
  | [a; b; c; d] => octet a ++ [dot] ++ octet b ++ [dot] ++ octet c ++ [dot] ++ octet d
  | _ => []
  end.

Definition is_digit (c : Z) : bool := bool_decide (48 ≤ c ≤ 57).

(** One digit of an octet: no leading zero, at most 255. *)
Definition digit (c val digLen : Z) : option (Z * Z) :=
  if bool_decide (digLen = 1 ∧ val = 0) then None
  else let val := val * 10 + c - 48 in
       if bool_decide (255 < val) then None else Some (val, digLen + 1).

(** net's dotted-quad scanner.  An empty octet, also one before the first or
    after the last dot, is an error: [digLen = 0] where the octet ends. *)
Fixpoint parseIPv4 (s fields : list Z) (val digLen : Z) : option (list Z) :=
  match s with
  | [] => if bool_decide (digLen = 0 ∨ (length fields < 3)%nat) then None
          else Some (fields ++ [val])
  | c :: s =>
      if is_digit c then
        '(val, digLen) ← digit c val digLen; parseIPv4 s fields val digLen
      else if bool_decide (c = dot) then
        if bool_decide (digLen = 0 ∨ length fields = 3%nat) then None
        else parseIPv4 s (fields ++ [val]) 0 0
      else None
  end.

(** The first separator decides the family; [%] and no separator are errors. *)
Fixpoint family (s : list Z) : option Z :=
  match s with
  | [] => None
  | c :: s => if bool_decide (c = dot ∨ c = 58 ∨ c = 37) then Some c else family s
  end.

(** [net.ParseIP(ip).To4()], [None] for nil. *)
Definition ParseIP4 (v6To4 : list Z → option (list Z)) (s : list Z) : option (list Z) :=
  match family s with
  | Some c => if bool_decide (c = dot) then parseIPv4 s [] 0 0
              else if bool_decide (c = 58) then v6To4 s else None
  | None => None
  end.

Definition IP2Long (v6To4 : list Z → option (list Z)) (ip : list Z) : Z :=
  match ParseIP4 v6To4 ip with
  | Some v => get_uint BigEndian v
  | None => 0
  end.

(** ** The scanner reads back what is printed *)

Fixpoint digits (ds : list Z) (val digLen : Z) : option (Z * Z) :=
  match ds with
  | [] => Some (val, digLen)
  | c :: ds => if is_digit c then '(v, d) ← digit c val digLen; digits ds v d else None
  end.

Lemma parse_digits ds val digLen v d rest fields :
  digits ds val digLen = Some (v, d) →
  parseIPv4 (ds ++ rest) fields val digLen = parseIPv4 rest fields v d.
Proof.
  revert val digLen. induction ds as [|c ds IH]; intros val digLen; simpl.
  - by intros [= -> ->].
  - destruct (is_digit c); [|done].
    destruct (digit c val digLen) as [[v1 d1]|]; simpl; [apply IH|done].
Qed.

(** A decidable property of an octet holds once it is checked on all 256. *)
Lemma octets_check (P : Z → bool) :
  forallb P (seqZ 0 256) = true → ∀ b, is_byte b → P b = true.
Proof.
  rewrite forallb_forall. intros H b Hb. apply H, list_elem_of_In.
  rewrite elem_of_seqZ. unfold is_byte in Hb. lia.
Qed.

Lemma octet_digits b :
  is_byte b → ∃ d, 0 < d ∧ digits (octet b) 0 0 = Some (b, d).
Proof.
  intros Hb.
  pose proof (octets_check (λ b, match digits (octet b) 0 0 with
    | Some (v, d) => (v =? b) && (0 <? d) | None => false end)) as H.
  specialize (H ltac:(vm_compute; reflexivity) b Hb). simpl in H.
  destruct (digits _ _ _) as [[v d]|]; [|done].
  apply andb_prop in H as [->%Z.eqb_eq ?%Z.ltb_lt]. by exists d.
Qed.

Lemma octet_family b rest :
  is_byte b → family (octet b ++ dot :: rest) = Some dot.
Proof.
  intros Hb.
  pose proof (octets_check (λ b, match family (octet b) with
    | None => true | _ => false end)) as H.
  specialize (H ltac:(vm_compute; reflexivity) b Hb). simpl in H.
  revert H. generalize (octet b) as l. induction l as [|c l IH]; intros Hl; [done|].
  simpl in *. destruct (bool_decide (c = dot ∨ c = 58 ∨ c = 37)); [done|]. by apply IH.
Qed.

Lemma parse_octet_dot b rest fields :
  is_byte b → (length fields < 3)%nat →
  parseIPv4 (octet b ++ dot :: rest) fields 0 0 = parseIPv4 rest (fields ++ [b]) 0 0.
Proof.
  intros Hb Hf. destruct (octet_digits b Hb) as (d & Hd & E).
  rewrite (parse_digits _ _ _ _ _ _ _ E). simpl.
  rewrite bool_decide_eq_false_2 by lia. done.
Qed.

Lemma parse_octet_end b fields :
  is_byte b → length fields = 3%nat →
  parseIPv4 (octet b) fields 0 0 = Some (fields ++ [b]).
Proof.
  intros Hb Hf. destruct (octet_digits b Hb) as (d & Hd & E).
  rewrite <- (app_nil_r (octet b)), (parse_digits _ _ _ _ _ _ _ E). simpl.
  by rewrite bool_decide_eq_false_2 by lia.
Qed.

Lemma bytes4 (l : list Z) : length l = 4%nat → ∃ a b c d, l = [a; b; c; d].
Proof. intros. destruct l as [|a [|b [|c [|d [|]]]]]; simplify_eq/=. eauto. Qed.

(** An address printed by [Long2IP] is read back, whatever the IPv6 parser. *)
Lemma IP2Long_Long2IP v6 v : in_u 32 v → IP2Long v6 (Long2IP v) = v.
Proof.
  intros Hv. unfold IP2Long, ParseIP4, Long2IP.
  pose proof (put_uint_is_byte BigEndian 4 v) as Hb.
  destruct (bytes4 (put_uint BigEndian 4 v)) as (a & b & c & d & E);
    [apply length_put_uint|].
  rewrite E in *. repeat (apply Forall_cons in Hb; destruct Hb as [? Hb]).
  simpl app. rewrite octet_family by done.
  rewrite bool_decide_eq_true_2 by done.
  rewrite !parse_octet_dot by (done || simpl; lia).
  rewrite parse_octet_end by done. simpl app.
  rewrite <- E. apply get_put_uint. exact Hv.
Qed.

Lemma Long2IP_nonempty v : Long2IP v ≠ [].
Proof.
  unfold Long2IP. destruct (bytes4 (put_uint BigEndian 4 v)) as (a & b & c & d & ->);
    [apply length_put_uint|].
  unfold octet. repeat bcase; done.
Qed.

End Ip.
