(* ===== verification/Protocol.v ===== *)
(** * internal/transporter/internal/protocol: the wire protocol between gates and nodes

    One encoder and one decoder per message, as in the source: the encoders
    write a header and the fields with [buffer.Writer] and mount the payload
    behind it, the decoders check the length where the source does and read
    the fields with [buffer.Reader].  Strings and payloads are their bytes.
    [ReadMessage], [ReaderBuffer] and [ParseBuffer] are the framing layer.

    A decoder returns its Go results as a value, or the error; the results a
    Go function leaves half-filled beside an error are not represented. *)
From S2P Require Import Prelude Buffer Nocopy.
Import Writer Reader.

(** Route numbers (route/route.go). *)
Module route.
Definition Handshake : Z := 1.
Definition Bind : Z := 2.
Definition Unbind : Z := 3.
Definition GetIP : Z := 4.
Definition Stat : Z := 5.
Definition IsOnline : Z := 6.
Definition Disconnect : Z := 7.
Definition Push : Z := 8.
Definition Multicast : Z := 9.
Definition Broadcast : Z := 10.
Definition Publish : Z := 11.
Definition Subscribe : Z := 12.
Definition Unsubscribe : Z := 13.
Definition Trigger : Z := 14.
Definition Deliver : Z := 15.
Definition GetState : Z := 16.
Definition SetState : Z := 17.
End route.

(** Result codes (codes/code.go). *)
Module codes.
Definition OK : Z := 0.
Definition NotFoundSession : Z := 1.
Definition InternalError : Z := 2.

Definition ErrorToCode (err : option error) : Z :=
  match err with
  | None => OK
  | Some ErrNotFoundSession => NotFoundSession
  | Some _ => InternalError
  end.

Definition CodeToError (code : Z) : option error :=
  if bool_decide (code = OK) then None
  else if bool_decide (code = NotFoundSession) then Some ErrNotFoundSession
  else Some ErrUnknownError.
End codes.

(** Field sizes and header bits (def.go). *)
Definition defaultSizeBytes : Z := 4.
Definition defaultHeaderBytes : Z := 1.
Definition defaultSeqBytes : Z := 8.
Definition defaultRouteBytes : Z := 1.
Definition defaultCodeBytes : Z := 2.
Definition dataBit : Z := Z.shiftl 0 7.
Definition heartbeatBit : Z := Z.shiftl 1 7.

(** Offset of [seq], and of what follows it. *)
Abbreviation seqOffset := (defaultSizeBytes + defaultHeaderBytes + defaultRouteBytes).
Abbreviation bodyOffset := (seqOffset + defaultSeqBytes).

(** Valid UTF-8, as [unicode/utf8.Valid] decides it: no overlong forms, no
    surrogates, nothing above U+10FFFF. *)
Module utf8.
Definition within (lo hi b : Z) : bool := (lo <=? b) && (b <=? hi).
Definition cont : Z → bool := within 128 191.

Fixpoint Valid (s : list Z) : bool :=
  match s with
  | [] => true
  | a :: s =>
      if within 0 127 a then Valid s
      else match s with
      | [] => false
      | b :: s =>
          if within 194 223 a then cont b && Valid s
          else match s with
          | [] => false
          | c :: s =>
              if a =? 224 then within 160 191 b && cont c && Valid s
              else if a =? 237 then within 128 159 b && cont c && Valid s
              else if within 225 239 a then cont b && cont c && Valid s
              else match s with
              | [] => false
              | d :: s =>
                  if a =? 240 then within 144 191 b && cont c && cont d && Valid s
                  else if within 241 243 a then cont b && cont c && cont d && Valid s
                  else if a =? 244 then within 128 143 b && cont c && cont d && Valid s
                  else false
              end
          end
      end
  end.
End utf8.

(** encoding/json on [map[string]string]: [json.Marshal] and [json.Unmarshal]
    are operations of the environment, with the documented behaviour the code
    relies on: a map of valid UTF-8 strings reads back as written (the package
    replaces invalid bytes by U+FFFD), and its text is not empty. *)
Class JsonMap := {
  json_Marshal : gmap (list Z) (list Z) → list Z;
  json_Unmarshal : list Z → option (gmap (list Z) (list Z));
}.

Definition text_map (m : gmap (list Z) (list Z)) : Prop :=
  map_Forall (λ k v, utf8.Valid k ∧ utf8.Valid v) m.

Class JsonMapLaws `(JsonMap) := {
  json_roundtrip m : m ≠ ∅ → text_map m → json_Unmarshal (json_Marshal m) = Some m;
  json_nonempty m : m ≠ ∅ → json_Marshal m ≠ [];
}.

(** [len(xs) > 0 && xs[0] != 0] on a variadic argument. *)
Definition given (xs : list Z) : bool :=
  match xs with [] => false | x :: _ => bool_decide (x ≠ 0) end.

Section encoders.
Context `{!WriterAlloc}.

(** [size + header + route + seq], the prefix every encoder writes. *)
Definition prefix (alloc size rt seq : Z) : outcome Writer :=
  w ← MallocWriter alloc;
  w ← WriteUint32s BigEndian [wrapU 32 size] w;
  w ← WriteUint8s [dataBit] w;
  w ← WriteUint8s [rt] w;
  WriteUint64s BigEndian [seq] w.

Definition mount (w : Writer) (more : list (block + Tree.NocopyBuffer)) : Tree.NocopyBuffer :=
  Tree.NewNocopyBuffer (inl (BWriter w) :: more).

(** Message sizes, each the sum of its fields as in its file. *)
Definition handshakeReqBytes : Z := bodyOffset + b8.
Definition handshakeResBytes : Z := bodyOffset + defaultCodeBytes.
Definition bindReqBytes : Z := bodyOffset + b64 + b64.
Definition bindResBytes : Z := bodyOffset + defaultCodeBytes.
Definition unbindReqBytes : Z := bodyOffset + defaultSeqBytes + b64.
Definition unbindResBytes : Z := bodyOffset + defaultCodeBytes.
Definition getIPReqBytes : Z := bodyOffset + b8 + b64.
Definition getIPResBytes : Z := bodyOffset + defaultCodeBytes + b32.
Definition statReqBytes : Z := bodyOffset + b8.
Definition statResBytes : Z := bodyOffset + defaultCodeBytes + b64.
Definition isOnlineReqBytes : Z := bodyOffset + b8 + b64.
Definition isOnlineResBytes : Z := bodyOffset + defaultCodeBytes + b8.
Definition disconnectReqBytes : Z :=
  defaultSizeBytes + defaultHeaderBytes + defaultSeqBytes + defaultSeqBytes + b8 + b64 + b8.
Definition disconnectResBytes : Z := bodyOffset + defaultCodeBytes.
Definition pushReqBytes : Z := bodyOffset + b8 + b64.
Definition pushResBytes : Z := bodyOffset + defaultCodeBytes.
Definition multicastReqBytes : Z := bodyOffset + b8 + b16.
Definition multicastResBytes : Z := bodyOffset + defaultCodeBytes + b64.
Definition broadcastReqBytes : Z := bodyOffset + b8.
Definition broadcastResBytes : Z := bodyOffset + defaultCodeBytes + b64.
Definition publishReqBytes : Z := bodyOffset + b8.
Definition publishResBytes : Z := bodyOffset + b64.
Definition subscribeReqBytes : Z := bodyOffset + b8 + b16.
Definition subscribeResBytes : Z := bodyOffset + defaultCodeBytes.
Definition unsubscribeReqBytes : Z := bodyOffset + b8 + b16.
Definition unsubscribeResBytes : Z := bodyOffset + defaultCodeBytes.
Definition triggerReqBytes : Z := bodyOffset + b8 + b64 + b64.
Definition triggerResBytes : Z := bodyOffset + defaultCodeBytes.
Definition deliverReqBytes : Z := bodyOffset + b64 + b64 + b32.
Definition deliverResBytes : Z := bodyOffset + defaultCodeBytes.
Definition getStateReqBytes : Z := bodyOffset.
Definition getStateResBytes : Z := bodyOffset + defaultCodeBytes + b8.
Definition setStateReqBytes : Z := bodyOffset + b8.
Definition setStateResBytes : Z := bodyOffset + defaultCodeBytes.

(** handshake.go *)
Definition EncodeHandshakeReq (seq insKind : Z) (insID : list Z) : outcome Tree.NocopyBuffer :=
  let size := handshakeReqBytes + len insID in
  w ← prefix size (size - defaultSizeBytes) route.Handshake seq;
  w ← WriteUint8s [wrapU 8 insKind] w;
  w ← WriteString insID w;
  Ok (mount w []).

Definition EncodeHandshakeRes (seq code : Z) : outcome Tree.NocopyBuffer :=
  w ← prefix handshakeResBytes (handshakeResBytes - defaultSizeBytes) route.Handshake seq;
  w ← WriteUint16s BigEndian [code] w;
  Ok (mount w []).

(** bind.go *)
Definition EncodeBindReq (seq cid uid : Z) : outcome Tree.NocopyBuffer :=
  w ← prefix bindReqBytes (bindReqBytes - defaultSizeBytes) route.Bind seq;
  w ← WriteInt64s BigEndian [cid; uid] w;
  Ok (mount w []).

Definition EncodeBindRes (seq code : Z) : outcome Tree.NocopyBuffer :=
  w ← prefix bindResBytes (bindResBytes - defaultSizeBytes) route.Bind seq;
  w ← WriteUint16s BigEndian [code] w;
  Ok (mount w []).

(** unbind.go *)
Definition EncodeUnbindReq (seq uid cid : Z) : outcome Tree.NocopyBuffer :=
  w ← prefix unbindReqBytes (unbindReqBytes - defaultSizeBytes) route.Unbind seq;
  w ← WriteInt64s BigEndian [uid] w;
  w ← WriteInt64s BigEndian [cid] w;
  Ok (mount w []).

Definition EncodeUnbindRes (seq code : Z) : outcome Tree.NocopyBuffer :=
  w ← prefix unbindResBytes (unbindResBytes - defaultSizeBytes) route.Unbind seq;
  w ← WriteUint16s BigEndian [code] w;
  Ok (mount w []).

(** disconnect.go *)
Definition EncodeDisconnectReq (seq uid cid : Z) (force : bool) : outcome Tree.NocopyBuffer :=
  w ← prefix disconnectReqBytes (disconnectReqBytes - defaultSizeBytes) route.Disconnect seq;
  w ← WriteInt64s BigEndian [uid] w;
  w ← WriteInt64s BigEndian [cid] w;
  w ← WriteBools [force] w;
  Ok (mount w []).

Definition EncodeDisconnectRes (seq code : Z) : outcome Tree.NocopyBuffer :=
  w ← prefix disconnectResBytes (disconnectResBytes - defaultSizeBytes) route.Disconnect seq;
  w ← WriteUint16s BigEndian [code] w;
  Ok (mount w []).

(** stat.go *)
Definition EncodeStatReq (seq kind : Z) : outcome Tree.NocopyBuffer :=
  w ← prefix statReqBytes (statReqBytes - defaultSizeBytes) route.Stat seq;
  w ← WriteUint8s [wrapU 8 kind] w;
  Ok (mount w []).

Definition EncodeStatRes (seq code : Z) (total : list Z) : outcome Tree.NocopyBuffer :=
  let size := if bool_decide (code = codes.OK) && given total
              then statResBytes - defaultSizeBytes
              else statResBytes - defaultSizeBytes - b64 in
  w ← prefix statResBytes size route.Stat seq;
  w ← WriteUint16s BigEndian [code] w;
  w ← (if bool_decide (code = codes.OK) && given total
       then WriteUint64s BigEndian [default 0 (head total)] w else Ok w);
  Ok (mount w []).

(** isonline.go *)
Definition EncodeIsOnlineReq (seq kind target : Z) : outcome Tree.NocopyBuffer :=
  w ← prefix isOnlineReqBytes (isOnlineReqBytes - defaultSizeBytes) route.IsOnline seq;
  w ← WriteUint8s [wrapU 8 kind] w;
  w ← WriteInt64s BigEndian [target] w;
  Ok (mount w []).

Definition EncodeIsOnlineRes (seq code : Z) (isOnline : bool) : outcome Tree.NocopyBuffer :=
  w ← prefix isOnlineResBytes (isOnlineResBytes - defaultSizeBytes) route.IsOnline seq;
  w ← WriteUint16s BigEndian [code] w;
  w ← WriteBools [isOnline] w;
  Ok (mount w []).

(** push.go *)
Definition EncodePushReq (seq kind target : Z) (message : block + Tree.NocopyBuffer) : outcome Tree.NocopyBuffer :=
  w ← prefix pushReqBytes (pushReqBytes - defaultSizeBytes + Tree.elem_Len message) route.Push seq;
  w ← WriteUint8s [wrapU 8 kind] w;
  w ← WriteInt64s BigEndian [target] w;
  Ok (mount w [message]).

Definition EncodePushRes (seq code : Z) : outcome Tree.NocopyBuffer :=
  w ← prefix pushResBytes (pushResBytes - defaultSizeBytes) route.Push seq;
  w ← WriteUint16s BigEndian [code] w;
  Ok (mount w []).

(** multicast.go *)
Definition EncodeMulticastReq (seq kind : Z) (targets : list Z) (message : block + Tree.NocopyBuffer) : outcome Tree.NocopyBuffer :=
  let size := multicastReqBytes + len targets * 8 in
  w ← prefix size (size - defaultSizeBytes + Tree.elem_Len message) route.Multicast seq;
  w ← WriteUint8s [wrapU 8 kind] w;
  w ← WriteUint16s BigEndian [wrapU 16 (len targets)] w;
  w ← WriteInt64s BigEndian targets w;
  Ok (mount w [message]).

Definition EncodeMulticastRes (seq code : Z) (total : list Z) : outcome Tree.NocopyBuffer :=
  let size := if bool_decide (code = codes.OK) && given total
              then multicastResBytes - defaultSizeBytes
              else multicastResBytes - defaultSizeBytes - b64 in
  w ← prefix multicastResBytes size route.Multicast seq;
  w ← WriteUint16s BigEndian [code] w;
  w ← (if bool_decide (code = codes.OK) && given total
       then WriteUint64s BigEndian [default 0 (head total)] w else Ok w);
  Ok (mount w []).

(** broadcast.go *)
Definition EncodeBroadcastReq (seq kind : Z) (message : block + Tree.NocopyBuffer) : outcome Tree.NocopyBuffer :=
  w ← prefix broadcastReqBytes (broadcastReqBytes - defaultSizeBytes + Tree.elem_Len message) route.Broadcast seq;
  w ← WriteUint8s [wrapU 8 kind] w;
  Ok (mount w [message]).

Definition EncodeBroadcastRes (seq code : Z) (total : list Z) : outcome Tree.NocopyBuffer :=
  let size := if bool_decide (code = codes.OK) && given total
              then broadcastResBytes - defaultSizeBytes
              else broadcastResBytes - defaultSizeBytes - b64 in
  w ← prefix broadcastResBytes size route.Broadcast seq;
  w ← WriteUint16s BigEndian [code] w;
  w ← (if bool_decide (code = codes.OK) && given total
       then WriteUint64s BigEndian [default 0 (head total)] w else Ok w);
  Ok (mount w []).

(** publish.go *)
Definition EncodePublishReq (seq : Z) (channel : list Z) (message : block + Tree.NocopyBuffer) : outcome Tree.NocopyBuffer :=
  let size := publishReqBytes + len channel in
  w ← prefix size (size - defaultSizeBytes + Tree.elem_Len message) route.Publish seq;
  w ← WriteUint8s [wrapU 8 (len channel)] w;
  w ← WriteString channel w;
  Ok (mount w [message]).

Definition EncodePublishRes (seq total : Z) : outcome Tree.NocopyBuffer :=
  w ← prefix publishResBytes (publishResBytes - defaultSizeBytes) route.Publish seq;
  w ← WriteUint64s BigEndian [total] w;
  Ok (mount w []).

(** subscribe.go *)
Definition EncodeSubscribeReq (seq kind : Z) (targets channel : list Z) : outcome Tree.NocopyBuffer :=
  let size := subscribeReqBytes + len targets * 8 + len channel in
  w ← prefix size (size - defaultSizeBytes) route.Subscribe seq;
  w ← WriteUint8s [wrapU 8 kind] w;
  w ← WriteUint16s BigEndian [wrapU 16 (len targets)] w;
  w ← WriteInt64s BigEndian targets w;
  w ← WriteString channel w;
  Ok (mount w []).

Definition EncodeSubscribeRes (seq code : Z) : outcome Tree.NocopyBuffer :=
  w ← prefix subscribeResBytes (subscribeResBytes - defaultSizeBytes) route.Subscribe seq;
  w ← WriteUint16s BigEndian [code] w;
  Ok (mount w []).

(** unsubscribe.go *)
Definition EncodeUnsubscribeReq (seq kind : Z) (targets channel : list Z) : outcome Tree.NocopyBuffer :=
  let size := unsubscribeReqBytes + len targets * 8 + len channel in
  w ← prefix size (size - defaultSizeBytes) route.Unsubscribe seq;
  w ← WriteUint8s [wrapU 8 kind] w;
  w ← WriteUint16s BigEndian [wrapU 16 (len targets)] w;
  w ← WriteInt64s BigEndian targets w;
  w ← WriteString channel w;
  Ok (mount w []).

Definition EncodeUnsubscribeRes (seq code : Z) : outcome Tree.NocopyBuffer :=
  w ← prefix unsubscribeResBytes (unsubscribeResBytes - defaultSizeBytes) route.Unsubscribe seq;
  w ← WriteUint16s BigEndian [code] w;
  Ok (mount w []).

(** trigger.go *)
Definition EncodeTriggerReq (seq event cid : Z) (uid : list Z) : outcome Tree.NocopyBuffer :=
  let size := if given uid then triggerReqBytes - defaultSizeBytes
              else triggerReqBytes - defaultSizeBytes - b64 in
  w ← prefix triggerReqBytes size route.Trigger seq;
  w ← WriteUint8s [wrapU 8 event] w;
  w ← WriteInt64s BigEndian [cid] w;
  w ← (if given uid then WriteInt64s BigEndian [default 0 (head uid)] w else Ok w);
  Ok (mount w []).

Definition EncodeTriggerRes (seq code : Z) : outcome Tree.NocopyBuffer :=
  w ← prefix triggerResBytes (triggerResBytes - defaultSizeBytes) route.Trigger seq;
  w ← WriteUint16s BigEndian [code] w;
  Ok (mount w []).

(** deliver.go *)
Definition EncodeDeliverReq `{!JsonMap} (seq cid uid : Z) (metadata : gmap (list Z) (list Z))
    (buf : block + Tree.NocopyBuffer) : outcome Tree.NocopyBuffer :=
  let metadataData := if bool_decide (metadata = ∅) then [] else json_Marshal metadata in
  w ← prefix deliverReqBytes
        (deliverReqBytes - defaultSizeBytes + len metadataData + Tree.elem_Len buf)
        route.Deliver seq;
  w ← WriteInt64s BigEndian [cid; uid] w;
  w ← WriteUint32s BigEndian [wrapU 32 (len metadataData)] w;
  Ok (mount w [inl (BRaw metadataData); buf]).

Definition EncodeDeliverRes (seq code : Z) : outcome Tree.NocopyBuffer :=
  w ← prefix deliverResBytes (deliverResBytes - defaultSizeBytes) route.Deliver seq;
  w ← WriteUint16s BigEndian [code] w;
  Ok (mount w []).

(** state.go *)
Definition EncodeGetStateReq (seq : Z) : outcome Tree.NocopyBuffer :=
  w ← prefix getStateReqBytes (getStateReqBytes - defaultSizeBytes) route.GetState seq;
  Ok (mount w []).

Definition EncodeGetStateRes (seq code state : Z) : outcome Tree.NocopyBuffer :=
  w ← prefix getStateResBytes (getStateResBytes - defaultSizeBytes) route.GetState seq;
  w ← WriteUint16s BigEndian [code] w;
  w ← WriteUint8s [wrapU 8 state] w;
  Ok (mount w []).

Definition EncodeSetStateReq (seq state : Z) : outcome Tree.NocopyBuffer :=
  w ← prefix setStateReqBytes (setStateReqBytes - defaultSizeBytes) route.SetState seq;
  w ← WriteUint8s [wrapU 8 state] w;
  Ok (mount w []).

Definition EncodeSetStateRes (seq code : Z) : outcome Tree.NocopyBuffer :=
  w ← prefix setStateResBytes (setStateResBytes - defaultSizeBytes) route.SetState seq;
  w ← WriteUint16s BigEndian [code] w;
  Ok (mount w []).

(** getip.go: the address as [xnet.IP2Long] gives it; see [Ip] below. *)
Definition EncodeGetIPReq (seq kind target : Z) : outcome Tree.NocopyBuffer :=
  w ← prefix getIPReqBytes (getIPReqBytes - defaultSizeBytes) route.GetIP seq;
  w ← WriteUint8s [wrapU 8 kind] w;
  w ← WriteInt64s BigEndian [target] w;
  Ok (mount w []).

Definition EncodeGetIPRes (IP2Long : list Z → Z) (seq code : Z) (ip : list (list Z))
    : outcome Tree.NocopyBuffer :=
  let has := match ip with [] => false | s :: _ => bool_decide (s ≠ []) end in
  let size := if bool_decide (code = codes.OK) && has
              then getIPResBytes - defaultSizeBytes
              else getIPResBytes - defaultSizeBytes - 4 in
  w ← prefix getIPResBytes size route.GetIP seq;
  w ← WriteUint16s BigEndian [code] w;
  w ← (if bool_decide (code = codes.OK) && has
       then WriteUint32s BigEndian [IP2Long (default [] (head ip))] w else Ok w);
  Ok (mount w []).

End encoders.

(** ** Decoders *)

(** handshake.go *)
Definition DecodeHandshakeReq (data : list Z) : outcome (Z * Z * list Z) :=
  let r := NewReader data in
  '(_, r) ← Seek seqOffset SeekStart r;
  '(seq, r) ← ReadUint64 BigEndian r;
  '(k, r) ← ReadUint8 r;
  '(insID, _) ← ReadString (len data - handshakeReqBytes) r;
  Ok (seq, k, insID).

Definition DecodeHandshakeRes (data : list Z) : outcome Z :=
  if bool_decide (len data ≠ handshakeResBytes) then Err ErrInvalidMessage else
  let r := NewReader data in
  '(_, r) ← Seek (- defaultCodeBytes) SeekEnd r;
  '(code, _) ← ReadUint16 BigEndian r;
  Ok code.

(** bind.go *)
Definition DecodeBindReq (data : list Z) : outcome (Z * Z * Z) :=
  if bool_decide (len data ≠ bindReqBytes) then Err ErrInvalidMessage else
  let r := NewReader data in
  '(_, r) ← Seek seqOffset SeekStart r;
  '(seq, r) ← ReadUint64 BigEndian r;
  '(cid, r) ← ReadInt64 BigEndian r;
  '(uid, r) ← ReadInt64 BigEndian r;
  Ok (seq, cid, uid).

Definition DecodeBindRes (data : list Z) : outcome Z :=
  if bool_decide (len data ≠ bindResBytes) then Err ErrInvalidMessage else
  let r := NewReader data in
  '(_, r) ← Seek (- defaultCodeBytes) SeekEnd r;
  '(code, _) ← ReadUint16 BigEndian r;
  Ok code.

(** unbind.go *)
Definition DecodeUnbindReq (data : list Z) : outcome (Z * Z * Z) :=
  if bool_decide (len data ≠ unbindReqBytes) then Err ErrInvalidMessage else
  let r := NewReader data in
  '(_, r) ← Seek seqOffset SeekStart r;
  '(seq, r) ← ReadUint64 BigEndian r;
  '(uid, r) ← ReadInt64 BigEndian r;
  '(cid, r) ← ReadInt64 BigEndian r;
  Ok (seq, uid, cid).

Definition DecodeUnbindRes (data : list Z) : outcome Z :=
  if bool_decide (len data ≠ unbindResBytes) then Err ErrInvalidMessage else
  let r := NewReader data in
  '(_, r) ← Seek (- defaultCodeBytes) SeekEnd r;
  '(code, _) ← ReadUint16 BigEndian r;
  Ok code.

(** disconnect.go: the response is checked against [bindResBytes]. *)
Definition DecodeDisconnectReq (data : list Z) : outcome (Z * Z * Z * bool) :=
  if bool_decide (len data ≠ disconnectReqBytes) then Err ErrInvalidMessage else
  let r := NewReader data in
  '(_, r) ← Seek seqOffset SeekStart r;
  '(seq, r) ← ReadUint64 BigEndian r;
  '(uid, r) ← ReadInt64 BigEndian r;
  '(cid, r) ← ReadInt64 BigEndian r;
  '(force, _) ← ReadBool r;
  Ok (seq, uid, cid, force).

Definition DecodeDisconnectRes (data : list Z) : outcome Z :=
  if bool_decide (len data ≠ bindResBytes) then Err ErrInvalidMessage else
  let r := NewReader data in
  '(_, r) ← Seek (- defaultCodeBytes) SeekEnd r;
  '(code, _) ← ReadUint16 BigEndian r;
  Ok code.

(** stat.go: the response decoder seeks to the code and, unlike its siblings,
    does not read it. *)
Definition DecodeStatReq (data : list Z) : outcome (Z * Z) :=
  if bool_decide (len data ≠ statReqBytes) then Err ErrInvalidMessage else
  let r := NewReader data in
  '(_, r) ← Seek seqOffset SeekStart r;
  '(seq, r) ← ReadUint64 BigEndian r;
  '(k, r) ← ReadUint8 r;
  Ok (seq, k).

Definition DecodeStatRes (data : list Z) : outcome (Z * Z) :=
  if bool_decide (len data ≠ statResBytes ∧ len data ≠ statResBytes - 8)
  then Err ErrInvalidMessage else
  let r := NewReader data in
  '(_, r) ← Seek bodyOffset SeekStart r;
  total ← (if bool_decide (len data = statResBytes)
           then fst <$> ReadUint64 BigEndian r else Ok 0);
  Ok (0, total).

(** isonline.go *)
Definition DecodeIsOnlineReq (data : list Z) : outcome (Z * Z * Z) :=
  if bool_decide (len data ≠ isOnlineReqBytes) then Err ErrInvalidMessage else
  let r := NewReader data in
  '(_, r) ← Seek seqOffset SeekStart r;
  '(seq, r) ← ReadUint64 BigEndian r;
  '(k, r) ← ReadUint8 r;
  '(target, r) ← ReadInt64 BigEndian r;
  Ok (seq, k, target).

Definition DecodeIsOnlineRes (data : list Z) : outcome (Z * bool) :=
  if bool_decide (len data ≠ isOnlineResBytes) then Err ErrInvalidMessage else
  let r := NewReader data in
  '(_, r) ← Seek bodyOffset SeekStart r;
  '(code, r) ← ReadUint16 BigEndian r;
  '(isOnline, _) ← ReadBool r;
  Ok (code, isOnline).

(** push.go *)
Definition DecodePushReq (data : list Z) : outcome (Z * Z * Z * list Z) :=
  let r := NewReader data in
  '(_, r) ← Seek seqOffset SeekStart r;
  '(seq, r) ← ReadUint64 BigEndian r;
  '(k, r) ← ReadUint8 r;
  '(target, r) ← ReadInt64 BigEndian r;
  message ← slice_from data pushReqBytes;
  Ok (seq, k, target, message).

Definition DecodePushRes (data : list Z) : outcome Z :=
  if bool_decide (len data ≠ pushResBytes) then Err ErrInvalidMessage else
  let r := NewReader data in
  '(_, r) ← Seek (- defaultCodeBytes) SeekEnd r;
  '(code, _) ← ReadUint16 BigEndian r;
  Ok code.

(** multicast.go: [multicastReqBytes+8*count] is [uint16] arithmetic. *)
Definition DecodeMulticastReq (data : list Z) : outcome (Z * Z * list Z * list Z) :=
  let r := NewReader data in
  '(_, r) ← Seek seqOffset SeekStart r;
  '(seq, r) ← ReadUint64 BigEndian r;
  '(k, r) ← ReadUint8 r;
  '(count, r) ← ReadUint16 BigEndian r;
  '(targets, _) ← ReadInt64s BigEndian count r;
  message ← slice_from data (wrapU 16 (multicastReqBytes + 8 * count));
  Ok (seq, k, targets, message).

Definition DecodeMulticastRes (data : list Z) : outcome (Z * Z) :=
  if bool_decide (len data ≠ multicastResBytes ∧ len data ≠ multicastResBytes - b64)
  then Err ErrInvalidMessage else
  let r := NewReader data in
  '(_, r) ← Seek bodyOffset SeekStart r;
  '(code, r) ← ReadUint16 BigEndian r;
  total ← (if bool_decide (code = codes.OK ∧ len data = multicastResBytes)
           then fst <$> ReadUint64 BigEndian r else Ok 0);
  Ok (code, total).

(** broadcast.go *)
Definition DecodeBroadcastReq (data : list Z) : outcome (Z * Z * list Z) :=
  let r := NewReader data in
  '(_, r) ← Seek seqOffset SeekStart r;
  '(seq, r) ← ReadUint64 BigEndian r;
  '(k, r) ← ReadUint8 r;
  message ← slice_from data broadcastReqBytes;
  Ok (seq, k, message).

Definition DecodeBroadcastRes (data : list Z) : outcome (Z * Z) :=
  if bool_decide (len data ≠ broadcastResBytes ∧ len data ≠ broadcastResBytes - b64)
  then Err ErrInvalidMessage else
  let r := NewReader data in
  '(_, r) ← Seek bodyOffset SeekStart r;
  '(code, r) ← ReadUint16 BigEndian r;
  total ← (if bool_decide (code = codes.OK ∧ len data = broadcastResBytes)
           then fst <$> ReadUint64 BigEndian r else Ok 0);
  Ok (code, total).

(** publish.go: [publishReqBytes+channelBytes] is [uint8] arithmetic. *)
Definition DecodePublishReq (data : list Z) : outcome (Z * list Z * list Z) :=
  let r := NewReader data in
  '(_, r) ← Seek seqOffset SeekStart r;
  '(seq, r) ← ReadUint64 BigEndian r;
  '(channelBytes, r) ← ReadUint8 r;
  '(channel, _) ← ReadString channelBytes r;
  message ← slice_from data (wrapU 8 (publishReqBytes + channelBytes));
  Ok (seq, channel, message).

Definition DecodePublishRes (data : list Z) : outcome Z :=
  let r := NewReader data in
  '(_, r) ← Seek bodyOffset SeekStart r;
  '(total, _) ← ReadUint64 BigEndian r;
  Ok total.

(** subscribe.go *)
Definition DecodeSubscribeReq (data : list Z) : outcome (Z * Z * list Z * list Z) :=
  let r := NewReader data in
  '(_, r) ← Seek seqOffset SeekStart r;
  '(seq, r) ← ReadUint64 BigEndian r;
  '(k, r) ← ReadUint8 r;
  '(count, r) ← ReadUint16 BigEndian r;
  '(targets, _) ← ReadInt64s BigEndian count r;
  channel ← slice_from data (wrapU 16 (subscribeReqBytes + 8 * count));
  Ok (seq, k, targets, channel).

Definition DecodeSubscribeRes (data : list Z) : outcome Z :=
  if bool_decide (len data ≠ subscribeResBytes) then Err ErrInvalidMessage else
  let r := NewReader data in
  '(_, r) ← Seek (- defaultCodeBytes) SeekEnd r;
  '(code, _) ← ReadUint16 BigEndian r;
  Ok code.

(** unsubscribe.go *)
Definition DecodeUnsubscribeReq (data : list Z) : outcome (Z * Z * list Z * list Z) :=
  let r := NewReader data in
  '(_, r) ← Seek seqOffset SeekStart r;
  '(seq, r) ← ReadUint64 BigEndian r;
  '(k, r) ← ReadUint8 r;
  '(count, r) ← ReadUint16 BigEndian r;
  '(targets, _) ← ReadInt64s BigEndian count r;
  channel ← slice_from data (wrapU 16 (unsubscribeReqBytes + 8 * count));
  Ok (seq, k, targets, channel).

Definition DecodeUnsubscribeRes (data : list Z) : outcome Z :=
  if bool_decide (len data ≠ unsubscribeResBytes) then Err ErrInvalidMessage else
  let r := NewReader data in
  '(_, r) ← Seek (- defaultCodeBytes) SeekEnd r;
  '(code, _) ← ReadUint16 BigEndian r;
  Ok code.

(** trigger.go *)
Definition DecodeTriggerReq (data : list Z) : outcome (Z * Z * Z * Z) :=
  if bool_decide (len data ≠ triggerReqBytes ∧ len data ≠ triggerReqBytes - b64)
  then Err ErrInvalidMessage else
  let r := NewReader data in
  '(_, r) ← Seek seqOffset SeekStart r;
  '(seq, r) ← ReadUint64 BigEndian r;
  '(evt, r) ← ReadUint8 r;
  '(cid, r) ← ReadInt64 BigEndian r;
  uid ← (if bool_decide (len data = triggerReqBytes)
         then fst <$> ReadInt64 BigEndian r else Ok 0);
  Ok (seq, evt, cid, uid).

Definition DecodeTriggerRes (data : list Z) : outcome Z :=
  if bool_decide (len data ≠ triggerResBytes) then Err ErrInvalidMessage else
  let r := NewReader data in
  '(_, r) ← Seek (- defaultCodeBytes) SeekEnd r;
  '(code, _) ← ReadUint16 BigEndian r;
  Ok code.

(** deliver.go *)
Definition DecodeDeliverReq `{!JsonMap} (data : list Z)
    : outcome (Z * Z * Z * gmap (list Z) (list Z) * list Z) :=
  let r := NewReader data in
  '(_, r) ← Seek seqOffset SeekStart r;
  '(seq, r) ← ReadUint64 BigEndian r;
  '(cid, r) ← ReadInt64 BigEndian r;
  '(uid, r) ← ReadInt64 BigEndian r;
  '(metadataSize, _) ← ReadUint32 BigEndian r;
  let messageOffset := wrapS 64 (deliverReqBytes + metadataSize) in
  if bool_decide (messageOffset < deliverReqBytes ∨ len data < messageOffset)
  then Err ErrInvalidMessage else
  metadata ← (if bool_decide (0 < metadataSize)
              then s ← slice data deliverReqBytes messageOffset;
                   match json_Unmarshal s with
                   | Some m => Ok m | None => Err ErrInvalidMetadata end
              else Ok ∅);
  message ← slice_from data messageOffset;
  Ok (seq, cid, uid, metadata, message).

Definition DecodeDeliverRes (data : list Z) : outcome Z :=
  if bool_decide (len data ≠ deliverResBytes) then Err ErrInvalidMessage else
  let r := NewReader data in
  '(_, r) ← Seek (- defaultCodeBytes) SeekEnd r;
  '(code, _) ← ReadUint16 BigEndian r;
  Ok code.

(** state.go *)
Definition DecodeGetStateReq (data : list Z) : outcome Z :=
  if bool_decide (len data ≠ getStateReqBytes) then Err ErrInvalidMessage else
  let r := NewReader data in
  '(_, r) ← Seek seqOffset SeekStart r;
  '(seq, _) ← ReadUint64 BigEndian r;
  Ok seq.

Definition DecodeGetStateRes (data : list Z) : outcome (Z * Z) :=
  if bool_decide (len data ≠ getStateResBytes) then Err ErrInvalidMessage else
  let r := NewReader data in
  '(_, r) ← Seek bodyOffset SeekStart r;
  '(code, r) ← ReadUint16 BigEndian r;
  '(status, _) ← ReadUint8 r;
  Ok (code, status).

Definition DecodeSetStateReq (data : list Z) : outcome (Z * Z) :=
  if bool_decide (len data ≠ setStateReqBytes) then Err ErrInvalidMessage else
  let r := NewReader data in
  '(_, r) ← Seek seqOffset SeekStart r;
  '(seq, r) ← ReadUint64 BigEndian r;
  '(status, _) ← ReadUint8 r;
  Ok (seq, status).

Definition DecodeSetStateRes (data : list Z) : outcome Z :=
  if bool_decide (len data ≠ setStateResBytes) then Err ErrInvalidMessage else
  let r := NewReader data in
  '(_, r) ← Seek (- defaultCodeBytes) SeekEnd r;
  '(code, _) ← ReadUint16 BigEndian r;
  Ok code.

(** getip.go *)
Definition DecodeGetIPReq (data : list Z) : outcome (Z * Z * Z) :=
  if bool_decide (len data ≠ getIPReqBytes) then Err ErrInvalidMessage else
  let r := NewReader data in
  '(_, r) ← Seek seqOffset SeekStart r;
  '(seq, r) ← ReadUint64 BigEndian r;
  '(k, r) ← ReadUint8 r;
  '(target, r) ← ReadInt64 BigEndian r;
  Ok (seq, k, target).

Definition DecodeGetIPRes (Long2IP : Z → list Z) (data : list Z) : outcome (Z * list Z) :=
  if bool_decide (len data ≠ getIPResBytes ∧ len data ≠ getIPResBytes - 4)
  then Err ErrInvalidMessage else
  let r := NewReader data in
  '(_, r) ← Seek bodyOffset SeekStart r;
  '(code, r) ← ReadUint16 BigEndian r;
  ip ← (if bool_decide (code = codes.OK ∧ len data = getIPResBytes)
        then '(v, _) ← ReadUint32 BigEndian r; Ok (Long2IP v) else Ok []);
  Ok (code, ip).

(** ** Framing (reader.go, heartbeat.go) *)

(** An [io.Reader] over a connection: the bytes still to come, then EOF. *)
Definition ReadFull (stream : list Z) (n : Z) : outcome (list Z * list Z) :=
  if bool_decide (n ≤ len stream)
  then Ok (take (Z.to_nat n) stream, drop (Z.to_nat n) stream)
  else if bool_decide (stream = []) then Err EOF else Err ErrUnexpectedEOF.

(** [data] is the Go slice, [spare] the bytes between its length and its
    capacity, which the slice expressions can reach. *)
Definition ParseBuffer (data spare : list Z) : outcome (bool * Z * Z) :=
  header ← slice (data ++ spare) defaultSizeBytes (defaultSizeBytes + defaultHeaderBytes);
  header ← index header 0;
  if bool_decide (Z.land header heartbeatBit = heartbeatBit) then Ok (true, 0, 0)
  else
    rt ← slice (data ++ spare) (defaultSizeBytes + defaultHeaderBytes)
               (defaultSizeBytes + defaultHeaderBytes + defaultRouteBytes);
    rt ← index rt 0;
    sq ← slice (data ++ spare) seqOffset (seqOffset + 8);
    Ok (false, rt, get_uint BigEndian sq).

(** [make([]byte, 4+size)] is [uint32] arithmetic; [data[:4]] is in range
    only if the sum did not wrap. *)
Definition ReadMessage (stream : list Z) : outcome (bool * Z * Z * list Z * list Z) :=
  '(buf, stream) ← ReadFull stream defaultSizeBytes;
  let size := get_uint BigEndian buf in
  if bool_decide (size = 0) then Err ErrInvalidMessage else
  let n := wrapU 32 (defaultSizeBytes + size) in
  _ ← slice_check n 0 defaultSizeBytes;
  '(rest, stream) ← ReadFull stream (n - defaultSizeBytes);
  let data := buf ++ rest in
  '(isHeartbeat, rt, seq) ← ParseBuffer data [];
  Ok (isHeartbeat, rt, seq, data, stream).

(** [buf2] is a pooled block of capacity [cap]; [data[4:]] also needs
    [4 <= len(data)]. *)
Definition ReaderBuffer (MallocBytes : Z → outcome Bytes.Bytes) (stream : list Z)
  : outcome (Bytes.Bytes * list Z) :=
  '(buf, stream) ← ReadFull stream defaultSizeBytes;
  let size := get_uint BigEndian buf in
  if bool_decide (size = 0) then Err ErrInvalidMessage else
  let n := wrapU 32 (defaultSizeBytes + size) in
  buf2 ← MallocBytes n;
  data ← Bytes.bytes (Some buf2);
  _ ← slice_check (len (Bytes.b_buf buf2)) 0 defaultSizeBytes;
  _ ← slice_check (len (Bytes.b_buf buf2)) defaultSizeBytes (len data);
  '(rest, stream) ← ReadFull stream (len data - defaultSizeBytes);
  Ok (Bytes.mkBytes (buf ++ rest ++ drop (length data) (Bytes.b_buf buf2))
        (Bytes.b_off buf2) (Bytes.b_pool buf2) (Bytes.b_released buf2), stream).

(** The heartbeat frame built by [init]. *)
Definition heartbeat : outcome (list Z) :=
  let w := NewWriterWithCapacity (defaultSizeBytes + defaultHeaderBytes) in
  w ← WriteUint32s BigEndian [defaultHeaderBytes] w;
  w ← WriteUint8s [heartbeatBit] w;
  Writer.Bytes w.

Definition Heartbeat : outcome (list Z) := heartbeat.
