(* ===== verification/Wire.v ===== *)
(** * The wire protocol as one codec

    All requests and responses of [Protocol] as two sum types, the layout each
    encoder is meant to produce, the proofs that the encoders produce it and
    that the decoders read it back, and the framing properties. *)
From S2P Require Import Prelude Buffer Nocopy Ip Protocol.
Import Writer Reader.

(** ** Messages

    [M] is what a payload is: a mounted buffer when a request is encoded, its
    bytes when it is decoded. *)
Inductive Req (M : Type) :=
  | HandshakeReq (insKind : Z) (insID : list Z)
  | BindReq (cid uid : Z)
  | UnbindReq (uid cid : Z)
  | GetIPReq (kind target : Z)
  | StatReq (kind : Z)
  | IsOnlineReq (kind target : Z)
  | DisconnectReq (uid cid : Z) (force : bool)
  | PushReq (kind target : Z) (message : M)
  | MulticastReq (kind : Z) (targets : list Z) (message : M)
  | BroadcastReq (kind : Z) (message : M)
  | PublishReq (channel : list Z) (message : M)
  | SubscribeReq (kind : Z) (targets channel : list Z)
  | UnsubscribeReq (kind : Z) (targets channel : list Z)
  | TriggerReq (event cid uid : Z)
  | DeliverReq (cid uid : Z) (metadata : gmap (list Z) (list Z)) (message : M)
  | GetStateReq
  | SetStateReq (state : Z).

Arguments HandshakeReq {M}.
Arguments BindReq {M}.
Arguments UnbindReq {M}.
Arguments GetIPReq {M}.
Arguments StatReq {M}.
Arguments IsOnlineReq {M}.
Arguments DisconnectReq {M}.
Arguments PushReq {M}.
Arguments MulticastReq {M}.
Arguments BroadcastReq {M}.
Arguments PublishReq {M}.
Arguments SubscribeReq {M}.
Arguments UnsubscribeReq {M}.
Arguments TriggerReq {M}.
Arguments DeliverReq {M}.
Arguments GetStateReq {M}.
Arguments SetStateReq {M}.

Definition req_map {M N} (f : M → N) (q : Req M) : Req N :=
  match q with
  | HandshakeReq k i => HandshakeReq k i
  | BindReq c u => BindReq c u
  | UnbindReq u c => UnbindReq u c
  | GetIPReq k t => GetIPReq k t
  | StatReq k => StatReq k
  | IsOnlineReq k t => IsOnlineReq k t
  | DisconnectReq u c b => DisconnectReq u c b
  | PushReq k t m => PushReq k t (f m)
  | MulticastReq k ts m => MulticastReq k ts (f m)
  | BroadcastReq k m => BroadcastReq k (f m)
  | PublishReq c m => PublishReq c (f m)
  | SubscribeReq k ts c => SubscribeReq k ts c
  | UnsubscribeReq k ts c => UnsubscribeReq k ts c
  | TriggerReq e c u => TriggerReq e c u
  | DeliverReq c u md m => DeliverReq c u md (f m)
  | GetStateReq => GetStateReq
  | SetStateReq s => SetStateReq s
  end.

Definition req_route {M} (q : Req M) : Z :=
  match q with
  | HandshakeReq _ _ => route.Handshake
  | BindReq _ _ => route.Bind
  | UnbindReq _ _ => route.Unbind
  | GetIPReq _ _ => route.GetIP
  | StatReq _ => route.Stat
  | IsOnlineReq _ _ => route.IsOnline
  | DisconnectReq _ _ _ => route.Disconnect
  | PushReq _ _ _ => route.Push
  | MulticastReq _ _ _ => route.Multicast
  | BroadcastReq _ _ => route.Broadcast
  | PublishReq _ _ => route.Publish
  | SubscribeReq _ _ _ => route.Subscribe
  | UnsubscribeReq _ _ _ => route.Unsubscribe
  | TriggerReq _ _ _ => route.Trigger
  | DeliverReq _ _ _ _ => route.Deliver
  | GetStateReq => route.GetState
  | SetStateReq _ => route.SetState
  end.

(** Responses; [total] and [ip] are the optional results, 0 and [""] when
    absent.  A [code] precedes everything but a publish count. *)
Inductive Res :=
  | CodeRes (rt code : Z)
  | GetIPRes (code : Z) (ip : list Z)
  | StatRes (code total : Z)
  | IsOnlineRes (code : Z) (isOnline : bool)
  | MulticastRes (code total : Z)
  | BroadcastRes (code total : Z)
  | PublishRes (total : Z)
  | GetStateRes (code state : Z).

Definition res_route (p : Res) : Z :=
  match p with
  | CodeRes rt _ => rt
  | GetIPRes _ _ => route.GetIP
  | StatRes _ _ => route.Stat
  | IsOnlineRes _ _ => route.IsOnline
  | MulticastRes _ _ => route.Multicast
  | BroadcastRes _ _ => route.Broadcast
  | PublishRes _ => route.Publish
  | GetStateRes _ _ => route.GetState
  end.

(** The routes answered by a bare code. *)
Definition code_routes : list Z :=
  [route.Handshake; route.Bind; route.Unbind; route.Disconnect; route.Push;
   route.Subscribe; route.Unsubscribe; route.Trigger; route.Deliver; route.SetState].

(** ** The code's encoders and decoders, by message *)

Section codec.
Context `{!WriterAlloc} `{!JsonMap} (v6 : list Z → option (list Z)).

Definition encode_req (seq : Z) (q : Req (block + Tree.NocopyBuffer))
  : outcome Tree.NocopyBuffer :=
  match q with
  | HandshakeReq k i => EncodeHandshakeReq seq k i
  | BindReq c u => EncodeBindReq seq c u
  | UnbindReq u c => EncodeUnbindReq seq u c
  | GetIPReq k t => EncodeGetIPReq seq k t
  | StatReq k => EncodeStatReq seq k
  | IsOnlineReq k t => EncodeIsOnlineReq seq k t
  | DisconnectReq u c b => EncodeDisconnectReq seq u c b
  | PushReq k t m => EncodePushReq seq k t m
  | MulticastReq k ts m => EncodeMulticastReq seq k ts m
  | BroadcastReq k m => EncodeBroadcastReq seq k m
  | PublishReq c m => EncodePublishReq seq c m
  | SubscribeReq k ts c => EncodeSubscribeReq seq k ts c
  | UnsubscribeReq k ts c => EncodeUnsubscribeReq seq k ts c
  | TriggerReq e c u => EncodeTriggerReq seq e c [u]
  | DeliverReq c u md m => EncodeDeliverReq seq c u md m
  | GetStateReq => EncodeGetStateReq seq
  | SetStateReq s => EncodeSetStateReq seq s
  end.

(** The decoder the handler registered for a route applies
    (transporter/gate/server.go, transporter/node/server.go and the
    handshake of internal/server/server.go). *)
Definition decode_req (rt : Z) (data : list Z) : outcome (Z * Req (list Z)) :=
  if bool_decide (rt = route.Handshake) then
    '(seq, k, i) ← DecodeHandshakeReq data; Ok (seq, HandshakeReq k i)
  else if bool_decide (rt = route.Bind) then
    '(seq, c, u) ← DecodeBindReq data; Ok (seq, BindReq c u)
  else if bool_decide (rt = route.Unbind) then
    '(seq, u, c) ← DecodeUnbindReq data; Ok (seq, UnbindReq u c)
  else if bool_decide (rt = route.GetIP) then
    '(seq, k, t) ← DecodeGetIPReq data; Ok (seq, GetIPReq k t)
  else if bool_decide (rt = route.Stat) then
    '(seq, k) ← DecodeStatReq data; Ok (seq, StatReq k)
  else if bool_decide (rt = route.IsOnline) then
    '(seq, k, t) ← DecodeIsOnlineReq data; Ok (seq, IsOnlineReq k t)
  else if bool_decide (rt = route.Disconnect) then
    '(seq, u, c, b) ← DecodeDisconnectReq data; Ok (seq, DisconnectReq u c b)
  else if bool_decide (rt = route.Push) then
    '(seq, k, t, m) ← DecodePushReq data; Ok (seq, PushReq k t m)
  else if bool_decide (rt = route.Multicast) then
    '(seq, k, ts, m) ← DecodeMulticastReq data; Ok (seq, MulticastReq k ts m)
  else if bool_decide (rt = route.Broadcast) then
    '(seq, k, m) ← DecodeBroadcastReq data; Ok (seq, BroadcastReq k m)
  else if bool_decide (rt = route.Publish) then
    '(seq, c, m) ← DecodePublishReq data; Ok (seq, PublishReq c m)
  else if bool_decide (rt = route.Subscribe) then
    '(seq, k, ts, c) ← DecodeSubscribeReq data; Ok (seq, SubscribeReq k ts c)
  else if bool_decide (rt = route.Unsubscribe) then
    '(seq, k, ts, c) ← DecodeUnsubscribeReq data; Ok (seq, UnsubscribeReq k ts c)
  else if bool_decide (rt = route.Trigger) then
    '(seq, e, c, u) ← DecodeTriggerReq data; Ok (seq, TriggerReq e c u)
  else if bool_decide (rt = route.Deliver) then
    '(seq, c, u, md, m) ← DecodeDeliverReq data; Ok (seq, DeliverReq c u md m)
  else if bool_decide (rt = route.GetState) then
    seq ← DecodeGetStateReq data; Ok (seq, GetStateReq)
  else if bool_decide (rt = route.SetState) then
    '(seq, s) ← DecodeSetStateReq data; Ok (seq, SetStateReq s)
  else Err ErrNotFoundRoute.

Definition encode_res (seq : Z) (p : Res) : outcome Tree.NocopyBuffer :=
  match p with
  | CodeRes rt code =>
      if bool_decide (rt = route.Handshake) then EncodeHandshakeRes seq code
      else if bool_decide (rt = route.Bind) then EncodeBindRes seq code
      else if bool_decide (rt = route.Unbind) then EncodeUnbindRes seq code
      else if bool_decide (rt = route.Disconnect) then EncodeDisconnectRes seq code
      else if bool_decide (rt = route.Push) then EncodePushRes seq code
      else if bool_decide (rt = route.Subscribe) then EncodeSubscribeRes seq code
      else if bool_decide (rt = route.Unsubscribe) then EncodeUnsubscribeRes seq code
      else if bool_decide (rt = route.Trigger) then EncodeTriggerRes seq code
      else if bool_decide (rt = route.Deliver) then EncodeDeliverRes seq code
      else if bool_decide (rt = route.SetState) then EncodeSetStateRes seq code
      else Err ErrNotFoundRoute
  | GetIPRes code ip => EncodeGetIPRes (Ip.IP2Long v6) seq code [ip]
  | StatRes code total => EncodeStatRes seq code [total]
  | IsOnlineRes code b => EncodeIsOnlineRes seq code b
  | MulticastRes code total => EncodeMulticastRes seq code [total]
  | BroadcastRes code total => EncodeBroadcastRes seq code [total]
  | PublishRes total => EncodePublishRes seq total
  | GetStateRes code s => EncodeGetStateRes seq code s
  end.

(** The decoder the caller of a route applies to the answer
    (transporter/gate/client.go, transporter/node/client.go). *)
Definition decode_res (rt : Z) (data : list Z) : outcome Res :=
  if bool_decide (rt = route.Handshake) then CodeRes rt <$> DecodeHandshakeRes data
  else if bool_decide (rt = route.Bind) then CodeRes rt <$> DecodeBindRes data
  else if bool_decide (rt = route.Unbind) then CodeRes rt <$> DecodeUnbindRes data
  else if bool_decide (rt = route.GetIP) then
    '(code, ip) ← DecodeGetIPRes Ip.Long2IP data; Ok (GetIPRes code ip)
  else if bool_decide (rt = route.Stat) then
    '(code, t) ← DecodeStatRes data; Ok (StatRes code t)
  else if bool_decide (rt = route.IsOnline) then
    '(code, b) ← DecodeIsOnlineRes data; Ok (IsOnlineRes code b)
  else if bool_decide (rt = route.Disconnect) then CodeRes rt <$> DecodeDisconnectRes data
  else if bool_decide (rt = route.Push) then CodeRes rt <$> DecodePushRes data
  else if bool_decide (rt = route.Multicast) then
    '(code, t) ← DecodeMulticastRes data; Ok (MulticastRes code t)
  else if bool_decide (rt = route.Broadcast) then
    '(code, t) ← DecodeBroadcastRes data; Ok (BroadcastRes code t)
  else if bool_decide (rt = route.Publish) then PublishRes <$> DecodePublishRes data
  else if bool_decide (rt = route.Subscribe) then CodeRes rt <$> DecodeSubscribeRes data
  else if bool_decide (rt = route.Unsubscribe) then CodeRes rt <$> DecodeUnsubscribeRes data
  else if bool_decide (rt = route.Trigger) then CodeRes rt <$> DecodeTriggerRes data
  else if bool_decide (rt = route.Deliver) then CodeRes rt <$> DecodeDeliverRes data
  else if bool_decide (rt = route.GetState) then
    '(code, s) ← DecodeGetStateRes data; Ok (GetStateRes code s)
  else if bool_decide (rt = route.SetState) then CodeRes rt <$> DecodeSetStateRes data
  else Err ErrNotFoundRoute.

(** ** The layout *)

Definition u64be (v : Z) : list Z := put_uint BigEndian 8 v.
Definition i64be (v : Z) : list Z := put_uint BigEndian 8 (wrapU 64 v).
Definition u16be (v : Z) : list Z := put_uint BigEndian 2 v.
Definition u32be (v : Z) : list Z := put_uint BigEndian 4 v.
Definition flag (b : bool) : list Z := [if b then 1 else 0].
Definition i64s (l : list Z) : list Z := concat (i64be <$> l).

(** [size + header + route + seq + body], the size not counting itself. *)
Definition wire (rt seq : Z) (body : list Z) : list Z :=
  u32be (10 + len body) ++ [0; rt] ++ u64be seq ++ body.

Definition metadata_bytes (md : gmap (list Z) (list Z)) : list Z :=
  if bool_decide (md = ∅) then [] else json_Marshal md.

Definition req_body (q : Req (list Z)) : list Z :=
  match q with
  | HandshakeReq k i => [k] ++ i
  | BindReq c u => i64be c ++ i64be u
  | UnbindReq u c => i64be u ++ i64be c
  | GetIPReq k t => [k] ++ i64be t
  | StatReq k => [k]
  | IsOnlineReq k t => [k] ++ i64be t
  | DisconnectReq u c b => i64be u ++ i64be c ++ flag b
  | PushReq k t m => [k] ++ i64be t ++ m
  | MulticastReq k ts m => [k] ++ u16be (len ts) ++ i64s ts ++ m
  | BroadcastReq k m => [k] ++ m
  | PublishReq c m => [len c] ++ c ++ m
  | SubscribeReq k ts c => [k] ++ u16be (len ts) ++ i64s ts ++ c
  | UnsubscribeReq k ts c => [k] ++ u16be (len ts) ++ i64s ts ++ c
  | TriggerReq e c u => [e] ++ i64be c ++ (if bool_decide (u = 0) then [] else i64be u)
  | DeliverReq c u md m =>
      i64be c ++ i64be u ++ u32be (len (metadata_bytes md)) ++ metadata_bytes md ++ m
  | GetStateReq => []
  | SetStateReq s => [s]
  end.

Definition opt_total (code t : Z) : list Z :=
  if bool_decide (code = codes.OK ∧ t ≠ 0) then u64be t else [].

Definition res_body (p : Res) : list Z :=
  match p with
  | CodeRes _ code => u16be code
  | GetIPRes code ip =>
      u16be code ++ (if bool_decide (code = codes.OK ∧ ip ≠ [])
                     then u32be (Ip.IP2Long v6 ip) else [])
  | StatRes code t => u16be code ++ opt_total code t
  | IsOnlineRes code b => u16be code ++ flag b
  | MulticastRes code t => u16be code ++ opt_total code t
  | BroadcastRes code t => u16be code ++ opt_total code t
  | PublishRes t => u64be t
  | GetStateRes code s => u16be code ++ [s]
  end.

(** Every frame fits the 32-bit size field. *)
Definition fits_frame (body : list Z) : Prop := 14 + len body < 2 ^ 32.

(** Field ranges.  The two bounds below the full range of the count bytes are
    where the decoders' narrow offset arithmetic wraps (see the lemmas at the
    end of this file). *)
Definition req_fields {M} (q : Req M) : Prop :=
  match q with
  | HandshakeReq k _ => in_u 8 k
  | BindReq c u | UnbindReq u c => in_s 64 c ∧ in_s 64 u
  | GetIPReq k t | IsOnlineReq k t | PushReq k t _ => in_u 8 k ∧ in_s 64 t
  | StatReq k | BroadcastReq k _ => in_u 8 k
  | DisconnectReq u c _ => in_s 64 u ∧ in_s 64 c
  | MulticastReq k ts _ | SubscribeReq k ts _ | UnsubscribeReq k ts _ =>
      in_u 8 k ∧ Forall (in_s 64) ts ∧ len ts ≤ 8189
  | PublishReq c _ => len c ≤ 240
  | TriggerReq e c u => in_u 8 e ∧ in_s 64 c ∧ in_s 64 u
  | DeliverReq c u md _ => in_s 64 c ∧ in_s 64 u ∧ text_map md
  | GetStateReq => True
  | SetStateReq s => in_u 8 s
  end.

Definition res_fields (p : Res) : Prop :=
  match p with
  | CodeRes rt code => rt ∈ code_routes ∧ in_u 16 code
  | GetIPRes code ip =>
      in_u 16 code ∧ (ip = [] ∨ code = codes.OK ∧ ∃ v, in_u 32 v ∧ ip = Ip.Long2IP v)
  | StatRes code t | MulticastRes code t | BroadcastRes code t =>
      in_u 16 code ∧ in_u 64 t ∧ (code ≠ codes.OK → t = 0)
  | IsOnlineRes code _ => in_u 16 code
  | PublishRes t => in_u 64 t
  | GetStateRes code s => in_u 16 code ∧ in_u 8 s
  end.

Definition payload_ok (q : Req (block + Tree.NocopyBuffer)) : Prop :=
  match q with
  | PushReq _ _ m | MulticastReq _ _ m | BroadcastReq _ m | PublishReq _ m
  | DeliverReq _ _ _ m => Tree.elem_solid m
  | _ => True
  end.

Definition req_ok (seq : Z) (q : Req (block + Tree.NocopyBuffer)) : Prop :=
  in_u 64 seq ∧ req_fields q ∧ payload_ok q ∧
  fits_frame (req_body (req_map Tree.elem_data q)).

Definition res_ok (seq : Z) (p : Res) : Prop := in_u 64 seq ∧ res_fields p.

End codec.

(** ** The encoders produce the layout *)

(** [m] is a buffer whose bytes are [bs]. *)
Definition makes (m : outcome Tree.NocopyBuffer) (bs : list Z) : Prop :=
  ∃ b, m = Ok b ∧ Tree.solid b ∧ Tree.data b = bs.

Lemma elem_Len_data e : Tree.elem_solid e → Tree.elem_Len e = len (Tree.elem_data e).
Proof.
  destruct e as [k|c]; simpl.
  - intros. unfold Tree.elem_data. simpl. rewrite app_nil_r. by apply Node.node_Len_data.
  - intros [? _]. by apply Tree.Len_data.
Qed.

Lemma elem_data_raw s : Tree.elem_data (inl (BRaw s)) = s.
Proof. unfold Tree.elem_data. simpl. apply app_nil_r. Qed.

Lemma length_i64be v : length (i64be v) = 8%nat.
Proof. apply length_put_uint. Qed.
Lemma length_u64be v : length (u64be v) = 8%nat.
Proof. apply length_put_uint. Qed.
Lemma length_u32be v : length (u32be v) = 4%nat.
Proof. apply length_put_uint. Qed.
Lemma length_u16be v : length (u16be v) = 2%nat.
Proof. apply length_put_uint. Qed.
Lemma length_flag b : length (flag b) = 1%nat.
Proof. done. Qed.
Lemma length_i64s l : length (i64s l) = (8 * length l)%nat.
Proof.
  induction l as [|v l IH]; [done|]. unfold i64s in *. rewrite fmap_cons. cbn [concat].
  rewrite length_app, length_i64be, IH. simpl. lia.
Qed.
#[export] Hint Rewrite length_i64be length_u64be length_u32be length_u16be length_flag
  length_i64s : golen.

(** Evaluate the message size constants and the lengths of the fields. *)
Ltac sizes :=
  unfold handshakeReqBytes, handshakeResBytes, bindReqBytes, bindResBytes,
    unbindReqBytes, unbindResBytes, getIPReqBytes, getIPResBytes, statReqBytes,
    statResBytes, isOnlineReqBytes, isOnlineResBytes, disconnectReqBytes,
    disconnectResBytes, pushReqBytes, pushResBytes, multicastReqBytes,
    multicastResBytes, broadcastReqBytes, broadcastResBytes, publishReqBytes,
    publishResBytes, subscribeReqBytes, subscribeResBytes, unsubscribeReqBytes,
    unsubscribeResBytes, triggerReqBytes, triggerResBytes, deliverReqBytes,
    deliverResBytes, getStateReqBytes, getStateResBytes, setStateReqBytes,
    setStateResBytes, defaultSizeBytes, defaultHeaderBytes, defaultSeqBytes,
    defaultRouteBytes, defaultCodeBytes, b8, b16, b32, b64 in *;
  autorewrite with golen; cbn [length].

Section encoders.
Context `{!WriterAlloc} `{!JsonMap} (v6 : list Z → option (list Z)).

Lemma prefix_bind {B} alloc size rt seq (k : Writer → outcome B) (P : outcome B → Prop) :
  1 ≤ alloc →
  (∀ w, wf w → Writer.data w = u32be (wrapU 32 size) ++ [dataBit; rt] ++ u64be seq → P (k w)) →
  P (w ← prefix alloc size rt seq; k w).
Proof.
  intros Ha HP. unfold prefix.
  destruct (MallocWriter_clean alloc Ha) as (w & -> & Hw). simpl mbind.
  pose proof (clean_data w Hw) as Hd. destruct Hw as [Hw _].
  destruct (WriteUint32s_appends BigEndian [wrapU 32 size] w Hw) as (w1 & -> & [W1 D1 _ _]).
  simpl mbind. destruct (WriteUint8s_appends [dataBit] w1 W1) as (w2 & -> & [W2 D2 _ _]).
  simpl mbind. destruct (WriteUint8s_appends [rt] w2 W2) as (w3 & -> & [W3 D3 _ _]).
  simpl mbind.
  destruct (WriteUint64s_appends BigEndian [seq] w3 W3) as (w4 & -> & [W4 D4 _ _]).
  simpl mbind. apply HP; [done|].
  rewrite D4, D3, D2, D1, Hd. rewrite !fmap_cons. cbn [concat fmap list_fmap].
  rewrite !app_nil_r, app_nil_l, <- !app_assoc. done.
Qed.

Lemma mount_makes w more size rt seq bs body :
  wf w → Writer.data w = u32be (wrapU 32 size) ++ [dataBit; rt] ++ u64be seq ++ bs →
  Forall Tree.elem_solid more →
  bs ++ concat (Tree.elem_data <$> more) = body →
  size = 10 + len body → fits_frame body →
  makes (Ok (mount w more)) (wire rt seq body).
Proof.
  intros Hw Hd Hm Hb Hs Hf. unfold mount, fits_frame in *.
  destruct (Tree.NewNocopyBuffer_solid (inl (BWriter w) :: more)) as [Hsol Hdat];
    [by constructor|].
  eexists. split_and!; [done|done|]. rewrite Hdat, fmap_cons. cbn [concat].
  unfold Tree.elem_data at 1. simpl. rewrite app_nil_r, Hd.
  rewrite <- !app_assoc. simpl app. rewrite Hb, wrapU_id, Hs; [done|]. unfold in_u. lia.
Qed.

End encoders.

(** Follow the dispatch on a known route. *)
Ltac pick_route :=
  repeat (rewrite (bool_decide_eq_false_2 (_ = _)) by done);
  rewrite (bool_decide_eq_true_2 (_ = _)) by done.

(** Run one write of an encoder. *)
Ltac enc_step :=
  eapply (appends_bind _ _ _ _ (λ m, makes m _));
  [eassumption | solve [eauto with writes] | ];
  let w := fresh "w" in let Hw := fresh "Hw" in let Hd := fresh "Hd" in
  intros w Hw Hd; cbv beta.

(** The data of the last writer, prefix first. *)
Ltac enc_data :=
  repeat match goal with H : Writer.data _ = _ |- _ => rewrite H; clear H end;
  rewrite ?fmap_cons, ?fmap_nil; cbn [concat]; rewrite <- ?app_assoc; reflexivity.

(** The narrowing conversions that lose nothing. *)
Ltac enc_u :=
  rewrite ?(wrapU_id 8) by (assumption || (unfold in_u; lia));
  rewrite ?(wrapU_id 16) by (unfold in_u; lia).

Ltac enc_prefix :=
  eapply (prefix_bind _ _ _ _ _ (λ m, makes m _)); [sizes; lia | intros ? ? ?].

(** The last goals: the writer holds the fields, they are the body of the
    layout, and the size written is its length. *)
Ltac enc_mount :=
  eapply mount_makes;
  [ eassumption
  | enc_data
  | solve [repeat first [assumption | exact I | constructor]]
  | rewrite ?fmap_cons, ?fmap_nil, ?elem_data_raw; cbn [concat app]; rewrite ?app_nil_r, <- ?app_assoc;
    reflexivity
  | sizes; rewrite ?elem_Len_data by assumption; lia
  | assumption ].

Section encoder_specs.
Context `{!WriterAlloc} `{!JsonMap} (v6 : list Z → option (list Z)).
Context (seq : Z).

(** One lemma per request. *)
Lemma encode_req_makes q :
  req_fields q → payload_ok q →
  fits_frame (req_body (req_map Tree.elem_data q)) →
  makes (encode_req seq q)
    (wire (req_route q) seq (req_body (req_map Tree.elem_data q))).
Proof.
  destruct q; intros Hq Hp Hf;
    cbn [encode_req req_route req_map req_fields req_body payload_ok] in *; destruct_and?.
  - unfold EncodeHandshakeReq. enc_u. enc_prefix. do 2 enc_step. enc_mount.
  - unfold EncodeBindReq. enc_prefix. do 1 enc_step. enc_mount.
  - unfold EncodeUnbindReq. enc_prefix. do 2 enc_step. enc_mount.
  - unfold EncodeGetIPReq. enc_u. enc_prefix. do 2 enc_step. enc_mount.
  - unfold EncodeStatReq. enc_u. enc_prefix. enc_step. enc_mount.
  - unfold EncodeIsOnlineReq. enc_u. enc_prefix. do 2 enc_step. enc_mount.
  - unfold EncodeDisconnectReq. enc_prefix. do 3 enc_step. enc_mount.
  - unfold EncodePushReq. enc_u. enc_prefix. do 2 enc_step. enc_mount.
  - unfold EncodeMulticastReq. enc_u. enc_prefix. do 3 enc_step. enc_mount.
  - unfold EncodeBroadcastReq. enc_u. enc_prefix. do 1 enc_step. enc_mount.
  - unfold EncodePublishReq. enc_u. enc_prefix. do 2 enc_step. enc_mount.
  - unfold EncodeSubscribeReq. enc_u. enc_prefix. do 4 enc_step. enc_mount.
  - unfold EncodeUnsubscribeReq. enc_u. enc_prefix. do 4 enc_step. enc_mount.
  - unfold EncodeTriggerReq, given. enc_u. destruct (decide (uid = 0)) as [->|Hu].
    + rewrite bool_decide_eq_false_2, bool_decide_eq_true_2 in * by (done || lia).
      enc_prefix. do 2 enc_step. simpl mbind. enc_mount.
    + rewrite bool_decide_eq_true_2, bool_decide_eq_false_2 in * by done.
      enc_prefix. do 3 enc_step. enc_mount.
  - unfold EncodeDeliverReq. fold (metadata_bytes metadata).
    enc_prefix. do 2 enc_step.
    rewrite (wrapU_id 32) in * by (unfold fits_frame, in_u in *; len_solve).
    enc_mount.
  - unfold EncodeGetStateReq. enc_prefix. enc_mount.
  - unfold EncodeSetStateReq. enc_u. enc_prefix. enc_step. enc_mount.
Qed.

Lemma code_makes rt code (m : outcome Tree.NocopyBuffer) :
  m = (w ← prefix (bodyOffset + defaultCodeBytes)
             (bodyOffset + defaultCodeBytes - defaultSizeBytes) rt seq;
       w ← WriteUint16s BigEndian [code] w; Ok (mount w [])) →
  makes m (wire rt seq (u16be code)).
Proof.
  intros ->. enc_prefix. enc_step.
  assert (fits_frame (u16be code)) by (unfold fits_frame; sizes; lia). enc_mount.
Qed.

(** A code followed by a count that is written only when there is one. *)
Lemma total_makes rt code t (m : outcome Tree.NocopyBuffer) :
  m = (let size := if bool_decide (code = codes.OK) && given [t]
                   then bodyOffset + (defaultCodeBytes + b64) - defaultSizeBytes
                   else bodyOffset + (defaultCodeBytes + b64) - defaultSizeBytes - b64 in
       w ← prefix (bodyOffset + (defaultCodeBytes + b64)) size rt seq;
       w ← WriteUint16s BigEndian [code] w;
       w ← (if bool_decide (code = codes.OK) && given [t]
            then WriteUint64s BigEndian [default 0 (head [t])] w else Ok w);
       Ok (mount w [])) →
  makes m (wire rt seq (u16be code ++ opt_total code t)).
Proof.
  intros ->. unfold given, opt_total. rewrite <- bool_decide_and.
  assert (fits_frame (u16be code ++ u64be t)) by (unfold fits_frame; sizes; lia).
  assert (fits_frame (u16be code ++ [])) by (unfold fits_frame; sizes; lia).
  destruct (bool_decide (code = codes.OK ∧ t ≠ 0)).
  - enc_prefix. do 2 enc_step. enc_mount.
  - enc_prefix. enc_step. simpl mbind. enc_mount.
Qed.

Lemma encode_res_makes p :
  res_fields p → makes (encode_res v6 seq p) (wire (res_route p) seq (res_body v6 p)).
Proof.
  destruct p; intros Hp; cbn [encode_res res_route res_fields res_body] in *; destruct_and?.
  - match goal with H : _ ∈ code_routes |- _ => unfold code_routes in H;
      repeat (apply elem_of_cons in H as [->|H]); [..|by apply elem_of_nil in H] end;
    pick_route; by apply code_makes.
  - unfold EncodeGetIPRes. cbn [default head]. rewrite <- bool_decide_and.
    assert (∀ s, length s ≤ 4 → fits_frame (u16be code ++ s))%nat as Hf
      by (intros; unfold fits_frame; sizes; lia).
    specialize (Hf (u32be (Ip.IP2Long v6 ip))) as Hf1. specialize (Hf []) as Hf0.
    rewrite length_u32be in Hf1. specialize (Hf1 ltac:(lia)).
    specialize (Hf0 ltac:(simpl; lia)). clear Hf.
    destruct (bool_decide (code = codes.OK ∧ ip ≠ [])).
    + enc_prefix. do 2 enc_step. enc_mount.
    + enc_prefix. enc_step. simpl mbind. enc_mount.
  - by apply total_makes.
  - unfold EncodeIsOnlineRes.
    assert (fits_frame (u16be code ++ flag isOnline)) by (unfold fits_frame; sizes; lia).
    enc_prefix. do 2 enc_step. enc_mount.
  - by apply total_makes.
  - by apply total_makes.
  - unfold EncodePublishRes.
    assert (fits_frame (u64be total)) by (unfold fits_frame; sizes; lia).
    enc_prefix. enc_step. enc_mount.
  - unfold EncodeGetStateRes. enc_u.
    assert (fits_frame (u16be code ++ [state])) by (unfold fits_frame; sizes; lia).
    enc_prefix. do 2 enc_step. enc_mount.
Qed.

End encoder_specs.

(** ** The decoders read the layout back *)

Lemma length_wire rt seq body : length (wire rt seq body) = (14 + length body)%nat.
Proof. unfold wire. rewrite !length_app, length_u32be, length_u64be. done. Qed.
#[export] Hint Rewrite length_wire : golen.

(** The reader after each of the three seeks the decoders make. *)
Lemma seek_seq rt seq body :
  Seek seqOffset SeekStart (NewReader (wire rt seq body))
  = Ok (seqOffset, rd (u32be (10 + len body) ++ [0; rt]) (u64be seq ++ body ++ [])).
Proof.
  unfold wire. rewrite app_nil_r, app_assoc.
  replace seqOffset with (len (u32be (10 + len body) ++ [0; rt])); [apply Seek_start|].
  sizes. lia.
Qed.

Lemma seek_body rt seq body :
  Seek bodyOffset SeekStart (NewReader (wire rt seq body))
  = Ok (bodyOffset, rd (u32be (10 + len body) ++ [0; rt] ++ u64be seq) (body ++ [])).
Proof.
  unfold wire. rewrite app_nil_r, (app_assoc [0; rt]), app_assoc.
  replace bodyOffset with (len (u32be (10 + len body) ++ [0; rt] ++ u64be seq));
    [apply Seek_start|].
  sizes. lia.
Qed.

Lemma seek_code rt seq code :
  Seek (- defaultCodeBytes) SeekEnd (NewReader (wire rt seq (u16be code)))
  = Ok (14, rd (u32be (10 + len (u16be code)) ++ [0; rt] ++ u64be seq) (u16be code ++ [])).
Proof.
  unfold Seek. rewrite (bool_decide_eq_false_2 (SeekEnd = SeekStart)) by done.
  rewrite (bool_decide_eq_false_2 (SeekEnd = SeekCurrent)) by done.
  rewrite (bool_decide_eq_true_2 (SeekEnd = SeekEnd)) by done. simpl buf.
  assert (Hl : len (wire rt seq (u16be code)) = 16) by (sizes; lia). rewrite Hl.
  simpl mbind. unfold rd, wire. rewrite app_nil_r, <- !app_assoc. sizes. done.
Qed.

Lemma slice_from_app {A} (data pre post : list A) lo :
  data = pre ++ post → lo = len pre → slice_from data lo = Ok post.
Proof.
  intros -> ->. rewrite slice_from_Ok by len_solve.
  by rewrite Nat2Z.id, drop_app_length.
Qed.

(** One field read; the side conditions are its range and the frame bound. *)
Ltac dec_side :=
  first [assumption | solve [unfold small; sizes; unfold fits_frame in *; len_solve]].

Section fields.
Context (pre post : list Z).

Lemma rd_u64 v : in_u 64 v → small (pre ++ u64be v ++ post) →
  ReadUint64 BigEndian (rd pre (u64be v ++ post)) = Ok (v, rd (pre ++ u64be v) post).
Proof. apply ReadUint64_rd. Qed.
Lemma rd_i64 v : in_s 64 v → small (pre ++ i64be v ++ post) →
  ReadInt64 BigEndian (rd pre (i64be v ++ post)) = Ok (v, rd (pre ++ i64be v) post).
Proof. apply ReadInt64_rd. Qed.
Lemma rd_u16 v : in_u 16 v → small (pre ++ u16be v ++ post) →
  ReadUint16 BigEndian (rd pre (u16be v ++ post)) = Ok (v, rd (pre ++ u16be v) post).
Proof. apply ReadUint16_rd. Qed.
Lemma rd_u32 v : in_u 32 v → small (pre ++ u32be v ++ post) →
  ReadUint32 BigEndian (rd pre (u32be v ++ post)) = Ok (v, rd (pre ++ u32be v) post).
Proof. apply ReadUint32_rd. Qed.
Lemma rd_flag b : small (pre ++ flag b ++ post) →
  ReadBool (rd pre (flag b ++ post)) = Ok (b, rd (pre ++ flag b) post).
Proof. apply ReadBool_rd. Qed.
Lemma rd_i64s l : Forall (in_s 64) l → small (pre ++ i64s l ++ post) →
  8 * len l ≤ maxAlloc →
  ReadInt64s BigEndian (len l) (rd pre (i64s l ++ post)) = Ok (l, rd (pre ++ i64s l) post).
Proof. intros. by apply ReadInt64s_rd. Qed.
End fields.

Ltac dec_read :=
  first
    [ rewrite rd_u64 by dec_side | rewrite ReadUint8_rd by dec_side
    | rewrite rd_i64 by dec_side | rewrite rd_u16 by dec_side
    | rewrite rd_u32 by dec_side | rewrite rd_flag by dec_side
    | rewrite ReadString_rd by dec_side
    | rewrite rd_i64s by first [dec_side | unfold maxAlloc; lia] ];
  run.

Ltac dec_len := rewrite bool_decide_eq_false_2 by (sizes; lia).

(** The rest of a frame after the fixed fields [fs]. *)
Lemma slice_wire rt seq body fs post lo :
  body = fs ++ post → lo = 14 + len fs → slice_from (wire rt seq body) lo = Ok post.
Proof.
  intros -> ->. apply (slice_from_app _
    (u32be (10 + len (fs ++ post)) ++ [0; rt] ++ u64be seq ++ fs)).
  - unfold wire. by rewrite <- !app_assoc.
  - sizes. lia.
Qed.

Ltac dec_start := rewrite ?seek_seq, ?seek_body; run; rewrite <- ?app_assoc.

(** [data[lo:]] behind the fields [fs]. *)
Ltac dec_slice fs :=
  erewrite (slice_wire _ _ _ fs);
  [run | rewrite <- ?app_assoc; reflexivity | rewrite ?wrapU_id by (unfold in_u; sizes; lia); sizes; lia].

Section decoder_specs.
Context `{!JsonMap} `{!JsonMapLaws _} (v6 : list Z → option (list Z)).
Context (seq : Z) (Hseq : in_u 64 seq).

Lemma ReadString_tail pre s n : small (pre ++ s) → n = len s →
  ReadString n (rd pre (s ++ [])) = Ok (s, rd (pre ++ s) []).
Proof. intros ? ->. apply ReadString_rd. by rewrite app_nil_r. Qed.

Lemma decode_deliver c u md m :
  in_s 64 c → in_s 64 u → text_map md →
  let body := i64be c ++ i64be u ++ u32be (len (metadata_bytes md)) ++ metadata_bytes md ++ m in
  fits_frame body →
  ('(seq, c, u, md, m) ← DecodeDeliverReq (wire route.Deliver seq body);
   Ok (seq, DeliverReq c u md m)) = Ok (seq, DeliverReq c u md m).
Proof.
  intros Hc Hu Ht body Hf. unfold body in *.
  assert (Hmd : in_u 32 (len (metadata_bytes md)))
    by (unfold in_u; unfold fits_frame in Hf; len_solve).
  unfold DecodeDeliverReq. dec_start. do 4 dec_read. unfold in_u in Hmd.
  rewrite (wrapS64_id (_ + _)) by (sizes; lia).
  rewrite bool_decide_eq_false_2 by (sizes; lia).
  assert (Hmeta : (if bool_decide (0 < len (metadata_bytes md))
      then s ← slice (wire route.Deliver seq body) deliverReqBytes
                 (deliverReqBytes + len (metadata_bytes md));
           match json_Unmarshal s with Some m => Ok m | None => Err ErrInvalidMetadata end
      else Ok ∅) = Ok md).
  { unfold metadata_bytes. destruct (decide (md = ∅)) as [->|Hne].
    - by rewrite (bool_decide_eq_true_2 (_ = ∅)) by done.
    - rewrite (bool_decide_eq_false_2 (_ = ∅)) by done.
      pose proof (json_nonempty md Hne) as Hj.
      rewrite bool_decide_eq_true_2 by (destruct (json_Marshal md); [done|simpl; lia]).
      assert (Eb : wire route.Deliver seq body =
        (u32be (10 + len body) ++ [0; route.Deliver] ++ u64be seq ++ i64be c ++ i64be u ++
         u32be (len (metadata_bytes md))) ++ json_Marshal md ++ m).
      { unfold body, wire. rewrite <- !app_assoc. unfold metadata_bytes.
        by rewrite (bool_decide_eq_false_2 (md = ∅)). }
      rewrite Eb, slice_Ok by (sizes; lia). run.
      rewrite drop_app_length' by (sizes; lia).
      rewrite take_app_length' by (sizes; lia).
      by rewrite json_roundtrip. }
  unfold body in Hmeta. rewrite Hmeta. run.
  dec_slice (i64be c ++ i64be u ++ u32be (len (metadata_bytes md)) ++ metadata_bytes md).
  done.
Qed.

(** Requests *)
Lemma decode_encode_req q :
  req_fields q → fits_frame (req_body q) →
  decode_req (req_route q) (wire (req_route q) seq (req_body q)) = Ok (seq, q).
Proof.
  intros Hq Hf. unfold decode_req.
  destruct q; cbn [req_route req_fields req_body] in *; destruct_and?;
    pick_route.
  - unfold DecodeHandshakeReq. dec_start. do 2 dec_read.
    rewrite ReadString_tail; [run; done|dec_side|sizes; lia].
  - unfold DecodeBindReq. dec_len. dec_start. do 3 dec_read. done.
  - unfold DecodeUnbindReq. dec_len. dec_start. do 3 dec_read. done.
  - unfold DecodeGetIPReq. dec_len. dec_start. do 3 dec_read. done.
  - unfold DecodeStatReq. dec_len. dec_start. do 2 dec_read. done.
  - unfold DecodeIsOnlineReq. dec_len. dec_start. do 3 dec_read. done.
  - unfold DecodeDisconnectReq. dec_len. dec_start. do 4 dec_read. done.
  - unfold DecodePushReq. dec_start. do 3 dec_read. dec_slice ([kind] ++ i64be target). done.
  - assert (in_u 16 (len targets)) by (unfold in_u; lia).
    unfold DecodeMulticastReq. dec_start. do 4 dec_read.
    dec_slice ([kind] ++ u16be (len targets) ++ i64s targets). done.
  - unfold DecodeBroadcastReq. dec_start. do 2 dec_read. dec_slice [kind]. done.
  - unfold DecodePublishReq. dec_start. do 3 dec_read.
    dec_slice ([len channel] ++ channel). done.
  - assert (in_u 16 (len targets)) by (unfold in_u; lia).
    unfold DecodeSubscribeReq. dec_start. do 4 dec_read.
    dec_slice ([kind] ++ u16be (len targets) ++ i64s targets). done.
  - assert (in_u 16 (len targets)) by (unfold in_u; lia).
    unfold DecodeUnsubscribeReq. dec_start. do 4 dec_read.
    dec_slice ([kind] ++ u16be (len targets) ++ i64s targets). done.
  - unfold DecodeTriggerReq. dec_start. destruct (decide (uid = 0)) as [->|Hu].
    + rewrite (bool_decide_eq_true_2 (0 = 0)) by done. dec_len. do 3 dec_read.
      by rewrite bool_decide_eq_false_2 by (sizes; lia).
    + rewrite (bool_decide_eq_false_2 (uid = 0)) by done. dec_len. do 3 dec_read.
      rewrite bool_decide_eq_true_2 by (sizes; lia). rewrite rd_i64 by dec_side. done.
  - apply decode_deliver; done.
  - unfold DecodeGetStateReq. dec_len. dec_start. dec_read. done.
  - unfold DecodeSetStateReq. dec_len. dec_start. do 2 dec_read. done.
Qed.

Lemma decode_code rt code (m : list Z → outcome Z) :
  in_u 16 code →
  (∀ data, m data =
    if bool_decide (len data ≠ bodyOffset + defaultCodeBytes) then Err ErrInvalidMessage else
    '(_, r) ← Seek (- defaultCodeBytes) SeekEnd (NewReader data);
    '(code, _) ← ReadUint16 BigEndian r; Ok code) →
  m (wire rt seq (u16be code)) = Ok code.
Proof.
  intros Hc Hm. rewrite Hm. dec_len. rewrite seek_code. run. dec_read. done.
Qed.

(** A code and an optional count, as the decoders of multicast and broadcast
    read them. *)
Lemma decode_total rt code t (m : list Z → outcome (Z * Z)) :
  in_u 16 code → in_u 64 t → (code ≠ codes.OK → t = 0) →
  (∀ data, m data =
    if bool_decide (len data ≠ bodyOffset + (defaultCodeBytes + b64) ∧
                    len data ≠ bodyOffset + (defaultCodeBytes + b64) - b64)
    then Err ErrInvalidMessage else
    '(_, r) ← Seek bodyOffset SeekStart (NewReader data);
    '(code, r) ← ReadUint16 BigEndian r;
    total ← (if bool_decide (code = codes.OK ∧ len data = bodyOffset + (defaultCodeBytes + b64))
             then fst <$> ReadUint64 BigEndian r else Ok 0);
    Ok (code, total)) →
  m (wire rt seq (u16be code ++ opt_total code t)) = Ok (code, t).
Proof.
  intros Hc Ht Hz Hm. rewrite Hm. unfold opt_total.
  destruct (decide (code = codes.OK ∧ t ≠ 0)) as [[-> Hne]|Hno].
  - rewrite (bool_decide_eq_true_2 (_ ∧ t ≠ 0)) by done. dec_len. dec_start. dec_read.
    rewrite bool_decide_eq_true_2 by (split; [done|sizes; lia]).
    rewrite rd_u64 by dec_side. done.
  - rewrite (bool_decide_eq_false_2 (_ ∧ t ≠ 0)) by done. dec_len. dec_start. dec_read.
    rewrite bool_decide_eq_false_2 by (sizes; lia). run.
    destruct (decide (code = codes.OK)); [|by rewrite Hz].
    destruct (decide (t = 0)) as [->|]; [done|tauto].
Qed.

(** Responses, but for the one of [Stat]. *)
Lemma decode_encode_res p :
  res_fields p → res_route p ≠ route.Stat →
  decode_res (res_route p) (wire (res_route p) seq (res_body v6 p)) = Ok p.
Proof.
  intros Hp Hns. unfold decode_res.
  destruct p; cbn [res_route res_fields res_body] in *; destruct_and?.
  - match goal with H : _ ∈ code_routes |- _ => unfold code_routes in H;
      repeat (apply elem_of_cons in H as [->|H]); [..|by apply elem_of_nil in H] end;
    pick_route;
    (erewrite decode_code; [done|done|reflexivity]).
  - pick_route.
    unfold DecodeGetIPRes.
    match goal with H : _ ∨ _ |- _ => destruct H as [->|(-> & v & Hv & ->)] end.
    + rewrite (bool_decide_eq_false_2 (_ ∧ [] ≠ [])) by tauto. dec_len. dec_start. dec_read.
      by rewrite bool_decide_eq_false_2 by (sizes; lia).
    + rewrite (bool_decide_eq_true_2 (_ ∧ Ip.Long2IP v ≠ []))
        by (split; [done|apply Ip.Long2IP_nonempty]).
      rewrite Ip.IP2Long_Long2IP by done. dec_len. dec_start. dec_read.
      rewrite bool_decide_eq_true_2 by (split; [done|sizes; lia]).
      rewrite rd_u32 by dec_side. done.
  - done.
  - pick_route.
    unfold DecodeIsOnlineRes. dec_len. dec_start. do 2 dec_read. done.
  - pick_route.
    erewrite (decode_total _ _ _ DecodeMulticastRes); done.
  - pick_route.
    erewrite (decode_total _ _ _ DecodeBroadcastRes); done.
  - pick_route.
    unfold DecodePublishRes. dec_start. dec_read. done.
  - pick_route.
    unfold DecodeGetStateRes. dec_len. dec_start. do 2 dec_read. done.
Qed.

End decoder_specs.

(** ** The decoders never panic *)

Lemma seek_at data k : 0 ≤ k →
  Seek k SeekStart (NewReader data) = Ok (k, mkReader data k).
Proof. intros. unfold Seek. simpl. by rewrite bool_decide_eq_false_2 by lia. Qed.

Lemma seek_end data k : small data → 0 ≤ k ≤ len data →
  Seek (- k) SeekEnd (NewReader data) = Ok (len data - k, mkReader data (len data - k)).
Proof.
  unfold small. intros Hs Hk. unfold Seek.
  rewrite (bool_decide_eq_false_2 (SeekEnd = SeekStart)) by done.
  rewrite (bool_decide_eq_false_2 (SeekEnd = SeekCurrent)) by done.
  rewrite (bool_decide_eq_true_2 (SeekEnd = SeekEnd)) by done. cbn [buf NewReader].
  rewrite wrapS64_id by lia. run. by rewrite bool_decide_eq_false_2 by lia.
Qed.

Lemma field_range (data : list Z) o n k :
  Forall is_byte data → 0 ≤ get_uint o (take n (drop k data)) < 256 ^ Z.of_nat n.
Proof.
  intros Hd. pose proof (get_uint_range o (take n (drop k data))) as H.
  specialize (H ltac:(by apply Forall_take, Forall_drop)).
  assert (256 ^ len (take n (drop k data)) ≤ 256 ^ Z.of_nat n); [|lia].
  apply Z.pow_le_mono_r; [lia|]. rewrite length_take. lia.
Qed.

Lemma byte0_range (data : list Z) n k :
  Forall is_byte data → 0 ≤ byte0 (take n (drop k data)) < 256.
Proof.
  intros Hd. apply (Forall_drop _ k), (Forall_take _ n) in Hd.
  unfold byte0. destruct Hd; simpl; [lia|done].
Qed.

Section no_panics.
Context `{!JsonMap} (data : list Z) (Hsmall : small data) (Hbytes : Forall is_byte data).

Lemma sane_at k : 0 ≤ k < 2 ^ 62 → sane (mkReader data k).
Proof. by split. Qed.

(** One read in a decoder: an error ends it, a value moves the reader on. *)
Ltac np_read :=
  match goal with
  | |- no_panic (read1 ?b ?dec (mkReader _ ?k) ≫= _) =>
      let H := fresh "Hle" in
      destruct (read1_cases b dec (mkReader data k)) as [[? ->]|[H ->]];
      [ apply sane_at; unfold small in Hsmall; sizes; lia
      | sizes; lia
      | apply no_panic_Err
      | cbn [buf off] in H; run; cbn [buf off] ]
  end.

Ltac np_start :=
  unfold ReadUint64, ReadUint32, ReadUint16, ReadInt64, ReadUint8, ReadBool;
  rewrite seek_at by (sizes; lia); run; repeat np_read.

Ltac np_last :=
  match goal with
  | |- no_panic (read1 ?b ?dec (mkReader _ ?k)) =>
      destruct (read1_cases b dec (mkReader data k)) as [[? ->]|[? ->]];
      [ apply sane_at; unfold small in Hsmall; sizes; lia
      | sizes; lia
      | apply no_panic_Err
      | apply no_panic_Ok ]
  end.
Ltac np_fixed := bcase; [apply no_panic_Err|]; np_start; apply no_panic_Ok.
Ltac np_tail := rewrite slice_from_Ok by (sizes; lia); apply no_panic_Ok.

Lemma code_no_panic : no_panic
  (if bool_decide (len data ≠ bodyOffset + defaultCodeBytes) then Err ErrInvalidMessage else
   '(_, r) ← Seek (- defaultCodeBytes) SeekEnd (NewReader data);
   '(code, _) ← ReadUint16 BigEndian r; Ok code).
Proof.
  bcase; [apply no_panic_Err|]. rewrite seek_end by (done || sizes; lia). run.
  unfold ReadUint16. np_read. apply no_panic_Ok.
Qed.

(** The tail of the multi-target requests: the count, the targets, the rest
    from the wrapped offset. *)
Lemma targets_no_panic {A} (f : list Z → list Z → A) k lo :
  0 ≤ k ≤ 2 ^ 40 → lo = k + 2 → no_panic
  ('(count, r) ← ReadUint16 BigEndian (mkReader data k);
   '(targets, _) ← ReadInt64s BigEndian count r;
   rest ← slice_from data (wrapU 16 (lo + 8 * count));
   Ok (f targets rest)).
Proof.
  intros Hk ->. unfold ReadUint16. np_read.
  pose proof (field_range data BigEndian (Z.to_nat b16) (Z.to_nat k) Hbytes) as Hc.
  set (count := get_uint _ _) in *. clearbody count. change (256 ^ _) with (2 ^ 16) in Hc.
  unfold b16 in *.
  destruct (ReadInt64s_cases BigEndian count (mkReader data (k + 2)))
    as [[? ->]|(l & r' & Hle2 & ->)];
    [apply sane_at; lia|lia|apply no_panic_Err|].
  run. cbn [buf off] in Hle2.
  assert (Hw : 0 ≤ wrapU 16 (k + 2 + 8 * count) ≤ k + 2 + 8 * count).
  { unfold wrapU. pose proof (Z.mod_pos_bound (k + 2 + 8 * count) (2 ^ 16)).
    pose proof (Z.mod_le (k + 2 + 8 * count) (2 ^ 16)). lia. }
  rewrite slice_from_Ok by lia. apply no_panic_Ok.
Qed.

Lemma string_no_panic {A} n k (f : list Z * Reader → outcome A) :
  0 ≤ k < 2 ^ 62 → 0 ≤ n < 2 ^ 62 →
  (∀ s, k + n ≤ len data → no_panic (f (s, mkReader data (k + n)))) →
  no_panic (ReadString n (mkReader data k) ≫= f).
Proof.
  intros Hk Hn Hf. unfold ReadString, slice1.
  destruct (slices_cases n 1 (mkReader data k)) as [[? ->]|[Hle ->]];
    [by apply sane_at|lia|apply no_panic_Err|].
  rewrite Z.mul_1_r in *. run. by apply Hf.
Qed.

Lemma decode_req_no_panic rt : no_panic (decode_req rt data).
Proof.
  unfold decode_req.
  repeat (bcase; [apply no_panic_bind; [|intros; destruct_and?; repeat case_match; apply no_panic_Ok]|]).
  all: try apply no_panic_Err.
  - unfold DecodeHandshakeReq. np_start.
    apply string_no_panic; unfold small in *; sizes; try lia. intros. apply no_panic_Ok.
  - unfold DecodeBindReq. np_fixed.
  - unfold DecodeUnbindReq. np_fixed.
  - unfold DecodeGetIPReq. np_fixed.
  - unfold DecodeStatReq. np_fixed.
  - unfold DecodeIsOnlineReq. np_fixed.
  - unfold DecodeDisconnectReq. np_fixed.
  - unfold DecodePushReq. np_start. np_tail.
  - unfold DecodeMulticastReq. unfold ReadUint64, ReadUint8.
    rewrite seek_at by (sizes; lia); run. do 2 np_read.
    apply (targets_no_panic (λ a b, (_, _, a, b))); sizes; lia.
  - unfold DecodeBroadcastReq. np_start. np_tail.
  - unfold DecodePublishReq. np_start.
    pose proof (byte0_range data (Z.to_nat b8) (Z.to_nat (6 + 8)) Hbytes) as Hc.
    sizes. change (4 + 1 + 1 + 8) with (6 + 8) in *. set (c := byte0 _) in *. clearbody c.
    apply string_no_panic; [lia|lia|]. intros s Hs.
    rewrite slice_from_Ok; [apply no_panic_Ok|..]; unfold wrapU.
    + apply Z.mod_pos_bound. lia.
    + pose proof (Z.mod_le (6 + 8 + 1 + c) (2 ^ 8)). lia.
  - unfold DecodeSubscribeReq. unfold ReadUint64, ReadUint8.
    rewrite seek_at by (sizes; lia); run. do 2 np_read.
    apply (targets_no_panic (λ a b, (_, _, a, b))); sizes; lia.
  - unfold DecodeUnsubscribeReq. unfold ReadUint64, ReadUint8.
    rewrite seek_at by (sizes; lia); run. do 2 np_read.
    apply (targets_no_panic (λ a b, (_, _, a, b))); sizes; lia.
  - unfold DecodeTriggerReq. bcase; [apply no_panic_Err|]. np_start.
    bcase; [|apply no_panic_Ok].
    apply no_panic_bind; [|intros; apply no_panic_Ok]. apply no_panic_fmap. np_last.
  - unfold DecodeDeliverReq. np_start. bcase; [apply no_panic_Err|].
    rename n into Hoff. unfold deliverReqBytes in Hoff.
    set (sz := get_uint _ _) in *. set (mo := wrapS 64 _) in *. clearbody mo.
    apply no_panic_bind.
    + bcase; [|apply no_panic_Ok].
      rewrite slice_Ok by (sizes; lia). run. destruct (json_Unmarshal _); done.
    + intros md _. rewrite slice_from_Ok by (sizes; lia). apply no_panic_Ok.
  - unfold DecodeGetStateReq. np_fixed.
  - unfold DecodeSetStateReq. np_fixed.
Qed.

Lemma total_no_panic k (P : Z → Prop) `{!∀ c, Decision (P c)} : 0 ≤ k ≤ 2 ^ 40 → no_panic
  ('(_, r) ← Seek k SeekStart (NewReader data);
   '(code, r) ← ReadUint16 BigEndian r;
   total ← (if bool_decide (P code) then fst <$> ReadUint64 BigEndian r else Ok 0);
   Ok (code, total)).
Proof.
  intros. rewrite seek_at by lia. run. unfold ReadUint16. np_read.
  apply no_panic_bind; [|intros; apply no_panic_Ok].
  bcase; [|apply no_panic_Ok]. apply no_panic_fmap. unfold ReadUint64. np_last.
Qed.

Lemma decode_res_no_panic rt : no_panic (decode_res rt data).
Proof.
  unfold decode_res.
  repeat (bcase; [first
    [ solve [apply no_panic_fmap; exact code_no_panic]
    | apply no_panic_bind; [|intros; destruct_and?; repeat case_match; apply no_panic_Ok]
    | apply no_panic_fmap ]|]).
  all: try apply no_panic_Err.
  - unfold DecodeGetIPRes. bcase; [apply no_panic_Err|]. np_start.
    apply no_panic_bind; [|intros; apply no_panic_Ok]. bcase; [|apply no_panic_Ok].
    np_read. apply no_panic_Ok.
  - unfold DecodeStatRes. bcase; [apply no_panic_Err|].
    rewrite seek_at by (sizes; lia). run.
    apply no_panic_bind; [|intros; apply no_panic_Ok]. bcase; [|apply no_panic_Ok].
    apply no_panic_fmap. unfold ReadUint64. np_last.
  - unfold DecodeIsOnlineRes. np_fixed.
  - unfold DecodeMulticastRes. bcase; [apply no_panic_Err|].
    apply total_no_panic. sizes. lia.
  - unfold DecodeBroadcastRes. bcase; [apply no_panic_Err|].
    apply total_no_panic. sizes. lia.
  - unfold DecodePublishRes. np_start. apply no_panic_Ok.
  - unfold DecodeGetStateRes. np_fixed.
Qed.

End no_panics.
