(* ===== verification/Frames.v ===== *)
(** * Frames on a connection

    [ReadMessage] and [ReaderBuffer] on the frames the encoders make, the
    heartbeat frame, a stream of frames, and the exact condition under which
    the reader panics.  The wire properties of requests and responses are
    stated here. *)
From S2P Require Import Prelude Buffer Nocopy Ip Protocol Wire.
Import Writer Reader.

(** ** [ReadFull] *)

Lemma ReadFull_app (a b : list Z) n : n = len a → ReadFull (a ++ b) n = Ok (a, b).
Proof.
  intros ->. unfold ReadFull. rewrite bool_decide_eq_true_2 by len_solve.
  by rewrite Nat2Z.id, take_app_length, drop_app_length.
Qed.

Lemma ReadFull_inv s n a b :
  0 ≤ n → ReadFull s n = Ok (a, b) → s = a ++ b ∧ len a = n.
Proof.
  intros Hn. unfold ReadFull. bcase; [|by bcase]. intros [= <- <-].
  rewrite take_drop. split; [done|]. rewrite length_take. lia.
Qed.

Lemma ReadFull_cases s n :
  0 ≤ n →
  (∃ a b, s = a ++ b ∧ len a = n ∧ ReadFull s n = Ok (a, b)) ∨
  (len s < n ∧ ∃ e, ReadFull s n = Err e).
Proof.
  intros Hn. unfold ReadFull. bcase.
  - left. eexists _, _. split_and!; [symmetry; apply take_drop| |done].
    rewrite length_take. lia.
  - right. split; [lia|]. bcase; by eexists.
Qed.

(** ** Frames the encoders make *)

Lemma ParseBuffer_wire rt seq body spare :
  in_u 64 seq → ParseBuffer (wire rt seq body) spare = Ok (false, rt, seq).
Proof.
  intros Hseq. unfold ParseBuffer, wire. set (n := 10 + len body).
  replace ((u32be n ++ [0; rt] ++ u64be seq ++ body) ++ spare)
    with (u32be n ++ [0] ++ [rt] ++ u64be seq ++ body ++ spare) by (by rewrite <- !app_assoc).
  rewrite (slice_mid _ (u32be n) [0] ([rt] ++ u64be seq ++ body ++ spare) defaultSizeBytes)
    by (try reflexivity; sizes; lia).
  run. change (index [0] 0) with (Ok 0). run.
  rewrite bool_decide_eq_false_2 by done.
  rewrite (slice_mid _ (u32be n ++ [0]) [rt] (u64be seq ++ body ++ spare)
    (defaultSizeBytes + defaultHeaderBytes)) by (try reflexivity; sizes; lia).
  run. change (index [rt] 0) with (Ok rt). run.
  rewrite (slice_mid _ (u32be n ++ [0; rt]) (u64be seq) (body ++ spare) seqOffset)
    by (try reflexivity; sizes; lia).
  run. unfold u64be. rewrite get_put_uint by (unfold in_u in *; lia). done.
Qed.

Lemma wire_size rt seq body :
  fits_frame body →
  ∃ tl, wire rt seq body = u32be (10 + len body) ++ tl ∧ len tl = 10 + len body ∧
        get_uint BigEndian (u32be (10 + len body)) = 10 + len body.
Proof.
  unfold fits_frame. intros Hf. unfold wire. eexists. split_and!; [done|sizes; lia|].
  unfold u32be. rewrite get_put_uint; [done|lia].
Qed.

(** [ReadMessage] takes exactly one frame off the front of the stream. *)
Lemma ReadMessage_wire rt seq body rest :
  in_u 64 seq → fits_frame body →
  ReadMessage (wire rt seq body ++ rest) = Ok (false, rt, seq, wire rt seq body, rest).
Proof.
  intros Hseq Hf. pose proof (ParseBuffer_wire rt seq body [] Hseq) as HP.
  destruct (wire_size rt seq body Hf) as (tl & Hw & Htl & Hg).
  rewrite Hw in *. unfold ReadMessage. rewrite <- app_assoc.
  rewrite ReadFull_app by (sizes; done). run. rewrite Hg. cbv zeta.
  rewrite bool_decide_eq_false_2 by lia.
  rewrite wrapU_id by (unfold in_u, fits_frame in *; sizes; lia).
  unfold slice_check. rewrite bool_decide_eq_true_2 by (sizes; lia). run.
  rewrite ReadFull_app by (sizes; lia). run. rewrite HP. run. done.
Qed.

(** [ReaderBuffer] does the same into a pooled block. *)
Lemma ReaderBuffer_wire `{!BytesAlloc} rt seq body rest :
  fits_frame body →
  ∃ b, ReaderBuffer MallocBytes (wire rt seq body ++ rest) = Ok (b, rest) ∧
       Bytes.bytes (Some b) = Ok (wire rt seq body) ∧ Bytes.wf b.
Proof.
  intros Hf. destruct (wire_size rt seq body Hf) as (tl & Hw & Htl & Hg).
  pose proof Hf as Hn. unfold fits_frame in Hn.
  rewrite Hw in *. unfold ReaderBuffer. rewrite <- app_assoc.
  rewrite ReadFull_app by (sizes; done). run. rewrite Hg. cbv zeta.
  rewrite bool_decide_eq_false_2 by lia.
  rewrite wrapU_id by (unfold in_u; sizes; lia).
  destruct (MallocBytes_fits (defaultSizeBytes + (10 + len body))) as (b & -> & Hb & Ho);
    [sizes; lia|]. run. rewrite Bytes.bytes_Ok by done. run.
  assert (Hl : len (take (Z.to_nat (Bytes.b_off b)) (Bytes.b_buf b)) = 14 + len body).
  { unfold Bytes.wf in Hb. rewrite length_take, Ho. sizes. rewrite Ho in Hb. sizes. lia. }
  rewrite Hl. unfold Bytes.wf in Hb. rewrite Ho in Hb. unfold slice_check.
  rewrite !bool_decide_eq_true_2 by (sizes; lia). run. run.
  rewrite ReadFull_app by (sizes; lia). run.
  eexists. split; [done|].
  assert (Hcap : len (u32be (10 + len body) ++ tl) = Bytes.b_off b)
    by (rewrite length_app, length_u32be, Ho; sizes; lia).
  match goal with |- context [Bytes.mkBytes ?s ?o ?p ?r] => set (b' := Bytes.mkBytes s o p r) end.
  assert (Hwf : Bytes.wf b').
  { unfold Bytes.wf, b'. cbn [Bytes.b_off Bytes.b_buf].
    rewrite app_assoc, length_app. lia. }
  split; [|done]. rewrite Bytes.bytes_Ok by done. unfold b'. cbn [Bytes.b_off Bytes.b_buf].
  rewrite app_assoc, take_app_length' by lia. done.
Qed.

Lemma heartbeat_bytes : heartbeat = Ok [0; 0; 0; 1; 128].
Proof. vm_compute. reflexivity. Qed.

Lemma ReadMessage_heartbeat rest :
  ReadMessage ([0; 0; 0; 1; 128] ++ rest) = Ok (true, 0, 0, [0; 0; 0; 1; 128], rest).
Proof.
  unfold ReadMessage.
  change ([0; 0; 0; 1; 128] ++ rest) with ([0; 0; 0; 1] ++ 128 :: rest).
  rewrite ReadFull_app by done. run.
  change (get_uint BigEndian [0; 0; 0; 1]) with 1. cbv zeta.
  change (bool_decide (1 = 0)) with false. cbv iota.
  change (wrapU 32 (defaultSizeBytes + 1)) with 5.
  change (slice_check 5 0 defaultSizeBytes) with (Ok ()). run.
  change (128 :: rest) with ([128] ++ rest).
  rewrite (ReadFull_app [128] rest) by done. run. done.
Qed.

(** ** What the encoders promise a connection *)

Lemma makes_bytes m bs :
  makes m bs → ∃ b, m = Ok b ∧ Tree.Bytes b = Ok bs ∧ Tree.Len b = len bs.
Proof.
  intros (b & -> & Hs & <-). exists b.
  split_and!; [done|by apply Tree.Bytes_data|by apply Tree.Len_data].
Qed.

(** A buffer that goes on the wire as [bs], which the peer reads as one frame. *)
Definition delivers (m : outcome Tree.NocopyBuffer) (rt seq : Z) (bs : list Z) : Prop :=
  ∃ b, m = Ok b ∧ Tree.Bytes b = Ok bs ∧ Tree.Len b = len bs ∧
    ∀ rest, ReadMessage (bs ++ rest) = Ok (false, rt, seq, bs, rest).

Lemma makes_delivers m rt seq body :
  makes m (wire rt seq body) → in_u 64 seq → fits_frame body →
  delivers m rt seq (wire rt seq body).
Proof.
  intros Hm Hs Hf. destruct (makes_bytes _ _ Hm) as (b & -> & ? & ?).
  exists b. split_and!; auto using ReadMessage_wire.
Qed.

Section delivery.
Context `{!WriterAlloc} `{!JsonMap} `{!JsonMapLaws _} (v6 : list Z → option (list Z)).

Definition req_frame (seq : Z) (q : Req (block + Tree.NocopyBuffer)) : list Z :=
  wire (req_route q) seq (req_body (req_map Tree.elem_data q)).
Definition res_frame (seq : Z) (p : Res) : list Z :=
  wire (res_route p) seq (res_body v6 p).

Lemma res_body_fits p : res_fields p → fits_frame (res_body v6 p).
Proof.
  unfold fits_frame. intros _. destruct p; cbn [res_body]; unfold opt_total;
    repeat bcase; sizes; lia.
Qed.

Lemma req_delivers seq q :
  req_ok seq q → delivers (encode_req seq q) (req_route q) seq (req_frame seq q).
Proof.
  intros (Hs & Hq & Hp & Hf). apply makes_delivers; [|done|done].
  by apply encode_req_makes.
Qed.

Lemma res_delivers seq p :
  res_ok seq p → delivers (encode_res v6 seq p) (res_route p) seq (res_frame seq p).
Proof.
  intros (Hs & Hp). apply makes_delivers; [|done|by apply res_body_fits].
  by apply encode_res_makes.
Qed.

Lemma req_decodes seq q :
  req_ok seq q →
  decode_req (req_route q) (req_frame seq q) = Ok (seq, req_map Tree.elem_data q).
Proof.
  intros (Hs & Hq & Hp & Hf). unfold req_frame.
  replace (req_route q) with (req_route (req_map Tree.elem_data q)) by (by destruct q).
  apply decode_encode_req; [done| |done]. by destruct q.
Qed.

End delivery.

(** Read a decoder's result off the round trip of its message. *)
Ltac at_route D :=
  cbn [req_route res_route] in D;
  repeat match type of D with
  | (if ?c then _ else _) = _ =>
      let v := eval vm_compute in c in change c with v in D; cbv iota in D
  end.

(** ** [ReadMessage] on any stream *)

(** The size field of a stream of at least four bytes. *)
Definition size_field (stream : list Z) : Z := get_uint BigEndian (take 4 stream).

(** The header says heartbeat. *)
Definition is_heartbeat (stream : list Z) : bool :=
  bool_decide (Z.land (nth 4 stream 0) heartbeatBit = heartbeatBit).

Lemma size_field_range stream :
  Forall is_byte stream → 4 ≤ len stream → 0 ≤ size_field stream < 2 ^ 32.
Proof.
  intros Hb Hl. unfold size_field.
  pose proof (get_uint_range BigEndian (take 4 stream) (Forall_take _ _ _ Hb)) as H.
  rewrite length_take, (Nat.min_l 4) in H by lia. done.
Qed.

(** The cases of [ReadMessage], by what the stream holds. *)
Inductive message_case (stream : list Z) : outcome (bool * Z * Z * list Z * list Z) → Prop :=
  | MC_short e : len stream < 4 → message_case stream (Err e)
  | MC_zero : 4 ≤ len stream → size_field stream = 0 →
      message_case stream (Err ErrInvalidMessage)
  | MC_wrap : 4 ≤ len stream → 2 ^ 32 - 4 ≤ size_field stream → message_case stream Panic
  | MC_cut e : 4 ≤ len stream → 0 < size_field stream < 2 ^ 32 - 4 →
      len stream < 4 + size_field stream → message_case stream (Err e)
  | MC_frame data rest : 0 < size_field stream < 2 ^ 32 - 4 →
      stream = data ++ rest → len data = 4 + size_field stream →
      message_case stream
        ('(hb, rt, seq) ← ParseBuffer data []; Ok (hb, rt, seq, data, rest)).

Lemma ReadMessage_cases stream :
  Forall is_byte stream → message_case stream (ReadMessage stream).
Proof.
  intros Hb. unfold ReadMessage.
  destruct (ReadFull_cases stream defaultSizeBytes) as [(a & b & -> & Ha & ->)|[Hs [e ->]]];
    [done| |by apply MC_short].
  run. change defaultSizeBytes with 4 in *.
  assert (Hsz : size_field (a ++ b) = get_uint BigEndian a).
  { unfold size_field. by rewrite take_app_length' by lia. }
  assert (H4 : 4 ≤ len (a ++ b)) by (rewrite length_app; lia).
  pose proof (size_field_range _ Hb H4) as Hr. rewrite <- Hsz. cbv zeta.
  bcase; [by apply MC_zero|].
  destruct (decide (2 ^ 32 - 4 ≤ size_field (a ++ b))) as [Hw|Hw].
  { unfold slice_check. rewrite bool_decide_eq_false_2; [by apply MC_wrap|].
    unfold wrapU. rewrite <- (Z_mod_plus_full _ (-1)), Z.mod_small; lia. }
  rewrite wrapU_id by (unfold in_u; lia).
  unfold slice_check. rewrite bool_decide_eq_true_2 by lia. run.
  destruct (ReadFull_cases b (4 + size_field (a ++ b) - 4))
    as [(a' & b' & -> & Ha' & ->)|[Hs [e ->]]]; [lia| |].
  - run. apply MC_frame; [lia|by rewrite app_assoc|rewrite length_app; lia].
  - apply MC_cut; [done|lia|rewrite length_app; lia].
Qed.

(** Evaluate the next byte taken from a list whose first bytes are known. *)
Ltac run_index :=
  match goal with
  | |- context [index ?a 0] =>
      let v := eval cbv in (index a 0) in change (index a 0) with v; run
  end.

Lemma ParseBuffer_long data :
  10 ≤ len data - 4 → ∃ hb rt seq, ParseBuffer data [] = Ok (hb, rt, seq).
Proof.
  intros Hl. unfold ParseBuffer. rewrite app_nil_r, !slice_Ok by (sizes; lia). run.
  do 14 (destruct data as [|? data]; [simpl in Hl; lia|]).
  run_index. bcase; [by eauto|]. run. run_index. eauto.
Qed.

(** A frame too short for route and sequence number panics unless it is a
    heartbeat. *)
Lemma ParseBuffer_short data :
  4 < len data < 14 →
  ParseBuffer data [] = if is_heartbeat data then Ok (true, 0, 0) else Panic.
Proof.
  intros Hl. unfold ParseBuffer. rewrite app_nil_r, (slice_Ok data defaultSizeBytes) by (sizes; lia). run.
  do 5 (destruct data as [|? data]; [simpl in Hl; lia|]).
  unfold is_heartbeat. cbn [nth]. run_index. bcase; [done|].
  destruct data as [|r data].
  { unfold slice. done. }
  rewrite (slice_Ok _ (defaultSizeBytes + defaultHeaderBytes)) by (sizes; simpl in *; lia).
  run. run_index.
  unfold slice, slice_check. rewrite bool_decide_eq_false_2; [done|]. sizes. simpl in *. lia.
Qed.

(** The reader panics exactly when the size field wraps around or a complete
    frame is too short to hold what [ParseBuffer] slices. *)
Lemma ReadMessage_panics stream :
  Forall is_byte stream →
  (ReadMessage stream = Panic ↔
   4 ≤ len stream ∧
   (2 ^ 32 - 4 ≤ size_field stream ∨
    (0 < size_field stream < 10 ∧ 4 + size_field stream ≤ len stream ∧
     is_heartbeat stream = false))).
Proof.
  intros Hb. destruct (ReadMessage_cases _ Hb) as [e ?|? H0|? ?|e ? ? ?|data rest Hs Hd Hl].
  - split; [done|lia].
  - split; [done|lia].
  - split; [|done]. split; [done|by left].
  - split; [done|lia].
  - assert (Hh : is_heartbeat stream = is_heartbeat data).
    { unfold is_heartbeat. by rewrite Hd, app_nth1 by lia. }
    assert (len stream = len data + len rest) by (rewrite Hd, length_app; lia).
    destruct (decide (size_field stream < 10)) as [Hlt|Hge].
    + rewrite ParseBuffer_short by lia. rewrite Hh.
      destruct (is_heartbeat data).
      * split; [done|]. intros (_ & [?|(_ & _ & ?)]); [lia|done].
      * split; [|done]. intros _. split; [lia|]. right. split_and!; [lia..|done].
    + destruct (ParseBuffer_long data) as (hb & rt & seq & ->); [lia|].
      split; [done|lia].
Qed.

(** Whatever it returns, it has consumed exactly one frame. *)
Lemma ReadMessage_consumes stream hb rt seq data rest :
  Forall is_byte stream →
  ReadMessage stream = Ok (hb, rt, seq, data, rest) →
  stream = data ++ rest ∧ len data = 4 + size_field stream ∧ 4 < len data ∧
  ParseBuffer data [] = Ok (hb, rt, seq).
Proof.
  intros Hb E. destruct (ReadMessage_cases _ Hb) as [| | | |data' rest' Hs Hd Hl];
    try done.
  apply bind_Ok in E as ([[hb' rt'] seq'] & Hp & [= <- <- <- <- <-]).
  split_and!; [done|done|lia|done].
Qed.

(** A frame cut short is an error, never a message. *)
Lemma ReadMessage_cut (f : list Z) n :
  len f = 4 + size_field f → 0 < size_field f < 2 ^ 32 - 4 →
  (n < length f)%nat → ∃ e, ReadMessage (take n f) = Err e.
Proof.
  intros Hl Hw Hn. assert (Hlt : length (take n f) = n) by (rewrite length_take; lia).
  unfold ReadMessage.
  destruct (ReadFull_cases (take n f) defaultSizeBytes)
    as [(a & b & E & Ha & ->)|[Hs [e ->]]]; [done| |by eexists].
  change defaultSizeBytes with 4 in *. run.
  assert (Hsz : get_uint BigEndian a = size_field f).
  { unfold size_field. f_equal. rewrite <- (take_drop n f), E, <- app_assoc.
    by rewrite take_app_length' by lia. }
  rewrite Hsz. cbv zeta. rewrite bool_decide_eq_false_2 by lia.
  rewrite wrapU_id by (unfold in_u; lia).
  unfold slice_check. rewrite bool_decide_eq_true_2 by lia. run.
  assert (length (a ++ b) = n) by (by rewrite <- E). rewrite length_app in *.
  destruct (ReadFull_cases b (4 + size_field f - 4))
    as [(a' & b' & -> & Ha' & _)|[Hs [e ->]]]; [lia| |by eexists].
  rewrite length_app in *. lia.
Qed.

(** ** A stream of frames *)

(** The frames read one after the other, and why reading stopped. *)
Fixpoint read_frames (fuel : nat) (stream : list Z)
  : list (bool * Z * Z * list Z) * outcome unit :=
  match fuel with
  | O => ([], Ok ())
  | S fuel =>
      match ReadMessage stream with
      | Ok (hb, rt, seq, data, rest) =>
          let '(fs, e) := read_frames fuel rest in ((hb, rt, seq, data) :: fs, e)
      | Err e => ([], Err e)
      | Panic => ([], Panic)
      end
  end.

(** What one side writes: a heartbeat, a request or a response. *)
Inductive Frame :=
  | HeartbeatFrame
  | ReqFrame (seq : Z) (q : Req (block + Tree.NocopyBuffer))
  | ResFrame (seq : Z) (p : Res).

Section stream.
Context `{!WriterAlloc} `{!JsonMap} (v6 : list Z → option (list Z)).

Definition send (f : Frame) : outcome (list Z) :=
  match f with
  | HeartbeatFrame => Heartbeat
  | ReqFrame seq q => b ← encode_req seq q; Tree.Bytes b
  | ResFrame seq p => b ← encode_res v6 seq p; Tree.Bytes b
  end.

Fixpoint send_all (fs : list Frame) : outcome (list Z) :=
  match fs with
  | [] => Ok []
  | f :: fs => bs ← send f; rest ← send_all fs; Ok (bs ++ rest)
  end.

Definition frame_ok (f : Frame) : Prop :=
  match f with
  | HeartbeatFrame => True
  | ReqFrame seq q => req_ok seq q
  | ResFrame seq p => res_ok seq p
  end.

(** The frame as the reader reports it. *)
Definition frame_view (f : Frame) : bool * Z * Z * list Z :=
  match f with
  | HeartbeatFrame => (true, 0, 0, [0; 0; 0; 1; 128])
  | ReqFrame seq q => (false, req_route q, seq, req_frame seq q)
  | ResFrame seq p => (false, res_route p, seq, res_frame v6 seq p)
  end.

Definition frame_bytes (f : Frame) : list Z := (frame_view f).2.

Lemma send_frame f : frame_ok f → send f = Ok (frame_bytes f).
Proof.
  destruct f as [|seq q|seq p]; intros Hf; unfold send.
  - apply heartbeat_bytes.
  - destruct (req_delivers seq q Hf) as (b & -> & ? & _). done.
  - destruct (res_delivers v6 seq p Hf) as (b & -> & ? & _). done.
Qed.

Lemma send_all_bytes fs :
  Forall frame_ok fs → send_all fs = Ok (concat (frame_bytes <$> fs)).
Proof.
  induction 1 as [|f fs Hf Hfs IH]; [done|]. cbn [send_all].
  rewrite send_frame, IH by done. done.
Qed.

Lemma read_frame f rest :
  frame_ok f →
  ReadMessage (frame_bytes f ++ rest) = Ok (frame_view f, rest).
Proof.
  destruct f as [|seq q|seq p]; intros Hf.
  - apply ReadMessage_heartbeat.
  - destruct (req_delivers seq q Hf) as (b & _ & _ & _ & ->). done.
  - destruct (res_delivers v6 seq p Hf) as (b & _ & _ & _ & ->). done.
Qed.

(** Every frame says its own length. *)
Lemma frame_size f :
  frame_ok f → len (frame_bytes f) = 4 + size_field (frame_bytes f) ∧
               0 < size_field (frame_bytes f) < 2 ^ 32 - 4.
Proof.
  assert (Hw : ∀ rt seq body, fits_frame body →
    len (wire rt seq body) = 4 + size_field (wire rt seq body) ∧
    0 < size_field (wire rt seq body) < 2 ^ 32 - 4).
  { intros rt seq body Hf. destruct (wire_size rt seq body Hf) as (tl & E & Hl & Hg).
    unfold size_field. rewrite E, take_app_length' by done. rewrite Hg.
    unfold fits_frame in Hf. rewrite length_app, length_u32be. lia. }
  destruct f as [|seq q|seq p]; [done|..].
  - intros (_ & _ & _ & ?). by apply Hw.
  - intros [_ ?]. by apply Hw, res_body_fits.
Qed.

(** How many of the frames are complete in the first [n] bytes. *)
Fixpoint complete (fs : list Frame) (n : nat) : nat :=
  match fs with
  | [] => O
  | f :: fs =>
      if decide (length (frame_bytes f) ≤ n)%nat
      then S (complete fs (n - length (frame_bytes f))) else O
  end.

Lemma read_frames_prefix fs n :
  Forall frame_ok fs →
  ∃ e, read_frames (S (length fs)) (take n (concat (frame_bytes <$> fs))) =
         (take (complete fs n) (frame_view <$> fs), Err e) ∧
       ((length (concat (frame_bytes <$> fs)) ≤ n)%nat → e = EOF).
Proof.
  intros Hfs. revert n. induction Hfs as [|f fs Hf Hfs IH]; intros n.
  { exists EOF. cbn [fmap list_fmap concat]. rewrite take_nil. done. }
  rewrite fmap_cons. cbn [concat complete length]. rewrite length_app.
  destruct (decide (length (frame_bytes f) ≤ n)%nat) as [Hle|Hgt].
  - rewrite take_app_ge by done. cbn [read_frames]. rewrite read_frame by done.
    destruct (frame_view f) as [[[hb rt] seq] data] eqn:Ev.
    destruct (IH (n - length (frame_bytes f))%nat) as (e & Hr & He).
    cbn [read_frames length] in Hr. rewrite Hr. exists e.
    rewrite fmap_cons, Ev. cbn [take]. split; [done|]. intros. apply He. lia.
  - rewrite take_app_le by lia.
    destruct (frame_size f Hf) as [Hl Hs].
    destruct (ReadMessage_cut (frame_bytes f) n Hl Hs) as [e He]; [lia|].
    exists e. cbn [read_frames]. rewrite He. split; [done|lia].
Qed.

End stream.

(** ** Properties *)

(** C1. A request reaches its handler unchanged: for every request whose
    fields are in range, the encoder builds a buffer whose bytes and length
    agree, the framing layer of the peer takes exactly those bytes off the
    stream and reports the request's route and sequence number, and the decoder
    of that route returns the sequence number and the request. *)
Theorem request_over_the_wire `{!WriterAlloc} `{!JsonMap} `{!JsonMapLaws _} seq q :
  req_ok seq q →
  ∃ b bs, encode_req seq q = Ok b ∧ Tree.Bytes b = Ok bs ∧ Tree.Len b = len bs ∧
    (∀ rest, ReadMessage (bs ++ rest) = Ok (false, req_route q, seq, bs, rest)) ∧
    decode_req (req_route q) bs = Ok (seq, req_map Tree.elem_data q).
Proof.
  intros Hq. destruct (req_delivers seq q Hq) as (b & ? & ? & ? & ?).
  exists b, (req_frame seq q). split_and!; auto using req_decodes.
Qed.

(** A response reaches its caller unchanged, for every response but the
    one to [Stat] (whose decoder does not read the code): bytes and length of
    the buffer agree, the framing layer reports the route and the sequence
    number the caller waits for, and the decoder returns the results. *)
Theorem response_over_the_wire `{!WriterAlloc} v6 seq p :
  res_ok seq p → res_route p ≠ route.Stat →
  ∃ b bs, encode_res v6 seq p = Ok b ∧ Tree.Bytes b = Ok bs ∧ Tree.Len b = len bs ∧
    (∀ rest, ReadMessage (bs ++ rest) = Ok (false, res_route p, seq, bs, rest)) ∧
    decode_res (res_route p) bs = Ok p.
Proof.
  intros Hp Hs. destruct (res_delivers v6 seq p Hp) as (b & ? & ? & ? & ?).
  exists b, (res_frame v6 seq p). split_and!; auto.
  destruct Hp as [? ?]. by apply decode_encode_res.
Qed.

(** C28. Framing is exact: whatever number [n] of bytes of a stream of
    heartbeats, requests and responses has arrived, the reader delivers
    precisely the frames that are complete, in order, each with its route,
    sequence number and bytes, and then fails with an error (EOF if all has
    arrived); it never merges or splits frames and never panics. *)
Theorem stream_reads_whole_frames `{!WriterAlloc} `{!JsonMap} v6 fs n :
  Forall frame_ok fs →
  ∃ stream e, send_all v6 fs = Ok stream ∧
    read_frames (S (length fs)) (take n stream) =
      (take (complete v6 fs n) (frame_view v6 <$> fs), Err e) ∧
    ((length stream ≤ n)%nat → e = EOF).
Proof.
  intros Hfs. destruct (read_frames_prefix v6 fs n Hfs) as (e & ? & ?).
  eexists _, e. split; [by apply send_all_bytes|done].
Qed.

(** C32. No decoder panics, whatever bytes a peer sends under whatever route. *)
Theorem decoders_never_panic `{!JsonMap} rt data :
  small data → Forall is_byte data →
  no_panic (decode_req rt data) ∧ no_panic (decode_res rt data).
Proof. split; [by apply decode_req_no_panic|by apply decode_res_no_panic]. Qed.

(** C33. The framing layer panics on exactly two kinds of input: a size field
    of at least 2^32-4, whose [4+size] wraps, and a complete frame of fewer
    than 10 bytes that is not a heartbeat, whose route or sequence number
    [ParseBuffer] slices out of range. *)
Theorem framing_panics_exactly stream :
  Forall is_byte stream →
  (ReadMessage stream = Panic ↔
   4 ≤ len stream ∧
   (2 ^ 32 - 4 ≤ size_field stream ∨
    (0 < size_field stream < 10 ∧ 4 + size_field stream ≤ len stream ∧
     is_heartbeat stream = false))).
Proof. apply ReadMessage_panics. Qed.

(** ** What the decoders get wrong *)

(** The answer to [Stat] loses its code: a failure reads as success with a
    total of 0 (stat.go, [DecodeStatRes] seeks to the code and does not read
    it). *)
Lemma StatRes_loses_code seq code :
  DecodeStatRes (wire route.Stat seq (u16be code)) = Ok (0, 0).
Proof.
  unfold DecodeStatRes. rewrite bool_decide_eq_false_2 by (rewrite length_wire; sizes; lia).
  rewrite seek_body. run.
  by rewrite bool_decide_eq_false_2 by (rewrite length_wire; sizes; lia).
Qed.

(** The total of a successful answer is read two bytes too early. *)
Lemma StatRes_shifts_total :
  DecodeStatRes (wire route.Stat 1 (u16be 0 ++ u64be 65536)) = Ok (0, 1).
Proof. vm_compute. reflexivity. Qed.

(** [publishReqBytes+channelBytes] is 8 bits wide: behind a channel name of
    241 bytes the message starts at offset 0, the frame itself. *)
Lemma PublishReq_wraps `{!JsonMap} seq m :
  in_u 64 seq →
  let channel := replicate 241 97 in
  let bs := wire route.Publish seq ([241] ++ channel ++ m) in
  len m < 2 ^ 31 →
  decode_req route.Publish bs = Ok (seq, PublishReq channel bs).
Proof.
  intros Hs channel bs Hm. unfold decode_req. pick_route. unfold DecodePublishReq, bs.
  dec_start. do 2 dec_read.
  change (ReadString 241) with (ReadString (len channel)).
  rewrite ReadString_rd by (unfold small; sizes; unfold channel; len_solve).
  run. change (wrapU 8 (publishReqBytes + 241)) with 0.
  by rewrite slice_from_Ok by lia.
Qed.

(** [multicastReqBytes+8*count] is 16 bits wide: with 8190 targets the message
    starts at offset 1. *)
Lemma MulticastReq_wraps `{!JsonMap} seq k ts m :
  in_u 64 seq → Forall (in_s 64) ts → len ts = 8190 → len m < 2 ^ 31 →
  let bs := wire route.Multicast seq ([k] ++ u16be 8190 ++ i64s ts ++ m) in
  decode_req route.Multicast bs = Ok (seq, MulticastReq k ts (drop 1 bs)).
Proof.
  intros Hs Hts Hl Hm bs. unfold decode_req. pick_route. unfold DecodeMulticastReq, bs.
  assert (in_u 16 8190) by done. rewrite <- Hl in *.
  dec_start. do 4 dec_read. rewrite Hl.
  change (wrapU 16 (multicastReqBytes + 8 * 8190)) with 1.
  rewrite slice_from_Ok; [done|lia|]. rewrite length_wire. lia.
Qed.

(** ** Witnesses *)

(** A concrete codec for the metadata: one number per map. *)
Definition example_json : JsonMap := {|
  json_Marshal m := [Zpos (encode m)];
  json_Unmarshal s := match s with [Zpos p] => decode p | _ => None end |}.
Lemma example_json_laws : JsonMapLaws example_json.
Proof. split; [|done]. intros m _ _. simpl. apply decode_encode. Qed.
#[local] Existing Instance default_alloc.
#[local] Existing Instance example_json.
#[local] Existing Instance example_json_laws.

Definition example_push : Req (block + Tree.NocopyBuffer) :=
  PushReq 2 (-7) (inl (BRaw [104; 105])).
Definition example_deliver : Req (block + Tree.NocopyBuffer) :=
  DeliverReq 9 10003 {[ [107] := [118] ]} (inl (BRaw [1; 2; 3])).

Lemma request_over_the_wire_witness :
  req_ok 5 example_deliver ∧
  ∃ b bs, encode_req 5 example_deliver = Ok b ∧ Tree.Bytes b = Ok bs ∧
    Tree.Len b = len bs ∧
    (∀ rest, ReadMessage (bs ++ rest) = Ok (false, route.Deliver, 5, bs, rest)) ∧
    decode_req route.Deliver bs = Ok (5, req_map Tree.elem_data example_deliver).
Proof.
  assert (H : req_ok 5 example_deliver).
  { split_and!; [by apply (bool_decide_unpack _)|simpl|done|by vm_compute].
    split_and!; [by apply (bool_decide_unpack _)..|].
    by apply map_Forall_singleton. }
  split; [exact H|exact (request_over_the_wire 5 example_deliver H)].
Defined.

Lemma response_over_the_wire_witness :
  res_ok 5 (MulticastRes 0 3) ∧
  ∃ b bs, encode_res (λ _, None) 5 (MulticastRes 0 3) = Ok b ∧ Tree.Bytes b = Ok bs ∧
    Tree.Len b = len bs ∧
    (∀ rest, ReadMessage (bs ++ rest) = Ok (false, route.Multicast, 5, bs, rest)) ∧
    decode_res route.Multicast bs = Ok (MulticastRes 0 3).
Proof.
  assert (H : res_ok 5 (MulticastRes 0 3)).
  { split; [by apply (bool_decide_unpack _)|].
    split_and!; [by apply (bool_decide_unpack _)..|done]. }
  split; [exact H|].
  exact (response_over_the_wire (λ _, None) 5 (MulticastRes 0 3) H ltac:(done)).
Defined.

Definition example_frames : list Frame :=
  [HeartbeatFrame; ReqFrame 5 example_push; ResFrame 5 (CodeRes route.Push 0)].

Lemma stream_reads_whole_frames_witness :
  Forall frame_ok example_frames ∧
  ∃ stream e, send_all (λ _, None) example_frames = Ok stream ∧
    read_frames 4 (take 40 stream) =
      (take 2 (frame_view (λ _, None) <$> example_frames), Err e) ∧
    ((length stream ≤ 40)%nat → e = EOF).
Proof.
  assert (H : Forall frame_ok example_frames).
  { repeat constructor; by apply (bool_decide_unpack _). }
  split; [exact H|].
  exact (stream_reads_whole_frames (λ _, None) example_frames 40 H).
Defined.

Lemma decoders_never_panic_witness :
  no_panic (decode_req route.Publish [1; 2; 3]) ∧
  no_panic (decode_res route.Publish [1; 2; 3]).
Proof.
  apply (decoders_never_panic route.Publish [1; 2; 3]); [done|by repeat constructor].
Defined.

Lemma framing_panics_exactly_witness : ReadMessage [0; 0; 0; 1; 0] = Panic.
Proof.
  apply (framing_panics_exactly [0; 0; 0; 1; 0]); [by repeat constructor|].
  split; [done|]. right. split_and!; done.
Defined.
