(* ===== verification/Rpc.v ===== *)
(** * internal/transporter/internal: the RPC server and client around the frames

    The server side of a connection reads a frame, answers heartbeats itself,
    looks the handler of the route up and sends what the handler makes
    (server/conn.go, server/server.go); the client side writes a request, reads
    the answer and matches it by its sequence number (client/conn.go,
    client/client.go, client/pending.go).  The handlers act on an application
    state [S]; timeouts appear as the error a call ends with when no answer
    matches. *)
From S2P Require Import Prelude Buffer Nocopy Ip Protocol Wire Frames.
Import Writer Reader.

(** ** Writing a buffer

    [Conn.write] and [conn.doWrite] visit the nodes and write the bytes of each
    that has any. *)
Definition write_node (out : outcome (list Z)) (k : block) : outcome (list Z) * bool :=
  match out, Node.bytes k with
  | Ok s, Ok d => if bool_decide (len d = 0) then (Ok s, true) else (Ok (s ++ d), true)
  | Ok _, e => (e, false)
  | e, _ => (e, false)
  end.

Definition write_buffer (b : Tree.NocopyBuffer) : outcome (list Z) :=
  fst (Tree.Visit write_node (Ok []) b).

Lemma visit_write s ks :
  Forall Node.wf ks →
  Tree.visit_nodes write_node (Ok s) ks = (Ok (s ++ concat (Node.data <$> ks)), true).
Proof.
  intros Hks. revert s. induction Hks as [|k ks Hk Hks IH]; intros s.
  { cbn. by rewrite app_nil_r. }
  cbn [Tree.visit_nodes]. unfold write_node at 1. rewrite Node.bytes_data by done.
  rewrite fmap_cons. cbn [concat].
  case_bool_decide as E; rewrite IH.
  - by rewrite (nil_length_inv (Node.data k)) by lia.
  - by rewrite <- app_assoc.
Qed.

Lemma solid_leaves_wf b : Tree.solid b → Forall Node.wf (Tree.leaves b).
Proof.
  induction b as [n es IH] using Tree.nocopy_ind. intros Hs.
  apply Tree.solid_elems in Hs. rewrite Tree.leaves_concat.
  induction Hs as [|e es He Hes IHes]; [constructor|].
  rewrite fmap_cons. cbn [concat]. apply Forall_app.
  split; [|apply IHes; intros; apply IH; [by right|done]].
  destruct e as [k|c]; simpl in *; [by repeat constructor|]. destruct He. apply IH; [left|done].
Qed.

(** What is written is the buffer's bytes. *)
Lemma write_buffer_data b : Tree.solid b → write_buffer b = Ok (Tree.data b).
Proof.
  intros Hs. unfold write_buffer, Tree.Visit. by rewrite visit_write by (by apply solid_leaves_wf).
Qed.

(** ** The server's connection *)

(** The instance at the other end, as its handshake names it. *)
Record Peer := mkPeer { InsKind : Z; InsID : list Z }.

Section server.
Context {S : Type} `{!WriterAlloc}.

(** A handler's result: a buffer to send, nothing, or the error that [read]
    logs. *)
Definition Handler : Type := list Z → Op (S * Peer) (option Tree.NocopyBuffer).

(** [conn.Send(buf)] at the end of a handler. *)
Definition Send (m : outcome Tree.NocopyBuffer) : Op (S * Peer) (option Tree.NocopyBuffer) :=
  b ← lift m; mret (Some b).

Definition handshake : Handler := λ data,
  '(seq, insKind, insID) ← lift (DecodeHandshakeReq data);
  _ ← (λ s, ((s.1, mkPeer insKind insID), Ok ()));
  Send (EncodeHandshakeRes seq (codes.ErrorToCode None)).

(** [NewServer] and [RegisterHandler]. *)
Definition NewServer : gmap Z Handler := {[ route.Handshake := handshake ]}.
Definition RegisterHandler (rt : Z) (h : Handler) (hs : gmap Z Handler) : gmap Z Handler :=
  <[rt := h]> hs.
Definition getHandler (hs : gmap Z Handler) (rt : Z) : option Handler := hs !! rt.

(** One turn of the [read] loop: the stream that is left and the bytes
    answered. *)
Definition read_one (hs : gmap Z Handler) (stream : list Z)
    : Op (S * Peer) (list Z * list Z) :=
  '(isHeartbeat, rt, _, data, stream) ← lift (ReadMessage stream);
  if isHeartbeat : bool then hb ← lift Heartbeat; mret (stream, hb) else
  match getHandler hs rt with
  | None => mret (stream, [])
  | Some handler =>
      r ← try (handler data);
      match r with
      | Ok (Some b) => bs ← lift (write_buffer b); mret (stream, bs)
      | _ => mret (stream, [])
      end
  end.

(** The loop: it ends with the error of a read. *)
Fixpoint read_loop (hs : gmap Z Handler) (fuel : nat) (stream : list Z)
    : S * Peer → S * Peer * list Z * outcome unit := fun s =>
  match fuel with
  | O => (s, [], Ok ())
  | Datatypes.S fuel =>
      match read_one hs stream s with
      | (s, Ok (stream, out)) =>
          let '(s, out', e) := read_loop hs fuel stream s in (s, out ++ out', e)
      | (s, Err e) => (s, [], Err e)
      | (s, Panic) => (s, [], Panic)
      end
  end.

(** ** The client's connection *)

Context `{!BytesAlloc}.

(** [conn.read] on the answer to one request: the frame is delivered to the
    call that waits for its sequence number, heartbeats and other numbers are
    dropped. *)
Definition receive (seq : Z) (stream : list Z) : outcome (list Z) :=
  '(buf, _) ← ReaderBuffer MallocBytes stream;
  data ← Bytes.bytes (Some buf);
  '(isHeartbeat, _, seq') ← ParseBuffer data (drop (length data) (Bytes.b_buf buf));
  if (isHeartbeat : bool) || bool_decide (seq' ≠ seq) then Err (ErrConn 0) else Ok data.

(** [Client.Call] over a healthy connection to a server with handlers [hs]. *)
Definition Call (hs : gmap Z Handler) (seq : Z) (m : outcome Tree.NocopyBuffer)
    : Op (S * Peer) (list Z) :=
  buf ← lift m;
  out ← lift (write_buffer buf);
  '(_, answer) ← read_one hs out;
  lift (receive seq answer).

(** [Client.Send]: no answer is awaited. *)
Definition CallSend (hs : gmap Z Handler) (m : outcome Tree.NocopyBuffer)
    : Op (S * Peer) unit :=
  buf ← lift m;
  out ← lift (write_buffer buf);
  _ ← read_one hs out; mret ().

(** [doGenSequence]: [seq.Add(1)] until the number is not 0. *)
Fixpoint doGenSequence (fuel : nat) (counter : Z) : option Z :=
  match fuel with
  | O => None
  | Datatypes.S fuel =>
      let seq := wrapU 64 (counter + 1) in
      if bool_decide (seq ≠ 0) then Some seq else doGenSequence fuel seq
  end.

(** Two turns are enough, and the number is never 0. *)
Lemma doGenSequence_total counter :
  ∃ seq, doGenSequence 2 counter = Some seq ∧ in_u 64 seq ∧ seq ≠ 0.
Proof.
  cbn [doGenSequence]. pose proof (wrapU_range 64 (counter + 1)) as H1.
  case_bool_decide as Hz; [eexists; split; [done|]; split; [apply H1; lia|done]|].
  rewrite Hz. by eexists.
Qed.

(** *** What they do on frames *)

Lemma lift_bind_Ok {A B} (f : A → Op (S * Peer) B) (a : A) s :
  (lift (Ok a) ≫= f) s = f a s.
Proof. done. Qed.

Lemma read_one_frame hs rt seq body rest s :
  in_u 64 seq → fits_frame body →
  read_one hs (wire rt seq body ++ rest) s =
  match getHandler hs rt with
  | None => (s, Ok (rest, []))
  | Some handler =>
      let '(s, r) := handler (wire rt seq body) s in
      match r with
      | Ok (Some b) =>
          match write_buffer b with
          | Ok bs => (s, Ok (rest, bs)) | Err e => (s, Err e) | Panic => (s, Panic)
          end
      | Panic => (s, Panic)
      | _ => (s, Ok (rest, []))
      end
  end.
Proof.
  intros Hs Hf. unfold read_one. rewrite ReadMessage_wire, lift_bind_Ok by done.
  cbv iota. destruct (getHandler hs rt) as [h|]; [|done].
  unfold mbind, Op_bind, try. destruct (h _ s) as [s' [[b|]|e|]]; try done.
Qed.

Lemma receive_frame rt seq body :
  in_u 64 seq → fits_frame body → receive seq (wire rt seq body) = Ok (wire rt seq body).
Proof.
  intros Hs Hf. unfold receive.
  destruct (ReaderBuffer_wire rt seq body [] Hf) as (b & E & Hb & _).
  rewrite app_nil_r in E. rewrite E. run. rewrite Hb. run.
  rewrite ParseBuffer_wire by done. run.
  rewrite bool_decide_eq_false_2; [done|by intros []].
Qed.

(** A call whose handler answers with a frame of the same number gets it. *)
Lemma Call_frame hs rt seq m body h s s' m' rt' body' :
  in_u 64 seq → fits_frame body → fits_frame body' →
  makes m (wire rt seq body) → getHandler hs rt = Some h →
  h (wire rt seq body) s = (s', b ← m'; Ok (Some b)) → makes m' (wire rt' seq body') →
  Call hs seq m s = (s', Ok (wire rt' seq body')).
Proof.
  intros Hs Hf Hf' (b & -> & Hb & Hd) Hh Hr (b' & -> & Hb' & Hd').
  unfold Call. rewrite lift_bind_Ok, write_buffer_data, lift_bind_Ok, Hd by done.
  rewrite (op_bind_ok _ _ s s' ([], wire rt' seq body')).
  - cbv iota. unfold lift. by rewrite receive_frame.
  - rewrite <- (app_nil_r (wire rt seq body)), read_one_frame, Hh by done.
    rewrite Hr. cbn. by rewrite write_buffer_data, Hd'.
Qed.

End server.
Arguments Handler : clear implicits.

(** ** What is left of an error

    The error of a local call survives the code of the answer only if it is
    [ErrNotFoundSession]; any other becomes [ErrUnknownError]. *)
Definition narrow {A} (r : outcome A) : outcome A :=
  match r with
  | Err e => Err (default ErrUnknownError (codes.CodeToError (codes.ErrorToCode (Some e))))
  | r => r
  end.

Lemma narrow_Err {A} e :
  narrow (@Err A e) = Err (if bool_decide (e = ErrNotFoundSession)
                           then ErrNotFoundSession else ErrUnknownError).
Proof. by destruct e. Qed.

Lemma ErrorToCode_range e : in_u 16 (codes.ErrorToCode e).
Proof. by destruct e as [[]|]. Qed.
