(* ===== verification/Session.v ===== *)
(** * session: who is connected, bound and subscribed at a gate

    [Session] keeps three maps (connections by id, connections by user,
    connections by channel) over [network.Conn] objects that it shares with
    the network layer; the objects carry the user id and the attributes.  The
    model is a heap of connection objects and the three maps of references into
    it, so that [Bind] on one connection is seen through every map.  The lock
    makes each operation atomic; what the code does outside the lock ([Close] of
    a kicked connection in its own goroutine, [Push] on a snapshot) is explicit:
    the goroutines started are recorded in [closing]. *)
From stdpp Require Import fin_maps fin_sets functions.
From S2P Require Import Prelude.

(** ** State *)

Inductive Kind := KConn | KUser | KOther (k : Z).
#[export] Instance Kind_eq_dec : EqDecision Kind.
Proof. solve_decision. Defined.

(** [session.Kind] from the wire: 1 is [Conn], 2 is [User]. *)
Definition to_kind (k : Z) : Kind :=
  if bool_decide (k = 1) then KConn else if bool_decide (k = 2) then KUser else KOther k.

(** A reference to a connection object. *)
Definition ref := positive.
#[export] Instance ref_eq_dec : EqDecision ref := _.
#[export] Instance ref_countable : Countable ref := _.

(** What the session uses of a [network.Conn]: its id, the bound user, its
    attribute keys, the messages it has accepted and the [Close] calls made. *)
Record Conn := mkConn {
  ID : Z;
  UID : Z;
  Attr : gset (list Z);
  sent : list (list Z);
  closes : list bool;
}.

Record Session := mkSession {
  conns : gmap Z ref;
  users : gmap Z ref;
  channels : gmap (list Z) (gset ref);
}.

(** The session, the connection objects, and the connections whose [Close] was
    started in a goroutine. *)
Record World := mkWorld {
  ses : Session;
  heap : ref → Conn;
  closing : list ref;
}.

Definition NewSession : Session := mkSession ∅ ∅ ∅.

Definition upd (r : ref) (f : Conn → Conn) (w : World) : World :=
  mkWorld (ses w) (<[r := f (heap w r)]> (heap w)) (closing w).
Definition set_ses (s : Session) (w : World) : World := mkWorld s (heap w) (closing w).
Definition set_conns m (s : Session) := mkSession m (users s) (channels s).
Definition set_users m (s : Session) := mkSession (conns s) m (channels s).
Definition set_channels m (s : Session) := mkSession (conns s) (users s) m.

(** [network.Conn] (network/tcp/server_conn.go and its siblings): [Bind] and
    [Unbind] store the user id, the attributes are a concurrent map. *)
Definition conn_Bind (uid : Z) (c : Conn) : Conn :=
  mkConn (ID c) uid (Attr c) (sent c) (closes c).
Definition conn_Unbind (c : Conn) : Conn := mkConn (ID c) 0 (Attr c) (sent c) (closes c).
Definition attr_Set (k : list Z) (c : Conn) : Conn :=
  mkConn (ID c) (UID c) ({[k]} ∪ Attr c) (sent c) (closes c).
Definition attr_Del (k : list Z) (c : Conn) : Conn :=
  mkConn (ID c) (UID c) (Attr c ∖ {[k]}) (sent c) (closes c).
Definition conn_accept (m : list Z) (c : Conn) : Conn :=
  mkConn (ID c) (UID c) (Attr c) (sent c ++ [m]) (closes c).
Definition conn_close (force : bool) (c : Conn) : Conn :=
  mkConn (ID c) (UID c) (Attr c) (sent c) (closes c ++ [force]).

Definition channelAttrPrefix : list Z :=
  (λ a, Z.of_nat (Ascii.nat_of_ascii a)) <$>
    String.list_ascii_of_string "__session_channel__:".
Definition channelAttrKey (channel : list Z) : list Z := channelAttrPrefix ++ channel.

(** [strings.HasPrefix] and [strings.TrimPrefix]. *)
Definition HasPrefix (s p : list Z) : bool := bool_decide (take (length p) s = p).
Definition TrimPrefix (s p : list Z) : list Z :=
  if HasPrefix s p then drop (length p) s else s.

(** ** Operations *)

(** [sessionsLocked] *)
Definition sessionsLocked (kind : Kind) (s : Session) : outcome (gmap Z ref) :=
  match kind with
  | KConn => Ok (conns s)
  | KUser => Ok (users s)
  | KOther _ => Err ErrInvalidSessionKind
  end.

Definition connLocked (kind : Kind) (target : Z) (s : Session) : outcome ref :=
  m ← sessionsLocked kind s;
  match m !! target with Some r => Ok r | None => Err ErrNotFoundSession end.

Definition getConn := connLocked.

Definition doUnsubscribeLocked (channel : list Z) (r : ref) (s : Session) : Session :=
  match channels s !! channel with
  | None => s
  | Some cs =>
      let cs := cs ∖ {[r]} in
      if bool_decide (size cs = 0%nat) then set_channels (delete channel (channels s)) s
      else set_channels (<[channel := cs]> (channels s)) s
  end.

Definition AddConn (conn : option ref) (w : World) : World :=
  match conn with
  | None => w
  | Some r =>
      let c := heap w r in
      let w := set_ses (set_conns (<[ID c := r]> (conns (ses w))) (ses w)) w in
      if bool_decide (UID c ≠ 0) then
        let w := match users (ses w) !! UID c with
                 | Some old => if bool_decide (ID (heap w old) ≠ ID c)
                               then upd old conn_Unbind w else w
                 | None => w
                 end in
        set_ses (set_users (<[UID c := r]> (users (ses w))) (ses w)) w
      else w
  end.

(** One step of [Attr().Visit] in [RemConn]. *)
Definition RemConn_visit (r : ref) (s : Session) (key : list Z) : Session :=
  if HasPrefix key channelAttrPrefix then
    let channel := TrimPrefix key channelAttrPrefix in
    if bool_decide (channel ≠ []) then doUnsubscribeLocked channel r s else s
  else s.

(** [delete(s.users, uid)] if it still points to the connection [cid]. *)
Definition drop_user (uid cid : Z) (w : World) : World :=
  match users (ses w) !! uid with
  | Some cur => if bool_decide (ID (heap w cur) = cid)
                then set_ses (set_users (delete uid (users (ses w))) (ses w)) w else w
  | None => w
  end.

Definition RemConn (conn : option ref) (w : World) : World :=
  match conn with
  | None => w
  | Some r =>
      let c := heap w r in
      let w := set_ses (set_conns (delete (ID c) (conns (ses w))) (ses w)) w in
      let w := if bool_decide (UID c ≠ 0) then drop_user (UID c) (ID c) w else w in
      set_ses (foldl (RemConn_visit r) (ses w) (elements (Attr c))) w
  end.

Definition Has (kind : Kind) (target : Z) (w : World) : outcome bool :=
  match kind with
  | KConn => Ok (bool_decide (is_Some (conns (ses w) !! target)))
  | KUser => Ok (bool_decide (is_Some (users (ses w) !! target)))
  | KOther _ => Err ErrInvalidSessionKind
  end.

Definition Bind (cid uid : Z) (w : World) : World * option error :=
  match connLocked KConn cid (ses w) with
  | Err e => (w, Some e)
  | Panic => (w, None)
  | Ok r =>
      let oldUID := UID (heap w r) in
      if bool_decide (oldUID = uid) then (w, None) else
      let w := if bool_decide (oldUID ≠ 0) then drop_user oldUID cid w else w in
      if bool_decide (uid = 0) then (upd r conn_Unbind w, None) else
      let bind w :=
        let w := upd r (conn_Bind uid) w in
        set_ses (set_users (<[uid := r]> (users (ses w))) (ses w)) w in
      match users (ses w) !! uid with
      | None => (bind w, None)
      | Some old =>
          if bool_decide (ID (heap w old) = cid) then (bind w, None)
          else
            let w := bind (upd old conn_Unbind w) in
            (mkWorld (ses w) (heap w) (closing w ++ [old]), None)
      end
  end.

Definition Unbind (cid uid : Z) (w : World) : World * outcome Z :=
  if bool_decide (uid = 0 ∨ cid = 0) then (w, Err ErrNotFoundSession) else
  match connLocked KConn cid (ses w) with
  | Err e => (w, Err e)
  | Panic => (w, Panic)
  | Ok r =>
      if bool_decide (UID (heap w r) ≠ uid) then (w, Ok 0) else
      (drop_user uid cid (upd r conn_Unbind w), Ok cid)
  end.

(** [LocalIP], [LocalAddr], [RemoteIP] and [RemoteAddr] ask the connection
    found; [ask] is the method. *)
Definition ask_conn {A} (ask : Conn → outcome A) (kind : Kind) (target : Z) (w : World)
  : outcome A :=
  r ← getConn kind target (ses w); ask (heap w r).

(** [conn.Close(force...)] outside the lock; [closed] is what it returns. *)
Definition Close (closed : Conn → option error) (cid uid : Z) (force : bool) (w : World)
  : World * option error :=
  match (match conns (ses w) !! cid with
         | Some r => Some r
         | None => users (ses w) !! uid
         end) with
  | None => (w, Some ErrNotFoundSession)
  | Some r =>
      if bool_decide (UID (heap w r) ≠ uid) then (w, None)
      else (upd r (conn_close force) w, closed (heap w r))
  end.

(** [network.Conn.Push]: the connection accepts the message or answers an
    error. *)
Definition conn_Push (pushed : Conn → list Z → option error) (r : ref) (m : list Z)
    (w : World) : World * option error :=
  match pushed (heap w r) m with
  | None => (upd r (conn_accept m) w, None)
  | Some e => (w, Some e)
  end.

Section pushing.
Context (pushed : Conn → list Z → option error).

(** [Send] and [Push] differ in the method they call on the connection. *)
Definition Push (kind : Kind) (target : Z) (m : list Z) (w : World) : World * option error :=
  match getConn kind target (ses w) with
  | Ok r => conn_Push pushed r m w
  | Err e => (w, Some e)
  | Panic => (w, None)
  end.

(** [for _, conn := range conns { if conn.Push(message) == nil { n++ } }] *)
Fixpoint push_each (rs : list ref) (m : list Z) (w : World) : World * Z :=
  match rs with
  | [] => (w, 0)
  | r :: rs =>
      let '(w, e) := conn_Push pushed r m w in
      let '(w, n) := push_each rs m w in
      (w, if bool_decide (e = None) then 1 + n else n)
  end.

Definition snapshotTargets (kind : Kind) (targets : list Z) (s : Session)
  : outcome (list ref) :=
  m ← sessionsLocked kind s; Ok (omap (m !!.) targets).

(** Map iteration order is unspecified in Go; one order is chosen. *)
Definition snapshotAll (kind : Kind) (s : Session) : outcome (list ref) :=
  m ← sessionsLocked kind s; Ok ((map_to_list m).*2).

Definition snapshotChannel (channel : list Z) (s : Session) : list ref :=
  match channels s !! channel with
  | None => []
  | Some cs => elements cs
  end.

Definition Multicast (kind : Kind) (targets : list Z) (m : list Z) (w : World)
  : World * outcome Z :=
  if bool_decide (targets = []) then (w, Ok 0) else
  match snapshotTargets kind targets (ses w) with
  | Ok rs => let '(w, n) := push_each rs m w in (w, Ok n)
  | Err e => (w, Err e)
  | Panic => (w, Panic)
  end.

Definition Broadcast (kind : Kind) (m : list Z) (w : World) : World * outcome Z :=
  match snapshotAll kind (ses w) with
  | Ok rs => let '(w, n) := push_each rs m w in (w, Ok n)
  | Err e => (w, Err e)
  | Panic => (w, Panic)
  end.

Definition Publish (channel : list Z) (m : list Z) (w : World) : World * Z :=
  if bool_decide (channel = []) then (w, 0) else
  push_each (snapshotChannel channel (ses w)) m w.
End pushing.

Definition Subscribe_one (channel : list Z) (m : gmap Z ref) (w : World) (target : Z) : World :=
  match m !! target with
  | None => w
  | Some r =>
      let w := upd r (attr_Set (channelAttrKey channel)) w in
      let cs := default ∅ (channels (ses w) !! channel) in
      set_ses (set_channels (<[channel := {[r]} ∪ cs]> (channels (ses w))) (ses w)) w
  end.

(** The channel's set is created before the targets are looked up. *)
Definition Subscribe (kind : Kind) (targets channel : list Z) (w : World)
  : World * option error :=
  if bool_decide (targets = [] ∨ channel = []) then (w, None) else
  match sessionsLocked kind (ses w) with
  | Err e => (w, Some e)
  | Panic => (w, None)
  | Ok m =>
      let cs := default ∅ (channels (ses w) !! channel) in
      let w := set_ses (set_channels (<[channel := cs]> (channels (ses w))) (ses w)) w in
      (foldl (Subscribe_one channel m) w targets, None)
  end.

Definition Unsubscribe_one (channel : list Z) (m : gmap Z ref) (w : World) (target : Z) : World :=
  match m !! target with
  | None => w
  | Some r =>
      let k := channelAttrKey channel in
      if bool_decide (k ∈ Attr (heap w r)) then
        let w := upd r (attr_Del k) w in
        set_ses (doUnsubscribeLocked channel r (ses w)) w
      else w
  end.

Definition Unsubscribe (kind : Kind) (targets channel : list Z) (w : World)
  : World * option error :=
  if bool_decide (targets = [] ∨ channel = []) then (w, None) else
  match sessionsLocked kind (ses w) with
  | Err e => (w, Some e)
  | Panic => (w, None)
  | Ok m => (foldl (Unsubscribe_one channel m) w targets, None)
  end.

Definition Stat (kind : Kind) (w : World) : outcome Z :=
  match kind with
  | KConn => Ok (Z.of_nat (size (conns (ses w))))
  | KUser => Ok (Z.of_nat (size (users (ses w))))
  | KOther _ => Err ErrInvalidSessionKind
  end.

(** ** The invariant

    A connection is live while its id leads to it.  The user map is exactly
    the live connections bound to a user, and a channel's set is exactly the
    live connections that carry the channel's attribute. *)
Definition live (w : World) (r : ref) : Prop := conns (ses w) !! ID (heap w r) = Some r.

Definition subscribed (s : Session) (ch : list Z) (r : ref) : Prop :=
  ∃ cs, channels s !! ch = Some cs ∧ r ∈ cs.

Record wf (w : World) : Prop := {
  wf_conns cid r : conns (ses w) !! cid = Some r → ID (heap w r) = cid;
  wf_users uid r : users (ses w) !! uid = Some r ↔
    live w r ∧ UID (heap w r) = uid ∧ uid ≠ 0;
  wf_channels ch r : subscribed (ses w) ch r ↔
    live w r ∧ channelAttrKey ch ∈ Attr (heap w r) ∧ ch ≠ [];
}.

Lemma heap_upd r f w r' :
  heap (upd r f w) r' = if decide (r = r') then f (heap w r) else heap w r'.
Proof.
  unfold upd. simpl. destruct (decide (r = r')) as [->|Hne].
  - apply fn_lookup_insert.
  - by apply fn_lookup_insert_ne.
Qed.

Lemma heap_upd_eq r f w : heap (upd r f w) r = f (heap w r).
Proof. rewrite heap_upd. by rewrite decide_True. Qed.

Lemma heap_upd_ne r f w r' : r ≠ r' → heap (upd r f w) r' = heap w r'.
Proof. intros. rewrite heap_upd. by rewrite decide_False. Qed.

(** Updates that keep the ids. *)
Lemma ID_upd r f w r' : (∀ c, ID (f c) = ID c) → ID (heap (upd r f w) r') = ID (heap w r').
Proof. intros H. rewrite heap_upd. destruct (decide _) as [->|]; [apply H|done]. Qed.

Lemma live_upd r f w r' : (∀ c, ID (f c) = ID c) → live (upd r f w) r' ↔ live w r'.
Proof. intros H. unfold live. by rewrite ID_upd. Qed.

Lemma wf_live w cid r : wf w → conns (ses w) !! cid = Some r → live w r.
Proof. intros Hw H. unfold live. by rewrite (wf_conns _ Hw _ _ H). Qed.

Lemma live_inj w r r' : live w r → live w r' → ID (heap w r) = ID (heap w r') → r = r'.
Proof. unfold live. congruence. Qed.

Lemma user_inj w r r' :
  wf w → live w r → live w r' → UID (heap w r) = UID (heap w r') → UID (heap w r) ≠ 0 → r = r'.
Proof.
  intros Hw H H' E Hne.
  assert (users (ses w) !! UID (heap w r) = Some r) by (by apply wf_users).
  assert (users (ses w) !! UID (heap w r) = Some r') by (by apply wf_users).
  congruence.
Qed.

(** *** Channels *)

Lemma subscribed_doUnsubscribe ch r s ch' r' :
  subscribed (doUnsubscribeLocked ch r s) ch' r' ↔
  subscribed s ch' r' ∧ ¬ (ch' = ch ∧ r' = r).
Proof.
  unfold subscribed, doUnsubscribeLocked.
  destruct (channels s !! ch) as [cs|] eqn:E; [|naive_solver].
  bcase; simpl.
  - destruct (decide (ch' = ch)) as [->|Hne].
    + rewrite lookup_delete_eq. apply size_empty_inv in e. set_solver.
    + rewrite lookup_delete_ne by done. naive_solver.
  - destruct (decide (ch' = ch)) as [->|Hne].
    + rewrite lookup_insert_eq, E. split.
      * intros (? & [= <-] & [? ?]%elem_of_difference).
        split; [by exists cs|]. intros [_ ->]. set_solver.
      * intros [(? & [= <-] & ?) ?]. eexists. split; [done|]. set_solver.
    + rewrite lookup_insert_ne by done. naive_solver.
Qed.

Lemma doUnsubscribe_maps ch r s :
  conns (doUnsubscribeLocked ch r s) = conns s ∧ users (doUnsubscribeLocked ch r s) = users s.
Proof. unfold doUnsubscribeLocked. destruct (_ !! _); [bcase|]; done. Qed.

Lemma HasPrefix_key key :
  HasPrefix key channelAttrPrefix = true →
  key = channelAttrKey (TrimPrefix key channelAttrPrefix).
Proof.
  intros H. unfold TrimPrefix, channelAttrKey. rewrite H.
  apply bool_decide_eq_true_1 in H. rewrite <- H at 1. by rewrite take_drop.
Qed.

Lemma HasPrefix_channel ch : HasPrefix (channelAttrKey ch) channelAttrPrefix = true.
Proof. apply bool_decide_eq_true_2. unfold channelAttrKey. by rewrite take_app_length. Qed.

Lemma channelAttrKey_inj ch ch' : channelAttrKey ch = channelAttrKey ch' → ch = ch'.
Proof. apply app_inv_head. Qed.

Lemma subscribed_visit r s key ch' r' :
  subscribed (RemConn_visit r s key) ch' r' ↔
  subscribed s ch' r' ∧ ¬ (r' = r ∧ key = channelAttrKey ch' ∧ ch' ≠ []).
Proof.
  unfold RemConn_visit. destruct (HasPrefix key channelAttrPrefix) eqn:Hp.
  - apply HasPrefix_key in Hp. set (ch := TrimPrefix _ _) in *. clearbody ch. subst key.
    bcase.
    + rewrite subscribed_doUnsubscribe. split; intros [H1 H2]; (split; [done|]).
      * intros (-> & E & ?). apply channelAttrKey_inj in E as ->. by apply H2.
      * intros [-> ->]. by apply H2.
    + split; [|by intros []]. intros H. split; [done|]. intros (-> & E & ?).
      apply channelAttrKey_inj in E as ->. done.
  - split; [|by intros []]. intros H. split; [done|]. intros (-> & -> & ?).
    by rewrite HasPrefix_channel in Hp.
Qed.

Lemma visit_maps r s key :
  conns (RemConn_visit r s key) = conns s ∧ users (RemConn_visit r s key) = users s.
Proof.
  unfold RemConn_visit. destruct (HasPrefix _ _); [bcase|]; try done.
  apply doUnsubscribe_maps.
Qed.

Lemma visits_maps r keys s :
  conns (foldl (RemConn_visit r) s keys) = conns s ∧
  users (foldl (RemConn_visit r) s keys) = users s.
Proof.
  revert s. induction keys as [|k keys IH]; intros s; [done|]. simpl.
  destruct (IH (RemConn_visit r s k)) as [-> ->]. apply visit_maps.
Qed.

Lemma subscribed_visits r keys s ch' r' :
  subscribed (foldl (RemConn_visit r) s keys) ch' r' ↔
  subscribed s ch' r' ∧ ¬ (r' = r ∧ channelAttrKey ch' ∈ keys ∧ ch' ≠ []).
Proof.
  revert s. induction keys as [|k keys IH]; intros s; simpl.
  - set_solver.
  - rewrite IH, subscribed_visit, elem_of_cons. naive_solver.
Qed.

(** *** Connections come and go *)

(** A connection the network layer has just made: an unused id, no channels. *)
Definition fresh_conn (w : World) (r : ref) : Prop :=
  conns (ses w) !! ID (heap w r) = None ∧ ∀ ch, channelAttrKey ch ∉ Attr (heap w r).

(** The state after [AddConn] of a fresh connection. *)
Definition added (r : ref) (w : World) : World :=
  let c := heap w r in
  mkWorld
    (mkSession (<[ID c := r]> (conns (ses w)))
       (if bool_decide (UID c ≠ 0) then <[UID c := r]> (users (ses w)) else users (ses w))
       (channels (ses w)))
    (match users (ses w) !! UID c with
     | Some old => heap (upd old conn_Unbind w) | None => heap w end)
    (closing w).

Lemma wf_user0 w : wf w → users (ses w) !! 0 = None.
Proof.
  intros Hw. destruct (users (ses w) !! 0) as [r|] eqn:E; [|done].
  apply wf_users in E as (_ & _ & ?); done.
Qed.

Lemma AddConn_eq r w : wf w → fresh_conn w r → AddConn (Some r) w = added r w.
Proof.
  intros Hw [Hf _]. unfold AddConn, added. bcase.
  - simpl. destruct (users (ses w) !! UID (heap w r)) as [old|] eqn:E; [|done].
    apply wf_users in E as (Hl & _); [|done].
    rewrite bool_decide_eq_true_2; [done|]. unfold live in Hl. congruence.
  - apply dec_stable in n. rewrite n, wf_user0 by done. by destruct w as [[] ? ?].
Qed.

Lemma added_ID r w r' : ID (heap (added r w) r') = ID (heap w r').
Proof. unfold added. cbn [heap]. destruct (users _ !! _); [by apply ID_upd|done]. Qed.

Lemma added_Attr r w r' : Attr (heap (added r w) r') = Attr (heap w r').
Proof.
  unfold added. cbn [heap ses conns]. destruct (users _ !! _) as [o|]; [|done].
  rewrite heap_upd. by destruct (decide _) as [->|].
Qed.

Lemma added_live r w r' :
  fresh_conn w r → live (added r w) r' ↔ live w r' ∨ r' = r.
Proof.
  intros [Hf _]. unfold live. rewrite added_ID. unfold added. cbn [heap ses conns].
  destruct (decide (ID (heap w r) = ID (heap w r'))) as [E|E].
  - rewrite E, lookup_insert_eq. rewrite <- E, Hf. naive_solver.
  - rewrite lookup_insert_ne by done. naive_solver.
Qed.

(** The user id a connection has after [added]. *)
Lemma added_UID r w r' :
  wf w → fresh_conn w r → live w r' ∨ r' = r →
  UID (heap (added r w) r') =
    if bool_decide (r' ≠ r ∧ UID (heap w r') = UID (heap w r)) then 0 else UID (heap w r').
Proof.
  intros Hw [Hf _] Hl. unfold added. cbn [heap ses conns].
  destruct (users (ses w) !! UID (heap w r)) as [o|] eqn:E.
  - apply wf_users in E as (Hlo & Ho & Hne); [|done].
    assert (o ≠ r) by (intros ->; unfold live in Hlo; congruence).
    rewrite heap_upd. destruct (decide (o = r')) as [<-|Hn].
    + by rewrite bool_decide_eq_true_2.
    + case_bool_decide as Hb; [|done]. destruct Hb as [Hb1 Hb2].
      destruct Hl as [Hl|]; [|done].
      destruct Hn. eapply user_inj; eauto; congruence.
  - case_bool_decide as Hb; [|done]. destruct Hb as [Hb1 Hb2]. destruct Hl as [Hl|]; [|done].
    destruct (decide (UID (heap w r') = 0)); [done|].
    assert (users (ses w) !! UID (heap w r) = Some r')
      by (apply wf_users; [done|]; rewrite <- Hb2; done).
    congruence.
Qed.

Lemma AddConn_wf r w : wf w → fresh_conn w r → wf (AddConn (Some r) w).
Proof.
  intros Hw Hf. rewrite AddConn_eq by done. split.
  - intros cid r'. rewrite added_ID. simpl. intros [[<- <-]|[? H]]%lookup_insert_Some; [done|].
    by apply wf_conns in H.
  - intros uid r'. rewrite added_live by done. split.
    + intros H. assert (Hu : users (ses w) !! uid = Some r' ∧ uid ≠ UID (heap w r) ∨
        r' = r ∧ uid = UID (heap w r) ∧ uid ≠ 0).
      { simpl in H. case_bool_decide as Hb.
        - apply lookup_insert_Some in H as [[<- <-]|[? ?]]; [by right|left].
          split; congruence.
        - left. split; [done|]. rewrite Hb. intros ->.
          by rewrite wf_user0 in H. }
      destruct Hu as [[Hu Hn]|(-> & -> & ?)].
      * apply wf_users in Hu as (Hl & <- & ?); [|done].
        rewrite added_UID by auto. rewrite bool_decide_eq_false_2 by (intros [_ ?]; congruence). auto.
      * rewrite added_UID by auto. rewrite bool_decide_eq_false_2 by (intros [? _]; congruence). auto.
    + intros (Hl & Hu & Hne). rewrite added_UID in Hu by done.
      case_bool_decide as Hb; [congruence|]. simpl.
      destruct (decide (r' = r)) as [->|Hr].
      * rewrite Hu, bool_decide_eq_true_2 by done. by rewrite lookup_insert_eq.
      * destruct Hl as [Hl|]; [|done].
        assert (users (ses w) !! uid = Some r') by (by apply wf_users).
        bcase; [|done]. rewrite lookup_insert_ne; [done|]. intros E. apply Hb. split; congruence.
  - intros ch r'. rewrite added_live, added_Attr by done.
    change (subscribed (ses (added r w)) ch r') with (subscribed (ses w) ch r').
    rewrite wf_channels by done. destruct Hf as [Hf Hc]. naive_solver.
Qed.

(** The connection removed is live, or its id is not in use. *)
Definition removable (w : World) (r : ref) : Prop :=
  live w r ∨ conns (ses w) !! ID (heap w r) = None.

(** [drop_user] removes exactly the entries of [uid] that lead to [cid]. *)
Lemma drop_user_spec uid cid w :
  let w' := drop_user uid cid w in
  heap w' = heap w ∧ closing w' = closing w ∧ conns (ses w') = conns (ses w) ∧
  channels (ses w') = channels (ses w) ∧
  ∀ u r, users (ses w') !! u = Some r ↔
    users (ses w) !! u = Some r ∧ ¬ (u = uid ∧ ID (heap w r) = cid).
Proof.
  unfold drop_user. destruct (users (ses w) !! uid) as [cur|] eqn:E;
    [case_bool_decide as Hid|]; split_and!; try done; intros u r; cbn.
  - rewrite lookup_delete_Some. split; [naive_solver|].
    intros [Hu Hn]. split; [|done]. intros ->. apply Hn. split; [done|congruence].
  - split; [|by intros []]. intros Hu. split; [done|]. intros [-> ?]. congruence.
  - split; [|by intros []]. intros Hu. split; [done|]. intros [-> ?]. congruence.
Qed.

Lemma RemConn_maps r w :
  wf w → removable w r →
  let w' := RemConn (Some r) w in
  heap w' = heap w ∧ conns (ses w') = delete (ID (heap w r)) (conns (ses w)) ∧
  (∀ uid r', users (ses w') !! uid = Some r' ↔ users (ses w) !! uid = Some r' ∧ r' ≠ r) ∧
  (∀ ch r', subscribed (ses w') ch r' ↔ subscribed (ses w) ch r' ∧ r' ≠ r).
Proof.
  intros Hw Hr. unfold RemConn. set (c := heap w r).
  set (w0 := set_ses (set_conns (delete (ID c) (conns (ses w))) (ses w)) w).
  destruct (drop_user_spec (UID c) (ID c) w0) as (Hh & _ & Hc & Hch & Hu).
  set (w1 := if bool_decide (UID c ≠ 0) then _ else w0).
  assert (H1 : heap w1 = heap w ∧ conns (ses w1) = delete (ID c) (conns (ses w)) ∧
    channels (ses w1) = channels (ses w)) by (unfold w1; by case_bool_decide).
  destruct H1 as (Hh1 & Hc1 & Hch1). cbn [ses set_ses heap].
  destruct (visits_maps r (elements (Attr c)) (ses w1)) as [-> ->].
  split_and!; [done|done| |].
  - intros uid r'.
    assert (Hown : users (ses w) !! uid = Some r' → r' = r ↔ uid = UID c ∧ ID (heap w r') = ID c).
    { intros E. apply wf_users in E as (Hl & <- & ?); [|done]. split; [by intros ->|].
      intros [_ Hid]. destruct Hr as [Hr|Hr]; [by eapply live_inj|].
      unfold live in Hl. fold c in Hr. congruence. }
    unfold w1. case_bool_decide as Hz.
    + rewrite Hu. change (users (ses w0)) with (users (ses w)).
      change (heap w0) with (heap w). split; intros [E Hn]; (split; [done|]);
        rewrite (Hown E) in *; done.
    + change (users (ses w0)) with (users (ses w)). split; [|by intros []].
      intros E. split; [done|]. intros ->. apply wf_users in E as (_ & E & ?); [|done].
      unfold c in Hz. congruence.
  - intros ch r'. rewrite subscribed_visits, elem_of_elements.
    assert (subscribed (ses w1) ch r' ↔ subscribed (ses w) ch r') as ->
      by (unfold subscribed; by rewrite Hch1).
    split; intros [Hs Hn]; (split; [done|]); [|naive_solver].
    intros ->. apply Hn. apply wf_channels in Hs as (? & ? & ?); done.
Qed.

Lemma RemConn_wf r w : wf w → removable w r → wf (RemConn (Some r) w).
Proof.
  intros Hw Hr. destruct (RemConn_maps r w Hw Hr) as (Hh & Hc & Hu & Hs).
  assert (Hl : ∀ r', live (RemConn (Some r) w) r' ↔ live w r' ∧ r' ≠ r).
  { intros r'. unfold live. rewrite Hh.
    rewrite Hc, lookup_delete_Some. unfold removable, live in Hr.
    split; intros [H1 H2]; (split; [|congruence]).
    - done.
    - intros E. destruct Hr as [Hr|Hr]; congruence. }
  split.
  - intros cid r'. rewrite Hh. rewrite Hc.
    intros [_ H]%lookup_delete_Some. by apply wf_conns in H.
  - intros uid r'. rewrite Hu, Hl, wf_users by done.
    rewrite Hh. naive_solver.
  - intros ch r'. rewrite Hs, Hl, wf_channels by done.
    rewrite Hh. naive_solver.
Qed.

(** *** Binding *)

Lemma connLocked_Ok cid s r :
  connLocked KConn cid s = Ok r ↔ conns s !! cid = Some r.
Proof. unfold connLocked. simpl. destruct (_ !! _); naive_solver. Qed.

Lemma connLocked_None cid s :
  conns s !! cid = None → connLocked KConn cid s = Err ErrNotFoundSession.
Proof. unfold connLocked. simpl. by intros ->. Qed.

(** The connection that holds [uid] and is not [r]. *)
Definition holder (w : World) (r : ref) (uid : Z) : option ref :=
  match users (ses w) !! uid with
  | Some old => if decide (old = r) then None else Some old
  | None => None
  end.

(** What [Bind] leaves on a connection object. *)
Definition bind_conn (w : World) (r : ref) (uid : Z) (r' : ref) : Conn :=
  let c := heap w r' in
  if decide (r' = r) then conn_Bind uid c
  else if decide (holder w r uid = Some r') then conn_Unbind c else c.

(** The outcome of a [Bind] that changes something: [r] holds [uid], its old
    user id and the previous holder are gone, the previous holder is being
    closed. *)
Lemma Bind_spec cid uid r w :
  wf w → conns (ses w) !! cid = Some r → UID (heap w r) ≠ uid →
  let w' := (Bind cid uid w).1 in
  (Bind cid uid w).2 = None ∧
  conns (ses w') = conns (ses w) ∧ channels (ses w') = channels (ses w) ∧
  (∀ r', heap w' r' = bind_conn w r uid r') ∧
  closing w' = closing w ++ option_list (holder w r uid) ∧
  (∀ u r', users (ses w') !! u = Some r' ↔
     if decide (u = uid) then uid ≠ 0 ∧ r' = r
     else users (ses w) !! u = Some r' ∧ r' ≠ r).
Proof.
  intros Hw Hr Hne. pose proof (wf_live _ _ _ Hw Hr) as Hl.
  pose proof (wf_conns _ Hw _ _ Hr) as Hid.
  unfold Bind. apply connLocked_Ok in Hr as Hok. rewrite Hok.
  rewrite bool_decide_eq_false_2 by done.
  set (w1 := if bool_decide (UID (heap w r) ≠ 0) then _ else w).
  assert (H1 : heap w1 = heap w ∧ closing w1 = closing w ∧ conns (ses w1) = conns (ses w) ∧
    channels (ses w1) = channels (ses w) ∧
    ∀ u r', users (ses w1) !! u = Some r' ↔ users (ses w) !! u = Some r' ∧ r' ≠ r).
  { assert (Hown : ∀ u, users (ses w) !! u = Some r → u = UID (heap w r) ∧ u ≠ 0)
      by (intros u E; apply wf_users in E as (_ & <- & ?); done).
    unfold w1. case_bool_decide as Hz.
    - destruct (drop_user_spec (UID (heap w r)) cid w) as (? & ? & ? & ? & Hu).
      split_and!; [done..|]. intros u r'. rewrite Hu.
      split; intros [E Hn]; (split; [done|]); [naive_solver|].
      intros [-> Hi]. apply Hn. apply wf_users in E as (Hl' & ? & ?); [|done].
      eapply live_inj; eauto; congruence.
    - split_and!; [done..|]. intros u r'. split; [|by intros []]. intros E.
      split; [done|]. intros ->. destruct (Hown u E); congruence. }
  destruct H1 as (Hh & Hcl & Hc & Hch & Hu). clearbody w1.
  assert (Hhold : users (ses w1) !! uid = holder w r uid).
  { unfold holder. apply option_eq. intros x. rewrite Hu.
    destruct (users (ses w) !! uid); [|naive_solver]. case_decide; naive_solver. }
  unfold bind_conn. case_bool_decide as Hz.
  - subst uid. assert (holder w r 0 = None) as -> by (unfold holder; by rewrite wf_user0).
    rewrite app_nil_r. split_and!; try done.
    + intros r'. cbn [fst]. rewrite heap_upd, Hh. repeat case_decide; try congruence; by subst.
    + intros u r'. cbn [ses upd set_ses fst]. rewrite Hu. case_decide; [|done]. subst u.
      rewrite wf_user0 by done. naive_solver.
  - rewrite Hhold. destruct (holder w r uid) as [old|] eqn:Eh.
    + assert (Ho : users (ses w) !! uid = Some old ∧ old ≠ r) by
        (unfold holder in Eh; destruct (users (ses w) !! uid); [case_decide|]; naive_solver).
      destruct Ho as [Ho Hor]. apply wf_users in Ho as (Hlo & ? & _); [|done].
      rewrite bool_decide_eq_false_2 by
        (rewrite Hh; intros E; apply Hor; eapply live_inj; eauto; congruence).
      cbn [fst snd ses heap closing option_list]. split_and!; try done.
      * intros r'. cbn [heap set_ses]. rewrite !heap_upd, Hh. repeat case_decide; naive_solver.
      * cbn. by rewrite Hcl.
      * intros u r'. cbn. rewrite lookup_insert_Some, Hu. case_decide; naive_solver.
    + cbn [fst snd option_list]. rewrite app_nil_r. split_and!; try done.
      * intros r'. cbn [heap set_ses]. rewrite heap_upd, Hh. repeat case_decide; naive_solver.
      * intros u r'. cbn. rewrite lookup_insert_Some, Hu. case_decide; naive_solver.
Qed.

Lemma bind_conn_ID w r uid r' : ID (bind_conn w r uid r') = ID (heap w r').
Proof. unfold bind_conn. by repeat case_decide. Qed.

Lemma bind_conn_Attr w r uid r' : Attr (bind_conn w r uid r') = Attr (heap w r').
Proof. unfold bind_conn. by repeat case_decide. Qed.

(** Liveness depends on the connection map and the ids only. *)
Lemma live_same w w' r :
  conns (ses w') = conns (ses w) → ID (heap w' r) = ID (heap w r) → live w' r ↔ live w r.
Proof. unfold live. by intros -> ->. Qed.

Lemma holder_Some w r uid o :
  holder w r uid = Some o ↔ users (ses w) !! uid = Some o ∧ o ≠ r.
Proof.
  unfold holder. destruct (users (ses w) !! uid); [case_decide|]; naive_solver.
Qed.

Lemma Bind_wf cid uid w : wf w → wf (Bind cid uid w).1.
Proof.
  intros Hw. destruct (conns (ses w) !! cid) as [r|] eqn:Hr;
    [|unfold Bind; by rewrite connLocked_None].
  destruct (decide (UID (heap w r) = uid)) as [E|Hne].
  { unfold Bind. apply connLocked_Ok in Hr as ->. by rewrite bool_decide_eq_true_2. }
  destruct (Bind_spec cid uid r w Hw Hr Hne) as (_ & Hc & Hch & Hh & _ & Hu).
  set (w' := (Bind cid uid w).1) in *. clearbody w'.
  assert (Hl : ∀ r', live w' r' ↔ live w r')
    by (intros r'; apply live_same; [done|]; by rewrite Hh, bind_conn_ID).
  pose proof (wf_live _ _ _ Hw Hr) as Hlr.
  split.
  - intros cid' r'. rewrite Hc, Hh, bind_conn_ID. by apply wf_conns.
  - intros u r'. rewrite Hu, Hl, Hh. unfold bind_conn.
    destruct (decide (r' = r)) as [->|Hr'].
    + cbn [UID conn_Bind]. case_decide; naive_solver.
    + destruct (decide (holder w r uid = Some r')) as [Hh0|Hh0]; cbn [UID conn_Unbind].
      * apply holder_Some in Hh0 as [Ho _]. pose proof Ho as Ho'.
        apply wf_users in Ho' as (_ & ? & _); [|done].
        case_decide as Hu0; [naive_solver|]. split; [|naive_solver].
        intros [E _]. apply wf_users in E as (_ & ? & _); [|done]. congruence.
      * case_decide as Hu0; [|rewrite wf_users by done; naive_solver]. subst u.
        split; [naive_solver|]. intros (Hl' & Hu' & Hz). exfalso. apply Hh0.
        apply holder_Some. split; [|done]. by apply wf_users.
  - intros ch r'. rewrite Hl, Hh, bind_conn_Attr. unfold subscribed. rewrite Hch.
    by apply wf_channels.
Qed.

Lemma Unbind_spec cid uid r w :
  wf w → conns (ses w) !! cid = Some r → UID (heap w r) = uid → uid ≠ 0 → cid ≠ 0 →
  let w' := (Unbind cid uid w).1 in
  (Unbind cid uid w).2 = Ok cid ∧
  conns (ses w') = conns (ses w) ∧ channels (ses w') = channels (ses w) ∧
  heap w' = heap (upd r conn_Unbind w) ∧
  ∀ u r', users (ses w') !! u = Some r' ↔ users (ses w) !! u = Some r' ∧ r' ≠ r.
Proof.
  intros Hw Hr Hu Hu0 Hc0. unfold Unbind.
  rewrite bool_decide_eq_false_2 by naive_solver.
  apply connLocked_Ok in Hr as Hok. rewrite Hok.
  rewrite bool_decide_eq_false_2 by auto.
  destruct (drop_user_spec uid cid (upd r conn_Unbind w)) as (? & _ & ? & ? & Hus).
  split_and!; try done. intros u r'. cbn [fst]. rewrite Hus, ID_upd by done.
  change (users (ses (upd r conn_Unbind w))) with (users (ses w)).
  pose proof (wf_conns _ Hw _ _ Hr) as Hid.
  pose proof (wf_live _ _ _ Hw Hr) as Hl.
  split; intros [E Hn]; (split; [done|]).
  - intros ->. apply Hn. apply wf_users in E as (_ & ? & _); [|done]. split; congruence.
  - intros [-> Hi]. apply Hn. apply wf_users in E as (Hl' & _ & _); [|done].
    eapply live_inj; eauto; congruence.
Qed.

Lemma Unbind_wf cid uid w : wf w → wf (Unbind cid uid w).1.
Proof.
  intros Hw. destruct (decide (uid = 0 ∨ cid = 0)) as [E|E].
  { unfold Unbind. by rewrite bool_decide_eq_true_2. }
  destruct (conns (ses w) !! cid) as [r|] eqn:Hr;
    [|unfold Unbind; rewrite bool_decide_eq_false_2, connLocked_None by done; done].
  destruct (decide (UID (heap w r) = uid)) as [Hu|Hne].
  2:{ unfold Unbind. rewrite bool_decide_eq_false_2 by done.
      apply connLocked_Ok in Hr as ->. by rewrite bool_decide_eq_true_2. }
  destruct (Unbind_spec cid uid r w) as (_ & Hc & Hch & Hh & Hus); [naive_solver..|].
  set (w' := (Unbind cid uid w).1) in *. clearbody w'.
  assert (Hl : ∀ r', live w' r' ↔ live w r')
    by (intros r'; apply live_same; [done|]; by rewrite Hh, ID_upd).
  split.
  - intros cid' r'. rewrite Hc, Hh, ID_upd by done. by apply wf_conns.
  - intros u r'. rewrite Hus, Hl, Hh, heap_upd, wf_users by done.
    case_decide; [subst; cbn; naive_solver|naive_solver].
  - intros ch r'. rewrite Hl, Hh, heap_upd. unfold subscribed. rewrite Hch.
    fold (subscribed (ses w) ch r'). rewrite wf_channels by done.
    case_decide; by subst.
Qed.

(** *** Subscriptions *)

(** An update of attributes and channels only. *)
Definition same_but_channels (w w' : World) : Prop :=
  conns (ses w') = conns (ses w) ∧ users (ses w') = users (ses w) ∧
  closing w' = closing w ∧
  ∀ r, ID (heap w' r) = ID (heap w r) ∧ UID (heap w' r) = UID (heap w r).

Lemma same_but_channels_live w w' r : same_but_channels w w' → live w' r ↔ live w r.
Proof. intros (Hc & _ & _ & Hh). apply live_same; [done|]. apply Hh. Qed.

Lemma same_but_channels_trans w1 w2 w3 :
  same_but_channels w1 w2 → same_but_channels w2 w3 → same_but_channels w1 w3.
Proof.
  intros (? & ? & ? & Ha) (? & ? & ? & Hb). split_and!; try congruence.
  intros r. destruct (Ha r), (Hb r). split; congruence.
Qed.

(** The channel and attribute views that a (un)subscription changes together:
    [P ch r] says that [r] is now in the channel [ch]. *)
Lemma channels_wf w w' (P : list Z → ref → Prop) :
  wf w → same_but_channels w w' →
  (∀ ch r, subscribed (ses w') ch r ↔ P ch r) →
  (∀ ch r, live w r → ch ≠ [] → channelAttrKey ch ∈ Attr (heap w' r) ↔ P ch r) →
  (∀ ch r, P ch r → live w r ∧ ch ≠ []) → wf w'.
Proof.
  intros Hw Hs Hc Ha HP. pose proof (λ r, same_but_channels_live _ _ r Hs) as Hl.
  pose proof Hs as (Hcs & Hus & _ & Hh). split.
  - intros cid r. rewrite Hcs. destruct (Hh r) as [-> _]. by apply wf_conns.
  - intros uid r. rewrite Hus, Hl. destruct (Hh r) as [_ ->]. by apply wf_users.
  - intros ch r. rewrite Hc, Hl. split.
    + intros Hp. destruct (HP ch r Hp). split_and!; [done| |done]. by apply Ha.
    + intros (? & ? & ?). by apply Ha.
Qed.

Definition hits (m : gmap Z ref) (targets : list Z) (r : ref) : Prop :=
  ∃ t, t ∈ targets ∧ m !! t = Some r.

Lemma hits_cons m t ts r : hits m (t :: ts) r ↔ m !! t = Some r ∨ hits m ts r.
Proof. unfold hits. set_solver. Qed.

Lemma Subscribe_one_spec ch m w t :
  let w' := Subscribe_one ch m w t in
  same_but_channels w w' ∧
  (∀ ch' r, subscribed (ses w') ch' r ↔
     subscribed (ses w) ch' r ∨ ch' = ch ∧ m !! t = Some r) ∧
  (∀ k r, k ∈ Attr (heap w' r) ↔
     k ∈ Attr (heap w r) ∨ k = channelAttrKey ch ∧ m !! t = Some r).
Proof.
  unfold Subscribe_one. destruct (m !! t) as [r0|] eqn:E; cbn zeta;
    [|split_and!; [done|naive_solver..]].
  split_and!.
  - split_and!; try done. intros r. cbn [heap set_ses]. rewrite heap_upd.
    by case_decide; subst.
  - intros ch' r. unfold subscribed. cbn.
    destruct (decide (ch' = ch)) as [->|Hne].
    + rewrite lookup_insert_eq. split.
      * intros (? & [= <-] & [->%elem_of_singleton|Hr]%elem_of_union); [by right|left].
        destruct (channels (ses w) !! ch) as [cs|]; [by exists cs|set_solver].
      * intros [(cs & -> & ?)|[_ [= ->]]]; (eexists; split; [done|]); set_solver.
    + rewrite lookup_insert_ne by done. naive_solver.
  - intros k r. cbn [heap set_ses]. rewrite heap_upd. case_decide; subst.
    + cbn. set_solver.
    + naive_solver.
Qed.

Lemma Subscribe_all_spec ch m ts w :
  let w' := foldl (Subscribe_one ch m) w ts in
  same_but_channels w w' ∧
  (∀ ch' r, subscribed (ses w') ch' r ↔ subscribed (ses w) ch' r ∨ ch' = ch ∧ hits m ts r) ∧
  (∀ k r, k ∈ Attr (heap w' r) ↔
     k ∈ Attr (heap w r) ∨ k = channelAttrKey ch ∧ hits m ts r).
Proof.
  revert w. induction ts as [|t ts IH]; intros w; cbn [foldl].
  - unfold hits. split_and!; [done|set_solver..].
  - destruct (IH (Subscribe_one ch m w t)) as (S2 & C2 & A2).
    destruct (Subscribe_one_spec ch m w t) as (S1 & C1 & A1).
    split_and!; [by eapply same_but_channels_trans|..].
    + intros ch' r. rewrite C2, C1, hits_cons. naive_solver.
    + intros k r. rewrite A2, A1, hits_cons. naive_solver.
Qed.

Lemma Unsubscribe_one_spec ch m w t :
  let w' := Unsubscribe_one ch m w t in
  same_but_channels w w' ∧
  (∀ ch' r, subscribed (ses w') ch' r ↔ subscribed (ses w) ch' r ∧
     ¬ (ch' = ch ∧ m !! t = Some r ∧ channelAttrKey ch ∈ Attr (heap w r))) ∧
  (∀ k r, k ∈ Attr (heap w' r) ↔
     k ∈ Attr (heap w r) ∧ ¬ (k = channelAttrKey ch ∧ m !! t = Some r)).
Proof.
  unfold Unsubscribe_one. destruct (m !! t) as [r0|] eqn:E; cbn zeta;
    [|split_and!; [done|naive_solver..]].
  case_bool_decide as Hk.
  - destruct (doUnsubscribe_maps ch r0 (ses (upd r0 (attr_Del (channelAttrKey ch)) w)))
      as [Hc Hu]. split_and!.
    + split_and!; try done. intros r. cbn [heap set_ses]. rewrite heap_upd.
      by case_decide; subst.
    + intros ch' r. cbn [ses set_ses]. rewrite subscribed_doUnsubscribe.
      change (ses (upd _ _ w)) with (ses w). naive_solver.
    + intros k r. cbn [heap set_ses]. rewrite heap_upd. case_decide; subst.
      * cbn. set_solver.
      * naive_solver.
  - split_and!; [done|naive_solver..].
Qed.

Lemma Unsubscribe_all_spec ch m ts w :
  let w' := foldl (Unsubscribe_one ch m) w ts in
  same_but_channels w w' ∧
  (∀ ch' r, subscribed (ses w') ch' r ↔ subscribed (ses w) ch' r ∧
     ¬ (ch' = ch ∧ hits m ts r ∧ channelAttrKey ch ∈ Attr (heap w r))) ∧
  (∀ k r, k ∈ Attr (heap w' r) ↔
     k ∈ Attr (heap w r) ∧ ¬ (k = channelAttrKey ch ∧ hits m ts r)).
Proof.
  revert w. induction ts as [|t ts IH]; intros w; cbn [foldl].
  - unfold hits. split_and!; [done|set_solver..].
  - destruct (IH (Unsubscribe_one ch m w t)) as (S2 & C2 & A2).
    destruct (Unsubscribe_one_spec ch m w t) as (S1 & C1 & A1).
    split_and!; [by eapply same_but_channels_trans|..].
    + intros ch' r. rewrite C2, C1, A1, hits_cons.
      destruct (decide (m !! t = Some r)); naive_solver.
    + intros k r. rewrite A2, A1, hits_cons. naive_solver.
Qed.

(** [Subscribe] and [Unsubscribe] as a whole, when they get past their
    guards: [m] is the map of the session kind. *)
Lemma Subscribe_spec kind ts ch w m :
  ts ≠ [] → ch ≠ [] → sessionsLocked kind (ses w) = Ok m →
  let w' := (Subscribe kind ts ch w).1 in
  (Subscribe kind ts ch w).2 = None ∧ same_but_channels w w' ∧
  (∀ ch' r, subscribed (ses w') ch' r ↔ subscribed (ses w) ch' r ∨ ch' = ch ∧ hits m ts r) ∧
  (∀ k r, k ∈ Attr (heap w' r) ↔
     k ∈ Attr (heap w r) ∨ k = channelAttrKey ch ∧ hits m ts r).
Proof.
  intros Hts Hch Hm. unfold Subscribe. rewrite bool_decide_eq_false_2 by naive_solver.
  rewrite Hm. cbn zeta. set (w0 := set_ses (set_channels _ (ses w)) w). cbn [fst snd].
  destruct (Subscribe_all_spec ch m ts w0) as (HS & HC & HA).
  split_and!; [done|done| |done].
  intros ch' r. rewrite HC.
  assert (subscribed (ses w0) ch' r ↔ subscribed (ses w) ch' r) as ->; [|done].
  unfold subscribed, w0. cbn. destruct (decide (ch' = ch)) as [->|Hne].
  - rewrite lookup_insert_eq. destruct (channels (ses w) !! ch); [done|]. split.
    + intros (? & [= <-] & ?). set_solver.
    + by intros (? & ? & _).
  - by rewrite lookup_insert_ne.
Qed.

Lemma Unsubscribe_spec kind ts ch w m :
  ts ≠ [] → ch ≠ [] → sessionsLocked kind (ses w) = Ok m →
  let w' := (Unsubscribe kind ts ch w).1 in
  (Unsubscribe kind ts ch w).2 = None ∧ same_but_channels w w' ∧
  (∀ ch' r, subscribed (ses w') ch' r ↔ subscribed (ses w) ch' r ∧
     ¬ (ch' = ch ∧ hits m ts r ∧ channelAttrKey ch ∈ Attr (heap w r))) ∧
  (∀ k r, k ∈ Attr (heap w' r) ↔
     k ∈ Attr (heap w r) ∧ ¬ (k = channelAttrKey ch ∧ hits m ts r)).
Proof.
  intros Hts Hch Hm. unfold Unsubscribe. rewrite bool_decide_eq_false_2 by naive_solver.
  rewrite Hm. cbn zeta. split; [done|]. apply Unsubscribe_all_spec.
Qed.

(** The connections of a session kind are live. *)
Lemma sessionsLocked_live kind w m t r :
  wf w → sessionsLocked kind (ses w) = Ok m → m !! t = Some r → live w r.
Proof.
  destruct kind; simpl; intros Hw [= <-] Ht.
  - by eapply wf_live.
  - apply wf_users in Ht as (? & _); done.
Qed.

Lemma hits_live kind w m ts r :
  wf w → sessionsLocked kind (ses w) = Ok m → hits m ts r → live w r.
Proof. intros Hw Hm (t & _ & Ht). by eapply sessionsLocked_live. Qed.

Lemma Subscribe_wf kind ts ch w : wf w → wf (Subscribe kind ts ch w).1.
Proof.
  intros Hw. destruct (decide (ts = [] ∨ ch = [])) as [E|E].
  { unfold Subscribe. by rewrite bool_decide_eq_true_2. }
  destruct (sessionsLocked kind (ses w)) as [m|e|] eqn:Hm;
    [|unfold Subscribe; rewrite bool_decide_eq_false_2, Hm; done..].
  destruct (Subscribe_spec kind ts ch w m) as (_ & HS & HC & HA); [naive_solver..|].
  apply (channels_wf w _ _ Hw HS HC).
  - intros ch' r Hl Hne. rewrite HA, wf_channels by done. split.
    + intros [?|[?%channelAttrKey_inj ?]]; naive_solver.
    + intros [(? & ? & ?)|[-> ?]]; naive_solver.
  - intros ch' r [Hs|[-> Hh]]; [apply wf_channels in Hs; naive_solver|].
    split; [by eapply hits_live|naive_solver].
Qed.

Lemma Unsubscribe_wf kind ts ch w : wf w → wf (Unsubscribe kind ts ch w).1.
Proof.
  intros Hw. destruct (decide (ts = [] ∨ ch = [])) as [E|E].
  { unfold Unsubscribe. by rewrite bool_decide_eq_true_2. }
  destruct (sessionsLocked kind (ses w)) as [m|e|] eqn:Hm;
    [|unfold Unsubscribe; rewrite bool_decide_eq_false_2, Hm; done..].
  destruct (Unsubscribe_spec kind ts ch w m) as (_ & HS & HC & HA); [naive_solver..|].
  apply (channels_wf w _ _ Hw HS HC).
  - intros ch' r Hl Hne. rewrite HA, wf_channels by done. split.
    + intros [? Hn]. split; [done|]. intros (-> & ? & ?). by apply Hn.
    + intros [(_ & Ha & _) Hn]. split; [done|].
      intros [->%channelAttrKey_inj ?]. by apply Hn.
  - intros ch' r [Hs _]. apply wf_channels in Hs; naive_solver.
Qed.

(** *** Pushing *)

Section push_specs.
Context (pushed : Conn → list Z → option error).

Definition accepts (w : World) (m : list Z) (r : ref) : bool :=
  bool_decide (pushed (heap w r) m = None).

Lemma accepts_spec w m r : accepts w m r ↔ pushed (heap w r) m = None.
Proof. apply bool_decide_spec. Qed.

(** A push over distinct connections: each that accepts has the message once,
    the count is their number, nothing else changes. *)
Lemma push_each_spec rs m w :
  NoDup rs →
  ses (push_each pushed rs m w).1 = ses w ∧
  closing (push_each pushed rs m w).1 = closing w ∧
  (push_each pushed rs m w).2 = len (filter (λ r, accepts w m r) rs) ∧
  ∀ r, heap (push_each pushed rs m w).1 r =
    if decide (r ∈ rs ∧ accepts w m r) then conn_accept m (heap w r) else heap w r.
Proof.
  intros Hd. revert w. induction Hd as [|r0 rs Hr0 Hd IH]; intros w.
  { cbn. split_and!; [done..|]. intros r. rewrite decide_False; set_solver. }
  cbn [push_each]. unfold conn_Push. destruct (pushed (heap w r0) m) as [e|] eqn:Ep.
  - destruct (IH w) as (Hs & Hc & Hn & Hh). destruct (push_each _ rs m w) as [w' n].
    cbn [fst snd] in *. split_and!; [done|done| |].
    + rewrite bool_decide_eq_false_2 by done. rewrite filter_cons_False; [done|].
      by rewrite accepts_spec, Ep.
    + intros r. rewrite Hh. destruct (decide (r = r0)) as [->|Hne].
      * rewrite !decide_False; [done| |naive_solver]. intros [_ Ha].
        by rewrite accepts_spec, Ep in Ha.
      * apply decide_ext. rewrite elem_of_cons. naive_solver.
  - destruct (IH (upd r0 (conn_accept m) w)) as (Hs & Hc & Hn & Hh).
    destruct (push_each _ rs m _) as [w' n]. cbn [fst snd] in *.
    assert (Hacc : ∀ r, r ∈ rs → accepts (upd r0 (conn_accept m) w) m r = accepts w m r).
    { intros r Hr. unfold accepts. rewrite heap_upd_ne; [done|]. by intros ->. }
    split_and!; [done|done| |].
    + rewrite bool_decide_eq_true_2 by done. rewrite filter_cons_True.
      2:{ by rewrite accepts_spec. }
      rewrite Hn. cbn [length]. rewrite (filter_ext_in _ (λ r, accepts w m r)); [lia|].
      intros r Hr. by rewrite Hacc.
    + intros r. rewrite Hh. destruct (decide (r = r0)) as [->|Hne].
      * rewrite decide_False by naive_solver. rewrite heap_upd_eq, decide_True; [done|].
        split; [by left|]. by rewrite accepts_spec.
      * rewrite heap_upd_ne by done. apply decide_ext. rewrite elem_of_cons.
        split; [intros [? Ha]; rewrite Hacc in Ha by done; auto|].
        intros [[?|?] Ha]; [done|]. by rewrite Hacc.
Qed.

End push_specs.

(** ** Reachable sessions *)

(** Operations that only send and close leave ids, users and attributes. *)
Lemma wf_view w w' :
  wf w → ses w' = ses w →
  (∀ r, ID (heap w' r) = ID (heap w r) ∧ UID (heap w' r) = UID (heap w r) ∧
        Attr (heap w' r) = Attr (heap w r)) → wf w'.
Proof.
  intros Hw Hs Hh. assert (Hl : ∀ r, live w' r ↔ live w r).
  { intros r. unfold live. destruct (Hh r) as (-> & _). by rewrite Hs. }
  split.
  - intros cid r. destruct (Hh r) as (-> & _). rewrite Hs. by apply wf_conns.
  - intros u r. destruct (Hh r) as (_ & -> & _). rewrite Hs, Hl. by apply wf_users.
  - intros ch r. destruct (Hh r) as (_ & _ & ->). rewrite Hs, Hl. by apply wf_channels.
Qed.

(** A new object at an unused reference. *)
Lemma wf_new_object w r c :
  wf w → ¬ live w r → conns (ses w) !! ID c = None → wf (upd r (λ _, c) w).
Proof.
  intros Hw Hr Hc. assert (Hl : ∀ r', live (upd r (λ _, c) w) r' ↔ live w r').
  { intros r'. unfold live. rewrite heap_upd. cbn [ses upd]. case_decide; [subst|done].
    unfold live in Hr. rewrite Hc. naive_solver. }
  assert (Hn : ∀ r', live w r' → r ≠ r') by naive_solver.
  split.
  - intros cid r' H'. rewrite heap_upd_ne by (by apply Hn, (wf_live w cid)).
    by apply wf_conns.
  - intros u r'. rewrite Hl. cbn [ses upd]. rewrite wf_users by done.
    split; intros (? & Hu & ?); (split_and!; [done| |done]);
      by rewrite heap_upd_ne in * by auto.
  - intros ch r'. rewrite Hl. cbn [ses upd]. rewrite wf_channels by done.
    split; intros (? & Hu & ?); (split_and!; [done| |done]);
      by rewrite heap_upd_ne in * by auto.
Qed.

(** What a sequence of pushes leaves of a connection. *)
Definition same_view (w w' : World) : Prop :=
  ses w' = ses w ∧
  ∀ r, ID (heap w' r) = ID (heap w r) ∧ UID (heap w' r) = UID (heap w r) ∧
       Attr (heap w' r) = Attr (heap w r).

Lemma same_view_upd r f w :
  (∀ c, ID (f c) = ID c ∧ UID (f c) = UID c ∧ Attr (f c) = Attr c) → same_view w (upd r f w).
Proof. intros Hf. split; [done|]. intros r'. rewrite heap_upd. case_decide; by subst. Qed.

Lemma same_view_trans w1 w2 w3 : same_view w1 w2 → same_view w2 w3 → same_view w1 w3.
Proof.
  intros [? Ha] [? Hb]. split; [congruence|]. intros r.
  destruct (Ha r) as (? & ? & ?), (Hb r) as (? & ? & ?). split_and!; congruence.
Qed.

Section steps.
Context (pushed : Conn → list Z → option error) (closed : Conn → option error).

Lemma conn_Push_view r m w : same_view w (conn_Push pushed r m w).1.
Proof. unfold conn_Push. destruct (pushed _ _); [done|]. by apply same_view_upd. Qed.

Lemma push_each_view rs m w : same_view w (push_each pushed rs m w).1.
Proof.
  revert w. induction rs as [|r rs IH]; intros w; [done|]. cbn [push_each].
  pose proof (conn_Push_view r m w) as Hv. destruct (conn_Push pushed r m w) as [w1 e].
  specialize (IH w1). destruct (push_each pushed rs m w1) as [w2 n].
  by eapply same_view_trans.
Qed.

(** The network layer adds fresh connections and removes live ones; the rest
    are the operations, in any order. *)
Inductive step : World → World → Prop :=
  | step_connect w r c :
      ¬ live w r → conns (ses w) !! ID c = None → UID c = 0 → Attr c = ∅ →
      step w (AddConn (Some r) (upd r (λ _, c) w))
  | step_disconnect w r : live w r → step w (RemConn (Some r) w)
  | step_bind w cid uid : step w (Bind cid uid w).1
  | step_unbind w cid uid : step w (Unbind cid uid w).1
  | step_subscribe w kind ts ch : step w (Subscribe kind ts ch w).1
  | step_unsubscribe w kind ts ch : step w (Unsubscribe kind ts ch w).1
  | step_push w kind t m : step w (Push pushed kind t m w).1
  | step_multicast w kind ts m : step w (Multicast pushed kind ts m w).1
  | step_broadcast w kind m : step w (Broadcast pushed kind m w).1
  | step_publish w ch m : step w (Publish pushed ch m w).1
  | step_close w cid uid force : step w (Close closed cid uid force w).1.

Definition initial (h : ref → Conn) : World := mkWorld NewSession h [].

Lemma initial_wf h : wf (initial h).
Proof.
  unfold initial, NewSession.
  split; unfold live, subscribed; cbn [ses conns users channels];
    [by intros ? ? ?%lookup_empty_Some|..];
    intros; rewrite !lookup_empty; naive_solver.
Qed.

Lemma step_view w w' : wf w → same_view w w' → wf w'.
Proof. intros Hw [? ?]. by eapply wf_view. Qed.

Lemma step_wf w w' : wf w → step w w' → wf w'.
Proof.
  intros Hw. destruct 1.
  - apply AddConn_wf; [by apply wf_new_object|].
    split; rewrite heap_upd_eq; [done|]. intros ch. set_solver.
  - apply RemConn_wf; [done|by left].
  - by apply Bind_wf.
  - by apply Unbind_wf.
  - by apply Subscribe_wf.
  - by apply Unsubscribe_wf.
  - apply (step_view w); [done|]. unfold Push.
    destruct (getConn _ _ _); [apply conn_Push_view|done..].
  - apply (step_view w); [done|]. unfold Multicast. case_bool_decide; [done|].
    destruct (snapshotTargets _ _ _) as [rs| |]; [|done..].
    pose proof (push_each_view rs m w). by destruct (push_each pushed rs m w).
  - apply (step_view w); [done|]. unfold Broadcast.
    destruct (snapshotAll _ _) as [rs| |]; [|done..].
    pose proof (push_each_view rs m w). by destruct (push_each pushed rs m w).
  - apply (step_view w); [done|]. unfold Publish. case_bool_decide; [done|].
    apply push_each_view.
  - apply (step_view w); [done|]. unfold Close.
    destruct (conns (ses w) !! cid); [|destruct (users (ses w) !! uid); [|done]];
      (case_bool_decide; [done|by apply same_view_upd]).
Qed.

Lemma reachable_wf h w : rtc step (initial h) w → wf w.
Proof.
  intros Hr. assert (∀ w0, wf w0 → rtc step w0 w → wf w) as Hind.
  { intros w0 Hw0 Hs. induction Hs; eauto using step_wf. }
  eauto using initial_wf.
Qed.

End steps.

(** ** Properties *)

(** C3. In every session that connections, disconnections and operations can
    reach, in any order, the three maps and the connection objects agree: the
    connection map is keyed by the connections' ids; the user map is exactly
    the live connections bound to a user, so no two live connections hold the
    same user; a channel holds exactly the live connections that carry its
    attribute. *)
Theorem session_invariant pushed closed h w :
  rtc (step pushed closed) (initial h) w →
  (∀ cid r, conns (ses w) !! cid = Some r → ID (heap w r) = cid) ∧
  (∀ uid r, users (ses w) !! uid = Some r ↔ live w r ∧ UID (heap w r) = uid ∧ uid ≠ 0) ∧
  (∀ r r', live w r → live w r' → UID (heap w r) = UID (heap w r') →
     UID (heap w r) ≠ 0 → r = r') ∧
  (∀ ch r, subscribed (ses w) ch r ↔
     live w r ∧ channelAttrKey ch ∈ Attr (heap w r) ∧ ch ≠ []).
Proof.
  intros Hr. pose proof (reachable_wf _ _ _ _ Hr) as Hw.
  split_and!; [apply Hw..| |apply Hw]. intros. by eapply user_inj.
Qed.

(** [Bind] moves a user to a connection: after binding [uid] to the
    connection [cid], [uid] leads to it and it carries [uid]; the connection
    that held [uid] before is unbound and closed gracefully; the connection's
    previous user id is free; every other user and every other connection is
    left alone. *)
Theorem bind_takes_over w cid uid r :
  wf w → conns (ses w) !! cid = Some r → UID (heap w r) ≠ uid → uid ≠ 0 →
  let w' := (Bind cid uid w).1 in
  (Bind cid uid w).2 = None ∧
  users (ses w') !! uid = Some r ∧ UID (heap w' r) = uid ∧
  users (ses w') !! UID (heap w r) = None ∧
  (∀ old, users (ses w) !! uid = Some old →
     UID (heap w' old) = 0 ∧ closing w' = closing w ++ [old]) ∧
  (users (ses w) !! uid = None → closing w' = closing w) ∧
  (∀ u, u ≠ uid → u ≠ UID (heap w r) → users (ses w') !! u = users (ses w) !! u) ∧
  (∀ r', r' ≠ r → users (ses w) !! uid ≠ Some r' → heap w' r' = heap w r').
Proof.
  intros Hw Hr Hne Hz. destruct (Bind_spec cid uid r w Hw Hr Hne) as (He & _ & _ & Hh & Hcl & Hu).
  set (w' := (Bind cid uid w).1) in *. clearbody w'. cbn zeta.
  assert (Hold : ∀ old, users (ses w) !! uid = Some old → old ≠ r).
  { intros old Ho ->. apply wf_users in Ho as (_ & ? & _); done. }
  split_and!; [done|..].
  - apply Hu. by rewrite decide_True.
  - rewrite Hh. unfold bind_conn. by rewrite decide_True.
  - apply eq_None_not_Some. intros [x Hx]. apply Hu in Hx. rewrite decide_False in Hx by done.
    destruct Hx as [Hx Hxr]. apply wf_users in Hx as (Hl & E & Hx0); [|done].
    apply Hxr. eapply user_inj; eauto using wf_live. congruence.
  - intros old Ho. rewrite Hcl, Hh. pose proof (Hold _ Ho).
    assert (holder w r uid = Some old) as E by (by apply holder_Some).
    unfold bind_conn. rewrite decide_False, decide_True, E by done. done.
  - intros Ho. rewrite Hcl. unfold holder. rewrite Ho. apply app_nil_r.
  - intros u Hu1 Hu2. apply option_eq. intros x. rewrite Hu, decide_False by done.
    split; [naive_solver|]. intros E. split; [done|]. intros ->.
    apply wf_users in E as (_ & ? & _); [congruence|done].
  - intros r' Hr' Ho. rewrite Hh. unfold bind_conn. rewrite decide_False by done.
    rewrite decide_False; [done|]. intros [? _]%holder_Some. done.
Qed.

(** [Unbind] never hits a connection that is not bound to the user named:
    it fails on a zero id or an unknown connection, does nothing when the
    connection is bound to another user, and otherwise unbinds that connection
    and its user and nothing else. *)
Theorem unbind_only_matching w cid uid :
  wf w →
  let w' := (Unbind cid uid w).1 in
  match conns (ses w) !! cid with
  | Some r =>
      if decide (uid ≠ 0 ∧ cid ≠ 0) then
        if decide (UID (heap w r) = uid) then
          (Unbind cid uid w).2 = Ok cid ∧ UID (heap w' r) = 0 ∧
          users (ses w') !! uid = None ∧
          (∀ u, u ≠ uid → users (ses w') !! u = users (ses w) !! u) ∧
          (∀ r', r' ≠ r → heap w' r' = heap w r')
        else Unbind cid uid w = (w, Ok 0)
      else Unbind cid uid w = (w, Err ErrNotFoundSession)
  | None => Unbind cid uid w = (w, Err ErrNotFoundSession)
  end.
Proof.
  intros Hw. cbn zeta. destruct (conns (ses w) !! cid) as [r|] eqn:Hr.
  2:{ unfold Unbind. case_bool_decide; [done|]. by rewrite connLocked_None. }
  apply connLocked_Ok in Hr as Hok.
  case_decide as H0; [|unfold Unbind; rewrite bool_decide_eq_true_2; [done|lia]].
  destruct (decide _) as [Hu|Hu].
  2:{ unfold Unbind. rewrite bool_decide_eq_false_2, Hok by lia. by rewrite bool_decide_eq_true_2. }
  destruct (Unbind_spec cid uid r w) as (-> & _ & _ & -> & Hus); [tauto..|].
  split_and!; [done|by rewrite heap_upd_eq| | |].
  - apply eq_None_not_Some. intros [x [Hx Hxr]%Hus]. pose proof Hx as Hx'.
    apply wf_users in Hx' as (Hl & E & _); [|done].
    apply Hxr. eapply user_inj; eauto using wf_live; destruct H0; congruence.
  - intros u Hne. apply option_eq. intros x. rewrite Hus. split; [naive_solver|].
    intros E. split; [done|]. intros ->. apply wf_users in E as (_ & ? & _); [congruence|done].
  - intros r' Hne. by rewrite heap_upd_ne.
Qed.

(** [Close] never closes a connection that is not bound to the user named:
    it closes at most one connection, the one with the given id, or the user's
    current one if the id is unknown; it must carry exactly that user id. *)
Theorem close_only_matching closed cid uid force w :
  let w' := (Close closed cid uid force w).1 in
  (w' = w ∨ ∃ r, w' = upd r (conn_close force) w ∧ UID (heap w r) = uid ∧
     (conns (ses w) !! cid = Some r ∨
      conns (ses w) !! cid = None ∧ users (ses w) !! uid = Some r)) ∧
  ((Close closed cid uid force w).2 = Some ErrNotFoundSession →
     w' = w ∧ conns (ses w) !! cid = None ∧ users (ses w) !! uid = None ∨
     ∃ r, w' = upd r (conn_close force) w ∧ closed (heap w r) = Some ErrNotFoundSession).
Proof.
  unfold Close.
  destruct (conns (ses w) !! cid) as [r|]; [|destruct (users (ses w) !! uid) as [r|]];
    try (case_bool_decide as Hu); naive_solver.
Qed.

(** A stale pair of ids does no harm.  [Unbind] fails on a zero id or an
    unknown connection, does nothing when the connection is bound to another
    user, and otherwise unbinds that connection and its user and nothing else.
    [Close] closes at most one connection, the one with the given id, or the
    user's current one if the id is unknown, and only if it carries exactly that
    user id. *)
Theorem acts_on_matching_pairs closed cid uid force w :
  wf w →
  (let w' := (Unbind cid uid w).1 in
   match conns (ses w) !! cid with
   | Some r =>
       if decide (uid ≠ 0 ∧ cid ≠ 0) then
         if decide (UID (heap w r) = uid) then
           (Unbind cid uid w).2 = Ok cid ∧ UID (heap w' r) = 0 ∧
           users (ses w') !! uid = None ∧
           (∀ u, u ≠ uid → users (ses w') !! u = users (ses w) !! u) ∧
           (∀ r', r' ≠ r → heap w' r' = heap w r')
         else Unbind cid uid w = (w, Ok 0)
       else Unbind cid uid w = (w, Err ErrNotFoundSession)
   | None => Unbind cid uid w = (w, Err ErrNotFoundSession)
   end) ∧
  (let w' := (Close closed cid uid force w).1 in
   w' = w ∨ ∃ r, w' = upd r (conn_close force) w ∧ UID (heap w r) = uid ∧
     (conns (ses w) !! cid = Some r ∨
      conns (ses w) !! cid = None ∧ users (ses w) !! uid = Some r)).
Proof.
  intros Hw. split; [by apply unbind_only_matching|apply close_only_matching].
Qed.

Lemma elements_subscribed ch w r :
  r ∈ snapshotChannel ch (ses w) ↔ subscribed (ses w) ch r.
Proof.
  unfold snapshotChannel, subscribed. destruct (channels (ses w) !! ch) as [cs|].
  - rewrite elem_of_elements. naive_solver.
  - set_solver.
Qed.

(** [Publish] reaches exactly the subscribers: a live connection that
    carries the channel's attribute and accepts the message has it appended to
    its queue once, no other connection changes, the session's maps do not
    change, and the result is the number of connections that accepted. *)
Theorem publish_reaches_subscribers pushed ch m w :
  wf w → ch ≠ [] →
  let w' := (Publish pushed ch m w).1 in
  let subscriber r := live w r ∧ channelAttrKey ch ∈ Attr (heap w r) in
  ses w' = ses w ∧
  (∀ r, subscriber r → pushed (heap w r) m = None →
     heap w' r = conn_accept m (heap w r)) ∧
  (∀ r, ¬ subscriber r ∨ pushed (heap w r) m ≠ None → heap w' r = heap w r) ∧
  ∃ rs, NoDup rs ∧ (Publish pushed ch m w).2 = len rs ∧
    ∀ r, r ∈ rs ↔ subscriber r ∧ pushed (heap w r) m = None.
Proof.
  intros Hw Hch. cbn zeta. unfold Publish. rewrite bool_decide_eq_false_2 by done.
  assert (Hd : NoDup (snapshotChannel ch (ses w))).
  { unfold snapshotChannel. destruct (channels (ses w) !! ch);
      [apply NoDup_elements|constructor]. }
  assert (Hs : ∀ r, r ∈ snapshotChannel ch (ses w) ↔
    live w r ∧ channelAttrKey ch ∈ Attr (heap w r)).
  { intros r. rewrite elements_subscribed, wf_channels by done. naive_solver. }
  destruct (push_each_spec pushed _ m w Hd) as (Hse & _ & Hn & Hh).
  split_and!; [done|..].
  - intros r Hr Hp. rewrite Hh, decide_True; [done|]. by rewrite Hs, accepts_spec.
  - intros r Hr. rewrite Hh, decide_False; [done|]. rewrite Hs, accepts_spec. tauto.
  - exists (filter (λ r, accepts pushed w m r) (snapshotChannel ch (ses w))).
    split_and!; [by apply NoDup_filter|exact Hn|].
    intros r. rewrite list_elem_of_filter, accepts_spec, Hs. tauto.
Qed.

(** [Broadcast] to connections reaches every live connection once. *)
Theorem broadcast_reaches_all pushed m w :
  wf w →
  let w' := (Broadcast pushed KConn m w).1 in
  ses w' = ses w ∧
  (∀ r, live w r → pushed (heap w r) m = None → heap w' r = conn_accept m (heap w r)) ∧
  (∀ r, ¬ live w r ∨ pushed (heap w r) m ≠ None → heap w' r = heap w r) ∧
  ∃ rs, NoDup rs ∧ (Broadcast pushed KConn m w).2 = Ok (len rs) ∧
    ∀ r, r ∈ rs ↔ live w r ∧ pushed (heap w r) m = None.
Proof.
  intros Hw. cbn zeta. unfold Broadcast, snapshotAll, sessionsLocked. rewrite mbind_Ok.
  cbn iota. set (rs := (map_to_list (conns (ses w))).*2).
  assert (Hd : NoDup rs).
  { apply NoDup_fmap_2_strong; [|apply NoDup_map_to_list].
    intros [c r] [c' r'] H H' E. simpl in E. subst r'.
    apply elem_of_map_to_list in H, H'. apply wf_conns in H, H'; [|done..]. congruence. }
  assert (Hs : ∀ r, r ∈ rs ↔ live w r).
  { intros r. unfold rs. rewrite list_elem_of_fmap. split.
    - intros ([c r'] & -> & H). apply elem_of_map_to_list in H. by eapply wf_live.
    - intros H. exists (ID (heap w r), r). split; [done|]. by apply elem_of_map_to_list. }
  destruct (push_each_spec pushed rs m w Hd) as (Hse & _ & Hn & Hh).
  destruct (push_each pushed rs m w) as [w' n]. cbn [fst snd] in *.
  split_and!; [done|..].
  - intros r Hr Hp. rewrite Hh, decide_True; [done|]. by rewrite Hs, accepts_spec.
  - intros r Hr. rewrite Hh, decide_False; [done|]. rewrite Hs, accepts_spec. tauto.
  - exists (filter (λ r, accepts pushed w m r) rs).
    split_and!; [by apply NoDup_filter|by rewrite <- Hn|].
    intros r. rewrite list_elem_of_filter, accepts_spec, Hs. tauto.
Qed.

(** Subscriptions are exact: [Subscribe] adds exactly the connections its
    targets lead to, [Unsubscribe] removes exactly those, in the channel named
    and no other; an unknown target is skipped; a wrong kind changes nothing. *)
Theorem subscriptions_exact w kind ts ch :
  wf w → ts ≠ [] → ch ≠ [] →
  match sessionsLocked kind (ses w) with
  | Ok m =>
      (Subscribe kind ts ch w).2 = None ∧ (Unsubscribe kind ts ch w).2 = None ∧
      ∀ ch' r,
        (subscribed (ses (Subscribe kind ts ch w).1) ch' r ↔
           subscribed (ses w) ch' r ∨ ch' = ch ∧ hits m ts r) ∧
        (subscribed (ses (Unsubscribe kind ts ch w).1) ch' r ↔
           subscribed (ses w) ch' r ∧ ¬ (ch' = ch ∧ hits m ts r))
  | _ => Subscribe kind ts ch w = (w, Some ErrInvalidSessionKind) ∧
         Unsubscribe kind ts ch w = (w, Some ErrInvalidSessionKind)
  end.
Proof.
  intros Hw Hts Hch. destruct (sessionsLocked kind (ses w)) as [m|e|] eqn:Hm.
  - destruct (Subscribe_spec kind ts ch w m) as (-> & _ & HS & _); [done..|].
    destruct (Unsubscribe_spec kind ts ch w m) as (-> & _ & HU & _); [done..|].
    split_and!; [done..|]. intros ch' r. rewrite HS, HU. split; [done|].
    split; intros [Hs Hn]; (split; [done|]); [|naive_solver].
    intros [-> Hh]. apply Hn. split_and!; [done..|]. apply wf_channels in Hs; naive_solver.
  - unfold Subscribe, Unsubscribe. rewrite bool_decide_eq_false_2, Hm by naive_solver.
    destruct kind; naive_solver.
  - by destruct kind.
Qed.

(** A disconnected connection is forgotten: no map of the session leads to
    it any more, and everything about the others stays. *)
Theorem disconnect_forgets w r :
  wf w → live w r →
  let s := ses (RemConn (Some r) w) in
  (∀ cid r', conns s !! cid = Some r' ↔ conns (ses w) !! cid = Some r' ∧ r' ≠ r) ∧
  (∀ uid r', users s !! uid = Some r' ↔ users (ses w) !! uid = Some r' ∧ r' ≠ r) ∧
  (∀ ch r', subscribed s ch r' ↔ subscribed (ses w) ch r' ∧ r' ≠ r) ∧
  heap (RemConn (Some r) w) = heap w.
Proof.
  intros Hw Hl. destruct (RemConn_maps r w Hw (or_introl Hl)) as (? & Hc & ? & ?).
  split_and!; [|done..]. intros cid r'. rewrite Hc, lookup_delete_Some.
  split; intros [Hx E]; (split; [|done || idtac]).
  - done.
  - intros ->. apply Hx. by apply wf_conns.
  - intros <-. unfold live in Hl. congruence.
Qed.

(** [Subscribe] leaves an empty set behind when no target is connected
    ([channels] then grows with every such channel name). *)
Lemma Subscribe_leaves_empty_channel h :
  channels (ses (Subscribe KConn [1] [99] (initial h)).1) !! [99] = Some ∅.
Proof. reflexivity. Qed.

(** ** Witnesses *)

(** Two connections, the first bound to user 100 and in the channel "c". *)
Definition new_conn (cid : Z) : Conn := mkConn cid 0 ∅ [] [].
Definition example_connect (r : ref) (cid : Z) (w : World) : World :=
  AddConn (Some r) (upd r (λ _, new_conn cid) w).
Definition example_world : World :=
  let w := initial (λ _, new_conn 0) in
  let w := example_connect 2%positive 12 (example_connect 1%positive 11 w) in
  (Subscribe KUser [100] [99] (Bind 11 100 w).1).1.
Definition always : Conn → list Z → option error := λ _ _, None.
Definition closes_fine : Conn → option error := λ _, None.

Lemma example_reachable :
  rtc (step always closes_fine) (initial (λ _, new_conn 0)) example_world.
Proof.
  eapply rtc_l; [apply (step_connect _ _ _ 1%positive (new_conn 11)); done|].
  eapply rtc_l; [apply (step_connect _ _ _ 2%positive (new_conn 12)); done|].
  eapply rtc_l; [apply (step_bind _ _ _ 11 100)|].
  eapply rtc_l; [apply (step_subscribe _ _ _ KUser [100] [99])|].
  apply rtc_refl.
Qed.

Lemma example_wf : wf example_world.
Proof. exact (reachable_wf _ _ _ _ example_reachable). Qed.

Lemma session_invariant_witness :
  users (ses example_world) !! 100 = Some 1%positive ∧
  UID (heap example_world 1%positive) = 100.
Proof.
  split; [done|].
  destruct (session_invariant always closes_fine (λ _, new_conn 0) example_world
    example_reachable) as (_ & Hu & _).
  apply (Hu 100 1%positive). reflexivity.
Defined.

Lemma bind_takes_over_witness :
  UID (heap (Bind 12 100 example_world).1 1%positive) = 0 ∧
  closing (Bind 12 100 example_world).1 = [1%positive].
Proof.
  destruct (bind_takes_over example_world 12 100 2%positive example_wf)
    as (_ & _ & _ & _ & Hold & _); [reflexivity|done|done|].
  apply (Hold 1%positive). reflexivity.
Defined.

Lemma unbind_only_matching_witness : (Unbind 11 100 example_world).2 = Ok 11.
Proof. exact (proj1 (unbind_only_matching example_world 11 100 example_wf)). Defined.

Lemma acts_on_matching_pairs_witness : (Unbind 11 100 example_world).2 = Ok 11.
Proof.
  exact (proj1 (proj1 (acts_on_matching_pairs closes_fine 11 100 true example_world example_wf))).
Defined.

Lemma close_only_matching_witness :
  (Close closes_fine 5 6 true example_world).1 = example_world.
Proof.
  destruct (close_only_matching closes_fine 5 6 true example_world) as [_ H].
  destruct (H eq_refl) as [[E _]|(r & _ & E)]; [exact E|discriminate E].
Defined.

Lemma publish_reaches_subscribers_witness :
  sent (heap (Publish always [99] [7] example_world).1 1%positive) = [[7]].
Proof.
  destruct (publish_reaches_subscribers always [99] [7] example_world example_wf)
    as (_ & H & _); [done|].
  rewrite (H 1%positive); [reflexivity| |reflexivity].
  split; [reflexivity|]. by apply (bool_decide_unpack _).
Defined.

Lemma broadcast_reaches_all_witness :
  sent (heap (Broadcast always KConn [7] example_world).1 2%positive) = [[7]].
Proof.
  destruct (broadcast_reaches_all always [7] example_world example_wf) as (_ & H & _).
  rewrite (H 2%positive); reflexivity.
Defined.

Lemma subscriptions_exact_witness :
  ¬ subscribed (ses (Unsubscribe KUser [100] [99] example_world).1) [99] 1%positive.
Proof.
  pose proof (subscriptions_exact example_world KUser [100] [99] example_wf) as H.
  change (sessionsLocked _ _) with (Ok (users (ses example_world))) in H. cbv iota in H.
  destruct H as (_ & _ & H); [done..|].
  intros Hs. apply (H [99] 1%positive) in Hs as [_ Hn]. apply Hn.
  split; [done|]. exists 100. split; [by left|reflexivity].
Defined.

Lemma disconnect_forgets_witness :
  users (ses (RemConn (Some 1%positive) example_world)) !! 100 ≠ Some 1%positive.
Proof.
  destruct (disconnect_forgets example_world 1%positive example_wf) as (_ & H & _);
    [reflexivity|].
  intros E. apply H in E as [_ E]. by apply E.
Defined.
