(* ===== verification/Gate.v ===== *)
(** * Gate: the provider, its RPC server and its RPC client

    cluster/gate/provider.go acts on the session, the locator and the cluster
    state; internal/transporter/gate/server.go decodes each request, calls the
    provider and encodes the answer; internal/transporter/gate/client.go is the
    other end.  The last part runs a client against a server over the frames of
    [Frames] and compares the result with a local call of the provider. *)
From stdpp Require Import functions.
From S2P Require Import Prelude Buffer Nocopy Ip Protocol Wire Frames Rpc Session.
#[local] Close Scope nat_scope.
Open Scope Z_scope.

(** The user locator (locate/locate.go), a service: its state and the two
    operations a gate uses. *)
Class Locator := {
  LocState : Type;
  BindGate : Z → list Z → LocState → LocState * option error;
  UnbindGate : Z → list Z → LocState → LocState * option error;
}.

(** The network layer behind [network.Conn]: what a connection answers to
    [Push], [Close] and [RemoteIP]. *)
Class Network := {
  net_Push : Conn → list Z → option error;
  net_Close : Conn → option error;
  net_RemoteIP : Conn → outcome (list Z);
}.

(** The gate's options in use: the instance id, and whether connection events
    are triggered. *)
Class GateOptions := { gid : list Z; connectionEvents : bool }.

(** [cluster.Event] *)
Definition Connect : Z := 1.
Definition Reconnect : Z := 2.
Definition Disconnect : Z := 3.

Section gate.
Context `{!Locator} `{!GateOptions}.

(** What the provider acts on.  [events] are the connection events triggered
    at the nodes, [unbinding] the users whose [UnbindGate] was started in a
    goroutine. *)
Record Gate := mkGate {
  session : World;
  state : Z;
  locator : LocState;
  events : list (Z * Z * Z);
  unbinding : list Z;
}.

Definition set_session (w : World) (g : Gate) : Gate :=
  mkGate w (state g) (locator g) (events g) (unbinding g).
Definition set_locator (l : LocState) (g : Gate) : Gate :=
  mkGate (session g) (state g) l (events g) (unbinding g).

(** Operations of the session and the locator, on the gate's state. *)
Definition on_session {A} (f : World → World * outcome A) : Op Gate A := fun g =>
  let '(w, r) := f (session g) in (set_session w g, r).
Definition on_session_err (f : World → World * option error) : Op Gate unit :=
  on_session (λ w, let '(w, e) := f w in (w, to_outcome e)).
Definition on_locator (f : LocState → LocState * option error) : Op Gate unit := fun g =>
  let '(l, e) := f (locator g) in (set_locator l g, to_outcome e).

(** ** cluster/gate/proxy.go *)

Definition bindGate (cid uid : Z) : Op Gate unit := on_locator (BindGate uid gid).
(** The error is logged and returned. *)
Definition unbindGate (cid uid : Z) : Op Gate unit := on_locator (UnbindGate uid gid).
Definition trigger (event cid uid : Z) : Op Gate unit := fun g =>
  (mkGate (session g) (state g) (locator g) (events g ++ [(event, cid, uid)]) (unbinding g), Ok ()).

End gate.

(** ** cluster/gate/provider.go *)

Module provider.
Section provider.
Context `{!Locator} `{!GateOptions} `{!Network}.

(** [gate.bind]; [bindLobby] is the lobby binding to make, if any. *)
Definition bind (cid uid : Z) (bindLobby : option (Op Gate unit)) : Op Gate unit :=
  if bool_decide (cid ≤ 0 ∨ uid ≤ 0) then lift (Err ErrInvalidArgument) else
  _ ← on_session_err (Session.Bind cid uid);
  r ← try (bindGate cid uid);
  match err_of r with
  | Some e =>
      _ ← try (on_session (Session.Unbind cid uid)); lift (Err e)
  | None =>
      r ← match bindLobby with
          | None => mret (Ok ())
          | Some lobby => try lobby
          end;
      match err_of r with
      | Some e =>
          if bool_decide (e ≠ ErrNotFoundRoute) then
            _ ← try (unbindGate cid uid);
            _ ← try (on_session (Session.Unbind cid uid)); lift (Err e)
          else if connectionEvents then trigger Reconnect cid uid else mret ()
      | None => if connectionEvents then trigger Reconnect cid uid else mret ()
      end
  end.

Definition Bind (cid uid : Z) : Op Gate unit := bind cid uid None.

Definition Unbind (cid uid : Z) : Op Gate unit :=
  if bool_decide (uid = 0) then lift (Err ErrInvalidArgument) else
  cid ← on_session (Session.Unbind cid uid);
  unbindGate cid uid.

Definition GetIP (kind : Kind) (target : Z) : Op Gate (list Z) :=
  on_session (λ w, (w, ask_conn net_RemoteIP kind target w)).
Definition IsOnline (kind : Kind) (target : Z) : Op Gate bool :=
  on_session (λ w, (w, Session.Has kind target w)).
Definition Stat (kind : Kind) : Op Gate Z :=
  on_session (λ w, (w, Session.Stat kind w)).
Definition Disconnect (cid uid : Z) (force : bool) : Op Gate unit :=
  on_session_err (Session.Close net_Close cid uid force).

(** A user that is no longer here is unbound from this gate in the
    background. *)
Definition Push (kind : Kind) (target : Z) (message : list Z) : Op Gate unit := fun g =>
  let '(g, r) := on_session_err (Session.Push net_Push kind target message) g in
  if bool_decide (kind = KUser ∧ r = Err ErrNotFoundSession)
  then (mkGate (session g) (state g) (locator g) (events g) (unbinding g ++ [target]), r)
  else (g, r).

Definition Multicast (kind : Kind) (targets message : list Z) : Op Gate Z :=
  on_session (Session.Multicast net_Push kind targets message).
Definition Broadcast (kind : Kind) (message : list Z) : Op Gate Z :=
  on_session (Session.Broadcast net_Push kind message).
Definition Publish (channel message : list Z) : Op Gate Z :=
  on_session (λ w, let '(w, n) := Session.Publish net_Push channel message w in (w, Ok n)).
Definition Subscribe (kind : Kind) (targets channel : list Z) : Op Gate unit :=
  on_session_err (Session.Subscribe kind targets channel).
Definition Unsubscribe (kind : Kind) (targets channel : list Z) : Op Gate unit :=
  on_session_err (Session.Unsubscribe kind targets channel).
Definition GetState : Op Gate Z := fun g => (g, Ok (state g)).
Definition SetState (s : Z) : Op Gate unit := fun g =>
  (mkGate (session g) s (locator g) (events g) (unbinding g), Ok ()).

End provider.
End provider.

(** ** internal/transporter/gate/server.go

    Every handler decodes, calls the provider, and either returns the error
    (no answer is wanted: sequence number 0) or sends the answer.  The other
    results of a provider call that failed are the zero values. *)
Module Server.
Section server.
Context `{!Locator} `{!GateOptions} `{!Network} `{!WriterAlloc}
  (v6 : list Z → option (list Z)).

Abbreviation GH := (Handler Gate).

(** A provider call inside a handler. *)
Definition provided {A} (m : Op Gate A) : Op (Gate * Peer) (outcome A) := fun s =>
  let '(g, r) := try m s.1 in ((g, s.2), r).

Definition reply (seq : Z) (err : option error) (m : outcome Tree.NocopyBuffer)
    : Op (Gate * Peer) (option Tree.NocopyBuffer) :=
  if bool_decide (seq = 0)
  then match err with Some e => lift (Err e) | None => mret None end
  else Send m.

Definition bind : GH := λ data,
  '(seq, cid, uid) ← lift (DecodeBindReq data);
  r ← provided (provider.Bind cid uid);
  reply seq (err_of r) (EncodeBindRes seq (codes.ErrorToCode (err_of r))).

(** The provider's [Unbind] takes the connection first; the handler passes the
    user first. *)
Definition unbind : GH := λ data,
  '(seq, uid, cid) ← lift (DecodeUnbindReq data);
  r ← provided (provider.Unbind uid cid);
  reply seq (err_of r) (EncodeUnbindRes seq (codes.ErrorToCode (err_of r))).

Definition getIP : GH := λ data,
  '(seq, kind, target) ← lift (DecodeGetIPReq data);
  r ← provided (provider.GetIP (to_kind kind) target);
  reply seq (err_of r)
    (EncodeGetIPRes (Ip.IP2Long v6) seq (codes.ErrorToCode (err_of r)) [val_of [] r]).

Definition stat : GH := λ data,
  '(seq, kind) ← lift (DecodeStatReq data);
  r ← provided (provider.Stat (to_kind kind));
  reply seq (err_of r)
    (EncodeStatRes seq (codes.ErrorToCode (err_of r)) [wrapU 64 (val_of 0 r)]).

Definition isOnline : GH := λ data,
  '(seq, kind, target) ← lift (DecodeIsOnlineReq data);
  r ← provided (provider.IsOnline (to_kind kind) target);
  reply seq (err_of r)
    (EncodeIsOnlineRes seq (codes.ErrorToCode (err_of r)) (val_of false r)).

(** As [unbind]: the first field decoded is the user, the first argument of
    the provider the connection. *)
Definition disconnect : GH := λ data,
  '(seq, kind, target, force) ← lift (DecodeDisconnectReq data);
  r ← provided (provider.Disconnect kind target force);
  reply seq (err_of r) (EncodeDisconnectRes seq (codes.ErrorToCode (err_of r))).

Definition push : GH := λ data,
  '(seq, kind, target, message) ← lift (DecodePushReq data);
  r ← provided (provider.Push (to_kind kind) target message);
  reply seq (err_of r) (EncodePushRes seq (codes.ErrorToCode (err_of r))).

Definition multicast : GH := λ data,
  '(seq, kind, targets, message) ← lift (DecodeMulticastReq data);
  r ← provided (provider.Multicast (to_kind kind) targets message);
  reply seq (err_of r)
    (EncodeMulticastRes seq (codes.ErrorToCode (err_of r)) [wrapU 64 (val_of 0 r)]).

Definition broadcast : GH := λ data,
  '(seq, kind, message) ← lift (DecodeBroadcastReq data);
  r ← provided (provider.Broadcast (to_kind kind) message);
  reply seq (err_of r)
    (EncodeBroadcastRes seq (codes.ErrorToCode (err_of r)) [wrapU 64 (val_of 0 r)]).

Definition publish : GH := λ data,
  '(seq, channel, message) ← lift (DecodePublishReq data);
  r ← provided (provider.Publish channel message);
  reply seq None (EncodePublishRes seq (wrapU 64 (val_of 0 r))).

Definition subscribe : GH := λ data,
  '(seq, kind, targets, channel) ← lift (DecodeSubscribeReq data);
  r ← provided (provider.Subscribe (to_kind kind) targets channel);
  reply seq (err_of r) (EncodeSubscribeRes seq (codes.ErrorToCode (err_of r))).

Definition unsubscribe : GH := λ data,
  '(seq, kind, targets, channel) ← lift (DecodeUnsubscribeReq data);
  r ← provided (provider.Unsubscribe (to_kind kind) targets channel);
  reply seq (err_of r) (EncodeUnsubscribeRes seq (codes.ErrorToCode (err_of r))).

Definition getState : GH := λ data,
  seq ← lift (DecodeGetStateReq data);
  r ← provided provider.GetState;
  reply seq (err_of r) (EncodeGetStateRes seq (codes.ErrorToCode (err_of r)) (val_of 0 r)).

Definition setState : GH := λ data,
  '(seq, state) ← lift (DecodeSetStateReq data);
  r ← provided (provider.SetState state);
  reply seq (err_of r) (EncodeSetStateRes seq (codes.ErrorToCode (err_of r))).

(** [init]: the routes registered over those of [NewServer]. *)
Definition handlers : gmap Z GH :=
  RegisterHandler route.SetState setState $
  RegisterHandler route.GetState getState $
  RegisterHandler route.Unsubscribe unsubscribe $
  RegisterHandler route.Subscribe subscribe $
  RegisterHandler route.Publish publish $
  RegisterHandler route.Broadcast broadcast $
  RegisterHandler route.Multicast multicast $
  RegisterHandler route.Push push $
  RegisterHandler route.Disconnect disconnect $
  RegisterHandler route.IsOnline isOnline $
  RegisterHandler route.Stat stat $
  RegisterHandler route.GetIP getIP $
  RegisterHandler route.Unbind unbind $
  RegisterHandler route.Bind bind NewServer.

End server.
End Server.

(** ** internal/transporter/gate/client.go

    [seq] is the number [doGenSequence] gave; the answer's code becomes the
    error. *)
Module Client.
Section client.
Context `{!Locator} `{!GateOptions} `{!Network} `{!WriterAlloc} `{!BytesAlloc}
  (hs : gmap Z (Handler Gate)).

Abbreviation C := (Op (Gate * Peer)).

(** [return ..., codes.CodeToError(code)] *)
Definition coded {A} (code : Z) (a : A) : C A :=
  match codes.CodeToError code with None => mret a | Some e => lift (Err e) end.

Definition Bind (seq cid uid : Z) : C unit :=
  res ← Call hs seq (EncodeBindReq seq cid uid);
  code ← lift (DecodeBindRes res); coded code ().

Definition Unbind (seq uid cid : Z) : C unit :=
  res ← Call hs seq (EncodeUnbindReq seq uid cid);
  code ← lift (DecodeUnbindRes res); coded code ().

Definition GetIP (seq kind target : Z) : C (list Z) :=
  res ← Call hs seq (EncodeGetIPReq seq kind target);
  '(code, ip) ← lift (DecodeGetIPRes Ip.Long2IP res); coded code ip.

Definition Stat (seq kind : Z) : C Z :=
  res ← Call hs seq (EncodeStatReq seq kind);
  '(code, total) ← lift (DecodeStatRes res); coded code (wrapS 64 total).

Definition IsOnline (seq kind target : Z) : C bool :=
  res ← Call hs seq (EncodeIsOnlineReq seq kind target);
  '(code, isOnline) ← lift (DecodeIsOnlineRes res); coded code isOnline.

Definition Disconnect (seq uid cid : Z) (force : bool) : C unit :=
  res ← Call hs seq (EncodeDisconnectReq seq uid cid force);
  code ← lift (DecodeDisconnectRes res); coded code ().

Definition Push (ack : bool) (seq kind target : Z) (message : block + Tree.NocopyBuffer)
    : C unit :=
  if ack then
    res ← Call hs seq (EncodePushReq seq kind target message);
    code ← lift (DecodePushRes res); coded code ()
  else CallSend hs (EncodePushReq 0 kind target message).

Definition Multicast (ack : bool) (seq kind : Z) (targets : list Z)
    (message : block + Tree.NocopyBuffer) : C Z :=
  if ack then
    res ← Call hs seq (EncodeMulticastReq seq kind targets message);
    '(code, total) ← lift (DecodeMulticastRes res); coded code (wrapS 64 total)
  else _ ← CallSend hs (EncodeMulticastReq 0 kind targets message); mret 0.

Definition Broadcast (ack : bool) (seq kind : Z) (message : block + Tree.NocopyBuffer) : C Z :=
  if ack then
    res ← Call hs seq (EncodeBroadcastReq seq kind message);
    '(code, total) ← lift (DecodeBroadcastRes res); coded code (wrapS 64 total)
  else _ ← CallSend hs (EncodeBroadcastReq 0 kind message); mret 0.

Definition Publish (ack : bool) (seq : Z) (channel : list Z)
    (message : block + Tree.NocopyBuffer) : C Z :=
  if bool_decide (255 < len channel) then lift (Err ErrInvalidArgument) else
  if ack then
    res ← Call hs seq (EncodePublishReq seq channel message);
    total ← lift (DecodePublishRes res); mret (wrapS 64 total)
  else _ ← CallSend hs (EncodePublishReq 0 channel message); mret 0.

Definition Subscribe (seq kind : Z) (targets channel : list Z) : C unit :=
  if bool_decide (255 < len channel) then lift (Err ErrInvalidArgument) else
  res ← Call hs seq (EncodeSubscribeReq seq kind targets channel);
  code ← lift (DecodeSubscribeRes res); coded code ().

Definition Unsubscribe (seq kind : Z) (targets channel : list Z) : C unit :=
  if bool_decide (255 < len channel) then lift (Err ErrInvalidArgument) else
  res ← Call hs seq (EncodeUnsubscribeReq seq kind targets channel);
  code ← lift (DecodeUnsubscribeRes res); coded code ().

Definition GetState (seq : Z) : C Z :=
  res ← Call hs seq (EncodeGetStateReq seq);
  '(code, state) ← lift (DecodeGetStateRes res); coded code state.

Definition SetState (seq state : Z) : C unit :=
  res ← Call hs seq (EncodeSetStateReq seq state);
  code ← lift (DecodeSetStateRes res); coded code ().

End client.
End Client.

(** ** A remote call is a local call *)

Lemma ErrorToCode_OK {A} (r : outcome A) :
  r ≠ Panic → codes.ErrorToCode (err_of r) = codes.OK ↔ ∃ a, r = Ok a.
Proof. destruct r as [a|e|]; simpl; [naive_solver| |done]. destruct e; naive_solver. Qed.

Section transparency.
Context `{!Locator} `{!GateOptions} `{!Network} `{!WriterAlloc} `{!BytesAlloc}
  (v6 : list Z → option (list Z)).
(** The gate protocol has no metadata; any [JsonMap] will do. *)
Context `{!JsonMap} `{!JsonMapLaws _}.

Abbreviation hs := (Server.handlers v6).

Lemma coded_narrow {A} (r : outcome A) (d : A) s :
  r ≠ Panic →
  Client.coded (codes.ErrorToCode (err_of r)) (val_of d r) s = (s, narrow r).
Proof. destruct r as [a|e|]; [done| |done]. by destruct e. Qed.

(** The shape all handlers share, run with a sequence number. *)
Lemma provided_reply {A} (local : Op Gate A) seq (e : outcome A → option error)
    (m : outcome A → outcome Tree.NocopyBuffer) g p g' r :
  seq ≠ 0 → local g = (g', r) → r ≠ Panic →
  (r ← Server.provided local; Server.reply seq (e r) (m r)) (g, p) =
  ((g', p), b ← m r; Ok (Some b)).
Proof.
  intros Hs E Hr. unfold mbind, Op_bind, Server.provided, try. simpl. rewrite E.
  destruct r; try done; unfold Server.reply; rewrite bool_decide_eq_false_2 by done;
    unfold Send, lift, mbind, Op_bind, outcome_bind; by destruct (m _).
Qed.

Lemma provided_panic {A} (local : Op Gate A) seq (e : outcome A → option error)
    (m : outcome A → outcome Tree.NocopyBuffer) g p g' :
  local g = (g', Panic) →
  (r ← Server.provided local; Server.reply seq (e r) (m r)) (g, p) = ((g', p), Panic).
Proof. intros E. unfold mbind, Op_bind, Server.provided, try. simpl. by rewrite E. Qed.

(** A client operation that calls, decodes the answer and returns, against the
    handler of its route. *)
Lemma call_transparent {A} (local : Op Gate A) q seq h (resp : outcome A → Res)
    (e : outcome A → option error) (m : outcome A → outcome Tree.NocopyBuffer)
    (dec : list Z → Op (Gate * Peer) A) g p :
  seq ≠ 0 → req_ok seq q → getHandler hs (req_route q) = Some h →
  (∀ s, h (req_frame seq q) s =
        (r ← Server.provided local; Server.reply seq (e r) (m r)) s) →
  (∀ r, (local g).2 = r → r ≠ Panic →
     m r = encode_res v6 seq (resp r) ∧ res_fields (resp r) ∧
     ∀ s, dec (res_frame v6 seq (resp r)) s = (s, narrow r)) →
  (res ← Call hs seq (encode_req seq q); dec res) (g, p) =
  let '(g', r) := local g in ((g', p), narrow r).
Proof.
  intros Hs Hq Hh Hserve Hres. destruct (local g) as [g' r] eqn:El.
  destruct Hq as (Hseq & Hf & Hp & Hfit).
  pose proof (encode_req_makes seq q Hf Hp Hfit) as Hmk.
  assert (r = Panic ∨ r ≠ Panic) as [->|Hr] by (destruct r; naive_solver).
  - destruct Hmk as (b & -> & Hb & Hd). unfold Call.
    unfold mbind at 1, Op_bind at 1. rewrite lift_bind_Ok, write_buffer_data, lift_bind_Ok, Hd by done.
    unfold mbind at 1, Op_bind at 1.
    rewrite <- (app_nil_r (wire _ _ _)), read_one_frame, Hh by done.
    unfold req_frame in Hserve. rewrite Hserve. by rewrite (provided_panic _ _ _ _ _ _ g').
  - destruct (Hres r) as (Hm & Hrf & Hdec); [done|done|].
    rewrite (op_bind_ok _ _ _ (g', p) (res_frame v6 seq (resp r))); [apply Hdec|].
    eapply Call_frame; [done|done|by apply (res_body_fits v6)|exact Hmk|exact Hh| |].
    + unfold req_frame in Hserve. rewrite Hserve. by erewrite provided_reply.
    + rewrite Hm. by apply encode_res_makes.
Qed.

(** The calls a client can make, by result; [Unbind], [Disconnect] and [Stat]
    are treated below. *)
Inductive RCall : Type → Type :=
  | CBind (cid uid : Z) : RCall unit
  | CGetIP (kind target : Z) : RCall (list Z)
  | CIsOnline (kind target : Z) : RCall bool
  | CPush (kind target : Z) (m : block + Tree.NocopyBuffer) : RCall unit
  | CMulticast (kind : Z) (targets : list Z) (m : block + Tree.NocopyBuffer) : RCall Z
  | CBroadcast (kind : Z) (m : block + Tree.NocopyBuffer) : RCall Z
  | CPublish (channel : list Z) (m : block + Tree.NocopyBuffer) : RCall Z
  | CSubscribe (kind : Z) (targets channel : list Z) : RCall unit
  | CUnsubscribe (kind : Z) (targets channel : list Z) : RCall unit
  | CGetState : RCall Z
  | CSetState (state : Z) : RCall unit.

Definition request {A} (c : RCall A) : Req (block + Tree.NocopyBuffer) :=
  match c with
  | CBind c u => BindReq c u
  | CGetIP k t => GetIPReq k t
  | CIsOnline k t => IsOnlineReq k t
  | CPush k t m => PushReq k t m
  | CMulticast k ts m => MulticastReq k ts m
  | CBroadcast k m => BroadcastReq k m
  | CPublish c m => PublishReq c m
  | CSubscribe k ts c => SubscribeReq k ts c
  | CUnsubscribe k ts c => UnsubscribeReq k ts c
  | CGetState => GetStateReq
  | CSetState s => SetStateReq s
  end.

Definition remote {A} (seq : Z) (c : RCall A) : Op (Gate * Peer) A :=
  match c with
  | CBind c u => Client.Bind hs seq c u
  | CGetIP k t => Client.GetIP hs seq k t
  | CIsOnline k t => Client.IsOnline hs seq k t
  | CPush k t m => Client.Push hs true seq k t m
  | CMulticast k ts m => Client.Multicast hs true seq k ts m
  | CBroadcast k m => Client.Broadcast hs true seq k m
  | CPublish c m => Client.Publish hs true seq c m
  | CSubscribe k ts c => Client.Subscribe hs seq k ts c
  | CUnsubscribe k ts c => Client.Unsubscribe hs seq k ts c
  | CGetState => Client.GetState hs seq
  | CSetState s => Client.SetState hs seq s
  end.

Definition local {A} (c : RCall A) : Op Gate A :=
  match c with
  | CBind c u => provider.Bind c u
  | CGetIP k t => provider.GetIP (to_kind k) t
  | CIsOnline k t => provider.IsOnline (to_kind k) t
  | CPush k t m => provider.Push (to_kind k) t (Tree.elem_data m)
  | CMulticast k ts m => provider.Multicast (to_kind k) ts (Tree.elem_data m)
  | CBroadcast k m => provider.Broadcast (to_kind k) (Tree.elem_data m)
  | CPublish c m => provider.Publish c (Tree.elem_data m)
  | CSubscribe k ts c => provider.Subscribe (to_kind k) ts c
  | CUnsubscribe k ts c => provider.Unsubscribe (to_kind k) ts c
  | CGetState => provider.GetState
  | CSetState s => provider.SetState s
  end.

(** A result the answer has room for: a dotted address, a count, a state. *)
Definition result_ok {A} (c : RCall A) : outcome A → Prop :=
  match c in RCall A return outcome A → Prop with
  | CGetIP _ _ => λ r, ∀ ip, r = Ok ip → ip = [] ∨ ∃ v, in_u 32 v ∧ ip = Ip.Long2IP v
  | CMulticast _ _ _ | CBroadcast _ _ => λ r, ∀ n, r = Ok n → 0 ≤ n < 2 ^ 63
  | CPublish _ _ => λ r, (∃ n, r = Ok n ∧ 0 ≤ n < 2 ^ 63)
  | CGetState => λ r, ∀ s, r = Ok s → in_u 8 s
  | CSubscribe _ _ c | CUnsubscribe _ _ c => λ _, len c ≤ 255
  | _ => λ _, True
  end.

Ltac req_decoded seq q Hq :=
  let D := fresh "D" in
  pose proof (req_decodes seq q Hq) as D; unfold decode_req in D; at_route D;
  let x := fresh "x" in let E := fresh "E" in
  apply bind_Ok in D as (x & D & E); repeat (destruct x as [x ?]);
  injection E as; subst; intros ?; cbv beta delta [Server.bind Server.unbind Server.disconnect Server.getIP
    Server.isOnline Server.push Server.multicast Server.broadcast Server.publish
    Server.subscribe Server.unsubscribe Server.getState Server.setState];
  rewrite D, lift_bind_Ok; reflexivity.

Lemma code_response rt (D : list Z → outcome Z) seq (r : outcome unit) :
  (∀ data, decode_res rt data = CodeRes rt <$> D data) → rt ∈ code_routes →
  in_u 64 seq → r ≠ Panic →
  let code := codes.ErrorToCode (err_of r) in
  res_fields (CodeRes rt code) ∧
  ∀ s : Gate * Peer,
    (code ← lift (D (res_frame v6 seq (CodeRes rt code))); Client.coded code ()) s = (s, narrow r).
Proof.
  intros HD Hrt Hseq Hr code.
  assert (Hf : res_fields (CodeRes rt code)) by (split; [done|apply ErrorToCode_range]).
  split; [done|]. intros s.
  assert (rt ≠ route.Stat) as Hns by (intros ->; revert Hrt; by apply (bool_decide_unpack _)).
  pose proof (decode_encode_res v6 seq _ Hf Hns) as E. cbn [res_route] in E.
  rewrite HD in E. fold (res_frame v6 seq (CodeRes rt code)) in E.
  change (wire rt seq (res_body v6 (CodeRes rt code)))
    with (res_frame v6 seq (CodeRes rt code)) in E.
  destruct (D _); try done. injection E as ->.
  rewrite lift_bind_Ok. rewrite <- (coded_narrow r () s Hr). by destruct (val_of () r).
Qed.

(** The goals [call_transparent] leaves for a call answered by a code. *)
Ltac code_answer Hq :=
  intros r _ Hr; split; [reflexivity|];
  apply code_response; [reflexivity|by apply (bool_decide_unpack _)|apply Hq|exact Hr].

(** The handlers registered, by route. *)
Lemma handlers_lookup :
  getHandler hs route.Bind = Some Server.bind ∧
  getHandler hs route.GetIP = Some (Server.getIP v6) ∧
  getHandler hs route.IsOnline = Some Server.isOnline ∧
  getHandler hs route.Push = Some Server.push ∧
  getHandler hs route.Multicast = Some Server.multicast ∧
  getHandler hs route.Broadcast = Some Server.broadcast ∧
  getHandler hs route.Publish = Some Server.publish ∧
  getHandler hs route.Subscribe = Some Server.subscribe ∧
  getHandler hs route.Unsubscribe = Some Server.unsubscribe ∧
  getHandler hs route.GetState = Some Server.getState ∧
  getHandler hs route.SetState = Some Server.setState ∧
  getHandler hs route.Unbind = Some Server.unbind ∧
  getHandler hs route.Disconnect = Some Server.disconnect ∧
  getHandler hs route.Stat = Some Server.stat.
Proof.
  unfold getHandler, Server.handlers, RegisterHandler.
  split_and!; repeat (rewrite lookup_insert_eq; reflexivity ||
                      rewrite lookup_insert_ne by done); reflexivity.
Qed.

(** The decoder's result on a response frame. *)
Ltac res_read seq p Hf :=
  let E := fresh "E" in let x := fresh "x" in let E' := fresh "E" in
  pose proof (decode_encode_res v6 seq p Hf ltac:(done)) as E;
  unfold decode_res in E; at_route E; apply bind_Ok in E as (x & E & E');
  repeat (destruct x as [x ?]); injection E' as; subst;
  unfold res_frame; cbn [res_route]; rewrite E, lift_bind_Ok.

(** Answers with an optional count. *)
Lemma total_response (mk : Z → Z → Res) rt (D : list Z → outcome (Z * Z)) seq (r : outcome Z) :
  (mk = MulticastRes ∧ rt = route.Multicast ∧ D = DecodeMulticastRes ∨
   mk = BroadcastRes ∧ rt = route.Broadcast ∧ D = DecodeBroadcastRes) →
  in_u 64 seq → r ≠ Panic → (∀ n, r = Ok n → 0 ≤ n < 2 ^ 63) →
  let p := mk (codes.ErrorToCode (err_of r)) (wrapU 64 (val_of 0 r)) in
  res_fields p ∧
  ∀ s : Gate * Peer,
    ('(code, total) ← lift (D (res_frame v6 seq p)); Client.coded code (wrapS 64 total)) s =
    (s, narrow r).
Proof.
  intros Hmk Hseq Hr Hn. cbn zeta. set (code := codes.ErrorToCode (err_of r)).
  assert (Hf : res_fields (MulticastRes code (wrapU 64 (val_of 0 r)))).
  { split_and!; [apply ErrorToCode_range|apply wrapU_range; lia|].
    intros Hc. destruct r as [n|e|]; [|done..]. by destruct Hc. }
  assert (Hb : wrapS 64 (wrapU 64 (val_of 0 r)) = val_of 0 r).
  { apply wrapS_wrapU_id; [lia|]. unfold in_s. destruct r; simpl; [|lia..].
    specialize (Hn a eq_refl). lia. }
  destruct Hmk as [(-> & -> & ->)|(-> & -> & ->)]; (split; [exact Hf|]); intros s.
  - pose proof (decode_encode_res v6 seq (MulticastRes code (wrapU 64 (val_of 0 r))) Hf ltac:(done)) as E.
    unfold decode_res in E. at_route E. apply bind_Ok in E as ([c t] & E & [= -> ->]).
    unfold res_frame. cbn [res_route]. rewrite E, lift_bind_Ok, Hb. by apply coded_narrow.
  - pose proof (decode_encode_res v6 seq (BroadcastRes code (wrapU 64 (val_of 0 r))) Hf ltac:(done)) as E.
    unfold decode_res in E. at_route E. apply bind_Ok in E as ([c t] & E & [= -> ->]).
    unfold res_frame. cbn [res_route]. rewrite E, lift_bind_Ok, Hb. by apply coded_narrow.
Qed.

(** *** One lemma per call *)

Definition transparent {A} (c : RCall A) : Prop := ∀ seq g p,
  seq ≠ 0 → req_ok seq (request c) → result_ok c (local c g).2 →
  remote seq c (g, p) = let '(g', r) := local c g in ((g', p), narrow r).

Abbreviation payload := (block + Tree.NocopyBuffer)%type.

Lemma bind_transparent cid uid : transparent (CBind cid uid).
Proof.
  intros seq g p Hs Hq _. cbn [remote local request] in *. unfold Client.Bind.
  apply (call_transparent (provider.Bind cid uid) (BindReq cid uid) seq Server.bind
    (λ r, CodeRes route.Bind (codes.ErrorToCode (err_of r))) err_of
    (λ r, EncodeBindRes seq (codes.ErrorToCode (err_of r))) _ g p Hs Hq).
  - apply handlers_lookup.
  - req_decoded seq (@BindReq payload cid uid) Hq.
  - code_answer Hq.
Qed.

Lemma push_transparent k t m : transparent (CPush k t m).
Proof.
  intros seq g p Hs Hq _. cbn [remote local request] in *. unfold Client.Push.
  apply (call_transparent (provider.Push (to_kind k) t (Tree.elem_data m)) (PushReq k t m)
    seq Server.push
    (λ r, CodeRes route.Push (codes.ErrorToCode (err_of r))) err_of
    (λ r, EncodePushRes seq (codes.ErrorToCode (err_of r))) _ g p Hs Hq).
  - apply handlers_lookup.
  - req_decoded seq (@PushReq payload k t m) Hq.
  - code_answer Hq.
Qed.

Lemma subscribe_transparent k ts c : transparent (CSubscribe k ts c).
Proof.
  intros seq g p Hs Hq Hc. cbn [remote local request result_ok] in *. unfold Client.Subscribe.
  rewrite bool_decide_eq_false_2 by lia.
  apply (call_transparent (provider.Subscribe (to_kind k) ts c) (SubscribeReq k ts c)
    seq Server.subscribe
    (λ r, CodeRes route.Subscribe (codes.ErrorToCode (err_of r))) err_of
    (λ r, EncodeSubscribeRes seq (codes.ErrorToCode (err_of r))) _ g p Hs Hq).
  - apply handlers_lookup.
  - req_decoded seq (@SubscribeReq payload k ts c) Hq.
  - code_answer Hq.
Qed.

Lemma unsubscribe_transparent k ts c : transparent (CUnsubscribe k ts c).
Proof.
  intros seq g p Hs Hq Hc. cbn [remote local request result_ok] in *. unfold Client.Unsubscribe.
  rewrite bool_decide_eq_false_2 by lia.
  apply (call_transparent (provider.Unsubscribe (to_kind k) ts c) (UnsubscribeReq k ts c)
    seq Server.unsubscribe
    (λ r, CodeRes route.Unsubscribe (codes.ErrorToCode (err_of r))) err_of
    (λ r, EncodeUnsubscribeRes seq (codes.ErrorToCode (err_of r))) _ g p Hs Hq).
  - apply handlers_lookup.
  - req_decoded seq (@UnsubscribeReq payload k ts c) Hq.
  - code_answer Hq.
Qed.

Lemma setState_transparent s : transparent (CSetState s).
Proof.
  intros seq g p Hs Hq _. cbn [remote local request] in *. unfold Client.SetState.
  apply (call_transparent (provider.SetState s) (SetStateReq s) seq Server.setState
    (λ r, CodeRes route.SetState (codes.ErrorToCode (err_of r))) err_of
    (λ r, EncodeSetStateRes seq (codes.ErrorToCode (err_of r))) _ g p Hs Hq).
  - apply handlers_lookup.
  - req_decoded seq (@SetStateReq payload s) Hq.
  - code_answer Hq.
Qed.

Lemma multicast_transparent k ts m : transparent (CMulticast k ts m).
Proof.
  intros seq g p Hs Hq Hr. cbn [remote local request result_ok] in *. unfold Client.Multicast.
  apply (call_transparent (provider.Multicast (to_kind k) ts (Tree.elem_data m))
    (MulticastReq k ts m) seq Server.multicast
    (λ r, MulticastRes (codes.ErrorToCode (err_of r)) (wrapU 64 (val_of 0 r))) err_of
    (λ r, EncodeMulticastRes seq (codes.ErrorToCode (err_of r)) [wrapU 64 (val_of 0 r)])
    _ g p Hs Hq).
  - apply handlers_lookup.
  - req_decoded seq (@MulticastReq payload k ts m) Hq.
  - intros r E Hp. subst r. split; [reflexivity|].
    apply (total_response MulticastRes route.Multicast); [tauto|apply Hq|done|exact Hr].
Qed.

Lemma broadcast_transparent k m : transparent (CBroadcast k m).
Proof.
  intros seq g p Hs Hq Hr. cbn [remote local request result_ok] in *. unfold Client.Broadcast.
  apply (call_transparent (provider.Broadcast (to_kind k) (Tree.elem_data m))
    (BroadcastReq k m) seq Server.broadcast
    (λ r, BroadcastRes (codes.ErrorToCode (err_of r)) (wrapU 64 (val_of 0 r))) err_of
    (λ r, EncodeBroadcastRes seq (codes.ErrorToCode (err_of r)) [wrapU 64 (val_of 0 r)])
    _ g p Hs Hq).
  - apply handlers_lookup.
  - req_decoded seq (@BroadcastReq payload k m) Hq.
  - intros r E Hp. subst r. split; [reflexivity|].
    apply (total_response BroadcastRes route.Broadcast); [tauto|apply Hq|done|exact Hr].
Qed.

Lemma isOnline_transparent k t : transparent (CIsOnline k t).
Proof.
  intros seq g p Hs Hq _. cbn [remote local request] in *. unfold Client.IsOnline.
  apply (call_transparent (provider.IsOnline (to_kind k) t) (IsOnlineReq k t)
    seq Server.isOnline
    (λ r, IsOnlineRes (codes.ErrorToCode (err_of r)) (val_of false r)) err_of
    (λ r, EncodeIsOnlineRes seq (codes.ErrorToCode (err_of r)) (val_of false r)) _ g p Hs Hq).
  - apply handlers_lookup.
  - req_decoded seq (@IsOnlineReq payload k t) Hq.
  - intros r _ Hr. split; [reflexivity|].
    assert (Hf : res_fields (IsOnlineRes (codes.ErrorToCode (err_of r)) (val_of false r)))
      by apply ErrorToCode_range.
    split; [exact Hf|]. intros s.
    res_read seq (IsOnlineRes (codes.ErrorToCode (err_of r)) (val_of false r)) Hf.
    by apply coded_narrow.
Qed.

Lemma getIP_transparent k t : transparent (CGetIP k t).
Proof.
  intros seq g p Hs Hq Hok. cbn [remote local request result_ok] in *. unfold Client.GetIP.
  apply (call_transparent (provider.GetIP (to_kind k) t) (GetIPReq k t)
    seq (Server.getIP v6)
    (λ r, GetIPRes (codes.ErrorToCode (err_of r)) (val_of [] r)) err_of
    (λ r, EncodeGetIPRes (Ip.IP2Long v6) seq (codes.ErrorToCode (err_of r)) [val_of [] r])
    _ g p Hs Hq).
  - apply handlers_lookup.
  - req_decoded seq (@GetIPReq payload k t) Hq.
  - intros r Er Hr. subst r. set (r := (provider.GetIP (to_kind k) t g).2) in *.
    split; [reflexivity|].
    assert (Hf : res_fields (GetIPRes (codes.ErrorToCode (err_of r)) (val_of [] r))).
    { split; [apply ErrorToCode_range|]. destruct r as [ip|e|]; [|by left..].
      destruct (Hok ip eq_refl); [by left|by right]. }
    split; [exact Hf|]. intros s.
    res_read seq (GetIPRes (codes.ErrorToCode (err_of r)) (val_of [] r)) Hf.
    by apply coded_narrow.
Qed.

Lemma publish_transparent c m : transparent (CPublish c m).
Proof.
  intros seq g p Hs Hq Hok. cbn [remote local request result_ok] in *. unfold Client.Publish.
  pose proof Hq as (_ & Hc & _). cbn in Hc. rewrite bool_decide_eq_false_2 by lia.
  apply (call_transparent (provider.Publish c (Tree.elem_data m)) (PublishReq c m)
    seq Server.publish (λ r, PublishRes (wrapU 64 (val_of 0 r))) (λ _, None)
    (λ r, EncodePublishRes seq (wrapU 64 (val_of 0 r))) _ g p Hs Hq).
  - apply handlers_lookup.
  - req_decoded seq (@PublishReq payload c m) Hq.
  - intros r Er Hr. destruct Hok as (n & Hn & Hrange). rewrite Hn in Er. subst r.
    split; [reflexivity|].
    assert (Hf : res_fields (PublishRes (wrapU 64 n))) by (apply wrapU_range; lia).
    split; [exact Hf|]. intros s. cbn [val_of].
    pose proof (decode_encode_res v6 seq (PublishRes (wrapU 64 n)) Hf ltac:(done)) as E.
    unfold decode_res in E. at_route E. unfold res_frame. cbn [res_route].
    destruct (DecodePublishRes _) as [t| |]; try done. injection E as ->.
    rewrite lift_bind_Ok, wrapS_wrapU_id; [done|lia|unfold in_s; lia].
Qed.

Lemma getState_transparent : transparent CGetState.
Proof.
  intros seq g p Hs Hq Hok. cbn [remote local request result_ok] in *. unfold Client.GetState.
  apply (call_transparent provider.GetState GetStateReq seq Server.getState
    (λ r, GetStateRes (codes.ErrorToCode (err_of r)) (val_of 0 r)) err_of
    (λ r, EncodeGetStateRes seq (codes.ErrorToCode (err_of r)) (val_of 0 r)) _ g p Hs Hq).
  - apply handlers_lookup.
  - req_decoded seq (@GetStateReq payload) Hq.
  - intros r Er Hr. subst r. split; [reflexivity|].
    assert (Hf : res_fields (GetStateRes (codes.ErrorToCode (err_of (provider.GetState g).2))
      (val_of 0 (provider.GetState g).2))) by (split; [done|by apply Hok]).
    split; [exact Hf|]. intros s.
    res_read seq (GetStateRes (codes.ErrorToCode (err_of (provider.GetState g).2))
      (val_of 0 (provider.GetState g).2)) Hf.
    reflexivity.
Qed.

Lemma all_transparent {A} (c : RCall A) : transparent c.
Proof.
  destruct c.
  - apply bind_transparent.
  - apply getIP_transparent.
  - apply isOnline_transparent.
  - apply push_transparent.
  - apply multicast_transparent.
  - apply broadcast_transparent.
  - apply publish_transparent.
  - apply subscribe_transparent.
  - apply unsubscribe_transparent.
  - apply getState_transparent.
  - apply setState_transparent.
Qed.

(** *** What is not a local call

    [Unbind] and [Disconnect] reach the provider with the connection and the
    user exchanged. *)
Lemma unbind_swapped uid cid seq g p :
  seq ≠ 0 → req_ok seq (UnbindReq uid cid) →
  Client.Unbind hs seq uid cid (g, p) =
  let '(g', r) := provider.Unbind uid cid g in ((g', p), narrow r).
Proof.
  intros Hs Hq. unfold Client.Unbind.
  apply (call_transparent (provider.Unbind uid cid) (UnbindReq uid cid) seq Server.unbind
    (λ r, CodeRes route.Unbind (codes.ErrorToCode (err_of r))) err_of
    (λ r, EncodeUnbindRes seq (codes.ErrorToCode (err_of r))) _ g p Hs Hq).
  - apply handlers_lookup.
  - req_decoded seq (@UnbindReq payload uid cid) Hq.
  - code_answer Hq.
Qed.

Lemma disconnect_swapped uid cid force seq g p :
  seq ≠ 0 → req_ok seq (DisconnectReq uid cid force) →
  Client.Disconnect hs seq uid cid force (g, p) =
  let '(g', r) := provider.Disconnect uid cid force g in ((g', p), narrow r).
Proof.
  intros Hs Hq. unfold Client.Disconnect.
  apply (call_transparent (provider.Disconnect uid cid force) (DisconnectReq uid cid force)
    seq Server.disconnect
    (λ r, CodeRes route.Disconnect (codes.ErrorToCode (err_of r))) err_of
    (λ r, EncodeDisconnectRes seq (codes.ErrorToCode (err_of r))) _ g p Hs Hq).
  - apply handlers_lookup.
  - req_decoded seq (@DisconnectReq payload uid cid force) Hq.
  - code_answer Hq.
Qed.

End transparency.

(** ** Properties *)


(** A remote [Unbind] or [Disconnect] of the user [uid] on the connection
    [cid] acts on the connection numbered [uid] and the user numbered [cid]:
    the server's handlers pass the decoded user and connection to the provider
    in the order opposite to its parameters. *)
Theorem remote_unbind_exchanged `{!Locator} `{!GateOptions} `{!Network} `{!WriterAlloc}
    `{!BytesAlloc} v6 `{!JsonMap} `{!JsonMapLaws _} uid cid force seq g p :
  seq ≠ 0 → in_u 64 seq → in_s 64 uid → in_s 64 cid →
  (Client.Unbind (Server.handlers v6) seq uid cid (g, p) =
   let '(g', r) := provider.Unbind (* cid := *) uid (* uid := *) cid g in ((g', p), narrow r)) ∧
  (Client.Disconnect (Server.handlers v6) seq uid cid force (g, p) =
   let '(g', r) := provider.Disconnect uid cid force g in ((g', p), narrow r)).
Proof.
  intros Hs Hseq Hu Hc. split.
  - refine (unbind_swapped v6 uid cid seq g p Hs _). by split_and!.
  - refine (disconnect_swapped v6 uid cid force seq g p Hs _). by split_and!.
Qed.

(** What [Session.Bind] leaves, whatever it had to do. *)
Lemma session_Bind_bound cid uid r w :
  wf w → conns (ses w) !! cid = Some r → uid ≠ 0 →
  let w' := (Session.Bind cid uid w).1 in
  (Session.Bind cid uid w).2 = None ∧ wf w' ∧ conns (ses w') !! cid = Some r ∧
  UID (heap w' r) = uid ∧ users (ses w') !! uid = Some r.
Proof.
  intros Hw Hr Hu. pose proof (Bind_wf cid uid w Hw) as Hw'.
  destruct (decide (UID (heap w r) = uid)) as [E|E].
  - cbn zeta. assert (Session.Bind cid uid w = (w, None)) as ->.
    { unfold Session.Bind. apply connLocked_Ok in Hr as ->. by rewrite bool_decide_eq_true_2. }
    split_and!; try done. apply wf_users; [done|]. split_and!; [by eapply wf_live|done..].
  - destruct (Bind_spec cid uid r w Hw Hr E) as (? & Hc & _ & Hh & _ & Hus).
    split_and!; [done|done|by rewrite Hc| |].
    + rewrite Hh. unfold bind_conn. by rewrite decide_True.
    + apply Hus. by rewrite decide_True.
Qed.

(** The provider's [Bind] is all or nothing: on a known connection it ends
    with the session and the locator both bound; if the locator refuses, its
    error is returned and the session is rolled back, so that the user leads to
    no connection and the connection carries no user. *)
Theorem provider_bind_rolls_back `{!Locator} `{!GateOptions} cid uid r g :
  wf (session g) → conns (ses (session g)) !! cid = Some r → 0 < cid → 0 < uid →
  let '(g', res) := provider.Bind cid uid g in
  match BindGate uid gid (locator g) with
  | (l, None) => res = Ok () ∧ locator g' = l ∧
      users (ses (session g')) !! uid = Some r ∧ UID (heap (session g') r) = uid
  | (l, Some e) => res = Err e ∧ locator g' = l ∧
      users (ses (session g')) !! uid = None ∧ UID (heap (session g') r) = 0
  end.
Proof.
  intros Hw Hr Hc Hu. unfold provider.Bind, provider.bind.
  rewrite bool_decide_eq_false_2 by lia.
  destruct (session_Bind_bound cid uid r (session g) Hw Hr) as (He & Hw' & Hr' & Huid & Hus); [lia|].
  unfold on_session_err, on_session, bindGate, on_locator, try, mbind, Op_bind.
  destruct (Session.Bind cid uid (session g)) as [w' e'] eqn:Eb. cbn [fst snd] in *. subst e'.
  cbn [to_outcome locator set_session].
  destruct (BindGate uid gid (locator g)) as [l [e|]] eqn:El; cbn [to_outcome err_of].
  - pose proof (unbind_only_matching w' cid uid Hw') as Hun. cbn zeta in Hun.
    rewrite Hr', decide_True, decide_True in Hun by (done || lia).
    destruct Hun as (Hok & Hz & Hnone & _).
    cbn [session set_session set_locator].
    destruct (Session.Unbind cid uid w') as [w2 r2]. cbn [fst snd] in *. subst r2. done.
  - cbn. destruct connectionEvents; done.
Qed.

(** The consequence: after a remote [Unbind] of user 100 on connection 11 the
    user is still bound, and the caller is told that there is no session. *)
Definition example_options : GateOptions := {| gid := [103]; connectionEvents := false |}.
Definition example_network : Network :=
  {| net_Push _ _ := None; net_Close _ := None; net_RemoteIP _ := Ok (Ip.Long2IP 16909060) |}.
Definition example_locator : Locator :=
  {| LocState := gmap Z (list Z);
     BindGate uid gid l := (<[uid := gid]> l, None);
     UnbindGate uid gid l := (delete uid l, None) |}.
#[local] Existing Instance example_options.
#[local] Existing Instance example_network.
#[local] Existing Instance example_locator.
#[local] Existing Instance default_alloc.
#[local] Existing Instance default_bytes_alloc.
#[local] Existing Instance example_json.
#[local] Existing Instance example_json_laws.

Definition example_gate : Gate :=
  mkGate example_world 1 ({[ 100 := [103] ]} : gmap Z (list Z)) [] [].
Definition example_peer : Peer := mkPeer 2 [110].

Lemma remote_unbind_misses :
  let '((g, _), r) := Client.Unbind (Server.handlers (λ _, None)) 1 100 11
                        (example_gate, example_peer) in
  r = Err ErrNotFoundSession ∧ users (ses (session g)) !! 100 = Some 1%positive ∧
  (provider.Unbind 11 100 example_gate).2 = Ok ().
Proof.
  assert (Hq : req_ok 1 (@UnbindReq (block + Tree.NocopyBuffer) 100 11)) by (by split_and!).
  rewrite (unbind_swapped (λ _, None) 100 11 1 example_gate example_peer ltac:(done) Hq). by vm_compute.
Qed.

(** ** Witnesses *)


Lemma remote_unbind_exchanged_witness :
  Client.Unbind (Server.handlers (λ _, None)) 1 100 11 (example_gate, example_peer) =
  let '(g', r) := provider.Unbind 100 11 example_gate in ((g', example_peer), narrow r).
Proof.
  exact (proj1 (remote_unbind_exchanged (λ _, None) 100 11 false 1 example_gate example_peer
    ltac:(done) ltac:(by apply (bool_decide_unpack _)) ltac:(by apply (bool_decide_unpack _))
    ltac:(by apply (bool_decide_unpack _)))).
Defined.

(** A locator that refuses. *)
Definition refusing_locator : Locator :=
  {| LocState := unit; BindGate _ _ l := (l, Some (ErrConn 5));
     UnbindGate _ _ l := (l, None) |}.

Lemma provider_bind_rolls_back_witness :
  users (ses (session (@provider.Bind refusing_locator example_options 12 100
    (@mkGate refusing_locator example_world 1 () [] [])).1)) !! 100 = None.
Proof.
  pose proof (@provider_bind_rolls_back refusing_locator example_options 12 100 2%positive
    (@mkGate refusing_locator example_world 1 () [] []) example_wf eq_refl
    ltac:(done) ltac:(done)) as H.
  destruct (@provider.Bind _ _ _ _ _) as [g' res]. cbn in H. apply H.
Defined.
