(* ===== verification/Packet.v ===== *)
(** * packet: the frames between players and gates

    packet/packer.go with its options.  A message is packed in two forms: the
    wire frame of [PackMessage], whose size field does not count itself, and the
    inner packet of [PackBuffer], whose size field counts everything; one
    [UnpackMessage] reads both.  [ReadMessage] and [ReadBuffer] cut wire frames
    off a connection. *)
From S2P Require Import Prelude Buffer Nocopy Ip Protocol Wire Frames.
Import Writer Reader.

(** packet/message.go; [MessageID], [GameID] and [Seq] are int32. *)
Record Message := mkMessage { Seq : Z; GameID : Z; MessageID : Z; Buf : list Z }.

#[export] Instance Message_eq_dec : EqDecision Message.
Proof. solve_decision. Defined.

(** packet/options.go *)
Record options := mkOptions { byteOrder : ByteOrder; bufferBytes : Z }.
Definition sizeBytes : Z := 4.
Definition defaultHeaderSize : Z := 20.
Definition MaxInt32 : Z := 2 ^ 31 - 1.
(** [defaultOptions] without configuration. *)
Definition defaultOptions : options := mkOptions BigEndian 65535.

Section packer.
Context (opts : options).

(** [byteOrder.PutUint32(buf[offset:], v)]: panics unless 4 bytes are left. *)
Definition PutUint32 (buf : list Z) (offset v : Z) : outcome (list Z) :=
  rest ← slice_from buf offset;
  if bool_decide (len rest < 4) then Panic
  else Ok (take (Z.to_nat offset) buf ++ put_uint (byteOrder opts) 4 v ++ drop 4 rest).

(** [byteOrder.Uint32(data[offset:])] *)
Definition Uint32 (data : list Z) (offset : Z) : outcome Z :=
  rest ← slice_from data offset;
  if bool_decide (len rest < 4) then Panic
  else Ok (get_uint (byteOrder opts) (take 4 rest)).

(** [copy(buf[offset:], src)] *)
Definition copy_at (buf : list Z) (offset : Z) (src : list Z) : outcome (list Z) :=
  rest ← slice_from buf offset;
  let n := min (length rest) (length src) in
  Ok (take (Z.to_nat offset) buf ++ take n src ++ drop n rest).

Definition PackMessage (m : Message) : outcome (list Z) :=
  if bool_decide (bufferBytes opts < len (Buf m)) then Err ErrMessageTooLarge else
  let totalLen := defaultHeaderSize + len (Buf m) in
  if bool_decide (MaxInt32 < totalLen) then Err ErrMessageTooLarge else
  let buf := replicate (Z.to_nat (4 + totalLen)) 0 in
  buf ← PutUint32 buf 0 (wrapU 32 totalLen);
  buf ← PutUint32 buf 4 (wrapU 32 dataBit);
  buf ← PutUint32 buf 8 (wrapU 32 (GameID m));
  buf ← PutUint32 buf 12 (wrapU 32 (MessageID m));
  buf ← PutUint32 buf 16 (wrapU 32 (Seq m));
  copy_at buf 20 (Buf m).

Definition PackBuffer `{!WriterAlloc} (m : Message) : outcome Tree.NocopyBuffer :=
  if bool_decide (bufferBytes opts < len (Buf m)) then Err ErrMessageTooLarge else
  let totalLen := defaultHeaderSize + len (Buf m) in
  if bool_decide (bufferBytes opts < totalLen ∨ MaxInt32 < totalLen)
  then Err ErrMessageTooLarge else
  w ← MallocWriter defaultHeaderSize;
  w ← WriteInt32s (byteOrder opts) [wrapS 32 totalLen] w;
  w ← WriteInt32s (byteOrder opts) [dataBit] w;
  w ← WriteInt32s (byteOrder opts) [GameID m] w;
  w ← WriteInt32s (byteOrder opts) [MessageID m] w;
  w ← WriteInt32s (byteOrder opts) [Seq m] w;
  Ok (Tree.NewNocopyBuffer [inl (BWriter w); inl (BRaw (Buf m))]).

(** A size of 0 is a message without data: the four bytes are consumed. *)
Definition ReadMessage (stream : list Z) : outcome (list Z * list Z) :=
  '(buf, stream) ← ReadFull stream sizeBytes;
  let size := get_uint (byteOrder opts) buf in
  if bool_decide (size = 0) then Ok ([], stream) else
  let n := wrapU 32 (sizeBytes + size) in
  _ ← slice_check n 0 sizeBytes;
  '(rest, stream) ← ReadFull stream (n - sizeBytes);
  Ok (buf ++ rest, stream).

Definition ReadBuffer `{!BytesAlloc} (stream : list Z)
    : outcome (option Bytes.Bytes * list Z) :=
  '(buf, stream) ← ReadFull stream sizeBytes;
  let size := get_uint (byteOrder opts) buf in
  if bool_decide (size = 0) then Ok (None, stream) else
  let n := wrapU 32 (sizeBytes + size) in
  buf2 ← MallocBytes n;
  data ← Bytes.bytes (Some buf2);
  _ ← slice_check (len (Bytes.b_buf buf2)) 0 sizeBytes;
  _ ← slice_check (len (Bytes.b_buf buf2)) sizeBytes (len data);
  '(rest, stream) ← ReadFull stream (len data - sizeBytes);
  Ok (Some (Bytes.mkBytes (buf ++ rest ++ drop (length data) (Bytes.b_buf buf2))
        (Bytes.b_off buf2) (Bytes.b_pool buf2) (Bytes.b_released buf2)), stream).

(** [None] is a half packet: nothing is wrong yet, more bytes are needed. *)
Definition UnpackMessage (data : list Z) : outcome (option (Message * Z)) :=
  if bool_decide (len data < sizeBytes) then Ok None else
  size ← Uint32 data 0;
  if bool_decide (size < defaultHeaderSize ∨ bufferBytes opts < size)
  then Err ErrInvalidMessage else
  if bool_decide (len data < size) then Ok None else
  dataBitVal ← wrapS 32 <$> Uint32 data 4;
  if bool_decide (Z.land dataBitVal dataBit ≠ dataBit) then Err ErrInvalidMessage else
  gameID ← wrapS 32 <$> Uint32 data 8;
  messageID ← wrapS 32 <$> Uint32 data 12;
  seq ← wrapS 32 <$> Uint32 data 16;
  body ← slice data 20 size;
  Ok (Some (mkMessage seq gameID messageID body, size)).

End packer.

(** ** The layout *)

Definition u32o (o : ByteOrder) (v : Z) : list Z := put_uint o 4 (wrapU 32 v).

(** [size + dataBit + GameID + MessageID + Seq + body], the size counting
    the whole. *)
Definition packet (o : ByteOrder) (flags : Z) (m : Message) : list Z :=
  u32o o (20 + len (Buf m)) ++ u32o o flags ++ u32o o (GameID m) ++
  u32o o (MessageID m) ++ u32o o (Seq m) ++ Buf m.

Definition message_ok (m : Message) : Prop :=
  in_s 32 (Seq m) ∧ in_s 32 (GameID m) ∧ in_s 32 (MessageID m).

Lemma length_u32o o v : length (u32o o v) = 4%nat.
Proof. apply length_put_uint. Qed.
#[export] Hint Rewrite length_u32o : golen.

Lemma length_packet o f m : len (packet o f m) = 20 + len (Buf m).
Proof. unfold packet. autorewrite with golen. lia. Qed.

Section layout.
Context (opts : options).
Abbreviation o := (byteOrder opts).

(** Fields already written, then zeros. *)
Lemma PutUint32_at pre z v n :
  len pre = z → (4 ≤ n)%nat →
  PutUint32 opts (pre ++ replicate n 0) z v =
  Ok ((pre ++ put_uint o 4 v) ++ replicate (n - 4) 0).
Proof.
  intros <- Hn. unfold PutUint32. rewrite slice_from_Ok by len_solve. run.
  rewrite Nat2Z.id, drop_app_length, length_replicate.
  rewrite bool_decide_eq_false_2 by lia.
  rewrite take_app_length, drop_replicate, <- app_assoc. done.
Qed.

Lemma copy_at_zeros pre z src n :
  len pre = z → (length src ≤ n)%nat →
  copy_at (pre ++ replicate n 0) z src = Ok ((pre ++ src) ++ replicate (n - length src) 0).
Proof.
  intros <- Hn. unfold copy_at. rewrite slice_from_Ok by len_solve. run.
  rewrite Nat2Z.id, drop_app_length, length_replicate, Nat.min_r by lia.
  rewrite take_app_length, take_ge, drop_replicate, <- app_assoc by lia. done.
Qed.

(** [PackMessage] is the packet followed by the four bytes its buffer has too
    many. *)
Lemma PackMessage_packet m :
  len (Buf m) ≤ bufferBytes opts → 20 + len (Buf m) ≤ MaxInt32 →
  PackMessage opts m = Ok (packet o 0 m ++ [0; 0; 0; 0]).
Proof.
  intros Hb Hm. unfold PackMessage, defaultHeaderSize.
  rewrite bool_decide_eq_false_2 by lia. rewrite bool_decide_eq_false_2 by lia.
  set (n := Z.to_nat (4 + (20 + len (Buf m)))).
  rewrite <- (app_nil_l (replicate n 0)).
  rewrite PutUint32_at by (done || lia). run. rewrite app_nil_l.
  do 4 (rewrite PutUint32_at by len_solve; run).
  rewrite copy_at_zeros by (autorewrite with golen; lia).
  replace (n - 4 - 4 - 4 - 4 - 4 - length (Buf m))%nat with 4%nat by lia.
  unfold packet, u32o. by rewrite <- !app_assoc.
Qed.
Lemma Uint32_at data pre u post z :
  data = pre ++ u ++ post → length u = 4%nat → z = len pre →
  Uint32 opts data z = Ok (get_uint o u).
Proof.
  intros -> Hu ->. unfold Uint32. rewrite slice_from_Ok by len_solve. run.
  rewrite Nat2Z.id, drop_app_length, length_app, Hu, bool_decide_eq_false_2 by lia.
  by rewrite take_app_length' by done.
Qed.

Lemma Uint32_head u post :
  length u = 4%nat → Uint32 opts (u ++ post) 0 = Ok (get_uint o u).
Proof. intros. by apply (Uint32_at _ [] u post). Qed.

Lemma get_u32o v : get_uint o (u32o o v) = wrapU 32 v.
Proof. unfold u32o. apply get_put_uint, wrapU_range. lia. Qed.

Lemma get_s32o v : in_s 32 v → wrapS 32 (get_uint o (u32o o v)) = v.
Proof. intros. rewrite get_u32o. apply wrapS_wrapU_id; [lia|done]. Qed.

Lemma PackBuffer_packet `{!WriterAlloc} m :
  20 + len (Buf m) ≤ bufferBytes opts → 20 + len (Buf m) ≤ MaxInt32 →
  makes (PackBuffer opts m) (packet o 0 m).
Proof.
  intros Hb Hm. unfold PackBuffer, defaultHeaderSize.
  rewrite bool_decide_eq_false_2 by lia. rewrite bool_decide_eq_false_2 by lia.
  destruct (MallocWriter_clean 20) as (w & -> & Hw); [lia|]. run.
  pose proof (clean_data w Hw) as Hd. destruct Hw as [Hw _].
  do 5 enc_step.
  assert (E : Writer.data w4 ++ Buf m = packet o 0 m).
  { unfold packet, u32o. repeat match goal with H : Writer.data _ = _ |- _ => rewrite H; clear H end.
    rewrite ?fmap_cons, ?fmap_nil. cbn [concat]. rewrite ?app_nil_r, <- ?app_assoc, app_nil_l.
    rewrite wrapS_id by (unfold in_s, MaxInt32 in *; lia). done. }
  destruct (Tree.NewNocopyBuffer_solid [inl (BWriter w4); inl (BRaw (Buf m))]) as [Hs Hdat].
  { repeat first [assumption | exact I | constructor]. }
  eexists. split_and!; [done|done|]. rewrite Hdat, !fmap_cons. cbn [concat fmap list_fmap].
  rewrite app_nil_r, elem_data_raw. unfold Tree.elem_data. cbn. by rewrite app_nil_r.
Qed.

(** A packet of fitting size is unpacked; what follows it is left. *)
Lemma UnpackMessage_packet f m rest :
  message_ok m → Z.land (wrapS 32 (wrapU 32 f)) dataBit = dataBit →
  20 + len (Buf m) ≤ bufferBytes opts → 20 + len (Buf m) < 2 ^ 32 →
  UnpackMessage opts (packet o f m ++ rest) = Ok (Some (m, 20 + len (Buf m))).
Proof.
  intros (Hs & Hg & Hi) Hf Hb Hsz. unfold UnpackMessage.
  pose proof (length_packet o f m) as Hl.
  rewrite bool_decide_eq_false_2 by (rewrite length_app; unfold sizeBytes; lia).
  set (data := packet o f m ++ rest).
  set (s := u32o o (20 + len (Buf m))). set (F := u32o o f). set (G := u32o o (GameID m)).
  set (I := u32o o (MessageID m)). set (Q := u32o o (Seq m)).
  assert (Ed : data = s ++ F ++ G ++ I ++ Q ++ Buf m ++ rest)
    by (unfold data, packet; by rewrite <- !app_assoc).
  assert (Hlen : ∀ v, length (u32o o v) = 4%nat) by apply length_u32o.
  rewrite (Uint32_at data [] s (F ++ G ++ I ++ Q ++ Buf m ++ rest) 0)
    by (exact Ed || apply Hlen || done).
  run. assert (get_uint o s = 20 + len (Buf m)) as ->
    by (unfold s; rewrite get_u32o; apply wrapU_id; unfold in_u; lia).
  unfold defaultHeaderSize. rewrite bool_decide_eq_false_2 by lia.
  rewrite bool_decide_eq_false_2 by (unfold data; rewrite length_app; lia).
  rewrite (Uint32_at data s F (G ++ I ++ Q ++ Buf m ++ rest) 4)
    by (exact Ed || apply Hlen || (unfold s; len_solve)).
  cbn [fmap outcome_fmap]. run.
  rewrite bool_decide_eq_false_2 by (unfold F; rewrite get_u32o, Hf; by intros []).
  rewrite (Uint32_at data (s ++ F) G (I ++ Q ++ Buf m ++ rest) 8)
    by (try apply Hlen; try (rewrite <- ?app_assoc; exact Ed); unfold s, F; len_solve).
  cbn [fmap outcome_fmap]. unfold G at 1. rewrite get_s32o by done. run.
  rewrite (Uint32_at data (s ++ F ++ G) I (Q ++ Buf m ++ rest) 12)
    by (try apply Hlen; try (rewrite <- ?app_assoc; exact Ed); unfold s, F, G; len_solve).
  cbn [fmap outcome_fmap]. unfold I at 1. rewrite get_s32o by done. run.
  rewrite (Uint32_at data (s ++ F ++ G ++ I) Q (Buf m ++ rest) 16)
    by (try apply Hlen; try (rewrite <- ?app_assoc; exact Ed); unfold s, F, G, I; len_solve).
  cbn [fmap outcome_fmap]. unfold Q at 1. rewrite get_s32o by done. run.
  rewrite (slice_mid data (s ++ F ++ G ++ I ++ Q) (Buf m) rest)
    by (try (rewrite <- ?app_assoc; exact Ed); unfold s, F, G, I, Q; len_solve).
  run. by destruct m.
Qed.

(** Any 4 bytes are the field of their value. *)
Lemma u32o_get l : Forall is_byte l → length l = 4%nat →
  u32o o (wrapS 32 (get_uint o l)) = l ∧ u32o o (get_uint o l) = l ∧ in_u 32 (get_uint o l).
Proof.
  intros Hb Hl. pose proof (get_uint_range o l Hb) as Hr. rewrite Hl in Hr.
  change (256 ^ Z.of_nat 4) with (2 ^ 32) in Hr. unfold u32o.
  rewrite wrapU_wrapS, wrapU_id by (done || lia).
  assert (put_uint o 4 (get_uint o l) = l) by (rewrite <- Hl; by apply put_get_uint).
  by split_and!.
Qed.

Lemma split_at {A} (l : list A) (n : nat) :
  (n ≤ length l)%nat → ∃ a b, l = a ++ b ∧ length a = n.
Proof.
  intros H. exists (take n l), (drop n l). rewrite take_drop, length_take. split; [done|lia].
Qed.

(** A long enough piece of data is a packet and what follows it. *)
Lemma data_packet data size :
  Forall is_byte data → 20 ≤ size ≤ len data → get_uint o (take 4 data) = size →
  ∃ f m rest, data = packet o f m ++ rest ∧ 20 + len (Buf m) = size ∧ message_ok m.
Proof.
  intros Hb Hs Hsz.
  destruct (split_at data 4) as (s & d1 & -> & Ls); [lia|].
  destruct (split_at d1 4) as (F & d2 & -> & LF); [len_solve|].
  destruct (split_at d2 4) as (G & d3 & -> & LG); [len_solve|].
  destruct (split_at d3 4) as (I & d4 & -> & LI); [len_solve|].
  destruct (split_at d4 4) as (Q & d5 & -> & LQ); [len_solve|].
  destruct (split_at d5 (Z.to_nat (size - 20))) as (body & rest & -> & Lb); [len_solve|].
  rewrite !Forall_app in Hb. destruct Hb as (Bs & BF & BG & BI & BQ & _).
  rewrite take_app_length' in Hsz by done.
  destruct (u32o_get s Bs Ls) as (_ & Es & Rs). destruct (u32o_get F BF LF) as (_ & EF & _).
  destruct (u32o_get G BG LG) as (EG & _ & _). destruct (u32o_get I BI LI) as (EI & _ & _).
  destruct (u32o_get Q BQ LQ) as (EQ & _ & _).
  exists (get_uint o F), (mkMessage (wrapS 32 (get_uint o Q)) (wrapS 32 (get_uint o G))
    (wrapS 32 (get_uint o I)) body), rest.
  split_and!.
  - unfold packet. cbn [Buf Packet.Seq GameID MessageID].
    replace (20 + len body) with (get_uint o s) by lia.
    rewrite Es, EF, EG, EI, EQ. by rewrite <- !app_assoc.
  - cbn. lia.
  - split_and!; apply wrapS_range; lia.
Qed.

Lemma dataBit_any v : Z.land v dataBit = dataBit.
Proof. apply Z.land_0_r. Qed.

(** What [UnpackMessage] says of any data. *)
Lemma UnpackMessage_cases data :
  Forall is_byte data → bufferBytes opts < 2 ^ 31 →
  let size := get_uint o (take 4 data) in
  if bool_decide (len data < 4) then UnpackMessage opts data = Ok None
  else if bool_decide (size < 20 ∨ bufferBytes opts < size)
  then UnpackMessage opts data = Err ErrInvalidMessage
  else if bool_decide (len data < size) then UnpackMessage opts data = Ok None
  else ∃ f m rest, data = packet o f m ++ rest ∧ 20 + len (Buf m) = size ∧ message_ok m ∧
       UnpackMessage opts data = Ok (Some (m, size)).
Proof.
  intros Hb Hbuf size. case_bool_decide as H4.
  { unfold UnpackMessage, sizeBytes. by rewrite bool_decide_eq_true_2. }
  assert (E0 : Uint32 opts data 0 = Ok size).
  { apply (Uint32_at data [] (take 4 data) (drop 4 data));
      [by rewrite app_nil_l, take_drop|rewrite length_take; lia|done]. }
  case_bool_decide as Hs.
  { unfold UnpackMessage, sizeBytes, defaultHeaderSize.
    rewrite bool_decide_eq_false_2, E0 by done. run. by rewrite bool_decide_eq_true_2. }
  case_bool_decide as Hl.
  { unfold UnpackMessage, sizeBytes, defaultHeaderSize.
    rewrite bool_decide_eq_false_2, E0 by done. run.
    rewrite bool_decide_eq_false_2 by done. by rewrite bool_decide_eq_true_2. }
  destruct (data_packet data size) as (f & m & rest & -> & Hm & Hok); [done|lia|done|].
  exists f, m, rest. split_and!; [done..|]. rewrite <- Hm.
  apply UnpackMessage_packet; [done|apply dataBit_any|lia|lia].
Qed.

(** [ReadMessage] cuts the frame of [PackMessage] off the stream. *)
Lemma ReadMessage_packet m rest :
  20 + len (Buf m) ≤ MaxInt32 →
  let bs := packet o 0 m ++ [0; 0; 0; 0] in
  ReadMessage opts (bs ++ rest) = Ok (bs, rest).
Proof.
  intros Hm bs. unfold MaxInt32 in Hm. set (size := 20 + len (Buf m)).
  assert (Hbs : ∃ tl, bs = u32o o size ++ tl ∧ len tl = size).
  { unfold bs, packet. rewrite <- app_assoc. eexists. split; [done|].
    autorewrite with golen. cbn [length]. unfold size. lia. }
  destruct Hbs as (tl & -> & Hl). unfold ReadMessage. rewrite <- app_assoc.
  rewrite ReadFull_app by (unfold sizeBytes; rewrite length_u32o; done). run.
  rewrite get_u32o, wrapU_id by (unfold in_u, size; lia).
  rewrite bool_decide_eq_false_2 by (unfold size; lia).
  rewrite wrapU_id by (unfold in_u, sizeBytes, size; lia).
  unfold slice_check, sizeBytes. rewrite bool_decide_eq_true_2 by (unfold size; lia). run.
  rewrite ReadFull_app by lia. run. done.
Qed.

End layout.

(** ** Properties *)

(** C30. A message survives the wire: for every message whose packet is within
    the configured size, [PackMessage] makes a frame that [ReadMessage] cuts
    off a stream whole and [UnpackMessage] turns back into the message; and
    the packet of [PackBuffer] is unpacked to the message as well, consuming
    all of it. *)
Theorem message_roundtrip `{!WriterAlloc} opts m :
  message_ok m → 20 + len (Buf m) ≤ bufferBytes opts → 20 + len (Buf m) ≤ MaxInt32 →
  (∃ bs, PackMessage opts m = Ok bs ∧ len bs = 24 + len (Buf m) ∧
     (∀ rest, ReadMessage opts (bs ++ rest) = Ok (bs, rest)) ∧
     UnpackMessage opts bs = Ok (Some (m, 20 + len (Buf m)))) ∧
  (∃ b bs, PackBuffer opts m = Ok b ∧ Tree.Bytes b = Ok bs ∧ len bs = 20 + len (Buf m) ∧
     ∀ rest, UnpackMessage opts (bs ++ rest) = Ok (Some (m, 20 + len (Buf m)))).
Proof.
  intros Hok Hb Hm. assert (20 + len (Buf m) < 2 ^ 32) by (unfold MaxInt32 in *; lia).
  split.
  - eexists. split_and!; [apply PackMessage_packet; lia| | |].
    + pose proof (length_packet (byteOrder opts) 0 m). rewrite length_app. cbn. lia.
    + intros rest. by apply ReadMessage_packet.
    + by apply UnpackMessage_packet.
  - destruct (makes_bytes _ _ (PackBuffer_packet opts m Hb Hm)) as (b & -> & Hbs & _).
    exists b, (packet (byteOrder opts) 0 m). split_and!; [done|done|apply length_packet|].
    intros rest. by apply UnpackMessage_packet.
Qed.

(** [UnpackMessage] is safe on any bytes: it never panics; it waits (a half
    packet) exactly while the size field or the announced bytes are missing, it
    refuses exactly the sizes out of bounds, and otherwise the data is the
    packet of the message it returns, of the length it returns, followed by
    what it leaves. *)
Theorem unpack_classifies opts data :
  Forall is_byte data → bufferBytes opts < 2 ^ 31 →
  let size := get_uint (byteOrder opts) (take 4 data) in
  (UnpackMessage opts data = Ok None ↔
     len data < 4 ∨ (20 ≤ size ≤ bufferBytes opts ∧ len data < size)) ∧
  (UnpackMessage opts data = Err ErrInvalidMessage ↔
     4 ≤ len data ∧ (size < 20 ∨ bufferBytes opts < size)) ∧
  (∀ m n, UnpackMessage opts data = Ok (Some (m, n)) →
     ∃ f rest, data = packet (byteOrder opts) f m ++ rest ∧ message_ok m ∧
       n = size ∧ n = 20 + len (Buf m)) ∧
  UnpackMessage opts data ≠ Panic.
Proof.
  intros Hb Hbuf size. pose proof (UnpackMessage_cases opts data Hb Hbuf) as H.
  cbn zeta in H. fold size in H.
  repeat (case_bool_decide; [rewrite H; split_and!; try done; split; try done; lia|]).
  destruct H as (f & m & rest & Hd & Hl & Hok & ->).
  split_and!; try done; try (split; [done|lia]).
  intros m' n [= <- <-]. by exists f, rest.
Qed.

(** Unpacking is incremental: given the first [n] bytes of a packet and
    what follows it, [UnpackMessage] waits while the packet is incomplete and
    returns the message as soon as it is complete, however much follows. *)
Theorem half_packets_wait opts m rest n :
  message_ok m → 20 + len (Buf m) ≤ bufferBytes opts → bufferBytes opts < 2 ^ 31 →
  UnpackMessage opts (take n (packet (byteOrder opts) 0 m ++ rest)) =
  if decide (Z.of_nat n < 20 + len (Buf m)) then Ok None
  else Ok (Some (m, 20 + len (Buf m))).
Proof.
  intros Hok Hb Hbuf. set (p := packet (byteOrder opts) 0 m).
  pose proof (length_packet (byteOrder opts) 0 m) as Hp. fold p in Hp.
  case_decide as Hn.
  - rewrite take_app_le by lia. unfold UnpackMessage, sizeBytes, defaultHeaderSize.
    assert (Hl : length (take n p) = n) by (rewrite length_take; lia).
    case_bool_decide as H4; [done|].
    assert (E : Uint32 opts (take n p) 0 = Ok (20 + len (Buf m))).
    { rewrite (Uint32_at opts _ [] (u32o (byteOrder opts) (20 + len (Buf m)))
        (drop 4 (take n p))); [|..|apply length_u32o|done].
      - rewrite get_u32o, wrapU_id; [done|]. unfold in_u. lia.
      - rewrite <- (take_drop 4 (take n p)) at 1. rewrite app_nil_l. f_equal.
        rewrite take_take, Nat.min_l by lia. unfold p, packet.
        by rewrite take_app_length' by (by rewrite length_u32o). }
    rewrite E. run. rewrite bool_decide_eq_false_2 by lia.
    by rewrite bool_decide_eq_true_2 by lia.
  - rewrite take_app_ge by lia. apply UnpackMessage_packet; [done|done|done|lia].
Qed.

(** The packet of [PackBuffer] is not a wire frame: [ReadMessage] waits for
    four more bytes (as the package's own test says). *)
Lemma PackBuffer_not_wire opts m :
  message_ok m → 20 + len (Buf m) ≤ MaxInt32 →
  ∃ e, ReadMessage opts (packet (byteOrder opts) 0 m) = Err e.
Proof.
  intros Hok Hm. unfold MaxInt32 in Hm. unfold ReadMessage, packet.
  rewrite ReadFull_app by (rewrite length_u32o; done). run.
  rewrite get_u32o, wrapU_id by (unfold in_u; lia). rewrite bool_decide_eq_false_2 by lia.
  rewrite wrapU_id by (unfold in_u, sizeBytes; lia).
  unfold slice_check. rewrite bool_decide_eq_true_2 by (unfold sizeBytes; lia). run.
  match goal with |- context [ReadFull ?s ?n] =>
    destruct (ReadFull_cases s n) as [(a & b & E & Hl & _)|[_ [e ->]]] end;
    [unfold sizeBytes; lia| |by eexists].
  exfalso. apply (f_equal length) in E. autorewrite with golen in E. unfold sizeBytes in Hl. lia.
Qed.

(** [PackMessage] accepts bodies whose packet [UnpackMessage] then refuses: it
    compares the body alone with the limit, not the packet. *)
Lemma PackMessage_unreadable opts m :
  message_ok m → bufferBytes opts < 20 + len (Buf m) → len (Buf m) ≤ bufferBytes opts →
  20 + len (Buf m) ≤ MaxInt32 →
  ∃ bs, PackMessage opts m = Ok bs ∧ UnpackMessage opts bs = Err ErrInvalidMessage.
Proof.
  intros Hok H1 H2 Hm. eexists. split; [by apply PackMessage_packet|].
  unfold UnpackMessage, packet, sizeBytes. unfold MaxInt32 in Hm.
  rewrite bool_decide_eq_false_2 by (autorewrite with golen; lia).
  rewrite <- app_assoc, Uint32_head by apply length_u32o. run. rewrite get_u32o, wrapU_id by (unfold in_u; lia).
  by rewrite bool_decide_eq_true_2 by lia.
Qed.

(** ** Witnesses *)

#[local] Existing Instance default_alloc.
Definition example_message : Message := mkMessage 1 1 1001 [104; 101; 108; 108; 111].

Lemma message_roundtrip_witness :
  ∃ bs, PackMessage defaultOptions example_message = Ok bs ∧ len bs = 29 ∧
     (∀ rest, ReadMessage defaultOptions (bs ++ rest) = Ok (bs, rest)) ∧
     UnpackMessage defaultOptions bs = Ok (Some (example_message, 25)).
Proof.
  apply (message_roundtrip defaultOptions example_message);
    by apply (bool_decide_unpack _).
Defined.

Lemma unpack_classifies_witness :
  UnpackMessage defaultOptions [0; 0; 0; 3; 9] = Err ErrInvalidMessage.
Proof.
  apply (unpack_classifies defaultOptions [0; 0; 0; 3; 9]);
    [by repeat constructor|done|].
  split; [done|by left].
Defined.

Lemma half_packets_wait_witness :
  UnpackMessage defaultOptions (take 10 (packet BigEndian 0 example_message ++ [7])) = Ok None.
Proof.
  exact (half_packets_wait defaultOptions example_message [7] 10
    ltac:(by apply (bool_decide_unpack _)) ltac:(by apply (bool_decide_unpack _))
    ltac:(by apply (bool_decide_unpack _))).
Defined.
