(* ===== verification/Registry.v ===== *)
(** * registry: service instances, versions and service statuses

    registry/version.go and registry/service_status.go.  Strings are their
    bytes; the parts of strings and strconv the code uses are written out. *)
From stdpp Require Import fin_maps.
From S2P Require Import Prelude.
#[local] Close Scope nat_scope.
Open Scope Z_scope.

(** ASCII text as bytes. *)
Definition text (s : String.string) : list Z :=
  (λ a, Z.of_nat (Ascii.nat_of_ascii a)) <$> String.list_ascii_of_string s.

(** ** strings and strconv *)

(** [strings.Split(s, ".")]: at least one part. *)
Fixpoint split_dot (s part : list Z) : list (list Z) :=
  match s with
  | [] => [rev part]
  | c :: s => if bool_decide (c = 46) then rev part :: split_dot s [] else split_dot s (c :: part)
  end.
Definition Split (s : list Z) : list (list Z) := split_dot s [].

(** The ASCII white space of [strings.TrimSpace]; the wider Unicode spaces
    start with a byte that is no digit, so that a part holding them is no
    number either way. *)
Definition is_space (c : Z) : bool := bool_decide (c = 32 ∨ 9 ≤ c ≤ 13).
Fixpoint drop_spaces (s : list Z) : list Z :=
  match s with
  | [] => []
  | c :: s' => if is_space c then drop_spaces s' else s
  end.
Definition TrimSpace (s : list Z) : list Z := rev (drop_spaces (rev (drop_spaces s))).

(** Decimal digits, all of [s]. *)
Fixpoint digits (s : list Z) (acc : Z) : option Z :=
  match s with
  | [] => Some acc
  | c :: s => if bool_decide (48 ≤ c ≤ 57) then digits s (acc * 10 + (c - 48)) else None
  end.

(** [strconv.ParseInt(s, 10, 64)]: a sign, at least one digit, in range. *)
Definition ParseInt (s : list Z) : option Z :=
  let '(neg, ds) := match s with
                    | 45 :: ds => (true, ds) | 43 :: ds => (false, ds) | _ => (false, s) end in
  match ds with
  | [] => None
  | _ => n ← digits ds 0;
         let n := if neg : bool then - n else n in
         if bool_decide (in_s 64 n) then Some n else None
  end.

(** ** Versions *)

Definition parseVersionPart (part : list Z) : Z := default 0 (ParseInt (TrimSpace part)).

(** The loop [for i := range n] over the parts that are left of both. *)
Fixpoint compare_parts (fuel : nat) (a b : list (list Z)) : Z :=
  match fuel with
  | O => 0
  | S fuel =>
      let va := match a with [] => 0 | p :: _ => parseVersionPart p end in
      let vb := match b with [] => 0 | p :: _ => parseVersionPart p end in
      if bool_decide (va > vb) then 1
      else if bool_decide (va < vb) then -1
      else compare_parts fuel (tail a) (tail b)
  end.

Definition CompareVersion (a b : list Z) : Z :=
  if bool_decide (a = b) then 0 else
  let a := if bool_decide (a = []) then [48] else a in
  let b := if bool_decide (b = []) then [48] else b in
  let partsA := Split a in
  let partsB := Split b in
  compare_parts (max (length partsB) (length partsA)) partsA partsB.

Fixpoint max_version (versions : list (list Z)) (best : list Z) : list Z :=
  match versions with
  | [] => best
  | v :: versions =>
      max_version versions (if bool_decide (CompareVersion v best > 0) then v else best)
  end.

Definition MaxVersion (versions : list (list Z)) : list Z :=
  match versions with [] => [] | v :: versions => max_version versions v end.

(** ** Instances *)

Inductive ServiceStatus := ServiceStatusNormal | ServiceStatusGray | ServiceStatusTest.
#[export] Instance ServiceStatus_eq_dec : EqDecision ServiceStatus.
Proof. solve_decision. Defined.
#[export] Instance ServiceStatus_countable : Countable ServiceStatus.
Proof.
  refine (inj_countable'
    (λ s, match s with ServiceStatusNormal => 0%nat | ServiceStatusGray => 1%nat
                     | ServiceStatusTest => 2%nat end)
    (λ n, match n with O => ServiceStatusNormal | 1%nat => ServiceStatusGray
                     | _ => ServiceStatusTest end) _).
  by intros [].
Defined.

Record Route := mkRoute {
  route_ID : Z;
  route_Internal : bool;
  route_Stateful : bool;
  route_Authorized : bool;
}.

Record ServiceInstance := mkInstance {
  ins_ID : list Z;
  ins_Name : list Z;
  ins_Kind : list Z;
  ins_Alias : list Z;
  ins_State : list Z;
  ins_Events : list Z;
  ins_Routes : list Route;
  ins_Services : list (list Z);
  ins_Endpoint : list Z;
  ins_Weight : Z;
  ins_GameID : Z;
  ins_Version : list Z;
  ins_Metadata : option (gmap (list Z) (list Z));
}.

Definition MetadataServiceStatusKey : list Z := text "service_status".

Definition ParseServiceStatus (status : list Z) : ServiceStatus :=
  if bool_decide (status = text "gray") then ServiceStatusGray
  else if bool_decide (status = text "test") then ServiceStatusTest
  else ServiceStatusNormal.

(** [ServiceStatusOf]; a missing key reads as the empty string. *)
Definition ServiceStatusOf (ins : option ServiceInstance) : ServiceStatus :=
  match ins with
  | None => ServiceStatusNormal
  | Some ins =>
      match ins_Metadata ins with
      | None => ServiceStatusNormal
      | Some m => ParseServiceStatus (default [] (m !! MetadataServiceStatusKey))
      end
  end.

Definition PreferredServiceStatuses (target : ServiceStatus) : list ServiceStatus :=
  match target with
  | ServiceStatusTest => [ServiceStatusTest; ServiceStatusGray; ServiceStatusNormal]
  | ServiceStatusGray => [ServiceStatusGray; ServiceStatusNormal]
  | ServiceStatusNormal => [ServiceStatusNormal]
  end.

(** The highest version per group: the loop the three functions share, over
    the instances with a key. *)
Definition raise_max {K} `{Countable K} (m : gmap K (list Z)) (k : K) (v : list Z)
  : gmap K (list Z) :=
  match m !! k with
  | Some cur => if bool_decide (CompareVersion v cur > 0) then <[k := v]> m else m
  | None => <[k := v]> m
  end.

Fixpoint max_by {K} `{Countable K} (key : ServiceInstance → option K)
    (services : list (option ServiceInstance)) (m : gmap K (list Z)) : gmap K (list Z) :=
  match services with
  | [] => m
  | None :: services => max_by key services m
  | Some ins :: services =>
      match key ins with
      | None => max_by key services m
      | Some k => max_by key services (raise_max m k (ins_Version ins))
      end
  end.

Definition MaxVersionForGame (services : list (option ServiceInstance)) : gmap Z (list Z) :=
  max_by (λ ins, if bool_decide (ins_Kind ins = text "node") then Some (ins_GameID ins) else None)
    services ∅.

Definition MaxVersionByKindAlias (services : list (option ServiceInstance)) (kind : list Z)
  : gmap (list Z) (list Z) :=
  max_by (λ ins, if bool_decide (ins_Kind ins = kind) then Some (ins_Alias ins) else None)
    services ∅.

(** A map of maps in the code: an inner map exists for a game exactly when some
    status has an entry, so the pair is the key here. *)
Definition MaxVersionForGameByServiceStatus (services : list (option ServiceInstance))
  : gmap (Z * ServiceStatus) (list Z) :=
  max_by (λ ins, if bool_decide (ins_Kind ins = text "node")
                 then Some (ins_GameID ins, ServiceStatusOf (Some ins)) else None)
    services ∅.

Definition IsLatestVersion (ins : option ServiceInstance) (maxVersion : list Z) : bool :=
  match ins with
  | None => false
  | Some ins => bool_decide (0 ≤ CompareVersion (ins_Version ins) maxVersion)
  end.

(** ** Versions are totally preordered *)

(** The lexicographic comparison of the first [n] numbers. *)
Fixpoint lex (n : nat) (f g : nat → Z) : comparison :=
  match n with
  | O => Eq
  | S n => match f O ?= g O with Eq => lex n (λ i, f (S i)) (λ i, g (S i)) | c => c end
  end.

Definition of_comparison (c : comparison) : Z :=
  match c with Eq => 0 | Lt => -1 | Gt => 1 end.

Definition part_at (l : list (list Z)) (i : nat) : Z :=
  match l !! i with Some p => parseVersionPart p | None => 0 end.

Lemma lex_ext n f g f' g' :
  (∀ i, f i = f' i) → (∀ i, g i = g' i) → lex n f g = lex n f' g'.
Proof.
  revert f g f' g'. induction n as [|n IH]; intros f g f' g' Hf Hg; [done|].
  cbn [lex]. rewrite Hf, Hg. destruct (_ ?= _); try done. by apply IH.
Qed.

Lemma compare_parts_lex n a b :
  compare_parts n a b = of_comparison (lex n (part_at a) (part_at b)).
Proof.
  revert a b. induction n as [|n IH]; intros a b; [done|]. cbn [compare_parts lex].
  assert (H0 : ∀ l, part_at l 0 = match l with [] => 0 | p :: _ => parseVersionPart p end)
    by (by intros []).
  rewrite !H0. set (va := match a with [] => 0 | _ => _ end).
  set (vb := match b with [] => 0 | _ => _ end).
  destruct (Z.compare_spec va vb) as [E|E|E].
  - rewrite bool_decide_eq_false_2, bool_decide_eq_false_2 by lia. rewrite IH. f_equal.
    apply lex_ext; intros i; unfold part_at; [by destruct a|by destruct b].
  - rewrite bool_decide_eq_false_2, bool_decide_eq_true_2 by lia. done.
  - by rewrite bool_decide_eq_true_2 by lia.
Qed.

(** Past the parts of both, only zeros are compared. *)
Lemma lex_pad n k f g :
  (∀ i, (n ≤ i)%nat → f i = 0 ∧ g i = 0) → lex (n + k) f g = lex n f g.
Proof.
  revert f g. induction n as [|n IH]; intros f g H; cbn [Nat.add lex].
  - revert f g H. induction k as [|k IHk]; intros f g H; [done|]. cbn [lex].
    destruct (H 0%nat) as [-> ->]; [lia|]. apply IHk. intros i _. apply H. lia.
  - destruct (_ ?= _); try done. apply IH. intros i Hi. apply H. lia.
Qed.

Lemma part_at_end l i : (length l ≤ i)%nat → part_at l i = 0.
Proof. intros. unfold part_at. by rewrite lookup_ge_None_2. Qed.

Definition parts (v : list Z) : list (list Z) := Split (if bool_decide (v = []) then [48] else v).

Lemma lex_refl n f : lex n f f = Eq.
Proof. revert f. induction n; intros f; [done|]. cbn. by rewrite Z.compare_refl. Qed.

(** [CompareVersion] is the comparison of the numbers, to any depth that
    covers both versions. *)
Lemma CompareVersion_lex a b n :
  (length (parts a) ≤ n)%nat → (length (parts b) ≤ n)%nat →
  CompareVersion a b = of_comparison (lex n (part_at (parts a)) (part_at (parts b))).
Proof.
  intros Ha Hb. unfold CompareVersion. case_bool_decide as E; [subst b; by rewrite lex_refl|].
  fold (parts a) (parts b). rewrite compare_parts_lex. f_equal.
  replace n with (max (length (parts b)) (length (parts a)) +
    (n - max (length (parts b)) (length (parts a))))%nat by lia.
  symmetry. apply lex_pad. intros i Hi. split; apply part_at_end; lia.
Qed.

Lemma lex_antisym n f g : lex n g f = CompOpp (lex n f g).
Proof.
  revert f g. induction n as [|n IH]; intros f g; [done|]. cbn [lex].
  rewrite (Z.compare_antisym (f 0%nat) (g 0%nat)). destruct (f 0%nat ?= g 0%nat); try done.
  apply IH.
Qed.

(** "At most", transitively. *)
Lemma lex_trans n f g h :
  lex n f g ≠ Gt → lex n g h ≠ Gt → lex n f h ≠ Gt.
Proof.
  revert f g h. induction n as [|n IH]; intros f g h; [done|]. cbn [lex].
  destruct (Z.compare_spec (f 0%nat) (g 0%nat)) as [Efg|Efg|Efg];
    destruct (Z.compare_spec (g 0%nat) (h 0%nat)) as [Egh|Egh|Egh]; try done; intros H1 H2.
  - rewrite Efg, Egh, Z.compare_refl. by eapply IH.
  - replace (f 0%nat ?= h 0%nat) with Lt by (symmetry; apply Z.compare_lt_iff; lia). done.
  - replace (f 0%nat ?= h 0%nat) with Lt by (symmetry; apply Z.compare_lt_iff; lia). done.
  - replace (f 0%nat ?= h 0%nat) with Lt by (symmetry; apply Z.compare_lt_iff; lia). done.
Qed.

Lemma CompareVersion_antisym a b : CompareVersion b a = - CompareVersion a b.
Proof.
  set (n := max (length (parts a)) (length (parts b))).
  rewrite (CompareVersion_lex a b n), (CompareVersion_lex b a n) by lia.
  rewrite lex_antisym. by destruct (lex n _ _).
Qed.

Lemma CompareVersion_le a b n :
  (length (parts a) ≤ n)%nat → (length (parts b) ≤ n)%nat →
  CompareVersion a b ≤ 0 ↔ lex n (part_at (parts a)) (part_at (parts b)) ≠ Gt.
Proof.
  intros. rewrite (CompareVersion_lex a b n) by done.
  destruct (lex n _ _); cbn; split; done || lia.
Qed.

Lemma CompareVersion_trans a b c :
  CompareVersion a b ≤ 0 → CompareVersion b c ≤ 0 → CompareVersion a c ≤ 0.
Proof.
  set (n := max (length (parts a)) (max (length (parts b)) (length (parts c)))).
  rewrite !(CompareVersion_le _ _ n) by lia. apply lex_trans.
Qed.

Lemma CompareVersion_refl a : CompareVersion a a = 0.
Proof. unfold CompareVersion. by rewrite bool_decide_eq_true_2. Qed.

(** ** The highest version of a group *)

(** [v] is a highest of [vs]. *)
Definition highest (v : list Z) (vs : list (list Z)) : Prop :=
  v ∈ vs ∧ ∀ x, x ∈ vs → CompareVersion x v ≤ 0.

(** The versions of the instances with key [k]. *)
Fixpoint versions_of {K} `{EqDecision K} (key : ServiceInstance → option K) (k : K)
    (services : list (option ServiceInstance)) : list (list Z) :=
  match services with
  | [] => []
  | Some ins :: services =>
      if bool_decide (key ins = Some k) then ins_Version ins :: versions_of key k services
      else versions_of key k services
  | None :: services => versions_of key k services
  end.

Lemma raise_max_lookup {K} `{Countable K} (m : gmap K (list Z)) k v k' :
  raise_max m k v !! k' =
  if decide (k' = k) then
    Some (match m !! k with
          | Some cur => if bool_decide (CompareVersion v cur > 0) then v else cur
          | None => v
          end)
  else m !! k'.
Proof.
  unfold raise_max. case_decide as Hk.
  - subst k'. destruct (m !! k) as [cur|] eqn:E.
    + case_bool_decide; [by rewrite lookup_insert_eq|done].
    + by rewrite lookup_insert_eq.
  - destruct (m !! k) as [cur|] eqn:E; [case_bool_decide|];
      rewrite ?lookup_insert_ne by done; done.
Qed.

(** After the loop the map holds, for each key, a highest of what it held and
    of the versions of that key. *)
Lemma max_by_spec {K} `{Countable K} (key : ServiceInstance → option K) services m k :
  match max_by key services m !! k with
  | Some v => highest v (option_list (m !! k) ++ versions_of key k services)
  | None => m !! k = None ∧ versions_of key k services = []
  end.
Proof.
  revert m. induction services as [|[ins|] services IH]; intros m; cbn [max_by versions_of].
  - rewrite app_nil_r. destruct (m !! k) as [v|]; [|done].
    split; [by left|]. intros x [->|Hx]%elem_of_cons; [by rewrite CompareVersion_refl|].
    by apply elem_of_nil in Hx.
  - destruct (key ins) as [k0|] eqn:Ek.
    + specialize (IH (raise_max m k0 (ins_Version ins))). rewrite raise_max_lookup in IH.
      case_decide as Hk.
      * subst k0. rewrite bool_decide_eq_true_2 by done.
        destruct (max_by _ _ _ !! k) as [v|]; [|by destruct IH].
        destruct IH as [Hin Hall]. cbn [option_list app] in *. split.
        -- destruct (m !! k) as [cur|]; [case_bool_decide|]; set_solver.
        -- intros x Hx. destruct (m !! k) as [cur|] eqn:Em; cbn [option_list app] in *.
           ++ case_bool_decide as Hgt.
              ** apply elem_of_cons in Hx as [->|Hx]; [|by apply Hall].
                 apply CompareVersion_trans with (ins_Version ins); [|apply Hall; by left].
                 rewrite CompareVersion_antisym. lia.
              ** apply elem_of_cons in Hx as [->|Hx]; [apply Hall; by left|].
                 apply elem_of_cons in Hx as [->|Hx]; [|apply Hall; by right].
                 apply CompareVersion_trans with cur; [lia|apply Hall; by left].
           ++ by apply Hall.
      * rewrite bool_decide_eq_false_2 by congruence. exact IH.
    + rewrite bool_decide_eq_false_2 by congruence. apply IH.
  - apply IH.
Qed.

Lemma versions_of_elem {K} `{EqDecision K} (key : ServiceInstance → option K) services k v :
  v ∈ versions_of key k services ↔
  ∃ ins, Some ins ∈ services ∧ key ins = Some k ∧ ins_Version ins = v.
Proof.
  induction services as [|[ins|] services IH]; cbn [versions_of]; [|case_bool_decide|];
    set_solver.
Qed.

(** Being latest of its table entry, for an instance of the list, is being at
    least as high as every instance of the group. *)
Lemma table_latest {K} `{Countable K} (key : ServiceInstance → option K) services k ins :
  Some ins ∈ services → key ins = Some k →
  ∃ v, max_by key services ∅ !! k = Some v ∧
       (IsLatestVersion (Some ins) v = true ↔
        ∀ ins', Some ins' ∈ services → key ins' = Some k →
                CompareVersion (ins_Version ins') (ins_Version ins) ≤ 0).
Proof.
  intros Hin Hk. pose proof (max_by_spec key services ∅ k) as Hs. rewrite lookup_empty in Hs.
  destruct (max_by _ _ _ !! k) as [v|].
  2:{ destruct Hs as [_ Hs]. exfalso.
      assert (ins_Version ins ∈ versions_of key k services) by (apply versions_of_elem; eauto).
      rewrite Hs in *. by eapply not_elem_of_nil. }
  exists v. split; [done|]. destruct Hs as [Hv Hmax]. cbn [option_list app] in *.
  unfold IsLatestVersion. rewrite bool_decide_eq_true. split.
  - intros Hle ins' Hin' Hk'. apply CompareVersion_trans with v.
    + apply Hmax, versions_of_elem. eauto.
    + rewrite CompareVersion_antisym. lia.
  - intros Hall. apply versions_of_elem in Hv as (ins' & Hin' & Hk' & <-).
    specialize (Hall ins' Hin' Hk'). rewrite CompareVersion_antisym. lia.
Qed.

(** ** Properties *)

(** The [i]-th number of a version, 0 past its end. *)
Definition number (v : list Z) (i : nat) : Z := part_at (parts v) i.

Lemma lex_Eq n f g : lex n f g = Eq ↔ ∀ i, (i < n)%nat → f i = g i.
Proof.
  revert f g. induction n as [|n IH]; intros f g; cbn [lex].
  - split; [lia|done].
  - destruct (Z.compare_spec (f 0%nat) (g 0%nat)) as [E|E|E].
    + rewrite IH. split.
      * intros Hi [|i] Hlt; [done|]. apply Hi. lia.
      * intros Hi i Hlt. apply Hi. lia.
    + split; [done|]. intros Hi. specialize (Hi 0%nat). lia.
    + split; [done|]. intros Hi. specialize (Hi 0%nat). lia.
Qed.

(** [CompareVersion] is the three-way result of a total preorder on all
    strings: it is antisymmetric and transitive, and two versions compare equal
    exactly when their numbers agree, missing numbers being zero (so "1.2"
    equals "1.2.0", and anything that is no number counts as 0). *)
Theorem compare_version_preorder a b c :
  (CompareVersion a b = -1 ∨ CompareVersion a b = 0 ∨ CompareVersion a b = 1) ∧
  CompareVersion b a = - CompareVersion a b ∧
  (CompareVersion a b ≤ 0 → CompareVersion b c ≤ 0 → CompareVersion a c ≤ 0) ∧
  (CompareVersion a b = 0 ↔ ∀ i, number a i = number b i).
Proof.
  set (n := max (length (parts a)) (length (parts b))).
  pose proof (CompareVersion_lex a b n ltac:(lia) ltac:(lia)) as E.
  split; [|split; [|split]].
  - rewrite E. destruct (lex n _ _); cbn; auto.
  - apply CompareVersion_antisym.
  - apply CompareVersion_trans.
  - rewrite E. split.
    + intros H i. destruct (decide (i < n)%nat) as [Hi|Hi].
      * assert (Heq : lex n (part_at (parts a)) (part_at (parts b)) = Eq)
          by (by destruct (lex n _ _)).
        by apply (proj1 (lex_Eq n _ _) Heq).
      * unfold number. by rewrite !part_at_end by lia.
    + intros H. replace (lex n _ _) with Eq; [done|]. symmetry. apply lex_Eq.
      intros i _. exact (H i).
Qed.

(** The version tables are right: for every game, every game and status, and
    every alias of a kind, the table holds a highest version among exactly the
    instances of that group, and has no entry when the group is empty. *)
Theorem version_tables_highest services :
  (∀ game, match MaxVersionForGame services !! game with
     | Some v => highest v (versions_of (λ ins, if bool_decide (ins_Kind ins = text "node")
                   then Some (ins_GameID ins) else None) game services)
     | None => versions_of (λ ins, if bool_decide (ins_Kind ins = text "node")
                   then Some (ins_GameID ins) else None) game services = []
     end) ∧
  (∀ k, match MaxVersionForGameByServiceStatus services !! k with
     | Some v => highest v (versions_of (λ ins, if bool_decide (ins_Kind ins = text "node")
                   then Some (ins_GameID ins, ServiceStatusOf (Some ins)) else None) k services)
     | None => versions_of (λ ins, if bool_decide (ins_Kind ins = text "node")
                   then Some (ins_GameID ins, ServiceStatusOf (Some ins)) else None) k services = []
     end) ∧
  (∀ kind alias, match MaxVersionByKindAlias services kind !! alias with
     | Some v => highest v (versions_of (λ ins, if bool_decide (ins_Kind ins = kind)
                   then Some (ins_Alias ins) else None) alias services)
     | None => versions_of (λ ins, if bool_decide (ins_Kind ins = kind)
                   then Some (ins_Alias ins) else None) alias services = []
     end).
Proof.
  split_and!; intros.
  - pose proof (max_by_spec (λ ins, if bool_decide (ins_Kind ins = text "node")
      then Some (ins_GameID ins) else None) services ∅ game) as H.
    rewrite lookup_empty in H. unfold MaxVersionForGame.
    destruct (max_by _ _ _ !! _); [exact H|apply H].
  - pose proof (max_by_spec (λ ins, if bool_decide (ins_Kind ins = text "node")
      then Some (ins_GameID ins, ServiceStatusOf (Some ins)) else None) services ∅ k) as H.
    rewrite lookup_empty in H. unfold MaxVersionForGameByServiceStatus.
    destruct (max_by _ _ _ !! _); [exact H|apply H].
  - pose proof (max_by_spec (λ ins, if bool_decide (ins_Kind ins = kind)
      then Some (ins_Alias ins) else None) services ∅ alias) as H.
    rewrite lookup_empty in H. unfold MaxVersionByKindAlias.
    destruct (max_by _ _ _ !! _); [exact H|apply H].
Qed.

(** [MaxVersion] of a list is a highest of it. *)
Lemma max_version_highest vs best :
  highest (max_version vs best) (best :: vs).
Proof.
  revert best. induction vs as [|v vs IH]; intros best; cbn [max_version].
  - split; [by left|]. intros x [->|Hx]%elem_of_cons; [by rewrite CompareVersion_refl|].
    by apply elem_of_nil in Hx.
  - destruct (IH (if bool_decide (CompareVersion v best > 0) then v else best)) as [Hin Hall].
    case_bool_decide as Hgt; (split; [set_solver|]); intros x Hx;
      repeat (apply elem_of_cons in Hx as [->|Hx]).
    + apply CompareVersion_trans with v; [rewrite CompareVersion_antisym; lia|apply Hall; by left].
    + apply Hall. by left.
    + apply Hall. by right.
    + apply Hall. by left.
    + apply CompareVersion_trans with best; [lia|apply Hall; by left].
    + apply Hall. by right.
Qed.

Lemma compare_version_example :
  CompareVersion (text "1.10") (text "1.9") = 1 ∧ CompareVersion (text "1.2") (text "1.2.0") = 0 ∧
  CompareVersion (text "v2") (text "0") = 0 ∧ CompareVersion [] (text "0.0.1") = -1.
Proof. by vm_compute. Qed.
