(* ===== verification/Dispatcher.v ===== *)
(** * dispatcher: routing a request to a node

    internal/dispatcher (abstract.go, gameRoute.go, event.go, dispatcher.go) and
    core/endpoint.  A route keeps the service endpoints of one game in lanes, one
    per status and state; a pick takes the first lane that is not empty in the
    order of preference, and chooses in it at random, in turn, or by weight. *)
From stdpp Require Import fin_maps.
From S2P Require Import Prelude Registry.
#[local] Close Scope nat_scope.
Open Scope Z_scope.

(** ** core/endpoint *)

(** net/url, as far as it is used. *)
Class Url := {
  URL : Type;
  url_Parse : list Z → option URL;
  Query_Get : URL → list Z → list Z;
  url_Host : URL → list Z;
}.

Inductive Dispatch := Random | RoundRobin | WeightRoundRobin.

Section dispatcher.
Context `{UU : Url}.

Record Endpoint := mkEndpoint { raw : URL; isSecure : bool }.

Definition ParseEndpoint (endpoint : list Z) : option Endpoint :=
  raw ← url_Parse endpoint;
  Some (mkEndpoint raw (bool_decide (Query_Get raw (text "is_secure") = text "true"))).

Definition Address (e : Endpoint) : list Z := url_Host (raw e).

(** ** abstract.go

    [se_ref] stands for the pointer; [currWeight] is the one field that is
    written after the allocation, and is kept by the route ([GameRoute] below),
    the only owner that reads or writes it. *)
Record serviceEndpoint := mkServiceEndpoint {
  se_ref : nat;
  insID : list Z;
  state : list Z;
  status : ServiceStatus;
  endpoint : Endpoint;
  weight : Z;
}.

Record abstract := mkAbstract {
  endpoints1 : list serviceEndpoint;
  endpoints2 : list serviceEndpoint;
  endpoints3 : list serviceEndpoint;
  endpoints4 : list serviceEndpoint;
  endpoints5 : gmap (list Z) serviceEndpoint;
  endpoints6 : list serviceEndpoint;
  endpoints7 : list serviceEndpoint;
  endpoints8 : list serviceEndpoint;
  endpoints9 : list serviceEndpoint;
}.

Definition newAbstract : abstract := mkAbstract [] [] [] [] ∅ [] [] [] [].

Definition put5 (se : serviceEndpoint) (a : abstract) : abstract :=
  let '(mkAbstract e1 e2 e3 e4 e5 e6 e7 e8 e9) := a in
  mkAbstract e1 e2 e3 e4 (<[insID se := se]> e5) e6 e7 e8 e9.

(** [a.endpointsN = append(a.endpointsN, se)]. *)
Definition append_to (n : nat) (se : serviceEndpoint) (a : abstract) : abstract :=
  let '(mkAbstract e1 e2 e3 e4 e5 e6 e7 e8 e9) := a in
  let app k e := if Nat.eqb k n then e ++ [se] else e in
  mkAbstract (app 1%nat e1) (app 2%nat e2) (app 3%nat e3) (app 4%nat e4) e5
    (app 6%nat e6) (app 7%nat e7) (app 8%nat e8) (app 9%nat e9).

Definition addServiceEndpoint (se : serviceEndpoint) (balance : bool) (a : abstract) : abstract :=
  let a := put5 se a in
  if negb balance then a else
  match status se with
  | ServiceStatusTest =>
      if bool_decide (state se = text "work") then append_to 6 se a
      else if bool_decide (state se = text "busy") then append_to 7 se a
      else if bool_decide (state se = text "hang") then append_to 3 se a
      else if bool_decide (state se = text "shut") then append_to 4 se a
      else a
  | ServiceStatusGray =>
      if bool_decide (state se = text "work") then append_to 8 se a
      else if bool_decide (state se = text "busy") then append_to 9 se a
      else if bool_decide (state se = text "hang") then append_to 3 se a
      else if bool_decide (state se = text "shut") then append_to 4 se a
      else a
  | ServiceStatusNormal =>
      if bool_decide (state se = text "work") then append_to 1 se a
      else if bool_decide (state se = text "busy") then append_to 2 se a
      else if bool_decide (state se = text "hang") then append_to 3 se a
      else if bool_decide (state se = text "shut") then append_to 4 se a
      else a
  end.

(** ** gameRoute.go *)

Record GameRoute := mkRoute {
  r_abstract : abstract;
  group : list Z;
  counter : Z;                      (* atomic.Uint64 *)
  gameID : Z;
  currWeight : gmap nat Z;          (* the currWeight of each endpoint, 0 when absent *)
}.

Definition newRoute_001 (group : list Z) (gameID : Z) : GameRoute :=
  mkRoute newAbstract group 0 gameID ∅.

Definition set_counter (c : Z) (r : GameRoute) : GameRoute :=
  mkRoute (r_abstract r) (group r) c (gameID r) (currWeight r).
Definition set_currWeight (cw : gmap nat Z) (r : GameRoute) : GameRoute :=
  mkRoute (r_abstract r) (group r) (counter r) (gameID r) cw.
Definition set_abstract (a : abstract) (r : GameRoute) : GameRoute :=
  mkRoute a (group r) (counter r) (gameID r) (currWeight r).

(** The loop of [balanceEndpoints] over the preferred statuses. *)
Fixpoint balance_among (preferred : list ServiceStatus) (a : abstract) : list serviceEndpoint :=
  match preferred with
  | [] => []
  | ServiceStatusTest :: preferred =>
      if bool_decide (len (endpoints6 a) > 0) then endpoints6 a
      else if bool_decide (len (endpoints7 a) > 0) then endpoints7 a
      else balance_among preferred a
  | ServiceStatusGray :: preferred =>
      if bool_decide (len (endpoints8 a) > 0) then endpoints8 a
      else if bool_decide (len (endpoints9 a) > 0) then endpoints9 a
      else balance_among preferred a
  | ServiceStatusNormal :: preferred =>
      if bool_decide (len (endpoints1 a) > 0) then endpoints1 a
      else if bool_decide (len (endpoints2 a) > 0) then endpoints2 a
      else balance_among preferred a
  end.

Definition balanceEndpoints (status : ServiceStatus) (r : GameRoute) : list serviceEndpoint :=
  balance_among (PreferredServiceStatuses status) (r_abstract r).

Definition directDispatch (id : list Z) : Op GameRoute serviceEndpoint := λ r,
  match endpoints5 (r_abstract r) !! id with
  | None => (r, Err ErrNotFoundEndpoint)
  | Some sep => (r, Ok sep)
  end.

(** [endpoints[i]]; out of range it panics. *)
Definition at_index (es : list serviceEndpoint) (i : Z) : outcome serviceEndpoint :=
  if bool_decide (0 ≤ i) then
    match es !! Z.to_nat i with Some se => Ok se | None => Panic end
  else Panic.

(** [IntN] is the draw of [rand.IntN] of this call. *)
Definition randomDispatch (IntN : Z → Z) (status : ServiceStatus) : Op GameRoute serviceEndpoint :=
  λ r,
  let endpoints := balanceEndpoints status r in
  if bool_decide (len endpoints > 0) then (r, at_index endpoints (IntN (len endpoints)))
  else (r, Err ErrNotFoundEndpoint).

Definition roundRobinDispatch (status : ServiceStatus) : Op GameRoute serviceEndpoint := λ r,
  let endpoints := balanceEndpoints status r in
  if bool_decide (len endpoints > 0) then
    let c := wrapU 64 (counter r + 1) in
    (set_counter c r, at_index endpoints (wrapS 64 (c mod len endpoints)))
  else (r, Err ErrNotFoundEndpoint).

Definition cur (cw : gmap nat Z) (se : serviceEndpoint) : Z := default 0 (cw !! se_ref se).

(** The loop of [weightRoundRobinDispatch]. *)
Fixpoint weigh (endpoints : list serviceEndpoint) (cw : gmap nat Z)
    (selected : option serviceEndpoint) (totalWeight : Z)
  : gmap nat Z * option serviceEndpoint * Z :=
  match endpoints with
  | [] => (cw, selected, totalWeight)
  | se :: endpoints =>
      let cw := <[se_ref se := wrapS 64 (cur cw se + weight se)]> cw in
      let totalWeight := wrapS 64 (totalWeight + weight se) in
      let selected := match selected with
                      | None => Some se
                      | Some sel => if bool_decide (cur cw se > cur cw sel) then Some se
                                    else Some sel
                      end in
      weigh endpoints cw selected totalWeight
  end.

Definition weightRoundRobinDispatch (status : ServiceStatus) : Op GameRoute serviceEndpoint := λ r,
  let endpoints := balanceEndpoints status r in
  if bool_decide (len endpoints > 0) then
    let '(cw, selected, totalWeight) := weigh endpoints (currWeight r) None 0 in
    match selected with
    | Some sel =>
        (set_currWeight (<[se_ref sel := wrapS 64 (cur cw sel - totalWeight)]> cw) r, Ok sel)
    | None => (set_currWeight cw r, Err ErrNotFoundEndpoint)
    end
  else (r, Err ErrNotFoundEndpoint).

(** [dispatch] is the field of the dispatcher the route points to. *)
Definition findServiceEndpointForServiceStatus (dispatch : Dispatch) (IntN : Z → Z)
    (status : ServiceStatus) (ids : list (list Z)) : Op GameRoute serviceEndpoint :=
  let balanced := match dispatch with
                  | RoundRobin => roundRobinDispatch status
                  | WeightRoundRobin => weightRoundRobinDispatch status
                  | Random => randomDispatch IntN status
                  end in
  match ids with
  | [] => balanced
  | id :: _ => if bool_decide (id = []) then balanced else directDispatch id
  end.

Definition FindEndpointForServiceStatus (dispatch : Dispatch) (IntN : Z → Z)
    (status : ServiceStatus) (ids : list (list Z)) : Op GameRoute Endpoint :=
  se ← findServiceEndpointForServiceStatus dispatch IntN status ids; mret (endpoint se).

Definition FindEndpointForUser (dispatch : Dispatch) (IntN : Z → Z)
    (allowTest : bool) (ids : list (list Z)) : Op GameRoute Endpoint :=
  if allowTest then FindEndpointForServiceStatus dispatch IntN ServiceStatusTest ids
  else FindEndpointForServiceStatus dispatch IntN ServiceStatusNormal ids.

Definition Route_FindEndpoint (dispatch : Dispatch) (IntN : Z → Z) (ids : list (list Z))
  : Op GameRoute Endpoint :=
  FindEndpointForServiceStatus dispatch IntN ServiceStatusNormal ids.

(** ** event.go *)

Record Event := mkEvent { e_abstract : abstract; event : Z }.
Definition newEvent (event : Z) : Event := mkEvent newAbstract event.

(** The callback is an operation on a state of its own; it answers whether to
    go on. *)
Fixpoint visit {S} (fn : list Z → Endpoint → S → S * bool) (es : list serviceEndpoint) (s : S)
  : S * bool :=
  match es with
  | [] => (s, true)
  | se :: es => let '(s, more) := fn (insID se) (endpoint se) s in
                if more then visit fn es s else (s, false)
  end.

Definition Event_VisitEndpoints {S} (fn : list Z → Endpoint → S → S * bool) (e : Event) (s : S) : S :=
  let '(s, more) := visit fn (endpoints1 (e_abstract e)) s in
  if negb more then s else
  let '(s, more) := visit fn (endpoints2 (e_abstract e)) s in
  if negb more then s else
  let '(s, more) := visit fn (endpoints3 (e_abstract e)) s in
  if negb more then s else
  let '(s, more) := visit fn (endpoints4 (e_abstract e)) s in
  s.

(** ** dispatcher.go *)

Record Dispatcher := mkDispatcher {
  dispatch : Dispatch;
  routes : gmap Z GameRoute;
  events : gmap Z Event;
  endpoints : gmap (list Z) Endpoint;
  instances : gmap (list Z) ServiceInstance;
}.

Definition NewDispatcher (dispatch : Dispatch) : Dispatcher := mkDispatcher dispatch ∅ ∅ ∅ ∅.

Definition Dispatcher_FindEndpoint (id : list Z) (d : Dispatcher) : outcome Endpoint :=
  match endpoints d !! id with None => Err ErrNotFoundEndpoint | Some ep => Ok ep end.

Definition FindGameRoute (game : Z) (d : Dispatcher) : outcome GameRoute :=
  match routes d !! game with None => Err ErrNotFoundRoute | Some r => Ok r end.

Definition FindEvent (event : Z) (d : Dispatcher) : outcome Event :=
  match events d !! event with None => Err ErrNotFoundEvent | Some e => Ok e end.

Definition set_routes (m : gmap Z GameRoute) (d : Dispatcher) : Dispatcher :=
  mkDispatcher (dispatch d) m (events d) (endpoints d) (instances d).

(** The route is shared by pointer, so that what the pick changes in it stays
    in the dispatcher. *)
Definition SelectGameNode (IntN : Z → Z) (game : Z) (status : ServiceStatus)
  : Op Dispatcher (list Z * list Z) := λ d,
  match FindGameRoute game d with
  | Err err => (d, Err err)
  | Panic => (d, Panic)
  | Ok route =>
      let '(route', service) :=
        findServiceEndpointForServiceStatus (dispatch d) IntN status [] route in
      let d := set_routes (<[game := route']> (routes d)) d in
      match service with
      | Err err => (d, Err err)
      | Panic => (d, Panic)
      | Ok service => (d, Ok (group route', insID service))
      end
  end.

(** The latest-version test of the loop of [ReplaceServices]. *)
Definition balance_of (services : list (option ServiceInstance)) (service : ServiceInstance) : bool :=
  let maxVersionByGame := MaxVersionForGame services in
  let maxVersionByGameAndStatus := MaxVersionForGameByServiceStatus services in
  let maxVersionByGateAlias := MaxVersionByKindAlias services (text "gate") in
  if bool_decide (ins_Kind service = text "node") then
    let st := ServiceStatusOf (Some service) in
    let game := ins_GameID service in
    if bool_decide (is_Some (maxVersionByGameAndStatus !! (game, ServiceStatusNormal)) ∨
                    is_Some (maxVersionByGameAndStatus !! (game, ServiceStatusGray)) ∨
                    is_Some (maxVersionByGameAndStatus !! (game, ServiceStatusTest)))
    then IsLatestVersion (Some service) (default [] (maxVersionByGameAndStatus !! (game, st)))
    else IsLatestVersion (Some service) (default [] (maxVersionByGame !! game))
  else if bool_decide (ins_Kind service = text "gate") then
    IsLatestVersion (Some service) (default [] (maxVersionByGateAlias !! ins_Alias service))
  else true.

(** [for _, evt := range service.Events]. *)
Fixpoint add_events (evts : list Z) (se : serviceEndpoint) (balance : bool) (m : gmap Z Event)
  : gmap Z Event :=
  match evts with
  | [] => m
  | evt :: evts =>
      let e := match m !! evt with None => newEvent evt | Some e => e end in
      add_events evts se balance
        (<[evt := mkEvent (addServiceEndpoint se balance (e_abstract e)) (event e)]> m)
  end.

(** The service endpoint of an instance; [ref] is its pointer. *)
Definition se_of (ref : nat) (service : ServiceInstance) (ep : Endpoint) : serviceEndpoint :=
  mkServiceEndpoint ref (ins_ID service) (ins_State service)
    (ServiceStatusOf (Some service)) ep (ins_Weight service).

(** One turn of the loop for an instance whose endpoint parsed, once [se] is
    built. *)
Definition add_service (balance : bool) (se : serviceEndpoint) (service : ServiceInstance)
    (d : Dispatcher) : Dispatcher :=
  let ep := endpoint se in
  let route := match routes d !! ins_GameID service with
               | None => newRoute_001 (ins_Alias service) (ins_GameID service)
               | Some route => route
               end in
  mkDispatcher (dispatch d)
    (<[ins_GameID service := set_abstract (addServiceEndpoint se balance (r_abstract route)) route]>
       (routes d))
    (add_events (ins_Events service) se balance (events d))
    (<[ins_ID service := ep]> (endpoints d))
    (<[ins_ID service := service]> (instances d)).

Fixpoint replace_loop (all : list (option ServiceInstance)) (ref : nat)
    (services : list (option ServiceInstance)) (d : Dispatcher) : outcome Dispatcher :=
  match services with
  | [] => Ok d
  | None :: _ => Panic
  | Some service :: services =>
      match ParseEndpoint (ins_Endpoint service) with
      | None => replace_loop all (S ref) services d
      | Some ep =>
          replace_loop all (S ref) services 
            (add_service (balance_of all service) (se_of ref service ep) service d)
      end
  end.

(** The new maps are built apart and stored at the end. *)
Definition ReplaceServices (services : list (option ServiceInstance)) : Op Dispatcher unit := λ d,
  match replace_loop services 0 services (NewDispatcher (dispatch d)) with
  | Ok d' => (d', Ok ())
  | Err e => (d, Err e)
  | Panic => (d, Panic)
  end.

(** ** Lanes

    [lane st busy a]: the working or busy endpoints of one status. *)
Definition lane (st : ServiceStatus) (busy : bool) (a : abstract) : list serviceEndpoint :=
  match st, busy with
  | ServiceStatusNormal, false => endpoints1 a
  | ServiceStatusNormal, true => endpoints2 a
  | ServiceStatusTest, false => endpoints6 a
  | ServiceStatusTest, true => endpoints7 a
  | ServiceStatusGray, false => endpoints8 a
  | ServiceStatusGray, true => endpoints9 a
  end.

Definition state_name (busy : bool) : list Z := if busy then text "busy" else text "work".

(** What an endpoint must be to enter a lane. *)
Definition in_lane (st : ServiceStatus) (busy : bool) (x : serviceEndpoint * bool) : Prop :=
  x.2 = true ∧ status x.1 = st ∧ state x.1 = state_name busy.
#[local] Instance in_lane_dec st busy x : Decision (in_lane st busy x).
Proof. unfold in_lane. apply _. Defined.

Lemma lane_add st busy se bal a :
  lane st busy (addServiceEndpoint se bal a) =
  lane st busy a ++ (if decide (in_lane st busy (se, bal)) then [se] else []).
Proof.
  unfold addServiceEndpoint. destruct a, bal; cbn [negb put5].
  2:{ rewrite decide_False by (intros [? _]; done). rewrite app_nil_r. by destruct st, busy. }
  destruct se as [ref id nm sts ep w]; cbn [status state].
  destruct sts;
    (case_bool_decide as Hw; [|case_bool_decide as Hb; [|case_bool_decide as Hh;
       [|case_bool_decide as Hs]]]);
    destruct st, busy; cbn [append_to lane Nat.eqb];
    case_decide as Hl; unfold in_lane in Hl; cbn in Hl; rewrite ?app_nil_r;
    try first [done | (destruct Hl as (_ & Hst & Hnm); subst nm; try done)
              | (exfalso; apply Hl; by subst nm)].
Qed.

Lemma endpoints5_add se bal a :
  endpoints5 (addServiceEndpoint se bal a) = <[insID se := se]> (endpoints5 a).
Proof.
  unfold addServiceEndpoint. destruct a, bal; [|done]. cbn [negb put5].
  by destruct (status se); repeat case_bool_decide.
Qed.

(** Adding endpoints one by one. *)
Definition add_all (l : list (serviceEndpoint * bool)) (a : abstract) : abstract :=
  foldl (λ a x, addServiceEndpoint x.1 x.2 a) a l.

Lemma lane_add_all st busy l a :
  lane st busy (add_all l a) = lane st busy a ++ (filter (in_lane st busy) l).*1.
Proof.
  unfold add_all. revert a. induction l as [|[se bal] l IH]; intros a; cbn [foldl].
  - by rewrite app_nil_r.
  - rewrite IH, lane_add, filter_cons, <- app_assoc. cbn [fst snd].
    by destruct (decide (in_lane st busy (se, bal))).
Qed.

Lemma endpoints5_add_all l a id :
  endpoints5 (add_all l a) !! id =
  match last (filter (λ x, insID x.1 = id) l) with
  | Some x => Some x.1
  | None => endpoints5 a !! id
  end.
Proof.
  unfold add_all. revert a. induction l as [|[se bal] l IH]; intros a; cbn [foldl]; [done|].
  rewrite IH, endpoints5_add, filter_cons. cbn [fst snd].
  case_decide as E; cbn [fst] in E.
  - rewrite last_cons. destruct (last _); [done|]. subst id. by rewrite lookup_insert_eq.
  - destruct (last _); [done|]. by rewrite lookup_insert_ne by done.
Qed.

(** The lane of the preferred choice: the first that is not empty. *)
Fixpoint first_lane (lanes : list (ServiceStatus * bool)) (a : abstract) : list serviceEndpoint :=
  match lanes with
  | [] => []
  | (st, busy) :: lanes =>
      match lane st busy a with [] => first_lane lanes a | l => l end
  end.

(** Per preferred status: working endpoints first, then busy ones. *)
Definition lanes_of (st : ServiceStatus) : list (ServiceStatus * bool) :=
  PreferredServiceStatuses st ≫= λ st, [(st, false); (st, true)].

Lemma balanceEndpoints_lanes st r :
  balanceEndpoints st r = first_lane (lanes_of st) (r_abstract r).
Proof.
  unfold balanceEndpoints, lanes_of. generalize (r_abstract r) as a. intros a.
  destruct st, a as [[] [] ? ? ? [] [] [] []]; reflexivity.
Qed.

(** ** What [ReplaceServices] builds *)

(** The instances the loop adds: those whose endpoint parses, in order. *)
Abbreviation entry := (ServiceInstance * (serviceEndpoint * bool))%type.

Fixpoint entries (all : list (option ServiceInstance)) (ref : nat)
    (services : list (option ServiceInstance)) : list entry :=
  match services with
  | [] => []
  | None :: services => entries all (S ref) services
  | Some service :: services =>
      match ParseEndpoint (ins_Endpoint service) with
      | None => entries all (S ref) services
      | Some ep => (service, (se_of ref service ep, balance_of all service))
                     :: entries all (S ref) services
      end
  end.

Definition add_entry (d : Dispatcher) (x : entry) : Dispatcher :=
  add_service x.2.2 x.2.1 x.1 d.

Lemma replace_loop_entries all ref services d :
  None ∉ services →
  replace_loop all ref services d = Ok (foldl add_entry d (entries all ref services)).
Proof.
  revert ref d. induction services as [|[service|] services IH]; intros ref d Hn; [done| |set_solver].
  cbn [replace_loop entries]. destruct (ParseEndpoint _) as [ep|]; cbn [foldl];
    rewrite IH by set_solver; done.
Qed.

(** Every entry comes from its instance. *)
Lemma entries_spec all ref services x :
  x ∈ entries all ref services ↔
  ∃ i ep, services !! i = Some (Some x.1) ∧ ParseEndpoint (ins_Endpoint x.1) = Some ep ∧
          x.2 = (se_of (ref + i) x.1 ep, balance_of all x.1).
Proof.
  revert ref. induction services as [|[service|] services IH]; intros ref; cbn [entries].
  - split; [by intros ?%elem_of_nil|]. by intros (i & ep & ? & _).
  - assert (Hrest : x ∈ entries all (S ref) services ↔
      ∃ i ep, (Some service :: services) !! S i = Some (Some x.1) ∧
        ParseEndpoint (ins_Endpoint x.1) = Some ep ∧
        x.2 = (se_of (ref + S i) x.1 ep, balance_of all x.1)).
    { rewrite IH. by setoid_rewrite Nat.add_succ_r. }
    destruct (ParseEndpoint (ins_Endpoint service)) as [ep|] eqn:Ep.
    + rewrite elem_of_cons, Hrest. split.
      * intros [->|(i & ep' & H)]; [|by exists (S i), ep'].
        exists 0%nat, ep. cbn. by rewrite Nat.add_0_r.
      * intros ([|i] & ep' & Hi & Hp & Hx); [left|right; by exists i, ep'].
        destruct x as [s y]; cbn in *. rewrite Nat.add_0_r in Hx. congruence.
    + rewrite Hrest. split; [intros (i & ep' & H); by exists (S i), ep'|].
      intros ([|i] & ep' & Hi & Hp & Hx); [|by exists i, ep'].
      cbn in Hi. congruence.
  - rewrite IH. setoid_rewrite <- Nat.add_succ_r. split; [intros (i & H); by exists (S i)|].
    intros ([|i] & ep' & Hi & ?); [done|by exists i, ep'].
Qed.

Lemma entries_length all ref services : (length (entries all ref services) ≤ length services)%nat.
Proof.
  revert ref. induction services as [|[service|] services IH]; intros ref; cbn [entries length].
  - done.
  - specialize (IH (S ref)). destruct (ParseEndpoint _); cbn [length]; lia.
  - specialize (IH (S ref)). lia.
Qed.

(** The entries of one game. *)
Definition of_game (g : Z) (l : list entry) : list entry := filter (λ x, ins_GameID x.1 = g) l.

Lemma set_abstract_id r : set_abstract (r_abstract r) r = r.
Proof. by destruct r. Qed.

Lemma routes_fold l d g :
  routes (foldl add_entry d l) !! g =
  match of_game g l with
  | [] => routes d !! g
  | (x :: _) as l' =>
      let r := default (newRoute_001 (ins_Alias x.1) g) (routes d !! g) in
      Some (set_abstract (add_all l'.*2 (r_abstract r)) r)
  end.
Proof.
  revert d. induction l as [|x l IH]; intros d; [done|].
  cbn [foldl]. rewrite IH. unfold of_game. rewrite filter_cons. fold (of_game g l).
  unfold add_entry, add_service. cbn [routes]. case_decide as Hg.
  - subst g. rewrite lookup_insert_eq. cbn [default].
    destruct (of_game _ l) as [|y l'] eqn:El; destruct (routes d !! _); cbn [default];
      done.
  - rewrite lookup_insert_ne by done. done.
Qed.

(** ** Candidates

    The specification of a pick, in terms of the registered instances alone. *)

(** The instances a version is compared with. *)
Definition peer (s s' : ServiceInstance) : Prop :=
  ins_Kind s' = ins_Kind s ∧
  (ins_Kind s = text "node" ∧ ins_GameID s' = ins_GameID s ∧
     ServiceStatusOf (Some s') = ServiceStatusOf (Some s) ∨
   ins_Kind s = text "gate" ∧ ins_Alias s' = ins_Alias s).

Definition latest (services : list (option ServiceInstance)) (s : ServiceInstance) : Prop :=
  ∀ s', Some s' ∈ services → peer s s' → CompareVersion (ins_Version s') (ins_Version s) ≤ 0.

Lemma balance_of_latest services s :
  Some s ∈ services → balance_of services s = true ↔ latest services s.
Proof.
  assert (text "node" ≠ text "gate") as Hng by done.
  intros Hin. unfold balance_of, latest, peer. case_bool_decide as Hn; [|case_bool_decide as Hg].
  - destruct (table_latest (λ ins, if bool_decide (ins_Kind ins = text "node")
        then Some (ins_GameID ins, ServiceStatusOf (Some ins)) else None) services
        (ins_GameID s, ServiceStatusOf (Some s)) s Hin) as (v & Hv & Hlat).
    { by rewrite bool_decide_eq_true_2. }
    unfold MaxVersionForGameByServiceStatus. rewrite bool_decide_eq_true_2.
    2:{ destruct (ServiceStatusOf (Some s)); rewrite Hv; eauto. }
    rewrite Hv. cbn [default from_option]. unfold id. rewrite Hlat.
    split; intros H s' Hin'; specialize (H s' Hin').
    + intros (Hk & [(_ & Hgm & Hst)|(? & _)]); [|congruence]. apply H.
      by rewrite bool_decide_eq_true_2, Hgm, Hst by congruence.
    + case_bool_decide as Hk; [|done]. intros [= ? ?]. apply H. split; [congruence|]. auto.
  - destruct (table_latest (λ ins, if bool_decide (ins_Kind ins = text "gate")
        then Some (ins_Alias ins) else None) services (ins_Alias s) s Hin) as (v & Hv & Hlat).
    { by rewrite bool_decide_eq_true_2. }
    unfold MaxVersionByKindAlias. rewrite Hv. cbn [default from_option]. unfold id. rewrite Hlat.
    split; intros H s' Hin'; specialize (H s' Hin').
    + intros (Hk & [(? & _)|(_ & Ha)]); [congruence|]. apply H.
      by rewrite bool_decide_eq_true_2, Ha by congruence.
    + case_bool_decide as Hk; [|done]. intros [= ?]. apply H. split; [congruence|]. auto.
  - split; [|done]. intros _ s' _ (_ & [(? & _)|(? & _)]); congruence.
Qed.

(** Registered, with an endpoint that parses. *)
Definition usable (services : list (option ServiceInstance)) (g : Z) (s : ServiceInstance) : Prop :=
  Some s ∈ services ∧ is_Some (ParseEndpoint (ins_Endpoint s)) ∧ ins_GameID s = g.

Definition candidate (services : list (option ServiceInstance)) (g : Z) (st : ServiceStatus)
    (busy : bool) (s : ServiceInstance) : Prop :=
  usable services g s ∧ latest services s ∧
  ServiceStatusOf (Some s) = st ∧ ins_State s = state_name busy.

Lemma of_game_elem services g s se :
  (∃ b, (s, (se, b)) ∈ of_game g (entries services 0 services) ∧ b = true) ↔
  ∃ i ep, services !! i = Some (Some s) ∧ ParseEndpoint (ins_Endpoint s) = Some ep ∧
          se = se_of i s ep ∧ latest services s ∧ ins_GameID s = g.
Proof.
  unfold of_game. setoid_rewrite list_elem_of_filter. setoid_rewrite entries_spec. cbn. split.
  - intros (b & (Hg & i & ep & Hi & Hp & [= -> Hb]) & ->). exists i, ep.
    split_and!; try done. apply balance_of_latest; [|done]. by eapply list_elem_of_lookup_2.
  - intros (i & ep & Hi & Hp & -> & Hl & Hg). exists true. split_and!; try done.
    exists i, ep. split_and!; try done. f_equal. symmetry. apply balance_of_latest; [|done].
    by eapply list_elem_of_lookup_2.
Qed.

(** What a lane of a game holds after [ReplaceServices]. *)
Lemma lane_candidates services g st busy se :
  se ∈ lane st busy (add_all (of_game g (entries services 0 services)).*2 newAbstract) ↔
  ∃ i s ep, services !! i = Some (Some s) ∧ ParseEndpoint (ins_Endpoint s) = Some ep ∧
            se = se_of i s ep ∧ candidate services g st busy s.
Proof.
  rewrite lane_add_all. replace (lane st busy newAbstract) with (@nil serviceEndpoint)
    by (by destruct st, busy). cbn [app].
  rewrite list_elem_of_fmap. setoid_rewrite list_elem_of_filter.
  setoid_rewrite list_elem_of_fmap. split.
  - intros ([se' b] & -> & ((Hb & Hst & Hnm) & [s x] & [= <-] & Hin)). cbn in *.
    destruct (proj1 (of_game_elem services g s se')) as (i & ep & Hi & Hp & -> & Hl & Hg); [eauto|].
    exists i, s, ep. split_and!; try done. split_and!; [|done..].
    split_and!; [by eapply list_elem_of_lookup_2|by eexists|done].
  - intros (i & s & ep & Hi & Hp & -> & (Hin & _ & Hg) & Hl & Hst & Hnm).
    destruct (proj2 (of_game_elem services g s (se_of i s ep))) as (b & Hb & ->); [naive_solver|].
    exists (se_of i s ep, true). split; [done|]. split; [by split_and!|].
    by exists (s, (se_of i s ep, true)).
Qed.

(** ** One pick *)

Definition IntN_ok (IntN : Z → Z) : Prop := ∀ n, 0 < n → 0 ≤ IntN n < n.

Lemma at_index_Ok es i : 0 ≤ i < len es → ∃ se, es !! Z.to_nat i = Some se ∧ at_index es i = Ok se.
Proof.
  intros Hi. unfold at_index. rewrite bool_decide_eq_true_2 by lia.
  destruct (lookup_lt_is_Some_2 es (Z.to_nat i) ltac:(lia)) as [se Hse]. rewrite Hse. by exists se.
Qed.

(** The loop always selects, whatever the weights. *)
Lemma weigh_selects es cw sel total :
  match (weigh es cw sel total).1.2 with
  | Some se => Some se = sel ∨ se ∈ es
  | None => sel = None ∧ es = []
  end.
Proof.
  revert cw sel total. induction es as [|e es IH]; intros cw sel total; cbn [weigh].
  - destruct sel; cbn; auto.
  - match goal with |- context [weigh es ?cw ?sel ?t] => specialize (IH cw sel t) end.
    destruct (weigh es _ _ _).1.2 as [se|].
    + destruct sel as [s0|]; [case_bool_decide|]; set_solver.
    + destruct sel; [case_bool_decide|]; naive_solver.
Qed.

(** The index of [roundRobinDispatch] is in range. *)
Lemma rr_index_range c n : 0 < n < 2 ^ 63 → wrapS 64 (c mod n) = c mod n ∧ 0 ≤ c mod n < n.
Proof.
  intros Hn. pose proof (Z.mod_pos_bound c n). split; [|lia].
  apply wrapS_id; [done|]. unfold in_s. lia.
Qed.

Lemma find_picks disp IntN st r :
  IntN_ok IntN → len (balanceEndpoints st r) < 2 ^ 63 →
  match balanceEndpoints st r with
  | [] => (findServiceEndpointForServiceStatus disp IntN st [] r).2 = Err ErrNotFoundEndpoint
  | es => ∃ se, se ∈ es ∧ (findServiceEndpointForServiceStatus disp IntN st [] r).2 = Ok se
  end.
Proof.
  intros HI Hlen. unfold findServiceEndpointForServiceStatus.
  set (es := balanceEndpoints st r) in *.
  assert (Hes : es = [] ∨ len es > 0) by (destruct es; [by left|right; cbn [length]; lia]).
  destruct Hes as [Hes|Hes].
  - rewrite Hes. destruct disp; unfold randomDispatch, roundRobinDispatch, weightRoundRobinDispatch;
      fold es; by rewrite Hes.
  - replace (match es with [] => _ | _ => _ end) with
      (∃ se, se ∈ es ∧ ((match disp with
         | Random => randomDispatch IntN st | RoundRobin => roundRobinDispatch st
         | WeightRoundRobin => weightRoundRobinDispatch st end) r).2 = Ok se)
      by (destruct es; [cbn in Hes; lia|by destruct disp]).
    destruct disp; unfold randomDispatch, roundRobinDispatch, weightRoundRobinDispatch; fold es;
      rewrite bool_decide_eq_true_2 by done; cbn [snd].
    + destruct (at_index_Ok es (IntN (len es))) as (se & Hse & ->); [apply HI; lia|].
      exists se. split; [by eapply list_elem_of_lookup_2|done].
    + destruct (rr_index_range (wrapU 64 (counter r + 1)) (len es)) as [-> Hr]; [lia|].
      destruct (at_index_Ok es _ Hr) as (se & Hse & ->).
      exists se. split; [by eapply list_elem_of_lookup_2|done].
    + pose proof (weigh_selects es (currWeight r) None 0) as Hw.
      destruct (weigh es (currWeight r) None 0) as [[cw sel] total]. cbn in Hw.
      destruct sel as [se|]; [|destruct Hw as [_ ->]; cbn in Hes; lia].
      exists se. split; [|done]. by destruct Hw as [?|?].
Qed.

(** A pick changes the counter and the weights only. *)
Lemma find_frame disp IntN st ids r :
  r_abstract (findServiceEndpointForServiceStatus disp IntN st ids r).1 = r_abstract r ∧
  group (findServiceEndpointForServiceStatus disp IntN st ids r).1 = group r.
Proof.
  assert (Hb : ∀ f, f = randomDispatch IntN st ∨ f = roundRobinDispatch st ∨
      f = weightRoundRobinDispatch st →
    r_abstract (f r).1 = r_abstract r ∧ group (f r).1 = group r).
  { intros f [->|[->| ->]].
    - unfold randomDispatch. by case_bool_decide.
    - unfold roundRobinDispatch. by case_bool_decide.
    - unfold weightRoundRobinDispatch. case_bool_decide; [|done].
      by destruct (weigh _ _ _ _) as [[? []] ?]. }
  unfold findServiceEndpointForServiceStatus. destruct ids as [|id ids].
  - apply Hb. destruct disp; auto.
  - case_bool_decide; [apply Hb; destruct disp; auto|].
    unfold directDispatch. by destruct (_ !! id).
Qed.

(** ** The dispatcher serves the registered instances *)

Definition Serves (services : list (option ServiceInstance)) (d : Dispatcher) : Prop :=
  ∀ g, match of_game g (entries services 0 services) with
       | [] => routes d !! g = None
       | (x :: _) as l => ∃ r, routes d !! g = Some r ∧ group r = ins_Alias x.1 ∧
                               r_abstract r = add_all l.*2 newAbstract
       end.

Lemma ReplaceServices_serves services d :
  None ∉ services →
  ∃ d', ReplaceServices services d = (d', Ok ()) ∧ dispatch d' = dispatch d ∧ Serves services d'.
Proof.
  intros Hn. unfold ReplaceServices. rewrite replace_loop_entries by done.
  eexists. split; [done|]. split.
  - assert (H : ∀ l d0, dispatch (foldl add_entry d0 l) = dispatch d0).
    { induction l as [|x l IH]; intros d0; [done|]. cbn [foldl]. by rewrite IH. }
    by rewrite H.
  - intros g. pose proof (routes_fold (entries services 0 services) (NewDispatcher (dispatch d)) g)
      as Hr. cbn [routes NewDispatcher] in Hr. rewrite lookup_empty in Hr.
    destruct (of_game g _) as [|x l]; [done|]. eexists. split; [exact Hr|]. done.
Qed.

(** What a pick for a game and a status may answer. *)
Definition selection (services : list (option ServiceInstance)) (g : Z) (st : ServiceStatus)
    (res : outcome (list Z * list Z)) : Prop :=
  match res with
  | Ok (grp, id) =>
      (∃ s before stc busy after,
         ins_ID s = id ∧ candidate services g stc busy s ∧
         lanes_of st = before ++ (stc, busy) :: after ∧
         (∀ stp b s', (stp, b) ∈ before → ¬ candidate services g stp b s')) ∧
      (∃ s, usable services g s ∧ ins_Alias s = grp)
  | Err ErrNotFoundRoute => ∀ s, ¬ usable services g s
  | Err ErrNotFoundEndpoint =>
      (∃ s, usable services g s) ∧ ∀ stp b s, (stp, b) ∈ lanes_of st → ¬ candidate services g stp b s
  | _ => False
  end.

Lemma of_game_usable services g s :
  usable services g s ↔ ∃ y, (s, y) ∈ of_game g (entries services 0 services).
Proof.
  unfold usable, of_game. setoid_rewrite list_elem_of_filter. setoid_rewrite entries_spec. cbn.
  rewrite list_elem_of_lookup. split.
  - intros ([i Hi] & [ep Hep] & Hg). eexists. split; [done|]. by exists i, ep.
  - intros (y & Hg & i & ep & Hi & Hp & _). split_and!; eauto.
Qed.

(** The first non-empty lane is the one preferred. *)
Lemma first_lane_spec lanes a se :
  se ∈ first_lane lanes a →
  ∃ before st busy after, lanes = before ++ (st, busy) :: after ∧ se ∈ lane st busy a ∧
    ∀ stp b, (stp, b) ∈ before → lane stp b a = [].
Proof.
  induction lanes as [|[st busy] lanes IH]; cbn [first_lane]; [by intros ?%elem_of_nil|].
  destruct (lane st busy a) as [|e l] eqn:El.
  - intros (before & st' & busy' & after & -> & Hin & Hb)%IH.
    exists ((st, busy) :: before), st', busy', after. split_and!; [done..|].
    intros stp b [[= -> ->]|Hin']%elem_of_cons; eauto.
  - intros Hin. exists [], st, busy, lanes. rewrite El. split_and!; [done..|].
    intros ?? ?%elem_of_nil. done.
Qed.

Lemma first_lane_empty lanes a :
  first_lane lanes a = [] → ∀ stp b, (stp, b) ∈ lanes → lane stp b a = [].
Proof.
  induction lanes as [|[st busy] lanes IH]; cbn [first_lane]; [by intros _ ?? ?%elem_of_nil|].
  destruct (lane st busy a) as [|e l] eqn:El; [|done].
  intros Hf stp b [[= -> ->]|Hin]%elem_of_cons; eauto.
Qed.

Lemma lane_empty_no_candidate services g st busy s :
  lane st busy (add_all (of_game g (entries services 0 services)).*2 newAbstract) = [] →
  ¬ candidate services g st busy s.
Proof.
  intros Hl Hc. destruct (Hc) as ((Hin & [ep Hep] & _) & _).
  apply list_elem_of_lookup in Hin as [i Hi].
  assert (se_of i s ep ∈ lane st busy (add_all (of_game g (entries services 0 services)).*2
    newAbstract)) as H by (apply lane_candidates; eauto 10).
  rewrite Hl in H. by apply elem_of_nil in H.
Qed.

Lemma lane_length services g st busy :
  (length (lane st busy (add_all (of_game g (entries services 0 services)).*2 newAbstract)) ≤
   length services)%nat.
Proof.
  rewrite lane_add_all. replace (lane st busy newAbstract) with (@nil serviceEndpoint)
    by (by destruct st, busy). cbn [app]. rewrite length_fmap.
  etrans; [apply length_filter|]. rewrite length_fmap. unfold of_game.
  etrans; [apply length_filter|]. apply entries_length.
Qed.

Lemma first_lane_length lanes a n :
  (∀ st busy, (length (lane st busy a) ≤ n)%nat) → (length (first_lane lanes a) ≤ n)%nat.
Proof.
  intros H. induction lanes as [|[st busy] lanes IH]; cbn [first_lane length]; [lia|].
  specialize (H st busy). by destruct (lane st busy a).
Qed.

Lemma serves_select services d IntN g st :
  len services < 2 ^ 63 → IntN_ok IntN → Serves services d →
  Serves services (SelectGameNode IntN g st d).1 ∧
  selection services g st (SelectGameNode IntN g st d).2.
Proof.
  intros Hlen HI HS. pose proof (HS g) as Hg. unfold SelectGameNode, FindGameRoute.
  destruct (of_game g (entries services 0 services)) as [|x l] eqn:El.
  { rewrite Hg. split; [done|]. intros s [y Hy]%of_game_usable. rewrite El in Hy.
    by apply elem_of_nil in Hy. }
  destruct Hg as (r & Hr & Hgrp & Ha). rewrite Hr.
  assert (Hx : usable services g x.1).
  { apply of_game_usable. exists x.2. rewrite El, <- surjective_pairing. by left. }
  pose proof (find_frame (dispatch d) IntN st [] r) as [Hfa Hfg].
  pose proof (find_picks (dispatch d) IntN st r HI) as Hpick.
  rewrite balanceEndpoints_lanes, Ha, <- El in Hpick.
  destruct (findServiceEndpointForServiceStatus _ IntN st [] r) as [r' res]. cbn [fst snd] in *.
  assert (HS' : Serves services (set_routes (<[g:=r']> (routes d)) d)).
  { intros g'. cbn [routes set_routes]. destruct (decide (g' = g)) as [->|Hne].
    - rewrite El. exists r'. rewrite lookup_insert_eq. split_and!; congruence.
    - rewrite lookup_insert_ne by done. apply HS. }
  assert (Hle : len (first_lane (lanes_of st)
      (add_all (of_game g (entries services 0 services)).*2 newAbstract)) < 2 ^ 63).
  { pose proof (first_lane_length (lanes_of st) _ _ (lane_length services g)). lia. }
  specialize (Hpick Hle).
  destruct (first_lane _ _) as [|se0 es] eqn:Ef.
  - rewrite Hpick. split; [exact HS'|]. split; [eauto|]. intros stp b s Hin.
    apply lane_empty_no_candidate. by eapply first_lane_empty.
  - destruct Hpick as (se & Hse & Hres). rewrite Hres. split; [exact HS'|].
    rewrite <- Ef in Hse.
    apply first_lane_spec in Hse as (before & stc & busy & after & Hl & Hin & Hb).
    apply lane_candidates in Hin as (i & s & ep & _ & _ & -> & Hc). split.
    + exists s, before, stc, busy, after. split_and!; try done.
      intros stp b s' Hbef. apply lane_empty_no_candidate. eauto.
    + exists x.1. split; [done|]. congruence.
Qed.

(** A sequence of picks, with the draw of each. *)
Fixpoint select_all (calls : list ((Z → Z) * Z * ServiceStatus)) (d : Dispatcher)
  : list (outcome (list Z * list Z)) :=
  match calls with
  | [] => []
  | (IntN, g, st) :: calls =>
      let '(d, res) := SelectGameNode IntN g st d in res :: select_all calls d
  end.


Lemma filter_fmap_insID (l : list entry) id :
  (∀ x, x ∈ l → insID x.2.1 = ins_ID x.1) →
  filter (λ x, insID x.1 = id) l.*2 = (filter (λ x : entry, ins_ID x.1 = id) l).*2.
Proof.
  induction l as [|x l IH]; intros H; [done|].
  pose proof (H x ltac:(by left)) as Hx.
  rewrite fmap_cons, !filter_cons, IH by (intros; apply H; by right).
  repeat case_decide; congruence || done.
Qed.

(** Naming an instance bypasses status, state and version: the answer is the
    endpoint of the last usable instance of the game with this id, under every
    policy, and the route is left as it was. *)
Theorem direct_pick_exact services d disp IntN st id ids g :
  None ∉ services → id ≠ [] →
  ∃ d', ReplaceServices services d = (d', Ok ()) ∧
  match FindGameRoute g d' with
  | Ok r =>
      match last (filter (λ x, ins_ID x.1 = id) (of_game g (entries services 0 services))) with
      | Some (s, (se, _)) =>
          findServiceEndpointForServiceStatus disp IntN st (id :: ids) r = (r, Ok se) ∧
          usable services g s ∧ ins_ID s = id ∧ ParseEndpoint (ins_Endpoint s) = Some (endpoint se)
      | None =>
          findServiceEndpointForServiceStatus disp IntN st (id :: ids) r
            = (r, Err ErrNotFoundEndpoint) ∧
          ∀ s, usable services g s → ins_ID s ≠ id
      end
  | Err e => e = ErrNotFoundRoute ∧ ∀ s, ¬ usable services g s
  | Panic => False
  end.
Proof.
  intros Hn Hid. destruct (ReplaceServices_serves services d Hn) as (d' & Hd' & _ & HS).
  exists d'. split; [done|]. clear Hd'. specialize (HS g). unfold FindGameRoute.
  assert (Husable : ∀ x, x ∈ of_game g (entries services 0 services) →
    usable services g x.1 ∧ insID x.2.1 = ins_ID x.1 ∧
    ParseEndpoint (ins_Endpoint x.1) = Some (endpoint x.2.1)).
  { intros x Hx. split; [apply of_game_usable; exists x.2; by rewrite <- surjective_pairing|].
    unfold of_game in Hx. apply list_elem_of_filter in Hx as [_ Hx].
    apply entries_spec in Hx as (i & ep & _ & Hp & ->). done. }
  assert (Hnone : ∀ s, usable services g s →
    ∃ y, (s, y) ∈ of_game g (entries services 0 services)) by (intros s; apply of_game_usable).
  destruct (of_game g (entries services 0 services)) as [|x l] eqn:El.
  { rewrite HS. split; [done|]. intros s [y Hy]%Hnone. by apply elem_of_nil in Hy. }
  destruct HS as (r & Hr & _ & Ha). rewrite Hr. cbn [findServiceEndpointForServiceStatus].
  unfold findServiceEndpointForServiceStatus, directDispatch.
  rewrite bool_decide_eq_false_2 by done. rewrite Ha, endpoints5_add_all.
  rewrite <- El in *. clear El x l.
  set (l := of_game g _) in *. clearbody l. cbn [endpoints5 newAbstract]. rewrite lookup_empty.
  rewrite filter_fmap_insID by (intros x Hx; by apply Husable). rewrite fmap_last.
  destruct (last (filter _ l)) as [[s [se b]]|] eqn:E; cbn.
  - apply last_Some in E as [l' E].
    assert (Hin : (s, (se, b)) ∈ filter (λ x : entry, ins_ID x.1 = id) l)
      by (rewrite E; set_solver).
    apply list_elem_of_filter in Hin as [Hs Hin]. destruct (Husable _ Hin) as (? & ? & ?). done.
  - split; [done|]. intros s [y Hy]%Hnone Heq. apply last_None in E.
    assert (Hin : (s, y) ∈ filter (λ x : entry, ins_ID x.1 = id) l)
      by by apply list_elem_of_filter.
    rewrite E in Hin. by apply elem_of_nil in Hin.
Qed.

(** ** Events *)

(** With a callback that always goes on, an event visits the four common lanes,
    in order. *)
Lemma Event_visits e :
  Event_VisitEndpoints (λ id ep s, (s ++ [(id, ep)], true)) e [] =
  (λ se, (insID se, endpoint se)) <$>
    endpoints1 (e_abstract e) ++ endpoints2 (e_abstract e) ++
    endpoints3 (e_abstract e) ++ endpoints4 (e_abstract e).
Proof.
  assert (H : ∀ es s, visit (λ id ep s, (s ++ [(id, ep)], true)) es s =
    (s ++ ((λ se, (insID se, endpoint se)) <$> es), true)).
  { induction es as [|se es IH]; intros s; cbn [visit]; [by rewrite app_nil_r|].
    by rewrite IH, <- app_assoc. }
  unfold Event_VisitEndpoints. rewrite H. cbn [negb]. rewrite H. cbn [negb]. rewrite H.
  cbn [negb]. rewrite H. by rewrite !fmap_app, <- !app_assoc.
Qed.
End dispatcher.

(** ** Examples *)

(** A URL is its text; the empty one does not parse. *)
#[export] Instance example_url : Url := {
  URL := list Z;
  url_Parse s := if bool_decide (s = []) then None else Some s;
  Query_Get _ _ := text "false";
  url_Host s := s;
}.

Definition example_instance (id : list Z) (st version status : list Z) (weight : Z)
  : option ServiceInstance :=
  Some (mkInstance id (text "node") (text "node") (text "lobby") st [3] [] [] (text "grpc://127.0.0.1:8001") weight 1
          version (Some {[MetadataServiceStatusKey := status]})).

(** A working, a busy and an outdated normal node, and a gray one. *)
Definition example_services : list (option ServiceInstance) :=
  [ example_instance (text "a") (text "work") (text "1.2") [] 4;
    example_instance (text "b") (text "busy") (text "1.2.0") [] 2;
    example_instance (text "c") (text "work") (text "1.1") [] 1;
    example_instance (text "d") (text "work") (text "1.0") (text "gray") 1 ].

Lemma example_no_nil : None ∉ example_services.
Proof.
  intros H. repeat (apply elem_of_cons in H as [H|H]; [discriminate H|]).
  by apply elem_of_nil in H.
Qed.

Definition example_calls : list ((Z → Z) * Z * ServiceStatus) :=
  [ (λ _, 0, 1, ServiceStatusNormal); (λ _, 0, 1, ServiceStatusTest); (λ _, 0, 2, ServiceStatusGray) ].


Lemma direct_pick_exact_witness :
  let services := example_services in
  ∃ d', ReplaceServices services (NewDispatcher Random) = (d', Ok ()) ∧
  match FindGameRoute 1 d' with
  | Ok r => ∃ se, findServiceEndpointForServiceStatus Random (λ _, 0) ServiceStatusNormal
                    [text "c"] r = (r, Ok se) ∧ insID se = text "c"
  | _ => False
  end.
Proof.
  intros services.
  destruct (direct_pick_exact services (NewDispatcher Random) Random (λ _, 0) ServiceStatusNormal
    (text "c") [] 1) as (d' & Hd & Hall).
  - exact example_no_nil.
  - done.
  - exists d'. split; [exact Hd|].
    assert (Hroute : ∃ r, FindGameRoute 1 d' = Ok r).
    { assert (d' = (ReplaceServices services (NewDispatcher Random)).1) as -> by (by rewrite Hd).
      eexists. by vm_compute. }
    destruct Hroute as [r Hr]. rewrite Hr in *.
    destruct (last _) as [[s [se b]]|] eqn:El; [|vm_compute in El; done].
    exists se. split; [apply Hall|]. vm_compute in El. by injection El as <- <- <-.
Defined.

(** A gray node that works, and that a pick finds, is not told of events. *)
Lemma gray_nodes_miss_events :
  let d := (ReplaceServices [example_instance (text "d") (text "work") (text "1.0") (text "gray") 1]
              (NewDispatcher Random)).1 in
  match FindEvent 3 d with
  | Ok e => Event_VisitEndpoints (λ id ep s, (s ++ [(id, ep)], true)) e [] = []
  | _ => False
  end ∧
  (SelectGameNode (λ _, 0) 1 ServiceStatusGray d).2 = Ok (text "lobby", text "d").
Proof. by vm_compute. Qed.
