(* ===== verification/Balance.v ===== *)
(** * Balance: fairness of the round-robin policies

    What a sequence of picks of one route does (gameRoute.go,
    [roundRobinDispatch] and [weightRoundRobinDispatch]): plain round robin
    hands out every endpoint once per turn, the smooth weighted one hands out
    every endpoint as often as its weight says. *)
From stdpp Require Import fin_maps.
From S2P Require Import Prelude Registry Dispatcher.
#[local] Close Scope nat_scope.
Open Scope Z_scope.

(** ** Sums over lists *)

Definition sum_by {A} (f : A → Z) (l : list A) : Z := foldr (λ a s, f a + s) 0 l.

Lemma sum_by_ext {A} (f g : A → Z) l :
  (∀ a, a ∈ l → f a = g a) → sum_by f l = sum_by g l.
Proof.
  induction l as [|a l IH]; intros H; [done|]. cbn.
  rewrite H by (by left). f_equal. apply IH. intros b Hb. apply H. by right.
Qed.

Lemma sum_by_add {A} (f g : A → Z) l : sum_by (λ a, f a + g a) l = sum_by f l + sum_by g l.
Proof. unfold sum_by. induction l as [|a l IH]; cbn; lia. Qed.

Lemma sum_by_scale {A} (f : A → Z) k l : sum_by (λ a, k * f a) l = k * sum_by f l.
Proof. unfold sum_by. induction l as [|a l IH]; cbn; lia. Qed.

Lemma sum_by_const {A} k (l : list A) : sum_by (λ _, k) l = len l * k.
Proof. unfold sum_by. induction l as [|a l IH]; cbn [foldr length]; lia. Qed.

Lemma sum_by_le {A} (f g : A → Z) l : (∀ a, a ∈ l → f a ≤ g a) → sum_by f l ≤ sum_by g l.
Proof.
  induction l as [|a l IH]; intros H; cbn; [lia|].
  pose proof (H a ltac:(by left)). pose proof (IH ltac:(intros; apply H; by right)).
  unfold sum_by in *. lia.
Qed.

(** Of non-negative terms none exceeds the sum. *)
Lemma sum_by_term {A} (f : A → Z) l a :
  (∀ b, b ∈ l → 0 ≤ f b) → a ∈ l → f a ≤ sum_by f l.
Proof.
  induction l as [|b l IH]; intros H Ha; [by apply elem_of_nil in Ha|]. cbn.
  pose proof (H b ltac:(by left)) as Hb.
  assert (Hl : ∀ c, c ∈ l → 0 ≤ f c) by (intros; apply H; by right).
  pose proof (sum_by_le (λ _, 0) f l Hl) as Hs. rewrite sum_by_const in Hs.
  apply elem_of_cons in Ha as [->|Ha]; [unfold sum_by in *; lia|].
  specialize (IH Hl Ha). unfold sum_by in *. lia.
Qed.

Section balance.
Context `{UU : Url}.
Implicit Types (e se : serviceEndpoint) (es : list serviceEndpoint).

(** ** Sequences of picks of a route *)
Fixpoint picks (f : Op GameRoute serviceEndpoint) (n : nat) (r : GameRoute)
  : GameRoute * list (outcome serviceEndpoint) :=
  match n with
  | O => (r, [])
  | S n => let '(r, x) := f r in let '(r, xs) := picks f n r in (r, x :: xs)
  end.

(** ** Round robin *)

Lemma rr_pick st r :
  let es := balanceEndpoints st r in
  0 < len es < 2 ^ 63 → 0 ≤ counter r → counter r + 1 < 2 ^ 64 →
  ∃ se, es !! Z.to_nat ((counter r + 1) mod len es) = Some se ∧
        roundRobinDispatch st r = (set_counter (counter r + 1) r, Ok se).
Proof.
  intros es Hlen Hc Hw. unfold roundRobinDispatch. fold es.
  rewrite bool_decide_eq_true_2 by lia. rewrite wrapU_id by (split; lia).
  destruct (rr_index_range (counter r + 1) (len es) Hlen) as [-> Hr].
  destruct (at_index_Ok es _ Hr) as (se & Hse & ->). by exists se.
Qed.

Lemma rr_picks st n r :
  let es := balanceEndpoints st r in
  0 < len es < 2 ^ 63 → 0 ≤ counter r → counter r + Z.of_nat n < 2 ^ 64 →
  ∃ xs, picks (roundRobinDispatch st) n r = (set_counter (counter r + Z.of_nat n) r, Ok <$> xs) ∧
    length xs = n ∧
    ∀ j, (j < n)%nat → xs !! j = es !! Z.to_nat ((counter r + 1 + Z.of_nat j) mod len es).
Proof.
  cbv zeta. revert r. induction n as [|n IH]; intros r Hlen Hc Hw; cbn [picks].
  - exists []. rewrite Z.add_0_r. split_and!; [by destruct r|done|lia].
  - destruct (rr_pick st r Hlen Hc) as (se & Hse & ->); [lia|].
    destruct (IH (set_counter (counter r + 1) r)) as (xs & -> & Hl & Hxs);
      [exact Hlen|cbn;lia|cbn;lia|].
    exists (se :: xs). cbn [counter set_counter] in *. split_and!.
    + f_equal. unfold set_counter. cbn. f_equal. lia.
    + cbn. by rewrite Hl.
    + intros [|j] Hj; cbn [lookup list_lookup]; [by rewrite Z.add_0_r|].
      rewrite Hxs by lia.
      change (balanceEndpoints st (set_counter (counter r + 1) r)) with (balanceEndpoints st r).
      do 3 f_equal. lia.
Qed.

(** A turn from any index is a rotation. *)
Lemma turn_rotation {A} (es xs : list A) c :
  0 < len es → 0 ≤ c → length xs = length es →
  (∀ j, (j < length es)%nat → xs !! j = es !! Z.to_nat ((c + Z.of_nat j) mod len es)) →
  xs = drop (Z.to_nat (c mod len es)) es ++ take (Z.to_nat (c mod len es)) es.
Proof.
  intros Hn Hc Hl Hxs. set (k := Z.to_nat (c mod len es)).
  pose proof (Z.mod_pos_bound c (len es)). apply list_eq_same_length with (length es).
  - rewrite length_app, length_drop, length_take. lia.
  - done.
  - intros j x y Hj Hx Hy. rewrite Hxs in Hx by done.
    assert (Hmod : (c + Z.of_nat j) mod len es =
      (c mod len es + Z.of_nat j) mod len es) by (by rewrite Z.add_mod_idemp_l by lia).
    rewrite Hmod in Hx. destruct (decide (k + j < length es)%nat) as [Hk|Hk].
    + rewrite Z.mod_small in Hx by lia. rewrite lookup_app_l in Hy by (rewrite length_drop; lia).
      rewrite lookup_drop in Hy. replace (Z.to_nat (c mod len es + Z.of_nat j)) with (k + j)%nat in Hx
        by lia. congruence.
    + replace ((c mod len es + Z.of_nat j) mod len es) with (c mod len es + Z.of_nat j - len es)
        in Hx by (apply Z.mod_unique with 1; lia).
      rewrite lookup_app_r in Hy by (rewrite length_drop; lia).
      rewrite length_drop, lookup_take in Hy. case_decide; [|done].
      replace (Z.to_nat (c mod len es + Z.of_nat j - len es)) with (j - (length es - k))%nat in Hx
        by lia. congruence.
Qed.

(** Round robin is fair: from any state of the counter that does not wrap
    within the turn, as many consecutive picks as there are candidates return
    every candidate exactly once, in their order, without an error. *)
Theorem round_robin_turn st r :
  let es := balanceEndpoints st r in
  0 < len es < 2 ^ 63 → 0 ≤ counter r → counter r + len es < 2 ^ 64 →
  ∃ xs, picks (roundRobinDispatch st) (length es) r
          = (set_counter (counter r + len es) r, Ok <$> xs) ∧
        xs ≡ₚ es ∧ ∃ k, xs = drop k es ++ take k es.
Proof.
  intros es Hlen Hc Hw. destruct (rr_picks st (length es) r Hlen Hc Hw) as (xs & Hp & Hl & Hxs).
  exists xs. split; [done|].
  assert (Hrot := turn_rotation es xs (counter r + 1) ltac:(lia) ltac:(lia) Hl Hxs).
  split; [|eauto]. rewrite Hrot, Permutation_app_comm. by rewrite take_drop.
Qed.

(** ** Smooth weighted round robin *)

Definition refs es : list nat := se_ref <$> es.

Lemma cur_insert_eq cw se v : cur (<[se_ref se := v]> cw) se = v.
Proof. unfold cur. by rewrite lookup_insert_eq. Qed.

Lemma cur_insert_ne cw se se' v :
  se_ref se' ≠ se_ref se → cur (<[se_ref se := v]> cw) se' = cur cw se'.
Proof. intros. unfold cur. by rewrite lookup_insert_ne. Qed.

(** The loop adds to each current weight its weight, and selects a maximum. *)
Lemma weigh_spec es cw sel total :
  NoDup (refs es) → (∀ s, sel = Some s → se_ref s ∉ refs es) →
  (∀ e, e ∈ es → 0 ≤ weight e) →
  (∀ e, e ∈ es → in_s 64 (cur cw e + weight e)) →
  0 ≤ total → total + sum_by weight es < 2 ^ 63 →
  ∃ cw' sel', weigh es cw sel total = (cw', sel', total + sum_by weight es) ∧
    (∀ s, se_ref s ∉ refs es → cur cw' s = cur cw s) ∧
    (∀ e, e ∈ es → cur cw' e = cur cw e + weight e) ∧
    (∀ s, sel' = Some s →
       (sel = Some s ∨ s ∈ es) ∧ (∀ e, e ∈ es → cur cw' e ≤ cur cw' s) ∧
       (∀ s0, sel = Some s0 → cur cw' s0 ≤ cur cw' s)).
Proof.
  revert cw sel total. induction es as [|se es IH]; intros cw sel total Hnd Hsel Hw Hin Ht Hs.
  - exists cw, sel. cbn [weigh sum_by foldr]. rewrite Z.add_0_r.
    split_and!; [done|done|by intros ? ?%elem_of_nil|]. intros s ->.
    split_and!; [by left|by intros ? ?%elem_of_nil|]. intros s0 [= ->]. lia.
  - cbn [weigh refs fmap list_fmap] in *. apply NoDup_cons in Hnd as [Hnin Hnd].
    assert (Hsum : sum_by weight (se :: es) = weight se + sum_by weight es) by done.
    pose proof (Hw se ltac:(by left)) as Hw0. pose proof (Hin se ltac:(by left)) as Hin0.
    assert (Hrest : 0 ≤ sum_by weight es).
    { rewrite <- (Z.mul_0_r (len es)), <- sum_by_const. apply sum_by_le. intros; apply Hw; by right. }
    rewrite (wrapS_id 64 (cur cw se + weight se)) by done.
    rewrite (wrapS_id 64 (total + weight se)) by (unfold in_s; lia).
    set (cw1 := <[se_ref se := cur cw se + weight se]> cw).
    assert (Hes : ∀ e, e ∈ es → se_ref e ≠ se_ref se).
    { intros e He Heq. apply Hnin. rewrite <- Heq. by apply list_elem_of_fmap_2. }
    match goal with |- context [weigh es cw1 ?s ?t] => set (sel1 := s) end.
    assert (Hsel1 : (∀ s, sel1 = Some s → se_ref s ∉ se_ref <$> es) ∧
      ∃ s1, sel1 = Some s1 ∧ (sel = Some s1 ∨ s1 = se) ∧ cur cw1 se ≤ cur cw1 s1 ∧
        (∀ s0, sel = Some s0 → cur cw1 s0 ≤ cur cw1 s1)).
    { unfold sel1. destruct sel as [s0|]; [|naive_solver lia].
      specialize (Hsel s0 eq_refl). apply not_elem_of_cons in Hsel as [_ Hsel].
      case_bool_decide; (split; [naive_solver|]); eexists; (split; [done|]);
        naive_solver lia. }
    destruct Hsel1 as [Hsel1 (s1 & Es1 & Hs1 & Hge & Hge0)].
    destruct (IH cw1 sel1 (total + weight se)) as (cw' & sel' & -> & Hout & Hadd & Hmax);
      [done|exact Hsel1|intros; apply Hw; by right| |lia|lia|].
    { intros e He. unfold cw1. rewrite cur_insert_ne by auto. apply Hin. by right. }
    exists cw', sel'. split_and!.
    + f_equal. rewrite Hsum. lia.
    + intros s [Hne Hns]%not_elem_of_cons. rewrite Hout by done. by apply cur_insert_ne.
    + intros e [->|He]%elem_of_cons.
      * rewrite Hout by done. apply cur_insert_eq.
      * rewrite Hadd by done. unfold cw1. by rewrite cur_insert_ne by auto.
    + intros s Es'. destruct (Hmax s Es') as (Hfrom & Hall & Hprev).
      specialize (Hprev s1 Es1).
      assert (Hin1 : cur cw' s1 = cur cw1 s1) by (apply Hout; auto).
      split_and!.
      * rewrite Es1 in Hfrom. set_solver.
      * intros e [->|He]%elem_of_cons; [|by apply Hall]. rewrite (Hout se) by done. lia.
      * intros s0 Es0. specialize (Hge0 s0 Es0).
        assert (se_ref s0 ∉ se_ref <$> es) by (specialize (Hsel s0 Es0); set_solver).
        rewrite (Hout s0) by done. lia.
Qed.

(** How often [e] is among the picks. *)
Definition count e (xs : list serviceEndpoint) : Z :=
  len (filter (λ s, se_ref s = se_ref e) xs).

Lemma count_app e xs x :
  count e (xs ++ [x]) = count e xs + (if decide (se_ref x = se_ref e) then 1 else 0).
Proof.
  unfold count. rewrite filter_app, length_app, filter_cons, filter_nil.
  case_decide; cbn [length]; lia.
Qed.

Lemma sum_indicator es x :
  NoDup (refs es) → x ∈ es →
  sum_by (λ e, if decide (se_ref x = se_ref e) then 1 else 0) es = 1.
Proof.
  induction es as [|e es IH]; [by intros _ ?%elem_of_nil|].
  cbn [refs fmap list_fmap sum_by foldr]. intros [Hnin Hnd]%NoDup_cons Hx.
  apply elem_of_cons in Hx as [->|Hx].
  - rewrite decide_True by done. enough (sum_by (λ e0, if decide (se_ref e = se_ref e0) then 1 else 0) es
      = len es * 0) as H by (unfold sum_by in *; lia).
    rewrite <- sum_by_const. apply sum_by_ext. intros e' He'. rewrite decide_False; [done|].
    intros Heq. apply Hnin. rewrite Heq. by apply list_elem_of_fmap_2.
  - rewrite decide_False.
    + specialize (IH Hnd Hx). unfold sum_by in *. lia.
    + intros Heq. apply Hnin. rewrite <- Heq. by apply list_elem_of_fmap_2.
Qed.

Lemma sum_counts es xs :
  NoDup (refs es) → (∀ x, x ∈ xs → x ∈ es) → sum_by (λ e, count e xs) es = len xs.
Proof.
  intros Hnd. induction xs as [|x xs IH] using rev_ind; intros Hin.
  - rewrite (sum_by_ext _ (λ _, 0)), sum_by_const by done. cbn. lia.
  - rewrite (sum_by_ext _ _ es (λ e _, count_app e xs x)), sum_by_add, sum_indicator, IH;
      [rewrite length_app; cbn [length]; lia|set_solver|done|set_solver].
Qed.

(** The state after the picks [xs] from current weights all zero: each current
    weight is its exact credit, and is above minus the total. *)
Definition Balanced es (W : Z) (cw : gmap nat Z) (xs : list serviceEndpoint) : Prop :=
  (∀ x, x ∈ xs → x ∈ es) ∧
  ∀ e, e ∈ es → cur cw e = len xs * weight e - W * count e xs ∧ - W < cur cw e.

Lemma Balanced_sum es W cw xs :
  NoDup (refs es) → W = sum_by weight es → Balanced es W cw xs → sum_by (cur cw) es = 0.
Proof.
  intros Hnd HW [Hin Hcur].
  rewrite (sum_by_ext _ (λ e, len xs * weight e + (- W) * count e xs)).
  2:{ intros e He. destruct (Hcur e He) as [-> _]. lia. }
  rewrite sum_by_add, !sum_by_scale, sum_counts, <- HW by done. lia.
Qed.

(** Hence below the number of endpoints times the total. *)
Lemma Balanced_bound es W cw xs e :
  NoDup (refs es) → W = sum_by weight es → Balanced es W cw xs → e ∈ es →
  cur cw e ≤ len es * W - W.
Proof.
  intros Hnd HW HB He. pose proof (Balanced_sum es W cw xs Hnd HW HB) as Hs. destruct HB as [_ HB].
  pose proof (sum_by_term (λ e, cur cw e + W) es e) as Ht.
  rewrite sum_by_add, sum_by_const, Hs in Ht.
  enough (cur cw e + W ≤ 0 + len es * W) by lia. apply Ht; [|done].
  intros b Hb. destruct (HB b Hb). lia.
Qed.

(** Endpoints with weights that fit. *)
Record Weighted es (W : Z) : Prop := {
  w_nodup : NoDup (refs es);
  w_nonneg : ∀ e, e ∈ es → 0 ≤ weight e;
  w_total : W = sum_by weight es;
  w_pos : 0 < W;
  w_fits : len es * W < 2 ^ 63;
}.

Lemma weight_le es W e : Weighted es W → e ∈ es → weight e ≤ W.
Proof. intros [] He. subst W. by apply sum_by_term. Qed.

Lemma wrr_step es W cw xs :
  Weighted es W → Balanced es W cw xs →
  ∃ cw' se, weigh es cw None 0 = (cw', Some se, W) ∧
    Balanced es W (<[se_ref se := wrapS 64 (cur cw' se - W)]> cw') (xs ++ [se]).
Proof.
  intros HWt HB. destruct (HWt) as [Hnd Hnn HW Hpos Hfit].
  assert (Hne : 1 ≤ len es) by (destruct es; [cbn in HW; lia|cbn [length]; lia]).
  assert (HnW : W ≤ len es * W) by nia.
  assert (Hrange : ∀ e, e ∈ es → - W < cur cw e + weight e ≤ len es * W).
  { intros e He. pose proof (Balanced_bound es W cw xs e Hnd HW HB He).
    pose proof (weight_le es W e HWt He). pose proof (Hnn e He).
    destruct HB as [_ HB]. destruct (HB e He). lia. }
  destruct (weigh_spec es cw None 0) as (cw' & sel & Hw & _ & Hadd & Hmax); try done.
  { intros e He. specialize (Hrange e He). unfold in_s. lia. }
  { lia. }
  pose proof (weigh_selects es cw None 0) as Hsel. rewrite Hw in Hsel. cbn [fst snd] in Hsel.
  destruct sel as [se|]; [|destruct Hsel as [_ ->]; cbn in Hne; lia].
  exists cw', se. rewrite Hw, <- HW, Z.add_0_l. split; [done|].
  destruct (Hmax se eq_refl) as ([?|Hse] & Hle & _); [done|].
  (* the maximum is positive, the sum being the total *)
  assert (Hp : 0 < cur cw' se).
  { pose proof (Balanced_sum es W cw xs Hnd HW HB) as Hs.
    assert (Hs' : sum_by (cur cw') es = W).
    { rewrite (sum_by_ext _ _ es Hadd), sum_by_add, Hs. lia. }
    pose proof (sum_by_le (cur cw') (λ _, cur cw' se) es Hle) as Hm.
    rewrite sum_by_const, Hs' in Hm. nia. }
  pose proof (Hrange se Hse) as Hr. rewrite <- (Hadd se Hse) in Hr.
  rewrite wrapS_id by (done || (unfold in_s; lia)).
  destruct HB as [Hin HB]. split; [set_solver|].
  intros e He. destruct (HB e He) as [Hc Hl]. rewrite count_app, length_app. cbn [length].
  case_decide as Heq.
  - unfold cur at 1 3. rewrite <- Heq, lookup_insert_eq. cbn [default from_option]. unfold id.
    assert (cur cw' se = cur cw' e) as Hcc by (unfold cur; by rewrite Heq).
    rewrite Hcc, (Hadd e He), Hc in *. split; lia.
  - rewrite cur_insert_ne by auto. rewrite (Hadd e He), Hc in *. pose proof (Hnn e He). split; lia.
Qed.

Lemma wrr_picks st W n r xs :
  let es := balanceEndpoints st r in
  Weighted es W → Balanced es W (currWeight r) xs →
  ∃ cw ys, picks (weightRoundRobinDispatch st) n r = (set_currWeight cw r, Ok <$> ys) ∧
    length ys = n ∧ Balanced es W cw (xs ++ ys).
Proof.
  cbv zeta. revert r xs. induction n as [|n IH]; intros r xs HW HB; cbn [picks].
  - exists (currWeight r), []. rewrite app_nil_r. split_and!; [by destruct r|done|done].
  - destruct (wrr_step _ _ _ _ HW HB) as (cw' & se & Hw & HB').
    unfold weightRoundRobinDispatch at 1. rewrite bool_decide_eq_true_2, Hw.
    2:{ destruct HW as [_ _ HWt Hpos _]. destruct (balanceEndpoints st r); [cbn in HWt; lia|].
        cbn [length]. lia. }
    destruct (IH (set_currWeight (<[se_ref se := wrapS 64 (cur cw' se - W)]> cw') r)
      (xs ++ [se]) HW HB') as (cw & ys & -> & Hl & HBy).
    exists cw, (se :: ys). split_and!; [done|cbn; by rewrite Hl|]. by rewrite <- app_assoc in HBy.
Qed.

(** C27. Weighted round robin is fair at every moment and exact at the end of each
    cycle.  From current weights that are all zero, with weights that are not
    negative, of a positive total [W], and no overflow possible, any number of
    picks succeeds with a candidate each; no candidate is ever a full pick ahead
    of its share; and after [k * W] picks every candidate has been taken exactly
    [k] times its weight (so one of weight 0 never). *)
Theorem weighted_round_robin_fair st W n r :
  let es := balanceEndpoints st r in
  Weighted es W → (∀ e, e ∈ es → cur (currWeight r) e = 0) →
  ∃ cw xs, picks (weightRoundRobinDispatch st) n r = (set_currWeight cw r, Ok <$> xs) ∧
    length xs = n ∧ (∀ x, x ∈ xs → x ∈ es) ∧
    ∀ e, e ∈ es →
      W * count e xs < Z.of_nat n * weight e + W ∧
      ∀ k, Z.of_nat n = k * W → count e xs = k * weight e ∧ cur cw e = 0.
Proof.
  intros es HW Hz.
  destruct (wrr_picks st W n r [] HW) as (cw & xs & Hp & Hl & Hin & HB).
  { split; [by intros ? ?%elem_of_nil|]. intros e He. cbn. rewrite Hz by done.
    destruct HW. unfold count. cbn. lia. }
  exists cw, xs. cbn [app] in *. split_and!; [done..|]. intros e He.
  destruct (HB e He) as [Hc Hlt]. rewrite Hl in *. split; [lia|]. intros k Hk.
  destruct HW as [Hnd Hnn HWt Hpos Hfit].
  assert (Hall : ∀ b, b ∈ es → 0 ≤ k * weight b - count b xs).
  { intros b Hb. destruct (HB b Hb) as [Hcb Hltb]. nia. }
  assert (Hsum : sum_by (λ b, k * weight b + (-1) * count b xs) es = 0).
  { rewrite sum_by_add, !sum_by_scale, sum_counts, <- HWt, Hl by done. lia. }
  pose proof (sum_by_term (λ b, k * weight b + (-1) * count b xs) es e) as Ht.
  rewrite Hsum in Ht. specialize (Hall e He) as Hke.
  assert (k * weight e + (-1) * count e xs ≤ 0).
  { apply Ht; [|done]. intros b Hb. specialize (Hall b Hb). lia. }
  split; [lia|]. nia.
Qed.
End balance.

(** ** Examples *)

(** The route of the repository's own test: weights 4, 2 and 1. *)
Definition example_route : GameRoute :=
  let se ref id w := mkServiceEndpoint ref id (text "work") ServiceStatusNormal
                       (mkEndpoint (text "grpc://127.0.0.1:8001") false) w in
  set_abstract (foldr (λ s a, addServiceEndpoint s true a) newAbstract
    [se 2%nat (text "xc") 1; se 1%nat (text "xb") 2; se 0%nat (text "xa") 4])
    (newRoute_001 (text "lobby") 1).

Lemma round_robin_turn_witness :
  ∃ xs, picks (roundRobinDispatch ServiceStatusNormal) 3 example_route
          = (set_counter 3 example_route, Ok <$> xs) ∧
        xs ≡ₚ balanceEndpoints ServiceStatusNormal example_route.
Proof.
  destruct (round_robin_turn ServiceStatusNormal example_route) as (xs & Hp & Hperm & _);
    [by vm_compute|by vm_compute|by vm_compute|].
  exists xs. split; [exact Hp|exact Hperm].
Defined.

Lemma example_weighted :
  Weighted (balanceEndpoints ServiceStatusNormal example_route) 7.
Proof.
  constructor; try by vm_compute.
  - apply (bool_decide_unpack _). by vm_compute.
  - intros e He.
    assert (Hall : Forall (λ e, 0 ≤ weight e) (balanceEndpoints ServiceStatusNormal example_route))
      by (apply (bool_decide_unpack _); by vm_compute).
    by eapply Forall_forall in Hall.
Qed.

Lemma weighted_round_robin_fair_witness :
  ∃ cw xs, picks (weightRoundRobinDispatch ServiceStatusNormal) 14 example_route
             = (set_currWeight cw example_route, Ok <$> xs) ∧
    ∀ e, e ∈ balanceEndpoints ServiceStatusNormal example_route → count e xs = 2 * weight e.
Proof.
  destruct (weighted_round_robin_fair ServiceStatusNormal 7 14 example_route example_weighted)
    as (cw & xs & Hp & _ & _ & He).
  - intros e _. by vm_compute.
  - exists cw, xs. split; [exact Hp|]. intros e Hin. by apply (He e Hin).
Defined.

(** The smooth order of one cycle. *)
Lemma example_cycle :
  (λ x, match x with Ok se => insID se | _ => [] end) <$>
    (picks (weightRoundRobinDispatch ServiceStatusNormal) 7 example_route).2 =
  text <$> ["xa"; "xb"; "xa"; "xc"; "xa"; "xb"; "xa"]%string.
Proof. by vm_compute. Qed.
