(* ===== verification/ClientConn.v ===== *)
(** * transporter client: calls, the writer, the reader and the pool

    internal/transporter/internal/client: client.go, conn.go, message.go and
    pending.go.  Several goroutines work on one connection: the callers of
    [Client.Call], the writer and the reader of each dialed connection, and
    whoever closes it.  They share the message objects, which come from a pool
    and are passed by pointer, so the model keeps them in a store and a step of
    the system is one atomic action of one goroutine. *)
From stdpp Require Import fin_maps.
From S2P Require Import Prelude.
#[local] Close Scope nat_scope.
Open Scope Z_scope.

(** ** Data *)

(** internal/def: the states of a connection. *)
Inductive ConnState := ConnOpened | ConnHanged | ConnClosed.
#[export] Instance ConnState_eq_dec : EqDecision ConnState.
Proof. solve_decision. Defined.

(** message.go *)
Definition statePending : Z := 0.
Definition stateSent : Z := 1.
Definition stateCanceled : Z := 2.

(** A message object; [buf] is the buffer to send, [call] the channel of the
    answer, [None] for nil. *)
Record message := mkMessage {
  seq : Z;
  buf : option nat;
  call : option nat;
  state : Z;
}.

(** An answer frame that was read: its sequence number and its contents. *)
Record answer := mkAnswer { ans_seq : Z; ans_data : nat }.

(** pending.go: twenty partitions, each a map from numbers to channels. *)
Abbreviation partition := (gmap Z (option nat)).
Abbreviation pending := (list partition).
Definition newPending : pending := replicate 20 ∅.

Definition part_of (p : pending) (s : Z) : nat := Z.to_nat (s mod len p).
Definition pending_lookup (p : pending) (s : Z) : option (option nat) :=
  match p !! part_of p s with Some m => m !! s | None => None end.
Definition pending_store (s : Z) (c : option nat) (p : pending) : pending :=
  alter (λ m : partition, <[s := c]> m) (part_of p s) p.
Definition pending_delete (s : Z) (p : pending) : pending :=
  alter (λ m : partition, delete s m) (part_of p s) p.

(** ** Goroutines *)

(** Where a call of [Client.Call] stands: the message is filled in and goes to
    [conn.send]; [enqueue] holds [sendMu] for reading and found the connection
    open; [send] has returned and the [select] comes; it waits in the [select]
    on the channel it read from the message; it left the [select] because of a
    context and enters [conn.delete]; the compare-and-swap of [delete] failed;
    it has returned.  A call of [Client.Send] is done when [send] returns. *)
Inductive phase :=
  | CGot (m : nat)
  | CEnqueue (m : nat)
  | CSent (m : nat)
  | CWait (m : nat) (ch : option nat)
  | CTimeout (m : nat)
  | CDelete (m : nat)
  | CReturn (r : outcome answer)
  | CDone (err : option error).

(** A call: its number, the channel it made (none in [Client.Send]), whether it
    was still the one of its message when the [select] read it, and where it
    stands. *)
Record caller := mkCaller {
  c_seq : Z;
  c_chan : option nat;
  c_own : bool;
  c_phase : phase;
}.

(** The writer of a connection: waiting for work; holding a message it took,
    before the compare-and-swap; before [pending.store]; before the write;
    after a failed write; before [release] (then back to work, or to [retry]);
    at the compare-and-swap of [retry]; before its [cancel()]; about to drain
    the queue on its way out. *)
Inductive wphase :=
  | WIdle
  | WPopped (m : nat)
  | WStore (m : nat)
  | WVisit (m : nat)
  | WFailed (m : nat)
  | WRelease (m : nat) (ok : bool)
  | WRetry
  | WCancel
  | WExit.

(** The reader: waiting for a frame; handing an answer over; in [retry]. *)
Inductive rphase :=
  | RIdle
  | RHand (ch : option nat) (a : answer)
  | RRetry
  | RCancel.

(** ** The shared state *)
Record State := mkState {
  heap : gmap nat message;  (* the message objects *)
  pool : list nat;  (* Client.pool *)
  queue : list nat;  (* conn.queue *)
  waiting : pending;  (* conn.pending *)
  cstate : ConnState;  (* conn.state *)
  cancelled : gset nat;  (* the connections whose ctx is done *)
  current : option nat;  (* the connection behind conn.ctx *)
  dialing : option nat;  (* conn.rw is held by dial *)
  lock : option (option nat);  (* conn.sendMu is held by close, or by a writer *)
  closing : nat;  (* runs of close before its cancel() *)
  draining : nat;  (* runs of close before drainQueue *)
  callers : gmap nat caller;
  writers : gmap nat wphase;
  readers : gmap nat rphase;
  sent : list (Z * nat);  (* what went out, by number *)
  chans : nat;  (* channels made so far *)
}.

Definition init : State :=
  mkState ∅ [] [] newPending ConnClosed ∅ None None None 0 0 ∅ ∅ ∅ [] 0.

(** Updates of one field. *)
Definition set_heap x (s : State) : State :=
  mkState x (pool s) (queue s) (waiting s) (cstate s) (cancelled s) (current s) (dialing s) (lock s) (closing s) (draining s) (callers s) (writers s) (readers s) (sent s) (chans s).
Definition set_pool x (s : State) : State :=
  mkState (heap s) x (queue s) (waiting s) (cstate s) (cancelled s) (current s) (dialing s) (lock s) (closing s) (draining s) (callers s) (writers s) (readers s) (sent s) (chans s).
Definition set_queue x (s : State) : State :=
  mkState (heap s) (pool s) x (waiting s) (cstate s) (cancelled s) (current s) (dialing s) (lock s) (closing s) (draining s) (callers s) (writers s) (readers s) (sent s) (chans s).
Definition set_waiting x (s : State) : State :=
  mkState (heap s) (pool s) (queue s) x (cstate s) (cancelled s) (current s) (dialing s) (lock s) (closing s) (draining s) (callers s) (writers s) (readers s) (sent s) (chans s).
Definition set_cstate x (s : State) : State :=
  mkState (heap s) (pool s) (queue s) (waiting s) x (cancelled s) (current s) (dialing s) (lock s) (closing s) (draining s) (callers s) (writers s) (readers s) (sent s) (chans s).
Definition set_cancelled x (s : State) : State :=
  mkState (heap s) (pool s) (queue s) (waiting s) (cstate s) x (current s) (dialing s) (lock s) (closing s) (draining s) (callers s) (writers s) (readers s) (sent s) (chans s).
Definition set_current x (s : State) : State :=
  mkState (heap s) (pool s) (queue s) (waiting s) (cstate s) (cancelled s) x (dialing s) (lock s) (closing s) (draining s) (callers s) (writers s) (readers s) (sent s) (chans s).
Definition set_dialing x (s : State) : State :=
  mkState (heap s) (pool s) (queue s) (waiting s) (cstate s) (cancelled s) (current s) x (lock s) (closing s) (draining s) (callers s) (writers s) (readers s) (sent s) (chans s).
Definition set_lock x (s : State) : State :=
  mkState (heap s) (pool s) (queue s) (waiting s) (cstate s) (cancelled s) (current s) (dialing s) x (closing s) (draining s) (callers s) (writers s) (readers s) (sent s) (chans s).
Definition set_closing x (s : State) : State :=
  mkState (heap s) (pool s) (queue s) (waiting s) (cstate s) (cancelled s) (current s) (dialing s) (lock s) x (draining s) (callers s) (writers s) (readers s) (sent s) (chans s).
Definition set_draining x (s : State) : State :=
  mkState (heap s) (pool s) (queue s) (waiting s) (cstate s) (cancelled s) (current s) (dialing s) (lock s) (closing s) x (callers s) (writers s) (readers s) (sent s) (chans s).
Definition set_callers x (s : State) : State :=
  mkState (heap s) (pool s) (queue s) (waiting s) (cstate s) (cancelled s) (current s) (dialing s) (lock s) (closing s) (draining s) x (writers s) (readers s) (sent s) (chans s).
Definition set_writers x (s : State) : State :=
  mkState (heap s) (pool s) (queue s) (waiting s) (cstate s) (cancelled s) (current s) (dialing s) (lock s) (closing s) (draining s) (callers s) x (readers s) (sent s) (chans s).
Definition set_readers x (s : State) : State :=
  mkState (heap s) (pool s) (queue s) (waiting s) (cstate s) (cancelled s) (current s) (dialing s) (lock s) (closing s) (draining s) (callers s) (writers s) x (sent s) (chans s).
Definition set_sent x (s : State) : State :=
  mkState (heap s) (pool s) (queue s) (waiting s) (cstate s) (cancelled s) (current s) (dialing s) (lock s) (closing s) (draining s) (callers s) (writers s) (readers s) x (chans s).
Definition set_chans x (s : State) : State :=
  mkState (heap s) (pool s) (queue s) (waiting s) (cstate s) (cancelled s) (current s) (dialing s) (lock s) (closing s) (draining s) (callers s) (writers s) (readers s) (sent s) x.

(** [Client.release]: the message is emptied and goes back to the pool; its
    state is kept. *)
Definition release (m : nat) (s : State) : State :=
  set_pool (m :: pool s)
    (set_heap (alter (λ o, mkMessage 0 None None (state o)) m (heap s)) s).

Definition store_state (m : nat) (v : Z) (s : State) : State :=
  set_heap (alter (λ o, mkMessage (seq o) (buf o) (call o) v) m (heap s)) s.

Definition set_phase (t : nat) (c : caller) (p : phase) (s : State) : State :=
  set_callers (<[t := mkCaller (c_seq c) (c_chan c) (c_own c) p]> (callers s)) s.

(** ** Steps

    An action names the goroutine that moves and what the scheduler, the
    network or the pool choose for it. *)
Inductive action :=
  | ACall (t : nat) (choice : nat) (n : Z) (b : nat)
  | ASend (t : nat) (choice : nat) (b : nat)
  | AOpened (t : nat)
  | AEnqueue (t : nat)
  | ASendErr (t : nat)
  | ASelect (t : nat)
  | ATimeout (t : nat)
  | ADelete (t : nat)
  | AForget (t : nat)
  | AReceive (r t : nat)
  | APop (w : nat)
  | ACas (w : nat)
  | AStore (w : nat)
  | AWrite (w : nat) (ok : bool)
  | AFailed (w : nat)
  | ARelease (w : nat)
  | AHeartbeat (w : nat)
  | AWriterDone (w : nat)
  | AWriterRetry (w : nat)
  | AWriterCancel (w : nat)
  | ARead (r : nat) (a : answer)
  | AReadError (r : nat)
  | AReaderRetry (r : nat)
  | AReaderCancel (r : nat)
  | AReaderDone (r : nat)
  | ADial (g : nat)
  | AConnected
  | AHandshake (ok : bool)
  | ADialFails
  | AClose
  | ACloseCancel
  | ALock (who : option nat)
  | ADrain
  | AUnlock.

Definition queue_size : nat := Z.to_nat 4096.

(** [cancel()] of the current connection. *)
Definition cancel (s : State) : State :=
  match current s with
  | Some g => set_cancelled ({[g]} ∪ cancelled s) s
  | None => s
  end.

(** No call holds [sendMu] for reading. *)
Definition no_reader (s : State) : bool :=
  forallb (λ c, match c_phase c with CEnqueue _ => false | _ => true end)
    ((map_to_list (callers s)).*2).

Definition set_writer (w : nat) (p : wphase) (s : State) : State :=
  set_writers (<[w := p]> (writers s)) s.
Definition set_reader (r : nat) (p : rphase) (s : State) : State :=
  set_readers (<[r := p]> (readers s)) s.

(** *** The callers: Client.Call, conn.enqueue, conn.delete *)

(** [c.pool.Get()]: one of the pool, or a new message. *)
Definition get_message (choice : nat) (s : State) : nat * message * State :=
  match pool s !! choice with
  | Some m => (m, default (mkMessage 0 None None statePending) (heap s !! m),
               set_pool (delete choice (pool s)) s)
  | None => (fresh (dom (heap s)), mkMessage 0 None None statePending, s)
  end.

Definition new_caller (t : nat) (c : caller) (m : nat) (o : message) (s : State) : State :=
  set_callers (<[t := c]> (callers s)) (set_heap (<[m := o]> (heap s)) s).

Definition exec_call (t choice : nat) (n : Z) (b : nat) (s : State) : option State :=
  match callers s !! t with
  | Some _ => None
  | None =>
      let '(m, _, s) := get_message choice s in
      let ch := chans s in
      Some (set_chans (S ch) (new_caller t (mkCaller n (Some ch) false (CGot m)) m
              (mkMessage n (Some b) (Some ch) statePending) s))
  end.

(** [Client.Send] sets the buffer only. *)
Definition exec_send (t choice : nat) (b : nat) (s : State) : option State :=
  match callers s !! t with
  | Some _ => None
  | None =>
      let '(m, o, s) := get_message choice s in
      Some (new_caller t (mkCaller 0 None false (CGot m)) m
              (mkMessage (seq o) (Some b) (call o) (state o)) s)
  end.

Definition exec_enqueue (a : action) (t : nat) (c : caller) (s : State) : option State :=
  match a, c_phase c with
  (* c.sendMu.RLock(); c.state.Load() == ConnOpened *)
  | AOpened _, CGot m =>
      if bool_decide (cstate s = ConnOpened ∧ lock s = None)
      then Some (set_phase t c (CEnqueue m) s) else None
  (* c.getContext(), then case c.queue <- msg *)
  | AEnqueue _, CEnqueue m =>
      if bool_decide (dialing s = None ∧ is_Some (current s) ∧ (length (queue s) < queue_size)%nat)
      then Some (set_phase t c (match c_chan c with Some _ => CSent m | None => CDone None end)
                   (set_queue (queue s ++ [m]) s)) else None
  (* send returns an error: the connection is closed, a dial or the wait
     failed, the queue stayed full *)
  | ASendErr _, CGot m | ASendErr _, CEnqueue m =>
      Some (set_phase t c (match c_chan c with
                           | Some _ => CReturn (Err ErrConnectionClosed)
                           | None => CDone (Some ErrConnectionClosed)
                           end) (release m s))
  | _, _ => None
  end.

(** The [select] of [Client.Call]. *)
Definition exec_select (a : action) (t : nat) (c : caller) (s : State) : option State :=
  match a, c_phase c with
  (* it reads msg.call *)
  | ASelect _, CSent m =>
      o ← heap s !! m;
      Some (set_callers (<[t := mkCaller (c_seq c) (c_chan c)
                                  (bool_decide (call o = c_chan c))
                                  (CWait m (call o))]> (callers s)) s)
  | ATimeout _, CWait m _ => Some (set_phase t c (CTimeout m) s)
  | _, _ => None
  end.

(** [conn.delete], after which the call returns the error of its context. *)
Definition exec_delete (a : action) (t : nat) (c : caller) (s : State) : option State :=
  match a, c_phase c with
  (* msg.state.CompareAndSwap(statePending, stateCanceled) *)
  | ADelete _, CTimeout m =>
      o ← heap s !! m;
      if bool_decide (state o = statePending)
      then Some (set_phase t c (CReturn (Err (ErrConn 0))) (store_state m stateCanceled s))
      else Some (set_phase t c (CDelete m) s)
  (* c.pending.delete(msg.seq) *)
  | AForget _, CDelete m =>
      o ← heap s !! m;
      Some (set_phase t c (CReturn (Err (ErrConn 0)))
              (set_waiting (pending_delete (seq o) (waiting s)) s))
  | _, _ => None
  end.

Definition exec_caller (a : action) (t : nat) (c : caller) (s : State) : option State :=
  match a with
  | AOpened _ | AEnqueue _ | ASendErr _ => exec_enqueue a t c s
  | ASelect _ | ATimeout _ => exec_select a t c s
  | ADelete _ | AForget _ => exec_delete a t c s
  | _ => None
  end.

(** [case call <- buf] of the reader meets [case res := <-msg.call]. *)
Definition exec_receive (r t : nat) (s : State) : option State :=
  c ← callers s !! t;
  match readers s !! r, c_phase c with
  | Some (RHand (Some ch) a), CWait _ (Some ch') =>
      if bool_decide (ch = ch')
      then Some (set_reader r RIdle (set_phase t c (CReturn (Ok a)) s)) else None
  | _, _ => None
  end.

(** *** The writer: conn.write, conn.doWrite, conn.retry *)

Definition exec_write (a : action) (w : nat) (p : wphase) (s : State) : option State :=
  match a, p with
  | APop _, WIdle =>
      match queue s with
      | m :: q => Some (set_writer w (WPopped m) (set_queue q s))
      | [] => None
      end
  (* a heartbeat that fails or is overdue *)
  | AHeartbeat _, WIdle => Some (set_writer w WRetry s)
  | AWriterDone _, WIdle =>
      if bool_decide (w ∈ cancelled s) then Some (set_writer w WExit s) else None
  | _, _ => None
  end.

Definition exec_doWrite (a : action) (w : nat) (p : wphase) (s : State) : option State :=
  match a, p with
  | ACas _, WPopped m =>
      o ← heap s !! m;
      if bool_decide (seq o ≠ 0) then
        if bool_decide (state o = statePending)
        then Some (set_writer w (WStore m) (store_state m stateSent s))
        else Some (set_writer w (WRelease m true) s)
      else Some (set_writer w (WVisit m) s)
  | AStore _, WStore m =>
      o ← heap s !! m;
      Some (set_writer w (WVisit m) (set_waiting (pending_store (seq o) (call o) (waiting s)) s))
  | AWrite _ ok, WVisit m =>
      o ← heap s !! m;
      b ← buf o;
      if ok : bool then Some (set_writer w (WRelease m true) (set_sent (sent s ++ [(seq o, b)]) s))
      else Some (set_writer w (WFailed m) s)
  | AFailed _, WFailed m =>
      o ← heap s !! m;
      Some (set_writer w (WRelease m false)
        (if bool_decide (seq o ≠ 0) then set_waiting (pending_delete (seq o) (waiting s)) s else s))
  | ARelease _, WRelease m ok =>
      Some (set_writer w (if ok : bool then WIdle else WRetry) (release m s))
  | _, _ => None
  end.

(** [retry]: CompareAndSwap(ConnOpened, ConnHanged), then [cancel()]; the dial
    that follows is that of [exec_dial]. *)
Definition exec_retry (a : action) (w : nat) (p : wphase) (s : State) : option State :=
  match a, p with
  | AWriterRetry _, WRetry =>
      if bool_decide (cstate s = ConnOpened)
      then Some (set_writer w WCancel (set_cstate ConnHanged s)) else Some (set_writer w WExit s)
  | AWriterCancel _, WCancel =>
      if bool_decide (dialing s = None) then Some (set_writer w WExit (cancel s)) else None
  | _, _ => None
  end.

Definition exec_writer (a : action) (w : nat) (p : wphase) (s : State) : option State :=
  match a with
  | APop _ | AHeartbeat _ | AWriterDone _ => exec_write a w p s
  | ACas _ | AStore _ | AWrite _ _ | AFailed _ | ARelease _ => exec_doWrite a w p s
  | AWriterRetry _ | AWriterCancel _ => exec_retry a w p s
  | _ => None
  end.

(** *** The reader: conn.read, conn.retry *)

Definition exec_reader (a : action) (r : nat) (p : rphase) (s : State) : option State :=
  match a, p with
  | ARead _ a, RIdle =>
      match pending_lookup (waiting s) (ans_seq a) with
      | Some ch => Some (set_reader r (RHand ch a)
                           (set_waiting (pending_delete (ans_seq a) (waiting s)) s))
      | None => Some s
      end
  | AReadError _, RIdle => Some (set_reader r RRetry s)
  | AReaderRetry _, RRetry =>
      if bool_decide (cstate s = ConnOpened)
      then Some (set_reader r RCancel (set_cstate ConnHanged s))
      else Some (set_readers (delete r (readers s)) s)
  | AReaderCancel _, RCancel =>
      if bool_decide (dialing s = None)
      then Some (set_readers (delete r (readers s)) (cancel s)) else None
  | AReaderDone _, RIdle | AReaderDone _, RHand _ _ =>
      if bool_decide (r ∈ cancelled s)
      then Some (set_readers (delete r (readers s)) s) else None
  | _, _ => None
  end.

(** *** The connection: conn.dial, conn.close, drainQueue *)

Definition exec_dial (a : action) (s : State) : option State :=
  match a with
  | ADial g =>
      if bool_decide (dialing s = None ∧ cstate s ≠ ConnOpened ∧ (g ∉ cancelled s) ∧
                      current s ≠ Some g)
      then Some (set_dialing (Some g) s) else None
  (* processLocked, before the handshake *)
  | AConnected =>
      g ← dialing s; Some (set_current (Some g) (set_cstate ConnOpened s))
  | AHandshake ok =>
      g ← dialing s;
      if bool_decide (current s = Some g ∧ writers s !! g = None ∧ readers s !! g = None) then
        if ok : bool
        then Some (set_dialing None (set_writer g WIdle (set_reader g RIdle s)))
        else Some (set_dialing None (cancel (set_cstate ConnClosed s)))
      else None
  (* markClosedLocked after the last attempt *)
  | ADialFails =>
      _ ← dialing s; Some (set_dialing None (cancel (set_cstate ConnClosed s)))
  | _ => None
  end.

Definition exec_close (a : action) (s : State) : option State :=
  match a with
  | AClose =>
      if bool_decide (cstate s = ConnClosed) then Some s
      else Some (set_closing (S (closing s)) (set_cstate ConnClosed s))
  | ACloseCancel =>
      if bool_decide (0 < closing s ∧ dialing s = None)%nat
      then Some (set_draining (S (draining s)) (set_closing (pred (closing s)) (cancel s))) else None
  (* c.sendMu.Lock() of close (None) or of a writer that ends *)
  | ALock who =>
      if bool_decide (lock s = None) && no_reader s &&
         (match who with
          | None => bool_decide (0 < draining s)%nat
          | Some w => match writers s !! w with Some WExit => true | _ => false end
          end)
      then Some (set_lock (Some who) s) else None
  | ADrain =>
      match lock s, queue s with
      | Some _, m :: q => Some (release m (set_queue q s))
      | _, _ => None
      end
  | AUnlock =>
      match lock s, queue s with
      | Some None, [] => Some (set_lock None (set_draining (pred (draining s)) s))
      | Some (Some w), [] =>
          match writers s !! w with
          | Some WExit => Some (set_lock None (set_writers (delete w (writers s)) s))
          | _ => None
          end
      | _, _ => None
      end
  | _ => None
  end.

Definition exec_conn (a : action) (s : State) : option State :=
  match a with
  | ADial _ | AConnected | AHandshake _ | ADialFails => exec_dial a s
  | _ => exec_close a s
  end.

Definition exec (a : action) (s : State) : option State :=
  match a with
  | ACall t choice n b => exec_call t choice n b s
  | ASend t choice b => exec_send t choice b s
  | AOpened t | AEnqueue t | ASendErr t | ASelect t | ATimeout t | ADelete t | AForget t =>
      c ← callers s !! t; exec_caller a t c s
  | AReceive r t => exec_receive r t s
  | APop w | ACas w | AStore w | AWrite w _ | AFailed w | ARelease w | AHeartbeat w
  | AWriterDone w | AWriterRetry w | AWriterCancel w =>
      p ← writers s !! w; exec_writer a w p s
  | ARead r _ | AReadError r | AReaderRetry r | AReaderCancel r | AReaderDone r =>
      p ← readers s !! r; exec_reader a r p s
  | _ => exec_conn a s
  end.

Fixpoint run (l : list action) (s : State) : option State :=
  match l with
  | [] => Some s
  | a :: l => match exec a s with Some s => run l s | None => None end
  end.

(** The states the system can be in. *)
Inductive reachable : State → Prop :=
  | reach_init : reachable init
  | reach_step s a s' : reachable s → exec a s = Some s' → reachable s'.

(** ** Ownership

    The messages in somebody's hands: the pool, the queue, the calls that have
    not passed theirs on, the writers. *)
Definition call_holds (c : caller) : option nat :=
  match c_phase c with CGot m | CEnqueue m => Some m | _ => None end.

Definition writer_holds (p : wphase) : option nat :=
  match p with
  | WPopped m | WStore m | WVisit m | WFailed m | WRelease m _ => Some m
  | _ => None
  end.

Definition held {V} (f : V → option nat) (m : gmap nat V) : list nat :=
  omap f ((map_to_list m).*2).

(** Messages on their way: with a call, in the queue, with a writer. *)
Definition in_flight (s : State) : list nat :=
  queue s ++ held call_holds (callers s) ++ held writer_holds (writers s).
Definition owned (s : State) : list nat := pool s ++ in_flight s.

Section held.
Context {V : Type} (f : V → option nat).

Lemma held_insert_new (m : gmap nat V) k v :
  m !! k = None → held f (<[k := v]> m) ≡ₚ option_list (f v) ++ held f m.
Proof.
  intros Hk. unfold held. rewrite (map_to_list_insert m k v Hk). cbn [fmap list_fmap snd omap list_omap].
  by destruct (f v).
Qed.

Lemma held_delete (m : gmap nat V) k v :
  m !! k = Some v → held f m ≡ₚ option_list (f v) ++ held f (delete k m).
Proof.
  intros Hk. rewrite <- (insert_delete_id m k v Hk) at 1.
  apply held_insert_new. by rewrite lookup_delete_eq.
Qed.

Lemma held_insert (m : gmap nat V) k v :
  held f (<[k := v]> m) ≡ₚ option_list (f v) ++ held f (delete k m).
Proof.
  rewrite <- insert_delete_eq. apply held_insert_new. by rewrite lookup_delete_eq.
Qed.

Lemma held_elem (m : gmap nat V) x : x ∈ held f m ↔ ∃ k v, m !! k = Some v ∧ f v = Some x.
Proof.
  unfold held. rewrite list_elem_of_omap. setoid_rewrite list_elem_of_fmap. split.
  - intros (v & ([k v'] & -> & Hin) & Hf). apply elem_of_map_to_list in Hin. eauto.
  - intros (k & v & Hk & Hf). exists v. split; [|done]. exists (k, v).
    by rewrite elem_of_map_to_list.
Qed.
End held.

(** A step hands messages around, or makes a new one. *)
Definition hands_on (s s' : State) : Prop :=
  dom (heap s) ⊆ dom (heap s') ∧
  (owned s' ≡ₚ owned s ∨
   ∃ m, (m ∉ dom (heap s)) ∧ m ∈ dom (heap s') ∧ owned s' ≡ₚ m :: owned s).

Lemma dom_alter_sub (f : message → message) m (h : gmap nat message) : dom h ⊆ dom (alter f m h).
Proof. by rewrite dom_alter_L. Qed.

(** A call moves on: what it holds changes. *)
Lemma held_callers s t c c' :
  callers s !! t = Some c →
  held call_holds (callers s) ≡ₚ option_list (call_holds c) ++ held call_holds (delete t (callers s)) ∧
  held call_holds (<[t := c']> (callers s)) ≡ₚ
    option_list (call_holds c') ++ held call_holds (delete t (callers s)).
Proof. intros Hc. split; [by apply held_delete|by apply held_insert]. Qed.

Lemma held_writers s w p p' :
  writers s !! w = Some p →
  held writer_holds (writers s) ≡ₚ option_list (writer_holds p) ++ held writer_holds (delete w (writers s)) ∧
  held writer_holds (<[w := p']> (writers s)) ≡ₚ
    option_list (writer_holds p') ++ held writer_holds (delete w (writers s)).
Proof. intros Hc. split; [by apply held_delete|by apply held_insert]. Qed.

(** The successful paths of a step: every test and every look-up becomes a
    hypothesis. *)
Ltac exec_cases H :=
  repeat match type of H with
  | None = Some _ => discriminate H
  | (if bool_decide ?P then _ else _) = Some _ => case_bool_decide
  | (if ?b then _ else _) = Some _ => destruct b eqn:?
  | (?m ≫= _) = Some _ => apply bind_Some in H as (? & ? & H)
  | context [match ?x with _ => _ end] => destruct x eqn:?
  | Some _ = Some _ => injection H as H; try subst
  end; try done.

Section hands.
Implicit Types s : State.

Lemma hands_same s s' :
  heap s' = heap s → pool s' = pool s → queue s' = queue s →
  held call_holds (callers s') ≡ₚ held call_holds (callers s) →
  held writer_holds (writers s') ≡ₚ held writer_holds (writers s) → hands_on s s'.
Proof.
  intros Hh Hp Hq Hc Hw. split; [by rewrite Hh|]. left. unfold owned, in_flight.
  by rewrite Hp, Hq, Hc, Hw.
Qed.

Lemma exec_caller_hands a t c s s' :
  callers s !! t = Some c → exec_caller a t c s = Some s' → hands_on s s'.
Proof.
  intros Hc H.
  assert (Hcs : ∀ c', held call_holds (callers s) ≡ₚ
      option_list (call_holds c) ++ held call_holds (delete t (callers s)) ∧
    held call_holds (<[t := c']> (callers s)) ≡ₚ
      option_list (call_holds c') ++ held call_holds (delete t (callers s)))
    by (intros; by apply held_callers).
  unfold exec_caller, exec_enqueue, exec_select, exec_delete in H. destruct c as [n ch own ph]. cbn [c_phase c_chan c_seq] in *.
  exec_cases H;
    (split; [cbn; apply dom_alter_sub || done|]); left; unfold owned, in_flight; cbn;
    match goal with |- context [<[t := ?c']> _] => destruct (Hcs c') as [E1 E2] end;
    rewrite E1, E2; try (destruct ch); cbn; solve_Permutation.
Qed.

Lemma exec_writer_hands a w p s s' :
  writers s !! w = Some p → exec_writer a w p s = Some s' → hands_on s s'.
Proof.
  intros Hc H.
  assert (Hcs : ∀ p', held writer_holds (writers s) ≡ₚ
      option_list (writer_holds p) ++ held writer_holds (delete w (writers s)) ∧
    held writer_holds (<[w := p']> (writers s)) ≡ₚ
      option_list (writer_holds p') ++ held writer_holds (delete w (writers s)))
    by (intros; by apply held_writers).
  unfold exec_writer, exec_write, exec_doWrite, exec_retry, set_writer, cancel in H.
  exec_cases H;
    (split; [cbn; apply dom_alter_sub || done|]); left; unfold owned, in_flight; cbn;
    match goal with |- context [<[w := ?p']> _] => destruct (Hcs p') as [E1 E2] end;
    rewrite E1, E2; cbn; rewrite ?Heql; cbn; solve_Permutation.
Qed.

Lemma exec_reader_hands a r p s s' : exec_reader a r p s = Some s' → hands_on s s'.
Proof.
  unfold exec_reader, set_reader, cancel. intros H. exec_cases H; by apply hands_same.
Qed.

Lemma exec_conn_hands a s s' : exec_conn a s = Some s' → hands_on s s'.
Proof.
  unfold exec_conn, exec_dial, exec_close, cancel. intros H. exec_cases H; try by apply hands_same.
  - destruct_and!. apply hands_same; try done. unfold set_writer, set_reader. cbn.
    by rewrite held_insert_new.
  - split; [cbn; apply dom_alter_sub|]. left. unfold owned, in_flight. cbn. rewrite Heql.
    solve_Permutation.
  - apply hands_same; try done. cbn. symmetry. by rewrite (held_delete _ _ _ _ Heqo1).
Qed.

Lemma get_message_hands choice s m o s' :
  get_message choice s = (m, o, s') →
  heap s' = heap s ∧ callers s' = callers s ∧ in_flight s' = in_flight s ∧
  (pool s ≡ₚ m :: pool s' ∨ pool s' = pool s ∧ m ∉ dom (heap s)).
Proof.
  unfold get_message. destruct (pool s !! choice) as [m0|] eqn:E; intros [= <- <- <-]; cbn.
  - split_and!; try done. left. by apply delete_Permutation.
  - split_and!; try done. right. split; [done|]. apply is_fresh.
Qed.

Lemma new_caller_hands t c m o s s0 choice o0 :
  callers s0 !! t = None → get_message choice s0 = (m, o0, s) → c_phase c = CGot m →
  ∀ s', heap s' = <[m := o]> (heap s) → callers s' = <[t := c]> (callers s) →
        pool s' = pool s → queue s' = queue s → writers s' = writers s → hands_on s0 s'.
Proof.
  intros Ht Hg Hc s' Hh Hcs Hp Hq Hw.
  destruct (get_message_hands _ _ _ _ _ Hg) as (Eh & Ec & Ef & Epool).
  assert (Hown : owned s' ≡ₚ m :: pool s ++ in_flight s0).
  { rewrite <- Ef. unfold owned, in_flight. rewrite Hcs, Hp, Hq, Hw.
    rewrite held_insert_new by (by rewrite Ec). unfold call_holds at 1. rewrite Hc. cbn.
    solve_Permutation. }
  split; [rewrite Hh, dom_insert_L, Eh; set_solver|].
  destruct Epool as [E|[E Hm]].
  - left. rewrite Hown. unfold owned. by rewrite E.
  - right. exists m. rewrite Hh, dom_insert_L. split; [done|]. split; [set_solver|].
    rewrite Hown, E. done.
Qed.

Lemma exec_hands a s s' : exec a s = Some s' → hands_on s s'.
Proof.
  destruct a; cbn [exec]; intros H;
    try (by apply exec_conn_hands in H);
    try (apply bind_Some in H as (x & Hx & H);
         solve [by eapply exec_caller_hands | by eapply exec_writer_hands
               | by eapply exec_reader_hands]).
  - unfold exec_call in H. destruct (callers s !! t) eqn:Ht; [done|].
    destruct (get_message choice s) as [[m o] s1] eqn:Hg. injection H as <-.
    by eapply (new_caller_hands t (mkCaller n _ false (CGot m)) m _ s1 s _ _ Ht Hg).
  - unfold exec_send in H. destruct (callers s !! t) eqn:Ht; [done|].
    destruct (get_message choice s) as [[m o] s1] eqn:Hg. injection H as <-.
    by eapply (new_caller_hands t (mkCaller 0 None false (CGot m)) m _ s1 s _ _ Ht Hg).
  - unfold exec_receive, set_reader in H. apply bind_Some in H as (c & Hc & H).
    exec_cases H. apply hands_same; try done. cbn.
    destruct (held_callers s t c (mkCaller (c_seq c) (c_chan c) (c_own c) (CReturn (Ok a))) Hc)
      as [E1 E2].
    rewrite E1, E2. unfold call_holds. rewrite Heqp. done.
Qed.
End hands.

(** No message is ever in two hands: in every reachable state a message is
    at most once in the pool, in the queue, with a call that has not passed it
    on, or with a writer; so no message is released twice, queued twice or
    written by two goroutines, however calls, writers, readers, dials and
    closes interleave. *)
Theorem messages_in_one_hand s :
  reachable s → NoDup (owned s) ∧ ∀ m, m ∈ owned s → m ∈ dom (heap s).
Proof.
  induction 1 as [|s a s' _ [Hnd Hdom] Hx]; [split; [constructor|by intros ? ?%elem_of_nil]|].
  destruct (exec_hands a s s' Hx) as [Hsub [E|(m & Hm & Hm' & E)]]; rewrite E.
  - split; [done|]. intros m. rewrite E. set_solver.
  - split; [constructor; [intros Hin; by apply Hm, Hdom|done]|].
    intros m'. rewrite E. set_solver.
Qed.

(** ** Answers and calls *)

(** pending.go: a look-up after a store or a delete. *)
Lemma part_of_alter (f : partition → partition) i p n : part_of (alter f i p) n = part_of p n.
Proof. unfold part_of. by rewrite length_alter. Qed.

Lemma pending_store_inv n c p k ch :
  pending_lookup (pending_store n c p) k = Some ch →
  (k = n ∧ ch = c) ∨ pending_lookup p k = Some ch.
Proof.
  unfold pending_lookup, pending_store. rewrite part_of_alter.
  rewrite list_lookup_alter. case_decide as E.
  - rewrite <- E. destruct (p !! part_of p n) as [m|]; cbn; [|done].
    destruct (decide (k = n)) as [->|]; [rewrite lookup_insert_eq|rewrite lookup_insert_ne by done];
      naive_solver.
  - by right.
Qed.

Lemma pending_delete_inv n p k ch :
  pending_lookup (pending_delete n p) k = Some ch → k ≠ n ∧ pending_lookup p k = Some ch.
Proof.
  unfold pending_lookup, pending_delete. rewrite part_of_alter.
  rewrite list_lookup_alter. case_decide as E.
  - rewrite <- E. destruct (p !! part_of p n) as [m|]; cbn; [|done].
    destruct (decide (k = n)) as [->|]; [by rewrite lookup_delete_eq|by rewrite lookup_delete_ne].
  - intros H. split; [|done]. congruence.
Qed.

Lemma newPending_lookup k : pending_lookup newPending k = None.
Proof.
  unfold pending_lookup, newPending. destruct (replicate 20 _ !! _) as [m|] eqn:E; [|done].
  apply lookup_replicate in E as [-> _]. done.
Qed.

(** The channel [ch], unless it is nil, was made by a call with number [n]. *)
Definition owner (s : State) (n : Z) (ch : option nat) : Prop :=
  ∀ k, ch = Some k → ∃ t c, callers s !! t = Some c ∧ c_seq c = n ∧ c_chan c = Some k.

(** What a call that selected on its own channel may have got. *)
Definition own_answer (c : caller) : Prop :=
  c_own c = true →
  match c_phase c with
  | CWait _ ch => ch = c_chan c
  | CReturn (Ok a) => ans_seq a = c_seq c
  | _ => True
  end.

Record matched (s : State) : Prop := {
  mt_heap : ∀ m o, heap s !! m = Some o → owner s (seq o) (call o);
  mt_waiting : ∀ n ch, pending_lookup (waiting s) n = Some ch → owner s n ch;
  mt_readers : ∀ r ch a, readers s !! r = Some (RHand ch a) → owner s (ans_seq a) ch;
  mt_fresh : ∀ t c k, callers s !! t = Some c → c_chan c = Some k → (k < chans s)%nat;
  mt_inj : ∀ t t' c c' k, callers s !! t = Some c → callers s !! t' = Some c' →
             c_chan c = Some k → c_chan c' = Some k → t = t';
  mt_own : ∀ t c, callers s !! t = Some c → own_answer c;
}.

(** A call that moves on keeps its number and its channel. *)
Definition moved (c c' : caller) : Prop := c_seq c' = c_seq c ∧ c_chan c' = c_chan c.

Section matched.
Implicit Types s : State.

Lemma owner_moved s s' t c c' n ch :
  callers s !! t = Some c → moved c c' → callers s' = <[t := c']> (callers s) →
  owner s n ch → owner s' n ch.
Proof.
  intros Hc [Hn Hk] Hs Ho k Ek. destruct (Ho k Ek) as (t1 & c1 & H1 & H2 & H3).
  destruct (decide (t1 = t)) as [->|Hne].
  - exists t, c'. rewrite Hs, lookup_insert_eq. naive_solver congruence.
  - exists t1, c1. by rewrite Hs, lookup_insert_ne.
Qed.

(** Steps that keep the calls. *)
Lemma matched_shared s s' :
  matched s → callers s' = callers s → chans s' = chans s →
  (∀ m o, heap s' !! m = Some o → owner s (seq o) (call o)) →
  (∀ n ch, pending_lookup (waiting s') n = Some ch → owner s n ch) →
  (∀ r ch a, readers s' !! r = Some (RHand ch a) → owner s (ans_seq a) ch) → matched s'.
Proof.
  intros [H1 H2 H3 H4 H5 H6] Ec En Hh Hw Hr. unfold owner in *.
  split; rewrite ?Ec, ?En; unfold owner; rewrite ?Ec; eauto.
Qed.

(** Steps that move one call on. *)
Lemma matched_moved s t c c' :
  matched s → callers s !! t = Some c → moved c c' → own_answer c' →
  matched (set_callers (<[t := c']> (callers s)) s).
Proof.
  intros [H1 H2 H3 H4 H5 H6] Hc Hm Ho.
  assert (Hown : ∀ n ch, owner s n ch → owner (set_callers (<[t := c']> (callers s)) s) n ch)
    by (intros n ch; by apply owner_moved with t c c').
  assert (Hback : ∀ t1 c1, <[t := c']> (callers s) !! t1 = Some c1 →
    ∃ c0, callers s !! t1 = Some c0 ∧ c_chan c1 = c_chan c0 ∧ (own_answer c0 → own_answer c1)).
  { intros t1 c1. destruct (decide (t1 = t)) as [->|Hne].
    - rewrite lookup_insert_eq. intros [= <-]. exists c. destruct Hm. naive_solver.
    - rewrite lookup_insert_ne by done. eauto. }
  split; cbn.
  - eauto.
  - eauto.
  - eauto.
  - intros t1 c1 k (c0 & Hc0 & -> & _)%Hback. eauto.
  - intros t1 t2 c1 c2 k (c01 & Hc01 & -> & _)%Hback (c02 & Hc02 & -> & _)%Hback. eauto.
  - intros t1 c1 (c0 & Hc0 & _ & Himp)%Hback. eauto.
Qed.

(** Releasing a message, or setting its state, keeps the owners. *)
Lemma owner_release s m m' o :
  (∀ m o, heap s !! m = Some o → owner s (seq o) (call o)) →
  heap (release m s) !! m' = Some o → owner s (seq o) (call o).
Proof.
  intros H. cbn. rewrite lookup_alter. case_decide; [subst m'|by apply H].
  destruct (heap s !! m) as [o0|]; cbn; [|done]. intros [= <-] k. done.
Qed.

Lemma owner_store_state s m v m' o :
  (∀ m o, heap s !! m = Some o → owner s (seq o) (call o)) →
  heap (store_state m v s) !! m' = Some o → owner s (seq o) (call o).
Proof.
  intros H. cbn. rewrite lookup_alter. case_decide; [subst m'|by apply H].
  destruct (heap s !! m) as [o0|] eqn:E; cbn; [|done]. intros [= <-]. cbn. by apply (H m).
Qed.

Lemma matched_release s m : matched s → matched (release m s).
Proof.
  intros Hm. destruct (Hm) as [H1 H2 H3 _ _ _].
  apply (matched_shared s); try done. intros m' o. by apply owner_release.
Qed.

Lemma matched_store_state s m v : matched s → matched (store_state m v s).
Proof.
  intros Hm. destruct (Hm) as [H1 H2 H3 _ _ _].
  apply (matched_shared s); try done. intros m' o. by apply owner_store_state.
Qed.

Lemma matched_delete s n : matched s → matched (set_waiting (pending_delete n (waiting s)) s).
Proof.
  intros Hm. destruct (Hm) as [H1 H2 H3 _ _ _].
  apply (matched_shared s); try done. cbn. intros k ch [_ H]%pending_delete_inv. eauto.
Qed.

(** Steps that touch neither calls nor messages nor pending calls nor readers. *)
Lemma matched_same s s' :
  matched s → heap s' = heap s → waiting s' = waiting s → readers s' = readers s →
  callers s' = callers s → chans s' = chans s → matched s'.
Proof.
  intros Hm E1 E2 E3 E4 E5. destruct (Hm) as [H1 H2 H3 _ _ _].
  apply (matched_shared s); rewrite ?E1, ?E2, ?E3; done.
Qed.

Lemma matched_set_reader s r p :
  matched s → match p with RHand ch a => owner s (ans_seq a) ch | _ => True end →
  matched (set_reader r p s).
Proof.
  intros Hm Hp. destruct (Hm) as [H1 H2 H3 _ _ _].
  apply (matched_shared s); try done. cbn. intros r' ch a.
  destruct (decide (r' = r)) as [->|Hne].
  - rewrite lookup_insert_eq. intros [= ->]. done.
  - rewrite lookup_insert_ne by done. eauto.
Qed.

Lemma matched_drop_reader s r : matched s → matched (set_readers (delete r (readers s)) s).
Proof.
  intros Hm. destruct (Hm) as [H1 H2 H3 _ _ _].
  apply (matched_shared s); try done. cbn. intros r' ch a [_ H]%lookup_delete_Some. eauto.
Qed.

Lemma matched_caller a t c s s' :
  matched s → callers s !! t = Some c → exec_caller a t c s = Some s' → matched s'.
Proof.
  intros Hm Hc H. pose proof (mt_own _ Hm t c Hc) as Hown.
  unfold exec_caller, exec_enqueue, exec_select, exec_delete in H. destruct c as [n ch own ph]. cbn [c_phase c_chan c_seq c_own] in *.
  exec_cases H; unfold set_phase;
    (eapply matched_moved; [|exact Hc|split; reflexivity|]);
    first [ assumption | by apply matched_release | by apply matched_store_state
          | by apply matched_delete | by apply matched_same with s
          | unfold own_answer in *; cbn; first [by destruct ch | by intros ?%bool_decide_eq_true_1
          | done ] ].
Qed.

Lemma matched_writer a w p s s' : matched s → exec_writer a w p s = Some s' → matched s'.
Proof.
  intros Hm H. unfold exec_writer, exec_write, exec_doWrite, exec_retry, set_writer, cancel in H.
  exec_cases H; try (by apply matched_same with s).
  - by apply matched_same with (store_state m stateSent s); [apply matched_store_state|..].
  - pose proof (mt_heap _ Hm _ _ H0) as Ho. destruct (Hm) as [H1 H2 H3 _ _ _].
    apply (matched_shared s); try done. cbn. intros k ch [[-> ->]|?]%pending_store_inv; eauto.
  - by apply matched_same with (set_waiting (pending_delete (seq x) (waiting s)) s);
      [apply matched_delete|..].
  - by apply matched_same with (release m s); [apply matched_release|..].
  - by apply matched_same with (release m s); [apply matched_release|..].
Qed.

Lemma matched_reader a r p s s' :
  matched s → readers s !! r = Some p → exec_reader a r p s = Some s' → matched s'.
Proof.
  intros Hm Hr H. unfold exec_reader, cancel in H.
  exec_cases H; try (by apply matched_same with s);
    try (apply matched_set_reader; [|done]; try done; by apply matched_same with s);
    try (by apply matched_drop_reader).
  - apply matched_set_reader; [by apply matched_delete|]. by apply (mt_waiting _ Hm).
  - apply matched_same with (set_readers (delete r (readers s)) s); try done.
    by apply matched_drop_reader.
Qed.

Lemma matched_conn a s s' : matched s → exec_conn a s = Some s' → matched s'.
Proof.
  intros Hm H. unfold exec_conn, exec_dial, exec_close, cancel in H.
  exec_cases H; try (by apply matched_same with s).
  - match goal with |- matched (set_dialing _ (set_writer ?g _ _)) =>
      by apply matched_same with (set_reader g RIdle s); [apply matched_set_reader|..] end.
  - match goal with |- matched (release ?m _) =>
      apply matched_release; by apply matched_same with s end.
Qed.

Lemma matched_receive r t s s' : matched s → exec_receive r t s = Some s' → matched s'.
Proof.
  intros Hm H. unfold exec_receive in H. apply bind_Some in H as (c & Hc & H).
  exec_cases H. apply matched_set_reader; [|done]. unfold set_phase.
  apply (matched_moved s t c); [done..|]. intros Hown. cbn in *.
  pose proof (mt_own _ Hm t c Hc Hown) as Ho. rewrite Heqp in Ho.
  destruct (mt_readers _ Hm r _ _ Heqo n0 ltac:(congruence)) as (t' & c' & Hc' & Hs & Hk).
  assert (t' = t) as -> by (eapply (mt_inj _ Hm); eauto). congruence.
Qed.

(** A new call: a message that is filled in, a channel nobody has. *)
Lemma matched_new t c m o choice s s0 o0 n :
  matched s0 → callers s0 !! t = None → get_message choice s0 = (m, o0, s) →
  c_own c = false → (∀ k, c_chan c = Some k → k = chans s0 ∧ n = S k ∧ c_seq c = seq o) →
  (chans s0 ≤ n)%nat → (call o = c_chan c ∨ call o = call o0 ∧ seq o = seq o0) →
  matched (set_chans n (new_caller t c m o s)).
Proof.
  intros Hm Ht Hg Hf Hk Hn Ho.
  assert (Hs : heap s = heap s0 ∧ waiting s = waiting s0 ∧ readers s = readers s0 ∧
      callers s = callers s0 ∧ (owner s0 (seq o0) (call o0))).
  { unfold get_message in Hg. destruct (pool s0 !! choice) as [m0|]; injection Hg as <- <- <-; cbn.
    - split_and!; try done. destruct (heap s0 !! m0) as [o1|] eqn:E; cbn; [|by intros ?].
      by apply (mt_heap _ Hm m0).
    - by split_and!. }
  destruct Hs as (E1 & E2 & E3 & E4 & Ho0). destruct Hm as [H1 H2 H3 H4 H5 H6].
  assert (Hown : ∀ n' ch, owner s0 n' ch → owner (set_chans n (new_caller t c m o s)) n' ch).
  { intros n' ch Hch k Ek. destruct (Hch k Ek) as (t' & c' & Hc' & Hrest). exists t', c'.
    cbn. rewrite E4, lookup_insert_ne by congruence. done. }
  split; cbn; rewrite ?E1, ?E2, ?E3, ?E4.
  - intros m' o'. destruct (decide (m' = m)) as [->|Hne].
    + rewrite lookup_insert_eq. intros [= <-]. destruct Ho as [Ho|[-> ->]]; [|by apply Hown].
      intros k Ek. exists t, c. cbn. rewrite E4, lookup_insert_eq.
      split; [done|]. rewrite Ho in Ek. split; [by apply (Hk k)|done].
    + rewrite lookup_insert_ne by done. eauto.
  - eauto.
  - eauto.
  - intros t' c' k. destruct (decide (t' = t)) as [->|Hne].
    + rewrite lookup_insert_eq. intros [= <-] Ek. destruct (Hk k Ek). lia.
    + rewrite lookup_insert_ne by done. intros Hc' Ek. specialize (H4 _ _ _ Hc' Ek). lia.
  - intros t1 t2 c1 c2 k.
    destruct (decide (t1 = t)) as [->|Hne1], (decide (t2 = t)) as [->|Hne2]; try done;
      rewrite ?lookup_insert_eq, ?lookup_insert_ne by done; [| |by apply H5].
    + intros [= <-] Hc2 Ek1 Ek2. specialize (H4 _ _ _ Hc2 Ek2). destruct (Hk k Ek1). lia.
    + intros Hc1 [= <-] Ek1 Ek2. specialize (H4 _ _ _ Hc1 Ek1). destruct (Hk k Ek2). lia.
  - intros t' c'. destruct (decide (t' = t)) as [->|Hne].
    + rewrite lookup_insert_eq. intros [= <-] H. congruence.
    + rewrite lookup_insert_ne by done. eauto.
Qed.

Lemma exec_matched a s s' : matched s → exec a s = Some s' → matched s'.
Proof.
  intros Hm. destruct a; cbn [exec]; intros H;
    try (by apply (matched_conn _ s) in H);
    try (apply bind_Some in H as (x & Hx & H);
         solve [by eapply matched_caller | by eapply matched_writer | by eapply matched_reader]).
  - unfold exec_call in H. destruct (callers s !! t) eqn:Ht; [done|].
    destruct (get_message choice s) as [[m o] s1] eqn:Hg. injection H as <-.
    assert (chans s1 = chans s) as ->
      by (unfold get_message in Hg; destruct (pool s !! choice); by injection Hg as <- <- <-).
    eapply matched_new; try done; cbn; [|lia|by left]. by intros k [= <-].
  - unfold exec_send in H. destruct (callers s !! t) eqn:Ht; [done|].
    destruct (get_message choice s) as [[m o] s1] eqn:Hg. injection H as <-.
    match goal with |- matched ?s' => apply (matched_same (set_chans (chans s) s')) end; try done;
      [eapply matched_new; try done; by right|].
    cbn. unfold get_message in Hg. destruct (pool s !! choice); by injection Hg as <- <- <-.
  - by apply (matched_receive r t s).
Qed.
End matched.

Lemma init_matched : matched init.
Proof.
  split; cbn.
  - by intros m o H.
  - intros n ch. by rewrite newPending_lookup.
  - done.
  - done.
  - done.
  - done.
Qed.

(** C36. Answers reach their calls: in every reachable state, an answer the
    reader hands over goes to a channel that a call with the number of the
    answer made, and a call whose message still carried its channel when its
    [select] read it returns no answer but one to its own number. *)
Theorem answers_match_numbers s :
  reachable s →
  (∀ r k a, readers s !! r = Some (RHand (Some k) a) →
     ∃ t c, callers s !! t = Some c ∧ c_seq c = ans_seq a ∧ c_chan c = Some k) ∧
  (∀ t c a, callers s !! t = Some c → c_own c = true → c_phase c = CReturn (Ok a) →
     ans_seq a = c_seq c).
Proof.
  intros Hr. assert (Hm : matched s).
  { induction Hr as [|s a s' _ IH Hx]; [exact init_matched|]. by eapply exec_matched. }
  split.
  - intros r k a Ha. by apply (mt_readers _ Hm r _ _ Ha).
  - intros t c a Hc Hown Hp. pose proof (mt_own _ Hm t c Hc Hown) as Ho. by rewrite Hp in Ho.
Qed.

(** ** What the pool makes possible *)

Definition dial : list action := [ADial 0; AConnected; AHandshake true].

(** The writer takes the next message, writes it and gives it back. *)
Definition written : list action := [APop 0; ACas 0; AStore 0; AWrite 0 true; ARelease 0].

(** Call 1 is sent; before its [select] reads the channel, its message has been
    released and taken by call 2. *)
Definition swapped : list action :=
  dial ++ [ACall 1 0 1 101; AOpened 1; AEnqueue 1] ++ written ++
  [ACall 2 0 2 102; ASelect 1; AOpened 2; AEnqueue 2; ASelect 2] ++ written ++
  [ARead 0 (mkAnswer 2 202); AReceive 0 1].

(** Call 1 times out after its message was released: the entry stays. *)
Definition leaked : list action :=
  dial ++ [ACall 1 0 1 101; AOpened 1; AEnqueue 1; ASelect 1] ++ written ++
  [ATimeout 1; ADelete 1; AForget 1;
   ACall 2 0 2 102; AOpened 2; AEnqueue 2; ASelect 2] ++ written ++
  [ARead 0 (mkAnswer 1 201)].

(** Call 1 times out while its message belongs to call 2, and cancels it. *)
Definition cancels : list action :=
  dial ++ [ACall 1 0 1 101; AOpened 1; AEnqueue 1; ASelect 1] ++ written ++
  [ATimeout 1; ACall 2 0 2 102; AOpened 2; AEnqueue 2; ADelete 1; ASelect 2;
   APop 0; ACas 0; ARelease 0].

Lemma run_reachable l s s' : reachable s → run l s = Some s' → reachable s'.
Proof.
  revert s. induction l as [|a l IH]; intros s Hs; cbn [run]; [by intros [= <-]|].
  destruct (exec a s) as [s1|] eqn:E; [|done]. apply IH. by eapply reach_step.
Qed.

(** The state after the actions, all of which can be taken. *)
Definition after (l : list action) : State := default init (run l init).

Lemma after_reachable l : reachable (after l).
Proof.
  unfold after. destruct (run l init) as [s|] eqn:E; [|constructor].
  by apply (run_reachable l init), E; constructor.
Qed.

Lemma leaked_callers t c :
  callers (after leaked) !! t = Some c →
  c = mkCaller 1 (Some 0%nat) true (CReturn (Err (ErrConn 0))) ∨
  c = mkCaller 2 (Some 1%nat) true (CWait 0 (Some 1%nat)).
Proof.
  intros Hc%elem_of_map_to_list.
  assert (Hmap : map_to_list (callers (after leaked)) =
    [(2%nat, mkCaller 2 (Some 1%nat) true (CWait 0 (Some 1%nat)));
     (1%nat, mkCaller 1 (Some 0%nat) true (CReturn (Err (ErrConn 0))))]) by by vm_compute.
  rewrite Hmap in Hc. clear Hmap. apply elem_of_cons in Hc as [[= -> ->]|Hc]; [by right|].
  apply elem_of_cons in Hc as [[= -> ->]|Hc]; [by left|].
  exfalso. exact (not_elem_of_nil _ Hc).
Qed.

Definition phase_of (s : State) (t : nat) : option phase := c_phase <$> callers s !! t.

(** No call can ever receive on the channel [k]. *)
Definition nobody_waits (s : State) (k : nat) : Prop :=
  ∀ t c, callers s !! t = Some c →
    match c_phase c with
    | CReturn _ | CDone _ => True
    | CWait _ (Some k') => k' ≠ k
    | _ => False
    end.

(** Pooling the messages while callers still use them goes wrong in three
    ways, each a sequence of steps of the code from its start: a call returns
    the answer to another call's number; a call that timed out leaves its entry
    behind, so that its late answer blocks the reader on a channel nobody
    receives from, and no answer of this connection is read any more; and a
    call that timed out cancels a message that by then is another call's, which
    is never sent. *)
Theorem pooled_messages_race :
  (∃ s, reachable s ∧ phase_of s 1 = Some (CReturn (Ok (mkAnswer 2 202))) ∧
        c_seq <$> callers s !! 1%nat = Some 1) ∧
  (∃ s, reachable s ∧ phase_of s 1 = Some (CReturn (Err (ErrConn 0))) ∧
        readers s !! 0%nat = Some (RHand (Some 0%nat) (mkAnswer 1 201)) ∧ nobody_waits s 0 ∧
        (∀ a, exec (ARead 0 a) s = None) ∧ (∀ t, exec (AReceive 0 t) s = None) ∧
        exec (AReaderDone 0) s = None) ∧
  (∃ s, reachable s ∧ phase_of s 2 = Some (CWait 0 (Some 1%nat)) ∧
        sent s = [(1, 101%nat)] ∧ pending_lookup (waiting s) 2 = None ∧
        queue s = [] ∧ pool s = [0%nat]).
Proof.
  split_and!.
  - exists (after swapped). split; [apply after_reachable|]. by vm_compute.
  - exists (after leaked). split; [apply after_reachable|].
    assert (Hr : readers (after leaked) !! 0%nat = Some (RHand (Some 0%nat) (mkAnswer 1 201)))
      by by vm_compute.
    pose proof leaked_callers as Hcs.
    split; [by vm_compute|]. split; [exact Hr|]. split; [|split; [|split]].
    + intros t c Hc. by destruct (Hcs t c Hc) as [-> | ->].
    + intros a. cbn [exec]. by rewrite Hr.
    + intros t. cbn [exec]. unfold exec_receive. rewrite Hr.
      destruct (callers (after leaked) !! t) as [c|] eqn:Hc; [|done].
      by destruct (Hcs t c Hc) as [-> | ->].
    + by vm_compute.
  - exists (after cancels). split; [apply after_reachable|]. by vm_compute.
Qed.

(** ** Witnesses *)

Lemma messages_in_one_hand_witness : NoDup (owned (after cancels)) ∧ owned (after cancels) = [0%nat].
Proof.
  split; [exact (proj1 (messages_in_one_hand (after cancels) (after_reachable cancels)))|].
  by vm_compute.
Defined.

(** Two calls that select in time: each gets its answer, in the other order. *)
Definition two_calls : list action :=
  dial ++ [ACall 1 0 1 101; AOpened 1; AEnqueue 1; ASelect 1;
           ACall 2 0 2 102; AOpened 2; AEnqueue 2; ASelect 2] ++ written ++ written ++
  [ARead 0 (mkAnswer 2 202); AReceive 0 2; ARead 0 (mkAnswer 1 201); AReceive 0 1].

Lemma answers_match_numbers_witness :
  (∀ c a, callers (after two_calls) !! 1%nat = Some c → c_own c = true →
          c_phase c = CReturn (Ok a) → ans_seq a = c_seq c) ∧
  phase_of (after two_calls) 1 = Some (CReturn (Ok (mkAnswer 1 201))) ∧
  phase_of (after two_calls) 2 = Some (CReturn (Ok (mkAnswer 2 202))).
Proof.
  destruct (answers_match_numbers (after two_calls) (after_reachable two_calls)) as [_ H].
  split; [intros c a; apply (H 1%nat)|]. by vm_compute.
Defined.
