(* ===== verification/Policy.v ===== *)
(** * cluster/gate: service-status policy, route watcher; cluster/versionretire

    options.go, policy.go and route_watcher.go of the gate, the policy event of
    component/eventbus and the watcher of cluster/versionretire: which lane of
    nodes a user is sent to, which messages need a bound user, and when an
    outdated process shuts itself down. *)
From stdpp Require Import gmap pretty sorting.
From S2P Require Import Prelude Registry.
#[local] Close Scope nat_scope.
Open Scope Z_scope.

(** ** hash/fnv and strconv *)

(** [fnv.New32a()] and its [Write]. *)
Definition fnv_offset32 : Z := 2166136261.
Definition fnv_prime32 : Z := 16777619.
Definition fnv_Write (hash : Z) (data : list Z) : Z :=
  foldl (λ hash c, wrapU 32 (Z.lxor hash c * fnv_prime32)) hash data.

(** [strconv.FormatInt(v, 10)]. *)
Definition FormatInt (v : Z) : list Z := text (pretty v).

(** [salt + ":" + uid], hashed and cut into a hundred. *)
Definition trafficBucket (uid : Z) (salt : list Z) : Z :=
  let hasher := fnv_offset32 in
  let hasher := fnv_Write hasher salt in
  let hasher := fnv_Write hasher (text ":") in
  let hasher := fnv_Write hasher (FormatInt uid) in
  hasher mod 100.

Definition normalizeTrafficPercent (percent : Z) : Z :=
  if bool_decide (percent < 0) then 0
  else if bool_decide (percent > 100) then 100
  else percent.

(** ** Options of a gate

    The fields the policy is made of.  A set is a Go map with empty values; a
    checker is a function of the application or nil. *)
Record options := mkOptions {
  o_id : list Z;
  o_name : list Z;
  grayWhitelist : gset Z;
  grayUserChecker : option (Z → bool);
  grayTrafficPct : Z;
  grayTrafficSalt : list Z;
  testWhitelist : gset Z;
  testUserChecker : option (Z → bool);
}.

(** The configuration keys [defaultOptions] reads. *)
Record config := mkConfig {
  cfg_id : list Z;
  cfg_name : list Z;
  cfg_grayWhitelist : list Z;
  cfg_grayTrafficPct : Z;
  cfg_grayTrafficSalt : list Z;
  cfg_testWhitelist : list Z;
}.

(** [for _, uid := range uids { if uid > 0 { set[uid] = struct{}{} } }] *)
Fixpoint add_uids (uids : list Z) (set : gset Z) : gset Z :=
  match uids with
  | [] => set
  | uid :: uids => add_uids uids (if bool_decide (uid > 0) then {[uid]} ∪ set else set)
  end.

Definition sliceToSet (uids : list Z) : gset Z := add_uids uids ∅.

Definition defaultOptions (c : config) (uuid : list Z) : options := {|
  o_id := if bool_decide (cfg_id c = []) then uuid else cfg_id c;
  o_name := if bool_decide (cfg_name c = []) then text "gate" else cfg_name c;
  grayWhitelist := add_uids (cfg_grayWhitelist c) ∅;
  grayUserChecker := None;
  grayTrafficPct := normalizeTrafficPercent (cfg_grayTrafficPct c);
  grayTrafficSalt := cfg_grayTrafficSalt c;
  testWhitelist := add_uids (cfg_testWhitelist c) ∅;
  testUserChecker := None;
|}.

Definition Option := options → options.

Definition WithID (id : list Z) : Option := λ o,
  mkOptions id (o_name o) (grayWhitelist o) (grayUserChecker o) (grayTrafficPct o)
    (grayTrafficSalt o) (testWhitelist o) (testUserChecker o).
Definition WithName (name : list Z) : Option := λ o,
  mkOptions (o_id o) name (grayWhitelist o) (grayUserChecker o) (grayTrafficPct o)
    (grayTrafficSalt o) (testWhitelist o) (testUserChecker o).
Definition WithGrayWhitelist (uids : list Z) : Option := λ o,
  mkOptions (o_id o) (o_name o) (add_uids uids (grayWhitelist o)) (grayUserChecker o)
    (grayTrafficPct o) (grayTrafficSalt o) (testWhitelist o) (testUserChecker o).
Definition WithGrayUserChecker (checker : option (Z → bool)) : Option := λ o,
  mkOptions (o_id o) (o_name o) (grayWhitelist o) checker (grayTrafficPct o)
    (grayTrafficSalt o) (testWhitelist o) (testUserChecker o).
Definition WithGrayTrafficPercent (percent : Z) : Option := λ o,
  mkOptions (o_id o) (o_name o) (grayWhitelist o) (grayUserChecker o)
    (normalizeTrafficPercent percent) (grayTrafficSalt o) (testWhitelist o) (testUserChecker o).
Definition WithGrayTrafficSalt (salt : list Z) : Option := λ o,
  mkOptions (o_id o) (o_name o) (grayWhitelist o) (grayUserChecker o) (grayTrafficPct o)
    salt (testWhitelist o) (testUserChecker o).
Definition WithTestWhitelist (uids : list Z) : Option := λ o,
  mkOptions (o_id o) (o_name o) (grayWhitelist o) (grayUserChecker o) (grayTrafficPct o)
    (grayTrafficSalt o) (add_uids uids (testWhitelist o)) (testUserChecker o).
Definition WithTestUserChecker (checker : option (Z → bool)) : Option := λ o,
  mkOptions (o_id o) (o_name o) (grayWhitelist o) (grayUserChecker o) (grayTrafficPct o)
    (grayTrafficSalt o) (testWhitelist o) checker.

(** ** The lane of a user *)

Record serviceStatusDecision := mkDecision {
  targetStatus : ServiceStatus;
  reason : list Z;
  grayWhitelistHit : bool;
  testWhitelistHit : bool;
  grayTrafficHit : bool;
  grayTrafficBucket : Z;
}.

(** [checker != nil && checker(uid)] *)
Definition passes (checker : option (Z → bool)) (uid : Z) : bool :=
  match checker with Some f => f uid | None => false end.

Definition resolveServiceStatusDecision (o : options) (uid : Z) : serviceStatusDecision :=
  if bool_decide (uid <= 0) then
    mkDecision ServiceStatusNormal (text "invalid_uid") false false false 0
  else if passes (testUserChecker o) uid then
    mkDecision ServiceStatusTest (text "test_checker") false false false 0
  else if bool_decide (uid ∈ testWhitelist o) then
    mkDecision ServiceStatusTest (text "test_whitelist") false true false 0
  else if passes (grayUserChecker o) uid then
    mkDecision ServiceStatusGray (text "gray_checker") false false false 0
  else if bool_decide (uid ∈ grayWhitelist o) then
    mkDecision ServiceStatusGray (text "gray_whitelist") true false false 0
  else if bool_decide (grayTrafficPct o > 0) then
    let bucket := trafficBucket uid (grayTrafficSalt o) in
    if bool_decide (bucket < grayTrafficPct o) then
      mkDecision ServiceStatusGray (text "gray_percent") false false true bucket
    else mkDecision ServiceStatusNormal (text "normal_default") false false false bucket
  else mkDecision ServiceStatusNormal (text "normal_default") false false false 0.

Definition resolveServiceStatus (o : options) (uid : Z) : ServiceStatus :=
  targetStatus (resolveServiceStatusDecision o uid).

(** ** Policies and policy events (component/eventbus) *)

Record ServiceStatusPolicy := mkPolicy {
  GrayWhitelist : list Z;
  GrayTrafficPercent : Z;
  GrayTrafficSalt : list Z;
  TestWhitelist : list Z;
}.

Record ServiceStatusPolicyEvent := mkEvent {
  GateIDs : list (list Z);
  GateNames : list (list Z);
  Policy : ServiceStatusPolicy;
}.

Definition MatchGate (e : option ServiceStatusPolicyEvent) (id name : list Z) : bool :=
  match e with
  | None => false
  | Some e =>
      if bool_decide (GateIDs e = [] ∧ GateNames e = []) then true
      else bool_decide (id ∈ GateIDs e) || bool_decide (name ∈ GateNames e)
  end.

(** Go iterates over a map in an order of its own: [order] is that order. *)
Section policies.
Context (order : gset Z → list Z).

Definition mapKeys (set : gset Z) : list Z := if bool_decide (set = ∅) then [] else order set.

Definition serviceStatusPolicy (o : options) : ServiceStatusPolicy :=
  mkPolicy (mapKeys (grayWhitelist o)) (grayTrafficPct o) (grayTrafficSalt o)
    (mapKeys (testWhitelist o)).

Definition updateServiceStatusPolicy (policy : ServiceStatusPolicy) (isMathchGate : bool)
    (o : options) : options * ServiceStatusPolicy :=
  let o := mkOptions (o_id o) (o_name o) (sliceToSet (GrayWhitelist policy)) (grayUserChecker o)
             (normalizeTrafficPercent (GrayTrafficPercent policy)) (grayTrafficSalt o)
             (testWhitelist o) (testUserChecker o) in
  let o := if isMathchGate
           then mkOptions (o_id o) (o_name o) (grayWhitelist o) (grayUserChecker o)
                  (grayTrafficPct o) (GrayTrafficSalt policy)
                  (sliceToSet (TestWhitelist policy)) (testUserChecker o)
           else o in
  (o, mkPolicy (mapKeys (grayWhitelist o)) (grayTrafficPct o) (grayTrafficSalt o)
        (mapKeys (testWhitelist o))).

(** A gate, or nil. *)
Definition gate_ServiceStatusPolicy (g : option options) : ServiceStatusPolicy :=
  match g with None => mkPolicy [] 0 [] [] | Some o => serviceStatusPolicy o end.

Definition ApplyServiceStatusPolicy (policy : ServiceStatusPolicy) (isMathchGate : bool)
    (g : option options) : option options * ServiceStatusPolicy :=
  match g with
  | None => (None, mkPolicy [] 0 [] [])
  | Some o => let '(o, current) := updateServiceStatusPolicy policy isMathchGate o in
              (Some o, current)
  end.

(** The handler [subscribeServiceStatusPolicy] registers. *)
Definition on_policy_event (payload : option ServiceStatusPolicyEvent) (o : options) : options :=
  match payload with
  | None => o
  | Some e =>
      let isMathchGate := MatchGate payload (o_id o) (o_name o) in
      default o (ApplyServiceStatusPolicy (Policy e) isMathchGate (Some o)).1
  end.
End policies.

(** ** What every gate's options satisfy *)

(** The options a gate can have: the defaults under some configuration, changed
    by options and by policy events. *)
Inductive configured (order : gset Z → list Z) : options → Prop :=
  | configured_default c uuid : configured order (defaultOptions c uuid)
  | configured_id id o : configured order o → configured order (WithID id o)
  | configured_name name o : configured order o → configured order (WithName name o)
  | configured_gray uids o : configured order o → configured order (WithGrayWhitelist uids o)
  | configured_gray_checker f o : configured order o → configured order (WithGrayUserChecker f o)
  | configured_percent p o : configured order o → configured order (WithGrayTrafficPercent p o)
  | configured_salt s o : configured order o → configured order (WithGrayTrafficSalt s o)
  | configured_test uids o : configured order o → configured order (WithTestWhitelist uids o)
  | configured_test_checker f o : configured order o → configured order (WithTestUserChecker f o)
  | configured_event e o : configured order o → configured order (on_policy_event order e o).

Definition positive (s : gset Z) : Prop := ∀ uid, uid ∈ s → 0 < uid.

Record wf_options (o : options) : Prop := {
  wf_percent : 0 ≤ grayTrafficPct o ≤ 100;
  wf_gray : positive (grayWhitelist o);
  wf_test : positive (testWhitelist o);
}.

Lemma add_uids_elem uids s uid :
  uid ∈ add_uids uids s ↔ (uid ∈ uids ∧ 0 < uid) ∨ uid ∈ s.
Proof.
  revert s. induction uids as [|u uids IH]; intros s; cbn [add_uids]; [set_solver|].
  rewrite IH. case_bool_decide as Hu; rewrite elem_of_cons, ?elem_of_union, ?elem_of_singleton.
  - naive_solver lia.
  - split; [naive_solver|]. intros [[[->|?] ?]|?]; [lia|naive_solver..].
Qed.

Lemma add_uids_positive uids s : positive s → positive (add_uids uids s).
Proof. intros Hs uid [[_ ?]|?]%add_uids_elem; [done|by apply Hs]. Qed.

Lemma positive_empty : positive ∅.
Proof. intros uid []%not_elem_of_empty. Qed.

Lemma normalize_range percent : 0 ≤ normalizeTrafficPercent percent ≤ 100.
Proof. unfold normalizeTrafficPercent. repeat case_bool_decide; lia. Qed.

#[local] Hint Resolve add_uids_positive positive_empty normalize_range : core.

Lemma configured_wf order o : configured order o → wf_options o.
Proof.
  induction 1; try (destruct IHconfigured; split; cbn; by auto); [by split; cbn; auto|].
  destruct e as [e|]; [|done]. cbn. destruct IHconfigured.
  case_match; split; cbn; unfold sliceToSet; auto.
Qed.

Lemma trafficBucket_range uid salt : 0 ≤ trafficBucket uid salt < 100.
Proof. by apply Z.mod_pos_bound. Qed.

(** ** Properties *)

(** Who is a tester, who is on trial. *)
Definition tester (o : options) (uid : Z) : Prop :=
  passes (testUserChecker o) uid = true ∨ uid ∈ testWhitelist o.
Definition on_trial (o : options) (uid : Z) : Prop :=
  passes (grayUserChecker o) uid = true ∨ uid ∈ grayWhitelist o ∨
  trafficBucket uid (grayTrafficSalt o) < grayTrafficPct o.

(** The lane, decided. *)
Lemma resolve_cases o uid :
  let d := resolveServiceStatusDecision o uid in
  match targetStatus d with
  | ServiceStatusTest => 0 < uid ∧ tester o uid
  | ServiceStatusGray => 0 < uid ∧ ¬ tester o uid ∧ on_trial o uid
  | ServiceStatusNormal =>
      uid ≤ 0 ∨ (¬ tester o uid ∧ (0 ≤ grayTrafficPct o → ¬ on_trial o uid))
  end.
Proof.
  unfold resolveServiceStatusDecision, tester, on_trial.
  pose proof (trafficBucket_range uid (grayTrafficSalt o)).
  case_bool_decide; [cbn; lia|].
  destruct (passes (testUserChecker o) uid); [cbn; split; [lia|auto]|].
  case_bool_decide; [cbn; split; [lia|auto]|].
  destruct (passes (grayUserChecker o) uid); [cbn; naive_solver lia|].
  case_bool_decide; [cbn; naive_solver lia|].
  case_bool_decide; [case_bool_decide|]; cbn; naive_solver lia.
Qed.

Lemma resolve_gray o uid :
  0 < uid → ¬ tester o uid → on_trial o uid → 0 ≤ grayTrafficPct o →
  resolveServiceStatus o uid = ServiceStatusGray.
Proof.
  intros Hu Ht Hg Hp. unfold resolveServiceStatus. pose proof (resolve_cases o uid) as H.
  cbn zeta in H. destruct (targetStatus _); [|done|]; naive_solver lia.
Qed.

(** Every user has one lane, decided in a fixed order: in every configuration
    a gate can reach, a user goes to the test nodes exactly when the checker or
    the whitelist of testers names it, to the gray nodes exactly when it is no
    tester and the gray checker, the gray whitelist or its bucket selects it,
    and to the normal nodes otherwise; an id that is not positive is always
    normal.  The percentage stays within 0 and 100, so that 0 selects nobody by
    bucket and 100 everybody; whichever rule decided is the one reported. *)
Theorem lanes_of_users order o uid :
  configured order o →
  let d := resolveServiceStatusDecision o uid in
  (targetStatus d = ServiceStatusTest ↔ 0 < uid ∧ tester o uid) ∧
  (targetStatus d = ServiceStatusGray ↔ 0 < uid ∧ ¬ tester o uid ∧ on_trial o uid) ∧
  (targetStatus d = ServiceStatusNormal ↔ uid ≤ 0 ∨ (¬ tester o uid ∧ ¬ on_trial o uid)) ∧
  0 ≤ grayTrafficPct o ≤ 100 ∧
  0 ≤ trafficBucket uid (grayTrafficSalt o) < 100 ∧
  (testWhitelistHit d = true → uid ∈ testWhitelist o ∧ targetStatus d = ServiceStatusTest) ∧
  (grayWhitelistHit d = true → uid ∈ grayWhitelist o ∧ targetStatus d = ServiceStatusGray) ∧
  (grayTrafficHit d = true →
     grayTrafficBucket d = trafficBucket uid (grayTrafficSalt o) ∧
     grayTrafficBucket d < grayTrafficPct o ∧ targetStatus d = ServiceStatusGray).
Proof.
  intros [Hp Hg Ht]%configured_wf d.
  pose proof (resolve_cases o uid) as H. cbn zeta in H. fold d in H.
  split; [|split; [|split]]; [destruct (targetStatus d); naive_solver lia..|].
  split; [done|]. split; [apply trafficBucket_range|]. clear H. subst d.
  unfold resolveServiceStatusDecision.
  repeat (case_bool_decide; cbn; try done) || (case_match; cbn; try done).
Qed.

Lemma positive_sliceToSet s uids :
  positive s → (∀ uid, uid ∈ uids ↔ uid ∈ s) → sliceToSet uids = s.
Proof.
  intros Hs Hu. apply (set_eq (A:=Z)). intros uid. unfold sliceToSet.
  rewrite add_uids_elem, Hu. split; [intros [[? _]|[]%not_elem_of_empty]; done|auto].
Qed.

Lemma mapKeys_elem order s uid :
  (∀ s : gset Z, order s ≡ₚ elements s) → uid ∈ mapKeys order s ↔ uid ∈ s.
Proof.
  intros Ho. unfold mapKeys. case_bool_decide as E; [subst; set_solver|].
  by rewrite Ho, elem_of_elements.
Qed.

(** A trial can be widened without taking anyone out: a policy event sets the
    gray whitelist and the (clamped) percentage of every gate, the salt and the
    testers only of the gates it names.  When it lists at least the users listed
    before, does not lower the percentage and leaves the salt, every user that
    was sent to gray or test nodes still is; and a gate's own policy sent back
    to it changes nothing. *)
Theorem policy_events order o e :
  (∀ s : gset Z, order s ≡ₚ elements s) → configured order o →
  let p := Policy e in
  let here := MatchGate (Some e) (o_id o) (o_name o) in
  let o' := on_policy_event order (Some e) o in
  grayWhitelist o' = sliceToSet (GrayWhitelist p) ∧
  grayTrafficPct o' = normalizeTrafficPercent (GrayTrafficPercent p) ∧
  grayTrafficSalt o' = (if here then GrayTrafficSalt p else grayTrafficSalt o) ∧
  testWhitelist o' = (if here then sliceToSet (TestWhitelist p) else testWhitelist o) ∧
  grayUserChecker o' = grayUserChecker o ∧ testUserChecker o' = testUserChecker o ∧
  o_id o' = o_id o ∧ o_name o' = o_name o ∧
  ((∀ uid, uid ∈ grayWhitelist o → uid ∈ GrayWhitelist p) →
   (∀ uid, uid ∈ testWhitelist o → uid ∈ TestWhitelist p) →
   grayTrafficPct o ≤ GrayTrafficPercent p → GrayTrafficSalt p = grayTrafficSalt o →
   ∀ uid, resolveServiceStatus o uid ≠ ServiceStatusNormal →
          resolveServiceStatus o' uid ≠ ServiceStatusNormal) ∧
  on_policy_event order (Some (mkEvent [] [] (serviceStatusPolicy order o))) o = o.
Proof.
  intros Horder Hconf p here o'.
  pose proof (configured_wf _ _ Hconf) as [Hpct Hgray Htest].
  assert (wf_options o') as [Hpct' _ _] by (by eapply configured_wf, configured_event).
  assert (E : o' = mkOptions (o_id o) (o_name o) (sliceToSet (GrayWhitelist p))
    (grayUserChecker o) (normalizeTrafficPercent (GrayTrafficPercent p))
    (if here then GrayTrafficSalt p else grayTrafficSalt o)
    (if here then sliceToSet (TestWhitelist p) else testWhitelist o) (testUserChecker o)).
  { subst o'. cbn -[MatchGate]. fold here. by destruct here. }
  rewrite E in Hpct' |- *. clear E. clearbody o'. clear o'. clearbody here. cbn in Hpct' |- *.
  do 8 (split; [done|]). split.
  - intros Hg Ht Hp Hs uid. unfold resolveServiceStatus at 1.
    pose proof (resolve_cases o uid) as Hc. cbn zeta in Hc. intros Hn.
    set (o' := mkOptions _ _ _ _ _ _ _ _). unfold resolveServiceStatus.
    pose proof (resolve_cases o' uid) as Hc'. cbn zeta in Hc'.
    destruct (targetStatus (resolveServiceStatusDecision o' uid)); try done.
    exfalso. assert (tester o uid → tester o' uid).
    { intros [?|Hin]; [by left|right]. cbn. destruct here; [|done].
      apply add_uids_elem. left. auto. }
    assert (on_trial o uid → on_trial o' uid).
    { intros [?|[Hin|Hb]]; [by left|right; left|right; right].
      - cbn. apply add_uids_elem. left. auto.
      - cbn. replace (if here then _ else _) with (grayTrafficSalt o) by (by destruct here).
        unfold normalizeTrafficPercent. pose proof (trafficBucket_range uid (grayTrafficSalt o)).
        repeat case_bool_decide; lia. }
    destruct (targetStatus (resolveServiceStatusDecision o uid)); try done; naive_solver lia.
  - destruct o as [id name gw gc pct salt tw tc]. cbn in *. f_equal.
    + apply positive_sliceToSet; [done|]. intros. by apply mapKeys_elem.
    + unfold normalizeTrafficPercent. repeat case_bool_decide; lia.
    + apply positive_sliceToSet; [done|]. intros. by apply mapKeys_elem.
Qed.

(** ** Examples and witnesses *)

Definition example_config : config :=
  mkConfig (text "g1") [] [7; -3; 8] 30 (text "s") [9].
Definition example_options : options := defaultOptions example_config (text "uuid").

Example buckets : (λ uid, trafficBucket uid (text "s")) <$> [1; 2; 3; 1000] = [19; 38; 57; 57].
Proof. vm_compute. reflexivity. Qed.

Lemma lanes_of_users_witness :
  configured elements example_options ∧
  resolveServiceStatus example_options 1 = ServiceStatusGray ∧
  resolveServiceStatus example_options 2 = ServiceStatusNormal ∧
  (0 < 9 ∧ tester example_options 9).
Proof.
  split; [apply configured_default|]. do 2 (split; [by vm_compute|]).
  apply (lanes_of_users elements example_options 9 (configured_default _ _ _)). by vm_compute.
Defined.

Definition example_event : ServiceStatusPolicyEvent :=
  mkEvent [text "g2"] [] (mkPolicy [7; 8; 100] 60 (text "s") [9]).

Lemma policy_events_witness :
  let o' := on_policy_event elements (Some example_event) example_options in
  grayTrafficPct o' = 60 ∧ resolveServiceStatus o' 2 = ServiceStatusGray ∧
  resolveServiceStatus o' 1 ≠ ServiceStatusNormal.
Proof.
  pose proof (policy_events elements example_options example_event (λ _, Permutation_refl _)
    (configured_default _ example_config (text "uuid"))) as H.
  cbn zeta in H. destruct H as (_ & Hp & _ & _ & _ & _ & _ & _ & Hk & _).
  split; [exact Hp|]. split; [by vm_compute|].
  apply Hk.
  - intros uid. change (uid ∈ GrayWhitelist (Policy example_event)) with (uid ∈ [7; 8; 100]).
    intros [[H Hpos]|[]%not_elem_of_empty]%add_uids_elem.
    repeat (apply elem_of_cons in H as [->|H]); [by rewrite !elem_of_cons; auto|lia| |].
    + by rewrite !elem_of_cons; auto.
    + by apply not_elem_of_nil in H.
  - intros uid. intros [[H _]|[]%not_elem_of_empty]%add_uids_elem. exact H.
  - by vm_compute.
  - by vm_compute.
  - by vm_compute.
Defined.
