(* ===== verification/Watch.v ===== *)
(** * Watchers of the registry: message routes and outdated versions

    cluster/gate/route_watcher.go, which tells the gate the messages that need a
    bound user, and cluster/versionretire/watcher.go, which shuts a process down
    that has been outdated long enough. *)
From stdpp Require Import gmap.
From S2P Require Import Prelude Registry.
#[local] Close Scope nat_scope.
Open Scope Z_scope.

(** ** The routes of the nodes *)

Module RouteWatcher.

Record routePolicy := mkPolicy { authorized : bool; stateful : bool }.

Definition newRouteWatcher : gmap Z (gmap Z routePolicy) := ∅.

(** [for _, route := range ins.Routes]; a missing key reads as the zero value. *)
Fixpoint add_routes (routes : list Route) (gameRoutes : gmap Z routePolicy) : gmap Z routePolicy :=
  match routes with
  | [] => gameRoutes
  | route :: routes =>
      let cur := default (mkPolicy false false) (gameRoutes !! route_ID route) in
      add_routes routes
        (<[route_ID route := mkPolicy (authorized cur || route_Authorized route)
                                      (stateful cur || route_Stateful route)]> gameRoutes)
  end.

(** The inner map of a game is shared with the outer one: what is added to it
    is seen there. *)
Fixpoint replace_loop (instances : list (option ServiceInstance))
    (routes : gmap Z (gmap Z routePolicy)) : gmap Z (gmap Z routePolicy) :=
  match instances with
  | [] => routes
  | None :: instances => replace_loop instances routes
  | Some ins :: instances =>
      if bool_decide (ins_Kind ins ≠ text "node") then replace_loop instances routes
      else replace_loop instances
             (<[ins_GameID ins := add_routes (ins_Routes ins)
                                    (default ∅ (routes !! ins_GameID ins))]> routes)
  end.

Definition replace (instances : list (option ServiceInstance)) : gmap Z (gmap Z routePolicy) :=
  replace_loop instances ∅.

Definition requiresAuth (routes : gmap Z (gmap Z routePolicy)) (gameID messageID : Z) : bool :=
  match routes !! gameID with
  | None => false
  | Some gameRoutes => authorized (default (mkPolicy false false) (gameRoutes !! messageID))
  end.

(** [watch]: the answer to [Services], then those of [Next], an error being
    skipped. *)
Fixpoint watch (answers : list (option (list (option ServiceInstance))))
    (routes : gmap Z (gmap Z routePolicy)) : gmap Z (gmap Z routePolicy) :=
  match answers with
  | [] => routes
  | None :: answers => watch answers routes
  | Some instances :: answers => watch answers (replace instances)
  end.

(** The last answer that was no error. *)
Fixpoint latest (answers : list (option (list (option ServiceInstance))))
    (known : list (option ServiceInstance)) : list (option ServiceInstance) :=
  match answers with
  | [] => known
  | a :: answers => latest answers (default known a)
  end.

(** [ins] says that messages [messageID] of [gameID] need a user. *)
Definition demands (ins : ServiceInstance) (gameID messageID : Z) : Prop :=
  ins_Kind ins = text "node" ∧ ins_GameID ins = gameID ∧
  ∃ route, route ∈ ins_Routes ins ∧ route_ID route = messageID ∧ route_Authorized route = true.

Lemma add_routes_auth routes m messageID :
  authorized (default (mkPolicy false false) (add_routes routes m !! messageID)) = true ↔
  authorized (default (mkPolicy false false) (m !! messageID)) = true ∨
  ∃ route, route ∈ routes ∧ route_ID route = messageID ∧ route_Authorized route = true.
Proof.
  revert m. induction routes as [|r routes IH]; intros m; cbn [add_routes].
  - split; [auto|]. intros [?|(? & []%elem_of_nil & _)]. done.
  - rewrite IH. destruct (decide (route_ID r = messageID)) as [<-|Hne].
    + rewrite lookup_insert_eq. cbn. rewrite orb_true_iff. set_solver.
    + rewrite lookup_insert_ne by done. set_solver.
Qed.

Lemma replace_loop_auth instances routes gameID messageID :
  requiresAuth (replace_loop instances routes) gameID messageID = true ↔
  requiresAuth routes gameID messageID = true ∨
  ∃ ins, Some ins ∈ instances ∧ demands ins gameID messageID.
Proof.
  revert routes. induction instances as [|[ins|] instances IH]; intros routes; cbn [replace_loop].
  - split; [auto|]. intros [?|(? & []%elem_of_nil & _)]. done.
  - case_bool_decide as Hk.
    + rewrite IH. unfold demands. set_solver.
    + rewrite IH. unfold requiresAuth at 1.
      destruct (decide (ins_GameID ins = gameID)) as [<-|Hne].
      * rewrite lookup_insert_eq, add_routes_auth.
        assert (authorized (default (mkPolicy false false)
          (default ∅ (routes !! ins_GameID ins) !! messageID)) = true ↔
          requiresAuth routes (ins_GameID ins) messageID = true) as ->.
        { unfold requiresAuth. destruct (routes !! ins_GameID ins); [done|].
          cbn. by rewrite lookup_empty. }
        unfold demands. set_solver.
      * rewrite lookup_insert_ne by done. unfold demands. set_solver.
  - rewrite IH. set_solver.
Qed.

Lemma watch_latest answers known :
  watch answers (replace known) = replace (latest answers known).
Proof.
  revert known. induction answers as [|[l|] answers IH]; intros known; [done|apply IH..].
Qed.

(** A message needs a bound user exactly when some node asks for one: whatever
    the registry answered and however often it failed, [requiresAuth] is the
    disjunction, over the nodes of the last answer, of their routes for that
    game and message; gates, mesh services and nil entries do not count, and a
    message no node declares needs no user. *)
Theorem requires_auth_exact answers gameID messageID :
  requiresAuth (watch answers newRouteWatcher) gameID messageID = true ↔
  ∃ ins, Some ins ∈ latest answers [] ∧ demands ins gameID messageID.
Proof.
  change newRouteWatcher with (replace []). rewrite watch_latest. unfold replace.
  rewrite replace_loop_auth. split; [|auto]. intros [H|?]; [|done].
  by vm_compute in H.
Qed.

End RouteWatcher.

(** ** Outdated processes shut themselves down *)

Module VersionRetire.

Record Options := mkOptions {
  Kind : list Z;
  Alias : list Z;
  GameID : Z;
  Version : list Z;
  MatchGameID : bool;
  RetireDelay : Z;
}.

(** A timer that has fired stays in the field [timer]. *)
Inductive timer_state := Armed (remaining : Z) | Fired.

(** The watcher, whether its goroutine has returned, and whether the process
    has been told to shut down. *)
Record watcher := mkWatcher {
  timer : option timer_state;
  stopped : bool;
  shutdown : bool;
}.

Definition init : watcher := mkWatcher None false false.

Section watcher.
Context (opts : Options).

(** The filters of [maxPeerVersion]. *)
Definition same_group (ins : ServiceInstance) : bool :=
  bool_decide (ins_Kind ins = Kind opts ∧ ins_Alias ins = Alias opts) &&
  (negb (MatchGameID opts) || bool_decide (ins_GameID ins = GameID opts)).

Fixpoint peer_versions (services : list (option ServiceInstance)) : list (list Z) :=
  match services with
  | [] => []
  | None :: services => peer_versions services
  | Some ins :: services =>
      if same_group ins then ins_Version ins :: peer_versions services
      else peer_versions services
  end.

Definition maxPeerVersion (services : list (option ServiceInstance)) : list Z :=
  match peer_versions services with
  | [] => Version opts
  | versions => MaxVersion versions
  end.

Definition schedule (w : watcher) : watcher :=
  match timer w with
  | Some _ => w
  | None => mkWatcher (Some (Armed (RetireDelay opts))) (stopped w) (shutdown w)
  end.

Definition cancelSchedule (w : watcher) : watcher :=
  match timer w with
  | None => w
  | Some _ => mkWatcher None (stopped w) (shutdown w)
  end.

Definition check (services : list (option ServiceInstance)) (w : watcher) : watcher :=
  if bool_decide (0 <= CompareVersion (Version opts) (maxPeerVersion services))
  then cancelSchedule w else schedule w.

(** What happens to the watcher: an answer of the registry (an error is
    skipped), time, the end of the context. *)
Inductive event :=
  | Answer (services : option (list (option ServiceInstance)))
  | Elapse (d : N)
  | Done.

Definition step (w : watcher) (e : event) : watcher :=
  match e with
  | Answer None => w
  | Answer (Some services) => if stopped w then w else check services w
  | Elapse d =>
      match timer w with
      | Some (Armed r) =>
          if bool_decide (r ≤ Z.of_N d)
          then mkWatcher (Some Fired) (stopped w) true
          else mkWatcher (Some (Armed (r - Z.of_N d))) (stopped w) (shutdown w)
      | _ => w
      end
  | Done =>
      if stopped w then w
      else let w := cancelSchedule w in mkWatcher (timer w) true (shutdown w)
  end.

Definition run (es : list event) (w : watcher) : watcher := foldl step w es.

(** Some instance of the group has a higher version. *)
Definition outdated (services : list (option ServiceInstance)) : Prop :=
  ∃ ins, Some ins ∈ services ∧ same_group ins = true ∧
         CompareVersion (Version opts) (ins_Version ins) < 0.

(** Nothing has called the retirement off. *)
Definition still_outdated (e : event) : Prop :=
  match e with
  | Answer (Some services) => outdated services
  | Answer None | Elapse _ => True
  | Done => False
  end.

Fixpoint elapsed (es : list event) : Z :=
  match es with
  | [] => 0
  | Elapse d :: es => Z.of_N d + elapsed es
  | _ :: es => elapsed es
  end.

Lemma peer_versions_elem services v :
  v ∈ peer_versions services ↔
  ∃ ins, Some ins ∈ services ∧ same_group ins = true ∧ ins_Version ins = v.
Proof.
  induction services as [|[ins|] services IH]; cbn [peer_versions]; [set_solver| |set_solver].
  destruct (same_group ins) eqn:E; rewrite ?elem_of_cons, IH; clear IH.
  - split; [|set_solver]. intros [->|(i & Hi & Hg & Hv)]; [exists ins|exists i]; set_solver.
  - split; [set_solver|]. intros (i & Hi & Hg & Hv). exists i.
    apply elem_of_cons in Hi as [[= ->]|Hi]; [congruence|done].
Qed.

Lemma maxPeerVersion_highest services ins :
  Some ins ∈ services → same_group ins = true →
  highest (maxPeerVersion services) (peer_versions services).
Proof.
  intros Hin Hg. unfold maxPeerVersion.
  assert (ins_Version ins ∈ peer_versions services) as Hv by (apply peer_versions_elem; eauto).
  destruct (peer_versions services) as [|v vs]; [by apply elem_of_nil in Hv|].
  apply max_version_highest.
Qed.

Lemma check_outdated services w :
  check services w = if bool_decide (CompareVersion (Version opts) (maxPeerVersion services) < 0)
                     then schedule w else cancelSchedule w.
Proof. unfold check. repeat case_bool_decide; done || lia. Qed.

Lemma outdated_compare services :
  outdated services ↔ CompareVersion (Version opts) (maxPeerVersion services) < 0.
Proof.
  split.
  - intros (ins & Hin & Hg & Hlt).
    destruct (maxPeerVersion_highest services ins Hin Hg) as [_ Hmax].
    assert (CompareVersion (ins_Version ins) (maxPeerVersion services) ≤ 0) as Hle.
    { apply Hmax, peer_versions_elem. eauto. }
    destruct (Z.lt_ge_cases (CompareVersion (Version opts) (maxPeerVersion services)) 0) as [|Hge];
      [done|].
    assert (CompareVersion (ins_Version ins) (Version opts) ≤ 0) as Hback.
    { eapply CompareVersion_trans; [exact Hle|]. rewrite CompareVersion_antisym. lia. }
    rewrite CompareVersion_antisym in Hback. lia.
  - intros Hlt. destruct (peer_versions services) as [|v vs] eqn:E.
    + unfold maxPeerVersion in Hlt. rewrite E, CompareVersion_refl in Hlt. lia.
    + assert (maxPeerVersion services ∈ peer_versions services) as Hin.
      { unfold maxPeerVersion. rewrite E. apply max_version_highest. }
      apply peer_versions_elem in Hin as (ins & Hin & Hg & Ev). exists ins.
      split; [done|]. split; [done|]. by rewrite Ev.
Qed.

Definition not_done (e : event) : Prop := match e with Done => False | _ => True end.

(** Outdated in every answer for the whole delay, the watcher still running. *)
Definition outdated_for_delay (es : list event) : Prop :=
  ∃ es1 l es2 es3, es = es1 ++ Answer (Some l) :: es2 ++ es3 ∧ Forall not_done es1 ∧
    outdated l ∧ Forall still_outdated es2 ∧ RetireDelay opts ≤ elapsed es2.

(** The timer runs since some answer, which all later ones confirm. *)
Definition waiting_since (es : list event) (r : Z) : Prop :=
  ∃ es1 l es2, es = es1 ++ Answer (Some l) :: es2 ∧ Forall not_done es1 ∧
    outdated l ∧ Forall still_outdated es2 ∧ r = RetireDelay opts - elapsed es2.

Lemma run_app es es' w : run (es ++ es') w = run es' (run es w).
Proof. apply foldl_app. Qed.

Lemma elapsed_app es es' : elapsed (es ++ es') = elapsed es + elapsed es'.
Proof. induction es as [|[]]; simpl; lia. Qed.

Lemma check_keeps l w :
  stopped (check l w) = stopped w ∧ shutdown (check l w) = shutdown w.
Proof.
  unfold check, schedule, cancelSchedule. case_bool_decide; by destruct (timer w).
Qed.

Lemma shutdown_step w e : shutdown w = true → shutdown (step w e) = true.
Proof.
  intros H. destruct e as [[l|]|d|]; cbn; [|done| |].
  - destruct (stopped w); [done|]. by rewrite (proj2 (check_keeps l w)).
  - destruct (timer w) as [[r|]|]; [case_bool_decide|..]; done.
  - destruct (stopped w); [done|]. unfold cancelSchedule. by destruct (timer w).
Qed.

Lemma shutdown_run es w : shutdown w = true → shutdown (run es w) = true.
Proof. revert w. induction es; intros; [done|]. by apply IHes, shutdown_step. Qed.

Lemma step_stopped w e : not_done e → stopped (step w e) = stopped w.
Proof.
  destruct e as [[l|]|d|]; cbn; [..|done]; intros _.
  - destruct (stopped w) eqn:E; [done|]. by rewrite (proj1 (check_keeps l w)).
  - done.
  - destruct (timer w) as [[r|]|]; [case_bool_decide|..]; done.
Qed.

Lemma run_stopped es w : Forall not_done es → stopped (run es w) = stopped w.
Proof.
  intros H. revert w. induction H as [|e es He _ IH]; intros w; [done|].
  change (run (e :: es) w) with (run es (step w e)). by rewrite IH, step_stopped.
Qed.

Lemma stopped_step w e : stopped w = true → stopped (step w e) = true.
Proof.
  intros H. destruct e as [[l|]|d|]; cbn; rewrite ?H; try done.
  destruct (timer w) as [[r|]|]; [case_bool_decide|..]; done.
Qed.

(** The goroutine that still runs has not been told to stop. *)
Lemma running_not_done es : stopped (run es init) = false → Forall not_done es.
Proof.
  induction es as [|e es IH] using rev_ind; intros H; [done|].
  rewrite run_app in H. cbn in H.
  assert (stopped (run es init) = false) as Hs.
  { destruct (stopped (run es init)) eqn:E; [|done]. by rewrite (stopped_step _ e E) in H. }
  apply Forall_app. split; [auto|]. constructor; [|done].
  destruct e; [done|done|]. cbn in H. by rewrite Hs in H.
Qed.

Context (delay_pos : 0 < RetireDelay opts).

Record timer_inv (es : list event) (w : watcher) : Prop := {
  ti_shutdown : shutdown w = true → outdated_for_delay es;
  ti_armed r : timer w = Some (Armed r) → 0 < r ≤ RetireDelay opts ∧ waiting_since es r;
  ti_fired : timer w = Some Fired → shutdown w = true;
  ti_stopped : stopped w = true → timer w = None;
}.

Lemma outdated_for_delay_more es e : outdated_for_delay es → outdated_for_delay (es ++ [e]).
Proof.
  intros (es1 & l & es2 & es3 & -> & H). exists es1, l, es2, (es3 ++ [e]).
  split; [|done]. by rewrite <- app_assoc, <- app_comm_cons, <- app_assoc.
Qed.

Lemma waiting_more es e r :
  waiting_since es r → still_outdated e → waiting_since (es ++ [e]) (r - elapsed [e]).
Proof.
  intros (es1 & l & es2 & -> & H1 & Hl & H2 & ->) He. exists es1, l, (es2 ++ [e]).
  split; [by rewrite <- app_assoc|]. do 2 (split; [done|]).
  split; [by apply Forall_app; split; [|constructor]|]. rewrite elapsed_app. lia.
Qed.

Lemma timer_inv_step es e :
  timer_inv es (run es init) → timer_inv (es ++ [e]) (run (es ++ [e]) init).
Proof.
  rewrite run_app. cbn [run foldl]. pose proof (running_not_done es) as Hrun.
  set (w := run es init) in *. intros [Hs Ha Hf Hst].
  assert (shutdown w = true → outdated_for_delay (es ++ [e])) as Hs'
    by eauto using outdated_for_delay_more.
  assert (∀ r, still_outdated e → timer w = Some (Armed r) →
    waiting_since (es ++ [e]) (r - elapsed [e])) as Hw.
  { intros r He [_ ?]%Ha. by apply waiting_more. }
  destruct e as [[l|]|d|]; cbn [step elapsed still_outdated] in *.
  - destruct (stopped w) eqn:Est; [split; rewrite ?(Hst eq_refl); auto; done|].
    rewrite check_outdated. case_bool_decide as Ho; apply outdated_compare in Ho || clear Ho.
    + unfold schedule. destruct (timer w) as [[r|]|] eqn:Et; split; cbn; rewrite ?Et; try (done || congruence).
      * intros r' [= <-]. split; [by apply Ha|]. rewrite <- (Z.sub_0_r r). by apply Hw.
      * intros ? [= <-]. split; [lia|]. exists es, l, []. cbn.
        do 4 (split; [by auto|]). lia.
    + unfold cancelSchedule. destruct (timer w) eqn:Et; split; cbn; rewrite ?Et; (done || congruence).
  - split; [done| |done|done]. intros r Hr. split; [by apply Ha|].
    rewrite <- (Z.sub_0_r r). by apply Hw.
  - destruct (timer w) as [[r|]|] eqn:Et; [|by split; rewrite ?Et..].
    destruct (Ha r eq_refl) as [Hr _]. specialize (Hw r I eq_refl).
    case_bool_decide as Hd; split; cbn; try done.
    + intros _. destruct Hw as (es1 & l & es2 & -> & H1 & Hl & H2 & E).
      exists es1, l, es2, []. rewrite app_nil_r. do 4 (split; [done|]). lia.
    + intros Hx. by specialize (Hst Hx).
    + intros r' [= <-]. split; [lia|]. by rewrite Z.add_0_r in Hw.
    + intros Hx. by specialize (Hst Hx).
  - destruct (stopped w) eqn:Est; [split; rewrite ?(Hst eq_refl); auto; done|].
    unfold cancelSchedule. destruct (timer w) eqn:Et; split; cbn; rewrite ?Et; (done || congruence).
Qed.

Lemma timer_inv_run es : timer_inv es (run es init).
Proof.
  induction es as [|e es IH] using rev_ind; [by split|]. by apply timer_inv_step.
Qed.

(** A running timer that is not called off fires. *)
Lemma armed_fires es w r :
  Forall still_outdated es → timer w = Some (Armed r) → 0 < r ≤ elapsed es →
  shutdown (run es w) = true.
Proof.
  intros H. revert w r. induction H as [|e es He _ IH]; intros w r Ht Hr; cbn in Hr; [lia|].
  change (run (e :: es) w) with (run es (step w e)).
  destruct e as [[l|]|d|]; cbn [step elapsed still_outdated] in *; [..|done].
  - apply (IH _ r); [|done]. destruct (stopped w); [done|].
    apply outdated_compare in He. rewrite check_outdated, bool_decide_eq_true_2 by done.
    unfold schedule. by rewrite Ht.
  - by apply (IH _ r).
  - rewrite Ht. case_bool_decide; [by apply shutdown_run|].
    eapply IH; [done|]. lia.
Qed.

Lemma outdated_retires es1 l es2 es3 :
  Forall not_done es1 → outdated l → Forall still_outdated es2 → RetireDelay opts ≤ elapsed es2 →
  shutdown (run (es1 ++ Answer (Some l) :: es2 ++ es3) init) = true.
Proof.
  intros H1 Hl H2 Hd.
  assert (stopped (run es1 init) = false) as Hs by (by rewrite run_stopped).
  replace (es1 ++ Answer (Some l) :: es2 ++ es3) with ((es1 ++ [Answer (Some l)]) ++ es2 ++ es3)
    by (by rewrite <- app_assoc).
  rewrite !run_app. apply shutdown_run.
  pose proof (timer_inv_run (es1 ++ [Answer (Some l)])) as [_ Ha Hf _].
  rewrite run_app in Ha, Hf. set (w := run [Answer (Some l)] (run es1 init)) in *.
  destruct (timer w) as [[r|]|] eqn:Et.
  - apply (armed_fires _ _ r); [done..|]. specialize (Ha r eq_refl). lia.
  - apply shutdown_run. auto.
  - exfalso. subst w. cbn in Et. rewrite Hs, check_outdated, bool_decide_eq_true_2 in Et
      by (by apply outdated_compare).
    unfold schedule in Et. destruct (timer (run es1 init)) eqn:E; cbn in Et; congruence.
Qed.
End watcher.

Definition with_version (v : list Z) (opts : Options) : Options :=
  mkOptions (Kind opts) (Alias opts) (GameID opts) v (MatchGameID opts) (RetireDelay opts).

(** Among the members of a group that the registry lists, one is not outdated. *)
Lemma newest_stays opts services ins :
  Some ins ∈ services → same_group opts ins = true →
  ∃ ins', Some ins' ∈ services ∧ same_group opts ins' = true ∧
    ¬ outdated (with_version (ins_Version ins') opts) services.
Proof.
  intros Hin Hg. destruct (maxPeerVersion_highest opts services ins Hin Hg) as [Hv Hmax].
  apply peer_versions_elem in Hv as (ins' & Hin' & Hg' & Hv). exists ins'.
  do 2 (split; [done|]). intros (i & Hi & Hgi & Hlt). cbn in Hlt.
  assert (CompareVersion (ins_Version i) (maxPeerVersion opts services) ≤ 0) as Hle.
  { apply Hmax, peer_versions_elem. by exists i. }
  rewrite <- Hv, CompareVersion_antisym in Hle. lia.
Qed.

(** Outdated processes retire, and only they: a process is told to shut down
    exactly when, at some point before its context ended, the registry listed a
    higher version in its group and went on doing so in every answer for the
    whole retire delay; one answer without a higher version, or the end of the
    context, calls the retirement off.  Whatever the registry lists, the
    instances of a group's highest version are not outdated, so that a rolling
    upgrade never retires a whole group. *)
Theorem outdated_processes_retire opts es :
  0 < RetireDelay opts →
  (shutdown (run opts es init) = true ↔ outdated_for_delay opts es) ∧
  ∀ services ins, Some ins ∈ services → same_group opts ins = true →
    ∃ ins', Some ins' ∈ services ∧ same_group opts ins' = true ∧
      ¬ outdated (with_version (ins_Version ins') opts) services.
Proof.
  intros Hd. split; [|apply newest_stays]. split.
  - apply timer_inv_run. done.
  - intros (es1 & l & es2 & es3 & -> & H). apply outdated_retires; tauto.
Qed.

(** ** Witness: version 1.0 next to 1.1 and, for a moment, alone *)

Definition node_instance (version : list Z) : option ServiceInstance :=
  Some (mkInstance version (text "node") (text "node") (text "lobby") (text "work") [] [] []
          (text "grpc://127.0.0.1:8001") 1 1 version None).
Definition example_opts : Options :=
  mkOptions (text "node") (text "lobby") 1 (text "1.0") true 600.
Definition both : list (option ServiceInstance) :=
  [node_instance (text "1.0"); node_instance (text "1.1")].
Definition alone : list (option ServiceInstance) := [node_instance (text "1.0")].

Definition upgrade : list event :=
  [Answer (Some both); Elapse 500; Answer (Some alone); Answer (Some both); Elapse 300;
   Answer None; Elapse 400].

Example called_off :
  shutdown (run example_opts [Answer (Some both); Elapse 500; Answer (Some alone); Elapse 200] init)
  = false.
Proof. by vm_compute. Qed.

Lemma outdated_processes_retire_witness :
  0 < RetireDelay example_opts ∧ shutdown (run example_opts upgrade init) = true ∧
  outdated_for_delay example_opts upgrade.
Proof.
  split; [by vm_compute|]. split; [by vm_compute|].
  apply (outdated_processes_retire example_opts upgrade); by vm_compute.
Defined.

End VersionRetire.
