(* ===== verification/Context.v ===== *)
(** * cluster/node: the contexts of requests and events

    request.go and event.go: the objects a node hands to its handlers, their
    versions, which tell the last holder of an object from earlier ones, their
    deferred functions (core/chains), and the pools they are taken from and put
    back to. *)
From stdpp Require Import gmap.
From S2P Require Import Prelude Registry.
#[local] Close Scope nat_scope.
Open Scope Z_scope.

(** ** core/chains

    A chain is a doubly linked list reached from both ends; here it is the list
    from head to tail. *)
Module Chain.
Section chain.
Context {Fn : Type}.

Definition NewChain : list Fn := [].
Definition AddToHead (fn : Fn) (c : list Fn) : list Fn := fn :: c.
Definition AddToTail (fn : Fn) (c : list Fn) : list Fn := c ++ [fn].
(** The functions called, in order, and the chain left. *)
Definition FireHead (c : list Fn) : list Fn * list Fn := (c, []).
Definition FireTail (c : list Fn) : list Fn * list Fn := (rev c, []).
Definition Cancel (c : list Fn) : list Fn := [].
End chain.
End Chain.

(** ** Contexts *)

Inductive Kind := Event | Request.
#[export] Instance Kind_eq_dec : EqDecision Kind.
Proof. solve_decision. Defined.

(** [cluster.Message]; [Data] is nil or the bytes of a message. *)
Record Message := mkMessage {
  Seq : Z;
  GameID : Z;
  MessageID : Z;
  Data : option (list Z);
}.

(** A request or an event.  An event has no source node or actor, no metadata
    and no message; a request no event. *)
Record context (Fn : Type) := mkContext {
  kind : Kind;
  gid : list Z;
  nid : list Z;
  pid : list Z;
  cid : Z;
  uid : Z;
  metadata : option (gmap (list Z) (list Z));
  message : Message;
  event : Z;
  version : Z;
  chain : option (list Fn);
  actor : option nat;
}.
Arguments mkContext {Fn}.
Arguments kind {Fn} _.
Arguments gid {Fn} _.
Arguments nid {Fn} _.
Arguments pid {Fn} _.
Arguments cid {Fn} _.
Arguments uid {Fn} _.
Arguments metadata {Fn} _.
Arguments message {Fn} _.
Arguments event {Fn} _.
Arguments version {Fn} _.
Arguments chain {Fn} _.
Arguments actor {Fn} _.

Section contexts.
Context {Fn : Type}.
Abbreviation ctx := (context Fn).

Definition no_message : Message := mkMessage 0 0 0 None.

(** What the [New] functions of the two pools make. *)
Definition new_context (k : Kind) : ctx :=
  mkContext k [] [] [] 0 0 None no_message 0 0 None None.

Definition set_version (v : Z) (c : ctx) : ctx :=
  mkContext (kind c) (gid c) (nid c) (pid c) (cid c) (uid c) (metadata c) (message c) (event c)
    v (chain c) (actor c).
Definition set_chain (l : option (list Fn)) (c : ctx) : ctx :=
  mkContext (kind c) (gid c) (nid c) (pid c) (cid c) (uid c) (metadata c) (message c) (event c)
    (version c) l (actor c).
Definition set_actor (a : option nat) (c : ctx) : ctx :=
  mkContext (kind c) (gid c) (nid c) (pid c) (cid c) (uid c) (metadata c) (message c) (event c)
    (version c) (chain c) a.

(** [Defer]: without [bottom] at the head. *)
Definition Defer (fn : Fn) (bottom : bool) (c : ctx) : ctx :=
  let l := default Chain.NewChain (chain c) in
  set_chain (Some (if bottom then Chain.AddToTail fn l else Chain.AddToHead fn l)) c.

Definition Cancel (c : ctx) : ctx :=
  match chain c with None => c | Some l => set_chain (Some (Chain.Cancel l)) c end.

Definition incrVersion (c : ctx) : ctx := set_version (wrapS 32 (version c + 1)) c.
Definition loadVersion (c : ctx) : Z := version c.

(** [compareVersionExecDefer]: the functions called. *)
Definition compareVersionExecDefer (v : Z) (c : ctx) : list Fn * ctx :=
  match chain c with
  | Some l => if bool_decide (loadVersion c = v)
              then let '(fired, l) := Chain.FireHead l in (fired, set_chain (Some l) c)
              else ([], c)
  | None => ([], c)
  end.

(** [reset] of a request and of an event. *)
Definition reset (c : ctx) : ctx :=
  match kind c with
  | Request =>
      mkContext (kind c) (gid c) (nid c) (pid c) (cid c) (uid c) None
        (mkMessage (Seq (message c)) (GameID (message c)) (MessageID (message c)) None)
        (event c) (version c) None None
  | Event =>
      mkContext (kind c) (gid c) (nid c) (pid c) (cid c) (uid c) (metadata c) (message c)
        (event c) (version c) None None
  end.

(** ** The objects and their pools *)

Record Objects := mkObjects {
  heap : gmap nat ctx;
  reqPool : list nat;
  evtPool : list nat;
}.

Definition pool (k : Kind) (o : Objects) : list nat :=
  match k with Request => reqPool o | Event => evtPool o end.
Definition set_pool (k : Kind) (p : list nat) (o : Objects) : Objects :=
  match k with
  | Request => mkObjects (heap o) p (evtPool o)
  | Event => mkObjects (heap o) (reqPool o) p
  end.
Definition update (x : nat) (f : ctx → ctx) (o : Objects) : Objects :=
  mkObjects (alter f x (heap o)) (reqPool o) (evtPool o).

(** [pool.Get()]: any pooled object, or a new one. *)
Definition get (k : Kind) (choice : nat) (o : Objects) : nat * Objects :=
  match pool k o !! choice with
  | Some x => (x, set_pool k (delete choice (pool k o)) o)
  | None =>
      let x := fresh (dom (heap o)) in
      (x, mkObjects (<[x := new_context k]> (heap o)) (reqPool o) (evtPool o))
  end.

(** [reset] and [pool.Put]. *)
Definition recycle (x : nat) (o : Objects) : Objects :=
  match heap o !! x with
  | None => o
  | Some c =>
      let o := update x reset o in
      set_pool (kind c) (x :: pool (kind c) o) o
  end.

(** [compareVersionRecycle]: the compare-and-swap, then the recycling.  The
    result says whether it took place; the caller of a request's runs
    [postRouteHandler] before the reset. *)
Definition compareVersionRecycle (v : Z) (x : nat) (o : Objects) : bool * Objects :=
  match heap o !! x with
  | None => (false, o)
  | Some c =>
      if bool_decide (version c = v)
      then (true, recycle x (update x (set_version 0) o))
      else (false, o)
  end.

(** [Clone]: a new object that no pool knows.  A request's clone keeps what
    [Reply] needs but the actor it came from; an event's clone forgets which
    event it was. *)
Definition Clone (x : nat) (o : Objects) : option (nat * Objects) :=
  c ← heap o !! x;
  let y := fresh (dom (heap o)) in
  let c' := match kind c with
            | Request => mkContext Request (gid c) (nid c) [] (cid c) (uid c) (metadata c)
                           (message c) 0 0 None (actor c)
            | Event => mkContext Event (gid c) [] [] (cid c) (uid c) None no_message 0 0 None
                         (actor c)
            end in
  Some (y, mkObjects (<[y := c']> (heap o)) (reqPool o) (evtPool o)).

End contexts.
