(* ===== verification/Scheduler.v ===== *)
(** * cluster/node: actors and their scheduler

    actor.go and scheduler.go.  The state is the node's: the context objects,
    the actors by address, the scheduler's maps and the node's wait group.  An
    operation that holds a lock of the scheduler or of an actor is one step; a
    goroutine that has to wait for room in a channel is a step that cannot be
    taken. *)
From stdpp Require Import gmap fin_maps.
From S2P Require Import Prelude Registry Context.
#[local] Close Scope nat_scope.
Open Scope Z_scope.

(** [cluster.State] *)
Definition Shut : Z := 0.
Definition Work : Z := 1.
Definition Busy : Z := 2.
Definition Hang : Z := 3.

(** The state of an actor. *)
Definition unstart : Z := 0.
Definition started : Z := 1.
Definition destroyed : Z := 2.

Record actorOptions := mkActorOptions {
  o_id : list Z;
  o_kind : list Z;
  o_wait : bool;
  o_dispatch : bool;
}.

Definition defaultActorOptions : actorOptions := mkActorOptions [] [] true true.
Definition WithActorID (id : list Z) (o : actorOptions) : actorOptions :=
  mkActorOptions id (o_kind o) (o_wait o) (o_dispatch o).
Definition WithActorKind (kind : list Z) (o : actorOptions) : actorOptions :=
  mkActorOptions (o_id o) kind (o_wait o) (o_dispatch o).
Definition WithActorNonWait (o : actorOptions) : actorOptions :=
  mkActorOptions (o_id o) (o_kind o) false (o_dispatch o).
Definition WithActorNonDispatch (o : actorOptions) : actorOptions :=
  mkActorOptions (o_id o) (o_kind o) (o_wait o) false.

Section scheduler.
Context {Fn : Type}.

(** What travels on [fnChan]: the registrations of a started actor and the
    functions of [Invoke]. *)
Inductive Call :=
  | CallRoute (route : Z) (h : Fn)
  | CallEvent (event : Z) (h : Fn)
  | CallDefault (h : Fn)
  | CallInvoke (f : Fn).

Record Actor := mkActor {
  opts : actorOptions;
  a_state : Z;
  a_routes : gmap Z Fn;
  a_events : gmap Z Fn;
  defaultRouteHandler : option Fn;
  mailbox : list nat;
  fnChan : list Call;
  binds : gset Z;
}.

Definition ID (a : Actor) : list Z := o_id (opts a).
Definition kind_of (a : Actor) : list Z := o_kind (opts a).
Definition pid_of (kind id : list Z) : list Z := kind ++ text "/" ++ id.
Definition PID (a : Actor) : list Z := pid_of (kind_of a) (ID a).

Record State := mkState {
  objects : @Objects Fn;
  acts : gmap nat Actor;
  actors : gmap (list Z) nat;
  routes : gmap Z (list Z);
  kinds : gset (list Z);
  relations : gmap Z (gmap (list Z) nat);
  wg : Z;
  node_state : Z;
}.

Definition set_objects x (s : State) : State :=
  mkState x (acts s) (actors s) (routes s) (kinds s) (relations s) (wg s) (node_state s).
Definition set_acts x (s : State) : State :=
  mkState (objects s) x (actors s) (routes s) (kinds s) (relations s) (wg s) (node_state s).
Definition set_actors x (s : State) : State :=
  mkState (objects s) (acts s) x (routes s) (kinds s) (relations s) (wg s) (node_state s).
Definition set_routes x (s : State) : State :=
  mkState (objects s) (acts s) (actors s) x (kinds s) (relations s) (wg s) (node_state s).
Definition set_kinds x (s : State) : State :=
  mkState (objects s) (acts s) (actors s) (routes s) x (relations s) (wg s) (node_state s).
Definition set_relations x (s : State) : State :=
  mkState (objects s) (acts s) (actors s) (routes s) (kinds s) x (wg s) (node_state s).
Definition set_wg x (s : State) : State :=
  mkState (objects s) (acts s) (actors s) (routes s) (kinds s) (relations s) x (node_state s).
Definition set_node_state x (s : State) : State :=
  mkState (objects s) (acts s) (actors s) (routes s) (kinds s) (relations s) (wg s) x.
Definition on_actor (a : nat) (f : Actor → Actor) (s : State) : State :=
  set_acts (alter f a (acts s)) s.

(** [newScheduler] in a new node. *)
Definition newScheduler : State :=
  mkState (mkObjects ∅ [] []) ∅ ∅ ∅ ∅ ∅ 0 Shut.

(** ** The node's wait group

    [sync.WaitGroup] panics when its counter falls below zero. *)
Definition addWait (s : State) : State :=
  if bool_decide (node_state s ≠ Shut) then set_wg (wg s + 1) s else s.
Definition doneWait : Op State unit := λ s,
  if bool_decide (node_state s ≠ Shut) then
    if bool_decide (wg s - 1 < 0) then (s, Panic) else (set_wg (wg s - 1) s, Ok ())
  else (s, Ok ()).

(** ** Calls of an actor *)

Definition chan_size : nat := Z.to_nat 4096.

Definition set_calls (l : list Call) (a : Actor) : Actor :=
  mkActor (opts a) (a_state a) (a_routes a) (a_events a) (defaultRouteHandler a) (mailbox a) l
    (binds a).
Definition set_mailbox (l : list nat) (a : Actor) : Actor :=
  mkActor (opts a) (a_state a) (a_routes a) (a_events a) (defaultRouteHandler a) l (fnChan a)
    (binds a).
Definition set_binds (b : gset Z) (a : Actor) : Actor :=
  mkActor (opts a) (a_state a) (a_routes a) (a_events a) (defaultRouteHandler a) (mailbox a)
    (fnChan a) b.
Definition set_routes_of (m : gmap Z Fn) (a : Actor) : Actor :=
  mkActor (opts a) (a_state a) m (a_events a) (defaultRouteHandler a) (mailbox a) (fnChan a)
    (binds a).
Definition set_events_of (m : gmap Z Fn) (a : Actor) : Actor :=
  mkActor (opts a) (a_state a) (a_routes a) m (defaultRouteHandler a) (mailbox a) (fnChan a)
    (binds a).
Definition set_default_of (h : option Fn) (a : Actor) : Actor :=
  mkActor (opts a) (a_state a) (a_routes a) (a_events a) h (mailbox a) (fnChan a) (binds a).

(** The registrations: directly before the start, on [fnChan] after it, where a
    full channel blocks ([None]). *)
Definition register (c : Call) (a : Actor) : option Actor :=
  if bool_decide (a_state a = unstart) then
    Some match c with
         | CallRoute route h => set_routes_of (<[route := h]> (a_routes a)) a
         | CallEvent event h => set_events_of (<[event := h]> (a_events a)) a
         | CallDefault h => set_default_of (Some h) a
         | CallInvoke _ => a
         end
  else if bool_decide (a_state a = started) then
    if bool_decide ((length (fnChan a) < chan_size)%nat)
    then Some (set_calls (fnChan a ++ [c]) a) else None
  else Some a.

Definition AddRouteHandler (route : Z) (h : Fn) : Actor → option Actor := register (CallRoute route h).
Definition AddEventHandler (event : Z) (h : Fn) : Actor → option Actor := register (CallEvent event h).
Definition SetDefaultRouteHandler (h : Fn) : Actor → option Actor := register (CallDefault h).

(** [Invoke] drops the function when the channel is full. *)
Definition Invoke (f : Fn) (a : Actor) : Actor :=
  if bool_decide (a_state a = started) then
    if bool_decide ((length (fnChan a) < chan_size)%nat)
    then set_calls (fnChan a ++ [CallInvoke f]) a else a
  else a.

(** The registrations a creator or [Init] makes, one after the other. *)
Fixpoint register_all (cs : list Call) (a : Actor) : option Actor :=
  match cs with
  | [] => Some a
  | c :: cs => a ← register c a; register_all cs a
  end.

(** [fnChan <- f] executed by the actor. *)
Definition run_call (a : nat) (c : Call) (s : State) : State :=
  match c, acts s !! a with
  | CallRoute route h, Some act =>
      let s := on_actor a (set_routes_of (<[route := h]> (a_routes act))) s in
      if o_dispatch (opts act) then set_routes (<[route := kind_of act]> (routes s)) s else s
  | CallEvent event h, Some act => on_actor a (set_events_of (<[event := h]> (a_events act))) s
  | CallDefault h, Some act => on_actor a (set_default_of (Some h)) s
  | _, _ => s
  end.

(** ** The scheduler *)

Definition doLoad (pid : list Z) (s : State) : option nat := actors s !! pid.
Definition load (kind id : list Z) (s : State) : option nat := doLoad (pid_of kind id) s.

(** [spawn]: the actor starts before its creator runs; [created] and [inited]
    are the registrations made by the creator and by [Init].  [None] is a
    creator or [Init] that blocks. *)
Definition spawn (o : actorOptions) (created inited : list Call) (s : State)
    : option (State * outcome nat) :=
  act ← register_all created
          (mkActor o started ∅ ∅ None [] [] ∅);
  match load (o_kind o) (o_id o) s with
  | Some _ => Some (s, Err ErrActorExists)
  | None =>
      let s := if o_wait o then addWait s else s in
      act ← register_all inited act;
      let s := if o_dispatch o then
                 if bool_decide (o_kind o ∈ kinds s) then s
                 else set_routes (((λ _, o_kind o) <$> a_routes act) ∪ routes s)
                        (set_kinds ({[o_kind o]} ∪ kinds s) s)
               else s in
      let a := fresh (dom (acts s)) in
      let s := set_acts (<[a := act]> (acts s)) s in
      Some (set_actors (<[PID act := a]> (actors s)) s, Ok a)
  end.

(** [remove]: the relations to this very actor are dropped. *)
Definition remove (kind id : list Z) (s : State) : option nat * State :=
  match load kind id s with
  | None => (None, s)
  | Some a =>
      match acts s !! a with
      | None => (None, s)
      | Some act =>
          (Some a,
           set_relations
             ((λ m : gmap (list Z) nat, if bool_decide (m !! kind_of act = Some a) then delete (kind_of act) m else m)
                <$> relations s)
             (set_actors (delete (PID act) (actors s)) s))
      end
  end.

(** The loop over [binds] of [destroy]: whatever actor of the kind the user is
    bound to. *)
Definition unbind_users (users : gset Z) (kind : list Z)
    (rel : gmap Z (gmap (list Z) nat)) : gmap Z (gmap (list Z) nat) :=
  map_imap (λ uid (m : gmap (list Z) nat), Some (if bool_decide (uid ∈ users) then delete kind m else m)) rel.

Definition destroy_actor (act : Actor) : Actor :=
  mkActor (opts act) destroyed ∅ ∅ None (mailbox act) (fnChan act) (binds act).

(** [destroy]: only the first call of a started actor does anything. *)
Definition destroy (a : nat) (s : State) : bool * State :=
  match acts s !! a with
  | None => (false, s)
  | Some act =>
      if bool_decide (a_state act = started) then
        (true, on_actor a destroy_actor
                 (set_relations (unbind_users (binds act) (kind_of act) (relations s)) s))
      else (false, s)
  end.

Definition waits (a : nat) (s : State) : bool :=
  match acts s !! a with Some act => o_wait (opts act) | None => false end.

Definition kill (kind id : list Z) : Op State bool := λ s,
  match remove kind id s with
  | (None, s) => (s, Ok false)
  | (Some a, s) =>
      let '(ok, s) := destroy a s in
      if waits a s then let '(s, r) := doneWait s in (s, _ ← r; Ok ok) else (s, Ok ok)
  end.

(** [Actor.Destroy] *)
Definition Destroy (a : nat) : Op State bool := λ s,
  match acts s !! a with
  | None => (s, Panic)
  | Some act =>
      match destroy a s with
      | (false, s) => (s, Ok false)
      | (true, s) => let '(o, s) := remove (kind_of act) (ID act) s in
                     (s, Ok (bool_decide (is_Some o)))
      end
  end.

Definition bindActor (uid : Z) (kind id : list Z) : Op State unit := λ s,
  if bool_decide (uid = 0) then (s, Err ErrIllegalOperation) else
  match load kind id s with
  | None => (s, Err ErrNotFoundActor)
  | Some a =>
      match acts s !! a with
      | None => (s, Panic)
      | Some act =>
          let s := on_actor a (set_binds ({[uid]} ∪ binds act)) s in
          (set_relations
             (<[uid := <[kind_of act := a]> (default ∅ (relations s !! uid))]> (relations s)) s,
           Ok ())
      end
  end.

Definition unbindActor (uid : Z) (kind : list Z) (s : State) : State :=
  match relations s !! uid ≫= (λ m, m !! kind) with
  | None => s
  | Some a =>
      match acts s !! a with
      | None => s
      | Some act =>
          if bool_decide (uid ∈ binds act) then
            set_relations (alter (delete kind) uid (relations s))
              (on_actor a (set_binds (binds act ∖ {[uid]})) s)
          else s
      end
  end.

Definition loadActor (uid : Z) (kind : list Z) (s : State) : option nat :=
  relations s !! uid ≫= (λ m, m !! kind).

(** ** Handing a context to an actor *)

Context (mailboxTimeout : Z).

(** [Next]: a full mailbox blocks without a timeout and is an error after it;
    the context has changed hands by then. *)
Definition Next (a x : nat) (s : State) : option (State * outcome unit) :=
  match acts s !! a with
  | None => Some (s, Panic)
  | Some act =>
      if bool_decide (a_state act ≠ started) then Some (s, Err ErrNotFoundActor) else
      let s := set_objects (update x (λ c, Cancel (incrVersion (set_actor (Some a) c))) (objects s)) s in
      if bool_decide ((length (mailbox act) < chan_size)%nat)
      then Some (on_actor a (set_mailbox (mailbox act ++ [x])) s, Ok ())
      else if bool_decide (mailboxTimeout <= 0) then None
      else Some (s, Err ErrMailboxFull)
  end.

Definition dispatchRequest (x : nat) (s : State) : option (State * outcome unit) :=
  match heap (objects s) !! x with
  | None => Some (s, Panic)
  | Some c =>
      if bool_decide (uid c = 0) then Some (s, Err ErrMissingDispatchStrategy) else
      match routes s !! MessageID (message c) with
      | None => Some (s, Err ErrUnregisterRoute)
      | Some kind =>
          match loadActor (uid c) kind s with
          | None => Some (s, Err ErrNotBindActor)
          | Some a => Next a x s
          end
      end
  end.

(** The actors are visited in any order; an error is logged. *)
Fixpoint dispatch_each (l : list nat) (x : nat) (s : State) : option (State * outcome unit) :=
  match l with
  | [] => Some (s, Ok ())
  | a :: l =>
      match acts s !! a with
      | None => Some (s, Panic)
      | Some act =>
          if o_dispatch (opts act) then
            match Next a x s with
            | None => None
            | Some (s, Panic) => Some (s, Panic)
            | Some (s, _) => dispatch_each l x s
            end
          else dispatch_each l x s
      end
  end.

Definition dispatchEvent (order : list nat) (x : nat) (s : State) : option (State * outcome unit) :=
  dispatch_each order x s.

Definition dispatch (order : list nat) (x : nat) (s : State) : option (State * outcome unit) :=
  match heap (objects s) !! x with
  | None => Some (s, Panic)
  | Some c => if bool_decide (Context.kind c = Request) then dispatchRequest x s
              else dispatchEvent order x s
  end.

(** ** The actor's goroutine: one turn of [dispatch] *)

(** A context leaves the mailbox; the handler that will run on it, if any. *)
Definition take_mail (a : nat) (s : State) : option (nat * option Fn * State) :=
  act ← acts s !! a;
  match mailbox act with
  | [] => None
  | x :: rest =>
      c ← heap (objects s) !! x;
      let h := if bool_decide (Context.kind c = Event) then a_events act !! event c
               else match a_routes act !! MessageID (message c) with
                    | Some h => Some h | None => defaultRouteHandler act end in
      Some (x, h, on_actor a (set_mailbox rest) s)
  end.

Definition take_call (a : nat) (s : State) : option State :=
  act ← acts s !! a;
  match fnChan act with
  | [] => None
  | c :: rest => Some (run_call a c (on_actor a (set_calls rest) s))
  end.

(** ** What every reachable state satisfies *)

Record wf (s : State) : Prop := {
  wf_actors p a : actors s !! p = Some a →
    ∃ act, acts s !! a = Some act ∧ PID act = p ∧ a_state act = started;
  wf_started a act : acts s !! a = Some act → a_state act = started → actors s !! PID act = Some a;
  wf_state a act : acts s !! a = Some act → a_state act = started ∨ a_state act = destroyed;
  wf_relations uid k a : loadActor uid k s = Some a →
    ∃ act, acts s !! a = Some act ∧ kind_of act = k ∧ a_state act = started ∧ uid ∈ binds act;
}.

(** The operations of goroutines, in any order. *)
Inductive step : State → State → Prop :=
  | step_spawn o created inited s s' r :
      spawn o created inited s = Some (s', r) → step s s'
  | step_kill kind id s : step s (kill kind id s).1
  | step_destroy a s : step s (Destroy a s).1
  | step_bind uid kind id s : step s (bindActor uid kind id s).1
  | step_unbind uid kind s : step s (unbindActor uid kind s)
  | step_next a x s s' r : Next a x s = Some (s', r) → step s s'
  | step_dispatch order x s s' r : dispatch order x s = Some (s', r) → step s s'
  | step_mail a s x h s' : take_mail a s = Some (x, h, s') → step s s'
  | step_call a s s' : take_call a s = Some s' → step s s'
  | step_register c a s act act' :
      acts s !! a = Some act → register c act = Some act' →
      step s (set_acts (<[a := act']> (acts s)) s)
  | step_invoke f a s : step s (on_actor a (Invoke f) s)
  | step_node_state z s : step s (set_node_state z s)
  | step_add_wait s : step s (addWait s)
  | step_done_wait s : step s (doneWait s).1
  | step_objects o s : step s (set_objects o s).

Inductive reachable : State → Prop :=
  | reachable_new : reachable newScheduler
  | reachable_step s s' : reachable s → step s s' → reachable s'.

(** What [wf] reads of a state. *)
Lemma wf_same s s' :
  acts s' = acts s → actors s' = actors s → relations s' = relations s → wf s → wf s'.
Proof.
  intros E1 E2 E3 [H1 H2 H3 H4]. split; unfold loadActor in *; rewrite ?E1, ?E2, ?E3; done.
Qed.

(** What may change in an actor: its handlers and channels, and more users. *)
Definition keeps (act act' : Actor) : Prop :=
  opts act' = opts act ∧ a_state act' = a_state act ∧ binds act ⊆ binds act'.

Lemma wf_on_actor a act act' s :
  acts s !! a = Some act → keeps act act' → wf s → wf (set_acts (<[a := act']> (acts s)) s).
Proof.
  intros Ha (Eo & Es & Hb) [H1 H2 H3 H4].
  assert (HP : PID act' = PID act) by (unfold PID, kind_of, ID; by rewrite Eo).
  split; cbn.
  - intros p b Hp. destruct (H1 p b Hp) as (actb & Hb' & HPb & Hst).
    destruct (decide (b = a)) as [->|Hne].
    + rewrite lookup_insert_eq. exists act'. rewrite Ha in Hb'. injection Hb' as <-.
      by rewrite HP, Es.
    + rewrite lookup_insert_ne by done. by exists actb.
  - intros b actb Hin Hst. destruct (decide (b = a)) as [->|Hne].
    + rewrite lookup_insert_eq in Hin. injection Hin as <-. rewrite HP. apply H2; [done|congruence].
    + rewrite lookup_insert_ne in Hin by done. by apply H2.
  - intros b actb Hin. destruct (decide (b = a)) as [->|Hne].
    + rewrite lookup_insert_eq in Hin. injection Hin as <-. rewrite Es. by eapply H3.
    + rewrite lookup_insert_ne in Hin by done. by eapply H3.
  - intros uid k b Hl. destruct (H4 uid k b Hl) as (actb & Hb' & Hk & Hst & Hu).
    destruct (decide (b = a)) as [->|Hne].
    + rewrite lookup_insert_eq. exists act'. rewrite Ha in Hb'. injection Hb' as <-.
      split; [done|]. split; [by unfold kind_of in *; rewrite Eo|]. split; [congruence|set_solver].
    + rewrite lookup_insert_ne by done. by exists actb.
Qed.

Lemma alter_at {V} (f : V → V) (m : gmap nat V) i x :
  m !! i = Some x → alter f i m = <[i := f x]> m.
Proof.
  intros E. apply map_eq. intros j. destruct (decide (j = i)) as [->|Hne].
  - by rewrite lookup_alter_eq, E, lookup_insert_eq.
  - by rewrite lookup_alter_ne, lookup_insert_ne.
Qed.

Lemma alter_none {V} (f : V → V) (m : gmap nat V) i : m !! i = None → alter f i m = m.
Proof.
  intros E. apply map_eq. intros j. destruct (decide (j = i)) as [->|Hne].
  - by rewrite lookup_alter_eq, E.
  - by rewrite lookup_alter_ne.
Qed.

Lemma wf_alter a f s :
  (∀ act, keeps act (f act)) → wf s → wf (on_actor a f s).
Proof.
  intros Hf Hwf. unfold on_actor. destruct (acts s !! a) as [act|] eqn:E.
  - rewrite (alter_at _ _ _ _ E). eapply wf_on_actor; [done|apply Hf|done].
  - rewrite alter_none by done. by destruct s.
Qed.

Lemma keeps_refl act : keeps act act.
Proof. done. Qed.

Lemma register_keeps c act act' : register c act = Some act' → keeps act act'.
Proof.
  unfold register. repeat case_bool_decide; try done; [destruct c|..]; by intros [= <-].
Qed.

Lemma register_all_keeps cs act act' : register_all cs act = Some act' → keeps act act'.
Proof.
  revert act. induction cs as [|c cs IH]; intros act; cbn [register_all]; [by intros [= <-]|].
  intros (act1 & H1 & H2)%bind_Some. destruct (register_keeps _ _ _ H1) as (E1 & E2 & E3).
  destruct (IH _ H2) as (F1 & F2 & F3). split; [congruence|]. split; [congruence|set_solver].
Qed.

Lemma Invoke_keeps f act : keeps act (Invoke f act).
Proof. unfold Invoke. by repeat case_bool_decide. Qed.

(** *** Loading an actor, seen from a look-up in the relations *)

Lemma loadActor_insert s uid k a uid' k' :
  loadActor uid' k' (set_relations (<[uid := <[k := a]> (default ∅ (relations s !! uid))]> (relations s)) s) =
  if decide (uid' = uid ∧ k' = k) then Some a else loadActor uid' k' s.
Proof.
  unfold loadActor. cbn. destruct (decide (uid' = uid)) as [->|Hne].
  - rewrite lookup_insert_eq. cbn. destruct (decide (k' = k)) as [->|Hk].
    + rewrite lookup_insert_eq. by rewrite decide_True.
    + rewrite lookup_insert_ne by done. rewrite decide_False by tauto.
      by destruct (relations s !! uid).
  - rewrite lookup_insert_ne by done. by rewrite decide_False by tauto.
Qed.

Lemma unbind_users_lookup users k rel uid' k' :
  (unbind_users users k rel !! uid' ≫= λ m, m !! k') =
  if decide (uid' ∈ users ∧ k' = k) then None else rel !! uid' ≫= λ m, m !! k'.
Proof.
  unfold unbind_users. rewrite map_lookup_imap. destruct (rel !! uid') as [m|]; cbn.
  - case_bool_decide as Hu; [destruct (decide (k' = k)) as [->|Hk]|].
    + by rewrite lookup_delete_eq, decide_True.
    + rewrite lookup_delete_ne by done. by rewrite decide_False by tauto.
    + by rewrite decide_False by tauto.
  - by case_decide.
Qed.

Lemma remove_lookup kind id s a act uid' k' :
  load kind id s = Some a → acts s !! a = Some act →
  loadActor uid' k' (remove kind id s).2 =
  if decide (k' = kind_of act ∧ loadActor uid' k' s = Some a) then None else loadActor uid' k' s.
Proof.
  intros Hl Ha. unfold remove. rewrite Hl, Ha. unfold loadActor. cbn. rewrite lookup_fmap.
  destruct (relations s !! uid') as [m|]; cbn; [|by rewrite decide_False by naive_solver].
  case_bool_decide as Hm.
  - destruct (decide (k' = kind_of act)) as [->|Hk].
    + by rewrite lookup_delete_eq, decide_True.
    + rewrite lookup_delete_ne by done. by rewrite decide_False by tauto.
  - rewrite decide_False; [done|]. intros [-> ?]. done.
Qed.

(** *** Ends of actors *)

(** What is left when the actor [a] has ended. *)
Record gone (a : nat) (act : Actor) (s s' : State) : Prop := {
  gone_actors : actors s' = delete (PID act) (actors s);
  gone_acts : acts s' = alter destroy_actor a (acts s);
  gone_relations uid k : loadActor uid k s' =
    if decide (uid ∈ binds act ∧ k = kind_of act) then None else loadActor uid k s;
}.

Lemma wf_gone a act s s' :
  wf s → acts s !! a = Some act → a_state act = started → gone a act s s' → wf s'.
Proof.
  intros [H1 H2 H3 H4] Ha Hst [E1 E2 E3]. rewrite (alter_at _ _ _ _ Ha) in E2.
  pose proof (H2 a act Ha Hst) as Hreg. split; rewrite ?E1, ?E2.
  - intros p b [Hp Hb]%lookup_delete_Some. destruct (H1 p b Hb) as (actb & Hb' & HPb & Hstb).
    assert (b ≠ a) by (intros ->; rewrite Ha in Hb'; injection Hb' as <-; done).
    rewrite lookup_insert_ne by done. by exists actb.
  - intros b actb Hb Hstb. destruct (decide (b = a)) as [->|Hne].
    { rewrite lookup_insert_eq in Hb. by injection Hb as <-. }
    rewrite lookup_insert_ne in Hb by done. rewrite lookup_delete_ne; [by apply H2|].
    intros HP. pose proof (H2 b actb Hb Hstb) as Hb'. rewrite <- HP in Hb'. congruence.
  - intros b actb Hb. destruct (decide (b = a)) as [->|Hne].
    + rewrite lookup_insert_eq in Hb. injection Hb as <-. by right.
    + rewrite lookup_insert_ne in Hb by done. by eapply H3.
  - intros uid k b. rewrite E3. case_decide as Hd; [done|]. intros Hb.
    destruct (H4 uid k b Hb) as (actb & Hb' & Hk & Hstb & Hu). exists actb.
    destruct (decide (b = a)) as [->|Hne]; [|by rewrite lookup_insert_ne].
    rewrite Ha in Hb'. injection Hb' as <-. by destruct Hd.
Qed.

Lemma kill_gone kind id s a act :
  wf s → load kind id s = Some a → acts s !! a = Some act →
  remove kind id s = (Some a, (remove kind id s).2) ∧
  gone a act s (destroy a (remove kind id s).2).2 ∧ (destroy a (remove kind id s).2).1 = true.
Proof.
  intros Hwf Hl Ha. destruct (wf_actors _ Hwf _ _ Hl) as (act' & Ha' & HP & Hst).
  rewrite Ha in Ha'. injection Ha' as <-.
  assert (Hr : ∀ uid k, loadActor uid k (remove kind id s).2 = _) by
    (intros; by apply remove_lookup).
  assert (Hacts : acts (remove kind id s).2 = acts s) by (unfold remove; by rewrite Hl, Ha).
  assert (Hactors : actors (remove kind id s).2 = delete (PID act) (actors s))
    by (unfold remove; by rewrite Hl, Ha).
  split; [unfold remove; by rewrite Hl, Ha|]. unfold destroy. rewrite Hacts, Ha.
  rewrite bool_decide_eq_true_2 by done. split; [|done]. split.
  - cbn. by rewrite Hactors.
  - cbn. by rewrite Hacts.
  - intros uid k. unfold loadActor at 1. cbn. rewrite unbind_users_lookup.
    case_decide as Hd; [done|]. fold (loadActor uid k (remove kind id s).2). rewrite Hr.
    case_decide as Hd'; [|done]. destruct Hd' as [-> Hd'].
    destruct (wf_relations _ Hwf _ _ _ Hd') as (act' & Ha' & _ & _ & Hu).
    rewrite Ha in Ha'. injection Ha' as <-. by destruct Hd.
Qed.

Lemma Destroy_gone a act s :
  wf s → acts s !! a = Some act → a_state act = started →
  gone a act s (Destroy a s).1 ∧ (Destroy a s).2 = Ok true.
Proof.
  intros Hwf Ha Hst. unfold Destroy, destroy. rewrite Ha, bool_decide_eq_true_2 by done.
  set (s1 := on_actor a destroy_actor _).
  assert (Ha1 : acts s1 !! a = Some (destroy_actor act)).
  { subst s1. cbn. by rewrite lookup_alter_eq, Ha. }
  assert (Hl1 : load (kind_of act) (ID act) s1 = Some a) by exact (wf_started _ Hwf a act Ha Hst).
  assert (Hrel : ∀ uid k, loadActor uid k s1 =
    if decide (uid ∈ binds act ∧ k = kind_of act) then None else loadActor uid k s).
  { intros uid k. unfold loadActor at 1. cbn. apply unbind_users_lookup. }
  assert (Hr : ∀ uid k, loadActor uid k (remove (kind_of act) (ID act) s1).2 = _) by
    (intros; by apply (remove_lookup (kind_of act) (ID act) s1 a (destroy_actor act))).
  assert (E : remove (kind_of act) (ID act) s1 =
    (Some a, (remove (kind_of act) (ID act) s1).2)) by (unfold remove; by rewrite Hl1, Ha1).
  rewrite E. cbn [fst snd]. split; [|by rewrite bool_decide_eq_true_2].
  split.
  - unfold remove. rewrite Hl1, Ha1. done.
  - unfold remove. rewrite Hl1, Ha1. done.
  - intros uid k. rewrite Hr, Hrel. change (kind_of (destroy_actor act)) with (kind_of act).
    destruct (decide (uid ∈ binds act ∧ k = kind_of act)) as [Hd|Hd]; [by case_decide|].
    case_decide as Hd'; [|done]. destruct Hd' as [-> Hd'].
    destruct (wf_relations _ Hwf _ _ _ Hd') as (act' & Ha' & _ & _ & Hu).
    rewrite Ha in Ha'. injection Ha' as <-. by destruct Hd.
Qed.

(** *** Each step preserves the invariant *)

Lemma addWait_same s :
  objects (addWait s) = objects s ∧ acts (addWait s) = acts s ∧ actors (addWait s) = actors s ∧
  relations (addWait s) = relations s ∧ routes (addWait s) = routes s ∧ kinds (addWait s) = kinds s.
Proof. unfold addWait. by case_bool_decide. Qed.

Lemma doneWait_same s :
  acts (doneWait s).1 = acts s ∧ actors (doneWait s).1 = actors s ∧
  relations (doneWait s).1 = relations s ∧ routes (doneWait s).1 = routes s ∧
  objects (doneWait s).1 = objects s.
Proof. unfold doneWait. by repeat case_bool_decide. Qed.

Lemma wf_add_actor a act s :
  wf s → acts s !! a = None → actors s !! PID act = None → a_state act = started →
  wf (set_actors (<[PID act := a]> (actors s)) (set_acts (<[a := act]> (acts s)) s)).
Proof.
  intros [H1 H2 H3 H4] Ha Hp Hst. split; cbn.
  - intros p b [[<- <-]|[Hne Hb]]%lookup_insert_Some.
    + rewrite lookup_insert_eq. by exists act.
    + destruct (H1 p b Hb) as (actb & Hb' & ?). exists actb.
      rewrite lookup_insert_ne by congruence. done.
  - intros b actb [[<- <-]|[Hne Hb]]%lookup_insert_Some Hstb; [by rewrite lookup_insert_eq|].
    rewrite lookup_insert_ne; [by apply H2|]. intros E. pose proof (H2 b actb Hb Hstb). congruence.
  - intros b actb [[<- <-]|[Hne Hb]]%lookup_insert_Some; [by left|]. by eapply H3.
  - intros uid k b Hb. destruct (H4 uid k b Hb) as (actb & Hb' & ?). exists actb.
    rewrite lookup_insert_ne by congruence. done.
Qed.

Lemma wf_spawn o created inited s s' r :
  wf s → spawn o created inited s = Some (s', r) → wf s'.
Proof.
  intros Hwf. unfold spawn. intros (act0 & Hc & H)%bind_Some.
  destruct (load (o_kind o) (o_id o) s) as [?|] eqn:El; [by injection H as <- <-|].
  apply bind_Some in H as (act & Hi & [= <- <-]).
  apply register_all_keeps in Hc as (Ho & Hst & _). apply register_all_keeps in Hi as (Ho' & Hst' & _).
  set (s1 := if o_wait o then addWait s else s).
  assert (acts s1 = acts s ∧ actors s1 = actors s ∧ relations s1 = relations s) as (E1 & E2 & E3).
  { subst s1. destruct (o_wait o); [|done]. pose proof (addWait_same s). naive_solver. }
  set (s2 := if o_dispatch o then _ else s1).
  assert (acts s2 = acts s ∧ actors s2 = actors s ∧ relations s2 = relations s) as (F1 & F2 & F3).
  { subst s2. destruct (o_dispatch o); [case_bool_decide|]; done. }
  clearbody s2. clear dependent s1.
  assert (wf s2) by (by eapply wf_same).
  apply wf_add_actor; [done|..].
  - apply not_elem_of_dom, is_fresh.
  - rewrite F2. unfold PID, kind_of, ID. rewrite Ho', Ho. exact El.
  - by rewrite Hst', Hst.
Qed.

Lemma wf_kill kind id s : wf s → wf (kill kind id s).1.
Proof.
  intros Hwf. unfold kill. destruct (load kind id s) as [a|] eqn:El.
  - destruct (wf_actors _ Hwf _ _ El) as (act & Ha & HP & Hst).
    destruct (kill_gone kind id s a act Hwf El Ha) as (-> & Hg & _).
    destruct (destroy a _) as [ok s2] eqn:Ed. cbn [fst snd] in Hg.
    assert (wf s2) by (by eapply wf_gone).
    destruct (waits a s2); [|done]. pose proof (doneWait_same s2) as Hs.
    destruct (doneWait s2) as [s3 r]. cbn in *. eapply wf_same; [..|done]; tauto.
  - unfold remove. by rewrite El.
Qed.

Lemma wf_Destroy a s : wf s → wf (Destroy a s).1.
Proof.
  intros Hwf. destruct (acts s !! a) as [act|] eqn:Ha.
  - destruct (decide (a_state act = started)) as [Hst|Hst].
    + eapply wf_gone; [done..|]. by apply Destroy_gone.
    + unfold Destroy, destroy. by rewrite Ha, bool_decide_eq_false_2.
  - unfold Destroy. by rewrite Ha.
Qed.

Lemma wf_bind uid kind id s : wf s → wf (bindActor uid kind id s).1.
Proof.
  intros Hwf. unfold bindActor. case_bool_decide; [done|].
  destruct (load kind id s) as [a|] eqn:El; [|done].
  destruct (wf_actors _ Hwf _ _ El) as (act & Ha & HP & Hst). rewrite Ha. cbn [fst].
  set (s1 := on_actor a _ s).
  assert (Ha1 : acts s1 !! a = Some (set_binds ({[uid]} ∪ binds act) act)).
  { subst s1. cbn. by rewrite lookup_alter_eq, Ha. }
  assert (wf s1) as [H1 H2 H3 H4].
  { subst s1. unfold on_actor. rewrite (alter_at _ _ _ _ Ha). eapply wf_on_actor; [done|..|done].
    split; [done|]. split; [done|]. cbn. set_solver. }
  split; [exact H1|exact H2|exact H3|]. intros uid' k a'. rewrite loadActor_insert.
  case_decide as Hd; [|apply H4]. destruct Hd as [-> ->]. intros [= <-].
  exists (set_binds ({[uid]} ∪ binds act) act). split; [exact Ha1|]. split; [done|].
  split; [done|]. cbn. set_solver.
Qed.

Lemma unbindActor_lookup uid kind s uid' k' :
  wf s → loadActor uid' k' (unbindActor uid kind s) =
  if decide (uid' = uid ∧ k' = kind) then None else loadActor uid' k' s.
Proof.
  intros Hwf. unfold unbindActor. fold (loadActor uid kind s).
  destruct (loadActor uid kind s) as [a|] eqn:El.
  - destruct (wf_relations _ Hwf _ _ _ El) as (act & Ha & Hk & Hst & Hu).
    rewrite Ha, bool_decide_eq_true_2 by done. unfold loadActor. cbn.
    destruct (decide (uid' = uid)) as [->|Hne].
    + rewrite lookup_alter_eq. unfold loadActor in El.
      destruct (relations s !! uid) as [m|]; cbn in *; [|done].
      destruct (decide (k' = kind)) as [->|Hk'].
      * by rewrite lookup_delete_eq, decide_True.
      * rewrite lookup_delete_ne by done. by rewrite decide_False by tauto.
    + rewrite lookup_alter_ne by done. by rewrite decide_False by tauto.
  - case_decide as Hd; [|done]. by destruct Hd as [-> ->].
Qed.

Lemma wf_unbind uid kind s : wf s → wf (unbindActor uid kind s).
Proof.
  intros Hwf. pose proof (λ u k, unbindActor_lookup uid kind s u k Hwf) as Hl.
  unfold unbindActor in *. fold (loadActor uid kind s) in *.
  destruct (loadActor uid kind s) as [a|] eqn:El; [|done].
  destruct (wf_relations _ Hwf _ _ _ El) as (act & Ha & Hk & Hst & Hu).
  rewrite Ha, bool_decide_eq_true_2 in * by done.
  set (s' := set_relations _ _) in *.
  assert (E : acts s' = <[a := set_binds (binds act ∖ {[uid]}) act]> (acts s))
    by exact (alter_at _ _ _ _ Ha).
  destruct Hwf as [H1 H2 H3 H4]. split; rewrite ?E.
  - intros p b Hp. destruct (H1 p b Hp) as (actb & Hb & ?). destruct (decide (b = a)) as [->|Hne].
    + rewrite lookup_insert_eq. rewrite Ha in Hb. injection Hb as <-. by eexists.
    + rewrite lookup_insert_ne by done. by exists actb.
  - intros b actb [[<- <-]|[Hne Hb]]%lookup_insert_Some Hstb; [by apply (H2 a act)|].
    by apply (H2 b actb).
  - intros b actb [[<- <-]|[Hne Hb]]%lookup_insert_Some; [by left|]. by eapply H3.
  - intros uid' k' b. rewrite Hl. case_decide as Hd; [done|]. intros Hb.
    destruct (H4 uid' k' b Hb) as (actb & Hb' & Hkb & Hstb & Hub).
    destruct (decide (b = a)) as [->|Hne].
    + rewrite lookup_insert_eq. rewrite Ha in Hb'. injection Hb' as <-. eexists.
      split; [done|]. split; [done|]. split; [done|]. cbn.
      assert (uid' ≠ uid) by (intros ->; apply Hd; split; [done|]; congruence). set_solver.
    + rewrite lookup_insert_ne by done. by exists actb.
Qed.

Lemma wf_Next a x s s' r : wf s → Next a x s = Some (s', r) → wf s'.
Proof.
  intros Hwf. unfold Next. destruct (acts s !! a) as [act|]; [|by intros [= <- <-]].
  assert (∀ o, wf (set_objects o s)) as Ho by (intros o; by apply (wf_same s)).
  repeat case_bool_decide; try done; intros [= <- <-]; try done.
  apply wf_alter; [intros; by split|done].
Qed.

Lemma wf_dispatch_each l x s s' r : wf s → dispatch_each l x s = Some (s', r) → wf s'.
Proof.
  revert s. induction l as [|a l IH]; intros s Hwf; cbn [dispatch_each]; [by intros [= <- <-]|].
  destruct (acts s !! a) as [act|]; [|by intros [= <- <-]].
  destruct (o_dispatch (opts act)); [|by apply IH].
  destruct (Next a x s) as [[s1 [[]|e|]]|] eqn:En; try done; [..|by intros [= <- <-]; eapply wf_Next];
    apply IH; by eapply wf_Next.
Qed.

Lemma wf_dispatch order x s s' r : wf s → dispatch order x s = Some (s', r) → wf s'.
Proof.
  intros Hwf. unfold dispatch. destruct (heap (objects s) !! x) as [c|] eqn:Ex; [|by intros [= <- <-]].
  case_bool_decide; [|by apply wf_dispatch_each].
  unfold dispatchRequest. rewrite Ex. case_bool_decide; [by intros [= <- <-]|].
  destruct (routes s !! _); [|by intros [= <- <-]].
  destruct (loadActor _ _ s); [|by intros [= <- <-]]. by apply wf_Next.
Qed.

Lemma wf_run_call a c s : wf s → wf (run_call a c s).
Proof.
  intros Hwf. unfold run_call. destruct c, (acts s !! a) as [act|]; try done;
    try (apply wf_alter; [intros; by split|done]).
  assert (wf (on_actor a (set_routes_of (<[route:=h]> (a_routes act))) s)).
  { apply wf_alter; [intros; by split|done]. }
  destruct (o_dispatch _); [by eapply wf_same; [..|eassumption]|done].
Qed.

Lemma wf_step s s' : wf s → step s s' → wf s'.
Proof.
  intros Hwf Hs. destruct Hs as [o cr ini s s' r H|kind id s|a s|uid kind id s|uid kind s
    |a x s s' r H|order x s s' r H|a s x h s' H|a s s' H|c a s act act' Ha H|f a s|z s|s|s|o s];
    eauto using wf_spawn, wf_kill, wf_Destroy, wf_bind, wf_unbind, wf_Next, wf_dispatch.
  - unfold take_mail in H. destruct (acts s !! a) as [act|]; [|done]. cbn in H.
    destruct (mailbox act); [done|]. apply bind_Some in H as (c & _ & H). injection H as <- <- <-.
    apply wf_alter; [intros; by split|done].
  - unfold take_call in H. destruct (acts s !! a) as [act|]; [|done]. cbn in H.
    destruct (fnChan act); [done|]. injection H as <-. apply wf_run_call.
    apply wf_alter; [intros; by split|done].
  - eapply wf_on_actor; [done|by eapply register_keeps|done].
  - by apply wf_alter; [apply Invoke_keeps|].
  - by apply (wf_same s).
  - pose proof (addWait_same s). apply (wf_same s); tauto.
  - pose proof (doneWait_same s). apply (wf_same s); tauto.
  - by apply (wf_same s).
Qed.

Lemma reachable_scheduler_wf s : reachable s → wf s.
Proof.
  induction 1 as [|s s' _ IH Hs]; [|by eapply wf_step].
  split; try done; intros *; cbn; rewrite ?lookup_empty; try done.
Qed.

(** ** Properties *)

(** The request [x], handed over to the actor [a]. *)
Definition handed_over (a x : nat) (c : context Fn) (act : Actor) (s s' : State) : Prop :=
  heap (objects s') !! x = Some (Cancel (incrVersion (set_actor (Some a) c))) ∧
  (∀ y, y ≠ x → heap (objects s') !! y = heap (objects s) !! y) ∧
  acts s' = <[a := set_mailbox (mailbox act ++ [x]) act]> (acts s) ∧
  actors s' = actors s ∧ relations s' = relations s ∧ routes s' = routes s ∧ wg s' = wg s.

Lemma Next_room a x c act s :
  heap (objects s) !! x = Some c → acts s !! a = Some act → a_state act = started →
  (length (mailbox act) < chan_size)%nat →
  ∃ s', Next a x s = Some (s', Ok ()) ∧ handed_over a x c act s s'.
Proof.
  intros Hx Ha Hst Hroom. unfold Next. rewrite Ha.
  rewrite bool_decide_eq_false_2 by (by intros []).
  rewrite bool_decide_eq_true_2 by done.
  eexists. split; [done|]. split; [cbn; by rewrite lookup_alter_eq, Hx|].
  split; [intros y Hy; cbn; by rewrite lookup_alter_ne|].
  split; [exact (alter_at _ _ _ _ Ha)|done].
Qed.

Lemma Next_full a x act s :
  acts s !! a = Some act → a_state act = started → (chan_size ≤ length (mailbox act))%nat →
  Next a x s =
  if bool_decide (mailboxTimeout ≤ 0) then None
  else Some (set_objects (update x (λ c, Cancel (incrVersion (set_actor (Some a) c))) (objects s)) s,
             Err ErrMailboxFull).
Proof.
  intros Ha Hst Hfull. unfold Next. rewrite Ha, bool_decide_eq_false_2 by (by intros []).
  cbv zeta. by rewrite (bool_decide_eq_false_2 (_ < _)%nat) by lia.
Qed.


(** Binding, unbinding and ending change exactly these bindings: binding a
    user to a started actor makes it the user's actor of that kind, in place of
    any former one; unbinding removes that binding only; ending an actor, by
    [kill] or by its own [Destroy], unregisters it and removes the bindings, for
    its kind, of every user that was ever bound to it and not unbound since,
    which includes users that are bound to another actor of the kind by now. *)
Theorem bindings_change_exactly s :
  reachable s →
  (∀ uid kind id a act, uid ≠ 0 → load kind id s = Some a → acts s !! a = Some act →
     let '(s', r) := bindActor uid kind id s in
     r = Ok () ∧ ∀ uid' k', loadActor uid' k' s' =
       if decide (uid' = uid ∧ k' = kind_of act) then Some a else loadActor uid' k' s) ∧
  (∀ uid kind uid' k', loadActor uid' k' (unbindActor uid kind s) =
     if decide (uid' = uid ∧ k' = kind) then None else loadActor uid' k' s) ∧
  (∀ kind id a act s', load kind id s = Some a → acts s !! a = Some act →
     (s' = (kill kind id s).1 ∨ s' = (Destroy a s).1) →
     actors s' = delete (PID act) (actors s) ∧
     ∀ uid' k', loadActor uid' k' s' =
       if decide (uid' ∈ binds act ∧ k' = kind_of act) then None else loadActor uid' k' s).
Proof.
  intros Hr. pose proof (reachable_scheduler_wf s Hr) as Hwf. split; [|split].
  - intros uid kind id a act Hu Hl Ha. unfold bindActor.
    rewrite bool_decide_eq_false_2, Hl, Ha by done. split; [done|]. intros uid' k'.
    by rewrite (loadActor_insert (on_actor a _ s)).
  - intros uid kind uid' k'. by apply unbindActor_lookup.
  - intros kind id a act s' Hl Ha Hs'.
    destruct (wf_actors _ Hwf _ _ Hl) as (act' & Ha' & HP & Hst).
    rewrite Ha in Ha'. injection Ha' as <-.
    assert (gone a act s s') as [? _ ?]; [|done]. destruct Hs' as [->| ->]; [|by apply Destroy_gone].
    destruct (kill_gone kind id s a act Hwf Hl Ha) as (Er & Hg & Eo). unfold kill. rewrite Er.
    destruct (destroy a _) as [ok s2]. cbn in Hg, Eo. destruct (waits a s2); [|done].
    pose proof (doneWait_same s2) as (E1 & E2 & E3 & _). destruct (doneWait s2) as [s3 r]. cbn in *.
    destruct Hg as [G1 G2 G3]. split; [congruence|congruence|].
    intros uid k. unfold loadActor. rewrite E3. apply G3.
Qed.
End scheduler.

(** ** Examples *)

Definition spawned {Fn} (o : actorOptions) (created inited : list Call) (s : @State Fn) : State :=
  match spawn o created inited s with Some (s', _) => s' | None => s end.
Definition called {Fn} (a : nat) (s : @State Fn) : State := default s (take_call a s).

Lemma spawned_reachable {Fn} t o created inited (s : @State Fn) :
  reachable t s → reachable t (spawned o created inited s).
Proof.
  intros Hs. unfold spawned. destruct (spawn o created inited s) as [[s' r]|] eqn:E; [|done].
  by eapply reachable_step, step_spawn.
Qed.

Lemma called_reachable {Fn} t a (s : @State Fn) : reachable t s → reachable t (called a s).
Proof.
  intros Hs. unfold called. destruct (take_call a s) as [s'|] eqn:E; [|done].
  by eapply reachable_step, step_call.
Qed.

Create HintDb scheduler.
#[export] Hint Resolve spawned_reachable called_reachable reachable_new : scheduler.
#[export] Hint Extern 3 (reachable _ _) =>
  eapply reachable_step; [|first [apply step_bind | apply step_kill | apply step_destroy
    | apply step_objects | apply step_node_state]] : scheduler.

Definition table (id : String.string) : actorOptions :=
  WithActorKind (text "table") (WithActorID (text id) defaultActorOptions).

(** A working node with the actors table/1, which handles the message 7, and
    table/2; user 5 is bound to the first. *)
Definition two_tables : @State nat :=
  spawned (table "2") [] []
    (called 0 (spawned (table "1") [CallRoute 7 100%nat] [] (set_node_state Work newScheduler))).
Definition seated : @State nat := (bindActor 5 (text "table") (text "1") two_tables).1.

Definition request_of (user messageID : Z) : @Objects nat :=
  mkObjects {[0%nat := mkContext Request (text "g1") [] [] 9 user None
                          (mkMessage 1 1 messageID None) 0 1 None None]} [] [].
Definition requested : @State nat := set_objects (request_of 5 7) seated.

Lemma requested_reachable t : reachable t requested.
Proof. unfold requested, seated, two_tables. auto 8 with scheduler. Qed.

Definition table_1 : @Actor nat :=
  mkActor (table "1") started {[7 := 100%nat]} ∅ None [] [] {[5]}.

Lemma requested_actor : acts requested !! 0%nat = Some table_1.
Proof. by vm_compute. Qed.


(** User 5 moves to the second table; when the first one ends, the second one
    loses its user. *)
Definition moved : @State nat := (bindActor 5 (text "table") (text "2") seated).1.

Lemma moved_reachable t : reachable t moved.
Proof. unfold moved, seated, two_tables. auto 9 with scheduler. Qed.

Lemma moved_actor : acts moved !! 0%nat = Some table_1.
Proof. by vm_compute. Qed.

Lemma bindings_change_exactly_witness :
  loadActor 5 (text "table") moved = Some 1%nat ∧
  loadActor 5 (text "table") (kill (text "table") (text "1") moved).1 = None.
Proof.
  destruct (bindings_change_exactly 0 moved (moved_reachable 0)) as (_ & _ & H).
  split; [by vm_compute|].
  assert (Hl : load (text "table") (text "1") moved = Some 0%nat) by (by vm_compute).
  destruct (H _ _ _ _ _ Hl moved_actor (or_introl eq_refl)) as [_ ->].
  rewrite decide_True; [done|]. split; [by apply (bool_decide_unpack _)|done].
Defined.

Lemma former_actor_unbinds :
  let s := (kill (text "table") (text "1") moved).1 in
  load (text "table") (text "2") s = Some 1%nat ∧ loadActor 5 (text "table") s = None.
Proof. by vm_compute. Qed.

(** An actor spawned before the node starts is not counted; killing it later
    drives the wait group below zero. *)
Lemma killing_an_early_actor_panics :
  (kill (text "table") (text "1")
     (set_node_state Work (spawned (table "1") [] [] (@newScheduler nat)))).2 = Panic.
Proof. by vm_compute. Qed.

(** An actor that destroys itself stays counted: [Close] waits for ever. *)
Lemma destroyed_actors_stay_counted :
  let s := spawned (table "1") [] [] (set_node_state Work (@newScheduler nat)) in
  let s' := (Destroy 0 s).1 in
  wg s = 1 ∧ wg s' = 1 ∧ actors s' = ∅ ∧ (kill (text "table") (text "1") s').2 = Ok false.
Proof. by vm_compute. Qed.

(** The registrations of a creator or of [Init] are still on [fnChan] when
    [spawn] has returned: a message handed over now may find no handler. *)
Lemma handlers_not_ready :
  let s := spawned (table "1") [CallRoute 7 100%nat] [] (set_node_state Work newScheduler) in
  (a_routes <$> acts s !! 0%nat) = Some ∅ ∧ routes s = ∅ ∧
  (length ∘ fnChan <$> acts s !! 0%nat) = Some 1%nat.
Proof. by vm_compute. Qed.

(** Two pairs of kind and id with one name. *)
Lemma names_collide : pid_of (text "a/b") (text "c") = pid_of (text "a") (text "b/c").
Proof. done. Qed.
