(* ===== verification/Node.v ===== *)
(** * cluster/node: routes, events and the handling of contexts

    router.go, trigger.go, middleware.go and the parts of request.go and
    event.go that hand a context over.  A worker takes a context from a queue,
    a handler runs on it and may defer functions, pass the context to a task, to
    an actor or to the next middleware; whoever holds it last fires the deferred
    functions and puts the object back into its pool.  Handlers are functions of
    the application: what one does is chosen step by step. *)
From stdpp Require Import gmap fin_maps.
From S2P Require Import Prelude Registry Context Scheduler.
#[local] Close Scope nat_scope.
Open Scope Z_scope.

Section node.
Context {Fn : Type}.

(** ** Routes *)

Record RouteOptions := mkRouteOptions {
  Internal : bool;
  Stateful : bool;
  Authorized : bool;
  Middlewares : list Fn;
}.
Definition no_options : RouteOptions := mkRouteOptions false false false [].

Record RoutePolicy := mkPolicy { p_Internal : bool; p_Stateful : bool; p_Middlewares : list Fn }.

Record routeEntity := mkEntity {
  e_messageID : Z;
  e_handler : option Fn;
  e_options : RouteOptions;
}.

Record Router := mkRouter {
  r_routes : gmap Z routeEntity;
  preRouteHandler : option Fn;
  postRouteHandler : option Fn;
  defaultRouteHandler : option Fn;
  dispatcher : option Fn;
}.

Definition newRouter : Router := mkRouter ∅ None None None None.

(** The registrations; all but the first argument of each is what the code
    receives, the first is the node's state, which has to be [Shut]. *)
Definition when_shut (state : Z) (r r' : Router) : Router :=
  if bool_decide (state ≠ Shut) then r else r'.

Definition BindMessageDispatcher (state : Z) (h : option Fn) (r : Router) : Router :=
  when_shut state r
    (mkRouter (r_routes r) (preRouteHandler r) (postRouteHandler r) (defaultRouteHandler r) h).
Definition HasMessageDispatcher (r : Router) : bool := bool_decide (is_Some (dispatcher r)).
Definition SetDefaultRouteHandler (state : Z) (h : option Fn) (r : Router) : Router :=
  when_shut state r
    (mkRouter (r_routes r) (preRouteHandler r) (postRouteHandler r) h (dispatcher r)).
Definition HasDefaultRouteHandler (r : Router) : bool := bool_decide (is_Some (defaultRouteHandler r)).
Definition SetPreRouteHandler (state : Z) (h : option Fn) (r : Router) : Router :=
  when_shut state r
    (mkRouter (r_routes r) h (postRouteHandler r) (defaultRouteHandler r) (dispatcher r)).
Definition SetPostRouteHandler (state : Z) (h : option Fn) (r : Router) : Router :=
  when_shut state r
    (mkRouter (r_routes r) (preRouteHandler r) h (defaultRouteHandler r) (dispatcher r)).

Definition set_entity (messageID : Z) (e : routeEntity) (r : Router) : Router :=
  mkRouter (<[messageID := e]> (r_routes r)) (preRouteHandler r) (postRouteHandler r)
    (defaultRouteHandler r) (dispatcher r).
Definition entity_of (messageID : Z) (r : Router) : routeEntity :=
  default (mkEntity messageID None no_options) (r_routes r !! messageID).

(** [SetRoutePolicy]: the handler stays, the options are replaced. *)
Definition SetRoutePolicy (state : Z) (messageID : Z) (p : RoutePolicy) (r : Router) : Router :=
  let e := entity_of messageID r in
  when_shut state r
    (set_entity messageID
       (mkEntity (e_messageID e) (e_handler e)
          (mkRouteOptions (p_Internal p) (p_Stateful p) false (p_Middlewares p))) r).

(** [AddRouteHandler]: without options those of the route stay. *)
Definition AddRouteHandler (state : Z) (messageID : Z) (h : option Fn) (opts : list RouteOptions)
    (r : Router) : Router :=
  let e := entity_of messageID r in
  when_shut state r
    (set_entity messageID
       (mkEntity (e_messageID e) h (match opts with o :: _ => o | [] => e_options e end)) r).

Definition CheckRouteStateful (messageID : Z) (r : Router) : bool * bool :=
  match r_routes r !! messageID with
  | Some e => (Stateful (e_options e), true)
  | None => (false, false)
  end.
Definition CheckRouteAuthorized (messageID : Z) (r : Router) : bool * bool :=
  match r_routes r !! messageID with
  | Some e => (Authorized (e_options e), true)
  | None => (false, false)
  end.

(** What the registry is told, in the order the map is visited. *)
Definition CollectRoutes (r : Router) : list Route :=
  (λ e, mkRoute (e_messageID e) (Internal (e_options e)) (Stateful (e_options e))
          (Authorized (e_options e))) <$> (map_to_list (r_routes r)).*2.

Definition StatefulRouteCount (r : Router) : nat :=
  length (filter (λ e, Stateful (e_options e) = true) (map_to_list (r_routes r)).*2).

(** A group: middlewares put in front of each route's own. *)
Definition Middleware (group ms : list Fn) : list Fn := group ++ ms.
Definition group_AddRouteHandler (group : list Fn) (state messageID : Z) (h : option Fn)
    (opts : list RouteOptions) (r : Router) : Router :=
  let options :=
    match opts with
    | o :: _ => mkRouteOptions (Internal o) (Stateful o) (Authorized o) (group ++ Middlewares o)
    | [] => mkRouteOptions false false false group
    end in
  AddRouteHandler state messageID h [options] r.
Definition group_SetRoutePolicy (group : list Fn) (state messageID : Z) (p : RoutePolicy)
    (r : Router) : Router :=
  SetRoutePolicy state messageID
    (mkPolicy (p_Internal p) (p_Stateful p) (group ++ p_Middlewares p)) r.

(** ** The node

    A thread is a goroutine that runs handlers on one context: a worker, an
    actor or a task.  Its frames are the calls under way, the innermost first,
    each with the version it holds and whether it fires and recycles when it
    returns ([Router.handle] leaves that to the middlewares, if any).  [log] is
    the functions called, with their context. *)
Record Frame := mkFrame { f_version : Z; f_finishes : bool; f_fired : bool }.

(** [th_mw] is what [Middleware.Next] has left: the middlewares past [index] and
    the handler, or nothing once the handler was called.  A thread is named by
    what it is: (0, i) a worker for requests, (1, i) one for events, (2, a) the
    actor a, (3, i) a task. *)
Record Thread := mkThread {
  th_ctx : nat;
  th_frames : list Frame;
  th_mw : option (list Fn * Fn);
  th_task : bool;
}.
Abbreviation tid := (nat * nat)%type.

Record Node := mkNode {
  sch : @State Fn;
  router : Router;
  reqChan : list nat;
  events : gmap Z Fn;
  evtChan : list nat;
  threads : gmap tid Thread;
  log : list (Fn * nat);
}.

Definition set_sch x (n : Node) : Node :=
  mkNode x (router n) (reqChan n) (events n) (evtChan n) (threads n) (log n).
Definition set_reqChan x (n : Node) : Node :=
  mkNode (sch n) (router n) x (events n) (evtChan n) (threads n) (log n).
Definition set_evtChan x (n : Node) : Node :=
  mkNode (sch n) (router n) (reqChan n) (events n) x (threads n) (log n).
Definition set_threads x (n : Node) : Node :=
  mkNode (sch n) (router n) (reqChan n) (events n) (evtChan n) x (log n).
Definition called (fs : list (option Fn)) (x : nat) (n : Node) : Node :=
  mkNode (sch n) (router n) (reqChan n) (events n) (evtChan n) (threads n)
    (log n ++ ((λ f, (f, x)) <$> omap id fs)).
Definition on_objects (f : @Objects Fn → @Objects Fn) (n : Node) : Node :=
  set_sch (set_objects (f (objects (sch n))) (sch n)) n.
Definition ctx_of (x : nat) (n : Node) : option (context Fn) := heap (objects (sch n)) !! x.

(** [Trigger.AddEventHandler] *)
Definition AddEventHandler (event : Z) (h : Fn) (n : Node) : Node :=
  if bool_decide (node_state (sch n) ≠ Shut) then n
  else mkNode (sch n) (router n) (reqChan n) (<[event := h]> (events n)) (evtChan n)
         (threads n) (log n).

(** ** Queues *)

Context (deliverTimeout : Z).
Definition req_size : nat := Z.to_nat 10240.
Definition evt_size : nat := Z.to_nat 4096.

(** [Router.deliver]: the fields that are set on the pooled object. *)
Record delivery := mkDelivery {
  d_gid : list Z; d_nid : list Z; d_pid : list Z;
  d_cid : Z; d_uid : Z;
  d_metadata : option (gmap (list Z) (list Z));
  d_message : Message;
}.

Definition fill (d : delivery) (c : context Fn) : context Fn :=
  mkContext (kind c) (d_gid d) (d_nid d) (d_pid d) (d_cid d) (d_uid d) (d_metadata d) (d_message d)
    (event c) (version c) (chain c) (actor c).

(** A full queue blocks without a timeout; after it the object goes back. *)
Definition deliver (choice : nat) (d : delivery) (n : Node) : option (Node * outcome unit) :=
  let '(x, o) := get Request choice (objects (sch n)) in
  let n := on_objects (λ _, update x (fill d) o) n in
  if bool_decide ((length (reqChan n) < req_size)%nat)
  then Some (set_reqChan (reqChan n ++ [x]) n, Ok ())
  else if bool_decide (deliverTimeout <= 0) then None
  else Some (on_objects (recycle x) n, Err ErrDeliverQueueFull).

Definition fill_event (evt : Z) (gid : list Z) (cid uid : Z) (c : context Fn) : context Fn :=
  mkContext (kind c) gid (nid c) (pid c) cid uid (metadata c) (message c) evt (version c) (chain c)
    (actor c).

Definition trigger (choice : nat) (evt : Z) (gid : list Z) (cid uid : Z) (n : Node)
    : option (Node * outcome unit) :=
  let '(x, o) := get Event choice (objects (sch n)) in
  let n := on_objects (λ _, update x (fill_event evt gid cid uid) o) n in
  if bool_decide ((length (evtChan n) < evt_size)%nat)
  then Some (set_evtChan (evtChan n ++ [x]) n, Ok ())
  else if bool_decide (deliverTimeout <= 0) then None
  else Some (on_objects (recycle x) n, Err ErrDeliverQueueFull).

(** ** Steps *)

Inductive act :=
  | NDeliver (choice : nat) (d : delivery)
  | NTrigger (choice : nat) (evt : Z) (gid : list Z) (cid uid : Z)
  | NServe (i : nat)
  | NServeEvent (i : nat)
  | NActor (a : nat)
  | NDefer (t : tid) (fn : Fn) (bottom : bool)
  | NCancel (t : tid)
  | NTask (t : tid) (i : nat) (fn : Fn)
  | NNext (t : tid) (order : list nat)
  | NSkip (t : tid) (k : nat)
  | NReturn (t : tid)
  | NRecycle (t : tid).

Context (mailboxTimeout : Z).

Definition start (t : tid) (th : Thread) (n : Node) : Node :=
  set_threads (<[t := th]> (threads n)) n.

(** [compareVersionRecycle], with [postRouteHandler] of requests. *)
Definition recycle_ctx (v : Z) (x : nat) (n : Node) : Node :=
  match ctx_of x n with
  | None => n
  | Some c =>
      let '(done, o) := compareVersionRecycle v x (objects (sch n)) in
      let n := on_objects (λ _, o) n in
      if (done : bool) && bool_decide (kind c = Request)
      then called [postRouteHandler (router n)] x n else n
  end.

(** [Middleware.Skip] by [S k]; nothing once the handler was called. *)
Definition skip (t : tid) (th : Thread) (k : nat) (n : Node) : Node :=
  match th_mw th with
  | None => n
  | Some (rest, h) =>
      let x := th_ctx th in
      let n := on_objects (update x (λ c, Cancel (incrVersion c))) n in
      let v := default 0 (version <$> ctx_of x n) in
      let '(fn, mw) := match drop k rest with
                       | [] => (h, None)
                       | m :: rest => (m, Some (rest, h))
                       end in
      start t (mkThread x (mkFrame v true false :: th_frames th) mw (th_task th))
        (called [Some fn] x n)
  end.

(** The handler that [Router.handle] chooses. *)
Definition handler_for (messageID : Z) (r : Router) : option Fn :=
  match dispatcher r with
  | Some h => Some h
  | None => match r_routes r !! messageID ≫= e_handler with
            | Some h => Some h
            | None => defaultRouteHandler r
            end
  end.

(** [Router.handle] up to the call of the handler. *)
Definition serve (i : nat) (n : Node) : option Node :=
  match reqChan n, threads n !! (0%nat, i) with
  | x :: rest, None =>
      let n := set_reqChan rest (on_objects (update x incrVersion) n) in
      c ← ctx_of x n;
      let v := version c in
      let route := r_routes (router n) !! MessageID (message c) in
      let handler := handler_for (MessageID (message c)) (router n) in
      match handler with
      | None => Some (recycle_ctx v x n)
      | Some h =>
          let n := called [preRouteHandler (router n)] x n in
          match route with
          | Some (mkEntity _ _ (mkRouteOptions _ _ _ ((_ :: _) as ms))) =>
              Some (skip (0%nat, i) (mkThread x [mkFrame v false false] (Some (ms, h)) false) 0 n)
          | _ => Some (start (0%nat, i) (mkThread x [mkFrame v true false] None false)
                         (called [Some h] x n))
          end
      end
  | _, _ => None
  end.

(** [Trigger.handle] *)
Definition serve_event (i : nat) (n : Node) : option Node :=
  match evtChan n, threads n !! (1%nat, i) with
  | x :: rest, None =>
      let n := set_evtChan rest (on_objects (update x incrVersion) n) in
      c ← ctx_of x n;
      match events n !! event c with
      | Some h => Some (start (1%nat, i) (mkThread x [mkFrame (version c) true false] None false)
                          (called [Some h] x n))
      | None => Some (recycle_ctx (version c) x n)
      end
  | _, _ => None
  end.

(** The turn of [Actor.dispatch] that takes a context. *)
Definition serve_mail (a : nat) (n : Node) : option Node :=
  match threads n !! (2%nat, a) with
  | Some _ => None
  | None =>
      '(x, h, s) ← take_mail a (sch n);
      let n := set_sch s n in
      c ← ctx_of x n;
      let v := loadVersion c in
      match h with
      | Some h => Some (start (2%nat, a) (mkThread x [mkFrame v true false] None false)
                          (called [Some h] x n))
      | None => Some (recycle_ctx v x n)
      end
  end.

(** [Task]: the context passes to a new goroutine. *)
Definition to_task (x i : nat) (fn : Fn) (n : Node) : option Node :=
  match threads n !! (3%nat, i) with
  | Some _ => None
  | None =>
      let n := on_objects (update x (λ c, Cancel (incrVersion c))) n in
      c ← ctx_of x n;
      let n := set_sch (addWait (sch n)) n in
      Some (start (3%nat, i) (mkThread x [mkFrame (version c) true false] None true)
              (called [Some fn] x n))
  end.

(** The innermost call has returned and is left. *)
Definition leave (t : tid) (th : Thread) (n : Node) : Node :=
  match tail (th_frames th) with
  | [] =>
      let n := set_threads (delete t (threads n)) n in
      if th_task th then set_sch (doneWait (sch n)).1 n else n
  | fs => start t (mkThread (th_ctx th) fs (th_mw th) (th_task th)) n
  end.

(** A handler returns: its frame fires the deferred functions if it is to. *)
Definition return_ (t : tid) (th : Thread) (n : Node) : option Node :=
  match th_frames th with
  | mkFrame v true false :: fs =>
      c ← ctx_of (th_ctx th) n;
      let '(fired, c) := compareVersionExecDefer v c in
      let n := on_objects (update (th_ctx th) (λ _, c)) n in
      Some (start t (mkThread (th_ctx th) (mkFrame v true true :: fs) (th_mw th) (th_task th))
              (called (Some <$> fired) (th_ctx th) n))
  | mkFrame _ false _ :: _ => Some (leave t th n)
  | _ => None
  end.

Definition exec (a : act) (n : Node) : option Node :=
  match a with
  | NDeliver choice d => fst <$> deliver choice d n
  | NTrigger choice evt gid cid uid => fst <$> trigger choice evt gid cid uid n
  | NServe i => serve i n
  | NServeEvent i => serve_event i n
  | NActor a => serve_mail a n
  | NDefer t fn bottom =>
      th ← threads n !! t; Some (on_objects (update (th_ctx th) (Defer fn bottom)) n)
  | NCancel t => th ← threads n !! t; Some (on_objects (update (th_ctx th) Cancel) n)
  | NTask t i fn => th ← threads n !! t; to_task (th_ctx th) i fn n
  | NNext t order =>
      th ← threads n !! t;
      '(s, _) ← dispatch mailboxTimeout order (th_ctx th) (sch n); Some (set_sch s n)
  | NSkip t k => th ← threads n !! t; Some (skip t th k n)
  | NReturn t => th ← threads n !! t; return_ t th n
  | NRecycle t =>
      th ← threads n !! t;
      match th_frames th with
      | mkFrame v true true :: _ => Some (leave t th (recycle_ctx v (th_ctx th) n))
      | _ => None
      end
  end.

Fixpoint run (l : list act) (n : Node) : option Node :=
  match l with [] => Some n | a :: l => n ← exec a n; run l n end.

(** ** One request from its worker to the pool

    What a handler may do with the deferred functions of its context. *)
Inductive hact := HDefer (fn : Fn) (bottom : bool) | HCancel.
Definition act_of (t : tid) (h : hact) : act :=
  match h with HDefer fn bottom => NDefer t fn bottom | HCancel => NCancel t end.

(** The functions that are called in the end: those deferred since the last
    cancellation, the latest first, then the ones sent to the bottom in turn. *)
Definition kept (l : list hact) : list (Fn * bool) :=
  foldl (λ k h, match h with HDefer fn bottom => k ++ [(fn, bottom)] | HCancel => [] end) [] l.
Definition tops (k : list (Fn * bool)) : list Fn := (filter (λ p, p.2 = false) k).*1.
Definition bottoms (k : list (Fn * bool)) : list Fn := (filter (λ p, p.2 = true) k).*1.
Definition fires (l : list hact) : list Fn := rev (tops (kept l)) ++ bottoms (kept l).

Definition middlewares_for (messageID : Z) (r : Router) : list Fn :=
  match r_routes r !! messageID with Some e => Middlewares (e_options e) | None => [] end.

(** A handler returns and its frame is left. *)
Definition finish (t : tid) : list act := [NReturn t; NRecycle t].

(** A request through its middlewares, each of which does something to the
    deferred functions and calls [Next], to the handler and back. *)
Definition through (t : tid) (each : list (list hact)) (handler : list hact) : list act :=
  concat ((λ l, (act_of t <$> l) ++ [NSkip t 0]) <$> each) ++ (act_of t <$> handler) ++
  (if each is [] then finish t else concat (replicate (S (length each)) (finish t)) ++ [NReturn t]).

Section one_request.
Context (n0 : Node) (t : tid) (x : nat).

Definition on_x (fs : list Fn) : list (Fn * nat) := (λ f, (f, x)) <$> fs.

(** A state in which [t] works on [x], and nothing else has changed. *)
Definition at_ (c : context Fn) (p : list nat) (fs : list Frame) (mw : option (list Fn * Fn))
    (l : list (Fn * nat)) : Node :=
  mkNode (set_objects (mkObjects (<[x := c]> (heap (objects (sch n0)))) p
                         (evtPool (objects (sch n0)))) (sch n0))
    (router n0) (reqChan n0) (events n0) (evtChan n0)
    (if fs is [] then delete t (threads n0) else <[t := mkThread x fs mw false]> (threads n0)) l.

Lemma at_objects c p f fs mw l :
  on_objects (update x f) (at_ c p fs mw l) = at_ (f c) p fs mw l.
Proof.
  unfold on_objects, at_, update, set_sch, set_objects. cbn.
  by rewrite alter_insert_eq.
Qed.

Lemma at_thread c p f fs mw l :
  threads (at_ c p (f :: fs) mw l) !! t = Some (mkThread x (f :: fs) mw false).
Proof. apply lookup_insert_eq. Qed.

Lemma at_ctx c p fs mw l : ctx_of x (at_ c p fs mw l) = Some c.
Proof. apply lookup_insert_eq. Qed.

Lemma at_start c p fs mw g gs mw' l :
  start t (mkThread x (g :: gs) mw' false) (at_ c p fs mw l) = at_ c p (g :: gs) mw' l.
Proof.
  unfold start, set_threads, at_. cbn.
  destruct fs; [by rewrite insert_delete_eq|by rewrite insert_insert_eq].
Qed.

Lemma at_called c p fs mw l hs :
  called hs x (at_ c p fs mw l) = at_ c p fs mw (l ++ ((λ f, (f, x)) <$> omap id hs)).
Proof. done. Qed.

Lemma at_leave c p f fs mw l :
  leave t (mkThread x (f :: fs) mw false) (at_ c p (f :: fs) mw l) = at_ c p fs mw l.
Proof.
  unfold leave. cbn. destruct fs as [|g gs]; [|apply at_start].
  unfold set_threads, at_. cbn. by rewrite delete_insert_eq.
Qed.

(** *** The steps from such a state *)

Definition hdo (c : context Fn) (h : hact) : context Fn :=
  match h with HDefer fn bottom => Defer fn bottom c | HCancel => Cancel c end.

Lemma at_acts acts rest c p f fs mw l :
  run ((act_of t <$> acts) ++ rest) (at_ c p (f :: fs) mw l) =
  run rest (at_ (foldl hdo c acts) p (f :: fs) mw l).
Proof.
  revert c. induction acts as [|a acts IH]; intros c; [done|].
  rewrite fmap_cons. cbn [app run foldl].
  assert (E : exec (act_of t a) (at_ c p (f :: fs) mw l) = Some (at_ (hdo c a) p (f :: fs) mw l));
    [|rewrite E; apply IH].
  destruct a; cbn [act_of exec]; rewrite at_thread; cbn; by rewrite at_objects.
Qed.

Lemma version_Cancel (c : context Fn) : version (Cancel c) = version c.
Proof. unfold Cancel. by destruct (chain c). Qed.

Lemma chain_Cancel (c : context Fn) : default [] (chain (Cancel c)) = [].
Proof. unfold Cancel. destruct (chain c) eqn:E; [done|by rewrite E]. Qed.

Lemma kind_Cancel (c : context Fn) : kind (Cancel c) = kind c.
Proof. unfold Cancel. by destruct (chain c). Qed.

Lemma skip_at ms h c p f fs gs mw l :
  skip t (mkThread x (f :: fs) (Some (ms, h)) false) 0 (at_ c p gs mw l) =
  at_ (Cancel (incrVersion c)) p (mkFrame (wrapS 32 (version c + 1)) true false :: f :: fs)
    (match ms with [] => None | _ :: ms => Some (ms, h) end)
    (l ++ [(match ms with [] => h | m :: _ => m end, x)]).
Proof.
  unfold skip. cbn -[at_ ctx_of on_objects].
  rewrite at_objects, at_ctx. cbn -[at_ ctx_of on_objects]. rewrite version_Cancel.
  destruct ms as [|m ms]; cbn -[at_ ctx_of on_objects]; rewrite at_called; by rewrite at_start.
Qed.

Lemma at_skip rest ms h c p f fs l :
  run (NSkip t 0 :: rest) (at_ c p (f :: fs) (Some (ms, h)) l) =
  run rest (at_ (Cancel (incrVersion c)) p
              (mkFrame (wrapS 32 (version c + 1)) true false :: f :: fs)
              (match ms with [] => None | _ :: ms => Some (ms, h) end)
              (l ++ [(match ms with [] => h | m :: _ => m end, x)])).
Proof.
  cbn [run exec]. rewrite at_thread. cbn [mbind option_bind]. by rewrite skip_at.
Qed.

Lemma omap_Some (l : list Fn) : omap id (Some <$> l) = l.
Proof. induction l as [|f l IH]; [done|]. cbn. by rewrite <- IH at 2. Qed.

Lemma at_return c p v fs mw l :
  exec (NReturn t) (at_ c p (mkFrame v true false :: fs) mw l) =
  Some (at_ (compareVersionExecDefer v c).2 p (mkFrame v true true :: fs) mw
          (l ++ on_x (compareVersionExecDefer v c).1)).
Proof.
  cbn [exec]. rewrite at_thread. cbn -[at_ ctx_of on_objects compareVersionExecDefer].
  unfold return_. cbn -[at_ ctx_of on_objects compareVersionExecDefer]. rewrite at_ctx.
  cbn -[at_ ctx_of on_objects compareVersionExecDefer].
  destruct (compareVersionExecDefer v c) as [fired c']. rewrite at_objects, at_called, at_start.
  by rewrite omap_Some.
Qed.

Lemma at_recycle c p v fs mw l :
  kind c = Request →
  exec (NRecycle t) (at_ c p (mkFrame v true true :: fs) mw l) =
  Some (if bool_decide (version c = v)
        then at_ (reset (set_version 0 c)) (x :: p) fs mw
               (l ++ on_x (option_list (postRouteHandler (router n0))))
        else at_ c p fs mw l).
Proof.
  intros Hk. cbn [exec]. rewrite at_thread. cbn -[at_ ctx_of on_objects].
  unfold recycle_ctx. rewrite at_ctx. unfold compareVersionRecycle.
  pose proof (at_ctx c p (mkFrame v true true :: fs) mw l) as E. unfold ctx_of in E. rewrite E.
  case_bool_decide as Hv; cbn [andb]; f_equal; [|by apply at_leave].
  rewrite bool_decide_true by done.
  assert (Ho : recycle x (update x (set_version 0)
                 (objects (sch (at_ c p (mkFrame v true true :: fs) mw l)))) =
               objects (sch (at_ (reset (set_version 0 c)) (x :: p) (mkFrame v true true :: fs) mw l))).
  { unfold recycle, update. cbn. rewrite alter_insert_eq, lookup_insert_eq.
    cbn. rewrite alter_insert_eq, Hk. done. }
  rewrite Ho. etransitivity; [|apply at_leave]. by unfold on_x; f_equal.
Qed.

Lemma kind_fired v (c : context Fn) : kind (compareVersionExecDefer v c).2 = kind c.
Proof. unfold compareVersionExecDefer. destruct (chain c); [by case_bool_decide|done]. Qed.

Lemma version_fired v (c : context Fn) : version (compareVersionExecDefer v c).2 = version c.
Proof. unfold compareVersionExecDefer. destruct (chain c); [by case_bool_decide|done]. Qed.

Lemma at_finish_last rest c p v fs mw l :
  kind c = Request → v = version c →
  run (finish t ++ rest) (at_ c p (mkFrame v true false :: fs) mw l) =
  run rest (at_ (reset (set_version 0 c)) (x :: p) fs mw
              (l ++ on_x (default [] (chain c) ++ option_list (postRouteHandler (router n0))))).
Proof.
  intros Hk ->. cbn [run finish app]. rewrite at_return. cbn [mbind option_bind].
  rewrite at_recycle by (rewrite ?kind_fired; done). rewrite version_fired, bool_decide_true by done.
  cbn [mbind option_bind]. unfold compareVersionExecDefer, loadVersion, on_x.
  destruct (chain c) as [d|] eqn:Hd; cbn.
  - rewrite bool_decide_true by done. cbn.
    rewrite fmap_app, app_assoc. unfold reset. cbn. by rewrite Hk.
  - by rewrite app_nil_r.
Qed.

Lemma at_finish_stale rest c p v fs mw l :
  kind c = Request → v ≠ version c →
  run (finish t ++ rest) (at_ c p (mkFrame v true false :: fs) mw l) =
  run rest (at_ c p fs mw l).
Proof.
  intros Hk Hv. 
  assert (E : compareVersionExecDefer v c = ([], c)).
  { unfold compareVersionExecDefer. destruct (chain c); [|done].
    by rewrite bool_decide_false by (intros E; by apply Hv). }
  cbn [run finish app]. rewrite at_return, E. cbn [mbind option_bind].
  rewrite at_recycle by done. rewrite bool_decide_false by done.
  cbn [fst snd]. unfold on_x. cbn. by rewrite app_nil_r.
Qed.

(** *** Going in and coming back *)

Fixpoint stack (v : Z) (k : nat) : list Frame :=
  match k with O => [] | S k => mkFrame (v + Z.of_nat (S k)) true false :: stack v k end.

Lemma stack_shift v k fs :
  stack (v + 1) k ++ mkFrame (v + 1) true false :: fs = stack v (S k) ++ fs.
Proof.
  induction k as [|k IH]; [done|]. cbn [stack app]. rewrite IH.
  by replace (v + 1 + Z.of_nat (S k)) with (v + Z.of_nat (S (S k))) by lia.
Qed.

Definition fresh_chain (ch : option (list Fn)) : Prop := default [] ch = [].

(** What a handler leaves in the chain is what will be called. *)
Lemma hdo_all acts c :
  fresh_chain (chain c) →
  ∃ ch, foldl hdo c acts = set_chain ch c ∧ default [] ch = fires acts.
Proof.
  intros Hc. induction acts as [|a acts IH] using rev_ind.
  { exists (chain c). split; [by destruct c|done]. }
  destruct IH as (ch & E & Hf). rewrite foldl_app. cbn [foldl]. rewrite E.
  unfold fires, kept in *. rewrite foldl_app. cbn [foldl].
  destruct a as [fn bottom|]; cbn [hdo].
  - eexists. split; [done|]. cbn. change (default Chain.NewChain ch) with (default [] ch).
    rewrite Hf. unfold tops, bottoms. rewrite !filter_app.
    destruct bottom; cbn.
    + rewrite app_nil_r, fmap_app. cbn. unfold Chain.AddToTail. by rewrite app_assoc.
    + rewrite app_nil_r, fmap_app, rev_app_distr. done.
  - exists (Chain.Cancel <$> ch). split; [by destruct ch|by destruct ch].
Qed.

Lemma hdo_shape acts c : ∃ ch, foldl hdo c acts = set_chain ch c.
Proof.
  induction acts as [|a acts IH] using rev_ind; [exists (chain c); by destruct c|].
  destruct IH as (ch & E). rewrite foldl_app, E. destruct a as [fn bottom|]; cbn.
  - by eexists.
  - unfold Cancel. destruct ch as [k|]; by eexists.
Qed.

Lemma version_hdo acts c : version (foldl hdo c acts) = version c.
Proof. by destruct (hdo_shape acts c) as (ch & ->). Qed.

Lemma incr_small v : 0 <= v → v + 1 < 2 ^ 31 → wrapS 32 (v + 1) = v + 1.
Proof. intros. apply wrapS_id; [lia|unfold in_s; lia]. Qed.

Lemma at_middlewares each rest c p ms h f fs l :
  length each = S (length ms) → 0 <= version c → version c + Z.of_nat (length each) < 2 ^ 31 →
  ∃ ch, fresh_chain ch ∧
    run (concat ((λ e, (act_of t <$> e) ++ [NSkip t 0]) <$> each) ++ rest)
      (at_ c p (f :: fs) (Some (ms, h)) l) =
    run rest (at_ (set_version (version c + Z.of_nat (length each)) (set_chain ch c)) p
                (stack (version c) (length each) ++ f :: fs) None (l ++ on_x (ms ++ [h]))).
Proof.
  revert c ms f fs l. induction each as [|e each IH]; intros c ms f fs l Hl H0 Hv; [done|].
  cbn in Hl, Hv. rewrite fmap_cons. cbn [concat]. rewrite <- !app_assoc, at_acts. cbn [app].
  rewrite at_skip, version_hdo, incr_small by lia.
  set (c1 := Cancel _).
  assert (Hc1 : ∃ ch, fresh_chain ch ∧ c1 = set_version (version c + 1) (set_chain ch c)).
  { destruct (hdo_shape e c) as (ch & E). subst c1. rewrite E. exists (Chain.Cancel <$> ch).
    unfold Cancel, incrVersion. cbn. rewrite incr_small by lia. by destruct ch. }
  destruct Hc1 as (ch & Hch & E). destruct ms as [|m ms].
  - destruct each; [|done]. exists ch. split; [done|]. by rewrite E.
  - cbn in Hl. destruct (IH c1 ms (mkFrame (version c + 1) true false) (f :: fs)
                          (l ++ [(m, x)])) as (ch' & Hch' & ->); [lia|rewrite E; cbn; lia..|].
    exists ch'. split; [done|]. rewrite E. cbn [version set_version].
    rewrite stack_shift, <- (app_assoc l). cbn [length].
    by replace (version c + 1 + len each) with (version c + len (e :: each)) by (cbn; lia).
Qed.

Lemma at_unwind fr rest c p f fs mw l :
  kind c = Request → Forall (λ f, f_finishes f = true ∧ f_fired f = false ∧ f_version f ≠ version c) fr →
  run (concat (replicate (length fr) (finish t)) ++ rest) (at_ c p (fr ++ f :: fs) mw l) =
  run rest (at_ c p (f :: fs) mw l).
Proof.
  intros Hk. induction 1 as [|[v b1 b2] fr (E1 & E2 & Hv) _ IH]; [done|].
  cbn in E1, E2, Hv. subst b1 b2. cbn [length replicate concat app]. rewrite <- app_assoc.
  by rewrite at_finish_stale.
Qed.
End one_request.

(** *** The worker's part before the handler *)

Lemma serve_at n i x rest c :
  reqChan n = x :: rest → ctx_of x n = Some c → version c = 0 → threads n !! (0%nat, i) = None →
  let r := router n in
  let id := MessageID (message c) in
  let pre := option_list (preRouteHandler r) in
  ∀ h, handler_for id r = Some h →
  serve i n = Some
    match middlewares_for id r with
    | [] => at_ (set_reqChan rest n) (0%nat, i) x (set_version 1 c) (reqPool (objects (sch n)))
              [mkFrame 1 true false] None (log n ++ on_x x (pre ++ [h]))
    | m :: ms => at_ (set_reqChan rest n) (0%nat, i) x (Cancel (incrVersion (set_version 1 c)))
                   (reqPool (objects (sch n))) [mkFrame 2 true false; mkFrame 1 false false]
                   (Some (ms, h)) (log n ++ on_x x (pre ++ [m]))
    end.
Proof.
  intros Hq Hx Hv Ht r id pre h Hh. unfold serve. rewrite Hq, Ht.
  assert (E : set_reqChan rest (on_objects (update x incrVersion) n) =
              at_ (set_reqChan rest n) (0%nat, i) x (set_version 1 c) (reqPool (objects (sch n)))
                [] None (log n)).
  { unfold at_, set_reqChan, on_objects, set_sch, set_objects, update. cbn.
    rewrite delete_id by done. unfold ctx_of in Hx. rewrite (alter_at _ _ _ _ Hx).
    unfold incrVersion. by rewrite Hv. }
  rewrite E, at_ctx. cbn -[at_ handler_for skip]. rewrite at_called.
  change (router (at_ _ _ _ _ _ _ _ _)) with (router n). subst r id. rewrite Hh. unfold middlewares_for.
  destruct (r_routes (router n) !! MessageID (message c)) as [[eid eh [o1 o2 o3 [|m ms]]]|]; cbn [Middlewares e_options].
  - rewrite at_called, at_start, <- app_assoc. unfold on_x. by rewrite fmap_app.
  - rewrite skip_at. cbn [version set_version]. rewrite incr_small by lia. f_equal.
    unfold on_x. rewrite fmap_app, app_assoc. done.
  - rewrite at_called, at_start, <- app_assoc. unfold on_x. by rewrite fmap_app.
Qed.

Lemma length_stack v k : length (stack v k) = k.
Proof. induction k; cbn; congruence. Qed.

Lemma stack_stale v k w : w <= v → Forall (λ f, f_finishes f = true ∧ f_fired f = false ∧ f_version f ≠ w) (stack v k).
Proof. intros Hw. induction k; constructor; [cbn; split_and!; [done..|lia]|done]. Qed.

Lemma at_end n0 t x c p l : threads n0 !! t = None →
  at_ n0 t x c p [] None l =
  mkNode (set_objects (mkObjects (<[x := c]> (heap (objects (sch n0)))) p
                         (evtPool (objects (sch n0)))) (sch n0))
    (router n0) (reqChan n0) (events n0) (evtChan n0) (threads n0) l.
Proof. intros Ht. unfold at_. by rewrite delete_id. Qed.

(** Back through [S k] middlewares: the innermost call finishes the request, the
    frames below it hold old versions. *)
Lemma come_back n0 t x k c p l :
  kind c = Request → version c = 2 + Z.of_nat (S k) →
  run (concat (replicate (S (S k)) (finish t)) ++ [NReturn t])
    (at_ n0 t x c p (stack 2 (S k) ++ [mkFrame 2 true false; mkFrame 1 false false]) None l) =
  Some (at_ n0 t x (reset (set_version 0 c)) (x :: p) [] None
          (l ++ on_x x (default [] (chain c) ++ option_list (postRouteHandler (router n0))))).
Proof.
  intros Hk Hv. cbn [replicate concat stack app]. rewrite <- app_assoc, at_finish_last by done.
  set (c' := reset (set_version 0 c)). set (fr := stack 2 k ++ [mkFrame 2 true false]).
  change [mkFrame 2 true false; mkFrame 1 false false]
    with ([mkFrame 2 true false] ++ [mkFrame 1 false false]).
  assert (El : finish t ++ concat (replicate k (finish t)) = concat (replicate (length fr) (finish t))).
  { unfold fr. by rewrite length_app, length_stack, Nat.add_comm. }
  assert (Hc' : kind c' = Request ∧ version c' = 0) by (unfold c', reset; cbn; by rewrite Hk).
  destruct Hc' as [Hk' Hv']. rewrite app_assoc, El, at_unwind; [|done|].
  - cbn [run exec]. rewrite at_thread. cbn [mbind option_bind return_ th_frames].
    by rewrite at_leave.
  - rewrite Hv'. apply Forall_app. split; [apply stack_stale; lia|by repeat constructor].
Qed.


(** *** Handing a context over *)

Lemma on_objects_id (f : Objects → Objects) n : f (objects (sch n)) = objects (sch n) → on_objects f n = n.
Proof.
  intros E. unfold on_objects. rewrite E. by destruct n as [[] ? ? ? ? ? ?].
Qed.

Lemma recycle_ctx_stale v x n c : ctx_of x n = Some c → version c ≠ v → recycle_ctx v x n = n.
Proof.
  intros Hc Hv. unfold recycle_ctx. rewrite Hc. unfold compareVersionRecycle.
  unfold ctx_of in Hc. rewrite Hc, bool_decide_false by done. cbn. by apply on_objects_id.
Qed.

Lemma leave_keeps t th n :
  objects (sch (leave t th n)) = objects (sch n) ∧ log (leave t th n) = log n.
Proof.
  unfold leave. destruct (tail _); [|done]. destruct (th_task th); [|done]. cbn. unfold doneWait.
  by repeat case_bool_decide.
Qed.

(** A frame that holds an old version ends without a trace. *)
Lemma former_holder_idle n t th v fs c :
  threads n !! t = Some th → th_frames th = mkFrame v true false :: fs →
  ctx_of (th_ctx th) n = Some c → version c ≠ v →
  ∃ n', run (finish t) n = Some n' ∧ objects (sch n') = objects (sch n) ∧ log n' = log n.
Proof.
  intros Ht Hf Hc Hv.
  set (th' := mkThread (th_ctx th) (mkFrame v true true :: fs) (th_mw th) (th_task th)).
  assert (E1 : exec (NReturn t) n = Some (start t th' n)).
  { cbn [exec]. rewrite Ht. cbn [mbind option_bind]. unfold return_. rewrite Hf, Hc.
    cbn [mbind option_bind]. unfold compareVersionExecDefer.
    assert (Eo : on_objects (update (th_ctx th) (λ _, c)) n = n).
    { apply on_objects_id. unfold ctx_of in Hc. unfold update.
      rewrite (alter_at _ _ _ _ Hc), insert_id by done. by destruct (objects (sch n)). }
    assert (Ec : called [] (th_ctx th) n = n)
      by (unfold called; cbn; rewrite app_nil_r; by destruct n).
    destruct (chain c); [rewrite bool_decide_false by done|]; cbn [fmap list_fmap];
      by rewrite Eo, Ec. }
  cbn [run finish]. rewrite E1. cbn [mbind option_bind exec threads start set_threads].
  rewrite lookup_insert_eq. cbn [mbind option_bind th' th_frames th_ctx].
  rewrite (recycle_ctx_stale _ _ _ c) by done.
  eexists. split; [done|]. exact (leave_keeps t th' (start t th' n)).
Qed.

(** [Task] hands a request or event over: the deferred functions are dropped
    and the version moves on, so that whatever handler called it, and every
    handler around it, returns without calling a deferred function, without the
    post-route handler and without touching the pools, while the goroutine of the
    task holds the current version. *)
Theorem task_takes_over n t th v fs c i fn n1 :
  threads n !! t = Some th → th_frames th = mkFrame v true false :: fs →
  ctx_of (th_ctx th) n = Some c → version c = v → in_s 32 v →
  exec (NTask t i fn) n = Some n1 →
  ∃ c1, ctx_of (th_ctx th) n1 = Some c1 ∧ version c1 = wrapS 32 (v + 1) ∧
    default [] (chain c1) = [] ∧
    threads n1 !! (3%nat, i) =
      Some (mkThread (th_ctx th) [mkFrame (version c1) true false] None true) ∧
    log n1 = log n ++ [(fn, th_ctx th)] ∧
    ∃ n2, run (finish t) n1 = Some n2 ∧ objects (sch n2) = objects (sch n1) ∧ log n2 = log n1.
Proof.
  intros Ht Hf Hc Hv Hin. cbn [exec]. rewrite Ht. cbn [mbind option_bind]. unfold to_task.
  destruct (threads n !! (3%nat, i)) eqn:E3; [done|].
  set (nx := on_objects _ n).
  assert (Hcx : ctx_of (th_ctx th) nx = Some (Cancel (incrVersion c))).
  { unfold ctx_of, nx in *. cbn. by rewrite lookup_alter_eq, Hc. }
  rewrite Hcx. cbn [mbind option_bind]. intros [= <-].
  set (c1 := Cancel (incrVersion c)) in *.
  assert (Hw : version c1 = wrapS 32 (v + 1)) by (unfold c1; rewrite version_Cancel; cbn; by rewrite Hv).
  exists c1. split; [|split; [done|split; [apply chain_Cancel|split]]].
  - unfold ctx_of in *. cbn. rewrite <- Hcx. unfold nx. cbn. unfold addWait. by case_bool_decide.
  - apply lookup_insert_eq.
  - split; [done|]. match goal with |- ∃ _, run _ ?n = _ ∧ _ => set (n1 := n) end.
    apply (former_holder_idle n1 t th v fs c1); [|done| |].
    + subst n1. cbn. rewrite lookup_insert_ne; [done|]. intros <-. congruence.
    + subst n1. unfold ctx_of in *. cbn. rewrite <- Hcx. unfold nx. cbn. unfold addWait.
      by case_bool_decide.
    + rewrite Hw. destruct (decide (v + 1 < 2 ^ 31)).
      * rewrite wrapS_id by (unfold in_s in *; lia). lia.
      * assert (v = 2 ^ 31 - 1) as -> by (unfold in_s in *; lia). done.
Qed.
End node.

(** ** Examples *)

(** A working node: the message 7 goes through the middlewares [ms] to the
    handler 5, between the handlers 1 and 9. *)
Definition routed (ms : list nat) : @Node nat :=
  mkNode (set_node_state Work newScheduler)
    (AddRouteHandler Shut 7 (Some 5%nat) [mkRouteOptions false false false ms]
       (SetPostRouteHandler Shut (Some 9%nat) (SetPreRouteHandler Shut (Some 1%nat) newRouter)))
    [] ∅ [] ∅ [].
Definition hello : delivery :=
  mkDelivery (text "g1") [] [] 3 5 None (mkMessage 1 1 7 (Some [1; 2])).
Definition after (l : list act) (n : @Node nat) : @Node nat := default n (run 0 0 l n).
Definition queued (ms : list nat) : @Node nat := after [NDeliver 0 hello] (routed ms).

Definition hello_object : context nat :=
  fill hello (new_context Request).


Definition serving : @Node nat := after [NServe 0; NDefer (0%nat, 0%nat) 30%nat false] (queued []).

Lemma task_takes_over_witness :
  ∃ n1, exec 0 0 (NTask (0%nat, 0%nat) 0 60%nat) serving = Some n1 ∧
    log n1 = [(1, 0); (5, 0); (60, 0)]%nat ∧
    ∃ n2, run 0 0 (finish (0%nat, 0%nat)) n1 = Some n2 ∧ log n2 = [(1, 0); (5, 0); (60, 0)]%nat.
Proof.
  destruct (exec 0 0 (NTask (0%nat, 0%nat) 0 60%nat) serving) as [n1|] eqn:E.
  - exists n1. split; [done|].
    edestruct (task_takes_over 0 0 serving (0%nat, 0%nat)) as (c1 & _ & _ & _ & _ & El & n2 & Hn2 & _ & El2);
      [by vm_compute|by vm_compute|by vm_compute|done|by vm_compute|exact E|].
    rewrite El in *. split; [by vm_compute|]. exists n2. split; [done|]. rewrite El2. by vm_compute.
  - exfalso. revert E. by vm_compute.
Defined.

(** A middleware that still runs after its [Next] has returned holds an object
    that is back in the pool.  When the next request reuses it and reaches the
    version of the middleware, that middleware's return calls what the second
    request deferred (40) before its handler and puts the object into the pool under
    it; later the object is in the pool twice and two requests share it. *)
Definition late_middleware : list (@act nat) :=
  [NServe 0; NSkip (0, 0)%nat 0; NReturn (0, 0)%nat; NRecycle (0, 0)%nat;
   NDeliver 0 hello; NServe 1; NDefer (0, 1)%nat 40%nat false;
   NReturn (0, 0)%nat; NRecycle (0, 0)%nat;
   NSkip (0, 1)%nat 0; NReturn (0, 1)%nat; NRecycle (0, 1)%nat].

Lemma late_middleware_breaks :
  let n := after late_middleware (queued [2%nat]) in
  (log n).*1 = [1; 2; 5; 9; 1; 2; 40; 9; 5; 9]%nat ∧
  reqPool (objects (sch n)) = [0; 0]%nat ∧
  reqChan (after [NDeliver 0 hello; NDeliver 0 hello] n) = [0; 0]%nat.
Proof. vm_compute. by repeat split. Qed.

(** An event goes to two actors: the first recycles it before the second takes it
    from its mailbox, and the second recycles it again. *)
Definition two_actors : @Node nat :=
  AddEventHandler 1 70%nat
    (mkNode (spawned (table "2") [] [] (spawned (table "1") [] [] newScheduler)) newRouter [] ∅ [] ∅ []).
Definition event_twice : list (@act nat) :=
  [NTrigger 0 1 (text "g1") 3 5; NServeEvent 0; NNext (1, 0)%nat [0; 1]%nat;
   NActor 0].

Lemma event_recycled_twice :
  let n := after event_twice two_actors in
  evtPool (objects (sch n)) = [0]%nat ∧
  evtPool (objects (sch (after [NActor 1] n))) = [0; 0]%nat ∧
  evtChan (after [NActor 1; NTrigger 0 1 (text "g1") 3 5; NTrigger 0 1 (text "g2") 4 6] n) = [0; 0]%nat.
Proof. vm_compute. by repeat split. Qed.
