(* ===== verification/NodeLink.v ===== *)
(** * internal/link: locating users at nodes and routing messages to them

    node.go.  A linker remembers which node of each group a user is bound to,
    asks the locator when it does not know, and delivers messages, triggers and
    state changes through clients of the nodes' RPC servers.  The locator, the
    clients and the codec are parameters. *)
From stdpp Require Import gmap fin_maps.
From S2P Require Import Prelude Buffer Nocopy Packet Registry Dispatcher.
#[local] Close Scope nat_scope.
Open Scope Z_scope.

(** ** What a linker uses *)

Abbreviation metadata_t := (option (gmap (list Z) (list Z))).

(** locate.NodeBinding; a clone of a map is the same value here. *)
Record NodeBinding := mkBinding { NID : list Z; Metadata : metadata_t }.
Definition no_binding : NodeBinding := mkBinding [] None.

(** locate.Locator, a service. *)
Class NodeLocator := {
  LState : Type;
  loc_BindNode : Z → list Z → NodeBinding → LState → LState * option error;
  loc_UnbindNode : Z → list Z → list Z → LState → LState * option error;
  loc_LocateNodeBinding : Z → list Z → LState → LState * outcome NodeBinding;
}.

(** The clients by address: [Build] may dial. *)
Class NodeNet := {
  Net : Type;
  net_Build : list Z → Net → Net * option error;
  net_Deliver : list Z → Z → Z → metadata_t → Tree.NocopyBuffer → Net → Net * option error;
  net_Trigger : list Z → Z → Z → Z → Net → Net * option error;
  net_GetState : list Z → Net → Net * outcome Z;
  net_SetState : list Z → Z → Net → Net * option error;
}.

(** encoding.Codec and crypto.Encryptor on values of the application. *)
Class Codec := {
  Payload : Type;
  Marshal : Payload → outcome (list Z);
  Encrypt : option (list Z → outcome (list Z));
}.

(** A message's data: nil, bytes, or a value to marshal. *)
Inductive any_data {CC : Codec} := DNil | DBytes (b : list Z) | DValue (v : Payload).

Section nodelink.
Context {LL : NodeLocator} {NN : NodeNet} {CC : Codec} {UU : Url} {WA : WriterAlloc}.
(** The options: the linker's own instance, the random numbers of the
    dispatcher, the lane of a user, the packer's options. *)
Context (insID : list Z) (IntN : Z → Z) (resolveServiceStatus : Z → ServiceStatus)
  (packing : Packet.options).

(** [waits] counts the calls of [WaitHandler] less those of [DoneHandler];
    [released] those of [Release] on buffers that are not sent. *)
Record Linker := mkLinker {
  sources : gmap Z (gmap (list Z) NodeBinding);
  disp : Dispatcher;
  locator : option LState;
  net : Net;
  waits : Z;
  released : nat;
}.

Definition set_sources x (l : Linker) : Linker :=
  mkLinker x (disp l) (locator l) (net l) (waits l) (released l).
Definition set_disp x (l : Linker) : Linker :=
  mkLinker (sources l) x (locator l) (net l) (waits l) (released l).
Definition set_locator x (l : Linker) : Linker :=
  mkLinker (sources l) (disp l) x (net l) (waits l) (released l).
Definition set_net x (l : Linker) : Linker :=
  mkLinker (sources l) (disp l) (locator l) x (waits l) (released l).
Definition add_waits n (l : Linker) : Linker :=
  mkLinker (sources l) (disp l) (locator l) (net l) (waits l + n) (released l).
Definition release : Op Linker unit := λ l,
  (mkLinker (sources l) (disp l) (locator l) (net l) (waits l) (S (released l)), Ok ()).

Definition NewNodeLinker (d : Dispatch) (loc : option LState) (n : Net) : Linker :=
  mkLinker ∅ (NewDispatcher d) loc n 0 0.

(** Calls of the locator and of clients. *)
Definition with_locator {A} (f : LState → LState * outcome A) : Op Linker A := λ l,
  match locator l with
  | None => (l, Err ErrNotFoundLocator)
  | Some s => let '(s, r) := f s in (set_locator (Some s) l, r)
  end.
Definition err_op {S} (f : S → S * option error) (s : S) : S * outcome unit :=
  let '(s, e) := f s in (s, to_outcome e).
Definition on_net {A} (f : Net → Net * outcome A) : Op Linker A := λ l,
  let '(n, r) := f (net l) in (set_net n l, r).

(** ** The bindings a linker remembers *)

Definition doLoadSource (uid : Z) (name : list Z) (l : Linker) : option NodeBinding :=
  sources l !! uid ≫= λ m, m !! name.

(** The three answers of the locked part: to wait, to be done, neither. *)
Definition doStoreSource (uid : Z) (name : list Z) (binding : NodeBinding) (l : Linker) : Linker :=
  match sources l !! uid with
  | Some m =>
      let l' := set_sources (<[uid := <[name := binding]> m]> (sources l)) l in
      match m !! name with
      | Some oldBinding =>
          if bool_decide (NID oldBinding = NID binding) then l'
          else if bool_decide (insID = NID oldBinding) then add_waits (-1) l'
          else if bool_decide (insID = NID binding) then add_waits 1 l'
          else l'
      | None => if bool_decide (insID = NID binding) then add_waits 1 l' else l'
      end
  | None =>
      let l' := set_sources (<[uid := {[name := binding]}]> (sources l)) l in
      if bool_decide (insID = NID binding) then add_waits 1 l' else l'
  end.

Definition doDeleteSource (uid : Z) (name nid : list Z) (l : Linker) : Linker :=
  match sources l !! uid with
  | None => l
  | Some m =>
      match m !! name with
      | None => l
      | Some oldBinding =>
          if bool_decide (NID oldBinding ≠ nid) then l else
          let l' := if bool_decide (size m = 1%nat)
                    then set_sources (delete uid (sources l)) l
                    else set_sources (<[uid := delete name m]> (sources l)) l in
          if bool_decide (NID oldBinding = insID) then add_waits (-1) l' else l'
      end
  end.

Definition HasNode (nid : list Z) (l : Linker) : bool :=
  match Dispatcher_FindEndpoint nid (disp l) with Ok _ => true | _ => false end.

(** The lookup [AskNode] and [LocateNodeBinding] share. *)
Definition locate (uid : Z) (name : list Z) : Op Linker NodeBinding := λ l,
  match locator l with
  | None => (l, Err ErrNotFoundLocator)
  | Some _ =>
      match doLoadSource uid name l with
      | Some binding => (l, Ok binding)
      | None =>
          let '(l, r) := with_locator (loc_LocateNodeBinding uid name) l in
          match r with
          | Ok binding =>
              if bool_decide (NID binding = []) then (l, Err ErrNotFoundUserLocation)
              else (doStoreSource uid name binding l, Ok binding)
          | Err e => (l, Err e)
          | Panic => (l, Panic)
          end
      end
  end.

Definition AskNode (uid : Z) (name nid : list Z) : Op Linker (list Z * bool) :=
  binding ← locate uid name; mret (NID binding, bool_decide (NID binding = nid)).

Definition LocateNodeBinding (uid : Z) (name : list Z) : Op Linker NodeBinding := locate uid name.

Definition LocateNode (uid : Z) (name : list Z) : Op Linker (list Z) :=
  binding ← LocateNodeBinding uid name; mret (NID binding).

Definition pure_op (f : Linker → Linker) : Op Linker unit := λ l, (f l, Ok ()).

Definition BindNode (uid : Z) (name : list Z) (binding : NodeBinding) : Op Linker unit :=
  _ ← with_locator (err_op (loc_BindNode uid name binding));
  pure_op (doStoreSource uid name binding).

Definition UnbindNode (uid : Z) (name nid : list Z) : Op Linker unit :=
  _ ← with_locator (err_op (loc_UnbindNode uid name nid));
  pure_op (doDeleteSource uid name nid).

(** The dispatcher inside the linker. *)
Definition on_disp {A} (f : Dispatcher → Dispatcher * outcome A) : Op Linker A := λ l,
  let '(d, r) := f (disp l) in (set_disp d l, r).

(** [BindGameNode]: a user keeps its node while that node is registered. *)
Definition BindGameNode (uid gameID : Z) : Op Linker unit :=
  route ← (λ l, (l, FindGameRoute gameID (disp l)));
  let name := group route in
  r ← try (LocateNode uid name);
  known ← (λ l, (l, Ok match r with Ok nid => HasNode nid l | _ => false end));
  if known : bool then mret () else
  match r with
  | Err e => if bool_decide (e ≠ ErrNotFoundUserLocation) then lift (Err e) else
      '(_, nid) ← on_disp (SelectGameNode IntN gameID (resolveServiceStatus uid));
      BindNode uid name (mkBinding nid None)
  | _ => '(_, nid) ← on_disp (SelectGameNode IntN gameID (resolveServiceStatus uid));
         BindNode uid name (mkBinding nid None)
  end.

(** ** Calls of nodes *)

Definition doBuildClient (nid : list Z) : Op Linker (list Z) :=
  if bool_decide (nid = []) then lift (Err ErrInvalidNID) else
  ep ← (λ l, (l, Dispatcher_FindEndpoint nid (disp l)));
  _ ← on_net (err_op (net_Build (Address ep)));
  mret (Address ep).

(** [route.FindEndpointForServiceStatus]: the route is the dispatcher's, by
    pointer. *)
Definition find_endpoint (game : Z) (route : GameRoute) (uid : Z) (nid : list Z)
    : Op Linker Endpoint := λ l,
  let '(route', r) := FindEndpointForServiceStatus (dispatch (disp l)) IntN
                        (resolveServiceStatus uid) [nid]
                        (default route (routes (disp l) !! game)) in
  (set_disp (set_routes (<[game := route']> (routes (disp l))) (disp l)) l, r).

(** What a callback returns: whether to go on, the reply, the error. *)
Definition Reply (A : Type) : Type := bool * option A * option error.

(** One turn of [doRPC] once the node is known; [next] is the rest of the loop. *)
Definition rpc_turn {A} (route : GameRoute) (gameID uid : Z)
    (fn : list Z → metadata_t → Op Linker (Reply A)) (prev nid : list Z) (metadata : metadata_t)
    (next : list Z → option A → option error → Op Linker (option A * option error))
    : Op Linker (option A * option error) :=
  built ← try (ep ← find_endpoint gameID route uid nid;
               _ ← on_net (err_op (net_Build (Address ep))); mret ep);
  match built with
  | Ok ep =>
      '(continued, reply, err) ← fn (Address ep) metadata;
      if continued : bool then
        _ ← (if bool_decide (uid ≠ 0 ∧ prev ≠ []) then pure_op (doDeleteSource uid (group route) prev)
             else mret ());
        next nid reply err
      else mret (reply, err)
  | Err e => mret (None, Some e)
  | Panic => lift Panic
  end.

(** The loop: at most [fuel] turns.  [prev] is the node of the turn before; the
    reply and the error of the last turn are returned when the turns run out. *)
Fixpoint rpc_loop {A} (fuel : nat) (route : GameRoute) (gameID uid : Z)
    (fn : list Z → metadata_t → Op Linker (Reply A)) (prev : list Z)
    (reply : option A) (err : option error) : Op Linker (option A * option error) :=
  match fuel with
  | O => mret (reply, err)
  | S fuel =>
      located ← (if bool_decide (uid = 0) then mret None else
                 b ← try (LocateNodeBinding uid (group route)); mret (Some b));
      let turn nid metadata :=
        rpc_turn route gameID uid fn prev nid metadata (rpc_loop fuel route gameID uid fn) in
      match located with
      | Some (Err e) =>
          if bool_decide (e ≠ ErrNotFoundUserLocation) then mret (None, Some e) else turn [] None
      | Some (Ok binding) =>
          if bool_decide (NID binding = prev) then mret (reply, None)
          else turn (NID binding) (Metadata binding)
      | _ => turn [] None
      end
  end.

Definition doRPC {A} (gameID uid : Z) (fn : list Z → metadata_t → Op Linker (Reply A))
    : Op Linker (option A * option error) := λ l,
  match FindGameRoute gameID (disp l) with
  | Ok route => rpc_loop 2 route gameID uid fn [] None None l
  | Err e => (l, Ok (None, Some e))
  | Panic => (l, Panic)
  end.

(** [PackBuffer] and [PackMessage] *)
Definition pack_data (message : any_data) (encrypt : bool) : outcome (list Z) :=
  match message with
  | DNil => Ok []
  | DBytes b => Ok b
  | DValue v =>
      data ← Marshal v;
      match Encrypt with
      | Some f => if encrypt then f data else Ok data
      | None => Ok data
      end
  end.

Record link_Message := mkLinkMessage {
  m_Seq : Z; m_GameID : Z; m_MessageID : Z; m_Data : any_data }.

Definition PackMessage (m : link_Message) (encrypt : bool) : outcome Tree.NocopyBuffer :=
  data ← pack_data (m_Data m) encrypt;
  Packet.PackBuffer packing (Packet.mkMessage (m_Seq m) (m_GameID m) (m_MessageID m) data).

(** [DeliverArgs]; the buffer is bytes, a buffer, a message or anything else. *)
Inductive deliver_buffer :=
  | BufBytes (b : list Z)
  | BufBuffer (b : Tree.NocopyBuffer)
  | BufMessage (m : link_Message)
  | BufOther.

Record DeliverArgs := mkDeliver {
  da_NID : list Z;
  da_CID : Z;
  da_UID : Z;
  da_Metadata : metadata_t;
  da_GameID : Z;
  da_MessageID : Z;
  da_Buffer : deliver_buffer;
}.

(** The buffer of [Deliver].  When packing fails, [buf] holds a nil
    [*NocopyBuffer], and [buf.Release()] dereferences it. *)
Definition deliver_buf (b : deliver_buffer) : outcome Tree.NocopyBuffer :=
  match b with
  | BufBytes b => Ok (Tree.NewNocopyBuffer [inl (BRaw b)])
  | BufBuffer b => Ok b
  | BufMessage m => match PackMessage m false with Ok buf => Ok buf | _ => Panic end
  | BufOther => Err ErrInvalidMessage
  end.

(** The callback of [Deliver]: it always stops.  Its reply, nil in the code, is
    [Some ()] here, which is how [Deliver] knows below that it was reached
    ([isDeliver]). *)
Definition deliver_fn (a : DeliverArgs) (buf : Tree.NocopyBuffer) (addr : list Z)
    (metadata : metadata_t) : Op Linker (Reply unit) :=
  r ← try (on_net (err_op (net_Deliver addr (da_CID a) (da_UID a) metadata buf)));
  mret (false, Some (), err_of r).

Definition Deliver (a : DeliverArgs) : Op Linker unit :=
  buf ← lift (deliver_buf (da_Buffer a));
  if bool_decide (da_NID a ≠ []) then
    r ← try (doBuildClient (da_NID a));
    match r with
    | Ok addr => on_net (err_op (net_Deliver addr (da_CID a) (da_UID a) (da_Metadata a) buf))
    | Err e => _ ← release; lift (Err e)
    | Panic => lift Panic
    end
  else
    '(reached, err) ← doRPC (da_GameID a) (da_UID a) (deliver_fn a buf);
    match err with
    | None => mret ()
    | Some e =>
        _ ← (if bool_decide (reached = Some ()) then mret () else release);
        if bool_decide (e = ErrNotFoundUserLocation) then mret () else lift (Err e)
    end.

Definition GetState (nid : list Z) : Op Linker Z :=
  addr ← doBuildClient nid; on_net (net_GetState addr).
Definition SetState (nid : list Z) (state : Z) : Op Linker unit :=
  addr ← doBuildClient nid; on_net (err_op (net_SetState addr state)).

(** One goroutine per endpoint; [Wait] returns the first error in time, here in
    the order of the visit. *)
Fixpoint trigger_each (addrs : list (list Z)) (event cid uid : Z) (first : option error)
    : Op Linker (option error) := λ l,
  match addrs with
  | [] => (l, Ok first)
  | addr :: addrs =>
      match try (_ ← on_net (err_op (net_Build addr));
                 on_net (err_op (net_Trigger addr event cid uid))) l with
      | (l, Ok r) => trigger_each addrs event cid uid
                       (match first with None => err_of r | Some e => Some e end) l
      | (l, _) => (l, Panic)
      end
  end.

Definition Trigger (evt cid uid : Z) : Op Linker unit := λ l,
  match FindEvent evt (disp l) with
  | Err e => (l, Err e)
  | Panic => (l, Panic)
  | Ok e =>
      let addrs := Event_VisitEndpoints (λ _ ep addrs, (addrs ++ [Address ep], true)) e [] in
      let '(l, r) := trigger_each addrs evt cid uid None l in
      (l, err ← r; to_outcome err)
  end.

(** ** Watchers *)

(** locate.Event *)
Inductive locate_event :=
  | EvBindNode (uid : Z) (name nid : list Z) (metadata : metadata_t)
  | EvUnbindNode (uid : Z) (name nid : list Z)
  | EvOther.

Definition WatchUserLocate (e : locate_event) (l : Linker) : Linker :=
  match e with
  | EvBindNode uid name nid metadata => doStoreSource uid name (mkBinding nid metadata) l
  | EvUnbindNode uid name nid => doDeleteSource uid name nid l
  | EvOther => l
  end.

Definition WatchClusterInstance (services : list (option ServiceInstance)) : Op Linker unit :=
  on_disp (ReplaceServices services).

(** ** What every reachable linker satisfies *)

(** All bindings, and those to the linker's own instance. *)
Definition flat (l : Linker) : gmap (Z * list Z) NodeBinding :=
  map_uncurry (M1 := gmap Z) (M2 := gmap (list Z)) (M12 := gmap (Z * list Z)) (sources l).
Definition own (l : Linker) : gmap (Z * list Z) NodeBinding :=
  filter (λ kv, NID kv.2 = insID) (flat l).

Record wf (l : Linker) : Prop := {
  wf_waits : waits l = Z.of_nat (size (own l));
  wf_inner uid m : sources l !! uid = Some m → m ≠ ∅;
}.

Lemma flat_lookup l uid name : flat l !! (uid, name) = doLoadSource uid name l.
Proof. apply lookup_map_uncurry. Qed.

Abbreviation bindings := (gmap (Z * list Z) NodeBinding).

Lemma own_size_insert (k : Z * list Z) (b : NodeBinding) (m : bindings) :
  Z.of_nat (size (filter (λ kv, NID kv.2 = insID) (<[k := b]> m) : bindings)) =
  Z.of_nat (size (filter (λ kv, NID kv.2 = insID) m : bindings))
  + (if decide (NID b = insID) then 1 else 0)
  - (match m !! k with Some b' => if decide (NID b' = insID) then 1 else 0 | None => 0 end).
Proof.
  rewrite map_filter_insert. destruct (decide (NID (k, b).2 = insID)) as [E|E]; cbn in E.
  - rewrite map_size_insert, map_lookup_filter. rewrite decide_True by done.
    destruct (m !! k) as [b'|] eqn:Eb; cbn; [|lia].
    case_guard as Hg; cbn in *; lia.
  - rewrite (decide_False (P := NID b = insID)) by done.
    rewrite map_filter_delete, map_size_delete, map_lookup_filter.
    destruct (m !! k) as [b'|] eqn:Eb; cbn; [|lia].
    case_guard as Hg; cbn in *; [|lia].
    assert (size (filter (λ kv, NID kv.2 = insID) m : bindings) ≠ 0%nat); [|lia].
    rewrite map_size_ne_0_lookup. exists k, b'. by apply map_lookup_filter_Some_2.
Qed.

Lemma doStoreSource_flat uid name b l :
  flat (doStoreSource uid name b l) = <[(uid, name) := b]> (flat l).
Proof.
  apply map_eq. intros [uid' name']. rewrite flat_lookup.
  assert (doLoadSource uid' name' (doStoreSource uid name b l) =
    (<[uid := <[name := b]> (default ∅ (sources l !! uid))]> (sources l)) !! uid'
      ≫= λ m, m !! name') as ->.
  { unfold doStoreSource, doLoadSource. destruct (sources l !! uid) as [m|] eqn:E; cbn [default].
    - destruct (m !! name); [repeat case_bool_decide|case_bool_decide]; done.
    - case_bool_decide; done. }
  destruct (decide (uid' = uid)) as [->|Hu].
  - rewrite lookup_insert_eq. cbn. destruct (decide (name' = name)) as [->|Hn].
    + by rewrite !lookup_insert_eq.
    + rewrite !lookup_insert_ne by congruence. rewrite flat_lookup. unfold doLoadSource.
      by destruct (sources l !! uid).
  - rewrite !lookup_insert_ne by congruence. by rewrite flat_lookup.
Qed.

(** What [doDeleteSource] does when it does something. *)
Lemma doDeleteSource_hit uid name l m b :
  sources l !! uid = Some m → m !! name = Some b →
  ∃ l', doDeleteSource uid name (NID b) l =
          (if bool_decide (NID b = insID) then add_waits (-1) l' else l') ∧
        waits l' = waits l ∧ flat l' = delete (uid, name) (flat l) ∧
        (∀ u m', sources l' !! u = Some m' → m' ≠ ∅ ∨ u ≠ uid ∧ sources l !! u = Some m').
Proof.
  intros Em Eb. unfold doDeleteSource. rewrite Em, Eb, bool_decide_eq_false_2 by auto.
  eexists. split; [done|]. split; [by case_bool_decide|]. split.
  - apply map_eq. intros [u n]. rewrite flat_lookup. unfold doLoadSource.
    assert (sources (if bool_decide (size m = 1%nat) then set_sources (delete uid (sources l)) l
       else set_sources (<[uid := delete name m]> (sources l)) l) !! u ≫= (λ m0, m0 !! n) =
       if decide (u = uid) then delete name m !! n else doLoadSource u n l) as ->.
    { case_bool_decide as Hs; cbn; destruct (decide (u = uid)) as [->|Hu].
      - rewrite lookup_delete_eq. cbn. replace (delete name m) with (∅ : gmap (list Z) NodeBinding);
          [by rewrite lookup_empty|].
        symmetry. apply map_size_empty_iff. rewrite map_size_delete_Some, Hs by (by eexists). done.
      - by rewrite lookup_delete_ne.
      - by rewrite lookup_insert_eq.
      - by rewrite lookup_insert_ne. }
    destruct (decide (u = uid)) as [->|Hu].
    + destruct (decide (n = name)) as [->|Hn]; [by rewrite !lookup_delete_eq|].
      rewrite !lookup_delete_ne by congruence. rewrite flat_lookup. unfold doLoadSource. by rewrite Em.
    + rewrite lookup_delete_ne by congruence. by rewrite flat_lookup.
  - intros u m'. case_bool_decide as Hs; cbn.
    + intros [Hu Hm]%lookup_delete_Some. right. auto.
    + intros [[<- <-]|[Hu Hm]]%lookup_insert_Some; [left|right; auto].
      intros E. apply (f_equal size) in E. rewrite map_size_delete_Some, map_size_empty in E by (by eexists).
      assert (size m ≠ 0%nat) by (rewrite map_size_ne_0_lookup; eauto). lia.
Qed.

Lemma doDeleteSource_miss uid name nid l :
  (∀ b, doLoadSource uid name l = Some b → NID b ≠ nid) → doDeleteSource uid name nid l = l.
Proof.
  intros H. unfold doDeleteSource, doLoadSource in *. destruct (sources l !! uid) as [m|]; [|done].
  cbn in H. destruct (m !! name) as [b|]; [|done]. by rewrite bool_decide_eq_true_2 by auto.
Qed.

Lemma wf_doStoreSource uid name b l : wf l → wf (doStoreSource uid name b l).
Proof.
  intros [Hw Hi]. split.
  - unfold own. rewrite doStoreSource_flat, own_size_insert. fold (own l). rewrite <- Hw, flat_lookup.
    unfold doStoreSource, doLoadSource. destruct (sources l !! uid) as [m|]; cbn.
    + destruct (m !! name) as [o|]; [case_bool_decide as E1; [|case_bool_decide as E2;
        [|case_bool_decide as E3]]|case_bool_decide as E3]; cbn;
        repeat case_decide; try lia; congruence.
    + case_bool_decide as E3; cbn; repeat case_decide; try lia; congruence.
  - intros u m Hm. assert (sources (doStoreSource uid name b l) =
      <[uid := <[name := b]> (default ∅ (sources l !! uid))]> (sources l)) as E.
    { unfold doStoreSource. destruct (sources l !! uid) as [m0|]; cbn.
      - destruct (m0 !! name); [repeat case_bool_decide|case_bool_decide]; done.
      - case_bool_decide; done. }
    rewrite E in Hm. apply lookup_insert_Some in Hm as [[<- <-]|[_ Hm]]; [|by eapply Hi].
    apply insert_non_empty.
Qed.

Lemma wf_doDeleteSource uid name nid l : wf l → wf (doDeleteSource uid name nid l).
Proof.
  intros [Hw Hi]. destruct (doLoadSource uid name l) as [b|] eqn:Eb.
  2:{ rewrite doDeleteSource_miss; [done|]. by rewrite Eb. }
  destruct (decide (NID b = nid)) as [<-|Hn].
  2:{ rewrite doDeleteSource_miss; [done|]. rewrite Eb. by intros ? [= <-]. }
  apply bind_Some in Eb as (m & Em & Eb).
  destruct (doDeleteSource_hit uid name l m b Em Eb) as (l' & -> & Hw' & Hf & Hs).
  assert (Hown : Z.of_nat (size (own l')) =
    Z.of_nat (size (own l)) - if decide (NID b = insID) then 1 else 0).
  { unfold own. rewrite Hf. pose proof (own_size_insert (uid, name) b (delete (uid, name) (flat l))) as E.
    rewrite insert_delete_eq, lookup_delete_eq in E.
    rewrite insert_id in E by (rewrite flat_lookup; unfold doLoadSource; by rewrite Em).
    lia. }
  assert (Hi' : ∀ u m', sources l' !! u = Some m' → m' ≠ ∅).
  { intros u m' Hm'. destruct (Hs u m' Hm') as [|[_ ?]]; [done|by eapply Hi]. }
  case_bool_decide as E.
  - rewrite decide_True in Hown by done. split; [|exact Hi']. cbn. change (own (add_waits (-1) l')) with (own l'). lia.
  - rewrite decide_False in Hown by done. split; [|exact Hi']. lia.
Qed.

(** *** Operations preserve it *)

Definition preserves {A} (m : Op Linker A) : Prop := ∀ l, wf l → wf (m l).1.

Lemma wf_sources l l' : sources l' = sources l → waits l' = waits l → wf l → wf l'.
Proof.
  intros E1 E2 [Hw Hi]. split; [|by rewrite E1].
  rewrite E2, Hw. unfold own, flat. by rewrite E1.
Qed.

Lemma preserves_lift {A} (m : outcome A) : preserves (lift m).
Proof. by intros l. Qed.
Lemma preserves_ret {A} (a : A) : preserves (mret a).
Proof. by intros l. Qed.
Lemma preserves_read {A} (f : Linker → outcome A) : preserves (λ l, (l, f l)).
Proof. by intros l. Qed.
Lemma preserves_bind {A B} (m : Op Linker A) (f : A → Op Linker B) :
  preserves m → (∀ a, preserves (f a)) → preserves (m ≫= f).
Proof.
  intros Hm Hf l Hl. specialize (Hm l Hl). unfold mbind, Op_bind.
  destruct (m l) as [l' [a|e|]]; cbn in *; [by apply Hf|done|done].
Qed.
Lemma preserves_try {A} (m : Op Linker A) : preserves m → preserves (try m).
Proof. intros Hm l Hl. specialize (Hm l Hl). unfold try. by destruct (m l) as [l' [a|e|]]. Qed.
Lemma preserves_if {A} (b : bool) (m m' : Op Linker A) :
  preserves m → preserves m' → preserves (if b then m else m').
Proof. by destruct b. Qed.
Lemma preserves_on_net {A} (f : Net → Net * outcome A) : preserves (on_net f).
Proof. intros l Hl. unfold on_net. destruct (f (net l)) as [n r]. by apply (wf_sources l). Qed.
Lemma preserves_on_disp {A} (f : Dispatcher → Dispatcher * outcome A) : preserves (on_disp f).
Proof. intros l Hl. unfold on_disp. destruct (f (disp l)) as [n r]. by apply (wf_sources l). Qed.
Lemma preserves_release : preserves release.
Proof. intros l Hl. by apply (wf_sources l). Qed.
Lemma preserves_find game route uid nid : preserves (find_endpoint game route uid nid).
Proof.
  intros l Hl. unfold find_endpoint.
  destruct (FindEndpointForServiceStatus _ _ _ _ _) as [r' r]. by apply (wf_sources l).
Qed.
Lemma preserves_with_locator {A} (f : LState → LState * outcome A) : preserves (with_locator f).
Proof.
  intros l Hl. unfold with_locator. destruct (locator l) as [s|]; [|done].
  destruct (f s) as [s' r]. by apply (wf_sources l).
Qed.
Lemma preserves_store uid name b : preserves (pure_op (doStoreSource uid name b)).
Proof. intros l Hl. by apply wf_doStoreSource. Qed.
Lemma preserves_delete uid name nid : preserves (pure_op (doDeleteSource uid name nid)).
Proof. intros l Hl. by apply wf_doDeleteSource. Qed.

Lemma preserves_locate uid name : preserves (locate uid name).
Proof.
  intros l Hl. unfold locate. destruct (locator l) as [s|] eqn:Es; [|done].
  destruct (doLoadSource uid name l); [done|].
  pose proof (preserves_with_locator (loc_LocateNodeBinding uid name) l Hl) as Hw.
  destruct (with_locator _ l) as [l' [b|e|]]; try done. case_bool_decide; [done|].
  by apply wf_doStoreSource.
Qed.

Create HintDb linker.
#[local] Hint Resolve preserves_lift preserves_ret preserves_read preserves_try
  preserves_on_net preserves_on_disp preserves_release preserves_find preserves_with_locator
  preserves_store preserves_delete preserves_locate preserves_if preserves_bind : linker.

(** Binds, tries, tests and the primitive operations. *)
Ltac preserve :=
  repeat first
    [ apply preserves_bind; [|intros ?] | apply preserves_if | apply preserves_try
    | solve [auto with linker] | case_match ].

Lemma preserves_rpc_turn {A} route gameID uid fn prev nid md
    (next : list Z → option A → option error → Op Linker (option A * option error)) :
  (∀ addr m, preserves (fn addr m)) → (∀ p r e, preserves (next p r e)) →
  preserves (rpc_turn route gameID uid fn prev nid md next).
Proof. intros Hf Hn. unfold rpc_turn. preserve; apply Hf || apply Hn. Qed.

Lemma preserves_rpc_loop {A} fuel route gameID uid fn prev (reply : option A) err :
  (∀ addr m, preserves (fn addr m)) → preserves (rpc_loop fuel route gameID uid fn prev reply err).
Proof.
  intros Hf. revert prev reply err. induction fuel as [|fuel IH]; intros; cbn [rpc_loop]; [preserve|].
  apply preserves_bind; [unfold LocateNodeBinding; preserve|]. intros [[b|e|]|]; cbn zeta;
    preserve; by apply preserves_rpc_turn.
Qed.

Lemma preserves_Deliver a : preserves (Deliver a).
Proof.
  unfold Deliver, doBuildClient. preserve. intros l Hl. unfold doRPC.
  destruct (FindGameRoute _ _); [|done..]. apply preserves_rpc_loop; [|done].
  intros. unfold deliver_fn. preserve.
Qed.

Inductive op :=
  | OpAskNode (uid : Z) (name nid : list Z)
  | OpLocateNode (uid : Z) (name : list Z)
  | OpBindNode (uid : Z) (name : list Z) (b : NodeBinding)
  | OpBindGameNode (uid gameID : Z)
  | OpUnbindNode (uid : Z) (name nid : list Z)
  | OpDeliver (a : DeliverArgs)
  | OpTrigger (evt cid uid : Z)
  | OpGetState (nid : list Z)
  | OpSetState (nid : list Z) (state : Z)
  | OpLocated (e : locate_event)
  | OpServices (services : list (option ServiceInstance)).

Definition run_op (o : op) (l : Linker) : Linker :=
  match o with
  | OpAskNode uid name nid => (AskNode uid name nid l).1
  | OpLocateNode uid name => (LocateNode uid name l).1
  | OpBindNode uid name b => (BindNode uid name b l).1
  | OpBindGameNode uid gameID => (BindGameNode uid gameID l).1
  | OpUnbindNode uid name nid => (UnbindNode uid name nid l).1
  | OpDeliver a => (Deliver a l).1
  | OpTrigger evt cid uid => (Trigger evt cid uid l).1
  | OpGetState nid => (GetState nid l).1
  | OpSetState nid state => (SetState nid state l).1
  | OpLocated e => WatchUserLocate e l
  | OpServices services => (WatchClusterInstance services l).1
  end.

Inductive reachable : Linker → Prop :=
  | reachable_new d loc n : reachable (NewNodeLinker d loc n)
  | reachable_op o l : reachable l → reachable (run_op o l).

Lemma preserves_trigger_each addrs evt cid uid first :
  preserves (trigger_each addrs evt cid uid first).
Proof.
  revert first. induction addrs as [|addr addrs IH]; intros first l Hl; [done|]. cbn [trigger_each].
  assert (preserves (try (_ ← on_net (err_op (net_Build addr));
    on_net (err_op (net_Trigger addr evt cid uid))))) as Hp by preserve.
  specialize (Hp l Hl). destruct (try _ l) as [l' [r|e|]]; [by apply IH|done|done].
Qed.

Lemma run_op_wf o l : wf l → wf (run_op o l).
Proof.
  intros Hl. destruct o; cbn [run_op]; revert l Hl;
    try match goal with |- ∀ l, wf l → wf (?m l).1 => change (preserves m) end.
  - unfold AskNode. preserve.
  - unfold LocateNode, LocateNodeBinding. preserve.
  - unfold BindNode. preserve.
  - unfold BindGameNode, LocateNode, LocateNodeBinding, BindNode. preserve.
  - unfold UnbindNode. preserve.
  - apply preserves_Deliver.
  - intros l Hl. unfold Trigger. destruct (FindEvent evt (disp l)) as [e|e|]; [|done..].
    pose proof (preserves_trigger_each (Event_VisitEndpoints
      (λ _ ep addrs, (addrs ++ [Address ep], true)) e []) evt cid uid None l Hl) as Hp.
    by destruct (trigger_each _ _ _ _ _ l) as [l' r].
  - unfold GetState, doBuildClient. preserve.
  - unfold SetState, doBuildClient. preserve.
  - intros l Hl. destruct e; cbn; [by apply wf_doStoreSource|by apply wf_doDeleteSource|done].
  - unfold WatchClusterInstance. preserve.
Qed.

Lemma reachable_linker_wf l : reachable l → wf l.
Proof.
  induction 1 as [d loc n|o l _ IH]; [|by apply run_op_wf]. split; [|by intros uid m].
  by vm_compute.
Qed.

(** ** Properties *)

(** C25. A node waits for exactly the users that are bound to it: whatever a linker
    asks the locator, binds, unbinds, delivers or hears from the watchers, the
    calls of its wait handler exceed those of its done handler by the number of
    users and groups whose remembered binding names the linker's own instance.
    Remembering a binding replaces the one of that user and group; forgetting
    one does so only while it still names the node given. *)
Theorem own_bindings_are_waited_for l :
  reachable l →
  waits l = Z.of_nat (size (own l)) ∧
  (∀ k, is_Some (own l !! k) ↔ ∃ b, doLoadSource k.1 k.2 l = Some b ∧ NID b = insID) ∧
  (∀ uid name b, flat (doStoreSource uid name b l) = <[(uid, name) := b]> (flat l)) ∧
  (∀ uid name nid, flat (doDeleteSource uid name nid l) =
     match doLoadSource uid name l with
     | Some b => if decide (NID b = nid) then delete (uid, name) (flat l) else flat l
     | None => flat l
     end).
Proof.
  intros Hr. destruct (reachable_linker_wf l Hr) as [Hw Hi]. split; [done|]. split; [|split].
  - intros [uid name]. unfold own. cbn. rewrite map_lookup_filter, flat_lookup.
    destruct (doLoadSource uid name l) as [b|]; cbn; [|split; [by intros [? ?]|by intros (? & ? & _)]].
    case_guard as Hg; cbn in *; split; [by eauto|by eexists|by intros [? ?]|by intros (? & [= <-] & ?)].
  - intros. apply doStoreSource_flat.
  - intros uid name nid. destruct (doLoadSource uid name l) as [b|] eqn:Eb.
    + case_decide as E; [|rewrite doDeleteSource_miss; [done|]; rewrite Eb; by intros ? [= <-]].
      subst nid. apply bind_Some in Eb as (m & Em & Eb).
      destruct (doDeleteSource_hit uid name l m b Em Eb) as (l' & -> & _ & Hf & _).
      by case_bool_decide.
    + by rewrite doDeleteSource_miss by (by rewrite Eb).
Qed.

(** [net_Deliver] after a successful [Build]. *)
Definition sent (addr : list Z) (md : metadata_t) (a : DeliverArgs) (buf : Tree.NocopyBuffer)
    (l : Linker) : Linker * option error :=
  let '(n, e) := net_Deliver addr (da_CID a) (da_UID a) md buf (net_Build addr (net l)).1 in
  (set_net n l, e).

Definition forgiven (e : option error) : outcome unit :=
  match e with
  | Some e => if bool_decide (e = ErrNotFoundUserLocation) then Ok () else Err e
  | None => Ok ()
  end.

Lemma set_disp_same l : set_disp (disp l) l = l.
Proof. by destruct l. Qed.

(** The endpoint of a known node, by the route. *)
Lemma find_endpoint_direct game route uid nid l :
  nid ≠ [] → FindGameRoute game (disp l) = Ok route →
  find_endpoint game route uid nid l =
  (l, match endpoints5 (r_abstract route) !! nid with
      | Some se => Ok (endpoint se) | None => Err ErrNotFoundEndpoint end).
Proof.
  intros Hn Hr. unfold FindGameRoute in Hr.
  destruct (routes (disp l) !! game) as [r|] eqn:Er; [injection Hr as ->|done].
  unfold find_endpoint, FindEndpointForServiceStatus, findServiceEndpointForServiceStatus.
  rewrite Er, bool_decide_eq_false_2 by done. change (default route (Some route)) with route.
  unfold directDispatch, mbind, Op_bind.
  assert (Hs : set_routes (<[game := route]> (routes (disp l))) (disp l) = disp l).
  { unfold set_routes. rewrite insert_id by done. by destruct (disp l). }
  destruct (endpoints5 (r_abstract route) !! nid) as [se|]; cbn; by rewrite Hs, set_disp_same.
Qed.

Lemma doBuildClient_eq nid l :
  nid ≠ [] →
  doBuildClient nid l =
  match Dispatcher_FindEndpoint nid (disp l) with
  | Ok ep => let '(n, e) := net_Build (Address ep) (net l) in
             (set_net n l, _ ← to_outcome e; Ok (Address ep))
  | Err e => (l, Err e)
  | Panic => (l, Panic)
  end.
Proof.
  intros Hn. unfold doBuildClient. rewrite bool_decide_eq_false_2 by done.
  unfold mbind, Op_bind at 1. destruct (Dispatcher_FindEndpoint nid (disp l)) as [ep|e|]; [|done..].
  unfold Op_bind, on_net, err_op, mret, Op_ret. destruct (net_Build _ _) as [n [e|]]; done.
Qed.

Lemma locate_known uid name b l :
  is_Some (locator l) → doLoadSource uid name l = Some b → locate uid name l = (l, Ok b).
Proof. intros [s Hs] Hb. unfold locate. by rewrite Hs, Hb. Qed.

Lemma Deliver_to a buf l :
  deliver_buf (da_Buffer a) = Ok buf → da_NID a ≠ [] →
  Deliver a l =
  match doBuildClient (da_NID a) l with
  | (l, Ok addr) => on_net (err_op (net_Deliver addr (da_CID a) (da_UID a) (da_Metadata a) buf)) l
  | (l, Err e) => ((release l).1, Err e)
  | (l, Panic) => (l, Panic)
  end.
Proof.
  intros Hbuf Hn. unfold Deliver. rewrite Hbuf, bool_decide_eq_true_2 by done.
  unfold lift, try, mbind, Op_bind at 1 2. by destruct (doBuildClient (da_NID a) l) as [l' [?|?|]].
Qed.

Lemma Deliver_routed a buf l :
  deliver_buf (da_Buffer a) = Ok buf → da_NID a = [] →
  Deliver a l =
  match doRPC (da_GameID a) (da_UID a) (deliver_fn a buf) l with
  | (l, Ok (_, None)) => (l, Ok ())
  | (l, Ok (reached, Some e)) =>
      (if bool_decide (reached = Some ()) then l else (release l).1, forgiven (Some e))
  | (l, Err e) => (l, Err e)
  | (l, Panic) => (l, Panic)
  end.
Proof.
  intros Hbuf Hn. unfold Deliver. rewrite Hbuf, bool_decide_eq_false_2 by (intros Hx; by apply Hx).
  unfold lift, mbind, Op_bind at 1 2.
  destruct (doRPC _ _ _ l) as [l' [[reached [e|]]|?|]]; try done.
  unfold forgiven, Op_bind. by repeat case_bool_decide.
Qed.

Lemma rpc_turn_found {A} (route : GameRoute) (gameID uid : Z) (fn : list Z → metadata_t → Op Linker (Reply A))
    (prev nid : list Z) md next l se :
  nid ≠ [] → FindGameRoute gameID (disp l) = Ok route →
  endpoints5 (r_abstract route) !! nid = Some se →
  (net_Build (Address (endpoint se)) (net l)).2 = None →
  rpc_turn route gameID uid fn prev nid md next l =
  ('(continued, reply, err) ← fn (Address (endpoint se)) md;
   if continued : bool then
     _ ← (if bool_decide (uid ≠ 0 ∧ prev ≠ []) then pure_op (doDeleteSource uid (group route) prev)
          else mret ());
     next nid reply err
   else mret (reply, err)) (set_net (net_Build (Address (endpoint se)) (net l)).1 l).
Proof.
  intros Hn Hr Hse Hb. unfold rpc_turn.
  etransitivity; [eapply op_bind_ok, (try_ok _ _ _ (Ok (endpoint se))); [|done]|done].
  etransitivity; [eapply op_bind_ok; rewrite find_endpoint_direct, Hse by done; reflexivity|].
  unfold mbind, Op_bind, on_net, err_op. destruct (net_Build _ _) as [n e]. cbn in Hb. by subst e.
Qed.

Lemma rpc_turn_lost {A} (route : GameRoute) (gameID uid : Z) (fn : list Z → metadata_t → Op Linker (Reply A))
    (prev nid : list Z) md next l :
  nid ≠ [] → FindGameRoute gameID (disp l) = Ok route →
  endpoints5 (r_abstract route) !! nid = None →
  rpc_turn route gameID uid fn prev nid md next l = (l, Ok (None, Some ErrNotFoundEndpoint)).
Proof.
  intros Hn Hr Hse. unfold rpc_turn.
  etransitivity; [eapply op_bind_ok, (try_ok _ _ l (Err ErrNotFoundEndpoint)); [|done]|done].
  unfold mbind, Op_bind. by rewrite find_endpoint_direct, Hse by done.
Qed.

Lemma rpc_loop_S {A} (fuel : nat) (route : GameRoute) (gameID uid : Z)
    (fn : list Z → metadata_t → Op Linker (Reply A)) (prev : list Z) (reply : option A)
    (err : option error) :
  uid ≠ 0 →
  rpc_loop (S fuel) route gameID uid fn prev reply err =
  (located ← (b ← try (LocateNodeBinding uid (group route)); mret (Some b));
   match located with
   | Some (Err e) =>
       if bool_decide (e ≠ ErrNotFoundUserLocation) then mret (None, Some e)
       else rpc_turn route gameID uid fn prev [] None (rpc_loop fuel route gameID uid fn)
   | Some (Ok binding) =>
       if bool_decide (NID binding = prev) then mret (reply, None)
       else rpc_turn route gameID uid fn prev (NID binding) (Metadata binding)
              (rpc_loop fuel route gameID uid fn)
   | _ => rpc_turn route gameID uid fn prev [] None (rpc_loop fuel route gameID uid fn)
   end).
Proof. intros Hu. cbn [rpc_loop]. by rewrite bool_decide_eq_false_2. Qed.

(** The first turn for a user whose binding is known. *)
Lemma doRPC_bound {A} (gameID uid : Z) (fn : list Z → metadata_t → Op Linker (Reply A)) (route : GameRoute) b l :
  uid ≠ 0 → is_Some (locator l) → FindGameRoute gameID (disp l) = Ok route →
  doLoadSource uid (group route) l = Some b → NID b ≠ [] →
  doRPC gameID uid fn l =
  rpc_turn route gameID uid fn [] (NID b) (Metadata b) (rpc_loop 1 route gameID uid fn) l.
Proof.
  intros Hu Hl Hr Hb Hn. unfold doRPC. rewrite Hr, rpc_loop_S by done.
  assert (E : (b ← try (LocateNodeBinding uid (group route)); mret (Some b)) l =
    (l, Ok (Some (Ok b)))).
  { etransitivity; [apply op_bind_ok, (try_ok _ _ l (Ok b)); [by apply locate_known|done]|done]. }
  etransitivity; [apply op_bind_ok, E|]. cbv zeta iota beta. by rewrite bool_decide_eq_false_2.
Qed.

(** Messages follow the binding of their user: a message addressed to a node
    goes to that node with the sender's metadata; a message of a bound user goes
    to the user's node of the game's group with the metadata of the binding,
    whatever the balancing policy and lane; in both cases, when the node is not
    registered any more, nothing is sent, the error says so and the buffer is
    released. *)
Theorem messages_follow_bindings a buf l :
  deliver_buf (da_Buffer a) = Ok buf →
  (da_NID a ≠ [] →
   match Dispatcher_FindEndpoint (da_NID a) (disp l) with
   | Ok ep =>
       (net_Build (Address ep) (net l)).2 = None →
       Deliver a l = let '(l', e) := sent (Address ep) (da_Metadata a) a buf l in (l', to_outcome e)
   | _ => Deliver a l = ((release l).1, Err ErrNotFoundEndpoint)
   end) ∧
  (∀ route b, da_NID a = [] → da_UID a ≠ 0 → is_Some (locator l) →
   FindGameRoute (da_GameID a) (disp l) = Ok route →
   doLoadSource (da_UID a) (group route) l = Some b → NID b ≠ [] →
   match endpoints5 (r_abstract route) !! NID b with
   | Some se =>
       let addr := Address (endpoint se) in
       (net_Build addr (net l)).2 = None →
       Deliver a l = let '(l', e) := sent addr (Metadata b) a buf l in (l', forgiven e)
   | None => Deliver a l = ((release l).1, Err ErrNotFoundEndpoint)
   end).
Proof.
  intros Hbuf. split.
  - intros Hn. rewrite (Deliver_to a buf) by done. rewrite doBuildClient_eq by done.
    unfold Dispatcher_FindEndpoint. destruct (endpoints (disp l) !! da_NID a) as [ep|]; [|done].
    unfold sent. destruct (net_Build (Address ep) (net l)) as [n e]; cbn. intros ->. cbn.
    unfold on_net, err_op. cbn. by destruct (net_Deliver _ _ _ _ _ _) as [n' e'].
  - intros route b Hn Hu Hl Hr Hb Hnb. rewrite (Deliver_routed a buf) by done.
    rewrite (doRPC_bound _ _ _ route b) by done.
    destruct (endpoints5 (r_abstract route) !! NID b) as [se|] eqn:Hse.
    + cbv zeta. intros Hbuild. rewrite (rpc_turn_found _ _ _ _ _ _ _ _ _ se) by done.
      unfold sent, deliver_fn, try, on_net, err_op, mbind, Op_bind, mret, Op_ret. cbn.
      destruct (net_Deliver _ _ _ _ _ _) as [n' [e'|]]; cbn; [|done].
      by rewrite bool_decide_eq_true_2.
    + by rewrite rpc_turn_lost.
Qed.
End nodelink.

(** ** Examples *)

Definition example_locator : NodeLocator := {|
  LState := gmap (Z * list Z) NodeBinding;
  loc_BindNode uid name b s := (<[(uid, name) := b]> s, None);
  loc_UnbindNode uid name nid s := (delete (uid, name) s, None);
  loc_LocateNodeBinding uid name s := (s, Ok (default no_binding (s !! (uid, name))));
|}.

(** Every client answers; deliveries are recorded with their address. *)
Definition example_net : NodeNet := {|
  Net := list (list Z * Z * Z);
  net_Build _ n := (n, None);
  net_Deliver addr cid uid _ _ n := (n ++ [(addr, cid, uid)], None);
  net_Trigger addr _ cid uid n := (n ++ [(addr, cid, uid)], None);
  net_GetState _ n := (n, Ok 1);
  net_SetState _ _ n := (n, None);
|}.

Definition example_codec : Codec := {|
  Payload := list Z; Marshal v := if bool_decide (v = []) then Err EOF else Ok v; Encrypt := None |}.

#[local] Existing Instance example_locator.
#[local] Existing Instance example_net.
#[local] Existing Instance example_codec.
#[local] Existing Instance default_alloc.

(** Node "a" of the group "lobby"; user 7 is bound to it, user 8 to node "b". *)
Definition linked : Linker :=
  foldl (λ l o, run_op (text "a") (λ _, 0) (λ _, ServiceStatusNormal) Packet.defaultOptions o l)
    (NewNodeLinker RoundRobin (Some ∅) [])
    [ OpServices example_services;
      OpBindNode 7 (text "lobby") (mkBinding (text "a") None);
      OpBindNode 8 (text "lobby") (mkBinding (text "a") None);
      OpLocated (EvBindNode 8 (text "lobby") (text "b") None) ].

Lemma linked_reachable :
  reachable (text "a") (λ _, 0) (λ _, ServiceStatusNormal) Packet.defaultOptions linked.
Proof.
  unfold linked. cbn [foldl]. repeat apply reachable_op. apply reachable_new.
Qed.

Lemma own_bindings_are_waited_for_witness :
  waits linked = 1 ∧ is_Some (own (text "a") linked !! (7, text "lobby")) ∧
  doLoadSource 8 (text "lobby") linked = Some (mkBinding (text "b") None).
Proof.
  destruct (own_bindings_are_waited_for _ _ _ _ linked linked_reachable) as (_ & Hown & _ & _).
  split; [by vm_compute|]. split; [|by vm_compute].
  apply Hown. exists (mkBinding (text "a") None). by vm_compute.
Defined.

Definition example_delivery (uid : Z) : DeliverArgs :=
  mkDeliver [] 11 uid None 1 7 (BufBytes [1; 2; 3]).

(** User 8's node of the lobby. *)
Lemma linked_lobby_of_8 :
  ∃ route se, FindGameRoute 1 (disp linked) = Ok route ∧
    doLoadSource 8 (group route) linked = Some (mkBinding (text "b") None) ∧
    endpoints5 (r_abstract route) !! text "b" = Some se ∧
    Address (endpoint se) = text "grpc://127.0.0.1:8001".
Proof.
  assert (E : (λ r, (doLoadSource 8 (group r) linked,
                     (λ se, Address (endpoint se)) <$> endpoints5 (r_abstract r) !! text "b"))
    <$> FindGameRoute 1 (disp linked) =
    Ok (Some (mkBinding (text "b") None), Some (text "grpc://127.0.0.1:8001"))) by (by vm_compute).
  destruct (FindGameRoute 1 (disp linked)) as [route|e|]; [|done..].
  cbn [fmap outcome_fmap] in E. exists route.
  destruct (endpoints5 (r_abstract route) !! text "b") as [se|]; [|done].
  injection E as E1 E2. by exists se.
Qed.

Lemma messages_follow_bindings_witness :
  (Deliver (text "a") (λ _, 0) (λ _, ServiceStatusNormal) Packet.defaultOptions (example_delivery 8)
     linked).2 = Ok () ∧
  net (Deliver (text "a") (λ _, 0) (λ _, ServiceStatusNormal) Packet.defaultOptions
         (example_delivery 8) linked).1 = [(text "grpc://127.0.0.1:8001", 11, 8)].
Proof.
  destruct (messages_follow_bindings (text "a") (λ _, 0) (λ _, ServiceStatusNormal)
    Packet.defaultOptions (example_delivery 8) _ linked eq_refl) as [_ H].
  destruct linked_lobby_of_8 as (route & se & Er & Eb & Ese & Ea).
  specialize (H route (mkBinding (text "b") None) eq_refl ltac:(done)
    ltac:(by vm_compute; eexists) Er Eb ltac:(done)).
  cbn [NID] in H. rewrite Ese in H. cbv zeta in H. rewrite Ea in H. rewrite H by done.
  split; by vm_compute.
Defined.

(** A message that cannot be packed: [Deliver] panics instead of returning the
    error. *)
Lemma unpackable_delivery_panics :
  (Deliver (text "a") (λ _, 0) (λ _, ServiceStatusNormal) Packet.defaultOptions
     (mkDeliver [] 11 8 None 1 7 (BufMessage (mkLinkMessage 1 1 7 (DValue ([] : @Payload example_codec)))))
     linked).2 = Panic.
Proof. by vm_compute. Qed.
