(* ===== verification/GateLink.v ===== *)
(** * internal/link: locating users at gates and calling them there

    gate.go.  A linker remembers the gate of each user, asks the locator when it
    does not know, and calls the gates' RPC servers: directly when the caller
    names the gate, through [doRPC] when only the user is known.  The locator
    and the clients are parameters. *)
From stdpp Require Import gmap.
From S2P Require Import Prelude Packet Registry Dispatcher Session NodeLink.
#[local] Close Scope nat_scope.
Open Scope Z_scope.

(** ** What a linker uses *)

(** The gate side of locate.Locator. *)
Class GateLocator := {
  GState : Type;
  loc_LocateGate : Z → GState → GState * outcome (list Z);
}.

(** The methods of gate.Client; a message is its bytes. *)
Inductive GCall : Type → Type :=
  | GBind (cid uid : Z) : GCall unit
  | GUnbind (uid cid : Z) : GCall unit
  | GGetIP (kind target : Z) : GCall (list Z)
  | GStat (kind : Z) : GCall Z
  | GIsOnline (kind target : Z) : GCall bool
  | GDisconnect (uid cid : Z) (force : bool) : GCall unit
  | GPush (kind target : Z) (m : list Z) (ack : bool) : GCall unit
  | GMulticast (kind : Z) (targets m : list Z) (ack : bool) : GCall Z
  | GBroadcast (kind : Z) (m : list Z) (ack : bool) : GCall Z
  | GPublish (channel m : list Z) (ack : bool) : GCall Z
  | GSubscribe (kind : Z) (targets channel : list Z) : GCall unit
  | GUnsubscribe (kind : Z) (targets channel : list Z) : GCall unit
  | GGetState : GCall Z
  | GSetState (state : Z) : GCall unit.

(** The clients by address. *)
Class GateNet := {
  GNet : Type;
  gn_Build : list Z → GNet → GNet * option error;
  gn_Call : ∀ {A}, list Z → GCall A → GNet → GNet * outcome A;
}.

Section gatelink.
Context {LL : GateLocator} {NN : GateNet} {CC : Codec} {UU : Url}.
Context (packing : Packet.options).

(** [refs] counts the references of the message being sent that were given up:
    handed to a client, which releases what it has written, or released. *)
Record Linker := mkLinker {
  sources : gmap Z (list Z);
  disp : Dispatcher;
  locator : option GState;
  net : GNet;
  refs : nat;
}.

Definition set_sources x (l : Linker) : Linker := mkLinker x (disp l) (locator l) (net l) (refs l).
Definition set_locator x (l : Linker) : Linker := mkLinker (sources l) (disp l) x (net l) (refs l).
Definition set_net x (l : Linker) : Linker := mkLinker (sources l) (disp l) (locator l) x (refs l).
Definition set_disp x (l : Linker) : Linker := mkLinker (sources l) x (locator l) (net l) (refs l).
Definition spend (n : nat) : Op Linker unit := λ l,
  (mkLinker (sources l) (disp l) (locator l) (net l) (refs l + n)%nat, Ok ()).

Definition NewGateLinker (d : Dispatch) (loc : option GState) (n : GNet) : Linker :=
  mkLinker ∅ (NewDispatcher d) loc n 0.

Definition pure_op (f : Linker → Linker) : Op Linker unit := λ l, (f l, Ok ()).
Definition Store (uid : Z) (gid : list Z) : Op Linker unit :=
  pure_op (λ l, set_sources (<[uid := gid]> (sources l)) l).
Definition Delete (uid : Z) : Op Linker unit :=
  pure_op (λ l, set_sources (delete uid (sources l)) l).

Definition on_net {A} (f : GNet → GNet * outcome A) : Op Linker A := λ l,
  let '(n, r) := f (net l) in (set_net n l, r).
Definition call {A} (addr : list Z) (c : GCall A) : Op Linker A := on_net (gn_Call addr c).
Definition build (addr : list Z) : Op Linker unit :=
  on_net (λ n, let '(n, e) := gn_Build addr n in (n, to_outcome e)).

(** ** Locating *)

Definition HasGate (gid : list Z) (l : Linker) : bool :=
  match Dispatcher_FindEndpoint gid (disp l) with Ok _ => true | _ => false end.

Definition LocateGate (uid : Z) : Op Linker (list Z) := λ l,
  match locator l with
  | None => (l, Err ErrNotFoundLocator)
  | Some s =>
      match sources l !! uid with
      | Some ((_ :: _) as gid) => (l, Ok gid)
      | _ =>
          let '(s, r) := loc_LocateGate uid s in
          let l := set_locator (Some s) l in
          match r with
          | Ok gid =>
              if bool_decide (gid = []) then (l, Err ErrNotFoundUserLocation)
              else (set_sources (<[uid := gid]> (sources l)) l, Ok gid)
          | Err e => (l, Err e)
          | Panic => (l, Panic)
          end
      end
  end.

Definition AskGate (gid : list Z) (uid : Z) : Op Linker (list Z * bool) :=
  insID ← LocateGate uid; mret (insID, bool_decide (insID = gid)).

Definition doBuildClient (gid : list Z) : Op Linker (list Z) :=
  if bool_decide (gid = []) then lift (Err ErrInvalidGID) else
  ep ← (λ l, (l, Dispatcher_FindEndpoint gid (disp l)));
  _ ← build (Address ep);
  mret (Address ep).

(** ** [doRPC]

    A handler returns whether to go on, the reply and the error; [failed] is
    the handler of failures before a call.  [prev] is the gate of the turn
    before, [index] counts from 1 to [total]. *)
Definition Reply (A : Type) : Type := bool * option A * option error.
Definition total : nat := 2.

Fixpoint rpc_loop {A} (fuel : nat) (uid : Z) (success : list Z → nat → Op Linker (Reply A))
    (failed : nat → Op Linker unit) (prev : list Z) (reply : option A) (err : option error)
    : Op Linker (option A * option error) :=
  match fuel with
  | O => mret (reply, err)
  | S fuel' =>
      let index := (total - fuel')%nat in
      located ← try (LocateGate uid);
      match located with
      | Err e => _ ← failed index; mret (None, Some e)
      | Panic => lift Panic
      | Ok gid =>
          if bool_decide (gid = prev) then _ ← failed index; mret (reply, None) else
          built ← try (doBuildClient gid);
          match built with
          | Err e => _ ← failed index; mret (None, Some e)
          | Panic => lift Panic
          | Ok client =>
              '(continued, reply, err) ← success client index;
              if negb continued then mret (reply, err)
              else _ ← Delete uid; rpc_loop fuel' uid success failed gid reply err
          end
      end
  end.

Definition no_handler : nat → Op Linker unit := λ _, mret ().

Definition doRPC {A} (uid : Z) (success : list Z → nat → Op Linker (Reply A))
    (failed : nat → Op Linker unit) : Op Linker (option A * option error) :=
  rpc_loop total uid success failed [] None None.

(** The handlers that go on when the gate has no session of the user. *)
Definition retry_handler {A} (c : GCall A) (zero : A) (client : list Z) (_ : nat)
    : Op Linker (Reply A) :=
  r ← try (call client c);
  match r with
  | Err e => mret (bool_decide (e = ErrNotFoundSession), Some zero, Some e)
  | _ => mret (false, Some (val_of zero r), None)
  end.

(** Those that never do. *)
Definition once_handler {A} (c : GCall A) (zero : A) (client : list Z) (_ : nat)
    : Op Linker (Reply A) :=
  r ← try (call client c); mret (false, Some (val_of zero r), err_of r).

(** What callers make of the result: the error, or the reply. *)
Definition result_of {A} (zero : A) (r : option A * option error) : outcome A :=
  match r with (_, Some e) => Err e | (v, None) => Ok (default zero v) end.
Definition indirect {A} (uid : Z) (c : GCall A) (zero : A) : Op Linker A :=
  r ← doRPC uid (retry_handler c zero) no_handler; lift (result_of zero r).
Definition indirect_once {A} (uid : Z) (c : GCall A) (zero : A) : Op Linker A :=
  r ← doRPC uid (once_handler c zero) no_handler; lift (result_of zero r).

(** ** Sessions of users *)

Definition BindGate (gid : list Z) (cid uid : Z) : Op Linker unit :=
  client ← doBuildClient gid;
  _ ← call client (GBind cid uid);
  Store uid gid.

Definition UnbindGate (cid uid : Z) : Op Linker unit :=
  _ ← indirect uid (GUnbind uid cid) ();
  Delete uid.

Definition GetState (gid : list Z) : Op Linker Z := client ← doBuildClient gid; call client GGetState.
Definition SetState (gid : list Z) (state : Z) : Op Linker unit :=
  client ← doBuildClient gid; call client (GSetState state).

(** The gate is named: for connections always, for users when it is given. *)
Definition direct {A} (gid : list Z) (c : GCall A) : Op Linker A :=
  client ← doBuildClient gid; call client c.

Definition GetIP (gid : list Z) (kind target : Z) : Op Linker (list Z) :=
  match to_kind kind with
  | KConn => direct gid (GGetIP kind target)
  | KUser => if bool_decide (gid = []) then indirect target (GGetIP 2 target) []
             else direct gid (GGetIP kind target)
  | KOther _ => lift (Err ErrInvalidSessionKind)
  end.

Definition IsOnline (gid : list Z) (kind target : Z) : Op Linker bool :=
  match to_kind kind with
  | KConn => direct gid (GIsOnline kind target)
  | KUser => if bool_decide (gid = []) then indirect target (GIsOnline kind target) false
             else direct gid (GIsOnline kind target)
  | KOther _ => lift (Err ErrInvalidSessionKind)
  end.

Definition Disconnect (gid : list Z) (uid cid : Z) (force : bool) : Op Linker unit :=
  if bool_decide (cid > 0) then direct gid (GDisconnect uid cid force)
  else if bool_decide (gid = []) then indirect uid (GDisconnect uid cid force) ()
  else direct gid (GDisconnect uid cid force).

Definition FetchGateList (services : outcome (list ServiceInstance)) (states : list (list Z))
    : outcome (list ServiceInstance) :=
  services ← services;
  if bool_decide (states = []) then Ok services
  else Ok (filter (λ s, ins_State s ∈ states) services).

(** ** Messages

    Every call that carries the message uses up one of its references. *)
Definition push_call {A} (client : list Z) (c : GCall A) : Op Linker A :=
  _ ← spend 1; call client c.

Definition doPush (kind target : Z) (m : list Z) (ack : bool) : Op Linker unit :=
  r ← doRPC (A := unit) target
        (λ client index,
           r ← try (push_call client (GPush kind target m ack));
           if ack then
             if bool_decide (err_of r = Some ErrNotFoundSession)
             then mret (true, None, err_of r)
             else _ ← spend (total - index); mret (false, None, err_of r)
           else mret (false, None, err_of r))
        (λ index, spend (total - index));
  lift (to_outcome r.2).

(** One goroutine per target, here one after the other; [n] counts the
    successes, [first] is the first error. *)
Fixpoint push_each (targets : list Z) (kind : Z) (m : list Z) (ack : bool) (n : Z)
    (first : option error) : Op Linker (Z * option error) :=
  match targets with
  | [] => mret (n, first)
  | target :: targets =>
      r ← try (doPush kind target m ack);
      match r with
      | Ok _ => push_each targets kind m ack (n + 1) first
      | _ => push_each targets kind m ack n (match first with None => err_of r | Some e => Some e end)
      end
  end.

Definition some_or_error (n : Z) (err : option error) : outcome Z :=
  match err with Some e => if bool_decide (n = 0) then Err e else Ok n | None => Ok n end.

Definition doMulticast (kind : Z) (targets m : list Z) (ack : bool) : Op Linker Z :=
  '(n, err) ← push_each targets kind m ack 0 None; lift (some_or_error n err).

(** [PackMessage]: with the length that clients expect. *)
Definition pack (m : link_Message) : outcome (list Z) :=
  data ← pack_data (m_Data m) true;
  Packet.PackMessage packing (Packet.mkMessage (m_Seq m) (m_GameID m) (m_MessageID m) data).

Definition doDirectMulticast (gid : list Z) (kind : Z) (targets : list Z) (m : link_Message)
    (ack : bool) : Op Linker Z :=
  if bool_decide (targets = []) then lift (Err ErrReceiveTargetEmpty) else
  client ← doBuildClient gid;
  message ← lift (pack m);
  match targets with
  | [target] => _ ← push_call client (GPush kind target message ack);
                mret (if ack then 1 else 0)
  | _ => push_call client (GMulticast kind targets message ack)
  end.

Definition doIndirectMulticast (kind : Z) (targets : list Z) (m : link_Message) (ack : bool)
    : Op Linker Z :=
  if bool_decide (targets = []) then lift (Err ErrReceiveTargetEmpty) else
  message ← lift (pack m);
  match targets with
  | [target] => _ ← doPush kind target message ack; mret (if ack then 1 else 0)
  | _ => n ← doMulticast kind targets message ack; mret (if ack then n else 0)
  end.

Definition Multicast (gid : list Z) (kind : Z) (targets : list Z) (m : link_Message) (ack : bool)
    : Op Linker Z :=
  match to_kind kind with
  | KConn => doDirectMulticast gid kind targets m ack
  | KUser => if bool_decide (gid = []) then doIndirectMulticast kind targets m ack
             else doDirectMulticast gid kind targets m ack
  | KOther _ => lift (Err ErrInvalidSessionKind)
  end.

Definition Push (gid : list Z) (kind target : Z) (m : link_Message) (ack : bool) : Op Linker unit :=
  _ ← Multicast gid kind [target] m ack; mret ().

(** The calls of every gate, in some order of the endpoints. *)
Fixpoint call_each (addrs : list (list Z)) (c : GCall Z) (n : Z) (first : option error)
    : Op Linker (Z * option error) :=
  match addrs with
  | [] => mret (n, first)
  | addr :: addrs =>
      r ← try (_ ← build addr; call addr c);
      match r with
      | Ok v => call_each addrs c (n + v) first
      | _ => call_each addrs c n (match first with None => err_of r | Some e => Some e end)
      end
  end.

Definition addresses (l : Linker) : list (list Z) :=
  Address <$> (map_to_list (endpoints (disp l))).*2.

Definition Stat (kind : Z) : Op Linker Z :=
  addrs ← (λ l, (l, Ok (addresses l)));
  '(n, err) ← call_each addrs (GStat kind) 0 None;
  if bool_decide (n > 0) then mret n
  else match err with Some e => lift (Err e) | None => mret n end.

(** [doBroadcast] and [doPublish]: the reference is released when there is no
    client. *)
Definition do_each (addr : list Z) (c : GCall Z) : Op Linker Z :=
  built ← try (build addr);
  match built with
  | Ok _ => push_call addr c
  | Err e => _ ← spend 1; lift (Err e)
  | Panic => lift Panic
  end.

Fixpoint spread (addrs : list (list Z)) (c : GCall Z) (n : Z) (first : option error)
    : Op Linker (Z * option error) :=
  match addrs with
  | [] => mret (n, first)
  | addr :: addrs =>
      r ← try (do_each addr c);
      match r with
      | Ok v => spread addrs c (n + v) first
      | _ => spread addrs c n (match first with None => err_of r | Some e => Some e end)
      end
  end.

Definition to_every_gate (m : link_Message) (c : list Z → GCall Z) : Op Linker Z :=
  addrs ← (λ l, (l, Ok (addresses l)));
  match addrs with
  | [] => mret 0
  | _ =>
      message ← lift (pack m);
      match addrs with
      | [addr] => do_each addr (c message)
      | _ => '(n, err) ← spread addrs (c message) 0 None; lift (some_or_error n err)
      end
  end.

Definition Broadcast (kind : Z) (m : link_Message) (ack : bool) : Op Linker Z :=
  to_every_gate m (λ message, GBroadcast kind message ack).
Definition Publish (channel : list Z) (m : link_Message) (ack : bool) : Op Linker Z :=
  to_every_gate m (λ message, GPublish channel message ack).

(** ** Channels *)

(** One goroutine per user; the first error. *)
Fixpoint subscribe_each (targets : list Z) (c : Z → GCall unit) (first : option error)
    : Op Linker (option error) :=
  match targets with
  | [] => mret first
  | target :: targets =>
      r ← try (indirect_once target (c target) ());
      subscribe_each targets c (match first with None => err_of r | Some e => Some e end)
  end.

(** [Subscribe] and [Unsubscribe] differ in the call. *)
Definition channel_call (gid : list Z) (kind : Z) (targets : list Z)
    (c : list Z → GCall unit) : Op Linker unit :=
  let direct_call :=
    if bool_decide (targets = []) then lift (Err ErrReceiveTargetEmpty)
    else direct gid (c targets) in
  match to_kind kind with
  | KConn => direct_call
  | KUser =>
      if bool_decide (gid = []) then
        if bool_decide (targets = []) then lift (Err ErrReceiveTargetEmpty)
        else err ← subscribe_each targets (λ target, c [target]) None; lift (to_outcome err)
      else direct_call
  | KOther _ => lift (Err ErrInvalidSessionKind)
  end.

Definition Subscribe (gid : list Z) (kind : Z) (targets channel : list Z) : Op Linker unit :=
  channel_call gid kind targets (λ targets, GSubscribe kind targets channel).
Definition Unsubscribe (gid : list Z) (kind : Z) (targets channel : list Z) : Op Linker unit :=
  channel_call gid kind targets (λ targets, GUnsubscribe kind targets channel).

(** ** Watchers *)

Inductive gate_event := EvBindGate (uid : Z) (gid : list Z) | EvUnbindGate (uid : Z) | EvOtherGate.

Definition WatchUserLocate (e : gate_event) (l : Linker) : Linker :=
  match e with
  | EvBindGate uid gid => set_sources (<[uid := gid]> (sources l)) l
  | EvUnbindGate uid => set_sources (delete uid (sources l)) l
  | EvOtherGate => l
  end.

Definition WatchClusterInstance (services : list (option ServiceInstance)) : Op Linker unit := λ l,
  let '(d, r) := ReplaceServices services (disp l) in (set_disp d l, r).

(** ** Properties *)

Lemma LocateGate_some uid l l' gid : LocateGate uid l = (l', Ok gid) → gid ≠ [].
Proof.
  unfold LocateGate. destruct (locator l) as [s|]; [|done].
  assert (∀ x : GState * outcome (list Z), (let '(s, r) := x in
     let l := set_locator (Some s) l in
     match r with
     | Ok gid => if bool_decide (gid = []) then (l, Err ErrNotFoundUserLocation)
                 else (set_sources (<[uid := gid]> (sources l)) l, Ok gid)
     | Err e => (l, Err e) | Panic => (l, Panic) end) = (l', Ok gid) → gid ≠ []) as Hloc.
  { intros [s' [g|e|]]; cbn; [|done..]. case_bool_decide; [done|]. by intros [= <- <-]. }
  destruct (sources l !! uid) as [[|z g]|]; [apply Hloc|by intros [= <- <-]|apply Hloc].
Qed.

Definition no_session {A} (r : outcome A) : bool :=
  bool_decide (err_of r = Some ErrNotFoundSession).

(** One turn of the loop with a handler that goes on when there is no session. *)
Lemma turn_called {A} (fuel : nat) (uid : Z) (c : GCall A) (zero : A) (prev : list Z) reply err
    l l1 gid l2 addr l3 r :
  LocateGate uid l = (l1, Ok gid) → gid ≠ prev → doBuildClient gid l1 = (l2, Ok addr) →
  call addr c l2 = (l3, r) → r ≠ Panic →
  rpc_loop (S fuel) uid (retry_handler c zero) no_handler prev reply err l =
  if no_session r
  then rpc_loop fuel uid (retry_handler c zero) no_handler gid (Some zero)
         (Some ErrNotFoundSession) (Delete uid l3).1
  else (l3, Ok (Some (val_of zero r), err_of r)).
Proof.
  intros H1 Hp H2 H3 Hr. cbn [rpc_loop].
  etransitivity; [apply op_bind_ok, try_ok; [exact H1|done]|]. cbv iota.
  rewrite bool_decide_eq_false_2 by done.
  etransitivity; [apply op_bind_ok, try_ok; [exact H2|done]|]. cbv iota.
  assert (Hh : retry_handler c zero addr (total - fuel)%nat l2 =
    (l3, Ok match r with Err e => (bool_decide (e = ErrNotFoundSession), Some zero, Some e)
            | _ => (false, Some (val_of zero r), None) end)).
  { unfold retry_handler. etransitivity; [apply op_bind_ok, try_ok; [exact H3|done]|]. by destruct r. }
  etransitivity; [apply op_bind_ok, Hh|]. destruct r as [v|e|]; [|clear Hh|done].
  - done.
  - unfold no_session. cbn [err_of]. case_bool_decide as He; cbn [negb].
    + subst e. done.
    + rewrite bool_decide_eq_false_2 by congruence. done.
Qed.

Lemma turn_same {A} (fuel : nat) (uid : Z) (c : GCall A) (zero : A) (prev : list Z) reply err l l1 :
  LocateGate uid l = (l1, Ok prev) →
  rpc_loop (S fuel) uid (retry_handler c zero) no_handler prev reply err l = (l1, Ok (reply, None)).
Proof.
  intros H1. cbn [rpc_loop].
  etransitivity; [apply op_bind_ok, try_ok; [exact H1|done]|]. cbv iota.
  by rewrite bool_decide_eq_true_2.
Qed.

Lemma turn_lost {A} (fuel : nat) (uid : Z) (c : GCall A) (zero : A) (prev : list Z) reply err l l1 e :
  LocateGate uid l = (l1, Err e) →
  rpc_loop (S fuel) uid (retry_handler c zero) no_handler prev reply err l = (l1, Ok (None, Some e)).
Proof.
  intros H1. cbn [rpc_loop].
  etransitivity; [apply op_bind_ok, try_ok; [exact H1|done]|]. done.
Qed.

(** C29. A call for a user is made where the user is, and tried once more when the
    user has left: the gate remembered or located is called, and any answer but
    "no session" is the result.  After "no session" the remembered gate is
    forgotten and the user located again: another gate is called once and its
    answer is the result, and a failure to locate is reported.  When the locator
    still names the same gate, though, the call is not repeated and the result
    is success, with the zero value as the reply. *)
Theorem user_calls_retry_once {A} (uid : Z) (c : GCall A) (zero : A) l l1 g1 l2 a1 l3 r1 :
  LocateGate uid l = (l1, Ok g1) → doBuildClient g1 l1 = (l2, Ok a1) →
  call a1 c l2 = (l3, r1) → r1 ≠ Panic →
  (no_session r1 = false → indirect uid c zero l = (l3, r1)) ∧
  (no_session r1 = true →
   match LocateGate uid (Delete uid l3).1 with
   | (l5, Err e) => indirect uid c zero l = (l5, Err e)
   | (l5, Ok g2) =>
       if decide (g2 = g1) then indirect uid c zero l = (l5, Ok zero)
       else ∀ l6 a2 l7 r2, doBuildClient g2 l5 = (l6, Ok a2) → call a2 c l6 = (l7, r2) →
            r2 ≠ Panic → (indirect uid c zero l).2 = r2
   | _ => True
   end).
Proof.
  intros H1 H2 H3 Hr. pose proof (LocateGate_some _ _ _ _ H1) as Hg.
  pose proof (turn_called 1 uid c zero [] None None l l1 g1 l2 a1 l3 r1 H1 Hg H2 H3 Hr) as Ht.
  assert (Hi : ∀ l' r, rpc_loop total uid (retry_handler c zero) no_handler [] None None l = (l', Ok r) →
    indirect uid c zero l = (l', result_of zero r)).
  { intros l' r E. unfold indirect, doRPC. etransitivity; [apply op_bind_ok, E|]. done. }
  split.
  - intros Hne. rewrite Hne in Ht. rewrite (Hi _ _ Ht). by destruct r1.
  - intros Hyes. rewrite Hyes in Ht.
    destruct (LocateGate uid (Delete uid l3).1) as [l5 [g2|e|]] eqn:E5; [case_decide as Hsame| |done].
    + subst g2. rewrite (turn_same 0 _ c zero _ _ _ _ _ E5) in Ht. by rewrite (Hi _ _ Ht).
    + intros l6 a2 l7 r2 H6 H7 Hr2.
      rewrite (turn_called 0 _ c zero _ _ _ _ _ _ _ _ _ _ E5 Hsame H6 H7 Hr2) in Ht.
      destruct (no_session r2) eqn:Hn; rewrite (Hi _ _ Ht); [|by destruct r2].
      unfold no_session in Hn. apply bool_decide_eq_true in Hn. destruct r2; try done.
      by injection Hn as ->.
    + rewrite (turn_lost 0 _ c zero _ _ _ _ _ _ E5) in Ht. by rewrite (Hi _ _ Ht).
Qed.
End gatelink.

(** ** Examples: two gates, one of which knows user 7 *)

Definition example_locator : GateLocator := {|
  GState := gmap Z (list Z);
  loc_LocateGate uid s := (s, match s !! uid with Some g => Ok g | None => Err ErrNotFoundUserLocation end);
|}.

(** The users each gate has a session of. *)
Definition online (addr : list Z) (uid : Z) (n : gmap (list Z) (gset Z)) : bool :=
  bool_decide (uid ∈ default ∅ (n !! addr)).
Definition answered {A} (b : bool) (a : A) : outcome A := if b then Ok a else Err ErrNotFoundSession.

Definition example_net : GateNet := {|
  GNet := gmap (list Z) (gset Z);
  gn_Build _ n := (n, None);
  gn_Call A addr c n :=
    (n, match c in GCall A return outcome A with
        | GBind _ _ => Ok ()
        | GUnbind uid _ => answered (online addr uid n) ()
        | GGetIP _ uid => answered (online addr uid n) [127; 0; 0; 1]
        | GStat _ => Ok (Z.of_nat (size (default ∅ (n !! addr))))
        | GIsOnline _ uid => Ok (online addr uid n)
        | GDisconnect uid _ _ => answered (online addr uid n) ()
        | GPush _ uid _ _ => answered (online addr uid n) ()
        | GMulticast _ _ _ _ => Ok 0
        | GBroadcast _ _ _ => Ok 0
        | GPublish _ _ _ => Ok 0
        | GSubscribe _ _ _ => Ok ()
        | GUnsubscribe _ _ _ => Ok ()
        | GGetState => Ok 1
        | GSetState _ => Ok ()
        end);
|}.

#[local] Existing Instance example_locator.
#[local] Existing Instance example_net.
#[local] Existing Instance example_codec.

Definition gate_instance (id endpoint : String.string) : option ServiceInstance :=
  Some (mkInstance (text id) (text "gate") (text "gate") (text "gate") (text "work") [] [] []
          (text endpoint) 1 0 (text "1") None).

Definition two_gates (known : gmap Z (list Z)) (sessions : gmap (list Z) (gset Z)) : Linker :=
  (WatchClusterInstance [gate_instance "g1" "h1"; gate_instance "g2" "h2"]
     (set_sources known (NewGateLinker Random (Some {[7 := text "g2"; 8 := text "g2"]}) sessions))).1.

(** The linker remembers that user 7 was at g1, but it is at g2. *)
Definition moved : Linker := two_gates {[7 := text "g1"]} {[text "h2" := {[7]}]}.

Lemma split_result {S A} (x : S * A) r : x.2 = r → x = (x.1, r).
Proof. destruct x. by intros <-. Qed.

Ltac result := apply split_result; vm_compute; reflexivity.

Lemma user_calls_retry_once_witness :
  (indirect 7 (GGetIP 2 7) [] moved).2 = Ok [127; 0; 0; 1].
Proof.
  set (l1 := (LocateGate 7 moved).1). set (l2 := (doBuildClient (text "g1") l1).1).
  set (l3 := (call (text "h1") (GGetIP 2 7) l2).1). set (l5 := (LocateGate 7 (Delete 7 l3).1).1).
  set (l6 := (doBuildClient (text "g2") l5).1).
  pose proof (user_calls_retry_once 7 (GGetIP 2 7) [] moved l1 (text "g1") l2 (text "h1") l3
    (Err ErrNotFoundSession) ltac:(result) ltac:(result) ltac:(result) ltac:(done)) as [_ H].
  specialize (H eq_refl).
  assert (E : LocateGate 7 (Delete 7 l3).1 = (l5, Ok (text "g2"))) by result.
  rewrite E, decide_False in H by done.
  by apply (H l6 (text "h2") (call (text "h2") (GGetIP 2 7) l6).1); [result|result|].
Defined.

(** No gate has a session of user 8, but the locator still names g2: an
    acknowledged push, an unbinding and a look-up of its address all succeed. *)
Definition gone : Linker := two_gates ∅ ∅.
Definition hello : link_Message := mkLinkMessage 1 1 7 (DBytes [1; 2; 3]).

Lemma lost_user_reports_success :
  (call (text "h2") (GPush 2 8 [] true) gone).2 = Err ErrNotFoundSession ∧
  (Push Packet.defaultOptions [] 2 8 hello true gone).2 = Ok () ∧
  (Multicast Packet.defaultOptions [] 2 [8; 8] hello true gone).2 = Ok 2 ∧
  (GetIP [] 2 8 gone).2 = Ok [] ∧ (UnbindGate 1 8 gone).2 = Ok ().
Proof. vm_compute. repeat split. Qed.

(** An acknowledged push waits for two references ([Delay(2)]); one that cannot
    locate its user, or meets the same gate again, gives up only one. *)
Lemma failed_push_keeps_a_reference :
  refs (Push Packet.defaultOptions [] 2 9 hello true gone).1 = 1%nat ∧
  refs (Push Packet.defaultOptions [] 2 8 hello true gone).1 = 1%nat ∧
  refs (Push Packet.defaultOptions [] 2 7 hello true moved).1 = 2%nat.
Proof. vm_compute. repeat split. Qed.
