(* ===== verification/NodeServer.v ===== *)
(** * cluster/node: the node's life and its provider

    node.go and provider.go: a node starts, registers itself as an instance,
    is asked by gates and other nodes to take events, messages and states, is
    closed and destroyed.  The registry is a service; the workers that handle
    what is delivered are in Node.v, the links to other nodes in NodeLink.v. *)
From stdpp Require Import gmap fin_maps.
From S2P Require Import Prelude Packet NodeLink Node Registry Context Scheduler.
#[local] Close Scope nat_scope.
Open Scope Z_scope.

(** registry.Registry, as far as a node uses it. *)
Class NodeRegistry := {
  RegState : Type;
  reg_Register : ServiceInstance → RegState → RegState * option error;
  reg_Deregister : ServiceInstance → RegState → RegState * option error;
}.

(** [cluster.Hook] *)
Inductive Hook := HInit | HStart | HClose | HDestroy.
#[export] Instance Hook_eq_dec : EqDecision Hook.
Proof. solve_decision. Defined.

(** The options in use: who the node is, how long a delivery waits for room,
    where its two servers listen ([no_transporter] is nothing without a
    transporter). *)
Record node_options := mkNodeOptions {
  no_id : list Z;
  no_name : list Z;
  no_gameID : Z;
  no_version : list Z;
  no_weight : Z;
  no_metadata : gmap (list Z) (list Z);
  no_status : ServiceStatus;
  no_deliverTimeout : Z;
  no_endpoint : list Z;
  no_transporter : option (list Z);
}.

(** [cluster.State.String] *)
Definition State_String (s : Z) : list Z :=
  if bool_decide (s = Work) then text "work"
  else if bool_decide (s = Busy) then text "busy"
  else if bool_decide (s = Hang) then text "hang"
  else text "shut".

Definition status_text (s : ServiceStatus) : list Z :=
  match s with
  | ServiceStatusNormal => text "normal"
  | ServiceStatusGray => text "gray"
  | ServiceStatusTest => text "test"
  end.

Definition mergeServiceMetadata (metadata : gmap (list Z) (list Z)) (status : ServiceStatus)
    : gmap (list Z) (list Z) :=
  <[MetadataServiceStatusKey := status_text status]> metadata.

Section server.
Context {Fn : Type} {LL : NodeLocator} {NN : NodeNet} {UU : Dispatcher.Url} {RR : NodeRegistry}.
Context (packing : Packet.options) (o : node_options).

(** [ran] are the hook handlers run so far; [linking] says whether the servers
    accept connections, [transporter] whether that of the mesh was made,
    [closed] whether the channels were closed. *)
Record Server := mkServer {
  node : @Node.Node Fn;
  linker : NodeLink.Linker;
  services : list (list Z);
  instances : list ServiceInstance;
  registry : RegState;
  hooks : list (Hook * Fn);
  ran : list Fn;
  linking : bool;
  transporter : bool;
  closed : bool;
}.

Definition set_node x (s : Server) : Server :=
  mkServer x (linker s) (services s) (instances s) (registry s) (hooks s) (ran s) (linking s)
    (transporter s) (closed s).
Definition set_linker x (s : Server) : Server :=
  mkServer (node s) x (services s) (instances s) (registry s) (hooks s) (ran s) (linking s)
    (transporter s) (closed s).
Definition set_instances x (s : Server) : Server :=
  mkServer (node s) (linker s) (services s) x (registry s) (hooks s) (ran s) (linking s)
    (transporter s) (closed s).
Definition set_registry x (s : Server) : Server :=
  mkServer (node s) (linker s) (services s) (instances s) x (hooks s) (ran s) (linking s)
    (transporter s) (closed s).
Definition set_servers l t (s : Server) : Server :=
  mkServer (node s) (linker s) (services s) (instances s) (registry s) (hooks s) (ran s) l t
    (closed s).

(** [NewNode] *)
Definition NewNode (l : NodeLink.Linker) (r : RegState) : Server :=
  mkServer (mkNode newScheduler newRouter [] ∅ [] ∅ []) l [] [] r [] [] false false false.

Definition getState (s : Server) : Z := node_state (sch (node s)).
Definition store_state (z : Z) (s : Server) : Server :=
  set_node (set_sch (set_node_state z (sch (node s))) (node s)) s.

(** ** Hooks and services *)

Definition addHookListener (h : Hook) (f : Fn) (s : Server) : Server :=
  if bool_decide (h = HDestroy ∨ getState s = Shut)
  then mkServer (node s) (linker s) (services s) (instances s) (registry s)
         (hooks s ++ [(h, f)]) (ran s) (linking s) (transporter s) (closed s)
  else s.

Definition addServiceProvider (name : list Z) (s : Server) : Server :=
  if bool_decide (getState s = Shut)
  then mkServer (node s) (linker s) (services s ++ [name]) (instances s) (registry s)
         (hooks s) (ran s) (linking s) (transporter s) (closed s)
  else s.

(** The handlers of a hook run at once; they are listed in the order they were
    added. *)
Definition runHookFunc (h : Hook) (s : Server) : Server :=
  mkServer (node s) (linker s) (services s) (instances s) (registry s) (hooks s)
    (ran s ++ (filter (λ p, p.1 = h) (hooks s)).*2) (linking s) (transporter s) (closed s).

(** ** Instances *)

Definition node_instance (events : list Z) (s : Server) : ServiceInstance :=
  mkInstance (no_id o) (text "node") (text "node") (no_name o) (State_String (getState s))
    events (CollectRoutes (router (node s))) [] (no_endpoint o) (no_weight o) (no_gameID o)
    (no_version o) (Some (mergeServiceMetadata (no_metadata o) (no_status o))).
Definition mesh_instance (endpoint : list Z) (s : Server) : ServiceInstance :=
  mkInstance (no_id o) (text "mesh") (text "mesh") (no_name o) (State_String (getState s))
    [] [] (services s) endpoint (no_weight o) 0 (no_version o)
    (Some (mergeServiceMetadata (no_metadata o) (no_status o))).

(** One goroutine per instance; the first error. *)
Fixpoint each_instance (f : ServiceInstance → RegState → RegState * option error)
    (l : list ServiceInstance) (first : option error) (r : RegState) : RegState * option error :=
  match l with
  | [] => (r, first)
  | ins :: l =>
      let '(r, e) := f ins r in
      each_instance f l (match first with None => e | Some e => Some e end) r
  end.

Definition doRegisterServiceInstances : Op Server unit := λ s,
  let '(r, e) := each_instance reg_Register (instances s) None (registry s) in
  (set_registry r s, to_outcome e).

Definition with_state (z : Z) (i : ServiceInstance) : ServiceInstance :=
  mkInstance (ins_ID i) (ins_Name i) (ins_Kind i) (ins_Alias i) (State_String z) (ins_Events i)
    (ins_Routes i) (ins_Services i) (ins_Endpoint i) (ins_Weight i) (ins_GameID i)
    (ins_Version i) (ins_Metadata i).

Definition doRefreshServiceInstances : Op Server unit := λ s,
  doRegisterServiceInstances (set_instances (with_state (getState s) <$> instances s) s).

(** The error is logged. *)
Definition refreshServiceInstances (s : Server) : Server := (doRefreshServiceInstances s).1.
Definition deregisterServiceInstances (s : Server) : Server :=
  set_registry (each_instance reg_Deregister (instances s) None (registry s)).1 s.

(** [Panic] is the end of the process by a fatal error. *)
Definition registerServiceInstances : Op Server unit := λ s,
  let events := (map_to_list (events (node s))).*1 in
  let s := set_instances
             (instances s ++ [node_instance events s] ++
              (match no_transporter o with
               | Some endpoint => if transporter s then [mesh_instance endpoint s] else []
               | None => []
               end)) s in
  let '(s, r) := doRegisterServiceInstances s in
  (s, match r with Ok _ => Ok () | _ => Panic end).

Definition setState (z : Z) : Op Server unit := λ s, doRefreshServiceInstances (store_state z s).

(** ** Life

    [Init] checks the options; a node that lacks one ends the process. *)
Definition GateGameID : Z := 0.
Definition Init : Op Server unit := λ s,
  if bool_decide (no_id o = [] ∨ no_name o = [] ∨ no_gameID o <= GateGameID)
  then (s, Panic) else (runHookFunc HInit s, Ok ()).

Definition Start : Op Server unit := λ s,
  if bool_decide (getState s ≠ Shut) then (s, Ok ()) else
  let s := store_state Work s in
  let s := set_servers true
             (match no_transporter o with
              | Some _ => bool_decide (services s ≠ []) || transporter s
              | None => transporter s
              end) s in
  let '(s, r) := registerServiceInstances s in
  match r with Ok _ => (runHookFunc HStart s, Ok ()) | e => (s, e) end.

(** [Close] up to its last line, which waits for the wait group; the result
    says whether that returns at once. *)
Definition Close (s : Server) : Server * bool :=
  if bool_decide (getState s = Work ∨ getState s = Busy) then
    let s := refreshServiceInstances (store_state Hang s) in
    let s := (let s := runHookFunc HClose s in set_servers false (transporter s) s) in
    (s, bool_decide (wg (sch (node s)) = 0))
  else (s, true).

(** Closing a closed channel panics. *)
Definition Destroy : Op Server unit := λ s,
  if bool_decide (getState s ≠ Hang) then (s, Ok ()) else
  let s := deregisterServiceInstances (runHookFunc HDestroy (store_state Shut s)) in
  let s := set_servers false (transporter s) s in
  if closed s then (s, Panic)
  else (mkServer (node s) (linker s) (services s) (instances s) (registry s) (hooks s) (ran s)
          (linking s) (transporter s) true, Ok ()).

(** ** The provider

    A delivery to a full queue waits; with a positive timeout, the default, it
    ends ([deliver_ends] below).  [choice] is the object the pool gives. *)
Context (choice : nat).

Definition on_node (f : @Node.Node Fn → option (@Node.Node Fn * outcome unit)) : Op Server unit := λ s,
  match f (node s) with
  | Some (n, r) => (set_node n s, r)
  | None => (s, Err ErrDeliverQueueFull)
  end.
Definition on_linker {A} (f : Op NodeLink.Linker A) : Op Server A := λ s,
  let '(l, r) := f (linker s) in (set_linker l s, r).

Definition provider_Trigger (gid : list Z) (cid uid event : Z) : Op Server unit :=
  on_node (Node.trigger (no_deliverTimeout o) choice event gid cid uid).

(** A half packet unpacks to nil without an error, and its fields are read. *)
Definition provider_Deliver (gid nid : list Z) (cid uid : Z)
    (metadata : option (gmap (list Z) (list Z))) (message : list Z) : Op Server unit :=
  unpacked ← lift (Packet.UnpackMessage packing message);
  match unpacked with
  | None => lift Panic
  | Some (msg, _) =>
      if bool_decide (Packet.GameID msg ≠ no_gameID o) then lift (Err ErrInvalidGameID) else
      r ← (λ s, (s, Ok (router (node s))));
      let '(stateful, ok) := CheckRouteStateful (Packet.MessageID msg) r in
      if negb ok && negb (HasMessageDispatcher r || HasDefaultRouteHandler r) then mret () else
      _ ← (if stateful then
             if bool_decide (uid = 0) then lift (Err ErrInvalidArgument) else
             '(_, here) ← on_linker (NodeLink.AskNode (no_id o) uid (no_name o) (no_id o));
             if here : bool then mret () else lift (Err ErrNotFoundSession)
           else mret ());
      on_node (Node.deliver (no_deliverTimeout o) choice
                 (mkDelivery gid nid [] cid uid metadata
                    (mkMessage (Packet.Seq msg) (Packet.GameID msg) (Packet.MessageID msg)
                       (Some (Packet.Buf msg)))))
  end.

Definition provider_GetState : Op Server Z := λ s, (s, Ok (getState s)).
Definition provider_SetState (z : Z) : Op Server unit := setState z.


(** *** Queues *)

(** The pooled requests are as [reset] leaves them. *)
Definition idle_context (c : context Fn) : Prop :=
  Context.kind c = Request ∧ version c = 0 ∧ chain c = None.
Definition idle_pool (n : @Node.Node Fn) : Prop := ∀ x,
  x ∈ reqPool (objects (sch n)) → ∃ c, ctx_of x n = Some c ∧ idle_context c.

Lemma get_idle n c x ob :
  idle_pool n → get Request c (objects (sch n)) = (x, ob) →
  ∃ c0, heap ob !! x = Some c0 ∧ idle_context c0 ∧ (reqPool ob ⊆ reqPool (objects (sch n))) ∧
    (∀ y, y ≠ x → heap ob !! y = heap (objects (sch n)) !! y).
Proof.
  intros Hi. unfold get. cbn [pool]. destruct (reqPool (objects (sch n)) !! c) as [y|] eqn:E; intros [= <- <-].
  - destruct (Hi y) as (c0 & Hc & Hid); [by eapply list_elem_of_lookup_2|].
    exists c0. split_and!; [done|done|cbn; apply list_subseteq_delete|done].
  - exists (new_context Request). cbn. rewrite lookup_insert_eq. split_and!; try done.
    intros z Hz. by rewrite lookup_insert_ne.
Qed.

Lemma idle_update n c x c' ob :
  idle_pool n → get Request c (objects (sch n)) = (x, ob) → idle_context c' →
  ∀ p : list nat, (∀ y, y ∈ p → y = x ∨ y ∈ reqPool ob) →
  ∀ y, y ∈ p → ∃ c1, (<[x := c']> (heap ob) : gmap nat (context Fn)) !! y = Some c1 ∧ idle_context c1.
Proof.
  intros Hi Hg Hc' p Hp y Hy. destruct (get_idle _ _ _ _ Hi Hg) as (c0 & _ & _ & Hsub & Hoth).
  destruct (decide (y = x)) as [->|Hne].
  - exists c'. by rewrite lookup_insert_eq.
  - rewrite lookup_insert_ne by done. rewrite Hoth by done. apply Hi, Hsub.
    by destruct (Hp y Hy).
Qed.

(** A delivery with a positive timeout ends, and says so. *)
Lemma deliver_ends t d (n : @Node.Node Fn) :
  0 < t → idle_pool n →
  ∃ n', Node.deliver t choice d n =
          Some (n', if bool_decide ((length (reqChan n) < req_size)%nat)
                    then Ok () else Err ErrDeliverQueueFull) ∧
    router n' = router n ∧ threads n' = threads n ∧ log n' = log n ∧ idle_pool n' ∧
    if bool_decide ((length (reqChan n) < req_size)%nat)
    then ∃ x c, reqChan n' = reqChan n ++ [x] ∧ ctx_of x n' = Some (fill d c) ∧ idle_context c
    else reqChan n' = reqChan n.
Proof.
  intros Ht Hi. unfold Node.deliver.
  destruct (get Request choice (objects (sch n))) as [x ob] eqn:Hg.
  destruct (get_idle _ _ _ _ Hi Hg) as (c0 & Hx & (Hk & Hv & Hc) & _).
  assert (Ho : objects (sch (on_objects (λ _, update x (fill d) ob) n)) =
               mkObjects (<[x := fill d c0]> (heap ob)) (reqPool ob) (evtPool ob)).
  { cbn. unfold update. by rewrite (alter_at _ _ _ _ Hx). }
  assert (Hf : idle_context (fill d c0)) by done.
  cbn [reqChan on_objects set_sch]. case_bool_decide as Hroom.
  - eexists. split; [done|]. split_and!; [done..| |].
    + unfold idle_pool, ctx_of. cbn [sch set_reqChan]. rewrite Ho.
      apply (idle_update _ _ _ _ _ Hi Hg Hf). tauto.
    + exists x, c0. split; [done|]. split; [|done]. unfold ctx_of. cbn [sch set_reqChan].
      rewrite Ho. apply lookup_insert_eq.
  - rewrite bool_decide_false by lia. eexists. split; [done|]. split_and!; [done..| |done].
    assert (Ho' : objects (sch (on_objects (recycle x) (on_objects (λ _, update x (fill d) ob) n))) =
                  mkObjects (<[x := reset (fill d c0)]> (heap ob)) (x :: reqPool ob) (evtPool ob)).
    { unfold on_objects at 1. cbn [sch set_sch set_objects objects]. rewrite Ho. unfold recycle.
      cbn. rewrite lookup_insert_eq. unfold update. cbn. rewrite alter_insert_eq, Hk. done. }
    unfold idle_pool, ctx_of. rewrite Ho'. apply (idle_update _ _ _ _ _ Hi Hg).
    + unfold reset, idle_context. cbn. by rewrite Hk, Hv.
    + cbn. intros y [->|?]%elem_of_cons; tauto.
Qed.

(** *** Deliveries *)

(** What a delivery that is let through does in the state [s]. *)
Definition queues (d : delivery) (s : Server) (result : Server * outcome unit) : Prop :=
  ∃ n', result = (set_node n' s, if bool_decide ((length (reqChan (node s)) < req_size)%nat)
                                 then Ok () else Err ErrDeliverQueueFull) ∧
    if bool_decide ((length (reqChan (node s)) < req_size)%nat)
    then ∃ x c, reqChan n' = reqChan (node s) ++ [x] ∧ ctx_of x n' = Some (fill d c) ∧ idle_context c
    else reqChan n' = reqChan (node s).

Lemma on_node_queues d s :
  0 < no_deliverTimeout o → idle_pool (node s) →
  queues d s (on_node (Node.deliver (no_deliverTimeout o) choice d) s).
Proof.
  intros Ht Hi. destruct (deliver_ends _ d (node s) Ht Hi) as (n' & E & _ & _ & _ & _ & Hq).
  unfold on_node. rewrite E. by exists n'.
Qed.

Lemma stateful_exists id (r : @Router Fn) ok : CheckRouteStateful id r = (true, ok) → ok = true.
Proof. unfold CheckRouteStateful. destruct (r_routes r !! id); congruence. Qed.

(** C5. What a node does with a message it is sent: one of another game is
    refused; one that nothing would handle is dropped in silence; one for a
    stateful route must name a user that the locator puts on this very node; the
    rest ends in the request queue as an idle object that carries exactly the
    message, its sender and its metadata, or is refused when the queue stays full
    for the time a delivery may take. *)
Theorem accepted_messages_are_queued gid nid cid uid md m rest s :
  message_ok m → 20 + len (Packet.Buf m) ≤ Packet.bufferBytes packing →
  20 + len (Packet.Buf m) < 2 ^ 32 → 0 < no_deliverTimeout o → idle_pool (node s) →
  let r := router (node s) in
  let result := provider_Deliver gid nid cid uid md (packet (Packet.byteOrder packing) 0 m ++ rest) s in
  let d := mkDelivery gid nid [] cid uid md
             (mkMessage (Packet.Seq m) (Packet.GameID m) (Packet.MessageID m) (Some (Packet.Buf m))) in
  if decide (Packet.GameID m ≠ no_gameID o) then result = (s, Err ErrInvalidGameID) else
  match CheckRouteStateful (Packet.MessageID m) r with
  | (false, false) =>
      if HasMessageDispatcher r || HasDefaultRouteHandler r then queues d s result
      else result = (s, Ok ())
  | (false, true) => queues d s result
  | (true, _) =>
      if decide (uid = 0) then result = (s, Err ErrInvalidArgument) else
      match NodeLink.AskNode (no_id o) uid (no_name o) (no_id o) (linker s) with
      | (l, Ok (_, true)) => queues d (set_linker l s) result
      | (l, Ok (_, false)) => result = (set_linker l s, Err ErrNotFoundSession)
      | (l, Err e) => result = (set_linker l s, Err e)
      | (l, Panic) => result = (set_linker l s, Panic)
      end
  end.
Proof.
  intros Hok Hb Hsz Ht Hi r result d. unfold result, provider_Deliver.
  rewrite UnpackMessage_packet by done.
  unfold mbind, Op_bind, lift, on_linker. fold r.
  destruct (decide (Packet.GameID m ≠ no_gameID o)) as [Hg|Hg];
    [by rewrite (bool_decide_true (_ ≠ _))|rewrite (bool_decide_false (_ ≠ _)) by done].
  fold r. destruct (CheckRouteStateful (Packet.MessageID m) r) as [[] ok] eqn:Hr.
  - rewrite (stateful_exists _ _ _ Hr). cbn [negb andb].
    destruct (decide (uid = 0)) as [Hu|Hu]; [by rewrite bool_decide_true|].
    rewrite bool_decide_false by done.
    destruct (NodeLink.AskNode _ _ _ _ (linker s)) as [l [[nid' []]|e|]]; [|done..].
    by apply (on_node_queues d (set_linker l s)).
  - destruct ok; cbn [negb andb].
    + by apply on_node_queues.
    + destruct (_ || _); cbn [negb]; [by apply on_node_queues|done].
Qed.

(** *** Life *)

(** The instances say the state the node is in. *)
Definition announced (s : Server) : Prop :=
  Forall (λ i, ins_State i = State_String (getState s)) (instances s).

Lemma refresh_announced s :
  announced (doRefreshServiceInstances s).1 ∧
  getState (doRefreshServiceInstances s).1 = getState s.
Proof.
  unfold doRefreshServiceInstances, doRegisterServiceInstances.
  destruct (each_instance _ _ _ _) as [r e]. split; [|done]. cbn. unfold announced. cbn.
  by apply Forall_fmap, Forall_true.
Qed.

(** A node that starts, changes its state or begins to close announces the state
    it is in then. *)
Lemma life_announced s z :
  announced (setState z s).1 ∧ getState (setState z s).1 = z ∧
  (getState s = Work ∨ getState s = Busy →
   announced (Close s).1 ∧ getState (Close s).1 = Hang) ∧
  (getState s = Shut → instances s = [] →
   announced (Start s).1 ∧ getState (Start s).1 = Work).
Proof.
  destruct (refresh_announced (store_state z s)) as [H1 H2].
  split; [done|]. split; [exact H2|]. split.
  - intros Hs. unfold Close. rewrite bool_decide_true by done.
    destruct (refresh_announced (store_state Hang s)) as [H3 H4].
    unfold refreshServiceInstances. by destruct (doRefreshServiceInstances _).
  - intros Hs Hi. unfold Start. rewrite bool_decide_false by naive_solver.
    unfold registerServiceInstances, doRegisterServiceInstances. cbn. rewrite Hi.
    destruct (each_instance _ _ _ _) as [r [e|]]; cbn; (split; [|done]);
      unfold announced; cbn; (constructor; [done|]); destruct (no_transporter o); [|done| |done];
      case_match; by repeat constructor.
Qed.

(** A state set from outside takes [Close] away: a node told to hang, or to be
    shut, no longer closes its server, refreshes its instances or waits. *)
Lemma set_state_disarms_close z s : z ≠ Work → z ≠ Busy → let s' := (setState z s).1 in Close s' = (s', true).
Proof.
  intros H1 H2 s'. unfold Close. rewrite bool_decide_false; [done|].
  pose proof (life_announced s z) as (_ & E & _). unfold s'. rewrite E. naive_solver.
Qed.
End server.

(** ** Examples

    A node of the game 1 whose route 7 is stateful and whose route 8 is not. *)
Definition example_registry : NodeRegistry := {|
  RegState := gmap (list Z * list Z) ServiceInstance;
  reg_Register i r := (<[(ins_ID i, ins_Kind i) := i]> r, None);
  reg_Deregister i r := (delete (ins_ID i, ins_Kind i) r, None);
|}.
#[local] Existing Instance NodeLink.example_locator.
#[local] Existing Instance NodeLink.example_net.
#[local] Existing Instance example_registry.
#[local] Existing Instance Dispatcher.example_url.

Definition lobby_options : node_options :=
  mkNodeOptions (text "a") (text "lobby") 1 (text "1.0.0") 1 ∅ ServiceStatusNormal 3
    (text "grpc://127.0.0.1:8001") None.
Definition lobby_router : @Router nat :=
  Node.AddRouteHandler Shut 8 (Some 200%nat) []
    (Node.AddRouteHandler Shut 7 (Some 100%nat) [mkRouteOptions false true false []] newRouter).
Definition new_lobby : @Server nat _ _ _ _ :=
  let s := NewNode NodeLink.linked (∅ : @RegState example_registry) in
  set_node (mkNode (sch (node s)) lobby_router [] ∅ [] ∅ []) s.
Definition lobby : @Server nat _ _ _ _ := (Start lobby_options new_lobby).1.

Definition stateful_message : Packet.Message := Packet.mkMessage 1 1 7 [5; 6].
Definition stateful_packet : list Z :=
  packet (Packet.byteOrder Packet.defaultOptions) 0 stateful_message ++ [].
Definition sent_by_gate (uid : Z) (m : list Z) : @Server nat _ _ _ _ * outcome unit :=
  provider_Deliver Packet.defaultOptions lobby_options 0 (text "g1") [] 3 uid None m lobby.

Lemma lobby_asks :
  CheckRouteStateful 7 (router (node lobby)) = (true, true) ∧
  (NodeLink.AskNode (text "a") 7 (text "lobby") (text "a") (linker lobby)).2 = Ok (text "a", true) ∧
  (NodeLink.AskNode (text "a") 8 (text "lobby") (text "a") (linker lobby)).2 = Ok (text "b", false).
Proof. by vm_compute. Qed.

(** User 7 is bound to this node, user 8 to another. *)
Lemma accepted_messages_are_queued_witness :
  (sent_by_gate 7 stateful_packet).2 = Ok () ∧
  (sent_by_gate 8 stateful_packet).2 = Err ErrNotFoundSession.
Proof.
  assert (Hok : message_ok stateful_message) by (split_and!; by apply (bool_decide_unpack _)).
  assert (Hi : idle_pool (node lobby)) by (intros x Hx; vm_compute in Hx; by apply elem_of_nil in Hx).
  destruct lobby_asks as (Hr & H7 & H8).
  split.
  - pose proof (accepted_messages_are_queued Packet.defaultOptions lobby_options 0 (text "g1") [] 3 7 None
      stateful_message [] lobby Hok ltac:(done) ltac:(done) ltac:(done) Hi) as H.
    cbv zeta in H. rewrite decide_False in H by (intros Hx; by apply Hx).
    change (Packet.MessageID stateful_message) with 7 in H. rewrite Hr, decide_False in H by done.
    change (no_id lobby_options) with (text "a") in H. change (no_name lobby_options) with (text "lobby") in H.
    destruct (NodeLink.AskNode _ 7 _ _ (linker lobby)) as [l q]. cbn [snd] in H7. subst q.
    destruct H as (n' & E & _). unfold sent_by_gate, stateful_packet. by rewrite E.
  - pose proof (accepted_messages_are_queued Packet.defaultOptions lobby_options 0 (text "g1") [] 3 8 None
      stateful_message [] lobby Hok ltac:(done) ltac:(done) ltac:(done) Hi) as H.
    cbv zeta in H. rewrite decide_False in H by (intros Hx; by apply Hx).
    change (Packet.MessageID stateful_message) with 7 in H. rewrite Hr, decide_False in H by done.
    change (no_id lobby_options) with (text "a") in H. change (no_name lobby_options) with (text "lobby") in H.
    destruct (NodeLink.AskNode _ 8 _ _ (linker lobby)) as [l q]. cbn [snd] in H8. subst q.
    unfold sent_by_gate, stateful_packet. by rewrite H.
Defined.

(** Three bytes are a half packet. *)
Lemma half_packet_panics : (sent_by_gate 7 [0; 0; 0]).2 = Panic.
Proof. by vm_compute. Qed.

(** A node that is told to hang keeps its server. *)
Lemma told_to_hang :
  let s := (setState Hang lobby).1 in linking (Close s).1 = true ∧ linking (Close lobby).1 = false.
Proof. by vm_compute. Qed.

(** A node started again after [Destroy] registers itself twice and cannot be
    destroyed again. *)
Definition restarted : @Server nat _ _ _ _ :=
  (Start lobby_options (Destroy (Close lobby).1).1).1.
Lemma restart_breaks : length (instances restarted) = 2%nat ∧ (Destroy (Close restarted).1).2 = Panic.
Proof. by vm_compute. Qed.
