(* ===== verification/NodeRpc.v ===== *)
(** * internal/transporter/node: a node's RPC server and its client

    server.go decodes the requests of gates and other nodes and calls the
    provider of [NodeServer]; client.go is the other end.  Triggers and
    deliveries are sent without a sequence number, so that nobody is told how
    they ended. *)
From stdpp Require Import gmap fin_maps.
From S2P Require Import Prelude Buffer Nocopy Protocol Wire Frames Rpc.
From S2P Require Import Packet NodeLink Node NodeServer Registry Context Scheduler.
#[local] Close Scope nat_scope.
Open Scope Z_scope.

(** [cluster.Kind] *)
Definition KindGate : Z := 1.
Definition KindNode : Z := 2.

Section rpc.
Context {Fn : Type} {LL : NodeLocator} {NN : NodeNet} {UU : Dispatcher.Url} {RR : NodeRegistry}.
Context `{!WriterAlloc} `{!BytesAlloc} `{!JsonMap} `{!JsonMapLaws _}.
Context (packing : Packet.options) (o : node_options) (choice : nat).

Abbreviation node_server := (@NodeServer.Server Fn LL NN UU RR).
Abbreviation NH := (Handler node_server).

(** ** Handlers *)

Definition provided {A} (m : Op node_server A) : Op (node_server * Peer) (outcome A) := λ s,
  let '(n, r) := try m s.1 in ((n, s.2), r).
Definition the_peer : Op (node_server * Peer) Peer := λ s, (s, Ok s.2).

Definition reply (seq : Z) (err : option error) (m : outcome Tree.NocopyBuffer)
    : Op (node_server * Peer) (option Tree.NocopyBuffer) :=
  if bool_decide (seq = 0)
  then match err with Some e => lift (Err e) | None => mret None end
  else Send m.

Definition server_trigger : NH := λ data,
  '(seq, evt, cid, uid) ← lift (DecodeTriggerReq data);
  p ← the_peer;
  if bool_decide (InsKind p ≠ KindGate) then lift (Err ErrIllegalRequest) else
  r ← provided (provider_Trigger o choice (InsID p) cid uid evt);
  if bool_decide (seq = 0 ∧ err_of r = Some ErrNotFoundSession) then mret None
  else reply seq (err_of r) (EncodeTriggerRes seq (codes.ErrorToCode (err_of r))).

(** No metadata decode to nil. *)
Definition decoded_map (m : gmap (list Z) (list Z)) : option (gmap (list Z) (list Z)) :=
  if bool_decide (m = ∅) then None else Some m.

Definition origin (p : Peer) : outcome (list Z * list Z) :=
  if bool_decide (InsKind p = KindGate) then Ok (InsID p, [])
  else if bool_decide (InsKind p = KindNode) then Ok ([], InsID p)
  else Err ErrIllegalRequest.

Definition server_deliver : NH := λ data,
  '(seq, cid, uid, metadata, message) ← lift (DecodeDeliverReq data);
  p ← the_peer;
  '(gid, nid) ← lift (origin p);
  r ← provided (provider_Deliver packing o choice gid nid cid uid (decoded_map metadata) message);
  reply seq (err_of r) (EncodeDeliverRes seq (codes.ErrorToCode (err_of r))).

Definition server_getState : NH := λ data,
  seq ← lift (DecodeGetStateReq data);
  r ← provided provider_GetState;
  Send (EncodeGetStateRes seq (codes.ErrorToCode (err_of r)) (val_of 0 r)).

Definition server_setState : NH := λ data,
  '(seq, state) ← lift (DecodeSetStateReq data);
  r ← provided (provider_SetState state);
  Send (EncodeSetStateRes seq (codes.ErrorToCode (err_of r))).

(** [init] *)
Definition handlers : gmap Z NH :=
  RegisterHandler route.SetState server_setState $
  RegisterHandler route.GetState server_getState $
  RegisterHandler route.Deliver server_deliver $
  RegisterHandler route.Trigger server_trigger NewServer.

(** ** The client *)

Abbreviation C := (Op (node_server * Peer)).

Definition coded {A} (code : Z) (a : A) : C A :=
  match codes.CodeToError code with None => mret a | Some e => lift (Err e) end.

Definition client_Trigger (evt cid uid : Z) : C unit :=
  CallSend handlers (EncodeTriggerReq 0 evt cid [uid]).
Definition client_Deliver (cid uid : Z) (metadata : option (gmap (list Z) (list Z)))
    (buf : block + Tree.NocopyBuffer) : C unit :=
  CallSend handlers (EncodeDeliverReq 0 cid uid (default ∅ metadata) buf).
Definition client_GetState (seq : Z) : C Z :=
  res ← Rpc.Call handlers seq (EncodeGetStateReq seq);
  '(code, state) ← lift (DecodeGetStateRes res); coded code state.
Definition client_SetState (seq state : Z) : C unit :=
  res ← Rpc.Call handlers seq (EncodeSetStateReq seq state);
  code ← lift (DecodeSetStateRes res); coded code ().

Lemma node_handlers_lookup :
  getHandler handlers route.Trigger = Some server_trigger ∧
  getHandler handlers route.Deliver = Some server_deliver ∧
  getHandler handlers route.GetState = Some server_getState ∧
  getHandler handlers route.SetState = Some server_setState.
Proof.
  unfold getHandler, handlers, RegisterHandler.
  split_and!; repeat (rewrite lookup_insert_eq; reflexivity ||
                      rewrite lookup_insert_ne by done); reflexivity.
Qed.

Lemma provided_bind {A B} (m : Op node_server A) (f : outcome A → Op (node_server * Peer) B) s p :
  (provided m ≫= f) (s, p) =
  let '(s', r) := m s in match r with Panic => ((s', p), Panic) | r => f r (s', p) end.
Proof. unfold provided, try, mbind, Op_bind. cbn. by destruct (m s) as [s' [|?|]]. Qed.

Lemma Send_eq (m : outcome Tree.NocopyBuffer) (s : node_server * Peer) :
  Send m s = (s, b ← m; Ok (Some b)).
Proof. unfold Send, lift, mbind, Op_bind, outcome_bind. by destruct m. Qed.

(** What a connection learns of a request without an answer. *)
Definition unanswered {A} (r : outcome A) : outcome unit :=
  match r with Panic => Panic | _ => Ok () end.

(** A request whose handler answers nothing. *)
Lemma CallSend_frame hs rt seq m body h s s' r :
  in_u 64 seq → fits_frame body → makes m (wire rt seq body) → getHandler hs rt = Some h →
  h (wire rt seq body) s = (s', r) → (∀ b, r ≠ Ok (Some b)) →
  CallSend (S := node_server) hs m s = (s', unanswered r).
Proof.
  intros Hs Hf (b & -> & Hb & Hd) Hh Hr Hno. unfold CallSend.
  rewrite lift_bind_Ok, write_buffer_data, lift_bind_Ok, Hd by done.
  unfold mbind at 1, Op_bind at 1. rewrite <- (app_nil_r (wire rt seq body)), read_one_frame by done.
  rewrite Hh, Hr. destruct r as [[b'|]|e|]; [by destruct (Hno b')|done..].
Qed.

(** *** Each call of the client *)

Lemma trigger_decodes e c u :
  req_ok 0 (@TriggerReq (block + Tree.NocopyBuffer) e c u) →
  DecodeTriggerReq (req_frame 0 (TriggerReq e c u)) = Ok (0, e, c, u).
Proof.
  intros Hq. pose proof (req_decodes 0 _ Hq) as D. unfold decode_req in D. at_route D.
  apply bind_Ok in D as ([[[? ?] ?] ?] & D & E). by injection E as -> -> -> ->.
Qed.

Lemma deliver_decodes c u md (m : block + Tree.NocopyBuffer) :
  req_ok 0 (DeliverReq c u md m) →
  DecodeDeliverReq (req_frame 0 (DeliverReq c u md m)) = Ok (0, c, u, md, Tree.elem_data m).
Proof.
  intros Hq. pose proof (req_decodes 0 _ Hq) as D. unfold decode_req in D. at_route D.
  apply bind_Ok in D as ([[[[? ?] ?] ?] ?] & D & E). by injection E as -> -> -> -> ->.
Qed.

Lemma trigger_local e c u (s : node_server) p :
  req_ok 0 (@TriggerReq (block + Tree.NocopyBuffer) e c u) →
  client_Trigger e c u (s, p) =
  if bool_decide (InsKind p = KindGate)
  then let '(s', r) := provider_Trigger o choice (InsID p) c u e s in ((s', p), unanswered r)
  else ((s, p), Ok ()).
Proof.
  intros Hq. pose proof Hq as (Hs & Hf & Hp & Hfit).
  pose proof (encode_req_makes 0 (TriggerReq e c u) Hf Hp Hfit) as Hmk.
  set (r := if bool_decide (InsKind p = KindGate)
            then let '(s', r) := provider_Trigger o choice (InsID p) c u e s in
                 ((s', p), match r with
                           | Ok _ => Ok None
                           | Err e => if bool_decide (e = ErrNotFoundSession) then Ok None else Err e
                           | Panic => Panic
                           end)
            else ((s, p), Err ErrIllegalRequest) : _ * outcome (option Tree.NocopyBuffer)).
  assert (Hh : server_trigger (req_frame 0 (TriggerReq e c u)) (s, p) = r).
  { unfold server_trigger. rewrite (trigger_decodes e c u Hq), lift_bind_Ok.
    rewrite (op_bind_ok the_peer _ _ (s, p) p) by done. unfold r.
    destruct (decide (InsKind p = KindGate)) as [Hk|Hk];
      [rewrite (bool_decide_true (_ = _)), bool_decide_false by naive_solver
      |by rewrite (bool_decide_false (_ = _)), bool_decide_true].
    rewrite provided_bind. destruct (provider_Trigger _ _ _ _ _ _ s) as [s' [[]|e'|]]; [done| |done].
    cbn. unfold reply. destruct (decide (e' = ErrNotFoundSession)) as [->|He]; [done|].
    rewrite (bool_decide_false (_ ∧ _)) by naive_solver. by rewrite (bool_decide_false (e' = _)). }
  assert (Hno : ∀ b, r.2 ≠ Ok (Some b)).
  { intros b. unfold r. case_bool_decide; [|done]. destruct (provider_Trigger _ _ _ _ _ _ s) as [s' [|?|]];
      cbn; try done. by case_bool_decide. }
  unfold client_Trigger.
  rewrite (CallSend_frame handlers route.Trigger 0 _ _ _ _ r.1 r.2 Hs Hfit Hmk (proj1 node_handlers_lookup));
    [|by rewrite <- surjective_pairing|done].
  unfold r. case_bool_decide; [|done]. destruct (provider_Trigger _ _ _ _ _ _ s) as [s' [|?|]]; cbn; try done.
  by case_bool_decide.
Qed.

Lemma deliver_local c u md (m : block + Tree.NocopyBuffer) (s : node_server) p :
  req_ok 0 (DeliverReq c u (default ∅ md) m) →
  client_Deliver c u md m (s, p) =
  match origin p with
  | Ok (gid, nid) =>
      let '(s', r) := provider_Deliver packing o choice gid nid c u
                        (decoded_map (default ∅ md)) (Tree.elem_data m) s in
      ((s', p), unanswered r)
  | _ => ((s, p), Ok ())
  end.
Proof.
  intros Hq. pose proof Hq as (Hs & Hf & Hp & Hfit).
  pose proof (encode_req_makes 0 (DeliverReq c u (default ∅ md) m) Hf Hp Hfit) as Hmk.
  set (r := match origin p with
            | Ok (gid, nid) =>
                let '(s', r) := provider_Deliver packing o choice gid nid c u
                                  (decoded_map (default ∅ md)) (Tree.elem_data m) s in
                ((s', p), match r with Ok _ => Ok None | Err e => Err e | Panic => Panic end)
            | Err e => ((s, p), Err e)
            | Panic => ((s, p), Panic)
            end : _ * outcome (option Tree.NocopyBuffer)).
  assert (Hh : server_deliver (req_frame 0 (DeliverReq c u (default ∅ md) m)) (s, p) = r).
  { unfold server_deliver. rewrite (deliver_decodes _ _ _ _ Hq), lift_bind_Ok.
    rewrite (op_bind_ok the_peer _ _ (s, p) p) by done. unfold r.
    destruct (origin p) as [[gid nid]|e|]; [|done..]. rewrite lift_bind_Ok, provided_bind.
    by destruct (provider_Deliver _ _ _ _ _ _ _ _ _ s) as [s' [[]|e'|]]. }
  assert (Hno : ∀ b, r.2 ≠ Ok (Some b)).
  { intros b. unfold r. destruct (origin p) as [[gid nid]|e|]; [|done..].
    by destruct (provider_Deliver _ _ _ _ _ _ _ _ _ s) as [s' [|?|]]. }
  unfold client_Deliver.
  rewrite (CallSend_frame handlers route.Deliver 0 _ _ _ _ r.1 r.2 Hs Hfit Hmk
             (proj1 (proj2 node_handlers_lookup))); [|by rewrite <- surjective_pairing|done].
  unfold r, origin. repeat case_bool_decide; [..|done].
  all: by destruct (provider_Deliver _ _ _ _ _ _ _ _ _ s) as [s' [|?|]].
Qed.

Lemma setState_answers z (s : node_server) : (provider_SetState z s).2 ≠ Panic.
Proof.
  unfold provider_SetState, setState, doRefreshServiceInstances, doRegisterServiceInstances.
  destruct (each_instance _ _ _ _) as [r [e|]]; by cbn.
Qed.

Lemma setState_local seq state (s : node_server) p :
  seq ≠ 0 → req_ok seq (@SetStateReq (block + Tree.NocopyBuffer) state) →
  client_SetState seq state (s, p) =
  let '(s', r) := provider_SetState state s in ((s', p), narrow r).
Proof.
  intros Hz Hq. pose proof Hq as (Hs & Hf & Hp & Hfit).
  pose proof (encode_req_makes seq (SetStateReq state) Hf Hp Hfit) as Hmk.
  pose proof (req_decodes seq _ Hq) as D. unfold decode_req in D. at_route D.
  apply bind_Ok in D as ([? ?] & D & E). injection E as -> ->.
  destruct (provider_SetState state s) as [s' r] eqn:Er.
  assert (Hr : r ≠ Panic) by (pose proof (setState_answers state s) as Hr; by rewrite Er in Hr).
  set (res := CodeRes route.SetState (codes.ErrorToCode (err_of r))).
  assert (Hres : res_fields res) by (split; [by apply (bool_decide_unpack _)|apply ErrorToCode_range]).
  assert (Hh : server_setState (req_frame seq (SetStateReq state)) (s, p) =
               ((s', p), b ← encode_res (λ _, None) seq res; Ok (Some b))).
  { unfold server_setState. rewrite D, lift_bind_Ok, provided_bind, Er. destruct r; [by rewrite Send_eq..|done]. }
  unfold client_SetState. rewrite (op_bind_ok _ _ _ (s', p) (wire route.SetState seq (res_body (λ _, None) res))).
  - pose proof (decode_encode_res (λ _, None) seq res Hres ltac:(done)) as E.
    unfold decode_res in E. at_route E. cbn [res_route res] in E.
    destruct (DecodeSetStateRes _) as [code|?|]; cbn in E; try done. injection E as ->.
    rewrite lift_bind_Ok. by destruct r as [[]|[]|].
  - eapply (Call_frame _ route.SetState seq _ (req_body _));
      [exact Hs|exact Hfit|by apply (res_body_fits (λ _, None))|exact Hmk|apply node_handlers_lookup| |
       exact (encode_res_makes (λ _, None) seq res Hres)].
    exact Hh.
Qed.

Lemma getState_local seq (s : node_server) p :
  seq ≠ 0 → in_u 64 seq → in_u 8 (getState s) →
  client_GetState seq (s, p) = ((s, p), Ok (getState s)).
Proof.
  intros Hz Hs Hst.
  assert (Hq : req_ok seq (@GetStateReq (block + Tree.NocopyBuffer))) by (by split_and!).
  pose proof Hq as (_ & Hf & Hp & Hfit).
  pose proof (encode_req_makes seq GetStateReq Hf Hp Hfit) as Hmk.
  pose proof (req_decodes seq _ Hq) as D. unfold decode_req in D. at_route D.
  apply bind_Ok in D as (? & D & E). injection E as ->.
  set (res := GetStateRes codes.OK (getState s)).
  assert (Hres : res_fields res) by done.
  assert (Hh : server_getState (req_frame seq GetStateReq) (s, p) =
               ((s, p), b ← encode_res (λ _, None) seq res; Ok (Some b))).
  { unfold server_getState. rewrite D, lift_bind_Ok, provided_bind. cbn. by rewrite Send_eq. }
  unfold client_GetState. rewrite (op_bind_ok _ _ _ (s, p) (wire route.GetState seq (res_body (λ _, None) res))).
  - pose proof (decode_encode_res (λ _, None) seq res Hres ltac:(done)) as E.
    unfold decode_res in E. at_route E. cbn [res_route res] in E.
    apply bind_Ok in E as ([code st] & -> & E). injection E as -> ->. done.
  - eapply (Call_frame _ route.GetState seq _ (req_body _));
      [exact Hs|exact Hfit|by apply (res_body_fits (λ _, None))|exact Hmk|apply node_handlers_lookup| |
       exact (encode_res_makes (λ _, None) seq res Hres)].
    exact Hh.
Qed.
End rpc.

(** C23. A call of a node from elsewhere is the call of its provider.  Over the
    frames of the transporter, a trigger of a gate and a delivery of a gate or a
    node act on the node exactly as the provider's [Trigger] and [Deliver] do
    with the caller as origin, and requests of any other kind of instance change
    nothing; neither answers, so that the caller is told nothing of an error.
    [SetState] and [GetState] also return what the provider returns, an error
    reduced to its code. *)
Theorem node_calls_are_local {Fn} `{!NodeLocator} `{!NodeNet} `{!Dispatcher.Url} `{!NodeRegistry}
    `{!WriterAlloc} `{!BytesAlloc} `{!JsonMap} `{!JsonMapLaws _} packing o choice
    (s : @NodeServer.Server Fn _ _ _ _) p :
  (∀ e cid uid, req_ok 0 (@TriggerReq (block + Tree.NocopyBuffer) e cid uid) →
     client_Trigger packing o choice e cid uid (s, p) =
     if bool_decide (InsKind p = KindGate)
     then let '(s', r) := provider_Trigger o choice (InsID p) cid uid e s in ((s', p), unanswered r)
     else ((s, p), Ok ())) ∧
  (∀ cid uid md (m : block + Tree.NocopyBuffer), req_ok 0 (DeliverReq cid uid (default ∅ md) m) →
     client_Deliver packing o choice cid uid md m (s, p) =
     match origin p with
     | Ok (gid, nid) =>
         let '(s', r) := provider_Deliver packing o choice gid nid cid uid
                           (decoded_map (default ∅ md)) (Tree.elem_data m) s in
         ((s', p), unanswered r)
     | _ => ((s, p), Ok ())
     end) ∧
  (∀ seq state, seq ≠ 0 → req_ok seq (@SetStateReq (block + Tree.NocopyBuffer) state) →
     client_SetState packing o choice seq state (s, p) =
     let '(s', r) := provider_SetState state s in ((s', p), narrow r)) ∧
  (∀ seq, seq ≠ 0 → in_u 64 seq → in_u 8 (getState s) →
     client_GetState packing o choice seq (s, p) = ((s, p), Ok (getState s))).
Proof.
  split; [|split; [|split]]; intros.
  - by apply trigger_local.
  - by apply deliver_local.
  - by apply setState_local.
  - by apply getState_local.
Qed.

(** ** Examples *)

#[local] Existing Instance NodeLink.example_locator.
#[local] Existing Instance NodeLink.example_net.
#[local] Existing Instance NodeServer.example_registry.
#[local] Existing Instance Dispatcher.example_url.
#[local] Existing Instance default_alloc.
#[local] Existing Instance default_bytes_alloc.
#[local] Existing Instance example_json.
#[local] Existing Instance example_json_laws.

Definition from_gate : Peer := mkPeer KindGate (text "g1").
Definition from_mesh : Peer := mkPeer 3 (text "m1").

(** The gate g1 sends a packet of user 7: it is queued; from a mesh it is not. *)
Definition delivered (p : Peer) : list nat :=
  reqChan (node (client_Deliver Packet.defaultOptions lobby_options 0 3 7 None
                   (inl (BRaw stateful_packet)) (lobby, p)).1.1).

Lemma node_calls_are_local_witness :
  (client_GetState Packet.defaultOptions lobby_options 0 5 (lobby, from_gate)).2 = Ok Work ∧
  delivered from_gate = [0%nat] ∧ delivered from_mesh = [].
Proof.
  assert (Hq : req_ok 0 (DeliverReq 3 7 (default ∅ None) (inl (BRaw stateful_packet) : block + Tree.NocopyBuffer)))
    by (split_and!; try done; by apply (bool_decide_unpack _)).
  destruct (node_calls_are_local Packet.defaultOptions lobby_options 0 lobby from_gate) as (_ & Hd & _ & Hg).
  destruct (node_calls_are_local Packet.defaultOptions lobby_options 0 lobby from_mesh) as (_ & Hm & _).
  split; [by rewrite (Hg 5)|]. unfold delivered. rewrite (Hd 3 7 None _ Hq), (Hm 3 7 None _ Hq).
  split; [by vm_compute|done].
Defined.
