(* ===== verification/GateServer.v ===== *)
(** * cluster/gate: connections, messages and the gate's life

    gate.go, proxy.go, deliver.go, context.go and the steps of provider.go's
    bind.  The network layer calls the handlers of connections from goroutines
    of its own, workers take messages from a queue, nodes and the application
    bind users: a goroutine is a [task], each of its visible actions one step, so
    that every interleaving is a sequence of steps.  The life of the gate
    ([Start], [Close], [Destroy]) is three more steps. *)
From stdpp Require Import gmap fin_maps functions.
From S2P Require Import Prelude Buffer Nocopy Packet Registry Dispatcher NodeLink Scheduler NodeServer Session Gate.
#[local] Close Scope nat_scope.
Open Scope Z_scope.

Section gate_server.
Context {GL : Locator} {GO : GateOptions} {LL : NodeLocator} {NN : NodeNet} {CC : Codec}
  {UU : Url} {WA : WriterAlloc} {RR : NodeRegistry}.
(** The linker's options, the packer's, the room of the queue (one at least), the
    number of workers, whether a dispatcher of control messages is bound, and the
    instance the gate registers, less its state. *)
Context (IntN : Z → Z) (resolveServiceStatus : Z → ServiceStatus) (packing : Packet.options)
  (receiveQueue deliverWorkers : nat) (messageDispatcher : bool) (self : ServiceInstance).

(** ** Tasks

    Where a goroutine stands: in [handleConnect] once the session has the
    connection; in [handleDisconnect] once the session has dropped it, once its
    ids were read, once the locator was told; in [bind] once the session, the
    locator and the lobby are bound, or on its way back; in a worker with a
    message, and with the ids of its connection; in [Destroy] once the queue is
    closed. *)
Inductive task :=
  | TConnected (r : ref)
  | TRemoved (r : ref)
  | TLeaving (cid uid : Z)
  | TLeft (cid uid : Z)
  | TBinding (cid uid : Z) (lobby : bool)
  | TBound (cid uid : Z) (lobby : bool)
  | TUnbinding (cid uid : Z)
  | TRollback (cid uid : Z)
  | TEvent (cid uid : Z)
  | TWorker (r : ref) (data : list Z)
  | TDelivering (r : ref) (cid uid : Z) (data : list Z)
  | TDraining.

(** What the tasks act on: the provider's state, the linker, and the control
    messages given to the application. *)
Record App := mkApp {
  core : Gate.Gate;
  linker : NodeLink.Linker;
  uplinked : list (ref * Packet.Message);
}.

Definition on_session (f : World → World) (a : App) : App :=
  mkApp (set_session (f (session (core a))) (core a)) (linker a) (uplinked a).
Definition on_core {A} (m : Op Gate.Gate A) (a : App) : App * outcome A :=
  (mkApp (m (core a)).1 (linker a) (uplinked a), (m (core a)).2).
Definition on_linker {A} (m : Op NodeLink.Linker A) (a : App) : App * outcome A :=
  (mkApp (core a) (m (linker a)).1 (uplinked a), (m (linker a)).2).
Definition conn_of (r : ref) (a : App) : Conn := heap (session (core a)) r.

(** ** proxy.go *)

Definition proxy_bindGate (cid uid : Z) : App → App * outcome unit := on_core (Gate.bindGate cid uid).
Definition proxy_unbindGate (cid uid : Z) : App → App * outcome unit :=
  on_core (Gate.unbindGate cid uid).
(** The lobby's game. *)
Definition LobbyGameID : Z := 1.
Definition proxy_bindLobby (uid : Z) : App → App * outcome unit :=
  on_linker (NodeLink.BindGameNode gid IntN resolveServiceStatus uid LobbyGameID).

(** A failure is logged; a panic ends the process. *)
Definition logged {A} (r : outcome A) : outcome unit :=
  match r with Panic => Panic | _ => Ok () end.
Definition proxy_trigger (event cid uid : Z) (a : App) : App * outcome unit :=
  let '(a, r) := on_linker (NodeLink.Trigger event cid uid) a in (a, logged r).

Definition dispatchGateMessage (r : ref) (m : Packet.Message) (a : App) : App :=
  if messageDispatcher then mkApp (core a) (linker a) (uplinked a ++ [(r, m)]) else a.

(** The arguments of a client's message. *)
Definition client_args (cid uid : Z) (m : Packet.Message) (data : list Z) : DeliverArgs :=
  mkDeliver [] cid uid None (Packet.GameID m) (Packet.MessageID m) (BufBytes data).

Definition proxy_deliver (r : ref) (cid uid : Z) (data : list Z) (a : App) : App * outcome unit :=
  match Packet.UnpackMessage packing data with
  | Panic => (a, Panic)
  | Err _ | Ok None => (a, Ok ())
  | Ok (Some (m, _)) =>
      if bool_decide (Packet.GameID m = GateGameID) then (dispatchGateMessage r m a, Ok ())
      else if bool_decide (uid = 0) then (a, Ok ())
      else let '(a, res) := on_linker (NodeLink.Deliver gid IntN resolveServiceStatus packing
                                         (client_args cid uid m data)) a in (a, logged res)
  end.

(** deliver.go: the application sends a message in the user's name. *)
Definition gate_Deliver (cid uid : Z) (m : link_Message) (a : App) : App * outcome unit :=
  if bool_decide (uid <= 0 ∨ m_GameID m <= GateGameID ∨ m_MessageID m <= 0)
  then (a, Err ErrInvalidArgument)
  else on_linker (NodeLink.Deliver gid IntN resolveServiceStatus packing
                    (mkDeliver [] cid uid None (m_GameID m) (m_MessageID m) (BufMessage m))) a.

(** ** One action of a goroutine

    The state after it, and where the goroutine goes on, if it does; no result
    is a panic. *)
Definition notify (event cid uid : Z) (a : App) : option (App * option task) :=
  if connectionEvents then
    match proxy_trigger event cid uid a with
    | (a, Panic) => None
    | (a, _) => Some (a, None)
    end
  else Some (a, None).

(** [handleDisconnect]: the ids are read, the locator is told. *)
Definition disconnect_ids (r : ref) (a : App) : option (App * option task) :=
  Some (a, Some (TLeaving (ID (conn_of r a)) (UID (conn_of r a)))).
Definition disconnect_unbind (cid uid : Z) (a : App) : option (App * option task) :=
  Some (if bool_decide (uid ≠ 0) then (proxy_unbindGate cid uid a).1 else a,
        Some (TLeft cid uid)).

(** [bind]: the locator, the lobby, the way back. *)
Definition bind_gate (cid uid : Z) (lobby : bool) (a : App) : option (App * option task) :=
  match proxy_bindGate cid uid a with
  | (a, Ok _) => Some (a, Some (TBound cid uid lobby))
  | (a, Err _) => Some (a, Some (TRollback cid uid))
  | (_, Panic) => None
  end.
Definition bind_lobby (cid uid : Z) (lobby : bool) (a : App) : option (App * option task) :=
  if lobby then
    match proxy_bindLobby uid a with
    | (a, Ok _) => Some (a, Some (TEvent cid uid))
    | (a, Err e) => Some (a, Some (if bool_decide (e ≠ ErrNotFoundRoute) then TUnbinding cid uid
                                   else TEvent cid uid))
    | (_, Panic) => None
    end
  else Some (a, Some (TEvent cid uid)).
Definition bind_rollback (cid uid : Z) (a : App) : option (App * option task) :=
  Some (on_session (λ w, (Session.Unbind cid uid w).1) a, None).

(** [deliverWorker] *)
Definition worker_ids (r : ref) (data : list Z) (a : App) : option (App * option task) :=
  Some (a, Some (TDelivering r (ID (conn_of r a)) (UID (conn_of r a)) data)).
Definition worker_deliver (r : ref) (cid uid : Z) (data : list Z) (a : App)
    : option (App * option task) :=
  match proxy_deliver r cid uid data a with
  | (_, Panic) => None
  | (a, _) => Some (a, None)
  end.

Definition task_step (k : task) (a : App) : option (App * option task) :=
  match k with
  | TConnected r => notify Connect (ID (conn_of r a)) (UID (conn_of r a)) a
  | TRemoved r => disconnect_ids r a
  | TLeaving cid uid => disconnect_unbind cid uid a
  | TLeft cid uid => notify Disconnect cid uid a
  | TBinding cid uid lobby => bind_gate cid uid lobby a
  | TBound cid uid lobby => bind_lobby cid uid lobby a
  | TUnbinding cid uid => Some ((proxy_unbindGate cid uid a).1, Some (TRollback cid uid))
  | TRollback cid uid => bind_rollback cid uid a
  | TEvent cid uid => notify Reconnect cid uid a
  | TWorker r data => worker_ids r data a
  | TDelivering r cid uid data => worker_deliver r cid uid data a
  | TDraining => Some (a, None)
  end.

(** ** The gate

    [accepted] are the messages that were put into the queue, [handled] those
    that workers have done with; [serving] and [linking] say whether the network
    server and the linker's listen, [closed] whether the queue was closed. *)
Record GateServer := mkGateServer {
  app : App;
  inbound : list (ref * list Z);
  wg : Z;
  tasks : gmap nat task;
  accepted : list (ref * list Z);
  handled : list (ref * list Z);
  serving : bool;
  linking : bool;
  closed : bool;
  instance : option ServiceInstance;
  registry : RegState;
}.

Definition set_app x (g : GateServer) : GateServer :=
  mkGateServer x (inbound g) (wg g) (tasks g) (accepted g) (handled g) (serving g) (linking g)
    (closed g) (instance g) (registry g).
Definition set_wg x (g : GateServer) : GateServer :=
  mkGateServer (app g) (inbound g) x (tasks g) (accepted g) (handled g) (serving g) (linking g)
    (closed g) (instance g) (registry g).
Definition set_tasks x (g : GateServer) : GateServer :=
  mkGateServer (app g) (inbound g) (wg g) x (accepted g) (handled g) (serving g) (linking g)
    (closed g) (instance g) (registry g).
Definition set_queue x y z (g : GateServer) : GateServer :=
  mkGateServer (app g) x (wg g) (tasks g) y z (serving g) (linking g) (closed g) (instance g)
    (registry g).
Definition set_servers x y z (g : GateServer) : GateServer :=
  mkGateServer (app g) (inbound g) (wg g) (tasks g) (accepted g) (handled g) x y z (instance g)
    (registry g).
Definition set_registry x y (g : GateServer) : GateServer :=
  mkGateServer (app g) (inbound g) (wg g) (tasks g) (accepted g) (handled g) (serving g) (linking g)
    (closed g) x y.
Definition goes_on (t : nat) (k : task) (g : GateServer) : GateServer :=
  set_tasks (<[t := k]> (tasks g)) g.
Definition ends (t : nat) (g : GateServer) : GateServer := set_tasks (delete t (tasks g)) g.

Definition NewGate (w : World) (l : LocState) (n : NodeLink.Linker) (reg : RegState) : GateServer :=
  mkGateServer (mkApp (mkGate w Shut l [] []) n []) [] 0 ∅ [] [] false false false None reg.

Definition getState (g : GateServer) : Z := Gate.state (core (app g)).
Definition store_state (z : Z) (g : GateServer) : GateServer :=
  set_app (on_core (provider.SetState z) (app g)).1 g.

(** ** Life *)

Inductive stepped := Disabled | Crash | Next (g : GateServer).

(** The instance goes to the registry with the state of the gate; the process
    ends when the registry refuses it. *)
Definition register (i : ServiceInstance) (g : GateServer) : stepped :=
  let i := with_state (getState g) i in
  match reg_Register i (registry g) with
  | (r, None) => Next (set_registry (Some i) r g)
  | (r, Some _) => Crash
  end.
Definition registerServiceInstance (g : GateServer) : stepped := register self g.
Definition refreshServiceInstance (g : GateServer) : stepped :=
  match instance g with None => Next g | Some i => register i g end.
Definition deregisterServiceInstance (g : GateServer) : GateServer :=
  match instance g with
  | None => g
  | Some i => set_registry (Some i) (reg_Deregister i (registry g)).1 g
  end.

Definition Start (g : GateServer) : stepped :=
  if bool_decide (getState g ≠ Shut) then Next g
  else registerServiceInstance (set_servers true true (closed g) (store_state Work g)).

(** [Close] up to its last line, which waits until [wg] is 0. *)
Definition Close (g : GateServer) : stepped :=
  if bool_decide (getState g = Work ∨ getState g = Busy) then
    match refreshServiceInstance (store_state Hang g) with
    | Next g => Next (set_servers false false (closed g) g)
    | r => r
    end
  else Next g.

(** [Destroy] until it waits for the workers; the queue is closed once. *)
Definition Destroy (t : nat) (g : GateServer) : stepped :=
  if bool_decide (getState g ≠ Hang) then Next g
  else let g := deregisterServiceInstance (store_state Shut g) in
       Next (goes_on t TDraining (set_servers false (linking g) true g)).

(** ** Handlers *)

Definition handleConnect (t : nat) (r : ref) (g : GateServer) : GateServer :=
  goes_on t (TConnected r) (set_app (on_session (AddConn (Some r)) (app g)) (set_wg (wg g + 1) g)).

Definition handleDisconnect (t : nat) (r : ref) (g : GateServer) : GateServer :=
  goes_on t (TRemoved r) (set_app (on_session (RemConn (Some r)) (app g)) g).

(** A send to a closed channel panics. *)
Definition handleReceive (r : ref) (data : list Z) (g : GateServer) : stepped :=
  if closed g then Crash
  else if bool_decide ((length (inbound g) < receiveQueue)%nat)
  then Next (set_queue (inbound g ++ [(r, data)]) (accepted g ++ [(r, data)]) (handled g) g)
  else Next (set_app (on_session (upd r (conn_close true)) (app g)) g).

(** [bind] up to the session's. *)
Definition bind (t : nat) (cid uid : Z) (lobby : bool) (g : GateServer) : GateServer :=
  if bool_decide (cid <= 0 ∨ uid <= 0) then g else
  let '(w, e) := Session.Bind cid uid (session (core (app g))) in
  let g := set_app (on_session (λ _, w) (app g)) g in
  match e with Some _ => g | None => goes_on t (TBinding cid uid lobby) g end.

(** ** Steps

    The workers are the first [deliverWorkers] goroutines. *)
Inductive act :=
  | AStart
  | AClose
  | ADestroy (t : nat)
  | AConnect (t : nat) (r : ref)
  | ADisconnect (t : nat) (r : ref)
  | AReceive (r : ref) (data : list Z)
  | ATake (t : nat)
  | ABind (t : nat) (cid uid : Z) (lobby : bool)
  | AStep (t : nat).

Definition idle (t : nat) (g : GateServer) : bool := bool_decide (tasks g !! t = None).
Definition new_goroutine (t : nat) (g : GateServer) (r : stepped) : stepped :=
  if bool_decide ((deliverWorkers <= t)%nat) && idle t g then r else Disabled.

(** No worker holds a message. *)
Definition workers_idle (g : GateServer) : bool :=
  forallb (λ t, idle t g) (seq 0 deliverWorkers).

(** The end of a goroutine; [wg.Done] below 0 panics. *)
Definition end_task (t : nat) (k : task) (g : GateServer) : stepped :=
  match k with
  | TLeft _ _ => if bool_decide (wg g <= 0) then Crash else Next (ends t (set_wg (wg g - 1) g))
  | TDelivering r _ _ data =>
      Next (ends t (set_queue (inbound g) (accepted g) (handled g ++ [(r, data)]) g))
  | TDraining => Next (ends t (set_servers (serving g) false (closed g) g))
  | _ => Next (ends t g)
  end.

(** [Destroy] waits until the queue is empty and the workers are done. *)
Definition waiting (k : task) (g : GateServer) : bool :=
  match k with
  | TDraining => negb (bool_decide (inbound g = []) && workers_idle g)
  | _ => false
  end.

Definition exec (x : act) (g : GateServer) : stepped :=
  match x with
  | AStart => Start g
  | AClose => Close g
  | ADestroy t => new_goroutine t g (Destroy t g)
  | AConnect t r => new_goroutine t g (Next (handleConnect t r g))
  | ADisconnect t r => new_goroutine t g (Next (handleDisconnect t r g))
  | AReceive r data => handleReceive r data g
  | ATake t =>
      match inbound g with
      | (r, data) :: rest =>
          if bool_decide ((t < deliverWorkers)%nat) && idle t g
          then Next (goes_on t (TWorker r data) (set_queue rest (accepted g) (handled g) g))
          else Disabled
      | [] => Disabled
      end
  | ABind t cid uid lobby => new_goroutine t g (Next (bind t cid uid lobby g))
  | AStep t =>
      match tasks g !! t with
      | None => Disabled
      | Some k =>
          if waiting k g then Disabled else
          match task_step k (app g) with
          | None => Crash
          | Some (a, Some k) => Next (goes_on t k (set_app a g))
          | Some (a, None) => end_task t k (set_app a g)
          end
      end
  end.

Fixpoint run (l : list act) (g : GateServer) : stepped :=
  match l with
  | [] => Next g
  | x :: l => match exec x g with Next g => run l g | r => r end
  end.

Inductive reachable (g0 : GateServer) : GateServer → Prop :=
  | reachable_start : reachable g0 g0
  | reachable_exec x g g' : reachable g0 g → exec x g = Next g' → reachable g0 g'.

(** ** What tasks hold *)

Definition message_of (k : task) : option (ref * list Z) :=
  match k with
  | TWorker r data | TDelivering r _ _ data => Some (r, data)
  | _ => None
  end.
Definition leaving (k : task) : option unit :=
  match k with TRemoved _ | TLeaving _ _ | TLeft _ _ => Some () | _ => None end.
Definition held {A} (f : task → option A) (m : gmap nat task) : list A :=
  omap f (map_to_list m).*2.

Lemma held_by_new {A} (f : task → option A) m t k :
  m !! t = None → held f (<[t := k]> m) ≡ₚ option_list (f k) ++ held f m.
Proof.
  intros H. unfold held. rewrite (map_to_list_insert m t k H). cbn. by destruct (f k).
Qed.

Lemma held_by_next {A} (f : task → option A) m t k k' :
  m !! t = Some k → f k = f k' → held f (<[t := k']> m) ≡ₚ held f m.
Proof.
  intros H E. rewrite <- (insert_delete_id m t k H) at 2. rewrite <- insert_delete_eq.
  rewrite !held_by_new by apply lookup_delete_eq. by rewrite E.
Qed.

Lemma held_by_last {A} (f : task → option A) m t k :
  m !! t = Some k → held f m ≡ₚ option_list (f k) ++ held f (delete t m).
Proof.
  intros H. rewrite <- (insert_delete_id m t k H) at 1. apply held_by_new, lookup_delete_eq.
Qed.

(** A goroutine that goes on keeps what it holds, and stays a worker or not. *)
Lemma task_step_keeps k a a' k' :
  task_step k a = Some (a', Some k') → message_of k' = message_of k ∧ leaving k' = leaving k.
Proof.
  assert (Hn : ∀ e cid uid, notify e cid uid a ≠ Some (a', Some k')).
  { intros e cid uid. unfold notify. destruct connectionEvents; [|done].
    by destruct (proxy_trigger _ _ _ _) as [? []]. }
  destruct k as [r|r|cid uid|cid uid|cid uid l|cid uid l|cid uid|cid uid|cid uid|r d|r cid uid d|];
    cbn [task_step message_of leaving];
    unfold disconnect_ids, disconnect_unbind, bind_gate, bind_lobby, bind_rollback, worker_ids,
      worker_deliver; intros H;
    try (by destruct (Hn _ _ _ H)); try (by simplify_eq).
  - by destruct (proxy_bindGate cid uid a) as [? []]; simplify_eq.
  - destruct l; [|by simplify_eq]. destruct (proxy_bindLobby uid a) as [? []]; simplify_eq; [done|].
    by case_bool_decide.
  - by destruct (proxy_deliver r cid uid d a) as [? []].
Qed.

Lemma idle_spec t g : idle t g = true ↔ tasks g !! t = None.
Proof. apply bool_decide_eq_true. Qed.

Lemma new_goroutine_Next t g r g' :
  new_goroutine t g r = Next g' → (deliverWorkers <= t)%nat ∧ tasks g !! t = None ∧ r = Next g'.
Proof.
  unfold new_goroutine. case_bool_decide; cbn; [|done]. destruct (idle t g) eqn:E; [|done].
  intros ->. by rewrite idle_spec in E.
Qed.

(** ** The queue *)

Definition same_queue (g g' : GateServer) : Prop :=
  inbound g' = inbound g ∧ accepted g' = accepted g ∧ handled g' = handled g.

Record queue_ok (g : GateServer) : Prop := {
  qo_all : accepted g ≡ₚ handled g ++ held message_of (tasks g) ++ inbound g;
  qo_workers t k : tasks g !! t = Some k → is_Some (message_of k) ↔ (t < deliverWorkers)%nat;
  qo_fifo : deliverWorkers = 1%nat →
    accepted g = handled g ++ option_list (tasks g !! 0%nat ≫= message_of) ++ inbound g;
}.

Lemma queue_ok_same g g' : queue_ok g → same_queue g g' → tasks g' = tasks g → queue_ok g'.
Proof. intros [H1 H2 H3] (E1 & E2 & E3) Et. by split; rewrite ?E1, ?E2, ?E3, ?Et. Qed.

Lemma queue_ok_spawn g g' t k :
  queue_ok g → same_queue g g' → tasks g !! t = None → (deliverWorkers <= t)%nat →
  message_of k = None → tasks g' = <[t := k]> (tasks g) → queue_ok g'.
Proof.
  intros [H1 H2 H3] (E1 & E2 & E3) Hf Ht Hk Et.
  split; rewrite ?E1, ?E2, ?E3, ?Et.
  - by rewrite held_by_new, Hk.
  - intros t' k'. rewrite lookup_insert_Some. intros [[<- <-]|[_ H]]; [|eauto].
    rewrite Hk. split; [by intros []|lia].
  - intros E. rewrite H3 by done. rewrite lookup_insert_ne by lia. done.
Qed.

Lemma queue_ok_on g g' t k k' :
  queue_ok g → same_queue g g' → tasks g !! t = Some k → message_of k' = message_of k →
  tasks g' = <[t := k']> (tasks g) → queue_ok g'.
Proof.
  intros [H1 H2 H3] (E1 & E2 & E3) Hk Em Et.
  split; rewrite ?E1, ?E2, ?E3, ?Et.
  - by rewrite (held_by_next _ _ _ k) by done.
  - intros t' k''. rewrite lookup_insert_Some. intros [[<- <-]|[_ H]]; [|eauto].
    rewrite Em. eauto.
  - intros E. rewrite H3 by done. destruct (decide (t = 0%nat)) as [->|].
    + rewrite lookup_insert_eq, Hk. cbn. by rewrite Em.
    + by rewrite lookup_insert_ne.
Qed.

Lemma queue_ok_end g g' t k :
  queue_ok g → same_queue g g' → tasks g !! t = Some k → message_of k = None →
  tasks g' = delete t (tasks g) → queue_ok g'.
Proof.
  intros [H1 H2 H3] (E1 & E2 & E3) Hk Em Et.
  split; rewrite ?E1, ?E2, ?E3, ?Et.
  - rewrite H1. by rewrite (held_by_last _ _ _ _ Hk), Em.
  - intros t' k'. rewrite lookup_delete_Some. intros [_ H]; eauto.
  - intros E. rewrite H3 by done. destruct (decide (t = 0%nat)) as [->|].
    + rewrite lookup_delete_eq, Hk. cbn. by rewrite Em.
    + by rewrite lookup_delete_ne.
Qed.

Lemma queue_ok_handled g t r d cid uid x :
  queue_ok g → tasks g !! t = Some (TDelivering r cid uid d) →
  queue_ok (ends t (set_queue (inbound g) (accepted g) (handled g ++ [(r, d)]) (set_app x g))).
Proof.
  intros [H1 H2 H3] Hk. split; cbn.
  - rewrite H1, (held_by_last _ _ _ _ Hk). cbn. solve_Permutation.
  - intros t' k'. rewrite lookup_delete_Some. intros [_ H]; eauto.
  - intros E. rewrite H3 by done.
    assert (t = 0%nat) as -> by (apply H2 in Hk; cbn in Hk; destruct Hk as [Hk _]; specialize (Hk ltac:(done)); lia).
    rewrite lookup_delete_eq, Hk. cbn. by rewrite <- app_assoc.
Qed.

Lemma queue_ok_take g t r d rest :
  queue_ok g → inbound g = (r, d) :: rest → (t < deliverWorkers)%nat → tasks g !! t = None →
  queue_ok (goes_on t (TWorker r d) (set_queue rest (accepted g) (handled g) g)).
Proof.
  intros [H1 H2 H3] Hi Ht Hf. split; cbn.
  - rewrite H1, held_by_new, Hi by done. cbn. solve_Permutation.
  - intros t' k'. rewrite lookup_insert_Some. intros [[<- <-]|[_ H]]; [done|eauto].
  - intros E. rewrite H3 by done. assert (t = 0%nat) as -> by lia.
    rewrite lookup_insert_eq, Hf, Hi. done.
Qed.

Lemma queue_ok_receive g r d :
  queue_ok g → queue_ok (set_queue (inbound g ++ [(r, d)]) (accepted g ++ [(r, d)]) (handled g) g).
Proof.
  intros [H1 H2 H3]. split; cbn; [|done|].
  - rewrite H1. by rewrite <- !app_assoc.
  - intros E. rewrite H3 by done. by rewrite <- !app_assoc.
Qed.

Lemma announce_keeps i g g' :
  register i g = Next g' → same_queue g g' ∧ tasks g' = tasks g ∧ wg g' = wg g ∧ closed g' = closed g.
Proof. unfold register. destruct (reg_Register _ _) as [r []]; by intros [= <-]. Qed.

Lemma Start_keeps g g' :
  Start g = Next g' → same_queue g g' ∧ tasks g' = tasks g ∧ wg g' = wg g ∧ closed g' = closed g.
Proof.
  unfold Start. case_bool_decide; [by intros [= <-]|].
  intros E%announce_keeps. exact E.
Qed.

Lemma Close_keeps g g' :
  Close g = Next g' → same_queue g g' ∧ tasks g' = tasks g ∧ wg g' = wg g ∧ closed g' = closed g.
Proof.
  unfold Close. case_bool_decide; [|by intros [= <-]].
  destruct (refreshServiceInstance _) as [| |g1] eqn:E; [done..|]. intros [= <-].
  unfold refreshServiceInstance in E. cbn in E. destruct (instance g); [|by injection E as <-].
  apply announce_keeps in E. exact E.
Qed.

(** One step and what it does to the queue. *)
Lemma exec_queue_ok x g g' : queue_ok g → exec x g = Next g' → queue_ok g'.
Proof.
  intros Hq. destruct x as [| |t|t r|t r|r d|t|t cid uid lobby|t]; cbn [exec].
  - intros (E & Et & _)%Start_keeps. by eapply queue_ok_same.
  - intros (E & Et & _)%Close_keeps. by eapply queue_ok_same.
  - intros (Ht & Hf & E)%new_goroutine_Next. revert E. unfold Destroy.
    case_bool_decide; intros [= <-]; [done|].
    eapply (queue_ok_spawn g _ t TDraining); [done| |done..|];
      unfold deregisterServiceInstance; cbn; by destruct (instance g).
  - intros (Ht & Hf & [= <-])%new_goroutine_Next. by eapply (queue_ok_spawn g _ t (TConnected r)).
  - intros (Ht & Hf & [= <-])%new_goroutine_Next. by eapply (queue_ok_spawn g _ t (TRemoved r)).
  - unfold handleReceive. destruct (closed g); [done|]. case_bool_decide; intros [= <-].
    + by apply queue_ok_receive.
    + by eapply queue_ok_same.
  - destruct (inbound g) as [|[r d] rest] eqn:E; [done|].
    destruct (bool_decide_reflect (t < deliverWorkers)%nat); cbn; [|done].
    destruct (idle t g) eqn:Hi; [|done]. apply idle_spec in Hi. intros [= <-].
    by apply queue_ok_take.
  - intros (Ht & Hf & [= <-])%new_goroutine_Next. unfold bind. case_bool_decide; [done|].
    destruct (Session.Bind _ _ _) as [w [e|]]; [by eapply queue_ok_same|].
    by eapply (queue_ok_spawn g _ t (TBinding cid uid lobby)).
  - destruct (tasks g !! t) as [k|] eqn:Hk; [|done]. destruct (waiting k g); [done|].
    destruct (task_step k (app g)) as [[a [k'|]]|] eqn:Es; [| |done].
    + intros [= <-]. apply task_step_keeps in Es as [Em _]. by eapply queue_ok_on.
    + destruct k; cbn [end_task]; try (intros [= <-]; by eapply queue_ok_end).
      * case_bool_decide; intros [= <-]. by eapply queue_ok_end.
      * intros [= <-]. by eapply queue_ok_handled.
Qed.

(** Where a gate begins: nothing runs and nothing was received. *)
Definition at_rest (g : GateServer) : Prop :=
  tasks g = ∅ ∧ inbound g = [] ∧ accepted g = [] ∧ handled g = [].

Lemma reachable_queue_ok g0 g : at_rest g0 → reachable g0 g → queue_ok g.
Proof.
  intros (E1 & E2 & E3 & E4). induction 1; [|by eapply exec_queue_ok].
  by split; rewrite E1, ?E2, ?E3, ?E4.
Qed.

(** ** The wait group *)

Definition opened (x : act) : Z :=
  match x with AConnect _ _ => 1 | ADisconnect _ _ => -1 | _ => 0 end.
(** The connections reported open less those reported closed. *)
Definition open_conns (l : list act) : Z := foldr (λ x n, opened x + n) 0 l.
Definition leaving_count (g : GateServer) : Z := Z.of_nat (length (held leaving (tasks g))).

Lemma leaving_spawn g t k :
  tasks g !! t = None →
  leaving_count (goes_on t k g) = Z.of_nat (length (option_list (leaving k))) + leaving_count g.
Proof. intros H. unfold leaving_count. cbn. rewrite held_by_new by done. rewrite length_app. lia. Qed.

Lemma leaving_on g t k k' x :
  tasks g !! t = Some k → leaving k' = leaving k →
  leaving_count (goes_on t k' (set_app x g)) = leaving_count g.
Proof. intros H E. unfold leaving_count. cbn. by rewrite (held_by_next _ _ _ k). Qed.

Lemma leaving_end g t k :
  tasks g !! t = Some k →
  leaving_count g = Z.of_nat (length (option_list (leaving k))) + leaving_count (ends t g).
Proof. intros H. unfold leaving_count. cbn. rewrite (held_by_last _ _ _ _ H), length_app. lia. Qed.

Lemma exec_wg x g g' :
  exec x g = Next g' → wg g' - leaving_count g' = wg g - leaving_count g + opened x.
Proof.
  destruct x as [| |t|t r|t r|r d|t|t cid uid lobby|t]; cbn [exec opened].
  - intros (_ & Et & Ew & _)%Start_keeps. unfold leaving_count. rewrite Et, Ew. lia.
  - intros (_ & Et & Ew & _)%Close_keeps. unfold leaving_count. rewrite Et, Ew. lia.
  - intros (_ & Hf & E)%new_goroutine_Next. revert E. unfold Destroy.
    case_bool_decide; intros [= <-]; [lia|]. rewrite leaving_spawn.
    + unfold deregisterServiceInstance, leaving_count. cbn. destruct (instance g); cbn; lia.
    + unfold deregisterServiceInstance. cbn. by destruct (instance g).
  - intros (_ & Hf & [= <-])%new_goroutine_Next. unfold handleConnect.
    rewrite leaving_spawn by done. unfold leaving_count. cbn. lia.
  - intros (_ & Hf & [= <-])%new_goroutine_Next. unfold handleDisconnect.
    rewrite leaving_spawn by done. unfold leaving_count. cbn. lia.
  - unfold handleReceive. destruct (closed g); [done|]. case_bool_decide; intros [= <-];
      unfold leaving_count; cbn; lia.
  - destruct (inbound g) as [|[r d] rest] eqn:E; [done|].
    destruct (bool_decide_reflect (t < deliverWorkers)%nat); cbn; [|done].
    destruct (idle t g) eqn:Hi; [|done]. apply idle_spec in Hi. intros [= <-].
    rewrite leaving_spawn by done. unfold leaving_count. cbn. lia.
  - intros (_ & Hf & [= <-])%new_goroutine_Next. unfold bind. case_bool_decide; [lia|].
    destruct (Session.Bind _ _ _) as [w [e|]]; [unfold leaving_count; cbn; lia|].
    rewrite leaving_spawn by done. unfold leaving_count. cbn. lia.
  - destruct (tasks g !! t) as [k|] eqn:Hk; [|done]. destruct (waiting k g); [done|].
    destruct (task_step k (app g)) as [[a [k'|]]|] eqn:Es; [| |done].
    + intros [= <-]. apply task_step_keeps in Es as [_ El]. rewrite (leaving_on _ _ k) by done.
      cbn. lia.
    + pose proof (leaving_end g t k Hk) as El. revert El.
      destruct k; try (cbn in Es; discriminate Es); cbn [end_task]; try case_bool_decide;
        intros El [= <-];
        revert El; unfold leaving_count; cbn; lia.
Qed.

(** What [Close] waits for. *)
Lemma run_wg l g g' :
  run l g = Next g' → wg g' - leaving_count g' = wg g - leaving_count g + open_conns l.
Proof.
  unfold open_conns.
  revert g; induction l as [|x l IH]; intros g; cbn; [intros [= <-]; lia|].
  destruct (exec x g) as [| |g1] eqn:E; [done..|]. intros H%IH. apply exec_wg in E. lia.
Qed.

Lemma rest_wg l g0 g :
  tasks g0 = ∅ → wg g0 = 0 → run l g0 = Next g → wg g = open_conns l + leaving_count g.
Proof.
  intros H0 Hw H%run_wg. rewrite Hw in H. unfold leaving_count in H at 2. rewrite H0 in H.
  unfold held in H. rewrite map_to_list_empty in H. cbn in H. lia.
Qed.

Lemma run_then l1 l2 g : run (l1 ++ l2) g = match run l1 g with Next g => run l2 g | r => r end.
Proof. revert g; induction l1 as [|x l IH]; intros g; cbn; [done|]. by destruct (exec x g). Qed.

Lemma runs_reach l g g' : run l g = Next g' → reachable g g'.
Proof.
  revert g'. induction l as [|x l IH] using rev_ind; intros g'; [intros [= <-]; constructor|].
  rewrite run_then. destruct (run l g) as [| |g1] eqn:E; [done..|]. cbn.
  destruct (exec x g1) as [| |g2] eqn:E2; [done..|]. intros [= <-]. econstructor; eauto.
Qed.

Lemma held_none {A} (f : task → option A) m :
  (∀ t k, m !! t = Some k → f k = None) → held f m = [].
Proof.
  intros H. unfold held. assert (Hf : ∀ k, k ∈ (map_to_list m).*2 → f k = None).
  { intros k ([t k'] & -> & Hk%elem_of_map_to_list)%list_elem_of_fmap. eauto. }
  induction ((map_to_list m).*2) as [|k l IH]; [done|]. cbn.
  rewrite Hf by left. apply IH. intros k' Hk'. apply Hf. by right.
Qed.

Lemma workers_idle_spec g :
  workers_idle g = true ↔ ∀ t, (t < deliverWorkers)%nat → tasks g !! t = None.
Proof.
  unfold workers_idle. rewrite forallb_forall. setoid_rewrite in_seq. setoid_rewrite idle_spec.
  split; intros H t Ht; apply H; lia.
Qed.

(** ** Theorems *)

(** A message that the worker [t] takes, with nothing in between. *)
Lemma take_deliver_eq t r data rest g :
  inbound g = (r, data) :: rest → (t < deliverWorkers)%nat → tasks g !! t = None →
  run [ATake t; AStep t; AStep t] g =
  match proxy_deliver r (ID (conn_of r (app g))) (UID (conn_of r (app g))) data (app g) with
  | (_, Panic) => Crash
  | (a, _) => Next (set_queue rest (accepted g) (handled g ++ [(r, data)]) (set_app a g))
  end.
Proof.
  intros Hi Ht Hf. cbn [run exec]. rewrite Hi, bool_decide_true by done.
  unfold idle. rewrite bool_decide_true by done. cbn [andb].
  cbn. rewrite lookup_insert_eq. cbn. rewrite lookup_insert_eq. cbn. unfold worker_deliver.
  destruct (proxy_deliver _ _ _ _ _) as [a [u|e|]]; [| |done]; unfold ends, set_tasks; cbn;
    by rewrite !delete_insert_eq, delete_id.
Qed.

(** C7. What becomes of a client's packet, whose connection is bound to the user
    [u] when a worker takes it (not when it was received): a packet that is not
    a whole message is dropped; a message for game 0 goes to the application's
    dispatcher, if there is one, whoever sent it, and to no node; of an unbound
    connection, nothing else passes; a bound user's message goes to the node the
    user is bound to in the group of the message's game, with the connection and
    the user, the data being the packet as it was received.  In each case the
    session is left alone, the message is counted as handled and the worker is
    free again. *)
Theorem client_messages_forwarded t r data rest g :
  inbound g = (r, data) :: rest → (t < deliverWorkers)%nat → tasks g !! t = None →
  let cid := ID (conn_of r (app g)) in
  let u := UID (conn_of r (app g)) in
  let done_with l up := Next (set_queue rest (accepted g) (handled g ++ [(r, data)])
                                (set_app (mkApp (core (app g)) l up) g)) in
  let l := linker (app g) in
  let up := uplinked (app g) in
  let result := run [ATake t; AStep t; AStep t] g in
  (∀ e, Packet.UnpackMessage packing data = Ok None ∨ Packet.UnpackMessage packing data = Err e →
   result = done_with l up) ∧
  (∀ m n, Packet.UnpackMessage packing data = Ok (Some (m, n)) →
   (Packet.GameID m = 0 → result = done_with l (if messageDispatcher then up ++ [(r, m)] else up)) ∧
   (Packet.GameID m ≠ 0 → u = 0 → result = done_with l up) ∧
   (∀ route b, Packet.GameID m ≠ 0 → u ≠ 0 → is_Some (NodeLink.locator l) →
    FindGameRoute (Packet.GameID m) (disp l) = Ok route →
    doLoadSource u (group route) l = Some b → NID b ≠ [] →
    match endpoints5 (r_abstract route) !! NID b with
    | Some se =>
        let addr := Address (endpoint se) in
        (net_Build addr (net l)).2 = None →
        result = done_with (NodeLink.sent addr (NodeLink.Metadata b) (client_args cid u m data)
                              (Tree.NewNocopyBuffer [inl (BRaw data)]) l).1 up
    | None => result = done_with (release l).1 up
    end)).
Proof.
  intros Hi Ht Hf cid u done_with l up result. unfold result.
  rewrite (take_deliver_eq t r data rest g) by done. fold cid u. unfold proxy_deliver, done_with.
  split; [intros e [-> | ->]; by destruct (app g)|].
  intros m n ->. unfold GateGameID. split_and!.
  - intros Hg. rewrite bool_decide_true by done. unfold dispatchGateMessage, up, l.
    destruct messageDispatcher; [done|by destruct (app g)].
  - intros Hg Hu. rewrite bool_decide_false, bool_decide_true by done. by destruct (app g).
  - intros route b Hg Hu Hl Hr Hb Hn. rewrite !bool_decide_false by done. unfold on_linker. fold l up.
    destruct (messages_follow_bindings gid IntN resolveServiceStatus packing
      (client_args cid u m data) (Tree.NewNocopyBuffer [inl (BRaw data)]) l eq_refl) as [_ H].
    specialize (H route b eq_refl Hu Hl Hr Hb Hn).
    destruct (endpoints5 (r_abstract route) !! NID b) as [se|]; [|by rewrite H].
    intros Hbuild. specialize (H Hbuild). cbv zeta in H. rewrite H.
    destruct (NodeLink.sent _ _ _ _ _) as [l' e]. cbn. destruct e as [e|]; cbn; [|done].
    unfold forgiven. by case_bool_decide.
Qed.

(** A goroutine's next action, when it is its turn. *)
Lemma task_alone t k l g :
  k ≠ TDraining →
  run (AStep t :: l) (goes_on t k g) =
  match task_step k (app g) with
  | None => Crash
  | Some (a, Some k') => run l (goes_on t k' (set_app a g))
  | Some (a, None) =>
      match end_task t k (goes_on t k (set_app a g)) with Next g => run l g | x => x end
  end.
Proof.
  intros Hk. cbn. rewrite lookup_insert_eq.
  replace (waiting k (goes_on t k g)) with false by (by destruct k).
  destruct (task_step k (app g)) as [[a [k'|]]|]; [|done..].
  unfold goes_on, set_tasks, set_app. cbn. by rewrite insert_insert_eq.
Qed.

Lemma RemConn_heap r w : heap (RemConn (Some r) w) = heap w.
Proof.
  unfold RemConn. cbn. case_bool_decide; [|done]. unfold drop_user. cbn.
  destruct (_ !! _) as [cur|]; [|done]. by case_bool_decide.
Qed.

Lemma conn_of_removed r a : conn_of r (on_session (RemConn (Some r)) a) = conn_of r a.
Proof. unfold conn_of. cbn -[RemConn]. by rewrite RemConn_heap. Qed.

Lemma unbound_if (f : World → World) (u cid : Z) a :
  (if bool_decide (u ≠ 0) then (proxy_unbindGate cid u (on_session f a)).1 else on_session f a) =
  let c := set_session (f (session (core a))) (core a) in
  mkApp (if bool_decide (u ≠ 0) then set_locator (UnbindGate u gid (Gate.locator c)).1 c else c)
    (linker a) (uplinked a).
Proof.
  cbv zeta. case_bool_decide; [|done]. unfold proxy_unbindGate, on_core, unbindGate, on_locator. cbn.
  by destruct (UnbindGate _ _ _).
Qed.

(** The last action of a disconnection. *)
Lemma left_ends t cid u x y z y' g :
  tasks g !! t = None → 0 < wg g →
  end_task t (TLeft cid u)
    (goes_on t (TLeft cid u) (set_app x (set_app y (set_app z (set_app y' g))))) =
  Next (set_wg (wg g - 1) (set_app x g)).
Proof.
  intros Hf Hw. cbn. rewrite bool_decide_false by lia. unfold ends, set_tasks. cbn.
  by rewrite delete_insert_id.
Qed.

(** C8. A connection that closes, when nothing comes in between, is dropped from
    the session; the locator is told exactly if a user was bound to it; the
    nodes that listen for disconnections are told, if events are on; and it
    counts no more for [Close].  Whatever comes in between, [Close] waits for
    the connections that are open and for the handlers of closed ones that have
    not ended. *)
Theorem disconnects_clean_up t r g :
  (deliverWorkers <= t)%nat → tasks g !! t = None → 0 < wg g →
  let u := UID (conn_of r (app g)) in
  let cid := ID (conn_of r (app g)) in
  let w := RemConn (Some r) (session (core (app g))) in
  let c := set_session w (core (app g)) in
  let a := mkApp (if bool_decide (u ≠ 0)
                  then set_locator (UnbindGate u gid (Gate.locator c)).1 c else c)
                 (linker (app g)) (uplinked (app g)) in
  run [ADisconnect t r; AStep t; AStep t; AStep t] g =
  (if connectionEvents then
     match NodeLink.Trigger Disconnect cid u (linker a) with
     | (_, Panic) => Crash
     | (l, _) => Next (set_wg (wg g - 1) (set_app (mkApp (core a) l (uplinked a)) g))
     end
   else Next (set_wg (wg g - 1) (set_app a g))) ∧
  (∀ g0 l, at_rest g0 → wg g0 = 0 → run l g0 = Next g →
   wg g = open_conns l + leaving_count g).
Proof.
  intros Ht Hf Hw u cid w c a. split; [|by intros g0 l (H0 & _); apply rest_wg].
  assert (E : run [ADisconnect t r; AStep t; AStep t; AStep t] g =
              run [AStep t; AStep t; AStep t] (handleDisconnect t r g)).
  { cbn [run exec]. unfold new_goroutine, idle. by rewrite !bool_decide_true. }
  rewrite E. unfold handleDisconnect. rewrite task_alone by done.
  cbn [task_step disconnect_ids disconnect_unbind].
  change (app (set_app ?x _)) with x. rewrite conn_of_removed. fold cid u.
  rewrite task_alone by done.
  cbn [task_step disconnect_ids disconnect_unbind]. change (app (set_app ?x _)) with x.
  rewrite task_alone by done.
  cbn [task_step disconnect_ids disconnect_unbind]. change (app (set_app ?x _)) with x.
  rewrite unbound_if. fold w c a. unfold notify, proxy_trigger, on_linker.
  destruct connectionEvents; [|by rewrite left_ends].
  change (linker (mkApp _ ?x _)) with x. cbn [linker uplinked core a].
  destruct (NodeLink.Trigger _ _ _ _) as [l [x|e|]]; cbn [fst snd logged]; [..|done];
    by rewrite left_ends.
Qed.
End gate_server.

(** ** Examples

    A gate with the two connections of [example_world], 11 (user 100) and 12,
    linked to nodes as [NodeLink.linked]; user 7 is bound to node "a". *)
#[local] Existing Instance Gate.example_options.
#[local] Existing Instance Gate.example_locator.
#[local] Existing Instance NodeLink.example_locator.
#[local] Existing Instance NodeLink.example_net.
#[local] Existing Instance NodeLink.example_codec.
#[local] Existing Instance Dispatcher.example_url.
#[local] Existing Instance default_alloc.
#[local] Existing Instance NodeServer.example_registry.

Definition gate_self : ServiceInstance :=
  mkInstance (text "g") (text "gate") (text "gate") (text "gate") [] [] [] [] (text "grpc://g:1")
    1 0 (text "1.0.0") None.
Definition new_gate : GateServer :=
  NewGate (initial (λ r, new_conn (10 + Z.pos r))) (∅ : gmap Z (list Z)) NodeLink.linked
    (∅ : @RegState NodeServer.example_registry).
Definition run_gate (workers : nat) (l : list act) (g : GateServer) : stepped :=
  run (λ _, 0) (λ _, ServiceStatusNormal) Packet.defaultOptions 4 workers true gate_self l g.

Definition outcome_of {A} (f : GateServer → A) (x : stepped) : option A :=
  match x with Next g => Some (f g) | _ => None end.

Definition gate_packet (game message : Z) (data : list Z) : list Z :=
  packet (Packet.byteOrder Packet.defaultOptions) 0 (Packet.mkMessage 1 game message data).

(** The message numbers of packets. *)
Definition numbers (l : list (ref * list Z)) : list Z :=
  (λ x, match Packet.UnpackMessage Packet.defaultOptions x.2 with
        | Ok (Some (m, _)) => Packet.MessageID m | _ => -1 end) <$> l.

(** Connection 11 opens and binds user 8, who then sends two messages to game 1. *)
Definition user_arrives (t : nat) (r : ref) (uid : Z) : list act :=
  [AConnect t r; AStep t; ABind t (10 + Z.pos r) uid false; AStep t; AStep t; AStep t].
Definition busy_gate : list act :=
  AStart :: user_arrives 10 1%positive 8 ++
  [AReceive 1%positive (gate_packet 1 7 [5]); AReceive 1%positive (gate_packet 1 8 [6])].

Lemma busy_gate_runs :
  outcome_of (λ g, (numbers (inbound g), wg g, users (ses (session (core (app g)))) !! 8,
                    Gate.locator (core (app g)) !! 8)) (run_gate 1 busy_gate new_gate) =
  Some ([7; 8], 1, Some 1%positive, Some [103]).
Proof. by vm_compute. Qed.

(** The default is as many workers as there are processors: two workers change
    the order of two messages of a connection. *)
Lemma two_workers_reorder :
  outcome_of (λ g, (numbers (accepted g), numbers (handled g)))
    (run_gate 2 (busy_gate ++ [ATake 0; AStep 0; ATake 1; AStep 1; AStep 1; AStep 0]) new_gate) =
  Some ([7; 8], [8; 7]).
Proof. by vm_compute. Qed.

(** A user who reconnects while the handler of the old connection runs: the
    handler read the user's id before, and unbinds the user afterwards.  The user
    is connected here and the locator does not know. *)
Lemma late_unbinding :
  outcome_of (λ g, (users (ses (session (core (app g)))) !! 8, Gate.locator (core (app g)) !! 8))
    (run_gate 1 (busy_gate ++ [ADisconnect 11 1%positive; AStep 11] ++ user_arrives 12 2%positive 8 ++
       [AStep 11; AStep 11]) new_gate) =
  Some (Some 2%positive, None).
Proof. by vm_compute. Qed.

(** A message after the queue was closed. *)
Lemma late_message_crashes :
  run_gate 1 (busy_gate ++ [AClose; ADestroy 20; AReceive 1%positive (gate_packet 1 9 [])]) new_gate
  = Crash.
Proof. by vm_compute. Qed.

(** A state set by a remote call is not announced, and takes [Close] away. *)
Lemma remote_state_is_not_announced :
  outcome_of (λ g, let g := store_state Hang g in
                   (ins_State <$> instance g, outcome_of serving (Close g)))
    (run_gate 1 busy_gate new_gate) = Some (Some (text "work"), Some true).
Proof. by vm_compute. Qed.

(** ** Witnesses *)

Definition drained_gate : list act :=
  busy_gate ++ [AClose; ADestroy 20; ATake 0; AStep 0; AStep 0; ATake 0; AStep 0; AStep 0].

Lemma new_gate_at_rest : at_rest new_gate.
Proof. repeat split. Qed.
Lemma one_below_eleven : (1 <= 11)%nat.
Proof. lia. Qed.


Lemma disconnects_clean_up_witness :
  (∀ g, run_gate 1 busy_gate new_gate = Next g → wg g = 1) ∧
  outcome_of (λ g, (wg g, users (ses (session (core (app g)))) !! 8,
                    Gate.locator (core (app g)) !! 8))
    (run_gate 1 (busy_gate ++ [ADisconnect 11 1%positive; AStep 11; AStep 11; AStep 11]) new_gate) =
    Some (0, None, None).
Proof.
  split; [|by vm_compute]. intros g Hg.
  assert (Ht : outcome_of (λ g, (tasks g !! 11%nat, bool_decide (0 < wg g), leaving_count g))
                 (run_gate 1 busy_gate new_gate) = Some (None, true, 0)) by (by vm_compute).
  rewrite Hg in Ht. injection Ht as Ht Hw Hl. apply bool_decide_eq_true in Hw.
  unfold run_gate in Hg.
  destruct (disconnects_clean_up (λ _, 0) (λ _, ServiceStatusNormal) Packet.defaultOptions 4 1 true
    gate_self 11 1%positive g one_below_eleven Ht Hw) as [_ H].
  rewrite (H new_gate busy_gate new_gate_at_rest eq_refl Hg), Hl. reflexivity.
Defined.

(** A gate with one message in the queue, of a connection bound to user 8. *)
Definition forwarding_gate : GateServer :=
  set_queue [(1%positive, gate_packet 1 7 [5])] [] []
    (set_app (on_session (upd 1%positive (conn_Bind 8)) (app new_gate)) new_gate).

Lemma client_messages_forwarded_witness :
  ∃ g, run_gate 1 [ATake 0; AStep 0; AStep 0] forwarding_gate = Next g ∧
    net (linker (app g)) = [(text "grpc://127.0.0.1:8001", 11, 8)] ∧ numbers (handled g) = [7].
Proof.
  destruct (client_messages_forwarded (λ _, 0) (λ _, ServiceStatusNormal) Packet.defaultOptions 4 1
    true gate_self 0 1%positive (gate_packet 1 7 [5]) [] forwarding_gate eq_refl (le_n 1) eq_refl)
    as [_ H].
  assert (Em : Packet.UnpackMessage Packet.defaultOptions (gate_packet 1 7 [5]) =
    Ok (Some (Packet.mkMessage 1 1 7 [5], 21))) by (by vm_compute).
  destruct (H _ _ Em) as (_ & _ & Hb). clear H.
  destruct linked_lobby_of_8 as (route & se & Hr & Hg & He & Ha).
  specialize (Hb route (mkBinding (text "b") None) ltac:(done) ltac:(done)
    ltac:(by vm_compute; eexists) Hr Hg ltac:(done)).
  cbn [NID] in Hb. rewrite He in Hb. cbv zeta in Hb. rewrite Ha in Hb. specialize (Hb eq_refl).
  eexists. split; [exact Hb|]. split; by vm_compute.
Defined.
