(* ===== verification/Ring.v ===== *)
(** * utils/xbuffer/xring: the ring buffer

    xring_buffer.go, and CeilToPowerOfTwo of utils/xmath.
    A ring is a block of bytes with a read and a write position; [contents] is
    what it holds.  Blocks come from a pool with whatever was in them: [fresh]
    gives the block for a size.  Readers and writers ([io.Reader],
    [io.Writer]) are functions of a state of their own. *)
From S2P Require Import Prelude.
#[local] Close Scope nat_scope.
Open Scope Z_scope.

(** ** utils/xmath *)

Definition bits_Len (x : Z) : Z := if bool_decide (x = 0) then 0 else Z.log2 x + 1.
Definition maxintHeadBit : Z := 2 ^ 62.

Definition CeilToPowerOfTwo (n : Z) : outcome Z :=
  if bool_decide (Z.land n maxintHeadBit ≠ 0 ∧ maxintHeadBit < n) then Panic
  else if bool_decide (n <= 2) then Ok 2
  else Ok (Z.shiftl 1 (bits_Len (n - 1))).

(** ** The ring *)

Definition MinRead : Z := 512.
Definition DefaultBufferSize : Z := 1024.
Definition bufferGrowThreshold : Z := 4 * 1024.

Record XBuffer := mkRing { buf : list Z; size : Z; r : Z; w : Z; isEmpty : bool }.

Definition set_r x (rb : XBuffer) : XBuffer := mkRing (buf rb) (size rb) x (w rb) (isEmpty rb).
Definition set_w x (rb : XBuffer) : XBuffer := mkRing (buf rb) (size rb) (r rb) x (isEmpty rb).
Definition set_buf x (rb : XBuffer) : XBuffer := mkRing x (size rb) (r rb) (w rb) (isEmpty rb).
Definition not_empty (rb : XBuffer) : XBuffer := mkRing (buf rb) (size rb) (r rb) (w rb) false.

Definition New (n : Z) : outcome XBuffer :=
  if bool_decide (n = 0) then Ok (mkRing [] 0 0 0 true) else
  n ← CeilToPowerOfTwo n; Ok (mkRing (replicate (Z.to_nat n) 0) n 0 0 true).

Definition Reset (rb : XBuffer) : XBuffer := mkRing (buf rb) (size rb) 0 0 true.
(** The end of a read: an emptied ring starts again at 0. *)
Definition reset_if_drained (rb : XBuffer) : XBuffer :=
  if bool_decide (r rb = w rb) then Reset rb else rb.

Definition Buffered (rb : XBuffer) : Z :=
  if bool_decide (r rb = w rb) then (if isEmpty rb then 0 else size rb)
  else if bool_decide (r rb < w rb) then w rb - r rb
  else size rb - r rb + w rb.
Definition Available (rb : XBuffer) : Z :=
  if bool_decide (r rb = w rb) then (if isEmpty rb then size rb else 0)
  else if bool_decide (w rb < r rb) then r rb - w rb
  else size rb - w rb + r rb.
Definition Len (rb : XBuffer) : Z := len (buf rb).
Definition Cap (rb : XBuffer) : Z := size rb.
Definition IsFull (rb : XBuffer) : bool := bool_decide (r rb = w rb) && negb (isEmpty rb).
Definition IsEmpty (rb : XBuffer) : bool := isEmpty rb.

(** The bytes read are returned as one list where the code copies them. *)
Definition peekAll (rb : XBuffer) : outcome (list Z * list Z) :=
  if isEmpty rb then Ok ([], []) else
  if bool_decide (r rb < w rb) then head ← slice (buf rb) (r rb) (w rb); Ok (head, []) else
  head ← slice_from (buf rb) (r rb);
  tail ← (if bool_decide (w rb ≠ 0) then slice (buf rb) 0 (w rb) else Ok []);
  Ok (head, tail).

Definition Peek (n : Z) (rb : XBuffer) : outcome (list Z * list Z) :=
  if isEmpty rb then Ok ([], []) else
  if bool_decide (n <= 0) then peekAll rb else
  if bool_decide (r rb < w rb) then
    let m := Z.min (w rb - r rb) n in
    head ← slice (buf rb) (r rb) (r rb + m); Ok (head, [])
  else
    let m := Z.min (size rb - r rb + w rb) n in
    if bool_decide (r rb + m <= size rb)
    then head ← slice (buf rb) (r rb) (r rb + m); Ok (head, [])
    else let c1 := size rb - r rb in
         head ← slice_from (buf rb) (r rb); tail ← slice (buf rb) 0 (m - c1); Ok (head, tail).

Definition Bytes (rb : XBuffer) : outcome (list Z) :=
  if isEmpty rb then Ok [] else
  if bool_decide (r rb < w rb) then slice (buf rb) (r rb) (w rb) else
  head ← slice_from (buf rb) (r rb);
  tail ← (if bool_decide (w rb ≠ 0 ∨ w rb = r rb) then slice (buf rb) 0 (w rb) else Ok []);
  Ok (head ++ tail).

Definition Discard (n : Z) (rb : XBuffer) : XBuffer * Z :=
  if bool_decide (n <= 0) then (rb, 0) else
  let discarded := Buffered rb in
  if bool_decide (n < discarded) then (set_r (Z.rem (r rb + n) (size rb)) rb, n)
  else (Reset rb, discarded).

(** [k] is [len(p)]. *)
Definition Read (k : Z) : Op XBuffer (list Z) := λ rb,
  if bool_decide (k = 0) then (rb, Ok []) else
  if isEmpty rb then (rb, Err ErrIsEmpty) else
  if bool_decide (r rb < w rb) then
    let n := Z.min (w rb - r rb) k in
    match slice (buf rb) (r rb) (r rb + n) with
    | Ok p => (reset_if_drained (set_r (r rb + n) rb), Ok p)
    | e => (rb, e)
    end
  else
    let n := Z.min (size rb - r rb + w rb) k in
    let read := if bool_decide (r rb + n <= size rb) then slice (buf rb) (r rb) (r rb + n)
                else let c1 := size rb - r rb in
                     p1 ← slice_from (buf rb) (r rb); p2 ← slice (buf rb) 0 (n - c1);
                     Ok (p1 ++ p2) in
    match read with
    | Ok p => (reset_if_drained (set_r (Z.rem (r rb + n) (size rb)) rb), Ok p)
    | e => (rb, e)
    end.

Definition ReadByte : Op XBuffer Z := λ rb,
  if isEmpty rb then (rb, Err ErrIsEmpty) else
  match index (buf rb) (r rb) with
  | Ok b =>
      let rb := set_r (r rb + 1) rb in
      let rb := if bool_decide (r rb = size rb) then set_r 0 rb else rb in
      (reset_if_drained rb, Ok b)
  | e => (rb, e)
  end.

(** ** Growing *)

(** [for 0 < n && n < newCap { n += n / 4 }], four turns at most
    ([grow_loop_ends]). *)
Fixpoint grow_loop (fuel : nat) (n newCap : Z) : option Z :=
  if bool_decide (0 < n ∧ n < newCap) then
    match fuel with
    | O => None
    | S fuel => grow_loop fuel (wrapS 64 (n + Z.quot n 4)) newCap
    end
  else Some n.

(** The capacity that [grow] takes. *)
Definition grown (n newCap : Z) : outcome Z :=
  if bool_decide (n = 0) then
    if bool_decide (newCap <= DefaultBufferSize) then Ok DefaultBufferSize
    else CeilToPowerOfTwo newCap
  else
    let doubleCap := wrapS 64 (n + n) in
    if bool_decide (newCap <= doubleCap) then
      if bool_decide (n < bufferGrowThreshold) then Ok doubleCap
      else match grow_loop 4 n newCap with
           | Some n => Ok (if bool_decide (0 < n) then n else newCap)
           | None => Panic
           end
    else Ok newCap.

(** [copy(dst[at:], src)], where [dst[at:]] may panic. *)
Definition copy_at (dst : list Z) (at_ : Z) (src : list Z) : outcome (list Z) :=
  d ← slice_from dst at_;
  Ok (take (Z.to_nat at_) dst ++ take (length d) src ++ drop (length src) d).

(** ** Readers and writers

    [io.Reader]: the bytes put into a slice of that length and the error; what
    was [given] so far, bounds of the bytes [to_come] and of the reads [left]
    before an error.  (A negative count, for which the code panics, is
    none.)  [io.Writer]: it takes at most what it is given, and says why when it
    takes less; what was [taken] so far. *)
Class IoReader (R : Type) := {
  io_Read : Z → R → R * (list Z * option error);
  given : R → list Z;
  to_come : R → Z;
  left : R → nat;
  io_Read_law k s : 0 <= k → let '(s', (d, e)) := io_Read k s in
    len d <= k ∧ given s' = given s ++ d ∧ len d + to_come s' <= to_come s ∧
    (left s' <= left s)%nat ∧ (e = None → 0 < k → (left s' < left s)%nat);
  to_come_pos s : 0 <= to_come s;
}.

Class IoWriter (W : Type) := {
  io_Write : list Z → W → W * (Z * option error);
  taken : W → list Z;
  io_Write_law p s : let '(s', (m, e)) := io_Write p s in
    0 <= m ∧ m <= len p ∧ (e = None → m = len p) ∧ taken s' = taken s ++ take (Z.to_nat m) p;
}.

Section fresh.
(** [bsPool.Get] *)
Context (fresh : Z → list Z).

(** The bytes are read into the new block. *)
Definition grow (newCap : Z) : Op XBuffer unit := λ rb,
  match grown (size rb) newCap with
  | Ok newCap =>
      let newBuf := fresh newCap in
      let oldLen := Buffered rb in
      match Read (len newBuf) rb with
      | (_, Panic) => (rb, Panic)
      | (rb, res) =>
          let read := match res with Ok p => p | _ => [] end in
          (mkRing (read ++ drop (length read) newBuf) newCap 0 oldLen
             (if bool_decide (0 < oldLen) then false else isEmpty rb), Ok ())
      end
  | _ => (rb, Panic)
  end.

(** [Write], once there is room. *)
Definition put (p : list Z) : Op XBuffer Z := λ rb,
  let n := len p in
  let stored :=
    if bool_decide (r rb <= w rb) then
      let c1 := size rb - w rb in
      if bool_decide (n <= c1)
      then b ← copy_at (buf rb) (w rb) p; Ok (b, w rb + n)
      else p1 ← slice p 0 c1; b ← copy_at (buf rb) (w rb) p1;
           p2 ← slice_from p c1; b ← copy_at b 0 p2; Ok (b, n - c1)
    else b ← copy_at (buf rb) (w rb) p; Ok (b, w rb + n) in
  match stored with
  | Ok (b, w') =>
      (not_empty (set_w (if bool_decide (w' = size rb) then 0 else w') (set_buf b rb)), Ok n)
  | _ => (rb, Panic)
  end.

Definition make_room (n newCap : Z) : Op XBuffer unit := λ rb,
  if bool_decide (Available rb < n) then grow newCap rb else (rb, Ok ()).

Definition Write (p : list Z) : Op XBuffer Z := λ rb,
  let n := len p in
  if bool_decide (n = 0) then (rb, Ok 0)
  else (_ ← make_room n (wrapS 64 (size rb + n - Available rb)); put p) rb.

(** [buf[w] = c] *)
Definition put_byte (c : Z) : Op XBuffer unit := λ rb,
  match index (buf rb) (w rb) with
  | Ok _ =>
      let w' := w rb + 1 in
      (not_empty (set_w (if bool_decide (w' = size rb) then 0 else w')
         (set_buf (<[Z.to_nat (w rb) := c]> (buf rb)) rb)), Ok ())
  | _ => (rb, Panic)
  end.

Definition WriteByte (c : Z) : Op XBuffer unit := _ ← make_room 1 1; put_byte c.

Section io.
Context {R : Type} {RD : IoReader R}.

(** A read into the free space [buf[lo:hi]]. *)
Definition fill (lo hi : Z) : Op (XBuffer * R) (Z * option error) := λ s,
  let '(rb, rd) := s in
  match slice (buf rb) lo hi with
  | Ok room =>
      let '(rd, (d, e)) := io_Read (len room) rd in
      match copy_at (buf rb) lo d with
      | Ok b => ((not_empty (set_w (Z.rem (w rb + len d) (size rb)) (set_buf b rb)), rd), Ok (len d, e))
      | _ => ((rb, rd), Panic)
      end
  | _ => ((rb, rd), Panic)
  end.

(** What [ReadFrom] returns on an error: [io.EOF] is none. *)
Definition end_of (e : error) : option error := if bool_decide (e = EOF) then None else Some e.

Definition with_ring {A} (m : Op XBuffer A) : Op (XBuffer * R) A := λ s,
  let '(rb, x) := m s.1 in ((rb, s.2), x).

(** The loop; no result when the fuel is not enough for the reader. *)
Fixpoint ReadFrom (fuel : nat) (n : Z) : Op (XBuffer * R) (option (Z * option error)) :=
  match fuel with
  | O => mret None
  | S fuel =>
      _ ← with_ring (λ rb, make_room MinRead (Buffered rb + MinRead) rb);
      '(rb, _) ← get;
      if bool_decide (r rb <= w rb) then
        '(m, e) ← fill (w rb) (size rb);
        let n := n + m in
        match e with
        | Some e => mret (Some (n, end_of e))
        | None =>
            '(m, e) ← fill 0 (r rb);
            let n := n + m in
            match e with
            | Some e => mret (Some (n, end_of e))
            | None => ReadFrom fuel n
            end
        end
      else
        '(m, e) ← fill (w rb) (r rb);
        let n := n + m in
        match e with
        | Some e => mret (Some (n, end_of e))
        | None => ReadFrom fuel n
        end
  end.
End io.
End fresh.

Section io_writer.
Context {W : Type} {WR : IoWriter W}.

(** What [WriteTo] returns after its last write. *)
Definition short_write (e : option error) (rb : XBuffer) : option error :=
  match e with Some e => Some e | None => if isEmpty rb then None else Some ErrShortWrite end.

Definition write_out (p : outcome (list Z)) : Op (XBuffer * W) (Z * option error) := λ s,
  match p with
  | Ok p =>
      let '(wr, (m, e)) := io_Write p s.2 in
      ((s.1, wr), if bool_decide (len p < m) then Panic else Ok (m, e))
  | _ => (s, Panic)
  end.

(** The last write: the read position, the reset, the result. *)
Definition finish (f : Z → XBuffer → XBuffer) (cum : Z) (me : Z * option error)
    : Op (XBuffer * W) (Z * option error) := λ s,
  let rb := reset_if_drained (f me.1 s.1) in ((rb, s.2), Ok (cum + me.1, short_write me.2 rb)).

Definition WriteTo : Op (XBuffer * W) (Z * option error) :=
  '(rb, _) ← get;
  if isEmpty rb then mret (0, Some ErrIsEmpty) else
  if bool_decide (r rb < w rb) then
    let n := w rb - r rb in
    me ← write_out (slice (buf rb) (r rb) (r rb + n));
    finish (λ m rb, set_r (r rb + m) rb) 0 me
  else
    let n := size rb - r rb + w rb in
    if bool_decide (r rb + n <= size rb) then
      me ← write_out (slice (buf rb) (r rb) (r rb + n));
      finish (λ m rb, set_r (Z.rem (r rb + m) (size rb)) rb) 0 me
    else
      let c1 := size rb - r rb in
      '(m, e) ← write_out (slice_from (buf rb) (r rb));
      _ ← modify (λ s, (set_r (Z.rem (r s.1 + m) (size s.1)) s.1, s.2));
      match e with
      | Some e => mret (m, Some e)
      | None =>
          if bool_decide (m < c1) then mret (m, Some ErrShortWrite) else
          me ← write_out (slice (buf rb) 0 (n - c1)); finish (λ m' rb, set_r m' rb) m me
      end.
End io_writer.

(** ** What a ring holds

    Nothing, a run of its block, or the end of the block and then its start. *)
Inductive rep : XBuffer → list Z → Prop :=
  | rep_empty b s : s = len b → rep (mkRing b s 0 0 true) []
  | rep_line a c f b s i j :
      b = a ++ c ++ f → s = len b → i = len a → j = len a + len c → c ≠ [] → f ≠ [] →
      rep (mkRing b s i j false) c
  | rep_wrap t f h b s i j c :
      b = t ++ f ++ h → s = len b → i = len t + len f → j = len t → h ≠ [] → c = h ++ t →
      rep (mkRing b s i j false) c.

Definition contents (rb : XBuffer) : list Z :=
  match peekAll rb with Ok (h, t) => h ++ t | _ => [] end.

Record wf (rb : XBuffer) : Prop := {
  wf_size : size rb = len (buf rb);
  wf_r : 0 <= r rb;
  wf_w : 0 <= w rb;
  wf_pos : if isEmpty rb then r rb = 0 ∧ w rb = 0 else r rb < size rb ∧ w rb < size rb;
}.

(** A list cut at [n]. *)
Lemma cut {A} (l : list A) n : 0 <= n <= len l → ∃ a b, l = a ++ b ∧ len a = n ∧ len b = len l - n.
Proof.
  intros Hn. exists (take (Z.to_nat n) l), (drop (Z.to_nat n) l). rewrite take_drop.
  split_and!; [done|len_solve..].
Qed.

Lemma slice_prefix {A} (s a b : list A) lo hi :
  s = a ++ b → lo = 0 → hi = len a → slice s lo hi = Ok a.
Proof. intros -> -> ->. by apply (slice_mid _ [] a b). Qed.

Lemma slice_from_suffix {A} (s a b : list A) lo : s = a ++ b → lo = len a → slice_from s lo = Ok b.
Proof.
  intros -> ->. rewrite slice_from_Ok by len_solve. by rewrite Nat2Z.id, drop_app_length.
Qed.

Lemma copy_at_mid a b c p : len p = len b → copy_at (a ++ b ++ c) (len a) p = Ok (a ++ p ++ c).
Proof.
  intros Hl. unfold copy_at. rewrite (slice_from_suffix _ a (b ++ c)) by done. run.
  rewrite Nat2Z.id, take_app_length. rewrite take_ge by len_solve.
  by rewrite (drop_app_length' b c) by lia.
Qed.

Lemma copy_at_0 b c p : len p = len b → copy_at (b ++ c) 0 p = Ok (p ++ c).
Proof. exact (copy_at_mid [] b c p). Qed.

Lemma rem_small a b : 0 <= a → a < b → Z.rem a b = a.
Proof. intros. apply Z.rem_small. lia. Qed.

Lemma rem_wrap a b : b <= a → a < 2 * b → Z.rem a b = a - b.
Proof.
  intros. rewrite Z.rem_mod_nonneg by lia. rewrite <- (Z.mod_small (a - b) b) by lia.
  replace (a - b) with (a + (-1) * b) by lia. by rewrite Z.mod_add by lia.
Qed.

Ltac rep_tac :=
  repeat match goal with H : ?l ≠ [] |- _ => apply nonempty_len in H end;
  cbn [buf size r w isEmpty set_w set_buf set_r not_empty app];
  rewrite <- ?app_assoc, ?app_nil_r; try reflexivity; try rewrite nonempty_len; len_solve.

Lemma wf_rep rb : wf rb → rep rb (contents rb).
Proof.
  destruct rb as [b s i j e]. intros [Hs Hr Hw Hp]. cbn in *. unfold contents, peekAll. cbn.
  destruct e; [destruct Hp as [-> ->]; by constructor|]. subst s.
  case_bool_decide as Hij.
  - destruct (cut b i) as (a & b1 & -> & Ha & Hb1); [lia|].
    destruct (cut b1 (j - i)) as (c & f & -> & Hc & Hf); [len_solve|].
    rewrite (slice_mid _ a c f) by (done || lia). run. rewrite app_nil_r.
    by eapply (rep_line a c f); rep_tac.
  - destruct (cut b j) as (t & b1 & -> & Ht & Hb1); [lia|].
    destruct (cut b1 (i - j)) as (f & h & -> & Hf & Hh); [len_solve|].
    rewrite (slice_from_suffix _ (t ++ f) h) by (rewrite ?app_assoc; (done || len_solve)). run.
    replace (if bool_decide (j ≠ 0) then slice (t ++ f ++ h) 0 j else Ok []) with (Ok t).
    + run. by eapply (rep_wrap t f h); rep_tac.
    + case_bool_decide as Hj; [by rewrite (slice_prefix _ t (f ++ h)) by (done || lia)|].
      f_equal. apply len_nil. lia.
Qed.

Lemma rep_wf rb c : rep rb c → wf rb ∧ contents rb = c.
Proof.
  intros H. destruct H as [b s ->|a c f b s i j -> -> -> -> Hc Hf|t f h b s i j c -> -> -> -> Hh ->].
  - by split; [split; cbn; lia|].
  - rewrite nonempty_len in Hc, Hf. split; [split; cbn; len_solve|].
    unfold contents, peekAll. cbn. rewrite bool_decide_true by lia.
    rewrite (slice_mid _ a c f) by (done || lia). run. by rewrite app_nil_r.
  - rewrite nonempty_len in Hh. split; [split; cbn; len_solve|].
    unfold contents, peekAll. cbn. rewrite bool_decide_false by lia.
    rewrite (slice_from_suffix _ (t ++ f) h) by (rewrite ?app_assoc; (done || len_solve)). run.
    case_bool_decide; [by rewrite (slice_prefix _ t (f ++ h)) by done|]. run.
    assert (t = []) as -> by (apply len_nil; lia). done.
Qed.

Lemma Buffered_spec rb c : rep rb c → Buffered rb = len c.
Proof.
  intros H. unfold Buffered.
  destruct H as [b s ->|a c f b s i j -> -> -> -> Hc Hf|t f h b s i j c -> -> -> -> Hh ->]; cbn.
  - by rewrite bool_decide_true.
  - rewrite nonempty_len in Hc. rewrite bool_decide_false, bool_decide_true by lia. lia.
  - rewrite nonempty_len in Hh. case_bool_decide; [|rewrite bool_decide_false by lia]; len_solve.
Qed.

Lemma Available_spec rb c : rep rb c → Available rb = size rb - len c.
Proof.
  intros H. unfold Available.
  destruct H as [b s ->|a c f b s i j -> -> -> -> Hc Hf|t f h b s i j c -> -> -> -> Hh ->]; cbn.
  - rewrite bool_decide_true by done. lia.
  - rewrite nonempty_len in Hc. rewrite bool_decide_false, bool_decide_false by lia. lia.
  - rewrite nonempty_len in Hh.
    case_bool_decide; [len_solve|rewrite bool_decide_true by lia; len_solve].
Qed.

Lemma isEmpty_spec rb c : rep rb c → isEmpty rb = bool_decide (c = []).
Proof.
  destruct 1 as [| |t f h b s i j c ? ? ? ? Hh ->]; cbn; [done|by rewrite bool_decide_false|].
  rewrite bool_decide_false; [done|]. by destruct h.
Qed.

Lemma rep_len rb c : rep rb c → len c <= size rb.
Proof.
  destruct 1 as [b s ->|a c f b s i j -> -> -> -> Hc Hf|t f h b s i j c -> -> -> -> Hh ->];
    cbn; len_solve.
Qed.

Lemma rep_size rb c : rep rb c → size rb = len (buf rb).
Proof. by destruct 1. Qed.

(** What stays of a list that was cut. *)
Lemma drop_left {A} (x y : list A) k : k = len x → drop (Z.to_nat k) (x ++ y) = y.
Proof. intros ->. by rewrite Nat2Z.id, drop_app_length. Qed.
Lemma take_left {A} (x y : list A) k : k = len x → take (Z.to_nat k) (x ++ y) = x.
Proof. intros ->. by rewrite Nat2Z.id, take_app_length. Qed.

(** The read position goes on by [k], less than what is there; or by all of
    it, and the ring starts again. *)
Lemma advance_part rb c k :
  rep rb c → 0 <= k → k < len c →
  rep (set_r (Z.rem (r rb + k) (size rb)) rb) (drop (Z.to_nat k) c) ∧
  (0 < k → Z.rem (r rb + k) (size rb) ≠ w rb).
Proof.
  destruct 1 as [b s ->|a c f b s i j -> -> -> -> Hc Hf|t f h b s i j c -> -> -> -> Hh ->];
    intros Hk Hl; unfold set_r; cbn in *; [lia|..].
  - apply nonempty_len in Hf. rewrite rem_small by len_solve. split; [|lia].
    destruct (cut c k) as (c1 & c2 & -> & H1 & H2); [lia|]. rewrite drop_left by done.
    eapply (rep_line (a ++ c1) c2 f); rep_tac.
  - apply nonempty_len in Hh. destruct (decide (k < len h)).
    + rewrite rem_small by len_solve. split; [|lia].
      destruct (cut h k) as (h1 & h2 & -> & H1 & H2); [lia|]. rewrite <- app_assoc, drop_left by done.
      eapply (rep_wrap t (f ++ h1) h2); rep_tac.
    + rewrite rem_wrap by len_solve. rewrite length_app in Hl.
      destruct (cut t (k - len h)) as (t1 & t2 & -> & H1 & H2); [lia|].
      split; [|len_solve]. rewrite (app_assoc h t1 t2), drop_left by len_solve.
      eapply (rep_line t1 t2 (f ++ h)); rep_tac.
Qed.

Lemma advance_all rb c : rep rb c → c ≠ [] → Z.rem (r rb + len c) (size rb) = w rb.
Proof.
  destruct 1 as [b s ->|a c f b s i j -> -> -> -> Hc Hf|t f h b s i j c -> -> -> -> Hh ->];
    intros Hn; cbn; [done|..].
  - apply nonempty_len in Hf. rewrite rem_small by len_solve. done.
  - apply nonempty_len in Hh. rewrite rem_wrap by len_solve. len_solve.
Qed.

Lemma Reset_rep rb c : rep rb c → rep (Reset rb) [].
Proof. intros H. unfold Reset. constructor. by eapply rep_size. Qed.

Lemma advance rb c k :
  rep rb c → 0 < k → k <= len c →
  rep (reset_if_drained (set_r (Z.rem (r rb + k) (size rb)) rb)) (drop (Z.to_nat k) c).
Proof.
  intros H H0 Hk. unfold reset_if_drained.
  change (r (set_r ?x _)) with x. change (w (set_r _ rb)) with (w rb).
  destruct (decide (k = len c)) as [->|].
  - rewrite advance_all, bool_decide_true by (done || by apply nonempty_len).
    rewrite Nat2Z.id, drop_all. unfold Reset. cbn. constructor. by eapply rep_size.
  - destruct (advance_part rb c k) as [Hr Hn]; [done|lia..|].
    by rewrite bool_decide_false by auto.
Qed.

(** In a run that does not wrap the remainder is the sum. *)
Lemma advance_line rb c k :
  rep rb c → r rb < w rb → 0 <= k → k <= len c → r rb + k = Z.rem (r rb + k) (size rb).
Proof.
  destruct 1 as [b s ->|a c f b s i j -> -> -> -> Hc Hf|t f h b s i j c -> -> -> -> Hh ->]; cbn;
    intros ???; [lia| |lia].
  apply nonempty_len in Hf. rewrite rem_small; len_solve.
Qed.

Definition same_block (rb rb' : XBuffer) : Prop := buf rb' = buf rb ∧ size rb' = size rb.

Lemma reset_if_drained_block rb x : same_block rb (reset_if_drained (set_r x rb)).
Proof. unfold reset_if_drained. by case_bool_decide. Qed.

(** The first [k] bytes, in one piece or two. *)
Lemma line_slice rb c k :
  rep rb c → r rb < w rb → 0 <= k → k <= len c →
  slice (buf rb) (r rb) (r rb + k) = Ok (take (Z.to_nat k) c).
Proof.
  destruct 1 as [b s ->|a c f b s i j -> -> -> -> Hc Hf|t f h b s i j c -> -> -> -> Hh ->]; cbn;
    intros Hlt ? Hk; [lia| |lia].
  destruct (cut c k) as (c1 & c2 & -> & H1 & H2); [lia|]. rewrite take_left by done.
  apply (slice_mid _ a c1 (c2 ++ f)); rep_tac.
Qed.

Lemma wrap_slices rb c k :
  rep rb c → c ≠ [] → ¬ r rb < w rb → 0 <= k → k <= len c →
  (r rb + k <= size rb → slice (buf rb) (r rb) (r rb + k) = Ok (take (Z.to_nat k) c)) ∧
  (size rb < r rb + k → ∃ p1 p2, slice_from (buf rb) (r rb) = Ok p1 ∧
     slice (buf rb) 0 (k - (size rb - r rb)) = Ok p2 ∧ p1 ++ p2 = take (Z.to_nat k) c ∧
     len p1 = size rb - r rb).
Proof.
  destruct 1 as [b s ->|a c f b s i j -> -> -> -> Hc Hf|t f h b s i j c -> -> -> -> Hh ->]; cbn;
    intros Hn Hlt ? Hk; [done| |]; [apply nonempty_len in Hc; lia|].
  split.
  - intros Hs. destruct (cut h k) as (h1 & h2 & -> & H1 & H2); [len_solve|].
    rewrite <- (app_assoc h1), take_left by done.
    apply (slice_mid _ (t ++ f) h1 h2); rep_tac.
  - intros Hs. autorewrite with golen in Hs, Hk.
    destruct (cut t (k - len h)) as (t1 & t2 & -> & H1 & H2); [lia|].
    exists h, t1. split_and!.
    + apply (slice_from_suffix _ ((t1 ++ t2) ++ f)); rep_tac.
    + apply (slice_prefix _ t1 (t2 ++ f ++ h)); rep_tac.
    + rewrite (app_assoc h t1 t2), take_left by len_solve. done.
    + len_solve.
Qed.

(** ** The operations on the contents *)

Lemma isEmpty_false rb c : rep rb c → c ≠ [] → isEmpty rb = false.
Proof. intros H Hc. rewrite (isEmpty_spec _ _ H). by apply bool_decide_false. Qed.

Lemma isEmpty_true rb : rep rb [] → isEmpty rb = true.
Proof. intros H. by rewrite (isEmpty_spec _ _ H). Qed.

(** The two lengths that bound a read. *)
Lemma line_len rb c : rep rb c → r rb < w rb → w rb - r rb = len c.
Proof.
  intros H Hl. rewrite <- (Buffered_spec _ _ H). unfold Buffered.
  by rewrite bool_decide_false, bool_decide_true by lia.
Qed.
Lemma wrap_len rb c : rep rb c → c ≠ [] → ¬ r rb < w rb → size rb - r rb + w rb = len c.
Proof.
  intros H Hc Hl. rewrite <- (Buffered_spec _ _ H). unfold Buffered.
  rewrite (isEmpty_false _ _ H Hc).
  case_bool_decide; [lia|]. by rewrite bool_decide_false.
Qed.

Lemma take_min {A} (c : list A) k : take (Z.to_nat (Z.min (len c) k)) c = take (Z.to_nat k) c.
Proof.
  destruct (Z.min_spec (len c) k) as [[? ->]|[? ->]]; [|done].
  rewrite !take_ge by lia. done.
Qed.
Lemma drop_min {A} (c : list A) k : drop (Z.to_nat (Z.min (len c) k)) c = drop (Z.to_nat k) c.
Proof.
  destruct (Z.min_spec (len c) k) as [[? ->]|[? ->]]; [|done].
  rewrite !drop_ge by lia. done.
Qed.

Lemma Read_spec rb c k :
  rep rb c → 0 <= k → ∃ rb', rep rb' (drop (Z.to_nat k) c) ∧ same_block rb rb' ∧
  Read k rb = (rb', if bool_decide (k = 0) then Ok []
                    else if bool_decide (c = []) then Err ErrIsEmpty
                    else Ok (take (Z.to_nat k) c)).
Proof.
  intros H Hk. unfold Read. case_bool_decide as Hk0; [subst k; by exists rb|].
  destruct (decide (c = [])) as [->|Hc].
  { rewrite (isEmpty_true _ H). exists rb. by rewrite drop_nil. }
  rewrite (isEmpty_false _ _ H Hc), (bool_decide_false (c = [])) by done. pose proof (proj1 (nonempty_len _) Hc) as Hl.
  eexists (reset_if_drained (set_r (Z.rem (r rb + Z.min (len c) k) (size rb)) rb)).
  split; [rewrite <- drop_min; apply advance; [done|lia..]|].
  split; [apply reset_if_drained_block|].
  case_bool_decide as Hlt.
  - rewrite (line_len _ _ H Hlt), (line_slice _ c) by (done || lia). rewrite take_min.
    by rewrite <- (advance_line _ c) by (done || lia).
  - rewrite (wrap_len _ _ H Hc Hlt).
    destruct (wrap_slices rb c (Z.min (len c) k) H Hc Hlt) as [H1 H2]; [lia..|].
    case_bool_decide as Hs; [rewrite H1 by done; by rewrite take_min|].
    destruct H2 as (p1 & p2 & -> & -> & Hp & _); [lia|]. run. run. by rewrite Hp, take_min.
Qed.

Lemma index_head (a c : list Z) x : index (a ++ x :: c) (len a) = Ok x.
Proof.
  unfold index. rewrite bool_decide_false by lia. by rewrite Nat2Z.id, list_lookup_middle.
Qed.

Lemma first_byte rb x c : rep rb (x :: c) → index (buf rb) (r rb) = Ok x.
Proof.
  inversion 1 as [|a c' f b s i j Hb Hs Hi Hj Hc Hf|t f h b s i j c' Hb Hs Hi Hj Hh E]; subst; cbn.
  - apply index_head.
  - destruct h as [|y h]; [done|]. cbn in E. injection E as <- _.
    rewrite app_assoc. rewrite <- (index_head (t ++ f) h x). f_equal. len_solve.
Qed.

Lemma ReadByte_spec rb c :
  rep rb c → ∃ rb', rep rb' (drop 1 c) ∧ same_block rb rb' ∧
  ReadByte rb = (rb', match c with [] => Err ErrIsEmpty | x :: _ => Ok x end).
Proof.
  intros H. unfold ReadByte. destruct c as [|x c].
  { rewrite (isEmpty_true _ H). by exists rb. }
  rewrite (isEmpty_false _ _ H) by done. rewrite (first_byte _ _ _ H).
  exists (reset_if_drained (set_r (Z.rem (r rb + 1) (size rb)) rb)).
  split; [apply (advance rb (x :: c) 1); [done|lia|cbn; lia]|].
  split; [apply reset_if_drained_block|].
  assert (Hw : wf rb) by (by eapply rep_wf). destruct Hw as [_ Hr _ Hp].
  rewrite (isEmpty_false _ _ H) in Hp by done. f_equal. f_equal. cbn [r set_r].
  case_bool_decide as Hs; cbn in Hs.
  - rewrite rem_wrap by lia. by replace (r rb + 1 - size rb) with 0 by lia.
  - by rewrite rem_small by lia.
Qed.

Lemma peekAll_spec rb c : rep rb c → ∃ h t, peekAll rb = Ok (h, t) ∧ h ++ t = c.
Proof.
  intros H. destruct (rep_wf _ _ H) as [Hw Hc]. unfold contents in Hc.
  destruct (decide (c = [])) as [->|Hn].
  { exists [], []. unfold peekAll. by rewrite (isEmpty_true _ H). }
  destruct (peekAll rb) as [[h t]| |]; [by exists h, t|by subst c..].
Qed.

(** [Peek]: all of it for [n <= 0]. *)
Lemma Peek_spec rb c n :
  rep rb c → ∃ h t, Peek n rb = Ok (h, t) ∧
  h ++ t = if bool_decide (n <= 0) then c else take (Z.to_nat n) c.
Proof.
  intros H. destruct (peekAll_spec _ _ H) as (h & t & E & Hc).
  unfold Peek. destruct (decide (c = [])) as [->|Hn].
  { exists [], []. rewrite (isEmpty_true _ H), take_nil. by case_bool_decide. }
  rewrite (isEmpty_false _ _ H Hn). case_bool_decide as Hz; [by exists h, t|].
  case_bool_decide as Hlt.
  - rewrite (line_len _ _ H Hlt), (line_slice _ c) by (done || lia). run.
    eexists _, _. split; [done|]. by rewrite app_nil_r, take_min.
  - rewrite (wrap_len _ _ H Hn Hlt).
    destruct (wrap_slices rb c (Z.min (len c) n) H Hn Hlt) as [H1 H2]; [lia..|].
    case_bool_decide as Hs.
    + rewrite H1 by done. run. eexists _, _. split; [done|]. by rewrite app_nil_r, take_min.
    + destruct H2 as (p1 & p2 & -> & -> & Hp & _); [lia|]. run. eexists _, _. split; [done|].
      by rewrite Hp, take_min.
Qed.

Lemma Bytes_spec rb c : rep rb c → Bytes rb = Ok c.
Proof.
  destruct 1 as [b s ->|a c f b s i j -> -> -> -> Hc Hf|t f h b s i j c -> -> -> -> Hh ->];
    unfold Bytes; cbn; [done|..].
  - apply nonempty_len in Hc. rewrite bool_decide_true by lia. by apply (slice_mid _ a c f).
  - rewrite bool_decide_false by lia.
    rewrite (slice_from_suffix _ (t ++ f) h) by rep_tac. run.
    case_bool_decide as Hj; [by rewrite (slice_prefix _ t (f ++ h))|].
    run. assert (t = []) as -> by (apply len_nil; lia). done.
Qed.

Lemma Discard_spec rb c n :
  rep rb c → ∃ rb', rep rb' (drop (Z.to_nat n) c) ∧ same_block rb rb' ∧
  Discard n rb = (rb', Z.max 0 (Z.min n (len c))).
Proof.
  intros H. unfold Discard. case_bool_decide as Hn.
  { exists rb. replace (Z.to_nat n) with 0%nat by lia. split; [done|]. split; [done|].
    by rewrite Z.max_l by lia. }
  rewrite (Buffered_spec _ _ H). case_bool_decide as Hl.
  - eexists. split; [by apply (advance_part rb c n); [done|lia..]|]. split; [done|].
    by rewrite Z.max_r, Z.min_l by lia.
  - exists (Reset rb). rewrite drop_ge by lia. split; [by eapply Reset_rep|]. split; [done|].
    by rewrite Z.max_r, Z.min_r by lia.
Qed.

(** ** Writing *)

Lemma put_spec rb c p :
  rep rb c → p ≠ [] → len p <= size rb - len c →
  ∃ rb', put p rb = (rb', Ok (len p)) ∧ rep rb' (c ++ p) ∧ size rb' = size rb.
Proof.
  intros H Hp. apply nonempty_len in Hp. unfold put.
  destruct H as [b s ->|a c f b s i j -> -> -> -> Hc Hf|t f h b s i j c -> -> -> -> Hh ->];
    cbn; intros Hfit.
  - rewrite bool_decide_true, bool_decide_true by lia.
    destruct (cut b (len p)) as (b1 & b2 & -> & H1 & H2); [len_solve|].
    rewrite (copy_at_0 b1 b2 p) by lia. run. eexists. split; [done|].
    split; [|done]. case_bool_decide as Hs.
    + assert (b2 = []) as -> by (apply len_nil; len_solve).
      by eapply (rep_wrap [] [] p); rep_tac.
    + by eapply (rep_line [] p b2); rep_tac.
  - apply nonempty_len in Hc, Hf. rewrite bool_decide_true by lia. case_bool_decide as Hn.
    + destruct (cut f (len p)) as (f1 & f2 & -> & H1 & H2); [len_solve|].
      replace (len a + len c) with (len (a ++ c)) by len_solve.
      rewrite (app_assoc a c), (copy_at_mid (a ++ c) f1 f2 p) by lia. run.
      eexists. split; [done|]. split; [|done]. case_bool_decide as Hs.
      * assert (f2 = []) as -> by (apply len_nil; len_solve).
        eapply (rep_wrap [] a (c ++ p)); rep_tac.
      * eapply (rep_line a (c ++ p) f2); rep_tac.
    + destruct (cut p (len f)) as (p1 & p2 & -> & H1 & H2); [len_solve|].
      destruct (cut a (len p2)) as (a1 & a2 & -> & H3 & H4); [len_solve|].
      rewrite (slice_prefix _ p1 p2) by (reflexivity || len_solve). run.
      replace (len (a1 ++ a2) + len c) with (len ((a1 ++ a2) ++ c)) by len_solve.
      replace ((a1 ++ a2) ++ c ++ f) with (((a1 ++ a2) ++ c) ++ f ++ []) by (by rewrite <- !app_assoc, app_nil_r).
      rewrite copy_at_mid by lia. run. rewrite (slice_from_suffix _ p1 p2) by (reflexivity || len_solve). run.
      rewrite <- !app_assoc. cbn. rewrite (copy_at_0 a1 _ p2) by lia. run.
      eexists. split; [done|]. cbn. rewrite bool_decide_false by len_solve. split.
      * eapply (rep_wrap p2 a2 (c ++ p1)); rep_tac.
      * len_solve.
  - apply nonempty_len in Hh. rewrite bool_decide_false by len_solve.
    destruct (cut f (len p)) as (f1 & f2 & -> & H1 & H2); [len_solve|].
    rewrite <- (app_assoc f1), (copy_at_mid t f1 (f2 ++ h) p) by lia. run.
    rewrite bool_decide_false by len_solve. eexists. split; [done|]. split; [|done].
    eapply (rep_wrap (t ++ p) f2 h); rep_tac.
Qed.

(** The least power of two that is no less than [n], but 2 for less. *)
Lemma CeilToPowerOfTwo_spec n :
  n <= maxintHeadBit → ∃ k, 0 <= k ∧ CeilToPowerOfTwo n = Ok (2 ^ k) ∧ n <= 2 ^ k ∧
  (2 < n → 2 ^ k < 2 * n).
Proof.
  intros Hn. unfold CeilToPowerOfTwo. rewrite bool_decide_false by lia.
  case_bool_decide as H2; [exists 1; split_and!; done || lia|].
  unfold bits_Len. rewrite bool_decide_false by lia.
  pose proof (Z.log2_spec (n - 1) ltac:(lia)) as [Hlo Hhi].
  pose proof (Z.log2_nonneg (n - 1)) as Hl.
  exists (Z.log2 (n - 1) + 1). split; [lia|]. rewrite Z.shiftl_1_l. split; [done|].
  rewrite Z.pow_succ_r in Hhi by done. rewrite Z.pow_add_r by lia. lia.
Qed.

Lemma quarter n : 0 <= n → n < 2 ^ 62 → ∃ q, wrapS 64 (n + Z.quot n 4) = n + q ∧ 4 * q <= n < 4 * q + 4.
Proof.
  intros H0 Hn. exists (n / 4). rewrite Z.quot_div_nonneg by lia.
  pose proof (Z.div_mod n 4 ltac:(lia)). pose proof (Z.mod_pos_bound n 4 ltac:(lia)).
  rewrite wrapS_id; [lia|lia|]. unfold in_s. lia.
Qed.

(** Every turn adds a quarter to [n - 3] at least. *)
Lemma grow_loop_ends fuel n newCap :
  4 <= n → n < 2 ^ 62 → newCap < 2 ^ 60 →
  4 ^ Z.of_nat fuel * (newCap - 3) <= 5 ^ Z.of_nat fuel * (n - 3) →
  ∃ m, grow_loop fuel n newCap = Some m ∧ newCap <= m ∧ n <= m ∧ m <= Z.max n (2 * newCap).
Proof.
  revert n; induction fuel as [|fuel IH]; intros n H4 Hn Hc Hb.
  - exists n. cbn in *. rewrite bool_decide_false by lia. split; [done|lia].
  - destruct (quarter n) as (q & Hq & Hb4); [lia|lia|]. cbn [grow_loop].
    destruct (decide (n < newCap)); [|rewrite bool_decide_false by lia; exists n; split; [done|lia]].
    rewrite bool_decide_true, Hq by lia.
    destruct (IH (n + q)) as (m & E & H1 & H2 & H3); [lia|lia|done| |exists m; split; [done|lia]].
    rewrite Nat2Z.inj_succ, !Z.pow_succ_r in Hb by lia.
    assert (0 < 5 ^ Z.of_nat fuel) by (apply Z.pow_pos_nonneg; lia). nia.
Qed.

Lemma grown_spec n newCap :
  0 <= n → n < 2 ^ 60 → newCap < 2 ^ 60 →
  ∃ m, grown n newCap = Ok m ∧ newCap <= m ∧ n <= m ∧ 0 < m ∧
  m <= Z.max DefaultBufferSize (2 * Z.max n newCap) ∧
  (n < bufferGrowThreshold → n < m).
Proof.
  unfold bufferGrowThreshold, DefaultBufferSize. intros H0 Hn Hc. unfold grown. case_bool_decide as Hz.
  { unfold DefaultBufferSize. case_bool_decide; [exists 1024; split_and!; done || lia|].
    destruct (CeilToPowerOfTwo_spec newCap) as (k & Hk & -> & Hle & Hlt); [unfold maxintHeadBit; lia|].
    eexists. split; [done|]. lia. }
  rewrite wrapS_id by (unfold in_s; lia). case_bool_decide as Hd.
  - unfold bufferGrowThreshold. case_bool_decide; [eexists; split; [done|]; lia|].
    destruct (grow_loop_ends 4 n newCap) as (m & -> & ? & ? & ?); [lia|lia|lia| |].
    { change (4 ^ Z.of_nat 4) with 256. change (5 ^ Z.of_nat 4) with 625. lia. }
    rewrite bool_decide_true by lia. eexists. split; [done|]. lia.
  - eexists. split; [done|]. lia.
Qed.

Section writes.
Context (fresh : Z → list Z) (fresh_len : ∀ n, 0 <= n → len (fresh n) = n).

Lemma grow_spec rb c newCap m :
  rep rb c → grown (size rb) newCap = Ok m → len c < m →
  ∃ rb', grow fresh newCap rb = (rb', Ok ()) ∧ rep rb' c ∧ size rb' = m ∧ r rb' = 0.
Proof.
  intros H Hm Hl. unfold grow. rewrite Hm, fresh_len by lia.
  destruct (Read_spec rb c m H) as (rb' & Hr & H' & ->); [lia|].
  rewrite bool_decide_false by lia. rewrite (Buffered_spec _ _ H).
  destruct (decide (c = [])) as [->|Hc].
  - rewrite bool_decide_true by done. eexists. split; [done|]. split; [|done].
    rewrite bool_decide_false by (cbn; lia). destruct H' as [Hb _].
    rewrite (isEmpty_true rb') by (by rewrite drop_nil in Hr). constructor. cbn. by rewrite drop_0, fresh_len by lia.
  - rewrite bool_decide_false by done. apply nonempty_len in Hc. eexists. split; [done|]. split; [|done].
    rewrite bool_decide_true by lia. rewrite take_ge by lia.
    destruct (cut (fresh m) (len c)) as (f1 & f2 & Hf & H1 & H2); [rewrite fresh_len; lia|].
    rewrite fresh_len in H2 by lia.
    replace (drop (length c) (fresh m)) with f2 by (rewrite Hf; symmetry; apply drop_app_length'; lia).
    eapply (rep_line [] c f2); rep_tac.
Qed.

Lemma make_room_spec rb c n newCap :
  rep rb c → size rb < 2 ^ 60 → newCap < 2 ^ 60 →
  (size rb - len c < n → len c + n <= newCap) → 0 < n →
  ∃ rb', make_room fresh n newCap rb = (rb', Ok ()) ∧ rep rb' c ∧ len c + n <= size rb' ∧
  size rb <= size rb' ∧
  (rb' = rb ∨ r rb' = 0 ∧ size rb < len c + n ∧
   size rb' <= Z.max DefaultBufferSize (2 * Z.max (size rb) newCap)).
Proof.
  intros H Hs Hc Hn H0. unfold make_room. rewrite (Available_spec _ _ H).
  pose proof (rep_len _ _ H) as Hl. case_bool_decide as Hf; [|exists rb; split_and!; first [done|lia|by left]].
  destruct (grown_spec (size rb) newCap) as (m & Hm & H1 & H2 & H3 & H4 & _); [lia..|].
  destruct (grow_spec rb c newCap m H Hm) as (rb' & -> & Hr & <- & Hz); [lia|].
  exists rb'. split_and!; [done|done|lia|lia|]. right. split_and!; done || lia.
Qed.

Lemma Write_spec rb c p :
  rep rb c → size rb + len p < 2 ^ 60 →
  ∃ rb', Write fresh p rb = (rb', Ok (len p)) ∧ rep rb' (c ++ p) ∧ size rb <= size rb' ∧
  size rb' <= Z.max (size rb) (Z.max DefaultBufferSize (2 * (len c + len p))).
Proof.
  intros H Hs. unfold Write. pose proof (rep_len _ _ H) as Hl. case_bool_decide as Hp.
  { apply len_nil in Hp as ->. exists rb. rewrite app_nil_r. split_and!; [done|done|lia|lia]. }
  rewrite (Available_spec _ _ H). rewrite wrapS_id by (unfold in_s; lia).
  destruct (make_room_spec rb c (len p) (size rb + len p - (size rb - len c)))
    as (rb1 & E & H1 & Hfit & Hge & Hup); [done|lia..|].
  rewrite (op_bind_ok _ _ _ _ _ E).
  destruct (put_spec rb1 c p) as (rb2 & -> & H2 & Hs2); [done| |lia|].
  { intros ->. by cbn in Hp. }
  exists rb2. rewrite Hs2. split_and!; [done|done|lia|]. destruct Hup as [->|(_ & ? & ?)]; lia.
Qed.

Lemma put_byte_put rb x :
  0 <= w rb → w rb < size rb → size rb = len (buf rb) →
  put_byte x rb = let '(rb', n) := put [x] rb in (rb', _ ← n; Ok ()).
Proof.
  intros H0 Hw Hs. unfold put_byte, put.
  destruct (cut (buf rb) (w rb)) as (a & b & Hb & Ha & Hlb); [lia|].
  destruct b as [|y b]; [cbn in Hlb; lia|].
  rewrite Hb, <- Ha, index_head, Nat2Z.id, insert_app_r_alt, Nat.sub_diag by lia. cbn [insert list_insert].
  change (len [x]) with 1.
  assert (E : copy_at (a ++ y :: b) (len a) [x] = Ok (a ++ x :: b)) by (by apply (copy_at_mid a [y] b [x])).
  rewrite E. rewrite (bool_decide_true (1 <= size rb - len a)) by lia. run.
  by destruct (bool_decide (r rb <= len a)).
Qed.

Lemma grow_full rb c :
  rep rb c → size rb < 2 ^ 60 → len c = size rb → bufferGrowThreshold <= size rb →
  ∃ b, grow fresh 1 rb = (mkRing b (size rb) 0 (len c) false, Ok ()) ∧ len b = size rb.
Proof.
  unfold bufferGrowThreshold. intros H Hs Hl Ht. unfold grow, grown. rewrite bool_decide_false by lia.
  rewrite wrapS_id by (unfold in_s; lia). rewrite bool_decide_true by lia.
  unfold bufferGrowThreshold. rewrite bool_decide_false by lia. cbn [grow_loop].
  rewrite bool_decide_false, bool_decide_true by lia. rewrite fresh_len by lia.
  destruct (Read_spec rb c (size rb) H) as (rb' & Hr & H' & ->); [lia|].
  rewrite bool_decide_false by lia. rewrite bool_decide_false by (intros ->; cbn in Hl; lia).
  rewrite (Buffered_spec _ _ H), bool_decide_true by lia. eexists. split; [done|].
  rewrite take_ge by lia. pose proof (fresh_len (size rb)). len_solve.
Qed.

(** A full ring of [bufferGrowThreshold] bytes or more does not grow for one
    byte, which is then stored behind its end. *)
Lemma WriteByte_spec rb c x :
  rep rb c → size rb < 2 ^ 60 →
  if bool_decide (len c = size rb ∧ bufferGrowThreshold <= size rb)
  then (WriteByte fresh x rb).2 = Panic
  else ∃ rb', WriteByte fresh x rb = (rb', Ok ()) ∧ rep rb' (c ++ [x]) ∧ size rb <= size rb'.
Proof.
  intros H Hs. pose proof (rep_len _ _ H) as Hl. unfold WriteByte.
  case_bool_decide as Hb.
  - destruct Hb as [Hf H4]. destruct (grow_full rb c H) as (b & E & Hb); [lia..|].
    rewrite (op_bind_ok _ _ rb (mkRing b (size rb) 0 (len c) false) ()).
    + unfold put_byte, index. cbn. rewrite bool_decide_false by lia. by rewrite lookup_ge_None_2 by lia.
    + unfold make_room. by rewrite (Available_spec _ _ H), bool_decide_true by lia.
  - assert (Hg : ∃ rb1, make_room fresh 1 1 rb = (rb1, Ok ()) ∧ rep rb1 c ∧ len c + 1 <= size rb1 ∧
                 size rb <= size rb1).
    { unfold make_room. rewrite (Available_spec _ _ H). case_bool_decide as Hf; [|exists rb; split_and!; done || lia].
      unfold bufferGrowThreshold in Hb.
      destruct (grown_spec (size rb) 1) as (m & Hm & H1 & H2 & H3 & _ & H5); [lia..|].
      unfold bufferGrowThreshold in H5.
      destruct (grow_spec rb c 1 m H Hm) as (rb' & -> & Hr & <- & _); [lia|]. exists rb'. split_and!; done || lia. }
    destruct Hg as (rb1 & E & H1 & Hfit & Hge). rewrite (op_bind_ok _ _ _ _ _ E).
    destruct (rep_wf _ _ H1) as [[Hws _ Hw0 Hwp] _].
    rewrite put_byte_put by (try done; destruct (isEmpty rb1); lia).
    destruct (put_spec rb1 c [x] H1) as (rb2 & -> & H2 & Hs2); [done|cbn; lia|].
    exists rb2. split_and!; done || lia.
Qed.
End writes.

(** ** Writing out *)
Section write_to.
Context {W : Type} {WR : IoWriter W}.

Lemma write_out_spec (rb : XBuffer) wr p :
  ∃ wr' m e, write_out (Ok p) (rb, wr) = ((rb, wr'), Ok (m, e)) ∧
  0 <= m ∧ m <= len p ∧ (e = None → m = len p) ∧ taken wr' = taken wr ++ take (Z.to_nat m) p.
Proof.
  unfold write_out. pose proof (io_Write_law p wr) as H. cbn. destruct (io_Write p wr) as [wr' [m e]].
  destruct H as (H0 & H1 & H2 & H3). exists wr', m, e. by rewrite bool_decide_false by lia.
Qed.

(** The end of a write that took [m > 0] bytes, or none. *)
Lemma finish_spec rb c m e cum (wr : W) f :
  rep rb c → c ≠ [] → 0 <= m → m <= len c → f m rb = set_r (Z.rem (r rb + m) (size rb)) rb →
  (e = None → m = len c) →
  (0 < m ∨ r rb ≠ w rb) →
  ∃ rb', finish f cum (m, e) (rb, wr) = ((rb', wr), Ok (cum + m, e)) ∧ rep rb' (drop (Z.to_nat m) c).
Proof.
  intros H Hc H0 Hm Hf He Hr. apply nonempty_len in Hc. unfold finish. cbn [fst snd]. rewrite Hf.
  assert (Hrep : rep (reset_if_drained (set_r (Z.rem (r rb + m) (size rb)) rb)) (drop (Z.to_nat m) c)).
  { destruct (decide (m = 0)) as [->|]; [|apply advance; [done|lia|done]].
    destruct (advance_part rb c 0 H) as [Ha _]; [lia..|]. unfold reset_if_drained.
    destruct (rep_wf _ _ H) as [[Hs Hr0 _ Hp] _]. rewrite (isEmpty_false _ _ H) in Hp by (by apply nonempty_len).
    rewrite bool_decide_false; [done|]. cbn. rewrite Z.add_0_r, rem_small by lia. lia. }
  eexists. split; [|exact Hrep]. unfold short_write. destruct e as [e|]; [done|].
  specialize (He eq_refl). subst m. rewrite Nat2Z.id, drop_all in Hrep. by rewrite (isEmpty_true _ Hrep).
Qed.

(** Everything goes out in order, what is left stays, except that a ring that is
    full with both positions at 0 forgets everything when nothing was taken. *)
Definition forgets (rb : XBuffer) (n : Z) : Prop := n = 0 ∧ r rb = 0 ∧ w rb = 0.

Definition wrote_out (rb : XBuffer) (c : list Z) (wr : W) : Prop :=
  ∃ rb' wr' n e, WriteTo (rb, wr) = ((rb', wr'), Ok (n, e)) ∧
  0 <= n ∧ n <= len c ∧ taken wr' = taken wr ++ take (Z.to_nat n) c ∧
  (e = None → n = len c) ∧
  (rep rb' (drop (Z.to_nat n) c) ∨ forgets rb n ∧ e ≠ None ∧ rep rb' []).

Lemma WriteTo_line rb c wr : rep rb c → c ≠ [] → r rb < w rb → wrote_out rb c wr.
Proof.
  intros H Hc Hlt. pose proof (proj1 (nonempty_len _) Hc) as Hl. unfold wrote_out.
  destruct (write_out_spec rb wr c) as (wr' & m & e & E & H0 & H1 & H2 & H3).
  destruct (finish_spec rb c m e 0 wr' (λ m rb, set_r (r rb + m) rb) H Hc) as (rb' & Ef & Hr).
  { done. } { done. } { by rewrite <- (advance_line _ c) by done. } { done. } { right; lia. }
  exists rb', wr', m, e. split; [|split_and!; try done; by left].
  unfold WriteTo. rewrite (op_bind_ok get _ _ _ _ eq_refl). cbv beta iota zeta.
  rewrite (isEmpty_false _ _ H Hc), bool_decide_true by done.
  rewrite (line_len _ _ H Hlt), (line_slice _ c), Nat2Z.id, firstn_all by (done || lia).
  by rewrite (op_bind_ok _ _ _ _ _ E).
Qed.

Lemma WriteTo_end rb c wr :
  rep rb c → c ≠ [] → ¬ r rb < w rb → r rb + len c <= size rb → wrote_out rb c wr.
Proof.
  intros H Hc Hlt Hs. pose proof (proj1 (nonempty_len _) Hc) as Hl. unfold wrote_out.
  destruct (write_out_spec rb wr c) as (wr' & m & e & E & H0 & H1 & H2 & H3).
  assert (Ew : WriteTo (rb, wr) =
    finish (λ m rb, set_r (Z.rem (r rb + m) (size rb)) rb) 0 (m, e) (rb, wr')).
  { unfold WriteTo. rewrite (op_bind_ok get _ _ _ _ eq_refl). cbv beta iota zeta.
    rewrite (isEmpty_false _ _ H Hc), (bool_decide_false (r rb < w rb)) by done.
    rewrite (wrap_len _ _ H Hc Hlt), bool_decide_true by done.
    destruct (wrap_slices rb c (len c) H Hc Hlt) as [Es _]; [lia|lia|]. rewrite Es by done.
    rewrite Nat2Z.id, firstn_all. by rewrite (op_bind_ok _ _ _ _ _ E). }
  rewrite Ew. destruct (decide (m = 0 ∧ r rb = w rb)) as [[-> Hrw]|Hn].
  - destruct e as [e|]; [|specialize (H2 eq_refl); lia].
    destruct (rep_wf _ _ H) as [[Hsz Hr0 Hw0 Hp] _]. rewrite (isEmpty_false _ _ H Hc) in Hp.
    assert (r rb = 0) as Hz by (pose proof (wrap_len _ _ H Hc Hlt); lia).
    unfold finish. cbn. rewrite Hz, (rem_small (0 + 0)) by lia. unfold reset_if_drained. cbn.
    rewrite bool_decide_true by lia. eexists _, _, _, _. split; [done|].
    split_and!; try (done || lia). right. split; [unfold forgets; lia|]. split; [done|]. by constructor.
  - destruct (finish_spec rb c m e 0 wr' (λ m rb, set_r (Z.rem (r rb + m) (size rb)) rb) H Hc)
      as (rb' & Ef & Hr); try done; [lia|].
    exists rb', wr', m, e. split; [done|]. split_and!; try done. by left.
Qed.

Lemma WriteTo_two rb c wr :
  rep rb c → c ≠ [] → ¬ r rb < w rb → size rb < r rb + len c → wrote_out rb c wr.
Proof.
  intros H Hc Hlt Hs. pose proof (proj1 (nonempty_len _) Hc) as Hl. unfold wrote_out.
  destruct (wrap_slices rb c (len c) H Hc Hlt) as [_ Es]; [lia|lia|].
  destruct (Es Hs) as (p1 & p2 & E1 & E2 & Hp & Hl1). clear Es.
  rewrite Nat2Z.id, firstn_all in Hp.
  destruct (rep_wf _ _ H) as [[Hsz Hr0 Hw0 Hpos] _]. rewrite (isEmpty_false _ _ H Hc) in Hpos.
  assert (Hlp : len c = len p1 + len p2) by (rewrite <- Hp; len_solve).
  destruct (write_out_spec rb wr p1) as (wr1 & m1 & e1 & W1 & H0 & H1 & He1 & Ht1).
  destruct (advance_part rb c m1 H) as [Hrep1 _]; [lia..|].
  set (rb1 := set_r (Z.rem (r rb + m1) (size rb)) rb) in *.
  assert (Ew : WriteTo (rb, wr) =
    match e1 with
    | Some e => mret (m1, Some e)
    | None => if bool_decide (m1 < len p1) then mret (m1, Some ErrShortWrite) else
              me ← write_out (Ok p2); finish (λ m' rb, set_r m' rb) m1 me
    end (rb1, wr1)).
  { unfold WriteTo. rewrite (op_bind_ok get _ _ _ _ eq_refl). cbv beta iota zeta.
    rewrite (isEmpty_false _ _ H Hc), (bool_decide_false (r rb < w rb)) by done.
    rewrite (wrap_len _ _ H Hc Hlt), bool_decide_false by lia. rewrite E1, E2.
    rewrite (op_bind_ok _ _ _ _ _ W1). cbv beta iota zeta.
    rewrite (op_bind_ok (modify _) _ _ _ _ eq_refl). cbn [fst snd]. fold rb1. by rewrite <- Hl1. }
  rewrite Ew. destruct e1 as [e1|].
  - exists rb1, wr1, m1, (Some e1). split_and!; try done; [lia| |by left].
    rewrite Ht1, <- Hp. by rewrite take_app_le by lia.
  - specialize (He1 eq_refl). subst m1. rewrite bool_decide_false by lia.
    assert (Hd : drop (Z.to_nat (len p1)) c = p2) by (rewrite <- Hp; by apply drop_left).
    rewrite Hd in Hrep1.
    assert (Hr1 : r rb1 = 0) by (cbn; rewrite rem_wrap by lia; lia).
    destruct (write_out_spec rb1 wr1 p2) as (wr2 & m & e & W2 & H0' & H1' & He & Ht2).
    assert (Hp2 : p2 ≠ []) by (apply nonempty_len; lia).
    assert (Hw1 : r rb1 < w rb1).
    { pose proof (wrap_len _ _ H Hc Hlt). cbn in Hr1 |- *. rewrite Hr1. lia. }
    destruct (finish_spec rb1 p2 m e (len p1) wr2 (λ m' rb, set_r m' rb) Hrep1 Hp2)
      as (rb2 & Ef & Hr2); try done; [|by right; lia|].
    { rewrite <- (advance_line rb1 p2) by done. by rewrite Hr1. }
    rewrite (op_bind_ok _ _ _ _ _ W2). exists rb2, wr2, (len p1 + m), e. split; [done|].
    split_and!; [lia|lia| |intros Hn; specialize (He Hn); lia|left].
    + rewrite Ht2, Ht1, <- app_assoc, Nat2Z.id, firstn_all. f_equal.
      rewrite <- Hp, take_app_ge by lia. f_equal. f_equal. lia.
    + rewrite <- Hp. rewrite drop_app_ge by lia.
      by replace (Z.to_nat (len p1 + m) - length p1)%nat with (Z.to_nat m) by lia.
Qed.

Lemma WriteTo_empty rb wr : rep rb [] → WriteTo (rb, wr) = ((rb, wr), Ok (0, Some ErrIsEmpty)).
Proof.
  intros H. unfold WriteTo. rewrite (op_bind_ok get _ _ _ _ eq_refl).
  cbv beta iota. by rewrite (isEmpty_true _ H).
Qed.

Lemma WriteTo_spec rb c wr : rep rb c → c ≠ [] → wrote_out rb c wr.
Proof.
  intros H Hc. destruct (decide (r rb < w rb)); [by apply WriteTo_line|].
  destruct (decide (r rb + len c <= size rb)); [by apply WriteTo_end|apply WriteTo_two; done || lia].
Qed.
End write_to.

(** ** Reading in *)
Section read_from.
Context (fresh : Z → list Z) (fresh_len : ∀ n, 0 <= n → len (fresh n) = n).
Context {R : Type} {RD : IoReader R}.

Lemma start_w rb c : rep rb c → r rb = 0 → len c < size rb → w rb = len c.
Proof.
  destruct 1 as [b s ->|a c f b s i j -> -> -> -> Hc Hf|t f h b s i j c -> -> -> -> Hh ->]; cbn;
    intros; [done|lia|len_solve].
Qed.

(** A read into the free end of a ring that starts at 0. *)
Lemma fill_spec rb c rd :
  rep rb c → r rb = 0 → len c < size rb → (c ≠ [] ∨ ∀ k, 0 < k → (io_Read k rd).2.1 ≠ []) →
  ∃ rb' rd' d e, fill (w rb) (size rb) (rb, rd) = ((rb', rd'), Ok (len d, e)) ∧
  rep rb' (c ++ d) ∧ c ++ d ≠ [] ∧ r rb' = 0 ∧ size rb' = size rb ∧
  given rd' = given rd ++ d ∧ len d + to_come rd' <= to_come rd ∧
  (e = None → (left rd' < left rd)%nat).
Proof.
  intros H Hr Hl Hd. pose proof (start_w _ _ H Hr Hl) as Hw. pose proof (rep_size _ _ H) as Hs.
  unfold fill. rewrite slice_Ok by lia.
  set (room := take _ _). assert (Hroom : len room = size rb - len c) by (subst room; len_solve).
  pose proof (io_Read_law (len room) rd ltac:(lia)) as Hlaw.
  assert (Hd' : c ≠ [] ∨ (io_Read (len room) rd).2.1 ≠ []) by (destruct Hd as [?|Hd]; [by left|right; apply Hd; lia]).
  destruct (io_Read (len room) rd) as [rd' [d e]]. destruct Hlaw as (H1 & H2 & Ht & _ & H3). cbn in Hd'.
  assert (H3' : e = None → (left rd' < left rd)%nat) by (intros He; apply H3; [done|lia]).
  clear H3. rename H3' into H3.
  destruct d as [|x d].
  - destruct Hd' as [Hc|]; [|done].
    assert (E : copy_at (buf rb) (w rb) [] = Ok (buf rb)).
    { unfold copy_at. rewrite slice_from_Ok by lia. run. rewrite take_nil. cbn. by rewrite drop_0, take_drop. }
    rewrite E. cbn [length Z.of_nat]. rewrite Z.add_0_r, rem_small by lia.
    exists rb, rd', [], e. rewrite app_nil_r. split_and!; try done.
    pose proof (isEmpty_false _ _ H Hc). destruct rb; cbn in *. by subst.
  - set (n := len (x :: d)) in *.
    assert (Ew : Z.rem (w rb + n) (size rb) =
      if bool_decide (w rb + n = size rb) then 0 else w rb + n).
    { case_bool_decide; [rewrite rem_wrap by lia; lia|by rewrite rem_small by lia]. }
    destruct (put_spec rb c (x :: d) H) as (rb' & E & Hr' & Hs'); [done|subst n; lia|].
    unfold put in E. rewrite bool_decide_true in E by lia.
    fold n in E. rewrite (bool_decide_true (n <= size rb - w rb)) in E by lia.
    destruct (copy_at (buf rb) (w rb) (x :: d)) as [b|?|]; [|done..].
    rewrite mbind_Ok in E. injection E as <-.
    exists (not_empty (set_w (if bool_decide (w rb + n = size rb) then 0 else w rb + n) (set_buf b rb))), rd', (x :: d), e.
    split; [|split_and!; try done; by destruct c].
    by rewrite Ew.
Qed.

(** The second read of a turn, into no room at all. *)
Lemma fill_nothing rb c rd :
  rep rb c → c ≠ [] → r rb = 0 →
  ∃ rd' e, fill 0 (r rb) (rb, rd) = ((rb, rd'), Ok (0, e)) ∧
  given rd' = given rd ∧ to_come rd' <= to_come rd ∧ (left rd' <= left rd)%nat.
Proof.
  intros H Hc Hr. rewrite Hr. unfold fill. rewrite slice_Ok by lia.
  rewrite Z.sub_diag, take_0. change (len []) with 0.
  pose proof (io_Read_law 0 rd ltac:(lia)) as Hlaw.
  destruct (io_Read 0 rd) as [rd' [d e]]. destruct Hlaw as (H1 & H2 & Ht & H3 & _).
  assert (d = []) as -> by (apply len_nil; lia). cbn in Ht.
  assert (E : copy_at (buf rb) 0 [] = Ok (buf rb)).
  { unfold copy_at. rewrite slice_from_Ok by lia. run. by rewrite take_nil. }
  rewrite E. change (len []) with 0. rewrite Z.add_0_r. destruct (rep_wf _ _ H) as [[Hsz _ Hw0 Hp] _].
  pose proof (isEmpty_false _ _ H Hc) as He. rewrite He in Hp. rewrite rem_small by lia.
  exists rd', e. rewrite H2, app_nil_r. split_and!; try done. destruct rb; cbn in *. by subst.
Qed.

Lemma room_for_reading (rb : XBuffer) (rd : R) c :
  rep rb c → r rb = 0 → size rb < 2 ^ 58 → len c < 2 ^ 51 →
  ∃ rb', with_ring (λ rb, make_room fresh MinRead (Buffered rb + MinRead) rb) (rb, rd) =
    ((rb', rd), Ok ()) ∧
  rep rb' c ∧ r rb' = 0 ∧ len c < size rb' ∧ size rb' < 2 ^ 58.
Proof.
  intros H Hr Hs Hc. unfold with_ring. cbn [fst snd]. rewrite (Buffered_spec _ _ H).
  unfold MinRead.
  destruct (make_room_spec fresh fresh_len rb c 512 (len c + 512) H)
    as (rb' & -> & H' & Hfit & Hge & Hb); [lia..|].
  exists rb'. split; [done|]. split; [done|]. unfold DefaultBufferSize in Hb.
  destruct Hb as [->|(Hr' & Hlt & Hb)]; split_and!; done || lia.
Qed.

Lemma ReadFrom_spec fuel n rb c rd :
  rep rb c → r rb = 0 → (c ≠ [] ∨ ∀ k, 0 < k → (io_Read k rd).2.1 ≠ []) →
  (left rd < fuel)%nat → size rb < 2 ^ 58 → len c + to_come rd < 2 ^ 51 →
  ∃ rb' rd' d e, ReadFrom fresh fuel n (rb, rd) = ((rb', rd'), Ok (Some (n + len d, e))) ∧
  rep rb' (c ++ d) ∧ given rd' = given rd ++ d.
Proof.
  revert n rb c rd; induction fuel as [|fuel IH]; intros n rb c rd H Hr Hfirst Hfuel Hs Hc; [lia|].
  cbn [ReadFrom]. pose proof (to_come_pos rd).
  destruct (room_for_reading rb rd c H Hr Hs) as (rb1 & E1 & H1 & Hr1 & Hl1 & Hs1); [lia|].
  rewrite (op_bind_ok _ _ _ _ _ E1), (op_bind_ok get _ _ _ _ eq_refl). cbv beta iota zeta.
  destruct (rep_wf _ _ H1) as [[_ _ Hw1 _] _]. rewrite bool_decide_true by lia.
  destruct (fill_spec rb1 c rd H1 Hr1 Hl1 Hfirst)
    as (rb2 & rd2 & d & e & E2 & H2 & Hn2 & Hr2 & Hs2 & Hg2 & Ht2 & He2).
  rewrite (op_bind_ok _ _ _ _ _ E2). cbv beta iota zeta.
  destruct e as [e|]; [by exists rb2, rd2, d, (end_of e)|]. specialize (He2 eq_refl).
  destruct (fill_nothing rb2 (c ++ d) rd2 H2 Hn2 Hr2) as (rd3 & e & E3 & Hg3 & Ht3 & He3).
  rewrite Hr1. rewrite Hr2 in E3. rewrite (op_bind_ok _ _ _ _ _ E3). cbv beta iota zeta.
  rewrite Z.add_0_r. destruct e as [e|]; [exists rb2, rd3, d, (end_of e); by rewrite Hg3|].
  destruct (IH (n + len d) rb2 (c ++ d) rd3 H2 Hr2) as (rb4 & rd4 & d4 & e4 & E4 & H4 & Hg4);
    [by left|lia|lia|len_solve|].
  exists rb4, rd4, (d ++ d4), e4. rewrite E4. split_and!.
  - do 4 f_equal. len_solve.
  - by rewrite app_assoc.
  - by rewrite Hg4, Hg3, Hg2, app_assoc.
Qed.
End read_from.

(** ** The ring is a queue of bytes *)

Inductive op :=
  | OWrite (p : list Z)
  | OWriteByte (x : Z)
  | ORead (k : nat)
  | OReadByte
  | OPeek (n : Z)
  | OBytes
  | ODiscard (n : Z)
  | OReset
  | OBuffered
  | OIsEmpty.

Inductive answer :=
  | ABytes (o : outcome (list Z))
  | ANum (o : outcome Z)
  | AErr (o : outcome unit)
  | ABool (b : bool).

Definition exec (fresh : Z → list Z) (o : op) (rb : XBuffer) : XBuffer * answer :=
  match o with
  | OWrite p => let '(rb, x) := Write fresh p rb in (rb, ANum x)
  | OWriteByte x => let '(rb, x) := WriteByte fresh x rb in (rb, AErr x)
  | ORead k => let '(rb, x) := Read (Z.of_nat k) rb in (rb, ABytes x)
  | OReadByte => let '(rb, x) := ReadByte rb in (rb, ANum x)
  | OPeek n => (rb, ABytes ('(h, t) ← Peek n rb; Ok (h ++ t)))
  | OBytes => (rb, ABytes (Bytes rb))
  | ODiscard n => let '(rb, x) := Discard n rb in (rb, ANum (Ok x))
  | OReset => (Reset rb, AErr (Ok ()))
  | OBuffered => (rb, ANum (Ok (Buffered rb)))
  | OIsEmpty => (rb, ABool (IsEmpty rb))
  end.

(** The specification, on the bytes that wait. *)
Definition queue (o : op) (c : list Z) : list Z * answer :=
  match o with
  | OWrite p => (c ++ p, ANum (Ok (len p)))
  | OWriteByte x => (c ++ [x], AErr (Ok ()))
  | ORead k =>
      (drop k c, ABytes (if bool_decide (c = [] ∧ k ≠ 0%nat) then Err ErrIsEmpty else Ok (take k c)))
  | OReadByte => (tail c, ANum (match c with [] => Err ErrIsEmpty | x :: _ => Ok x end))
  | OPeek n => (c, ABytes (Ok (if bool_decide (n <= 0) then c else take (Z.to_nat n) c)))
  | OBytes => (c, ABytes (Ok c))
  | ODiscard n => (drop (Z.to_nat n) c, ANum (Ok (Z.max 0 (Z.min n (len c)))))
  | OReset => ([], AErr (Ok ()))
  | OBuffered => (c, ANum (Ok (len c)))
  | OIsEmpty => (c, ABool (bool_decide (c = [])))
  end.

(** The sizes that Go can allocate, and no [WriteByte] on a full large ring. *)
Definition fits (o : op) (rb : XBuffer) : Prop :=
  match o with
  | OWrite p => size rb + len p < 2 ^ 60
  | OWriteByte _ => size rb < 2 ^ 60 ∧ (IsFull rb = true → size rb < bufferGrowThreshold)
  | _ => True
  end.

Lemma IsFull_spec rb c : rep rb c → 0 < size rb → IsFull rb = bool_decide (len c = size rb).
Proof.
  intros H Hs. pose proof (Buffered_spec _ _ H) as HB. pose proof (rep_wf _ _ H) as [[_ Hr Hw Hp] _].
  unfold IsFull. unfold Buffered in HB. destruct (isEmpty rb) eqn:E.
  - destruct Hp as [Hr0 Hw0]. rewrite bool_decide_true in HB by lia. rewrite andb_false_r.
    by rewrite bool_decide_false by lia.
  - cbn. destruct (decide (r rb = w rb)).
    + rewrite bool_decide_true in HB by done. by rewrite !bool_decide_true by lia.
    + rewrite bool_decide_false in HB by done. rewrite (bool_decide_false (r rb = w rb)) by done. cbn.
      case_bool_decide; by rewrite bool_decide_false by lia.
Qed.

Lemma New_rep n rb : n <= maxintHeadBit → New n = Ok rb → rep rb [].
Proof.
  intros Hn. unfold New. case_bool_decide; [intros [= <-]; by constructor|].
  destruct (CeilToPowerOfTwo_spec n) as (k & Hk & -> & _ & _); [done|]. run. intros [= <-].
  constructor. pose proof (Z.pow_pos_nonneg 2 k). len_solve.
Qed.


(** Streams through a ring.  Out: a writer gets what the ring holds, in order,
    as far as it takes it, what it did not take stays, and a success means that
    all was taken; except that a ring that is full with both positions at 0
    forgets everything when the writer takes nothing.  In: a ring that reads
    from position 0, and holds something or reads something first, ends up with
    all the reader gave behind what it held, whatever blocks it grew through. *)
Theorem ring_streams {W R} {WR : IoWriter W} {RD : IoReader R} rb :
  wf rb →
  (contents rb = [] → ∀ wr, WriteTo (rb, wr) = ((rb, wr), Ok (0, Some ErrIsEmpty))) ∧
  (contents rb ≠ [] → ∀ wr, ∃ rb' wr' n e, WriteTo (rb, wr) = ((rb', wr'), Ok (n, e)) ∧
   wf rb' ∧ taken wr' = taken wr ++ take (Z.to_nat n) (contents rb) ∧
   0 <= n <= len (contents rb) ∧ (e = None → n = len (contents rb)) ∧
   (contents rb' = drop (Z.to_nat n) (contents rb) ∨
    n = 0 ∧ r rb = 0 ∧ IsFull rb = true ∧ contents rb' = [])) ∧
  (∀ fresh fuel rd, (∀ n, 0 <= n → len (fresh n) = n) → r rb = 0 →
   (contents rb ≠ [] ∨ ∀ k, 0 < k → (io_Read k rd).2.1 ≠ []) →
   (left rd < fuel)%nat → size rb < 2 ^ 58 → len (contents rb) + to_come rd < 2 ^ 51 →
   ∃ rb' rd' d e, ReadFrom fresh fuel 0 (rb, rd) = ((rb', rd'), Ok (Some (len d, e))) ∧
   wf rb' ∧ contents rb' = contents rb ++ d ∧ given rd' = given rd ++ d).
Proof.
  intros Hwf. pose proof (wf_rep _ Hwf) as H. split_and!.
  - intros Hc wr. rewrite Hc in H. by apply WriteTo_empty.
  - intros Hc wr. destruct (WriteTo_spec rb _ wr H Hc) as (rb' & wr' & n & e & E & H0 & H1 & Ht & He & Hr).
    exists rb', wr', n, e. split; [done|].
    assert (Hr' : ∃ c', rep rb' c') by (destruct Hr as [?|(_ & _ & ?)]; eauto).
    destruct Hr' as [c' Hr']. destruct (rep_wf _ _ Hr') as [Hwf' Hc']. split_and!; try done.
    destruct Hr as [Hr|((Hn & Hr0 & Hw0) & _ & Hr)]; destruct (rep_wf _ _ Hr) as [_ ->]; [by left|].
    right. split_and!; try done. unfold IsFull. rewrite (isEmpty_false _ _ H Hc).
    by rewrite bool_decide_true by lia.
  - intros fresh fuel rd Hf Hr Hfirst Hfuel Hs Ht.
    destruct (ReadFrom_spec fresh Hf fuel 0 rb _ rd H Hr Hfirst Hfuel Hs Ht)
      as (rb' & rd' & d & e & E & Hrep & Hg).
    exists rb', rd', d, e. destruct (rep_wf _ _ Hrep). by split_and!.
Qed.

(** The capacity that a ring grows to: it is found, the loop of [grow]
    turning four times at most, it is what was asked for or more, and no more
    than twice that (or than the first size), for every size below 2^60. *)
Theorem growing_ends n newCap :
  0 <= n → n < 2 ^ 60 → newCap < 2 ^ 60 →
  (bufferGrowThreshold <= n → newCap <= 2 * n → is_Some (grow_loop 4 n newCap)) ∧
  ∃ m, grown n newCap = Ok m ∧ newCap <= m ∧ n <= m ∧
  m <= Z.max DefaultBufferSize (2 * Z.max n newCap).
Proof.
  intros H0 Hn Hc. split.
  - unfold bufferGrowThreshold. intros Ht H2.
    destruct (grow_loop_ends 4 n newCap) as (m & -> & _); [lia|lia|lia| |by eexists].
    change (4 ^ Z.of_nat 4) with 256. change (5 ^ Z.of_nat 4) with 625. lia.
  - destruct (grown_spec n newCap) as (m & ? & ? & ? & ? & ? & _); [done..|]. by exists m.
Qed.

(** ** Examples

    A reader that gives its chunks one after the other, in pieces when there is
    less room, and a writer that takes the counts it is told. *)
Definition chunks : Type := list Z * list (list Z * option error).
Definition chunks_Read (k : Z) (s : chunks) : chunks * (list Z * option error) :=
  match s.2 with
  | [] => (s, ([], Some EOF))
  | (d, e) :: l =>
      if bool_decide (k < len d)
      then ((s.1 ++ take (Z.to_nat k) d, (drop (Z.to_nat k) d, e) :: l), (take (Z.to_nat k) d, None))
      else ((s.1 ++ d, l), (d, e))
  end.
#[export, refine] Instance chunks_reader : IoReader chunks := {
  io_Read := chunks_Read;
  given s := s.1;
  to_come s := foldr (λ x n, len x.1 + n) 0 s.2;
  left s := foldr (λ x n, S (length x.1 + n)) 0%nat s.2;
}.
Proof.
  - intros k [g [|[d e] l]] Hk; cbn.
    + rewrite app_nil_r. split_and!; done || lia.
    + unfold chunks_Read. cbn. case_bool_decide; cbn; split_and!; try done; len_solve.
  - intros [g l]. cbn. induction l; cbn; lia.
Defined.

Definition counts : Type := list Z * list (Z * option error).
Definition counts_Write (p : list Z) (s : counts) : counts * (Z * option error) :=
  let '(m, e) := match s.2 with [] => (len p, None) | x :: _ => x end in
  let m := Z.max 0 (Z.min m (len p)) in
  ((s.1 ++ take (Z.to_nat m) p, tail s.2),
   (m, if bool_decide (m = len p) then e else Some (default ErrShortWrite e))).
#[export, refine] Instance counts_writer : IoWriter counts := { io_Write := counts_Write; taken s := s.1 }.
Proof.
  intros p [t l]. unfold counts_Write. cbn.
  destruct (match l with [] => (len p, None) | x :: _ => x end) as [m e].
  split_and!; [lia|lia| |done]. case_bool_decide; done.
Defined.

Definition zeros (n : Z) : list Z := replicate (Z.to_nat n) 0.
Lemma zeros_len n : 0 <= n → len (zeros n) = n.
Proof. intros. unfold zeros. len_solve. Qed.

(** Five bytes written to a new ring, two of them read. *)
Definition small_ring : XBuffer :=
  match New 1024 with Ok rb => (Read 2 (Write zeros [1; 2; 3; 4; 5] rb).1).1 | _ => mkRing [] 0 0 0 true end.
Lemma small_ring_wf : wf small_ring.
Proof. by split; vm_compute; repeat split. Qed.

(** A full ring that starts at 0. *)
Definition full_ring : XBuffer := mkRing [1; 2; 3; 4] 4 0 0 false.
Lemma full_ring_wf : wf full_ring.
Proof. by split; vm_compute; repeat split. Qed.

(** A short read is not the end of the turn: the second read goes to the start
    of the block, away from where the first ended. *)
Lemma short_read_corrupts :
  contents small_ring = [3; 4; 5] ∧
  let '((rb, rd), res) := ReadFrom zeros 9 0 (small_ring, ([], [([6], None); ([7], None)])) in
  res = Ok (Some (2, None)) ∧ given rd = [6; 7] ∧ contents rb = [3; 4; 5; 6; 0].
Proof. by vm_compute. Qed.

(** Reading from a reader that is at its end makes an empty ring full. *)
Lemma empty_reader_fills :
  let '((rb, rd), res) := ReadFrom zeros 9 0 (mkRing (zeros 1024) 1024 0 0 true, ([], [])) in
  res = Ok (Some (0, None)) ∧ IsFull rb = true ∧ Buffered rb = 1024.
Proof. by vm_compute. Qed.

Lemma write_byte_panics :
  (WriteByte zeros 1 (mkRing (zeros 4096) 4096 0 0 false)).2 = Panic.
Proof.
  pose proof (WriteByte_spec zeros zeros_len (mkRing (zeros 4096) 4096 0 0 false) (zeros 4096) 1) as H.
  rewrite bool_decide_true in H by (split; by vm_compute). apply H; [|done].
  eapply (rep_wrap [] [] (zeros 4096)); by vm_compute.
Qed.

Lemma stalled_writer_forgets :
  let '((rb, _), res) := WriteTo (full_ring, ([], [(0, Some EAGAIN)])) in
  contents full_ring = [1; 2; 3; 4] ∧ res = Ok (0, Some EAGAIN) ∧ contents rb = [].
Proof. by vm_compute. Qed.

(** ** Witnesses *)


Definition two_chunks : chunks := ([], [([6], None); ([7], None)]).
Definition read_in : XBuffer * chunks * outcome (option (Z * option error)) :=
  ReadFrom zeros 9 0 (full_ring, two_chunks).
Lemma read_in_given : read_in.1.2 = ([6; 7], []).
Proof. by vm_compute. Qed.

Lemma ring_streams_witness :
  read_in.2 = Ok (Some (2, None)) ∧ contents read_in.1.1 = [1; 2; 3; 4; 6; 7].
Proof.
  split; [by vm_compute|].
  destruct (ring_streams (WR := counts_writer) (RD := chunks_reader) full_ring full_ring_wf) as (_ & _ & H).
  destruct (H zeros 9%nat two_chunks zeros_len eq_refl)
    as (rb' & rd' & d & e & E & Hwf & Hc & Hg); [by left|cbn; lia|done|done|].
  pose proof read_in_given as Hd. unfold read_in in Hd |- *. rewrite E in Hd |- *.
  cbn [fst snd] in Hd |- *. subst rd'. rewrite Hc. cbn in Hg. by rewrite <- Hg.
Defined.

Lemma growing_ends_witness : grown 4096 7000 = Ok 8000.
Proof.
  destruct (growing_ends 4096 7000) as [_ (m & E & _)]; [done..|]. rewrite E. vm_compute in E. by rewrite <- E.
Defined.
