(* ===== verification/Elastic.v ===== *)
(** * utils/xbuffer: the linked-list buffer and the elastic buffers

    xlinked_list_buffer.go, xelastic_ring_buffer.go and
    xelastic_ring_list_buffer.go: a list of blocks; a ring that is taken from a
    pool when it is needed; and the two together, the list behind the ring.
    What a buffer holds is its [contents]; what goes back to the pools of blocks
    is not followed. *)
From S2P Require Import Prelude Ring.
#[local] Close Scope nat_scope.
Open Scope Z_scope.

Definition MaxInt32 : Z := 2 ^ 31 - 1.

Lemma take_nil_iff {A} k (c : list A) : 0 < k → take (Z.to_nat k) c = [] ↔ c = [].
Proof.
  intros Hk. destruct (Z.to_nat k) as [|n] eqn:E; [lia|]. by destruct c.
Qed.

(** ** The list of blocks *)
Module Linked.

(** The nodes from head to tail, their number and that of their bytes. *)
Record XBuffer := mkLinked { nodes : list (list Z); count : Z; bytes : Z }.
Definition empty : XBuffer := mkLinked [] 0 0.

Definition pop (l : XBuffer) : XBuffer * option (list Z) :=
  match nodes l with
  | [] => (l, None)
  | b :: bs => (mkLinked bs (count l - 1) (bytes l - len b), Some b)
  end.
Definition pushFront (b : list Z) (l : XBuffer) : XBuffer :=
  mkLinked (b :: nodes l) (count l + 1) (bytes l + len b).
Definition pushBack (b : list Z) (l : XBuffer) : XBuffer :=
  mkLinked (nodes l ++ [b]) (count l + 1) (bytes l + len b).

Definition Buffered (l : XBuffer) : Z := bytes l.
Definition Len (l : XBuffer) : Z := count l.
Definition IsEmpty (l : XBuffer) : bool := match nodes l with [] => true | _ => false end.

(** [Append] mounts the slice, [PushBack] and [PushFront] copy it. *)
Definition Append (p : list Z) (l : XBuffer) : XBuffer :=
  if bool_decide (len p = 0) then l else pushBack p l.
Definition PushBack (p : list Z) (l : XBuffer) : XBuffer :=
  if bool_decide (len p = 0) then l else pushBack p l.
Definition PushFront (p : list Z) (l : XBuffer) : XBuffer :=
  if bool_decide (len p = 0) then l else pushFront p l.
Definition Pop (l : XBuffer) : XBuffer * list Z :=
  let '(l, b) := pop l in (l, default [] b).

(** [for b := pop(); b != nil; b = pop()], with room for [k] bytes: there is a
    turn for every node at most, and [fuel] is their number plus one. *)
Fixpoint read_loop (fuel : nat) (k : Z) (l : XBuffer) : XBuffer * list Z :=
  match fuel with
  | O => (l, [])
  | S fuel =>
      match pop l with
      | (l, None) => (l, [])
      | (l, Some b) =>
          let m := Z.min k (len b) in
          let p := take (Z.to_nat m) b in
          let l := if bool_decide (m < len b) then pushFront (drop (Z.to_nat m) b) l else l in
          if bool_decide (m = k) then (l, p)
          else let '(l, q) := read_loop fuel (k - m) l in (l, p ++ q)
      end
  end.

(** The bytes and the error. *)
Definition Read (k : Z) (l : XBuffer) : XBuffer * (list Z * option error) :=
  if bool_decide (k = 0) then (l, ([], None)) else
  let '(l, p) := read_loop (S (length (nodes l))) k l in
  (l, (p, if bool_decide (p = []) then Some EOF else None)).

Fixpoint peek_nodes (maxBytes cum : Z) (l : list (list Z)) : list (list Z) :=
  match l with
  | [] => []
  | b :: l =>
      let offset := if bool_decide (maxBytes < cum + len b) then maxBytes - cum else len b in
      take (Z.to_nat offset) b ::
      (if bool_decide (cum + offset = maxBytes) then [] else peek_nodes maxBytes (cum + offset) l)
  end.

(** The limit that both peeks take, or none. *)
Definition peek_limit (maxBytes : Z) (l : XBuffer) : option Z :=
  if bool_decide (maxBytes <= 0 ∨ maxBytes = MaxInt32) then Some MaxInt32
  else if bool_decide (Buffered l < maxBytes) then None else Some maxBytes.

Definition Peek (maxBytes : Z) (l : XBuffer) : outcome (list (list Z)) :=
  match peek_limit maxBytes l with
  | Some m => Ok (peek_nodes m 0 (nodes l))
  | None => Err ErrShortBuffer
  end.

(** The slices given first: what is taken of them, and where the count ends. *)
Fixpoint peek_given (maxBytes cum : Z) (bs : list (list Z)) : list (list Z) * Z :=
  match bs with
  | [] => ([], cum)
  | b :: bs =>
      if bool_decide (0 < len b) then
        let offset := if bool_decide (maxBytes < cum + len b) then maxBytes - cum else len b in
        let '(out, end_) := if bool_decide (cum + offset = maxBytes) then ([], maxBytes)
                            else peek_given maxBytes (cum + offset) bs in
        (take (Z.to_nat offset) b :: out, end_)
      else peek_given maxBytes cum bs
  end.

Definition PeekWithBytes (maxBytes : Z) (bs : list (list Z)) (l : XBuffer) : outcome (list (list Z)) :=
  match peek_limit maxBytes l with
  | Some m =>
      let '(out, cum) := peek_given m 0 bs in
      Ok (if bool_decide (cum = m) then out else out ++ peek_nodes m cum (nodes l))
  | None => Err ErrShortBuffer
  end.

Fixpoint discard_loop (fuel : nat) (n discarded : Z) (l : XBuffer) : XBuffer * Z :=
  match fuel with
  | O => (l, discarded)
  | S fuel =>
      if bool_decide (n = 0) then (l, discarded) else
      match pop l with
      | (l, None) => (l, discarded)
      | (l, Some b) =>
          if bool_decide (n < len b)
          then (pushFront (drop (Z.to_nat n) b) l, discarded + n)
          else discard_loop fuel (n - len b) (discarded + len b) l
      end
  end.

Definition Discard (n : Z) (l : XBuffer) : XBuffer * Z :=
  if bool_decide (n <= 0) then (l, 0) else discard_loop (S (length (nodes l))) n 0 l.

Definition Reset (l : XBuffer) : XBuffer := empty.

(** *** Readers and writers *)
Section io.
Context {R : Type} {RD : IoReader R} {W : Type} {WR : IoWriter W}.

Definition minRead : Z := 512.

(** The bytes that come with an error are counted and put back into the pool. *)
Fixpoint ReadFrom (fuel : nat) (n : Z) (s : XBuffer * R) : (XBuffer * R) * option (Z * option error) :=
  match fuel with
  | O => (s, None)
  | S fuel =>
      let '(rd, (d, e)) := io_Read minRead s.2 in
      let n := n + len d in
      match e with
      | Some e => ((s.1, rd), Some (n, end_of e))
      | None => ReadFrom fuel n (pushBack d s.1, rd)
      end
  end.

(** A node that was written with an error is not put back. *)
Fixpoint write_loop (fuel : nat) (n : Z) (l : XBuffer) (wr : W)
    : (XBuffer * W) * outcome (Z * option error) :=
  match fuel with
  | O => ((l, wr), Ok (n, None))
  | S fuel =>
      match pop l with
      | (l, None) => ((l, wr), Ok (n, None))
      | (l, Some b) =>
          let '(wr, (m, e)) := io_Write b wr in
          if bool_decide (len b < m) then ((l, wr), Panic) else
          let n := n + m in
          match e with
          | Some e => ((l, wr), Ok (n, Some e))
          | None =>
              if bool_decide (m < len b)
              then ((pushFront (drop (Z.to_nat m) b) l, wr), Ok (n, Some ErrShortWrite))
              else write_loop fuel n l wr
          end
      end
  end.

Definition WriteTo : Op (XBuffer * W) (Z * option error) := λ s,
  write_loop (S (length (nodes s.1))) 0 s.1 s.2.
End io.

(** *** What it holds *)

Definition contents (l : XBuffer) : list Z := concat (nodes l).
Record wf (l : XBuffer) : Prop := {
  wf_count : count l = len (nodes l);
  wf_bytes : bytes l = len (contents l);
}.

Lemma empty_wf : wf empty.
Proof. done. Qed.

Lemma pop_wf l : wf l → wf (pop l).1.
Proof.
  destruct l as [[|b bs] c n]; [done|]. intros [H1 H2]. split; cbn in *; [lia|].
  unfold contents in *. cbn in *. len_solve.
Qed.

Lemma pushFront_wf b l : wf l → wf (pushFront b l) ∧ contents (pushFront b l) = b ++ contents l.
Proof. intros [H1 H2]. split; [|done]. split; unfold contents in *; cbn in *; len_solve. Qed.

Lemma pushBack_wf b l : wf l → wf (pushBack b l) ∧ contents (pushBack b l) = contents l ++ b.
Proof.
  intros [H1 H2]. assert (E : contents (pushBack b l) = contents l ++ b).
  { unfold contents. cbn. rewrite concat_app. cbn. by rewrite app_nil_r. }
  split; [|done]. split; [|rewrite E]; cbn; len_solve.
Qed.

Lemma PushBack_spec p l : wf l → wf (PushBack p l) ∧ contents (PushBack p l) = contents l ++ p.
Proof.
  intros H. unfold PushBack. case_bool_decide as Hp; [|by apply pushBack_wf].
  apply len_nil in Hp as ->. by rewrite app_nil_r.
Qed.

Lemma pop_Some l l' b : pop l = (l', Some b) → nodes l = b :: nodes l'.
Proof. destruct l as [[|b' bs] c n]; intros [= <- <-]. done. Qed.
Lemma pop_None l l' : pop l = (l', None) → l' = l ∧ nodes l = [].
Proof. destruct l as [[|b' bs] c n]; intros [= <-]. done. Qed.

Lemma cut_cons (b : list Z) bs k :
  0 <= k → k <= len b → take (Z.to_nat k) (concat (b :: bs)) = take (Z.to_nat k) b ∧
  drop (Z.to_nat k) (concat (b :: bs)) = drop (Z.to_nat k) b ++ concat bs.
Proof.
  intros H0 Hk. cbn. rewrite take_app_le, drop_app_le by lia. done.
Qed.

Lemma past_cons (b : list Z) bs k :
  len b <= k → take (Z.to_nat k) (concat (b :: bs)) = b ++ take (Z.to_nat (k - len b)) (concat bs) ∧
  drop (Z.to_nat k) (concat (b :: bs)) = drop (Z.to_nat (k - len b)) (concat bs).
Proof.
  intros Hk. cbn. rewrite take_app_ge, drop_app_ge by lia.
  by replace (Z.to_nat k - length b)%nat with (Z.to_nat (k - len b)) by lia.
Qed.

Lemma read_loop_spec fuel k l :
  wf l → 0 < k → (length (nodes l) < fuel)%nat →
  ∃ l', read_loop fuel k l = (l', take (Z.to_nat k) (contents l)) ∧ wf l' ∧
  contents l' = drop (Z.to_nat k) (contents l).
Proof.
  revert k l; induction fuel as [|fuel IH]; intros k l Hwf Hk Hf; [lia|]. cbn [read_loop].
  destruct (pop l) as [l1 [b|]] eqn:Ep.
  - pose proof (pop_wf l Hwf) as Hwf1. rewrite Ep in Hwf1. cbn [fst] in Hwf1.
    apply pop_Some in Ep. assert (Ec : contents l = concat (b :: nodes l1)) by (unfold contents; by rewrite Ep).
    rewrite Ec.
    destruct (decide (k <= len b)) as [Hkb|Hkb].
    + rewrite Z.min_l, (bool_decide_true (k = k)) by lia.
      destruct (cut_cons b (nodes l1) k) as [-> ->]; [lia..|].
      eexists. split; [done|]. case_bool_decide; [by apply pushFront_wf|].
      rewrite drop_ge by lia. done.
    + rewrite Z.min_r, (bool_decide_false (len b < len b)), bool_decide_false by lia.
      destruct (past_cons b (nodes l1) k) as [-> ->]; [lia|].
      destruct (IH (k - len b) l1 Hwf1) as (l' & -> & Hwf' & Hc'); [lia| |].
      { rewrite Ep in Hf. cbn in Hf. lia. }
      exists l'. split; [|done]. f_equal. f_equal. rewrite Nat2Z.id. apply firstn_all.
  - apply pop_None in Ep as [-> En]. exists l. unfold contents. rewrite En. cbn.
    by rewrite take_nil, drop_nil.
Qed.

Lemma linked_Read_spec k l :
  wf l → 0 <= k →
  ∃ l', Read k l = (l', (take (Z.to_nat k) (contents l),
                         if bool_decide (k ≠ 0 ∧ contents l = []) then Some EOF else None)) ∧
  wf l' ∧ contents l' = drop (Z.to_nat k) (contents l).
Proof.
  intros Hwf Hk. unfold Read. destruct (decide (k = 0)) as [->|Hk0].
  { rewrite bool_decide_true by done. exists l. by rewrite bool_decide_false by tauto. }
  rewrite bool_decide_false by done.
  destruct (read_loop_spec (S (length (nodes l))) k l) as (l' & -> & Hwf' & Hc'); [done|lia|lia|].
  exists l'. split; [|done].
  by rewrite (bool_decide_ext (k ≠ 0 ∧ contents l = []) (take (Z.to_nat k) (contents l) = []))
    by (rewrite take_nil_iff by lia; tauto).
Qed.

Lemma discard_loop_spec fuel n d l :
  wf l → 0 <= n → (length (nodes l) < fuel)%nat →
  ∃ l', discard_loop fuel n d l = (l', d + Z.min n (len (contents l))) ∧ wf l' ∧
  contents l' = drop (Z.to_nat n) (contents l).
Proof.
  revert n d l; induction fuel as [|fuel IH]; intros n d l Hwf Hn Hf; [lia|]. cbn [discard_loop].
  case_bool_decide as Hn0.
  { subst n. exists l. rewrite Z.min_l, Z.add_0_r by lia. done. }
  destruct (pop l) as [l1 [b|]] eqn:Ep.
  - pose proof (pop_wf l Hwf) as Hwf1. rewrite Ep in Hwf1. cbn [fst] in Hwf1.
    apply pop_Some in Ep. assert (Ec : contents l = concat (b :: nodes l1)) by (unfold contents; by rewrite Ep).
    assert (El : len (contents l) = len b + len (contents l1)) by (rewrite Ec; cbn; unfold contents; len_solve).
    rewrite El, Ec. case_bool_decide as Hb.
    + destruct (cut_cons b (nodes l1) n) as [_ ->]; [lia..|].
      eexists. split; [|by apply pushFront_wf]. f_equal. lia.
    + destruct (past_cons b (nodes l1) n) as [_ ->]; [lia|].
      destruct (IH (n - len b) (d + len b) l1 Hwf1) as (l' & -> & Hwf' & Hc'); [lia| |].
      { rewrite Ep in Hf. cbn in Hf. lia. }
      exists l'. split; [f_equal; lia|done].
  - apply pop_None in Ep as [-> En]. exists l. unfold contents. rewrite En. cbn.
    rewrite drop_nil. split_and!; [f_equal; lia|done|done].
Qed.

Lemma linked_Discard_spec n l :
  wf l → ∃ l', Discard n l = (l', Z.max 0 (Z.min n (len (contents l)))) ∧ wf l' ∧
  contents l' = drop (Z.to_nat n) (contents l).
Proof.
  intros Hwf. unfold Discard. case_bool_decide as Hn.
  - exists l. rewrite Z.max_l by lia. by replace (Z.to_nat n) with 0%nat by lia.
  - destruct (discard_loop_spec (S (length (nodes l))) n 0 l) as (l' & -> & H); [done|lia..|].
    exists l'. split; [f_equal; lia|done].
Qed.

Lemma peek_nodes_spec m cum bs :
  cum < m → concat (peek_nodes m cum bs) = take (Z.to_nat (m - cum)) (concat bs).
Proof.
  revert cum; induction bs as [|b bs IH]; intros cum Hc; cbn [peek_nodes concat]; [by rewrite take_nil|].
  case_bool_decide as Hb.
  - rewrite bool_decide_true by lia. cbn [concat]. by rewrite app_nil_r, take_app_le by lia.
  - rewrite Nat2Z.id, firstn_all, take_app_ge by lia. f_equal.
    case_bool_decide as He.
    + replace (Z.to_nat (m - cum) - length b)%nat with 0%nat by lia. done.
    + rewrite IH by lia. f_equal. lia.
Qed.

Lemma peek_limit_spec m l :
  peek_limit m l = if bool_decide (m <= 0 ∨ m = MaxInt32) then Some MaxInt32
                   else if bool_decide (bytes l < m) then None else Some m.
Proof. done. Qed.

Lemma peek_given_spec m cum bs :
  cum < m → (peek_given m cum bs).2 = Z.min m (cum + len (concat bs)) ∧
  concat (peek_given m cum bs).1 = take (Z.to_nat (m - cum)) (concat bs).
Proof.
  revert cum; induction bs as [|b bs IH]; intros cum Hc; cbn [peek_given concat].
  { rewrite take_nil. cbn. split; [lia|done]. }
  case_bool_decide as Hb.
  - destruct (decide (m < cum + len b)) as [Hm|Hm].
    + rewrite (bool_decide_true (m < cum + len b)), bool_decide_true by lia.
      cbn. rewrite app_nil_r, take_app_le by lia. split; [len_solve|done].
    + rewrite (bool_decide_false (m < cum + len b)) by lia.
      case_bool_decide as He; cbn [fst snd concat].
      * rewrite app_nil_r, Nat2Z.id, firstn_all. rewrite take_app_le by lia.
        split; [len_solve|by rewrite take_ge by lia].
      * destruct (IH (cum + len b)) as [E1 E2]; [lia|].
        destruct (peek_given m (cum + len b) bs) as [out end_]. cbn in *. subst end_. rewrite E2.
        rewrite Nat2Z.id, firstn_all, take_app_ge by lia.
        replace (Z.to_nat (m - cum) - length b)%nat with (Z.to_nat (m - (cum + len b))) by lia.
        split; [len_solve|done].
  - assert (b = []) as -> by (apply len_nil; lia). cbn [app]. by apply IH.
Qed.

Lemma peek_both m bs l :
  0 < m → let '(out, cum) := peek_given m 0 bs in
  concat (if bool_decide (cum = m) then out else out ++ peek_nodes m cum (nodes l)) =
  take (Z.to_nat m) (concat bs ++ contents l).
Proof.
  intros Hm. destruct (peek_given_spec m 0 bs Hm) as [E1 E2]. rewrite Z.sub_0_r in E2.
  destruct (peek_given m 0 bs) as [out cum]. cbn in E1, E2. case_bool_decide as Hc.
  - by rewrite E2, take_app_le by lia.
  - rewrite concat_app, peek_nodes_spec, E2 by lia. rewrite take_ge, take_app_ge by lia.
    do 2 f_equal. lia.
Qed.

Lemma PeekWithBytes_spec m bs l :
  wf l →
  match peek_limit m l with
  | None => PeekWithBytes m bs l = Err ErrShortBuffer
  | Some m' => ∃ out, PeekWithBytes m bs l = Ok out ∧ concat out = take (Z.to_nat m') (concat bs ++ contents l)
  end.
Proof.
  intros _. unfold PeekWithBytes. destruct (peek_limit m l) as [m'|] eqn:El; [|done].
  assert (0 < m') as Hm.
  { revert El. unfold peek_limit, MaxInt32. case_bool_decide; [by intros [= <-]|].
    case_bool_decide; [done|intros [= <-]; lia]. }
  pose proof (peek_both m' bs l Hm) as H. destruct (peek_given m' 0 bs) as [out cum]. by eexists.
Qed.

Lemma take_some {A} (l : list A) k : l ≠ [] → 0 < k → take (Z.to_nat k) l ≠ [].
Proof. intros Hl Hk. rewrite take_nil_iff; done. Qed.

Lemma peek_given_some m cum bs : cum < m → Forall (λ p, p ≠ []) (peek_given m cum bs).1.
Proof.
  revert cum; induction bs as [|b bs IH]; intros cum Hc; cbn [peek_given]; [by constructor|].
  case_bool_decide as Hb; [|by apply IH]. apply nonempty_len in Hb as Hne.
  destruct (decide (m < cum + len b)) as [Hm|Hm].
  - rewrite (bool_decide_true (m < cum + len b)), bool_decide_true by lia.
    constructor; [apply take_some; done || lia|done].
  - rewrite (bool_decide_false (m < cum + len b)) by lia. case_bool_decide.
    + constructor; [apply take_some; done || lia|done].
    + specialize (IH (cum + len b) ltac:(lia)). destruct (peek_given m (cum + len b) bs).
      constructor; [apply take_some; done || lia|done].
Qed.

Lemma peek_nodes_some m cum bs :
  cum < m → Forall (λ p, p ≠ []) bs → Forall (λ p, p ≠ []) (peek_nodes m cum bs).
Proof.
  intros Hc H. revert cum Hc. induction H as [|b bs Hb _ IH]; intros cum Hc; cbn [peek_nodes]; [by constructor|].
  apply nonempty_len in Hb as Hl. destruct (decide (m < cum + len b)) as [Hm|Hm].
  - rewrite (bool_decide_true (m < cum + len b)), bool_decide_true by lia.
    constructor; [apply take_some; done || lia|done].
  - rewrite (bool_decide_false (m < cum + len b)) by lia.
    constructor; [apply take_some; done || lia|]. case_bool_decide; [done|apply IH; lia].
Qed.

(** A list none of whose nodes is empty stays so. *)
Definition solid (l : XBuffer) : Prop := Forall (λ b, b ≠ []) (nodes l).

Lemma PushBack_solid p l : solid l → solid (PushBack p l).
Proof.
  intros H. unfold PushBack. case_bool_decide as Hp; [done|]. apply Forall_app. split; [done|].
  constructor; [|done]. by intros ->.
Qed.

Lemma rest_solid (b : list Z) n l : solid l → 0 <= n → n < len b → solid (pushFront (drop (Z.to_nat n) b) l).
Proof.
  intros H H0 Hn. constructor; [|done]. intros Hd%(f_equal length). rewrite length_drop in Hd. cbn in Hd. lia.
Qed.

Lemma pop_solid l l' b : solid l → pop l = (l', b) → solid l'.
Proof. destruct l as [[|b' bs] c n]; intros H; [by intros [= <- <-]|]. intros [= <- <-]. by apply Forall_inv_tail in H. Qed.

Lemma read_loop_solid fuel k l : solid l → 0 <= k → solid (read_loop fuel k l).1.
Proof.
  revert k l; induction fuel as [|fuel IH]; intros k l H Hk; [done|]. cbn [read_loop].
  destruct (pop l) as [l1 [b|]] eqn:Ep; pose proof (pop_solid _ _ _ H Ep) as H1; [|done].
  set (l2 := if bool_decide (Z.min k (len b) < len b) then _ else l1).
  assert (H2 : solid l2) by (unfold l2; case_bool_decide; [apply rest_solid; done || lia|done]).
  case_bool_decide; [done|]. specialize (IH (k - Z.min k (len b)) l2 H2 ltac:(lia)). by destruct (read_loop _ _ l2).
Qed.

Lemma Read_solid k l : solid l → 0 <= k → solid (Read k l).1.
Proof.
  intros H Hk. unfold Read. case_bool_decide; [done|].
  pose proof (read_loop_solid (S (length (nodes l))) k l H Hk). by destruct (read_loop _ k l).
Qed.

Lemma discard_loop_solid fuel n d l : solid l → 0 <= n → solid (discard_loop fuel n d l).1.
Proof.
  revert n d l; induction fuel as [|fuel IH]; intros n d l H Hn; [done|]. cbn [discard_loop].
  case_bool_decide; [done|].
  destruct (pop l) as [l1 [b|]] eqn:Ep; pose proof (pop_solid _ _ _ H Ep) as H1; [|done].
  case_bool_decide; [by apply rest_solid|apply IH; done || lia].
Qed.

Lemma Discard_solid n l : solid l → solid (Discard n l).1.
Proof.
  intros H. unfold Discard. case_bool_decide; [done|]. apply discard_loop_solid; done || lia.
Qed.

Section streams.
Context {R : Type} {RD : IoReader R} {W : Type} {WR : IoWriter W}.

(** Written out: what was taken, what is lost with the node that failed, what
    is left. *)
Lemma linked_write_loop_spec fuel n l wr :
  wf l → (length (nodes l) < fuel)%nat →
  ∃ l' wr' m e lost, write_loop fuel n l wr = ((l', wr'), Ok (n + m, e)) ∧ wf l' ∧
  0 <= m ∧ m <= len (contents l) ∧ taken wr' = taken wr ++ take (Z.to_nat m) (contents l) ∧
  drop (Z.to_nat m) (contents l) = lost ++ contents l' ∧
  (e = None → lost = [] ∧ contents l' = []).
Proof.
  revert n l wr; induction fuel as [|fuel IH]; intros n l wr Hwf Hf; [lia|]. cbn [write_loop].
  destruct (pop l) as [l1 [b|]] eqn:Ep.
  - pose proof (pop_wf l Hwf) as Hwf1. rewrite Ep in Hwf1. cbn [fst] in Hwf1.
    apply pop_Some in Ep. assert (Ec : contents l = b ++ contents l1) by (unfold contents; by rewrite Ep).
    pose proof (io_Write_law b wr) as Hlaw. destruct (io_Write b wr) as [wr1 [m e]].
    destruct Hlaw as (H0 & H1 & He & Ht). rewrite bool_decide_false by lia. rewrite Ec. destruct e as [e|].
    + exists l1, wr1, m, (Some e), (drop (Z.to_nat m) b). split_and!; try done; [len_solve| |].
      * by rewrite take_app_le by lia.
      * by rewrite drop_app_le by lia.
    + specialize (He eq_refl). subst m. rewrite bool_decide_false by lia.
      destruct (IH (n + len b) l1 wr1 Hwf1) as (l' & wr' & m & e & lost & -> & Hwf' & H2 & H3 & Ht' & Hd & He').
      { rewrite Ep in Hf. cbn in Hf. lia. }
      exists l', wr', (len b + m), e, lost.
      assert (Em : (Z.to_nat (len b + m) = length b + Z.to_nat m)%nat) by lia. rewrite Em.
      split_and!; try done; [do 3 f_equal; lia|lia|len_solve| |].
      * rewrite Ht', Ht, Nat2Z.id, firstn_all, <- app_assoc. by rewrite firstn_app_2.
      * by rewrite <- drop_drop, drop_app_length.
  - apply pop_None in Ep as [-> En]. exists l, wr, 0, None, [].
    assert (Ec : contents l = []) by (unfold contents; by rewrite En).
    rewrite Ec, Z.add_0_r. split_and!; try done. cbn. by rewrite app_nil_r.
Qed.

(** Read in: what came before the error is kept, what came with it is not. *)
Lemma linked_ReadFrom_spec fuel n l rd :
  wf l → (left rd < fuel)%nat →
  ∃ l' rd' d lost e, ReadFrom fuel n (l, rd) = ((l', rd'), Some (n + len d + len lost, e)) ∧ wf l' ∧
  contents l' = contents l ++ d ∧ given rd' = given rd ++ d ++ lost.
Proof.
  revert n l rd; induction fuel as [|fuel IH]; intros n l rd Hwf Hf; [lia|]. cbn [ReadFrom fst snd].
  pose proof (io_Read_law minRead rd ltac:(done)) as Hlaw.
  destruct (io_Read minRead rd) as [rd1 [d e]]. destruct Hlaw as (_ & Hg & _ & _ & Hl).
  destruct e as [e|].
  - exists l, rd1, [], d, (end_of e). rewrite app_nil_r. split_and!; try done. do 3 f_equal. cbn. lia.
  - specialize (Hl eq_refl ltac:(done)). destruct (pushBack_wf d l Hwf) as [Hwf1 Hc1].
    destruct (IH (n + len d) (pushBack d l) rd1 Hwf1) as (l' & rd' & d' & lost & e & E & Hwf' & Hc & Hg'); [lia|].
    exists l', rd', (d ++ d'), lost, e. rewrite E. split_and!; try done.
    + do 3 f_equal. len_solve.
    + by rewrite Hc, Hc1, app_assoc.
    + by rewrite Hg', Hg, <- !app_assoc.
Qed.
End streams.
End Linked.

(** ** The elastic ring *)
Module ElasticRing.
Section ring.
(** [rbPool.Get]: an empty ring; [bsPool.Get]: a block. *)
Context (pooled : Ring.XBuffer) (fresh : Z → list Z).

Definition XRingBuffer : Type := option Ring.XBuffer.

Definition instance (b : XRingBuffer) : Ring.XBuffer := default pooled b.
(** [Done] puts the ring back. *)
Definition Done (b : XRingBuffer) : XRingBuffer := None.
Definition done_ (b : XRingBuffer) : XRingBuffer :=
  match b with Some rb => if Ring.IsEmpty rb then None else Some rb | None => None end.

Definition Peek (n : Z) (b : XRingBuffer) : outcome (list Z * list Z) :=
  match b with None => Ok ([], []) | Some rb => Ring.Peek n rb end.
Definition Discard (n : Z) (b : XRingBuffer) : XRingBuffer * (Z * option error) :=
  match b with
  | None => (None, (0, Some ErrIsEmpty))
  | Some rb => let '(rb, d) := Ring.Discard n rb in (done_ (Some rb), (d, None))
  end.

(** An operation that ends with [done]. *)
Definition and_done {A} (m : Op Ring.XBuffer A) : Op XRingBuffer A := λ b,
  match b with
  | None => (None, Err ErrIsEmpty)
  | Some rb => let '(rb, x) := m rb in (done_ (Some rb), x)
  end.
Definition Read (k : Z) : Op XRingBuffer (list Z) := and_done (Ring.Read k).
Definition ReadByte : Op XRingBuffer Z := and_done Ring.ReadByte.

Definition on_instance {A} (m : Op Ring.XBuffer A) : Op XRingBuffer A := λ b,
  let '(rb, x) := m (instance b) in (Some rb, x).
Definition Write (p : list Z) : Op XRingBuffer Z := λ b,
  if bool_decide (len p = 0) then (b, Ok 0) else on_instance (Ring.Write fresh p) b.
Definition WriteByte (c : Z) : Op XRingBuffer unit := on_instance (Ring.WriteByte fresh c).

Definition ask {A} (none : A) (f : Ring.XBuffer → A) (b : XRingBuffer) : A :=
  match b with None => none | Some rb => f rb end.
Definition Buffered : XRingBuffer → Z := ask 0 Ring.Buffered.
Definition Len : XRingBuffer → Z := ask 0 Ring.Len.
Definition Cap : XRingBuffer → Z := ask 0 Ring.Cap.
Definition Available : XRingBuffer → Z := ask 0 Ring.Available.
Definition Bytes : XRingBuffer → outcome (list Z) := ask (Ok []) Ring.Bytes.
Definition IsFull : XRingBuffer → bool := ask false Ring.IsFull.
Definition IsEmpty : XRingBuffer → bool := ask true Ring.IsEmpty.
Definition Reset (b : XRingBuffer) : XRingBuffer := Ring.Reset <$> b.

Section io.
Context {R : Type} {RD : IoReader R} {W : Type} {WR : IoWriter W}.
Definition ReadFrom (fuel : nat) : Op (XRingBuffer * R) (option (Z * option error)) := λ s,
  let '((rb, rd), x) := Ring.ReadFrom fresh fuel 0 (instance s.1, s.2) in ((Some rb, rd), x).
Definition WriteTo : Op (XRingBuffer * W) (Z * option error) := λ s,
  match s.1 with
  | None => (s, Ok (0, Some ErrIsEmpty))
  | Some rb => let '((rb, wr), x) := Ring.WriteTo (rb, s.2) in ((done_ (Some rb), wr), x)
  end.
End io.

(** *** What it holds *)

Definition contents (b : XRingBuffer) : list Z := ask [] Ring.contents b.
Definition ring_size (b : XRingBuffer) : Z := Ring.size (instance b).
Definition wf (b : XRingBuffer) : Prop := ask True Ring.wf b.

Context (pooled_empty : Ring.rep pooled []) (fresh_len : ∀ n, 0 <= n → len (fresh n) = n).

Lemma rep_contents rb c : Ring.rep rb c → wf (Some rb) ∧ contents (Some rb) = c.
Proof. exact (Ring.rep_wf rb c). Qed.

Lemma done_spec rb c : Ring.rep rb c → wf (done_ (Some rb)) ∧ contents (done_ (Some rb)) = c.
Proof.
  intros H. unfold done_, Ring.IsEmpty. rewrite (Ring.isEmpty_spec _ _ H).
  case_bool_decide; [by subst c|by apply rep_contents].
Qed.

Lemma instance_rep b : wf b → Ring.rep (instance b) (contents b).
Proof. destruct b as [rb|]; [apply Ring.wf_rep|by intros _]. Qed.

Lemma ering_Buffered_spec b : wf b → Buffered b = len (contents b).
Proof. destruct b as [rb|]; [|done]. intros H%Ring.wf_rep. by apply Ring.Buffered_spec. Qed.

Lemma ering_IsEmpty_spec b : wf b → IsEmpty b = bool_decide (contents b = []).
Proof. destruct b as [rb|]; [|done]. intros H%Ring.wf_rep. by apply Ring.isEmpty_spec. Qed.

Lemma ering_Write_spec b p :
  wf b → ring_size b + len p < 2 ^ 60 →
  ∃ b', Write p b = (b', Ok (len p)) ∧ wf b' ∧ contents b' = contents b ++ p ∧
  ring_size b' <= Z.max (ring_size b) (Z.max DefaultBufferSize (2 * (len (contents b) + len p))).
Proof.
  unfold ring_size. intros Hwf Hs. unfold Write. case_bool_decide as Hp.
  { apply len_nil in Hp as ->. exists b. rewrite app_nil_r. split_and!; [done..|lia]. }
  unfold on_instance.
  destruct (Ring.Write_spec fresh fresh_len _ _ p (instance_rep b Hwf) Hs) as (rb' & -> & Hr & _ & Hup).
  exists (Some rb'). by destruct (rep_contents _ _ Hr).
Qed.

Lemma ering_Read_spec k b :
  wf b → 0 <= k →
  ∃ b' x, Read k b = (b', x) ∧ wf b' ∧ contents b' = drop (Z.to_nat k) (contents b) ∧
  (x = Ok (take (Z.to_nat k) (contents b)) ∨ x = Err ErrIsEmpty ∧ contents b = []).
Proof.
  intros Hwf Hk. destruct b as [rb|]; cbn.
  2: { exists None, (Err ErrIsEmpty). rewrite drop_nil. split_and!; [done..|by right]. }
  pose proof (Ring.wf_rep _ Hwf) as Hr.
  destruct (Ring.Read_spec rb _ k Hr Hk) as (rb' & Hr' & _ & ->).
  destruct (done_spec _ _ Hr') as [Hwf' Hc']. eexists _, _. split; [done|]. split; [done|]. split; [done|].
  case_bool_decide as Hk0; [subst k; by left|]. case_bool_decide; [by right|by left].
Qed.

Lemma ering_Discard_spec n b :
  wf b → ∃ b' e, Discard n b = (b', (Z.max 0 (Z.min n (len (contents b))), e)) ∧ wf b' ∧
  contents b' = drop (Z.to_nat n) (contents b).
Proof.
  intros Hwf. destruct b as [rb|]; cbn.
  - pose proof (Ring.wf_rep _ Hwf) as Hr. destruct (Ring.Discard_spec rb _ n Hr) as (rb' & Hr' & _ & ->).
    destruct (done_spec _ _ Hr') as [Hwf' Hc']. by eexists _, _.
  - exists None, (Some ErrIsEmpty). rewrite drop_nil. split_and!; [|done..]. do 2 f_equal. lia.
Qed.

Lemma ering_Peek_spec n b :
  wf b → ∃ h t, Peek n b = Ok (h, t) ∧
  h ++ t = if bool_decide (n <= 0) then contents b else take (Z.to_nat n) (contents b).
Proof.
  intros Hwf. destruct b as [rb|]; cbn.
  - apply Ring.Peek_spec. by apply Ring.wf_rep.
  - exists [], []. rewrite take_nil. by case_bool_decide.
Qed.
End ring.
End ElasticRing.

(** ** The elastic buffer: a ring, then a list

    xelastic_ring_list_buffer.go *)
Record XBuffer := mkElastic {
  maxStaticBytes : Z;
  ringBuffer : ElasticRing.XRingBuffer;
  listBuffer : Linked.XBuffer;
}.

Definition set_ring x (mb : XBuffer) : XBuffer := mkElastic (maxStaticBytes mb) x (listBuffer mb).
Definition set_list x (mb : XBuffer) : XBuffer := mkElastic (maxStaticBytes mb) (ringBuffer mb) x.

Definition New (maxStatic : Z) : outcome XBuffer :=
  if bool_decide (maxStatic <= 0) then Err ErrNegativeSize
  else Ok (mkElastic maxStatic None Linked.empty).

Definition Buffered (mb : XBuffer) : Z :=
  ElasticRing.Buffered (ringBuffer mb) + Linked.Buffered (listBuffer mb).
Definition IsEmpty (mb : XBuffer) : bool :=
  ElasticRing.IsEmpty (ringBuffer mb) && Linked.IsEmpty (listBuffer mb).
Definition Reset (maxStatic : Z) (mb : XBuffer) : XBuffer :=
  mkElastic (if bool_decide (0 < maxStatic) then maxStatic else maxStaticBytes mb)
    (ElasticRing.Reset (ringBuffer mb)) (Linked.Reset (listBuffer mb)).
Definition Release (mb : XBuffer) : XBuffer :=
  mkElastic (maxStaticBytes mb) (ElasticRing.Done (ringBuffer mb)) (Linked.Reset (listBuffer mb)).

(** What the ring gave, and what the list adds. *)
Definition read_rest (k : Z) (p : list Z) (e : option error) (mb : XBuffer)
    : XBuffer * (list Z * option error) :=
  if bool_decide (len p = k) then (mb, (p, e)) else
  let '(lb, (q, e)) := Linked.Read (k - len p) (listBuffer mb) in (set_list lb mb, (p ++ q, e)).

(** The bytes and the error; a panic of the ring is none of them. *)
Definition Read (k : Z) (mb : XBuffer) : outcome (XBuffer * (list Z * option error)) :=
  match ElasticRing.Read k (ringBuffer mb) with
  | (_, Panic) => Panic
  | (rb, x) => Ok (read_rest k (val_of [] x) (err_of x) (set_ring rb mb))
  end.

Definition Peek (n : Z) (mb : XBuffer) : outcome (list (list Z)) :=
  let all := bool_decide (n <= 0 ∨ n = MaxInt32) in
  if negb all && bool_decide (Buffered mb < n) then Err ErrShortBuffer else
  let n := if all then MaxInt32 else n in
  '(head, tail) ← ElasticRing.Peek n (ringBuffer mb);
  if bool_decide (ElasticRing.Buffered (ringBuffer mb) = n) then Ok [head; tail]
  else Linked.PeekWithBytes n [head; tail] (listBuffer mb).

Definition Discard (n : Z) (mb : XBuffer) : XBuffer * (Z * option error) :=
  let '(rb, (discarded, e)) := ElasticRing.Discard n (ringBuffer mb) in
  let mb := set_ring rb mb in
  if bool_decide (n <= discarded) then (mb, (discarded, e)) else
  let '(lb, m) := Linked.Discard (n - discarded) (listBuffer mb) in
  (set_list lb mb, (discarded + m, None)).

(** Whether what is written goes behind the list. *)
Definition to_list (mb : XBuffer) : bool :=
  negb (Linked.IsEmpty (listBuffer mb)) ||
  bool_decide (maxStaticBytes mb <= ElasticRing.Buffered (ringBuffer mb)).

Section writes.
Context (pooled : Ring.XBuffer) (fresh : Z → list Z).

Definition ring_Write (p : list Z) : Op XBuffer Z := λ mb,
  let '(rb, x) := ElasticRing.Write pooled fresh p (ringBuffer mb) in (set_ring rb mb, x).
Definition list_PushBack (p : list Z) (mb : XBuffer) : XBuffer :=
  set_list (Linked.PushBack p (listBuffer mb)) mb.

(** [p[:k]] into the ring, [p[k:]] behind it. *)
Definition split_write (k : Z) (p : list Z) : Op XBuffer unit :=
  p1 ← lift (slice p 0 k);
  p2 ← lift (slice_from p k);
  _ ← ring_Write p1;
  modify (list_PushBack p2).

Definition Write (p : list Z) : Op XBuffer Z := λ mb,
  if to_list mb then (list_PushBack p mb, Ok (len p)) else
  let writable := ElasticRing.Available (ringBuffer mb) in
  if bool_decide (maxStaticBytes mb <= ElasticRing.Len (ringBuffer mb) ∧ writable < len p)
  then (_ ← split_write writable p; mret (len p)) mb
  else ring_Write p mb.

(** The loop over the slices that go into the ring; what is left after the one
    that does not fit goes behind it. *)
Fixpoint writev_loop (writable cum : Z) (bs : list (list Z)) : Op XBuffer Z :=
  match bs with
  | [] => mret cum
  | b :: bs =>
      let cum := cum + len b in
      if bool_decide (writable < len b) then
        _ ← split_write writable b;
        _ ← modify (λ mb, foldl (λ mb b, list_PushBack b mb) mb bs);
        mret (cum + len (concat bs))
      else
        n ← ring_Write b; writev_loop (writable - n) cum bs
  end.

Definition Writev (bs : list (list Z)) : Op XBuffer Z := λ mb,
  if to_list mb then
    (foldl (λ mb b, list_PushBack b mb) mb bs, Ok (len (concat bs)))
  else
    let writable :=
      if bool_decide (ElasticRing.Len (ringBuffer mb) < maxStaticBytes mb)
      then maxStaticBytes mb - ElasticRing.Buffered (ringBuffer mb)
      else ElasticRing.Available (ringBuffer mb) in
    writev_loop writable 0 bs mb.

Section io.
Context {R : Type} {RD : IoReader R} {W : Type} {WR : IoWriter W}.
Definition ReadFrom (fuel : nat) : Op (XBuffer * R) (option (Z * option error)) := λ s,
  let '(mb, rd) := s in
  if to_list mb then
    let '((lb, rd), x) := Linked.ReadFrom fuel 0 (listBuffer mb, rd) in ((set_list lb mb, rd), Ok x)
  else
    let '((rb, rd), x) := ElasticRing.ReadFrom pooled fresh fuel (ringBuffer mb, rd) in
    ((set_ring rb mb, rd), x).

Definition WriteTo : Op (XBuffer * W) (Z * option error) := λ s,
  let '(mb, wr) := s in
  match ElasticRing.WriteTo (ringBuffer mb, wr) with
  | ((rb, wr), Ok (n, None)) =>
      let '((lb, wr), x) := Linked.WriteTo (listBuffer mb, wr) in
      ((set_list lb (set_ring rb mb), wr), '(m, e) ← x; Ok (n + m, e))
  | ((rb, wr), x) => ((set_ring rb mb, wr), x)
  end.
End io.
End writes.

(** ** What it holds *)

Definition contents (mb : XBuffer) : list Z :=
  ElasticRing.contents (ringBuffer mb) ++ Linked.contents (listBuffer mb).
Record wf (mb : XBuffer) : Prop := {
  wf_ring : ElasticRing.wf (ringBuffer mb);
  wf_list : Linked.wf (listBuffer mb);
}.

(** No node of the list is empty: so it is unless a reader gives nothing. *)
Definition solid (mb : XBuffer) : Prop := Linked.solid (listBuffer mb).

Lemma elastic_Buffered_spec mb : wf mb → Buffered mb = len (contents mb).
Proof.
  intros [Hr [_ Hl]]. unfold Buffered, contents, Linked.Buffered.
  rewrite ElasticRing.ering_Buffered_spec by done. len_solve.
Qed.

Lemma list_empty l : Linked.IsEmpty l = true → Linked.contents l = [].
Proof. by destruct l as [[|b bs] c n]. Qed.

Lemma to_list_false mb : to_list mb = false → Linked.contents (listBuffer mb) = [].
Proof.
  unfold to_list. intros [H _]%orb_false_iff. apply list_empty. by destruct (Linked.IsEmpty _).
Qed.

Lemma IsEmpty_contents mb : wf mb → IsEmpty mb = true → contents mb = [].
Proof.
  intros [Hr _] [H1 H2]%andb_true_iff. rewrite ElasticRing.ering_IsEmpty_spec in H1 by done.
  apply bool_decide_eq_true in H1. unfold contents. by rewrite H1, list_empty.
Qed.

Lemma elastic_IsEmpty_spec mb : wf mb → solid mb → IsEmpty mb = bool_decide (contents mb = []).
Proof.
  intros Hwf Hs. destruct (IsEmpty mb) eqn:E; [by rewrite IsEmpty_contents, bool_decide_true|].
  symmetry. apply bool_decide_false. unfold contents. intros [H1 H2]%app_nil.
  unfold IsEmpty in E. rewrite ElasticRing.ering_IsEmpty_spec, bool_decide_true in E by (done || apply Hwf).
  unfold solid, Linked.solid in Hs. unfold Linked.contents in H2. destruct (listBuffer mb) as [[|b bs] c n]; [done|].
  cbn in *. apply Forall_inv in Hs. by destruct b.
Qed.

Lemma read_rest_spec k c e mb :
  wf mb → 0 <= k → ElasticRing.contents (ringBuffer mb) = drop (Z.to_nat k) c → (e ≠ None → c = []) →
  let whole := c ++ Linked.contents (listBuffer mb) in
  ∃ mb' e', read_rest k (take (Z.to_nat k) c) e mb = (mb', (take (Z.to_nat k) whole, e')) ∧ wf mb' ∧
  contents mb' = drop (Z.to_nat k) whole ∧ (e' ≠ None → k = 0 ∨ len whole < k) ∧
  (solid mb → solid mb').
Proof.
  intros [Hr Hl] Hk Hc He whole. unfold read_rest, whole, contents. clear whole.
  assert (Hlen : len (take (Z.to_nat k) c) = Z.min k (len c)) by len_solve.
  rewrite Hlen. destruct (decide (k <= len c)) as [Hkc|Hkc].
  - rewrite Z.min_l, bool_decide_true by lia. exists mb, e.
    rewrite take_app_le, drop_app_le by lia. split_and!; [done|done|by rewrite Hc| |done].
    intros H. specialize (He H). subst c. left. cbn in Hkc. lia.
  - rewrite Z.min_r, bool_decide_false by lia.
    destruct (Linked.linked_Read_spec (k - len c) (listBuffer mb) Hl) as (lb' & El & Hl' & Hlc); [lia|].
    pose proof (Linked.Read_solid (k - len c) (listBuffer mb)) as Hsol. rewrite El in *.
    assert (Ek : (Z.to_nat k - length c)%nat = Z.to_nat (k - len c)) by lia.
    rewrite (take_ge c), take_app_ge, drop_app_ge, Ek by lia.
    eexists _, _. split; [done|]. split; [done|]. cbn [ringBuffer listBuffer set_list].
    rewrite Hc, Hlc. split; [by rewrite drop_ge by lia|].
    split; [|intros H; apply Hsol; [done|lia]].
    case_bool_decide as Hn; [|done]. intros _. right. destruct Hn as [_ ->]. len_solve.
Qed.

Lemma elastic_Read_spec k mb :
  wf mb → 0 <= k →
  ∃ mb' e, Read k mb = Ok (mb', (take (Z.to_nat k) (contents mb), e)) ∧ wf mb' ∧
  contents mb' = drop (Z.to_nat k) (contents mb) ∧ (e ≠ None → k = 0 ∨ len (contents mb) < k) ∧
  (solid mb → solid mb').
Proof.
  intros [Hr Hl] Hk. unfold Read.
  destruct (ElasticRing.ering_Read_spec k (ringBuffer mb) Hr Hk) as (rb' & x & -> & Hr' & Hc' & Hx).
  destruct (read_rest_spec k (ElasticRing.contents (ringBuffer mb)) (err_of x) (set_ring rb' mb))
    as (mb' & e & E & H); [done|done|done| |].
  { by destruct Hx as [->|[-> ->]]. }
  exists mb', e. split; [|exact H]. transitivity (Ok (A := XBuffer * (list Z * option error)) (read_rest k
    (take (Z.to_nat k) (ElasticRing.contents (ringBuffer mb))) (err_of x) (set_ring rb' mb))).
  - destruct Hx as [->|[-> Hc]]; [done|]. by rewrite Hc, take_nil.
  - by rewrite E.
Qed.

Lemma elastic_Discard_spec n mb :
  wf mb → ∃ mb' e, Discard n mb = (mb', (Z.max 0 (Z.min n (len (contents mb))), e)) ∧ wf mb' ∧
  contents mb' = drop (Z.to_nat n) (contents mb) ∧ (solid mb → solid mb').
Proof.
  intros [Hr Hl]. unfold Discard.
  destruct (ElasticRing.ering_Discard_spec n (ringBuffer mb) Hr) as (rb' & e & -> & Hr' & Hc').
  unfold contents. set (c1 := ElasticRing.contents (ringBuffer mb)) in *.
  case_bool_decide as Hn.
  - exists (set_ring rb' mb), e. cbn. rewrite Hc', drop_app_le by lia. split_and!; [|done..].
    do 2 f_equal. len_solve.
  - destruct (Linked.linked_Discard_spec (n - Z.max 0 (Z.min n (len c1))) (listBuffer mb) Hl) as (lb' & E & Hl' & Hlc).
    pose proof (Linked.Discard_solid (n - Z.max 0 (Z.min n (len c1))) (listBuffer mb)) as Hsol.
    cbn [listBuffer set_ring]. rewrite E in *. clear E.
    exists (set_list lb' (set_ring rb' mb)), None. split; [|split; [done|split; [|exact Hsol]]].
    + do 2 f_equal. rewrite length_app. lia.
    + cbn. rewrite Hc', Hlc, drop_ge, drop_app_ge by lia. cbn. f_equal. lia.
Qed.

(** *** Writing *)

Lemma list_PushBack_spec p mb :
  wf mb → wf (list_PushBack p mb) ∧ contents (list_PushBack p mb) = contents mb ++ p ∧
  (solid mb → solid (list_PushBack p mb)).
Proof.
  intros [Hr Hl]. destruct (Linked.PushBack_spec p _ Hl) as [Hl' Hc]. split; [done|].
  split; [|apply Linked.PushBack_solid]. unfold contents. cbn. by rewrite Hc, app_assoc.
Qed.

Lemma list_PushBacks_spec bs mb :
  wf mb → let mb' := foldl (λ mb b, list_PushBack b mb) mb bs in
  wf mb' ∧ contents mb' = contents mb ++ concat bs ∧ (solid mb → solid mb').
Proof.
  revert mb; induction bs as [|b bs IH]; intros mb Hwf; cbn; [by rewrite app_nil_r|].
  destruct (list_PushBack_spec b mb Hwf) as (H1 & H2 & H3). destruct (IH _ H1) as (H4 & H5 & H6).
  split; [done|]. split; [|by auto]. by rewrite H5, H2, app_assoc.
Qed.

Section writing.
Context (pooled : Ring.XBuffer) (fresh : Z → list Z).
Context (pooled_empty : Ring.rep pooled []) (fresh_len : ∀ n, 0 <= n → len (fresh n) = n).

(** What the ring may have grown to once it holds [n] bytes more. *)
Definition roof (n : Z) (mb : XBuffer) : Z :=
  Z.max (ElasticRing.ring_size pooled (ringBuffer mb))
    (Z.max DefaultBufferSize (2 * (len (contents mb) + n))).

Lemma push_roof p n mb : wf mb → roof n (list_PushBack p mb) = roof (len p + n) mb.
Proof.
  intros Hwf. destruct (list_PushBack_spec p mb Hwf) as (_ & Hc & _). unfold roof. rewrite Hc, length_app. cbn. lia.
Qed.

Lemma pushes_roof bs n mb :
  wf mb → roof n (foldl (λ mb b, list_PushBack b mb) mb bs) = roof (len (concat bs) + n) mb.
Proof.
  revert mb; induction bs as [|b bs IH]; intros mb Hwf; [done|]. cbn [foldl concat].
  destruct (list_PushBack_spec b mb Hwf) as (Hwf' & _ & _). rewrite IH, push_roof, length_app by done. f_equal. lia.
Qed.

Lemma ring_Write_spec p mb :
  wf mb → Linked.contents (listBuffer mb) = [] → roof (len p) mb + len p < 2 ^ 60 →
  ∃ mb', ring_Write pooled fresh p mb = (mb', Ok (len p)) ∧ wf mb' ∧ contents mb' = contents mb ++ p ∧
  listBuffer mb' = listBuffer mb ∧ ∀ n, 0 <= n → roof n mb' <= roof (len p + n) mb.
Proof.
  unfold roof, contents. intros [Hr Hl] Hn Hs. unfold ring_Write. rewrite Hn, app_nil_r in *.
  destruct (ElasticRing.ering_Write_spec pooled fresh pooled_empty fresh_len (ringBuffer mb) p Hr)
    as (rb' & -> & Hr' & Hc' & Hup); [lia|].
  exists (set_ring rb' mb). cbn. rewrite Hn, app_nil_r, Hc'. split_and!; [done..|]. intros n H0. rewrite length_app. lia.
Qed.

Lemma split_write_spec k p mb :
  wf mb → Linked.contents (listBuffer mb) = [] → roof (len p) mb + len p < 2 ^ 60 →
  0 <= k → k <= len p →
  ∃ mb', split_write pooled fresh k p mb = (mb', Ok ()) ∧ wf mb' ∧ contents mb' = contents mb ++ p ∧
  (solid mb → solid mb') ∧ ∀ n, 0 <= n → roof n mb' <= roof (len p + n) mb.
Proof.
  intros Hwf Hn Hs H0 Hk. destruct (cut p k) as (p1 & p2 & -> & H1 & H2); [lia|].
  assert (Hs1 : roof (len p1) mb + len p1 < 2 ^ 60) by (unfold roof in *; len_solve).
  destruct (ring_Write_spec p1 mb Hwf Hn Hs1) as (mb1 & E & Hwf1 & Hc1 & Hl1 & Hroof).
  unfold split_write. rewrite (slice_prefix _ p1 p2), (slice_from_suffix _ p1 p2) by (reflexivity || lia).
  rewrite (op_bind_ok _ _ _ mb p1 eq_refl), (op_bind_ok _ _ _ mb p2 eq_refl), (op_bind_ok _ _ _ _ _ E).
  destruct (list_PushBack_spec p2 mb1 Hwf1) as (Hwf2 & Hc2 & Hs2).
  exists (list_PushBack p2 mb1). split; [done|]. split; [done|].
  split; [by rewrite Hc2, Hc1, app_assoc|]. split; [unfold solid in *; by rewrite <- Hl1|].
  intros n Hn0. rewrite push_roof, length_app, Nat2Z.inj_add by done.
  specialize (Hroof (len p2 + n) ltac:(lia)). by rewrite Z.add_assoc in Hroof.
Qed.

Lemma Available_bounds mb : wf mb → 0 <= ElasticRing.Available (ringBuffer mb).
Proof.
  intros [Hr _]. destruct (ringBuffer mb) as [rb|]; [|done]. apply Ring.wf_rep in Hr.
  cbn. rewrite (Ring.Available_spec _ _ Hr). pose proof (Ring.rep_len _ _ Hr). lia.
Qed.

Lemma elastic_Write_spec p mb :
  wf mb → roof (len p) mb + len p < 2 ^ 60 →
  ∃ mb', Write pooled fresh p mb = (mb', Ok (len p)) ∧ wf mb' ∧ contents mb' = contents mb ++ p ∧
  (solid mb → solid mb') ∧ ∀ n, 0 <= n → roof n mb' <= roof (len p + n) mb.
Proof.
  intros Hwf Hs. unfold Write. destruct (to_list mb) eqn:El.
  { exists (list_PushBack p mb). destruct (list_PushBack_spec p mb Hwf) as (H1 & H2 & H3).
    split_and!; try done. intros n _. by rewrite push_roof. }
  apply to_list_false in El. pose proof (Available_bounds mb Hwf) as HA. case_bool_decide as Hw.
  - destruct (split_write_spec (ElasticRing.Available (ringBuffer mb)) p mb) as (mb' & E & H); [done..|lia|].
    exists mb'. by rewrite (op_bind_ok _ _ _ _ _ E).
  - destruct (ring_Write_spec p mb Hwf El Hs) as (mb' & -> & Hwf' & Hc & Hl & Hroof).
    exists mb'. unfold solid. by rewrite Hl.
Qed.

Lemma elastic_writev_loop_spec writable cum bs mb :
  wf mb → Linked.contents (listBuffer mb) = [] → 0 <= writable →
  roof (len (concat bs)) mb + len (concat bs) < 2 ^ 60 →
  ∃ mb', writev_loop pooled fresh writable cum bs mb = (mb', Ok (cum + len (concat bs))) ∧ wf mb' ∧
  contents mb' = contents mb ++ concat bs ∧ (solid mb → solid mb') ∧
  ∀ n, 0 <= n → roof n mb' <= roof (len (concat bs) + n) mb.
Proof.
  revert writable cum mb; induction bs as [|b bs IH]; intros writable cum mb Hwf Hn Hw Hs.
  { exists mb. cbn. rewrite app_nil_r, Z.add_0_r. split_and!; try done. }
  cbn [writev_loop concat] in *. rewrite length_app, Nat2Z.inj_add in *.
  assert (Hs1 : roof (len b) mb + len b < 2 ^ 60) by (unfold roof in *; lia).
  case_bool_decide as Hb.
  - destruct (split_write_spec writable b mb) as (mb1 & E & Hwf1 & Hc1 & Hs' & Hroof); [done..|lia|].
    rewrite (op_bind_ok _ _ _ _ _ E).
    destruct (list_PushBacks_spec bs mb1 Hwf1) as (Hwf2 & Hc2 & Hs2).
    exists (foldl (λ mb b, list_PushBack b mb) mb1 bs). split; [by rewrite Z.add_assoc|].
    split; [done|]. split; [by rewrite Hc2, Hc1, app_assoc|]. split; [by auto|].
    intros n Hn0. rewrite pushes_roof by done. specialize (Hroof (len (concat bs) + n) ltac:(lia)).
    by rewrite Z.add_assoc in Hroof.
  - destruct (ring_Write_spec b mb Hwf Hn Hs1) as (mb1 & E & Hwf1 & Hc1 & Hl1 & Hroof).
    rewrite (op_bind_ok _ _ _ _ _ E).
    destruct (IH (writable - len b) (cum + len b) mb1 Hwf1) as (mb2 & E2 & Hwf2 & Hc2 & Hs2 & Hroof2);
      [by rewrite Hl1|lia| |].
    { specialize (Hroof (len (concat bs)) ltac:(lia)). lia. }
    exists mb2. rewrite E2. split; [by rewrite Z.add_assoc|]. split; [done|].
    split; [by rewrite Hc2, Hc1, app_assoc|]. split; [unfold solid in *; by rewrite <- Hl1|].
    intros n Hn0. specialize (Hroof2 n Hn0). specialize (Hroof (len (concat bs) + n) ltac:(lia)).
    rewrite Z.add_assoc in Hroof. lia.
Qed.

Lemma Writev_spec bs mb :
  wf mb → roof (len (concat bs)) mb + len (concat bs) < 2 ^ 60 →
  ∃ mb', Writev pooled fresh bs mb = (mb', Ok (len (concat bs))) ∧ wf mb' ∧
  contents mb' = contents mb ++ concat bs ∧ (solid mb → solid mb') ∧
  ∀ n, 0 <= n → roof n mb' <= roof (len (concat bs) + n) mb.
Proof.
  intros Hwf Hs. unfold Writev. destruct (to_list mb) eqn:El.
  { destruct (list_PushBacks_spec bs mb Hwf) as (H1 & H2 & H3). eexists. split; [done|]. split_and!; try done.
    intros n _. by rewrite pushes_roof. }
  pose proof (Available_bounds mb Hwf) as HA. pose proof (to_list_false mb El) as Hn.
  apply orb_false_iff in El as [_ Hb%bool_decide_eq_false].
  apply elastic_writev_loop_spec; try done. case_bool_decide; lia.
Qed.
End writing.

(** *** Looking *)

(** What [Peek] asks of the list: that it holds as many bytes as were asked for
    of both. *)
Definition peekable (n : Z) (mb : XBuffer) : Prop :=
  n <= 0 ∨ n = MaxInt32 ∨ n = len (ElasticRing.contents (ringBuffer mb)) ∨
  n <= len (Linked.contents (listBuffer mb)).
#[export] Instance peekable_dec n mb : Decision (peekable n mb) := _.

Definition peeked (n : Z) (c : list Z) : list Z :=
  if bool_decide (n <= 0 ∨ n = MaxInt32) then c else take (Z.to_nat n) c.

Lemma Peek_all mb :
  wf mb → len (contents mb) <= MaxInt32 →
  ∃ out, Peek MaxInt32 mb = Ok out ∧ concat out = contents mb.
Proof.
  intros Hwf Hm. pose proof (wf_ring _ Hwf) as Hr. unfold Peek.
  rewrite bool_decide_true by (by right). cbn [negb andb].
  destruct (ElasticRing.ering_Peek_spec MaxInt32 _ Hr) as (h & t & -> & Ep). run.
  rewrite bool_decide_false in Ep by (unfold MaxInt32; lia). unfold contents in *. rewrite length_app in Hm.
  rewrite take_ge in Ep by lia. rewrite ElasticRing.ering_Buffered_spec by done. case_bool_decide as Hb.
  - exists [h; t]. split; [done|]. assert (Linked.contents (listBuffer mb) = []) as -> by (apply len_nil; lia).
    cbn. by rewrite !app_nil_r.
  - pose proof (Linked.PeekWithBytes_spec MaxInt32 [h; t] (listBuffer mb) (wf_list _ Hwf)) as H.
    unfold Linked.peek_limit in H. rewrite bool_decide_true in H by (by right).
    destruct H as (out & -> & E). exists out. split; [done|]. cbn in E. rewrite app_nil_r, Ep in E.
    rewrite E. apply take_ge. rewrite length_app. lia.
Qed.

Lemma Peek_all_some mb out :
  wf mb → solid mb → len (contents mb) < MaxInt32 → Peek MaxInt32 mb = Ok out → Forall (λ p, p ≠ []) out.
Proof.
  intros Hwf Hs Hm. pose proof (wf_ring _ Hwf) as Hr. unfold Peek.
  rewrite bool_decide_true by (by right). cbn [negb andb].
  destruct (ElasticRing.ering_Peek_spec MaxInt32 _ Hr) as (h & t & -> & Ep). run.
  clear Ep. unfold contents in Hm. rewrite length_app in Hm. rewrite ElasticRing.ering_Buffered_spec, bool_decide_false by (done || lia).
  unfold Linked.PeekWithBytes, Linked.peek_limit. rewrite bool_decide_true by (by right).
  pose proof (Linked.peek_given_some MaxInt32 0 [h; t] eq_refl) as H1.
  pose proof (Linked.peek_given_spec MaxInt32 0 [h; t] eq_refl) as [H2 _].
  destruct (Linked.peek_given MaxInt32 0 [h; t]) as [o cum]. cbn [fst snd] in *. intros [= <-].
  case_bool_decide; [done|]. apply Forall_app. split; [done|]. apply Linked.peek_nodes_some; [lia|exact Hs].
Qed.

Lemma Discard_size pooled n mb :
  wf mb → ElasticRing.ring_size pooled (ringBuffer (Discard n mb).1) <=
  Z.max (ElasticRing.ring_size pooled (ringBuffer mb)) (Ring.size pooled).
Proof.
  intros [Hr _]. assert (H : ElasticRing.ring_size pooled (ElasticRing.Discard n (ringBuffer mb)).1 <=
    Z.max (ElasticRing.ring_size pooled (ringBuffer mb)) (Ring.size pooled)).
  { unfold ElasticRing.ring_size. destruct (ringBuffer mb) as [rb|]; cbn; [|lia].
    destruct (Ring.Discard_spec rb _ n (Ring.wf_rep _ Hr)) as (rb' & _ & [_ Hsz] & ->).
    unfold ElasticRing.done_. destruct (Ring.IsEmpty rb'); cbn; lia. }
  unfold Discard. destruct (ElasticRing.Discard n (ringBuffer mb)) as [b [d e]].
  case_bool_decide; [done|]. by destruct (Linked.Discard _ _).
Qed.

Lemma Peek_some n mb :
  wf mb → 0 < n → n ≠ MaxInt32 →
  if bool_decide (len (contents mb) < n ∨ ¬ peekable n mb) then Peek n mb = Err ErrShortBuffer
  else ∃ out, Peek n mb = Ok out ∧ concat out = take (Z.to_nat n) (contents mb).
Proof.
  intros Hwf H0 Hn. unfold Peek, peekable. pose proof (wf_ring _ Hwf) as Hr.
  rewrite (elastic_Buffered_spec mb Hwf), (bool_decide_false (n <= 0 ∨ n = MaxInt32)) by lia. cbn [negb andb].
  destruct (decide (len (contents mb) < n)) as [Hs|Hs].
  { rewrite (bool_decide_true (len (contents mb) < n)) by done. by rewrite bool_decide_true by (by left). }
  rewrite (bool_decide_false (len (contents mb) < n)) by done.
  destruct (ElasticRing.ering_Peek_spec n _ Hr) as (h & t & -> & Ep). run.
  rewrite bool_decide_false in Ep by lia. rewrite ElasticRing.ering_Buffered_spec by done.
  unfold contents in *. destruct (decide (len (ElasticRing.contents (ringBuffer mb)) = n)) as [Hb|Hb].
  - rewrite (bool_decide_true (_ = n)), bool_decide_false by lia. exists [h; t]. split; [done|].
    cbn. rewrite app_nil_r, Ep. by rewrite take_app_le by lia.
  - rewrite (bool_decide_false (_ = n)) by done.
    pose proof (Linked.PeekWithBytes_spec n [h; t] (listBuffer mb) (wf_list _ Hwf)) as H.
    unfold Linked.peek_limit, Linked.Buffered in H. rewrite bool_decide_false in H by lia.
    rewrite (Linked.wf_bytes _ (wf_list _ Hwf)) in H.
    destruct (decide (len (Linked.contents (listBuffer mb)) < n)).
    + rewrite (bool_decide_true (_ < n)) in H by done. rewrite bool_decide_true by lia. done.
    + rewrite (bool_decide_false (_ < n)) in H by done. rewrite bool_decide_false by lia.
      destruct H as (out & E & Eo). exists out. split; [done|]. rewrite Eo. cbn. rewrite app_nil_r, Ep.
      rewrite !take_app, take_take, Nat.min_id, length_take. do 2 f_equal. lia.
Qed.

(** ** The elastic buffer is a queue of bytes *)

Lemma Reset_spec n mb : wf mb → wf (Reset n mb) ∧ contents (Reset n mb) = [].
Proof.
  intros [Hr _]. unfold Reset, contents. cbn. rewrite app_nil_r.
  destruct (ringBuffer mb) as [rb|]; cbn; [|done].
  pose proof (Ring.Reset_rep _ _ (Ring.wf_rep _ Hr)) as H. destruct (Ring.rep_wf _ _ H) as [H1 H2]. done.
Qed.

Inductive op :=
  | EWrite (p : list Z)
  | EWritev (bs : list (list Z))
  | ERead (k : nat)
  | EPeek (n : Z)
  | EDiscard (n : Z)
  | EReset (n : Z)
  | ERelease
  | EBuffered
  | EIsEmpty.

(** The error of a read or of a discard is not part of the answer. *)
Inductive answer :=
  | ABytes (p : outcome (list Z))
  | ANum (n : outcome Z)
  | ABool (b : bool)
  | ADone.

Definition exec (pooled : Ring.XBuffer) (fresh : Z → list Z) (o : op) (mb : XBuffer) : XBuffer * answer :=
  match o with
  | EWrite p => let '(mb, x) := Write pooled fresh p mb in (mb, ANum x)
  | EWritev bs => let '(mb, x) := Writev pooled fresh bs mb in (mb, ANum x)
  | ERead k => match Read (Z.of_nat k) mb with
               | Ok (mb, (p, _)) => (mb, ABytes (Ok p))
               | Err e => (mb, ABytes (Err e))
               | Panic => (mb, ABytes Panic)
               end
  | EPeek n => (mb, ABytes (out ← Peek n mb; Ok (concat out)))
  | EDiscard n => let '(mb, (n, _)) := Discard n mb in (mb, ANum (Ok n))
  | EReset n => (Reset n mb, ADone)
  | ERelease => (Release mb, ADone)
  | EBuffered => (mb, ANum (Ok (Buffered mb)))
  | EIsEmpty => (mb, ABool (IsEmpty mb))
  end.

Definition queue (o : op) (c : list Z) : list Z * answer :=
  match o with
  | EWrite p => (c ++ p, ANum (Ok (len p)))
  | EWritev bs => (c ++ concat bs, ANum (Ok (len (concat bs))))
  | ERead k => (drop k c, ABytes (Ok (take k c)))
  | EPeek n => (c, ABytes (if bool_decide (len c < n ∧ n ≠ MaxInt32) then Err ErrShortBuffer
                           else Ok (peeked n c)))
  | EDiscard n => (drop (Z.to_nat n) c, ANum (Ok (Z.max 0 (Z.min n (len c)))))
  | EReset _ | ERelease => ([], ADone)
  | EBuffered => (c, ANum (Ok (len c)))
  | EIsEmpty => (c, ABool (bool_decide (c = [])))
  end.

(** The sizes that Go can allocate, and the peeks that the list's check lets
    through. *)
Definition fits (pooled : Ring.XBuffer) (o : op) (mb : XBuffer) : Prop :=
  match o with
  | EWrite p => roof pooled (len p) mb + len p < 2 ^ 60
  | EWritev bs => roof pooled (len (concat bs)) mb + len (concat bs) < 2 ^ 60
  | EPeek n => len (contents mb) <= MaxInt32 ∧ (len (contents mb) < n ∨ peekable n mb)
  | _ => True
  end.

Lemma Peek_queue n mb :
  wf mb → len (contents mb) <= MaxInt32 → len (contents mb) < n ∨ peekable n mb →
  (out ← Peek n mb; Ok (concat out)) =
  if bool_decide (len (contents mb) < n ∧ n ≠ MaxInt32) then Err ErrShortBuffer
  else Ok (peeked n (contents mb)).
Proof.
  intros Hwf Hm Hp. unfold peeked. destruct (decide (n <= 0 ∨ n = MaxInt32)) as [Hn|Hn].
  - rewrite (bool_decide_false (_ ∧ _)), (bool_decide_true (_ ∨ _)) by lia.
    destruct (Peek_all mb Hwf Hm) as (out & E & Ho).
    replace (Peek n mb) with (Peek MaxInt32 mb) by
      (unfold Peek; by rewrite (bool_decide_true (n <= 0 ∨ n = MaxInt32)), bool_decide_true by tauto).
    rewrite E. run. by rewrite Ho.
  - rewrite (bool_decide_false (_ ∨ _)) by done.
    pose proof (Peek_some n mb Hwf ltac:(lia) ltac:(lia)) as H.
    destruct (decide (len (contents mb) < n)) as [Hs|Hs].
    + rewrite bool_decide_true in H by (by left). rewrite (bool_decide_true (_ ∧ _)) by lia. by rewrite H.
    + rewrite bool_decide_false in H by tauto. rewrite (bool_decide_false (_ ∧ _)) by lia.
      destruct H as (out & -> & <-). by run.
Qed.


(** *** Streams *)
Section streams.
Context {R : Type} {RD : IoReader R} {W : Type} {WR : IoWriter W}.

Lemma ring_WriteTo_spec (b : ElasticRing.XRingBuffer) (wr : W) :
  ElasticRing.wf b → ElasticRing.contents b ≠ [] →
  ∃ b' wr' n e lost, ElasticRing.WriteTo (b, wr) = ((b', wr'), Ok (n, e)) ∧ ElasticRing.wf b' ∧
  0 <= n ∧ n <= len (ElasticRing.contents b) ∧
  taken wr' = taken wr ++ take (Z.to_nat n) (ElasticRing.contents b) ∧
  drop (Z.to_nat n) (ElasticRing.contents b) = lost ++ ElasticRing.contents b' ∧
  (e = None → n = len (ElasticRing.contents b)).
Proof.
  destruct b as [rb|]; [|done]. cbn [ElasticRing.wf ElasticRing.contents ElasticRing.ask].
  intros Hwf Hc. pose proof (Ring.wf_rep _ Hwf) as H.
  destruct (Ring.WriteTo_spec rb _ wr H Hc) as (rb' & wr' & n & e & E & H0 & H1 & Ht & He & Hr).
  unfold ElasticRing.WriteTo. cbn [fst snd]. rewrite E.
  destruct Hr as [Hr|((Hn & _ & _) & _ & Hr)]; destruct (ElasticRing.done_spec _ _ Hr) as [Hwf' Hc'].
  - eexists _, wr', n, e, []. split_and!; try done.
  - eexists _, wr', n, e, (drop (Z.to_nat n) (Ring.contents rb)). split_and!; try done.
    by rewrite Hc', app_nil_r.
Qed.
End streams.

(** Streams through the elastic buffer.  [WriteTo] gives the writer what is
    first in the buffer, in order, as far as the count it returns; what is left
    is the rest, less what an error may have lost; a success means that all was
    written.  But with nothing in the ring it refuses, whatever is in the list,
    and keeps it.  [ReadFrom] into the list puts what came before the error
    behind what was there, and loses what came with the error. *)
Theorem elastic_streams {W R} {WR : IoWriter W} {RD : IoReader R} mb :
  wf mb →
  (ElasticRing.contents (ringBuffer mb) = [] → ∀ wr, ∃ mb',
   WriteTo (mb, wr) = ((mb', wr), Ok (0, Some ErrIsEmpty)) ∧ contents mb' = contents mb) ∧
  (ElasticRing.contents (ringBuffer mb) ≠ [] → ∀ wr, ∃ mb' wr' n e lost,
   WriteTo (mb, wr) = ((mb', wr'), Ok (n, e)) ∧ wf mb' ∧ 0 <= n <= len (contents mb) ∧
   taken wr' = taken wr ++ take (Z.to_nat n) (contents mb) ∧
   drop (Z.to_nat n) (contents mb) = lost ++ contents mb' ∧
   (e = None → n = len (contents mb))) ∧
  (∀ pooled fresh fuel rd, to_list mb = true → (left rd < fuel)%nat → ∃ mb' rd' d lost e,
   ReadFrom pooled fresh fuel (mb, rd) = ((mb', rd'), Ok (Some (len d + len lost, e))) ∧ wf mb' ∧
   contents mb' = contents mb ++ d ∧ given rd' = given rd ++ d ++ lost).
Proof.
  intros Hwf. destruct Hwf as [Hr Hl]. split_and!.
  - intros Hc wr. unfold WriteTo, contents. destruct (ringBuffer mb) as [rb|] eqn:E; cbn in *.
    + rewrite Ring.WriteTo_empty by (rewrite <- Hc; by apply Ring.wf_rep).
      exists (set_ring (ElasticRing.done_ (Some rb)) mb). split; [done|]. cbn [ringBuffer listBuffer set_ring].
      assert (Hrep : Ring.rep rb []) by (rewrite <- Hc; by apply Ring.wf_rep).
      destruct (ElasticRing.done_spec _ _ Hrep) as [_ ->]. by rewrite Hc.
    + exists mb. split; [|by rewrite E]. do 2 f_equal. destruct mb. cbn in *. by subst.
  - intros Hc wr. unfold WriteTo, contents.
    destruct (ring_WriteTo_spec (ringBuffer mb) wr Hr Hc)
      as (b' & wr1 & n & e & lost & -> & Hwf1 & H0 & H1 & Ht & Hd & He).
    set (c := ElasticRing.contents (ringBuffer mb)) in *. destruct e as [e|].
    + exists (set_ring b' mb), wr1, n, (Some e), lost. split_and!; try done; cbn.
      * len_solve.
      * by rewrite take_app_le by lia.
      * by rewrite drop_app_le, Hd, app_assoc by lia.
    + specialize (He eq_refl). subst n.
      destruct (Linked.linked_write_loop_spec (S (length (Linked.nodes (listBuffer mb)))) 0 (listBuffer mb) wr1 Hl)
        as (l' & wr2 & m & e & lost2 & El & Hwf2 & H2 & H3 & Ht2 & Hd2 & He2); [lia|].
      unfold Linked.WriteTo. cbn [fst snd]. rewrite El.
      exists (set_list l' (set_ring b' mb)), wr2, (len c + m), e, lost2.
      assert (Hb : ElasticRing.contents b' = []).
      { rewrite Nat2Z.id, drop_all in Hd. symmetry in Hd. by apply app_nil in Hd as [_ ->]. }
      destruct (Linked.past_cons c (Linked.nodes (listBuffer mb)) (len c + m))
        as [Et Ed]; [lia|]. cbn [concat] in Et, Ed. unfold Linked.contents in *.
      rewrite Et, Ed, Z.add_simpl_l, length_app. split_and!; try done; cbn; try lia.
      * by rewrite Ht2, Ht, Nat2Z.id, firstn_all, <- app_assoc.
      * by rewrite Hb.
      * intros He. destruct (He2 He) as [-> Hn]. rewrite Hn in Hd2.
        apply (f_equal length) in Hd2. rewrite length_drop in Hd2. cbn in Hd2. lia.
  - intros pooled fresh fuel rd Hto Hfuel.
    destruct (Linked.linked_ReadFrom_spec fuel 0 (listBuffer mb) rd Hl Hfuel) as (l' & rd' & d & lost & e & E & Hwf' & Hc & Hg).
    exists (set_list l' mb), rd', d, lost, e. unfold ReadFrom. rewrite Hto, E. split_and!; try done.
    unfold contents. cbn. by rewrite Hc, app_assoc.
Qed.

(** [Peek] of a number of bytes that are there: it gives them when they are
    just what the ring holds, or when the list alone holds as many; in every
    other case, so always when all is in the ring and less is asked for, it
    fails with [io.ErrShortBuffer], as if they were not there. *)
Theorem elastic_peek n mb :
  wf mb → 0 < n → n ≠ MaxInt32 → n <= len (contents mb) →
  (Peek n mb = Err ErrShortBuffer ↔
   n ≠ len (ElasticRing.contents (ringBuffer mb)) ∧ len (Linked.contents (listBuffer mb)) < n) ∧
  (n = len (ElasticRing.contents (ringBuffer mb)) ∨ n <= len (Linked.contents (listBuffer mb)) →
   ∃ out, Peek n mb = Ok out ∧ concat out = take (Z.to_nat n) (contents mb)).
Proof.
  intros Hwf H0 Hm Hn. pose proof (Peek_some n mb Hwf H0 Hm) as H. unfold peekable in H.
  case_bool_decide as Hp.
  - split; [|lia]. split; [lia|done].
  - split; [|done]. destruct H as (out & -> & _). split; [done|lia].
Qed.

(** ** Examples *)

Definition no_ring : Ring.XBuffer := Ring.mkRing [] 0 0 0 true.
Lemma no_ring_empty : Ring.rep no_ring [].
Proof. by constructor. Qed.

(** At most four bytes go to the ring; two writes, the second of which goes to the list. *)
Definition fresh_elastic : XBuffer := mkElastic 4 None Linked.empty.
Definition two_writes : XBuffer :=
  (Write no_ring zeros [5; 6; 7] (Write no_ring zeros [1; 2; 3; 4] fresh_elastic).1).1.

Lemma two_writes_wf : wf two_writes ∧ solid two_writes.
Proof.
  split; [split|]; [by vm_compute; repeat constructor| |].
  - by split; vm_compute.
  - apply Forall_forall. intros b Hb. unfold two_writes in Hb. vm_compute in Hb.
    by apply list_elem_of_singleton in Hb as ->.
Qed.

Lemma two_writes_hold : contents two_writes = [1; 2; 3; 4; 5; 6; 7].
Proof. by vm_compute. Qed.

(** Five bytes in the ring, three of them asked for. *)
Lemma peek_refuses :
  let mb := (Write no_ring zeros [1; 2; 3; 4; 5] (mkElastic 1024 None Linked.empty)).1 in
  Buffered mb = 5 ∧ Peek 3 mb = Err ErrShortBuffer.
Proof. by vm_compute. Qed.

(** The ring was read empty; what is in the list is never written. *)
Lemma list_never_written :
  match Read 4 two_writes with
  | Ok (mb, _) => contents mb = [5; 6; 7] ∧ (WriteTo (mb, (([], []) : counts))).2 = Ok (0, Some ErrIsEmpty)
  | _ => False
  end.
Proof. by vm_compute. Qed.

(** A node of which the writer took one byte and then failed. *)
Lemma failed_node_is_lost :
  let '((l, wr), x) := Linked.WriteTo (Linked.PushBack [1; 2; 3] Linked.empty, (([], [(1, Some EAGAIN)]) : counts)) in
  x = Ok (1, Some EAGAIN) ∧ taken wr = [1] ∧ Linked.contents l = [].
Proof. by vm_compute. Qed.

(** Two bytes that come together with the end. *)
Lemma last_read_is_lost :
  let '((l, rd), x) := Linked.ReadFrom 9 0 (Linked.empty, (([], [([1; 2], Some EOF)]) : chunks)) in
  x = Some (2, None) ∧ given rd = [1; 2] ∧ Linked.contents l = [].
Proof. by vm_compute. Qed.

(** ** Witnesses *)


Definition keen_writer : counts := ([], []).
Definition written_out : XBuffer * counts * outcome (Z * option error) := WriteTo (two_writes, keen_writer).
Lemma written_out_count : written_out.2 = Ok (7, None).
Proof. by vm_compute. Qed.

Lemma elastic_streams_witness : taken written_out.1.2 = [1; 2; 3; 4; 5; 6; 7].
Proof.
  destruct (elastic_streams (WR := counts_writer) (RD := chunks_reader) two_writes (proj1 two_writes_wf)) as (_ & H & _).
  destruct (H ltac:(by vm_compute) keen_writer) as (mb' & wr' & n & e & lost & E & _ & _ & Ht & _ & _).
  pose proof written_out_count as Hn. unfold written_out in Hn |- *. rewrite E in Hn |- *.
  cbn [fst snd] in Hn |- *. injection Hn as -> ->. rewrite Ht, two_writes_hold. done.
Defined.

Lemma elastic_peek_witness : Peek 5 two_writes = Err ErrShortBuffer.
Proof.
  destruct (elastic_peek 5 two_writes (proj1 two_writes_wf)) as [[_ H] _];
    [done|done|by vm_compute|]. apply H. by vm_compute.
Defined.
