(* ===== verification/LockFree.v ===== *)
(** * utils/xqueue: the lock-free task queue

    lock_free_xqueue.go: the queue of Michael and Scott.  Every atomic access of
    [Enqueue] and [Dequeue] is a turn of its own, and any number of threads take
    their turns in any order.  Nodes are collected by the garbage collector, so
    the address of a node is never used again: [store] only grows. *)
From S2P Require Import Prelude.
#[local] Close Scope nat_scope.
Open Scope Z_scope.

(** ** The queue *)

(** A task is known by its address, a node by its own, a number. *)
Definition Task : Type := Z.
Record node := mkNode { value : Task; next : option nat }.

Record lockFreeQueue := mkQueue {
  store : list node;
  head : nat;
  tail : nat;
  length_ : Z;
}.

Definition set_store x (q : lockFreeQueue) := mkQueue x (head q) (tail q) (length_ q).
Definition set_head x (q : lockFreeQueue) := mkQueue (store q) x (tail q) (length_ q).
Definition set_tail x (q : lockFreeQueue) := mkQueue (store q) (head q) x (length_ q).
(** [q.length.Add(d)] *)
Definition Add (d : Z) (q : lockFreeQueue) := mkQueue (store q) (head q) (tail q) (length_ q + d).

Definition NewLockFreeQueue : lockFreeQueue := mkQueue [mkNode 0 None] 0%nat 0%nat 0.
Definition Length (q : lockFreeQueue) : Z := length_ q.
Definition IsEmpty (q : lockFreeQueue) : bool := bool_decide (length_ q = 0).

(** [load(&a.next)] *)
Definition load_next (a : nat) (q : lockFreeQueue) : option nat := store q !! a ≫= next.

(** [cas(&q.head, old, new)], [cas(&q.tail, old, new)], [cas(&a.next, nil, new)]. *)
Definition cas_head (old new : nat) (q : lockFreeQueue) : lockFreeQueue * bool :=
  if decide (head q = old) then (set_head new q, true) else (q, false).
Definition cas_tail (old new : nat) (q : lockFreeQueue) : lockFreeQueue * bool :=
  if decide (tail q = old) then (set_tail new q, true) else (q, false).
Definition cas_next (a new : nat) (q : lockFreeQueue) : lockFreeQueue * bool :=
  match store q !! a with
  | Some (mkNode v None) => (set_store (<[a := mkNode v (Some new)]> (store q)) q, true)
  | _ => (q, false)
  end.

(** ** The threads

    Where a thread is, with its local variables: before the access that the
    constructor's name says. *)
Inductive pc :=
  | Idle
  | E_tail (n : nat)
  | E_next (n tl : nat)
  | E_check (n tl : nat) (nx : option nat)
  | E_link (n tl : nat)
  | E_help (n tl nx : nat)
  | E_swing (n tl : nat)
  | E_count
  | D_head
  | D_tail (hd : nat)
  | D_next (hd tl : nat)
  | D_check (hd tl : nat) (nx : option nat)
  | D_help (tl nx : nat)
  | D_value (hd : nat) (nx : option nat)
  | D_move (hd nx : nat) (v : Task)
  | D_count (v : Task)
  | Crashed.

(** What happens to the outside, or to the queue: a call, its effect, its
    return; [SawEmpty] is a dequeue that finds no next node. *)
Inductive event :=
  | CallEnqueue (v : Task)
  | CallDequeue
  | Enqueued (v : Task)
  | Dequeued (v : Task)
  | SawEmpty
  | RetEnqueue
  | RetDequeue (x : option Task).

(** [Enqueue]: the node is made, then the loop starts. *)
Definition call_enqueue (v : Task) (q : lockFreeQueue) : lockFreeQueue * pc :=
  (set_store (store q ++ [mkNode v None]) q, E_tail (length (store q))).

(** One access of a thread. *)
Definition Enqueue_turn (p : pc) (q : lockFreeQueue) : lockFreeQueue * pc * list event :=
  match p with
  | E_tail n => (q, E_next n (tail q), [])
  | E_next n tl => (q, E_check n tl (load_next tl q), [])
  | E_check n tl nx =>
      if decide (tl = tail q)
      then match nx with None => (q, E_link n tl, []) | Some nx => (q, E_help n tl nx, []) end
      else (q, E_tail n, [])
  | E_link n tl =>
      let '(q', ok) := cas_next tl n q in
      if ok then (q', E_swing n tl, option_list (Enqueued ∘ value <$> store q !! n))
      else (q', E_tail n, [])
  | E_help n tl nx => ((cas_tail tl nx q).1, E_tail n, [])
  | E_swing n tl => ((cas_tail tl n q).1, E_count, [])
  | E_count => (Add 1 q, Idle, [RetEnqueue])
  | _ => (q, p, [])
  end.

Definition Dequeue_turn (p : pc) (q : lockFreeQueue) : lockFreeQueue * pc * list event :=
  match p with
  | D_head => (q, D_tail (head q), [])
  | D_tail hd => (q, D_next hd (tail q), [])
  | D_next hd tl =>
      let nx := load_next hd q in
      (q, D_check hd tl nx, match nx with None => [SawEmpty] | Some _ => [] end)
  | D_check hd tl nx =>
      if decide (hd = head q) then
        if decide (hd = tl)
        then match nx with None => (q, Idle, [RetDequeue None]) | Some nx => (q, D_help tl nx, []) end
        else (q, D_value hd nx, [])
      else (q, D_head, [])
  | D_help tl nx => ((cas_tail tl nx q).1, D_head, [])
  | D_value hd nx =>
      match nx ≫= λ a, store q !! a with
      | Some x => (q, D_move hd (default 0%nat nx) (value x), [])
      | None => (q, Crashed, [])
      end
  | D_move hd nx v =>
      let '(q', ok) := cas_head hd nx q in
      if ok then (q', D_count v, [Dequeued v]) else (q', D_head, [])
  | D_count v => (Add (-1) q, Idle, [RetDequeue (Some v)])
  | _ => (q, p, [])
  end.

Definition thread_turn (p : pc) (q : lockFreeQueue) : lockFreeQueue * pc * list event :=
  match p with
  | E_tail _ | E_next _ _ | E_check _ _ _ | E_link _ _ | E_help _ _ _ | E_swing _ _ | E_count =>
      Enqueue_turn p q
  | _ => Dequeue_turn p q
  end.

(** ** The system *)

Record system := mkSystem { queue : lockFreeQueue; threads : list pc }.

(** Who has the next turn: a thread that calls, or one that goes on. *)
Inductive choice :=
  | DoEnqueue (t : nat) (v : Task)
  | DoDequeue (t : nat)
  | Go (t : nat).

Definition whose (c : choice) : nat := match c with DoEnqueue t _ | DoDequeue t | Go t => t end.

Definition turn_of (c : choice) (p : pc) (q : lockFreeQueue) : lockFreeQueue * pc * list event :=
  match c, p with
  | DoEnqueue _ v, Idle => (call_enqueue v q, [CallEnqueue v])
  | DoDequeue _, Idle => (q, D_head, [CallDequeue])
  | Go _, p => thread_turn p q
  | _, p => (q, p, [])
  end.

(** A turn, and what happened in it. *)
Definition turn (c : choice) (s : system) : system * list (nat * event) :=
  match threads s !! whose c with
  | None => (s, [])
  | Some p =>
      let '(q, p, es) := turn_of c p (queue s) in
      (mkSystem q (<[whose c := p]> (threads s)), pair (whose c) <$> es)
  end.

Fixpoint run (cs : list choice) (s : system) : system * list (nat * event) :=
  match cs with
  | [] => (s, [])
  | c :: cs => let '(s, l1) := turn c s in let '(s, l2) := run cs s in (s, l1 ++ l2)
  end.

Definition init (n : nat) : system := mkSystem NewLockFreeQueue (replicate n Idle).

(** ** The specification

    A list of tasks, and what an event does to it; a call and its return do
    nothing. *)
Definition effect (e : event) (l : list Task) : option (list Task) :=
  match e with
  | Enqueued v => Some (l ++ [v])
  | Dequeued v => match l with x :: l => if decide (x = v) then Some l else None | [] => None end
  | SawEmpty => match l with [] => Some [] | _ => None end
  | _ => Some l
  end.
Fixpoint effects (es : list (nat * event)) (l : list Task) : option (list Task) :=
  match es with [] => Some l | (_, e) :: es => effect e l ≫= effects es end.

(** One thread's calls: each enqueue takes effect once between its call and its
    return, each dequeue that returns a task too, and one that returns none found
    the queue empty on the way. *)
Inductive phase :=
  | Out
  | Enqueuing (v : Task)
  | HasEnqueued
  | Dequeuing (empty : bool)
  | HasDequeued (v : Task).
#[export] Instance phase_dec : EqDecision phase := ltac:(solve_decision).

Definition follow (e : event) (f : phase) : option phase :=
  match e, f with
  | CallEnqueue v, Out => Some (Enqueuing v)
  | Enqueued v, Enqueuing v' => if decide (v = v') then Some HasEnqueued else None
  | RetEnqueue, HasEnqueued => Some Out
  | CallDequeue, Out => Some (Dequeuing false)
  | SawEmpty, Dequeuing _ => Some (Dequeuing true)
  | Dequeued v, Dequeuing _ => Some (HasDequeued v)
  | RetDequeue (Some v), HasDequeued v' => if decide (v = v') then Some Out else None
  | RetDequeue None, Dequeuing true => Some Out
  | _, _ => None
  end.
Fixpoint follows (t : nat) (es : list (nat * event)) (f : phase) : option phase :=
  match es with
  | [] => Some f
  | (t', e) :: es => if decide (t = t') then follow e f ≫= follows t es else follows t es f
  end.

(** ** The invariant *)

(** The tasks from the head on. *)
Definition values (q : lockFreeQueue) (l : list nat) : list Task :=
  omap (λ a, value <$> store q !! a) l.

(** The nodes are linked in the order of [chain]; the head is the [h]-th, the
    tail the [t]-th, the last or the one before. *)
Record linked (q : lockFreeQueue) (chain : list nat) (h t : nat) : Prop := {
  links : ∀ i a, chain !! i = Some a → ∃ v, store q !! a = Some (mkNode v (chain !! S i));
  distinct : NoDup chain;
  at_head : chain !! h = Some (head q);
  at_tail : chain !! t = Some (tail q);
  in_order : (h <= t)%nat;
  no_lag : (length chain <= S (S t))%nat;
}.

(** The node that a thread has made and not yet linked. *)
Definition mine (p : pc) : option nat :=
  match p with
  | E_tail n | E_next n _ | E_check n _ _ | E_link n _ | E_help n _ _ => Some n
  | _ => None
  end.

(** What a thread knows of its locals. *)
Definition knows (chain : list nat) (h t : nat) (q : lockFreeQueue) (p : pc) : Prop :=
  match p with
  | Idle | E_tail _ | E_count | D_head | D_count _ => True
  | E_next _ tl | E_link _ tl => ∃ i, chain !! i = Some tl ∧ (i <= t)%nat
  | E_check _ tl nx => ∃ i, chain !! i = Some tl ∧ (i <= t)%nat ∧ (is_Some nx → chain !! S i = nx)
  | E_help _ tl nx | E_swing nx tl | D_help tl nx =>
      ∃ i, chain !! i = Some tl ∧ (i <= t)%nat ∧ chain !! S i = Some nx
  | D_tail hd => ∃ j, chain !! j = Some hd ∧ (j <= h)%nat
  | D_next hd tl => ∃ j i, chain !! j = Some hd ∧ (j <= h)%nat ∧ chain !! i = Some tl ∧ (j <= i <= t)%nat
  | D_check hd tl nx =>
      ∃ j i, chain !! j = Some hd ∧ (j <= h)%nat ∧ chain !! i = Some tl ∧ (j <= i <= t)%nat ∧
      match nx with Some _ => chain !! S j = nx | None => j = i end
  | D_value hd nx =>
      ∃ j b, chain !! j = Some hd ∧ (j <= h)%nat ∧ (S j <= t)%nat ∧ nx = Some b ∧ chain !! S j = Some b
  | D_move hd nx v =>
      ∃ j, chain !! j = Some hd ∧ (j <= h)%nat ∧ (S j <= t)%nat ∧ chain !! S j = Some nx ∧
      value <$> store q !! nx = Some v
  | Crashed => False
  end.

(** The phase that a thread's place stands for. *)
Definition phase_of (q : lockFreeQueue) (p : pc) (f : phase) : Prop :=
  match p with
  | Idle => f = Out
  | E_tail n | E_next n _ | E_check n _ _ | E_link n _ | E_help n _ _ =>
      ∃ v, f = Enqueuing v ∧ store q !! n = Some (mkNode v None)
  | E_swing _ _ | E_count => f = HasEnqueued
  | D_check hd tl None => f = Dequeuing true
  | D_head | D_tail _ | D_next _ _ | D_check _ _ _ | D_help _ _ | D_value _ _ | D_move _ _ _ =>
      ∃ b, f = Dequeuing b
  | D_count v => f = HasDequeued v
  | Crashed => False
  end.

(** Threads that have not yet counted what they did. *)
Definition behind (p : pc) : Z :=
  match p with E_swing _ _ | E_count => 1 | D_count _ => -1 | _ => 0 end.
Definition total (f : pc → Z) (ps : list pc) : Z := foldr (λ p n, f p + n) 0 ps.

Record inv (s : system) (chain : list nat) (h t : nat) : Prop := {
  inv_linked : linked (queue s) chain h t;
  inv_knows : ∀ i p, threads s !! i = Some p → knows chain h t (queue s) p;
  inv_mine : ∀ i p n, threads s !! i = Some p → mine p = Some n → n ∉ chain;
  inv_alone : ∀ i j p p' n, threads s !! i = Some p → threads s !! j = Some p' →
    mine p = Some n → mine p' = Some n → i = j;
  inv_store : ∀ i p n, threads s !! i = Some p → mine p = Some n → ∃ v, store (queue s) !! n = Some (mkNode v None);
  inv_length : length_ (queue s) = Z.of_nat (length (drop (S h) chain)) - total behind (threads s);
}.

(** ** The nodes stay linked *)

Lemma index_unique q chain h t i j a :
  linked q chain h t → chain !! i = Some a → chain !! j = Some a → i = j.
Proof. intros H Hi Hj. by eapply NoDup_lookup; [apply H|..]. Qed.

Lemma next_in_chain q chain h t i a :
  linked q chain h t → chain !! i = Some a → load_next a q = chain !! S i.
Proof. intros H Hi. destruct (links _ _ _ _ H i a Hi) as [v Hv]. unfold load_next. by rewrite Hv. Qed.

Lemma tail_index q chain h t : linked q chain h t → (t < length chain)%nat.
Proof. intros H. eapply lookup_lt_Some. by apply H. Qed.

Lemma last_index q chain h t i a :
  linked q chain h t → chain !! i = Some a → chain !! S i = None → S i = length chain.
Proof. intros H Hi%lookup_lt_Some Hn%lookup_ge_None_1. lia. Qed.

(** Swinging the tail to the next node, or not, keeps the links. *)
Lemma cas_tail_linked q chain h t i tl nx :
  linked q chain h t → chain !! i = Some tl → chain !! S i = Some nx →
  ∃ t', (t <= t')%nat ∧ linked (cas_tail tl nx q).1 chain h t' ∧ (i < t' \/ t' = t)%nat.
Proof.
  intros H Hi Hn. unfold cas_tail. destruct (decide (tail q = tl)) as [Ht|].
  - assert (i = t) as -> by (eapply index_unique; [done|done|rewrite <- Ht; apply H]).
    exists (S t). split; [lia|]. split; [|lia]. destruct H. constructor; cbn; try done; lia.
  - exists t. split; [lia|]. split; [done|lia].
Qed.

Lemma Add_linked d q chain h t : linked q chain h t → linked (Add d q) chain h t.
Proof. intros []. by constructor. Qed.

(** A node at the end. *)
Lemma cas_next_linked q chain h t i tl n v :
  linked q chain h t → chain !! i = Some tl → (i <= t)%nat → n ∉ chain →
  store q !! n = Some (mkNode v None) →
  if (cas_next tl n q).2 then
    linked (cas_next tl n q).1 (chain ++ [n]) h t ∧ (chain ++ [n]) !! S i = Some n ∧
    (∃ w, store q !! tl = Some (mkNode w None) ∧
     (cas_next tl n q).1 = set_store (<[tl := mkNode w (Some n)]> (store q)) q)
  else (cas_next tl n q).1 = q.
Proof.
  intros H Hi Hit Hn Hv. destruct (links _ _ _ _ H i tl Hi) as [w Hw]. unfold cas_next. rewrite Hw.
  destruct (chain !! S i) as [b|] eqn:Eb; [done|]. cbn.
  pose proof (last_index _ _ _ _ _ _ H Hi Eb) as Hl. pose proof (tail_index _ _ _ _ H) as Ht.
  assert (Htn : tl ≠ n) by (intros ->; apply Hn; by eapply list_elem_of_lookup_2).
  split; [|split; [|by eexists]].
  2: { by rewrite lookup_app_r, Hl, Nat.sub_diag by lia. }
  destruct H as [Hlinks Hd Hh Htl Ho Hlag]. constructor; cbn.
  - intros k a Hk. destruct (decide (k < length chain)%nat) as [Hkl|Hkl].
    + rewrite lookup_app_l in Hk by done. destruct (decide (a = tl)) as [->|Ha].
      * assert (k = i) as -> by (by eapply NoDup_lookup). exists w.
        rewrite list_lookup_insert_eq by (by eapply lookup_lt_Some).
        by rewrite lookup_app_r, Hl, Nat.sub_diag by lia.
      * destruct (Hlinks k a Hk) as [u Hu]. exists u. rewrite list_lookup_insert_ne by done. rewrite Hu.
        assert (k ≠ i) by congruence. by rewrite lookup_app_l by lia.
    + assert (k = length chain) as -> by (apply lookup_lt_Some in Hk; rewrite length_app in Hk; cbn in Hk; lia).
      rewrite list_lookup_middle in Hk by done. injection Hk as <-. exists v.
      rewrite list_lookup_insert_ne by done. rewrite Hv. do 2 f_equal. symmetry. apply lookup_ge_None_2.
      rewrite length_app. cbn. lia.
  - apply NoDup_app. split; [done|]. split; [|by apply NoDup_singleton].
    intros x Hx ->%list_elem_of_singleton. done.
  - by apply lookup_app_l_Some.
  - by apply lookup_app_l_Some.
  - done.
  - rewrite length_app. cbn. lia.
Qed.

(** ** What a thread knows stays true *)

(** Values are never overwritten. *)
Definition keeps (q q' : lockFreeQueue) : Prop :=
  ∀ a v, value <$> store q !! a = Some v → value <$> store q' !! a = Some v.

Lemma lookup_grows {A} (l l' : list A) i x : l !! i = Some x → (l ++ l') !! i = Some x.
Proof. apply lookup_app_l_Some. Qed.
Create HintDb queue.
#[local] Hint Resolve lookup_grows : queue.
#[local] Hint Extern 1 (_ <= _)%nat => lia : queue.

Lemma knows_stable chain l h t h' t' q q' p :
  (h <= h')%nat → (t <= t')%nat → keeps q q' →
  knows chain h t q p → knows (chain ++ l) h' t' q' p.
Proof.
  intros Hh Ht Hk.
  destruct p as [|n|n tl|n tl nx|n tl|n tl nx|n tl| | |hd|hd tl|hd tl nx|tl nx|hd nx|hd nx v|v|]; cbn; try done.
  - intros (i & H1 & H2). exists i. eauto with queue.
  - intros (i & H1 & H2 & H3). exists i. split; [eauto with queue|]. split; [lia|].
    intros [b ->]. apply lookup_grows. by apply H3.
  - intros (i & H1 & H2). exists i. eauto with queue.
  - intros (i & H1 & H2 & H3). exists i. eauto with queue.
  - intros (i & H1 & H2 & H3). exists i. eauto with queue.
  - intros (j & H1 & H2). exists j. eauto with queue.
  - intros (j & i & H1 & H2 & H3 & H4). exists j, i. split_and!; eauto with queue; lia.
  - intros (j & i & H1 & H2 & H3 & H4 & H5). exists j, i. split_and!; eauto with queue; try lia.
    destruct nx; eauto with queue.
  - intros (i & H1 & H2 & H3). exists i. eauto with queue.
  - intros (j & b & H1 & H2 & H3 & H4 & H5). exists j, b. split_and!; eauto with queue.
  - intros (j & H1 & H2 & H3 & H4 & H5). exists j. split_and!; eauto with queue.
Qed.

(** ** One turn of one thread *)

Fixpoint effects1 (es : list event) (l : list Task) : option (list Task) :=
  match es with [] => Some l | e :: es => effect e l ≫= effects1 es end.
Fixpoint follow1 (es : list event) (f : phase) : option phase :=
  match es with [] => Some f | e :: es => follow e f ≫= follow1 es end.

Lemma effects_of_one t es l : effects (pair t <$> es) l = effects1 es l.
Proof. revert l; induction es as [|e es IH]; intros l; cbn; [done|]. destruct (effect e l); cbn; auto. Qed.
Lemma follows_of_one t t' es f :
  follows t (pair t' <$> es) f = if decide (t = t') then follow1 es f else Some f.
Proof.
  destruct (decide (t = t')) as [->|Ht].
  - revert f; induction es as [|e es IH]; intros f; cbn; [done|]. rewrite decide_True by done.
    destruct (follow e f); cbn; auto.
  - induction es as [|e es IH]; cbn; [done|]. by rewrite decide_False.
Qed.

(** What the others, the invariant and the specification see of it. *)
Record advances (q : lockFreeQueue) (chain : list nat) (h t : nat) (p : pc)
    (q' : lockFreeQueue) (chain' : list nat) (h' t' : nat) (p' : pc) (es : list event) : Prop := {
  adv_linked : linked q' chain' h' t';
  adv_chain : ∃ l, chain' = chain ++ l ∧ ∀ n, n ∈ l → mine p = Some n ∧ mine p' = None;
  adv_h : (h <= h')%nat;
  adv_t : (t <= t')%nat;
  adv_knows : knows chain' h' t' q' p';
  adv_mine : ∀ n, mine p' = Some n → (n ∉ chain') ∧ (mine p = Some n ∨ store q !! n = None);
  adv_keeps : keeps q q';
  adv_others : ∀ n x, store q !! n = Some x → n ∉ chain → mine p ≠ Some n → store q' !! n = Some x;
  adv_effects : effects1 es (values q (drop (S h) chain)) = Some (values q' (drop (S h') chain'));
  adv_length : length_ q' - Z.of_nat (length (drop (S h') chain')) + behind p' =
               length_ q - Z.of_nat (length (drop (S h) chain)) + behind p;
  adv_phase : ∀ f, phase_of q p f → ∃ f', follow1 es f = Some f' ∧ phase_of q' p' f';
}.

Definition moves (q : lockFreeQueue) (chain : list nat) (h t : nat) (p : pc)
    (x : lockFreeQueue * pc * list event) : Prop :=
  ∃ chain' h' t', advances q chain h t p x.1.1 chain' h' t' x.1.2 x.2.

Lemma kept_refl q : keeps q q.
Proof. by intros a v. Qed.

Lemma same_chain (chain : list nat) p p' :
  ∃ l, chain = chain ++ l ∧ ∀ n, n ∈ l → mine p = Some n ∧ mine p' = None.
Proof. exists []. split; [by rewrite app_nil_r|]. intros n Hn. by apply not_elem_of_nil in Hn. Qed.

(** A turn that changes nothing of the queue. *)
Lemma moves_still q chain h t p p' es :
  linked q chain h t → knows chain h t q p' → behind p' = behind p →
  (∀ n, mine p' = Some n → mine p = Some n ∧ n ∉ chain) →
  effects1 es (values q (drop (S h) chain)) = Some (values q (drop (S h) chain)) →
  (∀ f, phase_of q p f → ∃ f', follow1 es f = Some f' ∧ phase_of q p' f') →
  moves q chain h t p (q, p', es).
Proof.
  intros Hl Hk Hb Hm He Hf. exists chain, h, t. constructor; try done; cbn.
  - apply same_chain.
  - intros n Hn. destruct (Hm n Hn). eauto.
  - apply kept_refl.
  - lia.
Qed.

Lemma moves_quiet q chain h t p p' :
  linked q chain h t → knows chain h t q p' → behind p' = behind p →
  (∀ n, mine p' = Some n → mine p = Some n ∧ n ∉ chain) →
  (∀ f, phase_of q p f → phase_of q p' f) →
  moves q chain h t p (q, p', []).
Proof. intros ????? . apply moves_still; try done. intros f Hf. exists f. by auto. Qed.

(** What the nodes of a chain hold stays. *)
Lemma values_keep q q' chain h t k :
  linked q chain h t → keeps q q' → values q' (drop k chain) = values q (drop k chain).
Proof.
  intros Hl Hk. unfold values.
  assert (Hin : ∀ a, a ∈ drop k chain → value <$> store q' !! a = value <$> store q !! a).
  { intros a [i Hi]%list_elem_of_lookup. rewrite lookup_drop in Hi.
    destruct (links _ _ _ _ Hl _ _ Hi) as [v Hv]. rewrite (Hk a v); by rewrite Hv. }
  induction (drop k chain) as [|a l IH]; [done|]. cbn. rewrite Hin by left.
  by rewrite IH by (intros b Hb; apply Hin; by right).
Qed.

(** A turn that swings the tail, or not. *)
Lemma moves_tail q chain h t p p' i tl nx :
  linked q chain h t → chain !! i = Some tl → chain !! S i = Some nx →
  (∀ t', knows chain h t' q p') → behind p' = behind p →
  (∀ n, mine p' = Some n → mine p = Some n ∧ n ∉ chain) →
  (∀ f, phase_of q p f → phase_of q p' f) →
  moves q chain h t p ((cas_tail tl nx q).1, p', []).
Proof.
  intros Hl Hi Hn Hk Hb Hm Hf. destruct (cas_tail_linked q chain h t i tl nx Hl Hi Hn) as (t' & Ht & Hl' & _).
  assert (Hs : store (cas_tail tl nx q).1 = store q) by (unfold cas_tail; by destruct (decide _)).
  assert (Hlen : length_ (cas_tail tl nx q).1 = length_ q) by (unfold cas_tail; by destruct (decide _)).
  set (q' := (cas_tail tl nx q).1) in *.
  assert (Hv : ∀ l, values q' l = values q l) by (intros l; unfold values; by rewrite Hs).
  exists chain, h, t'. constructor; cbn; try done.
  - apply same_chain.
  - specialize (Hk t'). revert Hk. destruct p'; try done. cbn. by rewrite Hs.
  - intros n H. destruct (Hm n H). eauto.
  - intros a v. by rewrite Hs.
  - intros n x. by rewrite Hs.
  - by rewrite Hv.
  - lia.
  - intros f H. exists f. split; [done|]. apply Hf in H. revert H. unfold phase_of.
    by destruct p'; rewrite ?Hs.
Qed.

(** The turn that links a node. *)
Lemma moves_link q chain h t i n tl v :
  linked q chain h t → chain !! i = Some tl → (i <= t)%nat → n ∉ chain →
  store q !! n = Some (mkNode v None) →
  moves q chain h t (E_link n tl) (thread_turn (E_link n tl) q).
Proof.
  intros Hl Hi Hit Hn Hv. pose proof (cas_next_linked q chain h t i tl n v Hl Hi Hit Hn Hv) as H.
  cbn [thread_turn Enqueue_turn]. destruct (cas_next tl n q) as [q' [|]]; cbn [fst snd] in H.
  2: { subst q'. apply moves_quiet; try done. by intros m [= <-]. }
  destruct H as (Hl' & Hn' & w & Hw & ->). rewrite Hv. cbn.
  assert (Htn : tl ≠ n) by (intros ->; apply Hn; by eapply list_elem_of_lookup_2).
  assert (Hkeep : keeps q (set_store (<[tl := mkNode w (Some n)]> (store q)) q)).
  { intros a x Ha. cbn. destruct (decide (a = tl)) as [->|].
    - rewrite Hw in Ha. rewrite list_lookup_insert_eq by (by eapply lookup_lt_Some). done.
    - by rewrite list_lookup_insert_ne. }
  exists (chain ++ [n]), h, t. constructor; try done.
  - exists [n]. split; [done|]. by intros m ->%list_elem_of_singleton.
  - exists i. eauto with queue.
  - cbn. intros m x Hx Hm _. rewrite list_lookup_insert_ne; [done|].
    intros <-. apply Hm. by eapply list_elem_of_lookup_2.
  - assert (Hh : (S h <= length chain)%nat) by (destruct Hl as [_ _ Hh _ _ _]; by apply lookup_lt_Some in Hh).
    rewrite drop_app_le by done. unfold effects1, effect. cbn. f_equal. unfold values.
    rewrite omap_app. f_equal.
    + symmetry. by apply (values_keep q _ chain h t).
    + cbn. by rewrite list_lookup_insert_ne, Hv by done.
  - cbn. assert (Hh : (S h <= length chain)%nat) by (destruct Hl as [_ _ Hh _ _ _]; by apply lookup_lt_Some in Hh).
    rewrite drop_app_le, length_app by done. cbn. lia.
  - intros f (x & -> & Hx). exists HasEnqueued. split; [|done]. cbn. rewrite Hv in Hx. injection Hx as <-.
    by rewrite decide_True.
Qed.

Lemma head_index q chain h t j hd :
  linked q chain h t → chain !! j = Some hd → (hd = head q ↔ j = h).
Proof.
  intros Hl Hj. split; [|intros ->; rewrite (at_head _ _ _ _ Hl) in Hj; congruence].
  intros ->. eapply index_unique; [done|done|apply Hl].
Qed.

(** The turn that moves the head. *)
Lemma moves_head q chain h t j hd nx v :
  linked q chain h t → chain !! j = Some hd → (S j <= t)%nat → chain !! S j = Some nx →
  value <$> store q !! nx = Some v →
  moves q chain h t (D_move hd nx v) (thread_turn (D_move hd nx v) q).
Proof.
  intros Hl Hj Hjt Hn Hv. cbn. unfold cas_head. destruct (decide (head q = hd)) as [Hd|].
  2: { apply moves_quiet; done. }
  symmetry in Hd. apply (head_index _ _ _ _ j _ Hl Hj) in Hd as ->.
  exists chain, (S h), t. pose proof (drop_S _ _ _ Hn) as Hdrop.
  constructor; cbn [fst snd behind knows mine length_ Add set_head]; try done.
  - destruct Hl. constructor; done.
  - apply (same_chain chain Idle Idle).
  - lia.
  - by intros a x.
  - rewrite Hdrop. unfold values. cbn [effects1 omap list_omap]. rewrite Hv. cbn. by rewrite decide_True.
  - rewrite Hdrop. cbn [length]. lia.
  - intros f [b ->]. by eexists.
Qed.

Lemma moves_check_enqueue q chain h t i n tl nx :
  linked q chain h t → chain !! i = Some tl → (i <= t)%nat → (is_Some nx → chain !! S i = nx) → n ∉ chain →
  moves q chain h t (E_check n tl nx) (thread_turn (E_check n tl nx) q).
Proof.
  intros Hl Hi Hit Hnx Hn. cbn.
  destruct (decide (tl = tail q)); [destruct nx as [nx|]|]; apply moves_quiet; try done; cbn.
  all: try by intros m [= <-].
  - exists i. split_and!; try done. by apply Hnx.
  - by exists i.
Qed.

Lemma moves_check_dequeue q chain h t j i hd tl nx :
  linked q chain h t → chain !! j = Some hd → (j <= h)%nat → chain !! i = Some tl → (j <= i <= t)%nat →
  match nx with Some _ => chain !! S j = nx | None => j = i end →
  moves q chain h t (D_check hd tl nx) (thread_turn (D_check hd tl nx) q).
Proof.
  intros Hl Hj Hjh Hi Hji Hnx. cbn.
  destruct (decide (hd = head q)); [destruct (decide (hd = tl)) as [->|Hne]; [destruct nx as [nx|]|]|].
  - assert (i = j) as -> by by eapply index_unique. apply moves_quiet; try done. cbn. exists j. split_and!; done || lia.
  - apply moves_still; try done. intros f ->. by exists Out.
  - assert (i ≠ j) by congruence. destruct nx as [nx|]; [|congruence]. apply moves_quiet; try done. cbn.
    exists j, nx. split_and!; done || lia.
  - apply moves_quiet; try done. intros f H. destruct nx; [done|]. by exists true.
Qed.

Lemma moves_next_dequeue q chain h t j i hd tl :
  linked q chain h t → chain !! j = Some hd → (j <= h)%nat → chain !! i = Some tl → (j <= i <= t)%nat →
  moves q chain h t (D_next hd tl) (thread_turn (D_next hd tl) q).
Proof.
  intros Hl Hj Hjh Hi Hji. cbn. rewrite (next_in_chain _ _ _ _ _ _ Hl Hj).
  pose proof (tail_index _ _ _ _ Hl) as Ht. pose proof (in_order _ _ _ _ Hl) as Ho.
  destruct (chain !! S j) as [b|] eqn:Eb.
  - apply moves_quiet; try done. cbn. exists j, i. by split_and!; try lia.
  - pose proof (last_index _ _ _ _ _ _ Hl Hj Eb).
    apply moves_still; try done; cbn.
    + exists j, i. split_and!; try done; lia.
    + by rewrite drop_ge by lia.
    + intros f [b ->]. by exists (Dequeuing true).
Qed.

Lemma thread_moves q chain h t p :
  linked q chain h t → knows chain h t q p →
  (∀ n, mine p = Some n → (n ∉ chain) ∧ ∃ v, store q !! n = Some (mkNode v None)) →
  moves q chain h t p (thread_turn p q).
Proof.
  intros Hl Hk Hm.
  destruct p as [|n|n tl|n tl nx|n tl|n tl nx|n tl| | |hd|hd tl|hd tl nx|tl nx|hd nx|hd nx v|v|].
  - by apply moves_quiet.
  - apply moves_quiet; try done; cbn.
    + exists t. split; [apply Hl|lia].
    + intros m [= <-]. split; [done|]. by apply Hm.
  - destruct Hk as (i & Hi & Hit). apply moves_quiet; try done; cbn.
    + exists i. split_and!; try done. by rewrite (next_in_chain _ _ _ _ _ _ Hl Hi).
    + intros m [= <-]. split; [done|]. by apply Hm.
  - destruct Hk as (i & Hi & Hit & Hnx). apply (moves_check_enqueue _ _ _ _ i); try done. by apply Hm.
  - destruct Hk as (i & Hi & Hit). destruct (Hm n eq_refl) as [Hn [v Hv]]. by apply (moves_link _ _ _ _ i n tl v).
  - destruct Hk as (i & Hi & Hit & Hn). apply (moves_tail _ _ _ _ _ _ i); try done.
    intros m [= <-]. split; [done|]. by apply Hm.
  - destruct Hk as (i & Hi & Hit & Hn). by apply (moves_tail _ _ _ _ _ _ i).
  - cbn [thread_turn Enqueue_turn Dequeue_turn]. exists chain, h, t.
    constructor; cbn [fst snd behind knows mine length_ Add set_head]; try done.
    + by apply Add_linked.
    + apply (same_chain chain Idle Idle).
    + by intros a x.
    + lia.
    + intros f ->. by exists Out.
  - apply moves_quiet; try done. cbn. exists h. split; [apply Hl|lia].
  - destruct Hk as (j & Hj & Hjh). apply moves_quiet; try done. cbn. exists j, t.
    pose proof (in_order _ _ _ _ Hl). split_and!; try done; try lia. apply Hl.
  - destruct Hk as (j & i & Hj & Hjh & Hi & Hji). by apply (moves_next_dequeue _ _ _ _ j i).
  - destruct Hk as (j & i & Hj & Hjh & Hi & Hji & Hnx). by apply (moves_check_dequeue _ _ _ _ j i).
  - destruct Hk as (i & Hi & Hit & Hn). by apply (moves_tail _ _ _ _ _ _ i).
  - destruct Hk as (j & b & Hj & Hjh & Hjt & -> & Hn). destruct (links _ _ _ _ Hl _ _ Hn) as [v Hv].
    cbn. rewrite Hv. apply moves_quiet; try done. cbn. exists j. rewrite Hv. by split_and!.
  - destruct Hk as (j & Hj & Hjh & Hjt & Hn & Hv). by apply (moves_head _ _ _ _ j).
  - cbn [thread_turn Enqueue_turn Dequeue_turn]. exists chain, h, t.
    constructor; cbn [fst snd behind knows mine length_ Add set_head]; try done.
    + by apply Add_linked.
    + apply (same_chain chain Idle Idle).
    + by intros a x.
    + lia.
    + intros f ->. exists Out. split; [|done]. cbn. by rewrite decide_True.
  - done.
Qed.

Lemma moves_call q chain h t v :
  linked q chain h t → moves q chain h t Idle (call_enqueue v q, [CallEnqueue v]).
Proof.
  intros Hl. assert (Hin : ∀ i a, chain !! i = Some a → (a < length (store q))%nat).
  { intros i a Hi. destruct (links _ _ _ _ Hl i a Hi) as [w Hw]. by apply lookup_lt_Some in Hw. }
  assert (Hk : keeps q (set_store (store q ++ [mkNode v None]) q)).
  { intros a w Ha. cbn. destruct (store q !! a) as [x|] eqn:E; [|done]. by rewrite (lookup_grows _ _ _ _ E). }
  exists chain, h, t. constructor; cbn [fst snd behind knows mine length_ call_enqueue set_store]; try done.
  - destruct Hl as [Hlinks ? ? ? ? ?]. constructor; try done. intros i a Hi. cbn.
    rewrite lookup_app_l by by eapply Hin. by apply Hlinks.
  - exists []. split; [by rewrite app_nil_r|]. by intros n Hn%not_elem_of_nil.
  - intros n [= <-]. split; [|right; by apply lookup_ge_None_2].
    intros [i Hi]%list_elem_of_lookup. apply Hin in Hi. lia.
  - intros n x Hx _ _. cbn. by apply lookup_grows.
  - cbn [effects1 effect]. change (Some (values q (drop (S h) chain)) =
      Some (values (set_store (store q ++ [mkNode v None]) q) (drop (S h) chain))).
    f_equal. symmetry. by apply (values_keep q _ chain h t).
  - intros f ->. exists (Enqueuing v). split; [done|]. exists v. split; [done|]. cbn.
    by rewrite lookup_app_r, Nat.sub_diag by lia.
Qed.

Lemma turn_of_moves c q chain h t p :
  linked q chain h t → knows chain h t q p →
  (∀ n, mine p = Some n → (n ∉ chain) ∧ ∃ v, store q !! n = Some (mkNode v None)) →
  moves q chain h t p (turn_of c p q).
Proof.
  intros Hl Hk Hm. pose proof (thread_moves q chain h t p Hl Hk Hm) as Hgo.
  assert (Hstay : moves q chain h t p (q, p, [])).
  { apply moves_quiet; try done. intros n Hn. split; [done|]. by apply Hm. }
  destruct c; cbn; [destruct p; try done; by apply moves_call| |done].
  destruct p; try done. apply moves_still; try done. intros f ->. exists (Dequeuing false). split; [done|by exists false].
Qed.

(** ** All threads *)

Lemma lf_total_insert f ps i p p' :
  ps !! i = Some p → total f (<[i := p']> ps) = total f ps - f p + f p'.
Proof.
  revert i; induction ps as [|x ps IH]; intros [|i] Hi; try done; cbn.
  - injection Hi as ->. lia.
  - change (f x + total f (<[i:=p']> ps) = f x + total f ps - f p + f p'). rewrite IH by done. lia.
Qed.

Definition phases (s : system) (fs : list phase) : Prop := Forall2 (phase_of (queue s)) (threads s) fs.

Lemma phase_stable q q' p f :
  (∀ n x, mine p = Some n → store q !! n = Some x → store q' !! n = Some x) →
  phase_of q p f → phase_of q' p f.
Proof.
  intros H. destruct p; try done; cbn.
  all: intros (v & -> & Hv); exists v; split; [done|by apply H].
Qed.

Lemma phase_mine q p f n : phase_of q p f → mine p = Some n → ∃ v, store q !! n = Some (mkNode v None).
Proof. destruct p; try done; intros (v & _ & Hv) [= <-]; eauto. Qed.

Lemma lf_turn_inv c s chain h t fs :
  inv s chain h t → phases s fs →
  ∃ chain' h' t' fs', inv (turn c s).1 chain' h' t' ∧ phases (turn c s).1 fs' ∧
  effects (turn c s).2 (values (queue s) (drop (S h) chain)) =
    Some (values (queue (turn c s).1) (drop (S h') chain')) ∧
  ∀ i f, fs !! i = Some f → ∃ f', fs' !! i = Some f' ∧ follows i (turn c s).2 f = Some f'.
Proof.
  intros [Hl Hk Hm Ha Hs Hlen] Hf. unfold turn. destruct (threads s !! whose c) as [p|] eqn:Ep.
  2: { exists chain, h, t, fs. split; [done|]. split; [done|]. split; [done|]. eauto. }
  destruct (turn_of_moves c (queue s) chain h t p) as (chain' & h' & t' & Hadv); [done|by eapply Hk| |].
  { intros n Hn. split; [by eapply Hm|by eapply Hs]. }
  destruct (turn_of c p (queue s)) as [[q' p'] es]. cbn [fst snd] in *.
  destruct (Forall2_lookup_l _ _ _ _ _ Hf Ep) as (f & Ef & Hpf).
  destruct (adv_phase _ _ _ _ _ _ _ _ _ _ _ Hadv f Hpf) as (f' & Hff & Hpf').
  destruct Hadv as [Hl' (l & Hc & Hnew) Hh Ht Hk' Hm' Hkeep Ho He Hle _].
  set (w := whose c) in *.
  assert (Hothers : ∀ j pj n x, j ≠ w → threads s !! j = Some pj → mine pj = Some n →
    store (queue s) !! n = Some x → store q' !! n = Some x).
  { intros j pj n x Hj Hpj Hn Hx. apply Ho; [done|by eapply Hm|].
    intros Hp. apply Hj. by eapply (Ha j w pj p n). }
  exists chain', h', t', (<[w := f']> fs). split_and!.
  - constructor; cbn [queue threads].
    + done.
    + intros j pj [(<- & <- & _)|[_ Hj]]%list_lookup_insert_Some; [done|]. subst chain'.
      eapply knows_stable; [done..|by eapply Hk].
    + intros j pj n [(<- & <- & _)|[Hjw Hj]]%list_lookup_insert_Some Hn; [by apply Hm'|].
      rewrite Hc. intros [Hin|Hin]%elem_of_app; [by eapply Hm|]. destruct (Hnew n Hin) as [Hp _].
      apply Hjw. by eapply (Ha w j p pj n).
    + intros i j pi pj n [(<- & <- & _)|[Hiw Hi]]%list_lookup_insert_Some
        [(<- & <- & _)|[Hjw Hj]]%list_lookup_insert_Some Hn1 Hn2; [done| | |by eapply Ha].
      * destruct (Hm' n Hn1) as [_ [Hp|Hnone]]; [by eapply (Ha w j p pj n)|].
        destruct (Hs j pj n Hj Hn2) as [v Hv]. congruence.
      * destruct (Hm' n Hn2) as [_ [Hp|Hnone]]; [by eapply (Ha i w pi p n)|].
        destruct (Hs i pi n Hi Hn1) as [v Hv]. congruence.
    + intros j pj n [(<- & <- & _)|[Hjw Hj]]%list_lookup_insert_Some Hn; [by eapply phase_mine|].
      destruct (Hs j pj n Hj Hn) as [v Hv]. exists v. by eapply (Hothers j pj n).
    + rewrite (lf_total_insert behind (threads s) w p p' Ep). lia.
  - apply Forall2_lookup. intros j. cbn. destruct (decide (j = w)) as [->|Hj].
    + rewrite !list_lookup_insert_eq by (by eapply lookup_lt_Some). by constructor.
    + rewrite !list_lookup_insert_ne by done. pose proof (proj1 (Forall2_lookup _ _ _) Hf j) as Hfj.
      destruct (threads s !! j) as [pj|] eqn:Ej; inversion Hfj as [? fj Hpj E1 E2|]; constructor.
      eapply phase_stable; [|done]. intros n y Hn. by eapply Hothers.
  - by rewrite effects_of_one.
  - intros i g Hg. rewrite follows_of_one. destruct (decide (i = w)) as [->|Hi].
    + rewrite list_lookup_insert_eq by (by eapply lookup_lt_Some). exists f'. split; [done|]. congruence.
    + rewrite list_lookup_insert_ne by done. by exists g.
Qed.

(** ** What the queue holds *)

(** The tasks behind the head, read along the links. *)
Fixpoint walk (fuel a : nat) (q : lockFreeQueue) : list Task :=
  match fuel with
  | O => []
  | S fuel =>
      match load_next a q with
      | None => []
      | Some b => option_list (value <$> store q !! b) ++ walk fuel b q
      end
  end.
Definition contents (q : lockFreeQueue) : list Task := walk (length (store q)) (head q) q.

Lemma short_if_distinct (l : list nat) n : NoDup l → (∀ a, a ∈ l → (a < n)%nat) → (length l <= n)%nat.
Proof.
  intros Hd Hl. rewrite <- (length_seq n 0). apply submseteq_length, NoDup_submseteq; [done|].
  intros a Ha. apply elem_of_seq. specialize (Hl a Ha). lia.
Qed.

Lemma chain_short q chain h t : linked q chain h t → (length chain <= length (store q))%nat.
Proof.
  intros H. apply short_if_distinct; [apply H|]. intros a [i Hi]%list_elem_of_lookup.
  destruct (links _ _ _ _ H i a Hi) as [v Hv]. by apply lookup_lt_Some in Hv.
Qed.

Lemma walk_values q chain h t fuel i a :
  linked q chain h t → chain !! i = Some a → (length chain <= fuel + i)%nat →
  walk fuel a q = values q (drop (S i) chain).
Proof.
  intros H. revert i a; induction fuel as [|fuel IH]; intros i a Hi Hf.
  - apply lookup_lt_Some in Hi. lia.
  - cbn [walk]. rewrite (next_in_chain _ _ _ _ _ _ H Hi). destruct (chain !! S i) as [b|] eqn:Eb.
    + rewrite (IH (S i) b Eb) by lia. rewrite (drop_S _ _ _ Eb).
      destruct (links _ _ _ _ H _ _ Eb) as [v Hv]. unfold values. cbn [omap list_omap]. by rewrite Hv.
    + apply lookup_ge_None_1 in Eb. by rewrite drop_ge by lia.
Qed.

Lemma contents_values q chain h t : linked q chain h t → contents q = values q (drop (S h) chain).
Proof.
  intros H. pose proof (chain_short _ _ _ _ H). eapply walk_values; [done|apply H|lia].
Qed.

Lemma values_length q chain h t k : linked q chain h t → length (values q (drop k chain)) = length (drop k chain).
Proof.
  intros H. unfold values. assert (Hin : ∀ a, a ∈ drop k chain → ∃ v, value <$> store q !! a = Some v).
  { intros a [i Hi]%list_elem_of_lookup. rewrite lookup_drop in Hi.
    destruct (links _ _ _ _ H _ _ Hi) as [v ->]. by eexists. }
  induction (drop k chain) as [|a l IH]; [done|]. cbn. destruct (Hin a) as [v ->]; [by left|]. cbn. f_equal.
  apply IH. intros b Hb. apply Hin. by right.
Qed.

(** ** Whole executions *)

Lemma effects_app l1 l2 l : effects (l1 ++ l2) l = effects l1 l ≫= effects l2.
Proof. revert l; induction l1 as [|[t e] l1 IH]; intros l; cbn; [done|]. destruct (effect e l); cbn; auto. Qed.

Lemma follows_app t l1 l2 f : follows t (l1 ++ l2) f = follows t l1 f ≫= follows t l2.
Proof.
  revert f; induction l1 as [|[t' e] l1 IH]; intros f; cbn; [done|].
  destruct (decide (t = t')); [|done]. destruct (follow e f); cbn; auto.
Qed.

Definition sound (s : system) (fs : list phase) : Prop := (∃ chain h t, inv s chain h t) ∧ phases s fs.

Lemma sound_contents s chain h t :
  inv s chain h t → contents (queue s) = values (queue s) (drop (S h) chain).
Proof. intros H. by eapply contents_values, H. Qed.

Lemma run_sound cs s fs :
  sound s fs →
  ∃ fs', sound (run cs s).1 fs' ∧
  effects (run cs s).2 (contents (queue s)) = Some (contents (queue (run cs s).1)) ∧
  ∀ i f, fs !! i = Some f → ∃ f', fs' !! i = Some f' ∧ follows i (run cs s).2 f = Some f'.
Proof.
  revert s fs; induction cs as [|c cs IH]; intros s fs [(chain & h & t & Hi) Hp].
  { exists fs. split; [split; eauto|]. split; [done|]. eauto. }
  destruct (lf_turn_inv c s chain h t fs Hi Hp) as (chain' & h' & t' & fs1 & Hi1 & Hp1 & He1 & Hf1).
  rewrite <- (sound_contents s _ _ _ Hi), <- (sound_contents _ _ _ _ Hi1) in He1.
  destruct (IH (turn c s).1 fs1) as (fs2 & Hs2 & He2 & Hf2); [split; eauto|].
  cbn [run]. destruct (turn c s) as [s1 l1]. cbn [fst snd] in *. destruct (run cs s1) as [s2 l2]. cbn [fst snd] in *.
  exists fs2. split; [done|]. split; [by rewrite effects_app, He1|].
  intros i f Hf. destruct (Hf1 i f Hf) as (f1 & E1 & E2). destruct (Hf2 i f1 E1) as (f2 & E3 & E4).
  exists f2. split; [done|]. by rewrite follows_app, E2.
Qed.

Lemma idle_total ps : Forall (λ p, p = Idle) ps → total behind ps = 0.
Proof. intros H. induction H as [|p ps -> _ IH]; [done|exact IH]. Qed.

Lemma init_sound n : sound (init n) (replicate n Out).
Proof.
  assert (Hidle : ∀ i p, threads (init n) !! i = Some p → p = Idle).
  { intros i p Hp. by apply lookup_replicate in Hp as [-> _]. }
  split.
  - exists [0%nat], 0%nat, 0%nat. constructor.
    + constructor; cbn; try done || lia; [|apply NoDup_singleton].
      intros [|i] a; [|done]. intros [= <-]. by exists 0.
    + by intros i p ->%Hidle.
    + by intros i p m ->%Hidle.
    + by intros i j p p' m ->%Hidle.
    + by intros i p m ->%Hidle.
    + cbn [threads init]. rewrite idle_total by (apply Forall_forall; by intros p [i Hi%Hidle]%list_elem_of_lookup).
      done.
  - apply Forall2_replicate. done.
Qed.


(** ** A thread that is left alone *)

Fixpoint alone (k : nat) (p : pc) (q : lockFreeQueue) : pc * lockFreeQueue :=
  match k with
  | O => (p, q)
  | S k => let '(q, p, _) := thread_turn p q in alone k p q
  end.

Lemma alone_S k p q q' p' es : thread_turn p q = (q', p', es) → alone (S k) p q = alone k p' q'.
Proof. intros E. cbn [alone]. by rewrite E. Qed.
Lemma alone_add j k p q : alone (j + k) p q = alone k (alone j p q).1 (alone j p q).2.
Proof.
  revert p q; induction j as [|j IH]; intros p q; [done|]. cbn [Nat.add alone].
  destruct (thread_turn p q) as [[q' p'] es]. apply IH.
Qed.
Lemma alone_idle k q : alone k Idle q = (Idle, q).
Proof. by induction k. Qed.

(** A call ends within [k] turns. *)
Definition ends (k : nat) (p : pc) (q : lockFreeQueue) : Prop := (alone k p q).1 = Idle.

Lemma ends_more j k p q : (j <= k)%nat → ends j p q → ends k p q.
Proof.
  intros Hjk H. unfold ends in *. replace k with (j + (k - j))%nat by lia.
  rewrite alone_add, H. by rewrite alone_idle.
Qed.
Lemma ends_turn k p q : ends k (thread_turn p q).1.2 (thread_turn p q).1.1 → ends (S k) p q.
Proof. unfold ends. cbn [alone]. by destruct (thread_turn p q) as [[q' p'] es]. Qed.

Lemma cas_tail_moves q nx : cas_tail (tail q) nx q = (set_tail nx q, true).
Proof. unfold cas_tail. by rewrite decide_True. Qed.

Lemma lagging q chain h t :
  linked q chain h t → chain !! S t = None ∨ ∃ nx, chain !! S t = Some nx ∧ chain !! S (S t) = None ∧
  linked (set_tail nx q) chain h (S t).
Proof.
  intros Hl. destruct (chain !! S t) as [nx|] eqn:En; [right|by left]. exists nx. split; [done|].
  split; [apply lookup_ge_None_2; by apply Hl|].
  destruct Hl. constructor; cbn; try done; lia.
Qed.

(** The tail is the last node: the node is linked at the first attempt. *)
Lemma enqueue_at_last q chain h t n :
  linked q chain h t → chain !! S t = None → ends 6 (E_tail n) q.
Proof.
  intros Hl Hn. destruct (links _ _ _ _ Hl _ _ (at_tail _ _ _ _ Hl)) as [v Hv]. rewrite Hn in Hv.
  do 3 apply ends_turn. cbn [thread_turn Enqueue_turn fst snd]. unfold load_next. rewrite Hv. cbn.
  rewrite decide_True by done. cbn. apply ends_turn. cbn. unfold cas_next. rewrite Hv. cbn.
  done.
Qed.

Lemma enqueue_ends q chain h t n : linked q chain h t → ends 10 (E_tail n) q.
Proof.
  intros Hl. destruct (lagging q chain h t Hl) as [Hn|(nx & Hn & Hnn & Hl')].
  { eapply (ends_more 6); [lia|]. by eapply enqueue_at_last. }
  do 3 apply ends_turn. cbn [thread_turn Enqueue_turn fst snd].
  rewrite (next_in_chain _ _ _ _ _ _ Hl (at_tail _ _ _ _ Hl)), Hn, decide_True by done. cbn [fst snd].
  apply ends_turn. cbn [thread_turn Enqueue_turn fst snd]. rewrite cas_tail_moves. by eapply enqueue_at_last.
Qed.

(** The head and the tail are apart, or the queue is empty. *)
Lemma dequeue_settled q chain h t :
  linked q chain h t → h ≠ t ∨ chain !! S t = None → ends 7 D_head q.
Proof.
  intros Hl Ho. pose proof (at_head _ _ _ _ Hl) as Hh. pose proof (at_tail _ _ _ _ Hl) as Ht.
  do 3 apply ends_turn. cbn [thread_turn Dequeue_turn fst snd]. apply ends_turn.
  rewrite (next_in_chain _ _ _ _ _ _ Hl Hh). cbn [thread_turn Dequeue_turn fst snd].
  rewrite decide_True by done. destruct (decide (head q = tail q)) as [E|E].
  - rewrite E in Hh. pose proof (index_unique _ _ _ _ _ _ _ Hl Hh Ht) as ->.
    destruct Ho as [Ho| ->]; [done|]. done.
  - assert (h ≠ t) by congruence. pose proof (in_order _ _ _ _ Hl). pose proof (tail_index _ _ _ _ Hl).
    destruct (lookup_lt_is_Some_2 chain (S h)) as [nx Hn]; [lia|]. rewrite Hn. cbn [fst snd].
    destruct (links _ _ _ _ Hl _ _ Hn) as [v Hv]. apply ends_turn. cbn [thread_turn Dequeue_turn fst snd].
    unfold mbind, option_bind. rewrite Hv. cbn [fst snd default value from_option id].
    apply ends_turn. cbn [thread_turn Dequeue_turn fst snd]. unfold cas_head. by rewrite decide_True.
Qed.

Lemma dequeue_ends q chain h t : linked q chain h t → ends 12 D_head q.
Proof.
  intros Hl. destruct (decide (h = t)) as [->|]; [|eapply (ends_more 7); [lia|]; eapply dequeue_settled; eauto].
  destruct (lagging q chain t t Hl) as [Hn|(nx & Hn & Hnn & Hl')].
  { eapply (ends_more 7); [lia|]. eapply dequeue_settled; eauto. }
  pose proof (at_head _ _ _ _ Hl) as Hh. pose proof (at_tail _ _ _ _ Hl) as Ht.
  do 3 apply ends_turn. cbn [thread_turn Dequeue_turn fst snd]. apply ends_turn.
  rewrite (next_in_chain _ _ _ _ _ _ Hl Hh), Hn. cbn [thread_turn Dequeue_turn fst snd].
  rewrite !decide_True by congruence. cbn [fst snd]. apply ends_turn. cbn [thread_turn Dequeue_turn fst snd].
  rewrite cas_tail_moves. eapply dequeue_settled; [done|]. left. lia.
Qed.

(** Turns until a call is over or starts again. *)
Definition soon (p : pc) : nat :=
  match p with
  | Idle | E_tail _ | D_head | Crashed => 0
  | E_count | D_count _ | E_help _ _ _ | D_help _ _ => 1
  | E_swing _ _ | D_move _ _ _ => 2
  | E_link _ _ | D_value _ _ => 3
  | E_check _ _ _ | D_check _ _ _ => 4
  | E_next _ _ | D_next _ _ => 5
  | D_tail _ => 6
  end.

Lemma soon_less p q k : soon p = S k → (soon (thread_turn p q).1.2 <= k)%nat.
Proof.
  destruct p; try done; cbn; intros [= <-]; try lia; repeat case_decide; cbn; try lia.
  all: try (destruct nx; cbn; lia).
  - unfold cas_next. destruct (store q !! tl) as [[v [|]]|]; cbn; lia.
  - destruct (nx ≫= λ a, store q !! a); cbn; lia.
  - unfold cas_head. case_decide; cbn; lia.
Qed.

Lemma alone_ends p q chain h t f :
  linked q chain h t → knows chain h t q p → (∀ n, mine p = Some n → n ∉ chain) → phase_of q p f →
  ends (soon p + 12) p q.
Proof.
  remember (soon p) as k eqn:Ek. revert p q chain h t f Ek. induction k as [k IH] using lt_wf_ind.
  intros p q chain h t f -> Hl Hk Hm Hf. destruct (soon p) as [|k] eqn:Es.
  - destruct p; try done.
    + eapply (ends_more 10); [lia|]. by eapply enqueue_ends.
    + by eapply dequeue_ends.
  - destruct (thread_moves q chain h t p Hl Hk) as (chain' & h' & t' & Hadv).
    { intros n Hn. split; [by apply Hm|by eapply phase_mine]. }
    pose proof (soon_less p q k Es) as Hs. cbn [Nat.add]. apply ends_turn.
    destruct (thread_turn p q) as [[q' p'] es] eqn:Et. cbn [fst snd] in *.
    destruct (adv_phase _ _ _ _ _ _ _ _ _ _ _ Hadv f Hf) as (f' & _ & Hf').
    eapply (ends_more (soon p' + 12)); [lia|].
    eapply (IH (soon p') ltac:(lia) p' q'); [done|apply Hadv|apply Hadv| |done].
    intros n Hn. by eapply Hadv.
Qed.

Lemma run_alone k t s p :
  threads s !! t = Some p → threads (run (replicate k (Go t)) s).1 !! t = Some (alone k p (queue s)).1.
Proof.
  revert s p; induction k as [|k IH]; intros s p Hp; [done|]. cbn [replicate run alone].
  unfold turn. cbn [whose]. rewrite Hp. cbn [turn_of].
  destruct (thread_turn p (queue s)) as [[q' p'] es] eqn:Et.
  specialize (IH (mkSystem q' (<[t:=p']> (threads s))) p').
  destruct (run (replicate k (Go t)) (mkSystem q' (<[t:=p']> (threads s)))) as [s2 l2] eqn:Er. cbn [fst].
  apply IH. cbn. apply list_lookup_insert_eq. by eapply lookup_lt_Some.
Qed.

Lemma schedule_app cs1 cs2 s : (run (cs1 ++ cs2) s).1 = (run cs2 (run cs1 s).1).1.
Proof.
  revert s; induction cs1 as [|c cs1 IH]; intros s; [done|]. cbn [app run]. specialize (IH (turn c s).1).
  destruct (turn c s) as [s1 l1]. cbn [fst] in IH. destruct (run cs1 s1), (run (cs1 ++ cs2) s1). done.
Qed.

(** C37. No thread needs another: wherever the others have stopped, a thread that
    goes on alone is out of its [Enqueue] or [Dequeue] within eighteen accesses,
    the loops starting again once at most. *)
Theorem calls_end n cs t :
  (t < n)%nat → threads (run (cs ++ replicate 18 (Go t)) (init n)).1 !! t = Some Idle.
Proof.
  intros Ht. rewrite schedule_app.
  destruct (run_sound cs (init n) _ (init_sound n)) as (fs & [(chain & h & tl & Hi) Hp] & _ & Hf).
  destruct (Hf t Out) as (f & Ef & _); [by apply lookup_replicate_2|].
  destruct (Forall2_lookup_r _ _ _ _ _ Hp Ef) as (p & Ep & Hph).
  rewrite (run_alone 18 t _ p Ep). f_equal.
  apply (ends_more (soon p + 12)); [destruct p; cbn; lia|].
  eapply alone_ends; [apply Hi|by eapply Hi| |done]. intros m Hm. by eapply Hi.
Qed.

(** ** Examples *)

(** Thread 0 has linked its node and not yet moved the tail when thread 1
    enqueues: thread 1 helps. *)
Definition helped : list choice :=
  [DoEnqueue 0 10; Go 0; Go 0; Go 0; Go 0; DoEnqueue 1 11] ++ replicate 10 (Go 1) ++
  [DoDequeue 1] ++ replicate 12 (Go 1).

Lemma helped_runs :
  let '(s, log) := run helped (init 2) in
  contents (queue s) = [11] ∧ Length (queue s) = 0 ∧ threads s = [E_swing 1 0; Idle] ∧
  log = [(0%nat, CallEnqueue 10); (0%nat, Enqueued 10); (1%nat, CallEnqueue 11); (1%nat, Enqueued 11);
         (1%nat, RetEnqueue); (1%nat, CallDequeue); (1%nat, Dequeued 10); (1%nat, RetDequeue (Some 10))].
Proof. by vm_compute. Qed.

Lemma calls_end_witness : threads (run (helped ++ replicate 18 (Go 0)) (init 2)).1 !! 0%nat = Some Idle.
Proof. apply (calls_end 2 helped 0). lia. Defined.
