(* ===== verification/Poller.v ===== *)
(** * utils/xnetpoll: the poller's tasks and its wake-ups

    poller_epoll_default.go and defs_poller_epoll.go: [Trigger], called by any
    number of threads, and the part of [Polling] that runs the tasks, an access
    at a time in any order.  A task queue is what LockFree.v shows it to be: a
    list, and a length that is brought up to date after the list.  The eventfd is
    registered edge-triggered: [edge] is a write that [epoll_wait] has not
    reported yet. *)
From S2P Require Import Prelude.
#[local] Close Scope nat_scope.
Open Scope Z_scope.

(** ** The list of events that [epoll_wait] fills *)

Definition InitPollEventsCap : Z := 128.
Definition MaxPollEventsCap : Z := 1024.
Definition MinPollEventsCap : Z := 32.
Definition MaxAsyncTasksAtOneTime : nat := 256.

Definition newEventList (size : Z) : Z := size.
Definition expand (size : Z) : Z :=
  let newSize := Z.shiftl size 1 in if bool_decide (newSize <= MaxPollEventsCap) then newSize else size.
Definition shrink (size : Z) : Z :=
  let newSize := Z.shiftr size 1 in if bool_decide (MinPollEventsCap <= newSize) then newSize else size.
(** The end of a turn of [Polling] that got [n] events. *)
Definition resize (n size : Z) : Z :=
  if bool_decide (n = size) then expand size
  else if bool_decide (n < Z.shiftr size 1) then shrink size else size.

Lemma resize_bounds n size :
  MinPollEventsCap <= size <= MaxPollEventsCap → MinPollEventsCap <= resize n size <= MaxPollEventsCap.
Proof.
  unfold resize, expand, shrink, MinPollEventsCap, MaxPollEventsCap. intros H.
  rewrite Z.shiftl_mul_pow2 by lia. rewrite Z.shiftr_div_pow2 by lia. change (2 ^ 1) with 2.
  pose proof (Z.div_mod size 2 ltac:(lia)). pose proof (Z.mod_pos_bound size 2 ltac:(lia)).
  repeat case_bool_decide; lia.
Qed.

(** ** The poller *)

Definition Task : Type := Z.

(** A task queue: its tasks, and its length as [Length] and [IsEmpty] see it. *)
Record AsyncTaskQueue := mkTasks { waiting : list Task; counted : Z }.
Definition Length (q : AsyncTaskQueue) : Z := counted q.
Definition IsEmpty (q : AsyncTaskQueue) : bool := bool_decide (counted q = 0).
(** What [Enqueue] and [Dequeue] do to the list, then to the length. *)
Definition put (v : Task) (q : AsyncTaskQueue) : AsyncTaskQueue := mkTasks (waiting q ++ [v]) (counted q).
Definition take_off (q : AsyncTaskQueue) : AsyncTaskQueue := mkTasks (tail (waiting q)) (counted q).
Definition Add (d : Z) (q : AsyncTaskQueue) : AsyncTaskQueue := mkTasks (waiting q) (counted q + d).

(** Which of the two queues. *)
Inductive which := Urgent | Async.
#[export] Instance which_dec : EqDecision which := ltac:(solve_decision).

Record Poller := mkPoller {
  urgentAsyncTaskQueue : AsyncTaskQueue;
  asyncTaskQueue : AsyncTaskQueue;
  wakeupCall : bool;
  efd : Z;
  edge : bool;
}.
Definition highPriorityEventsThreshold : Z := MaxPollEventsCap.

Definition queue_of (w : which) (p : Poller) : AsyncTaskQueue :=
  match w with Urgent => urgentAsyncTaskQueue p | Async => asyncTaskQueue p end.
Definition on_queue (w : which) (f : AsyncTaskQueue → AsyncTaskQueue) (p : Poller) : Poller :=
  match w with
  | Urgent => mkPoller (f (urgentAsyncTaskQueue p)) (asyncTaskQueue p) (wakeupCall p) (efd p) (edge p)
  | Async => mkPoller (urgentAsyncTaskQueue p) (f (asyncTaskQueue p)) (wakeupCall p) (efd p) (edge p)
  end.
Definition set_wakeupCall x (p : Poller) : Poller :=
  mkPoller (urgentAsyncTaskQueue p) (asyncTaskQueue p) x (efd p) (edge p).
Definition set_edge x (p : Poller) : Poller :=
  mkPoller (urgentAsyncTaskQueue p) (asyncTaskQueue p) (wakeupCall p) (efd p) x.
Definition set_efd n x (p : Poller) : Poller :=
  mkPoller (urgentAsyncTaskQueue p) (asyncTaskQueue p) (wakeupCall p) n x.

Definition OpenPoller : Poller := mkPoller (mkTasks [] 0) (mkTasks [] 0) false 0 false.

(** eventfd(2): a write of 1 that would bring the counter to 2^64-1 fails with
    [EAGAIN]; the code then reads the counter and tries again. *)
Definition full (p : Poller) : bool := bool_decide (2 ^ 64 - 2 <= efd p).
Definition write_efd (p : Poller) : Poller * bool :=
  if full p then (set_efd 0 (edge p) p, false) else (set_efd (efd p + 1) true p, true).

(** ** The threads that trigger *)

Inductive EventPriority := HighPriority | LowPriority.
#[export] Instance priority_dec : EqDecision EventPriority := ltac:(solve_decision).

(** Before the access that the name says. *)
Inductive trigger :=
  | T_idle
  | T_choose (prio : EventPriority) (v : Task)
  | T_put (w : which) (v : Task)
  | T_count (w : which)
  | T_wake
  | T_write.
#[export] Instance trigger_dec : EqDecision trigger := ltac:(solve_decision).

(** What happens to a task. *)
Inductive event := Put (w : which) (v : Task) | Ran (w : which) (v : Task).

Definition Trigger_turn (t : trigger) (p : Poller) : Poller * trigger * list event :=
  match t with
  | T_idle => (p, T_idle, [])
  | T_choose HighPriority v => (p, T_put Urgent v, [])
  | T_choose LowPriority v =>
      (p, T_put (if bool_decide (highPriorityEventsThreshold <= Length (urgentAsyncTaskQueue p))
                 then Async else Urgent) v, [])
  | T_put w v => (on_queue w (put v) p, T_count w, [Put w v])
  | T_count w => (on_queue w (Add 1) p, T_wake, [])
  | T_wake => if wakeupCall p then (p, T_idle, []) else (set_wakeupCall true p, T_write, [])
  | T_write => let '(p, ok) := write_efd p in (p, if ok then T_idle else T_write, [])
  end.

(** ** The thread that polls *)

Inductive polling :=
  | P_wait
  | P_urgent
  | P_count (w : which) (i : nat) (v : Task)
  | P_exec (w : which) (i : nat) (v : Task)
  | P_async (i : nat)
  | P_store
  | P_check_async
  | P_check_urgent
  | P_wake
  | P_write
  | P_stopped.

(** Where the loop goes on after a task. *)
Definition after (w : which) (i : nat) : polling := match w with Urgent => P_urgent | Async => P_async (S i) end.

(** [stop]: the task that is run returns [ErrEngineShutdown]. *)
Definition Polling_turn (stop : bool) (c : polling) (p : Poller) : Poller * polling * list event :=
  match c with
  | P_wait => if edge p then (set_edge false p, P_urgent, []) else (p, P_wait, [])
  | P_urgent =>
      match waiting (urgentAsyncTaskQueue p) with
      | [] => (p, P_async 0, [])
      | v :: _ => (on_queue Urgent take_off p, P_count Urgent 0 v, [])
      end
  | P_count w i v => (on_queue w (Add (-1)) p, P_exec w i v, [])
  | P_exec w i v => (p, if stop then P_stopped else after w i, [Ran w v])
  | P_async i =>
      if decide (i < MaxAsyncTasksAtOneTime)%nat then
        match waiting (asyncTaskQueue p) with
        | [] => (p, P_store, [])
        | v :: _ => (on_queue Async take_off p, P_count Async i v, [])
        end
      else (p, P_store, [])
  | P_store => (set_wakeupCall false p, P_check_async, [])
  | P_check_async => (p, if IsEmpty (asyncTaskQueue p) then P_check_urgent else P_wake, [])
  | P_check_urgent => (p, if IsEmpty (urgentAsyncTaskQueue p) then P_wait else P_wake, [])
  | P_wake => if wakeupCall p then (p, P_wait, []) else (set_wakeupCall true p, P_write, [])
  | P_write => let '(p, ok) := write_efd p in (p, if ok then P_wait else P_write, [])
  | P_stopped => (p, P_stopped, [])
  end.

(** ** The system *)

Record system := mkSystem { poller : Poller; triggers : list trigger; poll : polling }.
Inductive choice :=
  | DoTrigger (t : nat) (prio : EventPriority) (v : Task)
  | GoTrigger (t : nat)
  | GoPoll (stop : bool).

Definition turn (c : choice) (s : system) : system * list event :=
  match c with
  | GoPoll stop =>
      let '(p, x, es) := Polling_turn stop (poll s) (poller s) in (mkSystem p (triggers s) x, es)
  | DoTrigger t prio v =>
      match triggers s !! t with
      | Some T_idle => (mkSystem (poller s) (<[t := T_choose prio v]> (triggers s)) (poll s), [])
      | _ => (s, [])
      end
  | GoTrigger t =>
      match triggers s !! t with
      | Some x =>
          let '(p, x, es) := Trigger_turn x (poller s) in (mkSystem p (<[t := x]> (triggers s)) (poll s), es)
      | None => (s, [])
      end
  end.

Fixpoint run (cs : list choice) (s : system) : system * list event :=
  match cs with
  | [] => (s, [])
  | c :: cs => let '(s, l1) := turn c s in let '(s, l2) := run cs s in (s, l1 ++ l2)
  end.

Definition init (n : nat) : system := mkSystem OpenPoller (replicate n T_idle) P_wait.

(** ** What is promised *)

(** The tasks put into a queue, and those of it that were run, in order. *)
Definition puts (w : which) : list event → list Task :=
  omap (λ e, match e with Put w' v => if decide (w' = w) then Some v else None | _ => None end).
Definition rans (w : which) : list event → list Task :=
  omap (λ e, match e with Ran w' v => if decide (w' = w) then Some v else None | _ => None end).

(** The task that the poller has taken and not yet run. *)
Definition in_hand (w : which) (c : polling) : list Task :=
  match c with P_count w' _ v | P_exec w' _ v => if decide (w' = w) then [v] else [] | _ => [] end.

Definition quiet (s : system) : Prop := Forall (λ t, t = T_idle) (triggers s).
Definition asleep (s : system) : Prop := poll s = P_wait ∧ edge (poller s) = false.

(** ** The invariant *)

Definition counting (w : which) (t : trigger) : Z :=
  match t with T_count w' => if decide (w' = w) then 1 else 0 | _ => 0 end.
Definition total (f : trigger → Z) (ts : list trigger) : Z := foldr (λ t n, f t + n) 0 ts.
Definition uncounted (w : which) (c : polling) : Z :=
  match c with P_count w' _ _ => if decide (w' = w) then 1 else 0 | _ => 0 end.

(** The poller has yet to clear [wakeupCall]. *)
Definition busy (c : polling) : Prop :=
  match c with P_urgent | P_count _ _ _ | P_exec _ _ _ | P_async _ | P_store => True | _ => False end.
(** A thread that will see to it that the poller wakes up. *)
Definition about_to_wake (t : trigger) : Prop := match t with T_count _ | T_wake => True | _ => False end.
(** The poller will not look at this queue again before it sleeps. *)
Definition past (w : which) (c : polling) : Prop :=
  match c with P_wait | P_write => True | P_check_urgent => w = Async | _ => False end.

Record inv (s : system) : Prop := {
  inv_count : ∀ w, counted (queue_of w (poller s)) =
    len (waiting (queue_of w (poller s))) - total (counting w) (triggers s) + uncounted w (poll s);
  inv_efd : 0 <= efd (poller s);
  inv_call : wakeupCall (poller s) = true →
    edge (poller s) = true ∨ busy (poll s) ∨ poll s = P_write ∨ poll s = P_stopped ∨
    Exists (λ t, t = T_write) (triggers s);
  inv_wake : ∀ w, past w (poll s) → waiting (queue_of w (poller s)) ≠ [] →
    wakeupCall (poller s) = true ∨ Exists about_to_wake (triggers s);
}.

Lemma poll_total_insert f ts i t t' : ts !! i = Some t → total f (<[i := t']> ts) = total f ts - f t + f t'.
Proof.
  revert i; induction ts as [|x ts IH]; intros [|i] Hi; try done; cbn.
  - injection Hi as ->. lia.
  - change (f x + total f (<[i:=t']> ts) = f x + total f ts - f t + f t'). rewrite IH by done. lia.
Qed.

Lemma Exists_new {A} (P : A → Prop) l i x y : l !! i = Some x → P y → Exists P (<[i := y]> l).
Proof.
  intros Hi Hy. apply Exists_exists. exists y. split; [|done].
  apply list_elem_of_lookup. exists i. apply list_lookup_insert_eq. by eapply lookup_lt_Some.
Qed.
Lemma Exists_stay {A} (P : A → Prop) l i x y : l !! i = Some x → (P x → P y) → Exists P l → Exists P (<[i := y]> l).
Proof.
  intros Hi Hxy [z [[j Hj]%list_elem_of_lookup Hz]]%Exists_exists. destruct (decide (j = i)) as [->|Hji].
  - eapply Exists_new; [done|]. apply Hxy. congruence.
  - apply Exists_exists. exists z. split; [|done]. apply list_elem_of_lookup. exists j. by rewrite list_lookup_insert_ne.
Qed.

Lemma queue_of_on w w' f p : queue_of w (on_queue w' f p) = if decide (w' = w) then f (queue_of w p) else queue_of w p.
Proof. by destruct w, w'. Qed.
Lemma wakeupCall_on w f p : wakeupCall (on_queue w f p) = wakeupCall p.
Proof. by destruct w. Qed.
Lemma edge_on w f p : edge (on_queue w f p) = edge p.
Proof. by destruct w. Qed.
Lemma efd_on w f p : efd (on_queue w f p) = efd p.
Proof. by destruct w. Qed.

Lemma write_efd_spec p :
  0 <= efd p →
  let '(p', ok) := write_efd p in
  0 <= efd p' ∧ (∀ w, queue_of w p' = queue_of w p) ∧ wakeupCall p' = wakeupCall p ∧
  edge p' = (if ok then true else edge p) ∧ (ok = false → efd p' = 0).
Proof. intros H. unfold write_efd. destruct (full p); cbn; split_and!; try done; try lia; by intros []. Qed.

(** A thread that triggers keeps the invariant. *)
Lemma trigger_inv s i t p' t' es :
  inv s → triggers s !! i = Some t → Trigger_turn t (poller s) = (p', t', es) →
  inv (mkSystem p' (<[i := t']> (triggers s)) (poll s)).
Proof.
  intros [Hc He Hcall Hw] Hi Ht.
  assert (Hgoal : (∀ w, counted (queue_of w p') = len (waiting (queue_of w p')) -
      (total (counting w) (triggers s) - counting w t + counting w t') + uncounted w (poll s)) ∧
    0 <= efd p' ∧
    (wakeupCall p' = true → (wakeupCall (poller s) = true ∧ (edge (poller s) = true → edge p' = true) ∧
      (t = T_write → t' = T_write ∨ edge p' = true)) ∨ t' = T_write) ∧
    (∀ w, waiting (queue_of w p') ≠ [] → waiting (queue_of w (poller s)) ≠ [] ∨ about_to_wake t') ∧
    (wakeupCall (poller s) = true → wakeupCall p' = true) ∧
    (about_to_wake t → wakeupCall p' = true ∨ about_to_wake t')).
  { revert Ht. destruct t as [|[|] v|w v|w| |]; cbn [Trigger_turn].
    1-3: intros [= <- <- _]; split_and!; eauto; try (intros w; cbn; rewrite Hc; lia); intros; left; by split_and!.
    - intros [= <- <- _]. rewrite wakeupCall_on, edge_on, efd_on. split_and!; eauto; try by right.
      + intros w'. rewrite queue_of_on. specialize (Hc w'). cbn [counting]. destruct (decide (w = w')); cbn; [len_solve|lia].
      + intros; left. by split_and!.
    - intros [= <- <- _]. rewrite wakeupCall_on, edge_on, efd_on. split_and!; eauto; try by right.
      + intros w'. rewrite queue_of_on. specialize (Hc w'). cbn [counting]. destruct (decide (w = w')); cbn; lia.
      + intros; left. by split_and!.
    - destruct (wakeupCall (poller s)) eqn:Ew; intros [= <- <- _]; cbn [counting set_wakeupCall wakeupCall efd edge]; split_and!; eauto.
      + intros w. rewrite Hc. lia.
      + intros _. left. by split_and!.
      + intros w. specialize (Hc w). destruct w; cbn in *; lia.
    - pose proof (write_efd_spec (poller s) He) as H. destruct (write_efd (poller s)) as [p1 ok].
      destruct H as (H1 & H2 & H3 & H4 & _). intros [= <- <- _]. rewrite H3, H4. split_and!; eauto.
      + intros w. rewrite H2, Hc. by destruct ok; cbn; lia.
      + intros Hcl. left. destruct ok; by split_and!; auto.
      + intros w. rewrite H2. by left. }
  destruct Hgoal as (G1 & G2 & G3 & G4 & G5 & G6). constructor; cbn [poller triggers poll].
  - intros w. by rewrite (poll_total_insert _ _ _ _ _ Hi).
  - done.
  - intros Hcl. destruct (G3 Hcl) as [(Hold & Hedge & Hwr)|Hnew].
    + destruct (Hcall Hold) as [H|[H|[H|[H|H]]]]; [by left; apply Hedge|by eauto|by eauto|by eauto|].
      destruct (decide (t = T_write)) as [E|E].
      * destruct (Hwr E) as [->|H']; [|by left]. do 4 right. by eapply Exists_new.
      * do 4 right. eapply Exists_stay; [done| |done]. cbn. tauto.
    + do 4 right. by eapply Exists_new.
  - intros w Hp Hne. destruct (G4 w Hne) as [Hne'|Ha]; [|right; by eapply Exists_new].
    destruct (Hw w Hp Hne') as [H|H]; [left; auto|].
    assert (Hd : about_to_wake t ∨ ¬ about_to_wake t) by (destruct t; cbn; tauto).
    destruct Hd as [Ha|Ha]; [destruct (G6 Ha); [by left|right; by eapply Exists_new]|].
    right. eapply Exists_stay; [done| |done]. tauto.
Qed.

Lemma pending_exists w ts : 0 < total (counting w) ts → Exists about_to_wake ts.
Proof.
  induction ts as [|t ts IH]; cbn; [lia|]. intros H.
  assert (Hd : about_to_wake t ∨ counting w t = 0) by (destruct t; cbn; auto).
  destruct Hd as [Ha|Hz]; [by left|]. right. apply IH. unfold total. lia.
Qed.

(** The thread that polls keeps it. *)
Lemma poll_inv s stop p' c' es :
  inv s → Polling_turn stop (poll s) (poller s) = (p', c', es) → inv (mkSystem p' (triggers s) c').
Proof.
  intros [Hc He Hcall Hw] Ht. destruct s as [p ts c]. cbn [poller triggers poll] in *.
  destruct c as [| |w i v|w i v|i| | | | | |]; cbn [Polling_turn] in Ht.
  - destruct (edge p) eqn:Ee; injection Ht as <- <- _; constructor; cbn [poller triggers poll]; try done.
    + intros _. right. by left.
    + by rewrite Ee.
  - destruct (waiting (urgentAsyncTaskQueue p)) as [|v l] eqn:El; injection Ht as <- <- _; constructor; cbn [poller triggers poll]; try done.
    + by right; left.
    + intros w. specialize (Hc w). destruct w; cbn in *; rewrite ?El in *; cbn in *; case_decide; done || lia.
    + by right; left.
  - injection Ht as <- <- _. constructor; cbn [poller triggers poll]; try done.
    + intros w'. specialize (Hc w'). rewrite queue_of_on. cbn in *. destruct (decide (w = w')); cbn; lia.
    + by rewrite efd_on.
    + by right; left.
  - injection Ht as <- <- _. constructor; cbn [poller triggers poll]; try done.
    + intros w'. specialize (Hc w'). cbn in Hc. by destruct stop, w.
    + intros _. destruct stop; [by do 3 right; left|right; left; by destruct w].
    + intros w'. destruct stop; [done|by destruct w].
  - assert (Hstore : inv (mkSystem p ts P_store)).
    { constructor; try done. by right; left. }
    destruct (decide _); [|by injection Ht as <- <- _].
    destruct (waiting (asyncTaskQueue p)) as [|v q] eqn:El; injection Ht as <- <- _; [done|].
    constructor; cbn [poller triggers poll]; try done.
    + intros w. specialize (Hc w). destruct w; cbn in *; rewrite ?El in *; cbn in *; case_decide; done || lia.
    + by right; left.
  - injection Ht as <- <- _. by constructor.
  - assert (Hcall' : ∀ d, wakeupCall p = true → edge p = true ∨ busy d ∨ d = P_write ∨ d = P_stopped ∨
      Exists (λ t, t = T_write) ts).
    { intros d H. destruct (Hcall H) as [|[[]|[[=]|[[=]|]]]]; eauto 6. }
    injection Ht as <- <- _. unfold IsEmpty. case_bool_decide as Hz; constructor; cbn [poller triggers poll]; try done; auto.
    intros w -> Hne. right. apply (pending_exists Async). apply nonempty_len in Hne.
    specialize (Hc Async). cbn in *. lia.
  - assert (Hcall' : ∀ d, wakeupCall p = true → edge p = true ∨ busy d ∨ d = P_write ∨ d = P_stopped ∨
      Exists (λ t, t = T_write) ts).
    { intros d H. destruct (Hcall H) as [|[[]|[[=]|[[=]|]]]]; eauto 6. }
    injection Ht as <- <- _. unfold IsEmpty. case_bool_decide as Hz; constructor; cbn [poller triggers poll]; try done; auto.
    intros [|] _ Hne; [|by apply (Hw Async)]. right. apply (pending_exists Urgent). apply nonempty_len in Hne.
    specialize (Hc Urgent). cbn in *. lia.
  - destruct (wakeupCall p) eqn:Ew; injection Ht as <- <- _; constructor; cbn [poller triggers poll]; try done.
    + intros _. destruct (Hcall eq_refl) as [|[[]|[[=]|[[=]|]]]]; eauto 6.
    + by left.
    + by do 2 right; left.
    + by left.
  - pose proof (write_efd_spec p He) as H. destruct (write_efd p) as [p1 ok].
    destruct H as (H1 & H2 & H3 & H4 & _). injection Ht as <- <- _.
    constructor; cbn [poller triggers poll]; try done.
    + intros w. rewrite H2, Hc. by destruct ok.
    + intros _. rewrite H4. destruct ok; [by left|by do 2 right; left].
    + intros w _. rewrite H2, H3. by apply Hw.
  - injection Ht as <- <- _. by constructor.
Qed.

Lemma poll_turn_inv c s : inv s → inv (turn c s).1.
Proof.
  intros H. destruct c as [t prio v|t|stop]; cbn [turn].
  - destruct (triggers s !! t) as [[]|] eqn:Et; try done. destruct H as [Hc He Hcall Hw].
    constructor; cbn [fst poller triggers poll]; try done.
    + intros w. rewrite (poll_total_insert _ _ _ _ _ Et). cbn. rewrite Hc. lia.
    + intros Hcl. destruct (Hcall Hcl) as [|[|[|[|Hx]]]]; eauto. do 4 right. by eapply Exists_stay.
    + intros w Hp Hne. destruct (Hw w Hp Hne) as [|Hx]; [by left|right]. by eapply Exists_stay.
  - destruct (triggers s !! t) as [x|] eqn:Et; [|done].
    destruct (Trigger_turn x (poller s)) as [[p' x'] es] eqn:Ex. by eapply trigger_inv.
  - destruct (Polling_turn stop (poll s) (poller s)) as [[p' c'] es] eqn:Ex. by eapply poll_inv.
Qed.

Lemma run_inv cs s : inv s → inv (run cs s).1.
Proof.
  revert s; induction cs as [|c cs IH]; intros s H; [done|]. cbn [run]. apply (poll_turn_inv c) in H.
  destruct (turn c s) as [s1 l1]. specialize (IH s1 H). by destruct (run cs s1).
Qed.

Lemma init_inv n : inv (init n).
Proof.
  constructor; cbn [init poller triggers poll]; try done; [|by intros []]. intros w.
  assert (total (counting w) (replicate n T_idle) = 0) as -> by (by induction n).
  by destruct w.
Qed.

(** ** The order of the tasks *)

Definition held (w : which) (s : system) : list Task := in_hand w (poll s) ++ waiting (queue_of w (poller s)).

Lemma waiting_of_write w p : waiting (queue_of w (write_efd p).1) = waiting (queue_of w p).
Proof. unfold write_efd. by destruct (full p), w. Qed.

Lemma trigger_order w t p :
  waiting (queue_of w (Trigger_turn t p).1.1) = waiting (queue_of w p) ++ puts w (Trigger_turn t p).2 ∧
  rans w (Trigger_turn t p).2 = [].
Proof.
  destruct t as [|[|] v|w' v|w'| |]; cbn [Trigger_turn fst snd puts omap list_omap].
  1-3: by rewrite app_nil_r.
  - rewrite queue_of_on. destruct (decide (w' = w)); cbn; [done|by rewrite app_nil_r].
  - rewrite queue_of_on, app_nil_r. by destruct (decide (w' = w)).
  - destruct (wakeupCall p); cbn; rewrite app_nil_r; by destruct w.
  - pose proof (waiting_of_write w p). destruct (write_efd p). cbn in *. by rewrite app_nil_r.
Qed.

Lemma poll_order w stop c p :
  in_hand w c ++ waiting (queue_of w p) =
  rans w (Polling_turn stop c p).2 ++ in_hand w (Polling_turn stop c p).1.2 ++
  waiting (queue_of w (Polling_turn stop c p).1.1) ∧
  puts w (Polling_turn stop c p).2 = [].
Proof.
  destruct c as [| |w' i v|w' i v|i| | | | | |]; cbn [Polling_turn fst snd in_hand app].
  - destruct (edge p); by destruct w.
  - destruct (waiting (urgentAsyncTaskQueue p)) as [|v l] eqn:El; cbn [fst snd in_hand rans omap list_omap]; [done|].
    rewrite queue_of_on. case_decide; subst; cbn; rewrite ?El; done.
  - rewrite queue_of_on. cbn. by destruct (decide (w' = w)).
  - cbn. assert (in_hand w (if stop then P_stopped else after w' i) = []) as -> by (by destruct stop, w').
    by destruct (decide (w' = w)).
  - destruct (decide _); [|done].
    destruct (waiting (asyncTaskQueue p)) as [|v q] eqn:El; cbn [fst snd in_hand rans omap list_omap]; [done|].
    rewrite queue_of_on. case_decide; subst; cbn; rewrite ?El; done.
  - by destruct w.
  - by destruct (IsEmpty _).
  - by destruct (IsEmpty _).
  - destruct (wakeupCall p); by destruct w.
  - pose proof (waiting_of_write w p). destruct (write_efd p) as [p1 ok]. cbn in *. by destruct ok.
  - done.
Qed.

Lemma turn_order w c s :
  held w s ++ puts w (turn c s).2 = rans w (turn c s).2 ++ held w (turn c s).1.
Proof.
  unfold held. destruct c as [t prio v|t|stop]; cbn [turn].
  - destruct (triggers s !! t) as [[]|]; cbn; by rewrite app_nil_r.
  - destruct (triggers s !! t) as [x|]; [|cbn; by rewrite app_nil_r].
    destruct (trigger_order w x (poller s)) as [H1 H2].
    destruct (Trigger_turn x (poller s)) as [[p' x'] es]. cbn [fst snd poll poller] in *. by rewrite H1, H2, <- app_assoc.
  - destruct (poll_order w stop (poll s) (poller s)) as [H1 H2].
    destruct (Polling_turn stop (poll s) (poller s)) as [[p' x'] es]. cbn [fst snd poll poller] in *.
    by rewrite H2, app_nil_r.
Qed.

Lemma run_order w cs s : held w s ++ puts w (run cs s).2 = rans w (run cs s).2 ++ held w (run cs s).1.
Proof.
  revert s; induction cs as [|c cs IH]; intros s; [cbn; by rewrite app_nil_r|]. cbn [run].
  pose proof (turn_order w c s) as H. destruct (turn c s) as [s1 l1]. specialize (IH s1).
  destruct (run cs s1) as [s2 l2]. cbn [fst snd] in *. unfold puts, rans in *. rewrite !omap_app.
  by rewrite app_assoc, H, <- !app_assoc, IH.
Qed.

(** Nobody is inside and the poller sleeps: then nothing waits. *)
Lemma asleep_empty s w : inv s → quiet s → asleep s → waiting (queue_of w (poller s)) = [].
Proof.
  intros [Hc He Hcall Hw] Hq [Hp Hedge]. destruct (waiting (queue_of w (poller s))) as [|v l] eqn:E; [done|].
  assert (Hno : ∀ P : trigger → Prop, ¬ P T_idle → ¬ Exists P (triggers s)).
  { intros P HP [x [Hx Hpx]]%Exists_exists. unfold quiet in Hq. rewrite Forall_forall in Hq.
    rewrite (Hq x Hx) in Hpx. done. }
  destruct (Hw w) as [H|H]; [by rewrite Hp|by rewrite E| |by apply Hno in H; [|intros []]].
  destruct (Hcall H) as [H'|[H'|[H'|[H'|H']]]]; [congruence|by rewrite Hp in H'|congruence|congruence|].
  by apply Hno in H'.
Qed.


(** ** The poller by itself *)

Definition step (s : system) : system := (turn (GoPoll false) s).1.
Definition solo (k : nat) (s : system) : system := (run (replicate k (GoPoll false)) s).1.

Lemma solo_S k s : solo (S k) s = solo k (step s).
Proof.
  unfold solo, step. cbn [replicate run]. destruct (turn (GoPoll false) s) as [s1 l1]. cbn [fst].
  by destruct (run (replicate k (GoPoll false)) s1).
Qed.
Lemma solo_add j k s : solo (j + k) s = solo k (solo j s).
Proof. revert s; induction j as [|j IH]; intros s; [done|]. cbn [Nat.add]. by rewrite !solo_S. Qed.

Lemma step_eq s :
  step s = mkSystem (Polling_turn false (poll s) (poller s)).1.1 (triggers s)
             (Polling_turn false (poll s) (poller s)).1.2.
Proof. unfold step. cbn [turn]. by destruct (Polling_turn false (poll s) (poller s)) as [[p c] es]. Qed.
Lemma step_quiet s : quiet s → quiet (step s).
Proof. unfold quiet. by rewrite step_eq. Qed.

Definition size (p : Poller) : nat :=
  length (waiting (urgentAsyncTaskQueue p)) + length (waiting (asyncTaskQueue p)).

Lemma size_write p : size (write_efd p).1 = size p.
Proof. unfold write_efd. by destruct (full p). Qed.

(** Turns until the poller waits, at most. *)
Definition to_wait (c : polling) (p : Poller) : nat :=
  4 * size p + match c with
    | P_wait | P_stopped => 0
    | P_write => if full p then 5 else 4
    | P_wake => 6 | P_check_urgent => 7 | P_check_async => 8 | P_store => 9
    | P_async _ => 10 | P_urgent => 11 | P_exec _ _ _ => 12 | P_count _ _ _ => 13
    end.

Lemma to_wait_less c p :
  c ≠ P_wait → c ≠ P_stopped → 0 <= efd p →
  (to_wait (Polling_turn false c p).1.2 (Polling_turn false c p).1.1 < to_wait c p)%nat.
Proof.
  unfold to_wait. intros H1 H2 He. destruct c as [| |w i v|w i v|i| | | | | |]; cbn [Polling_turn]; try done.
  - destruct (waiting (urgentAsyncTaskQueue p)) as [|v q] eqn:Eq; cbn [fst snd]; [lia|].
    unfold size. cbn. rewrite Eq. cbn. lia.
  - cbn [fst snd]. assert (size (on_queue w (Add (-1)) p) = size p) as -> by (by destruct w). lia.
  - destruct w; cbn [fst snd after]; lia.
  - destruct (decide _); [|cbn; lia].
    destruct (waiting (asyncTaskQueue p)) as [|v q] eqn:Eq; cbn [fst snd]; [lia|].
    unfold size. cbn. rewrite Eq. cbn. lia.
  - cbn. unfold size. cbn. lia.
  - cbn. destruct (IsEmpty _); lia.
  - cbn. destruct (IsEmpty _); lia.
  - destruct (wakeupCall p); cbn; unfold size; cbn; [lia|]. destruct (full _); lia.
  - pose proof (size_write p) as Hs. unfold write_efd in *. destruct (full p) eqn:Ef; cbn [fst snd] in *; [|lia].
    rewrite Hs. unfold full. cbn [efd set_efd]. rewrite bool_decide_false by lia. lia.
Qed.

(** It comes to wait, and what its turns keep holds then. *)
Lemma comes_to_wait (G : system → Prop) s :
  (∀ s, inv s → quiet s → G s → poll s ≠ P_wait → G (step s) ∧ poll (step s) ≠ P_stopped) →
  inv s → quiet s → G s → poll s ≠ P_stopped →
  ∃ k, poll (solo k s) = P_wait ∧ G (solo k s) ∧ inv (solo k s) ∧ quiet (solo k s).
Proof.
  intros Hstep. remember (to_wait (poll s) (poller s)) as m eqn:Em. revert s Em.
  induction m as [m IH] using lt_wf_ind. intros s -> Hi Hq Hg Hn.
  assert (Hd : poll s = P_wait ∨ poll s ≠ P_wait) by (destruct (poll s); auto).
  destruct Hd as [Hw|Hw]; [by exists 0%nat|].
  destruct (Hstep s Hi Hq Hg Hw) as [Hg' Hn'].
  destruct (IH (to_wait (poll (step s)) (poller (step s)))) with (s := step s) as (k & Hk); try done.
  - rewrite step_eq. by apply to_wait_less; [..|apply Hi].
  - by apply poll_turn_inv.
  - by apply step_quiet.
  - exists (S k). by rewrite solo_S.
Qed.

(** Through one round that starts with [n] tasks or fewer. *)
Definition in_round (n : nat) (s : system) : Prop :=
  let p := poller s in
  match poll s with
  | P_urgent => (size p <= n)%nat ∧ edge p = false
  | P_async O => ((size p < n)%nat ∨ (size p <= n)%nat ∧ waiting (urgentAsyncTaskQueue p) = []) ∧ edge p = false
  | P_wake => (0 < size p < n)%nat ∧ edge p = false
  | P_write => (0 < size p < n)%nat
  | P_wait => (size p < n)%nat ∧ (size p = 0%nat → edge p = false)
  | P_stopped => False
  | _ => (size p < n)%nat ∧ edge p = false
  end.

Lemma quiet_counted s w :
  inv s → quiet s → uncounted w (poll s) = 0 →
  counted (queue_of w (poller s)) = len (waiting (queue_of w (poller s))).
Proof.
  intros Hi Hq Hu. rewrite (inv_count s Hi), Hu.
  assert (total (counting w) (triggers s) = 0) as ->; [|lia]. unfold quiet in Hq.
  induction Hq as [|t ts -> _ IH]; [done|exact IH].
Qed.

Lemma round_step n s :
  (0 < n)%nat → inv s → quiet s → in_round n s → poll s ≠ P_wait →
  in_round n (step s) ∧ poll (step s) ≠ P_stopped.
Proof.
  intros Hn Hi Hq Hg Hw. rewrite step_eq. destruct s as [p ts c].
  pose proof (quiet_counted _ Urgent Hi Hq) as Hu. pose proof (quiet_counted _ Async Hi Hq) as Ha.
  unfold in_round in *. cbn [poll poller triggers queue_of] in *.
  destruct c as [| |w i v|w i v|i| | | | | |]; cbn [Polling_turn]; try done.
  - destruct (waiting (urgentAsyncTaskQueue p)) as [|v q] eqn:Eq; cbn [fst snd]; [naive_solver|].
    destruct Hg. unfold size in *. cbn. rewrite Eq in *. cbn in *. split; [split; [lia|done]|done].
  - cbn [fst snd]. split; [|done]. rewrite edge_on. by destruct w.
  - destruct w; cbn [fst snd after]; [|done]. split; [|done]. destruct Hg. split; [lia|done].
  - assert (Hg' : ((size p < n)%nat ∨ (size p <= n)%nat ∧ waiting (urgentAsyncTaskQueue p) = []) ∧ edge p = false).
    { destruct i; [done|]. destruct Hg. auto. }
    assert (Hmax : (MaxAsyncTasksAtOneTime <= i)%nat → (size p < n)%nat ∧ edge p = false).
    { unfold MaxAsyncTasksAtOneTime. destruct i; [lia|done]. }
    clear Hg. destruct Hg' as [Hg He]. destruct (decide _) as [Hi'|Hi'].
    + destruct (waiting (asyncTaskQueue p)) as [|v q] eqn:Eq; cbn [fst snd].
      * split; [|done]. split; [|done]. destruct Hg as [|[_ E]]; [done|]. unfold size. rewrite E, Eq. done.
      * unfold size in *. cbn. rewrite Eq in *. cbn in *. split; [split; [lia|done]|done].
    + cbn [fst snd]. split; [apply Hmax; lia|done].
  - cbn [fst snd]. specialize (Ha eq_refl). unfold IsEmpty. case_bool_decide as Hz; [done|]. split; [|done].
    destruct Hg. unfold size in *. split; [|done]. split; [lia|done].
  - cbn [fst snd]. specialize (Hu eq_refl). unfold IsEmpty. case_bool_decide as Hz; split; try done.
    + destruct Hg. by split.
    + destruct Hg. unfold size in *. split; [|done]. lia.
  - destruct (wakeupCall p); cbn [fst snd]; split; try done; destruct Hg as [Hg He]; [split; [lia|done]|done].
  - pose proof (size_write p) as Hs. destruct (write_efd p) as [p' [|]]; cbn [fst snd] in *; rewrite Hs; split; try done.
    lia.
Qed.

Lemma falls_asleep s : inv s → quiet s → poll s = P_wait → ∃ k, asleep (solo k s) ∧ quiet (solo k s).
Proof.
  remember (size (poller s)) as n eqn:En. revert s En. induction n as [n IH] using lt_wf_ind.
  intros s -> Hi Hq Hp. destruct (edge (poller s)) eqn:Ee; [|by exists 0%nat].
  set (n := Nat.max 1 (size (poller s))).
  assert (Hround : in_round n (step s) ∧ poll (step s) = P_urgent).
  { rewrite step_eq, Hp. cbn [Polling_turn]. rewrite Ee. cbn. split; [|done]. unfold in_round, n. cbn.
    split; [unfold size; cbn; lia|done]. }
  destruct Hround as [Hr Hpu].
  destruct (comes_to_wait (in_round n) (step s)) as (k & Hk & Hg & Hik & Hqk);
    [intros; apply round_step; try done; lia|by apply poll_turn_inv|by apply step_quiet|done|by rewrite Hpu|].
  assert (Hsize : (size (poller (solo k (step s))) < n)%nat ∧
    (size (poller (solo k (step s))) = 0%nat → edge (poller (solo k (step s))) = false)).
  { unfold in_round in Hg. by rewrite Hk in Hg. }
  destruct Hsize as [Hlt He]. destruct (decide (size (poller (solo k (step s))) = 0%nat)) as [Hz|Hz].
  - exists (S k). rewrite solo_S. split; [by split; auto|done].
  - destruct (IH (size (poller (solo k (step s)))) ltac:(lia) _ eq_refl Hik Hqk Hk) as (j & Hj).
    exists (S k + j)%nat. rewrite solo_add, solo_S. exact Hj.
Qed.

Lemma chores_app cs1 cs2 s : run (cs1 ++ cs2) s =
  ((run cs2 (run cs1 s).1).1, (run cs1 s).2 ++ (run cs2 (run cs1 s).1).2).
Proof.
  revert s; induction cs1 as [|c cs1 IH]; intros s; cbn [app run fst snd]; [by destruct (run cs2 s)|].
  destruct (turn c s) as [s1 l1]. rewrite IH. destruct (run cs1 s1) as [s2 l2]. cbn [fst snd].
  by rewrite app_assoc.
Qed.

(** What is triggered is run.  Wherever the threads that trigger have been,
    once they are through, the poller, left alone and not told to stop, comes to
    rest with every task of both queues run, in the order of each queue. *)
Theorem triggered_tasks_run n cs :
  let s := (run cs (init n)).1 in
  quiet s → poll s ≠ P_stopped →
  ∃ k, let '(s', log) := run (cs ++ replicate k (GoPoll false)) (init n) in
  asleep s' ∧ ∀ w, puts w log = rans w log.
Proof.
  intros s Hq Hn. pose proof (run_inv cs (init n) (init_inv n)) as Hi. fold s in Hi.
  destruct (comes_to_wait (λ s, poll s ≠ P_stopped) s) as (k & Hk & _ & Hik & Hqk); try done.
  { intros s' _ _ Hns Hw. rewrite step_eq. cbn [poll].
    destruct (poll s') as [| |[|] i v|[|] i v|i| | | | | |]; try done; cbn [Polling_turn].
    - by destruct (waiting _).
    - destruct (decide _); [|done]. by destruct (waiting _).
    - by destruct (IsEmpty _).
    - by destruct (IsEmpty _).
    - by destruct (wakeupCall _).
    - by destruct (write_efd _) as [? [|]]. }
  destruct (falls_asleep _ Hik Hqk Hk) as (j & Ha & Hqj). rewrite <- solo_add in Ha, Hqj.
  exists (k + j)%nat. rewrite chores_app. fold s. unfold solo in Ha, Hqj. split; [done|]. intros w.
  pose proof (run_order w (cs ++ replicate (k + j) (GoPoll false)) (init n)) as Ho. rewrite chores_app in Ho.
  fold s in Ho. cbn [fst snd] in Ho.
  assert (Hi' : inv (run (replicate (k + j) (GoPoll false)) s).1) by by apply run_inv.
  unfold held in Ho at 2. rewrite (asleep_empty _ w Hi' Hqj Ha), (proj1 Ha) in Ho.
  cbn [in_hand app] in Ho. rewrite app_nil_r in Ho. rewrite <- Ho. by destruct w.
Qed.

(** ** Examples *)

(** Thread 0 is about to count its task when the poller finds the queue empty by
    its length, and goes to sleep; thread 0 then wakes it. *)
Definition two_triggers : list choice :=
  [DoTrigger 0 HighPriority 10; GoTrigger 0; GoTrigger 0; GoTrigger 0; GoTrigger 0; GoTrigger 0;
   DoTrigger 1 LowPriority 11; GoTrigger 1; GoPoll false; GoPoll false; GoPoll false; GoPoll false;
   GoPoll false; GoPoll false; GoTrigger 1; GoPoll false; GoPoll false; GoPoll false].
Lemma two_triggers_run :
  let '(s, log) := run two_triggers (init 2) in
  poll s = P_wait ∧ edge (poller s) = false ∧ waiting (urgentAsyncTaskQueue (poller s)) = [11] ∧
  triggers s = [T_idle; T_count Urgent].
Proof. by vm_compute. Qed.

(** ** Witnesses *)

Definition then_quiet : list choice := two_triggers ++ [GoTrigger 1; GoTrigger 1; GoTrigger 1].

Lemma triggered_tasks_run_witness :
  ∃ k, let '(s', log) := run (then_quiet ++ replicate k (GoPoll false)) (init 2) in
  asleep s' ∧ ∀ w, puts w log = rans w log.
Proof.
  apply (triggered_tasks_run 2 then_quiet); [|by vm_compute]. vm_compute. repeat constructor.
Defined.
