(* ===== verification/NetConn.v ===== *)
(** * utils/xnet: a stream connection of the event loop

    connection_unix.go, connection_linux.go, and what eventloop_unix.go does with
    a connection: open, read, write, wake and close.  The socket and the poller's
    registration are the kernel's ([Socket]), the handler's three callbacks are
    the application's; the buffer of bytes to be sent is known by what it
    promises ([OutboundBuffer], which Elastic.v keeps), the inbound ring is
    Elastic.v's. *)
From S2P Require Import Prelude Ring Elastic.
#[local] Close Scope nat_scope.
Open Scope Z_scope.

(** ** Interfaces *)

(** The most that [Peek] can show of the elastic buffer at once, and less. *)
Definition MaxPending : Z := MaxInt32 - 1.

(** What the connection asks of its outbound buffer: a queue of bytes, peeked
    as slices none of which is empty. *)
Class OutboundBuffer (B : Type) := {
  ob_Write : list Z → Op B Z;
  ob_Writev : list (list Z) → Op B Z;
  ob_PeekAll : B → outcome (list (list Z));
  ob_Discard : Z → B → B * (Z * option error);
  ob_IsEmpty : B → bool;
  ob_Buffered : B → Z;
  ob_Release : B → B;
  pending : B → list Z;
  ob_ok : B → Prop;
  ob_Write_law p b : ob_ok b → len (pending b) + len p <= MaxPending →
    ∃ b', ob_Write p b = (b', Ok (len p)) ∧ ob_ok b' ∧ pending b' = pending b ++ p;
  ob_Writev_law ps b : ob_ok b → len (pending b) + len (concat ps) <= MaxPending →
    ∃ b', ob_Writev ps b = (b', Ok (len (concat ps))) ∧ ob_ok b' ∧ pending b' = pending b ++ concat ps;
  ob_PeekAll_law b : ob_ok b → len (pending b) <= MaxPending →
    ∃ iov, ob_PeekAll b = Ok iov ∧ concat iov = pending b ∧ Forall (λ p, p ≠ []) iov;
  ob_Discard_law n b : ob_ok b →
    ∃ b' x, ob_Discard n b = (b', x) ∧ ob_ok b' ∧ pending b' = drop (Z.to_nat n) (pending b);
  ob_IsEmpty_law b : ob_ok b → ob_IsEmpty b = bool_decide (pending b = []);
  ob_Buffered_law b : ob_ok b → ob_Buffered b = len (pending b);
  ob_Release_law b : ob_ok b → ob_ok (ob_Release b) ∧ pending (ob_Release b) = [];
}.

(** The kernel's side of a connection: [sent] is what it took, in order,
    [arrived] what it gave; [reads_left] bounds the reads that give something
    before one does not.  write(2), writev(2): of bytes that are not none a
    stream socket takes one at least, or fails, with -1. *)
Class Socket (K : Type) := {
  sys_write : list Z → K → K * (Z * option error);
  sys_writev : list (list Z) → K → K * (Z * option error);
  sys_read : Z → K → K * (list Z * option error);
  sys_mod : bool → K → K * option error;
  sys_add : bool → K → K * option error;
  sys_delete : K → K * option error;
  sys_close : K → K * option error;
  sent : K → list Z;
  arrived : K → list Z;
  reads_left : K → nat;
  sys_write_law p k : let '(k', (n, e)) := sys_write p k in
    arrived k' = arrived k ∧ reads_left k' = reads_left k ∧
    match e with
    | None => 0 <= n ∧ n <= len p ∧ (p ≠ [] → 0 < n) ∧ sent k' = sent k ++ take (Z.to_nat n) p
    | Some _ => n = -1 ∧ sent k' = sent k
    end;
  sys_writev_law ps k : let '(k', (n, e)) := sys_writev ps k in
    arrived k' = arrived k ∧ reads_left k' = reads_left k ∧
    match e with
    | None => 0 <= n ∧ n <= len (concat ps) ∧ (concat ps ≠ [] → 0 < n) ∧
              sent k' = sent k ++ take (Z.to_nat n) (concat ps)
    | Some _ => n = -1 ∧ sent k' = sent k
    end;
  sys_read_law m k : 0 <= m → let '(k', (d, e)) := sys_read m k in
    sent k' = sent k ∧ len d <= m ∧ arrived k' = arrived k ++ d ∧ (e ≠ None → d = []) ∧
    (d ≠ [] → (reads_left k' < reads_left k)%nat) ∧ (reads_left k' <= reads_left k)%nat;
  sys_mod_law w k : sent (sys_mod w k).1 = sent k ∧ arrived (sys_mod w k).1 = arrived k ∧
    reads_left (sys_mod w k).1 = reads_left k;
  sys_add_law w k : sent (sys_add w k).1 = sent k;
  sys_delete_law k : sent (sys_delete k).1 = sent k;
  sys_close_law k : sent (sys_close k).1 = sent k;
}.

(** ** The connection *)

Inductive Action := None_ | Close | Shutdown.
#[export] Instance action_dec : EqDecision Action := ltac:(solve_decision).

(** Tasks that the loop gives itself through the poller. *)
Inductive task := write0 | read0.

(** What the poller listens for. *)
Inductive interest := Read_ | ReadWrite.
#[export] Instance interest_dec : EqDecision interest := ltac:(solve_decision).

Section conn.
Context {B : Type} {OB : OutboundBuffer B} {K : Type} {SK : Socket K}.
(** [opts.EdgeTriggeredIO], [opts.EdgeTriggeredIOChunk], the length of the
    loop's buffer. *)
Context (isET : bool) (chunk : Z) (read_cap : Z).
(** [rbPool.Get], [bsPool.Get] *)
Context (pooled : Ring.XBuffer) (fresh : Z → list Z).

Record conn := mkConn {
  opened : bool;
  isEOF : bool;
  outboundBuffer : B;
  inboundBuffer : ElasticRing.XRingBuffer;
  buffer : list Z;
  cache : list Z;
  registered : bool;
  polled : option interest;
  tasks : list task;
  sock : K;
}.

Definition set_opened x (c : conn) := mkConn x (isEOF c) (outboundBuffer c) (inboundBuffer c) (buffer c)
  (cache c) (registered c) (polled c) (tasks c) (sock c).
Definition set_isEOF x (c : conn) := mkConn (opened c) x (outboundBuffer c) (inboundBuffer c) (buffer c)
  (cache c) (registered c) (polled c) (tasks c) (sock c).
Definition set_out x (c : conn) := mkConn (opened c) (isEOF c) x (inboundBuffer c) (buffer c)
  (cache c) (registered c) (polled c) (tasks c) (sock c).
Definition set_in x (c : conn) := mkConn (opened c) (isEOF c) (outboundBuffer c) x (buffer c)
  (cache c) (registered c) (polled c) (tasks c) (sock c).
Definition set_buffer x (c : conn) := mkConn (opened c) (isEOF c) (outboundBuffer c) (inboundBuffer c) x
  (cache c) (registered c) (polled c) (tasks c) (sock c).
Definition set_cache x (c : conn) := mkConn (opened c) (isEOF c) (outboundBuffer c) (inboundBuffer c) (buffer c)
  x (registered c) (polled c) (tasks c) (sock c).
Definition set_registered x (c : conn) := mkConn (opened c) (isEOF c) (outboundBuffer c) (inboundBuffer c)
  (buffer c) (cache c) x (polled c) (tasks c) (sock c).
Definition set_polled x (c : conn) := mkConn (opened c) (isEOF c) (outboundBuffer c) (inboundBuffer c)
  (buffer c) (cache c) (registered c) x (tasks c) (sock c).
Definition set_tasks x (c : conn) := mkConn (opened c) (isEOF c) (outboundBuffer c) (inboundBuffer c)
  (buffer c) (cache c) (registered c) (polled c) x (sock c).
Definition set_sock x (c : conn) := mkConn (opened c) (isEOF c) (outboundBuffer c) (inboundBuffer c)
  (buffer c) (cache c) (registered c) (polled c) (tasks c) x.

(** The system calls, on the connection. *)
Definition unix_Write (p : list Z) (c : conn) : conn * (Z * option error) :=
  let '(k, x) := sys_write p (sock c) in (set_sock k c, x).
(** [xio.Writev]: no slices, no call. *)
Definition xio_Writev (ps : list (list Z)) (c : conn) : conn * (Z * option error) :=
  match ps with [] => (c, (0, None)) | _ => let '(k, x) := sys_writev ps (sock c) in (set_sock k c, x) end.
Definition unix_Read (m : Z) (c : conn) : conn * (list Z * option error) :=
  let '(k, x) := sys_read m (sock c) in (set_sock k c, x).
Definition poller_Mod (i : interest) (c : conn) : conn * option error :=
  let '(k, e) := sys_mod (bool_decide (i = ReadWrite)) (sock c) in
  (set_sock k (match e with None => set_polled (Some i) c | Some _ => c end), e).
Definition ModReadWrite : conn → conn * option error := poller_Mod ReadWrite.
Definition ModRead : conn → conn * option error := poller_Mod Read_.
Definition Trigger (t : task) (c : conn) : conn := set_tasks (tasks c ++ [t]) c.

Definition out_Write (p : list Z) (c : conn) : conn * option error :=
  let '(b, x) := ob_Write p (outboundBuffer c) in (set_out b c, err_of x).
Definition out_Writev (ps : list (list Z)) (c : conn) : conn * option error :=
  let '(b, x) := ob_Writev ps (outboundBuffer c) in (set_out b c, err_of x).
Definition out_Discard (n : Z) (c : conn) : conn := set_out (ob_Discard n (outboundBuffer c)).1 c.
Definition out_Peek (c : conn) : list (list Z) := val_of [] (ob_PeekAll (outboundBuffer c)).
Definition out_IsEmpty (c : conn) : bool := ob_IsEmpty (outboundBuffer c).

(** ** Closing *)

Definition iovMax : nat := 1024.

(** The loop that writes out what is left; every turn writes one byte at least,
    and [fuel] is their number. *)
Fixpoint flush_loop (fuel : nat) (c : conn) : conn :=
  match fuel with
  | O => c
  | S fuel =>
      if out_IsEmpty c then c else
      let '(c, (n, werr)) := xio_Writev (take iovMax (out_Peek c)) c in
      match werr with
      | Some _ => c
      | None => flush_loop fuel (out_Discard n c)
      end
  end.

Definition release (c : conn) : conn :=
  set_out (ob_Release (outboundBuffer c)) (set_in (ElasticRing.Done (inboundBuffer c))
    (set_buffer [] (set_isEOF false (set_opened false c)))).

(** The handler's callbacks. *)
Context (OnOpen : conn → conn * (option (list Z) * Action)) (OnTraffic : conn → conn * Action)
  (OnClose : option error → conn → conn * Action).

(** [el.close]; the action of the handler is looked at when the connection is
    closed already. *)
Definition close (err : option error) (c : conn) : conn * option error :=
  if negb (opened c) || negb (registered c) then (c, None) else
  let c := set_registered false c in
  let '(c, action) := OnClose err c in
  let c := flush_loop (S (Z.to_nat (ob_Buffered (outboundBuffer c)))) c in
  let c := release c in
  let '(k, err0) := sys_delete (sock c) in
  let '(k, err1) := sys_close k in
  let c := set_polled None (set_sock k c) in
  match err0, err1 with
  | None, None => (c, if decide (action = Shutdown) then Some ErrEngineShutdown else None)
  | Some e, _ | None, Some e => (c, Some e)
  end.

Definition handleAction (a : Action) (c : conn) : conn * option error :=
  match a with
  | None_ => (c, None)
  | Close => close None c
  | Shutdown => (c, Some ErrEngineShutdown)
  end.

(** ** Writing *)

(** How the loop of attempts ends: with bytes left over, or in a return. *)
Inductive attempts (D : Type) :=
  | LeftOver (data : D)
  | Returns (n : Z) (err : option error).

(** [fuel]: a turn writes one byte at least. *)
Fixpoint write_loop (fuel : nat) (n : Z) (data : list Z) (c : conn) : conn * attempts (list Z) :=
  match fuel with
  | O => (c, LeftOver _ data)
  | S fuel =>
      if bool_decide (len data = 0) then (c, LeftOver _ data) else
      let '(c, (k, werr)) := unix_Write data c in
      match werr with
      | Some e =>
          if decide (e = EAGAIN) then
            let '(c, err) := out_Write data c in
            let '(c, err) := if isET then (c, err) else ModReadWrite c in
            (c, Returns _ n err)
          else (c, Returns _ 0 (Some e))
      | None =>
          let data := drop (Z.to_nat k) data in
          if isET then write_loop fuel n data c else (c, LeftOver _ data)
      end
  end.

(** The deferred close. *)
Definition close_on_error {A} (x : A) (err : option error) (c : conn) : conn * (A * option error) :=
  match err with
  | None => (c, (x, None))
  | Some e => ((close (Some e) c).1, (x, Some e))
  end.

Definition write (data : list Z) (c : conn) : conn * (Z * option error) :=
  let n := len data in
  if negb (out_IsEmpty c) then ((out_Write data c).1, (n, None)) else
  match write_loop (S (length data)) n data c with
  | (c, Returns _ n err) => close_on_error n err c
  | (c, LeftOver _ data) =>
      if bool_decide (0 < len data) then
        let '(c, err) := ModReadWrite (out_Write data c).1 in close_on_error n err c
      else (c, (n, None))
  end.

(** The slices that are left when [sent] bytes of them are gone. *)
Fixpoint consumeIovecs (ps : list (list Z)) (sent : Z) : list (list Z) :=
  match ps with
  | [] => []
  | p :: ps => if bool_decide (sent < len p) then drop (Z.to_nat sent) p :: ps
               else consumeIovecs ps (sent - len p)
  end.

Fixpoint writev_loop (fuel : nat) (n remaining : Z) (ps : list (list Z)) (c : conn)
    : conn * attempts (Z * list (list Z)) :=
  match fuel with
  | O => (c, LeftOver _ (remaining, ps))
  | S fuel =>
      if negb (bool_decide (0 < remaining ∧ 0 < len ps)) then (c, LeftOver _ (remaining, ps)) else
      let '(c, (k, werr)) := xio_Writev ps c in
      match werr with
      | Some e =>
          if decide (e = EAGAIN) then
            let '(c, err) := out_Writev ps c in
            let '(c, err) := if isET then (c, err) else ModReadWrite c in
            (c, Returns _ n err)
          else (c, Returns _ 0 (Some e))
      | None =>
          let remaining := remaining - k in
          let ps := if bool_decide (k <= 0) then ps else consumeIovecs ps k in
          if isET then writev_loop fuel n remaining ps c else (c, LeftOver _ (remaining, ps))
      end
  end.

Definition writev (ps : list (list Z)) (c : conn) : conn * (Z * option error) :=
  let n := len (concat ps) in
  if negb (out_IsEmpty c) then ((out_Writev ps c).1, (n, None)) else
  match writev_loop (S (Z.to_nat n)) n n ps c with
  | (c, Returns _ n err) => close_on_error n err c
  | (c, LeftOver _ (remaining, ps)) =>
      if bool_decide (0 < remaining ∧ 0 < len ps) then
        let '(c, err) := ModReadWrite (out_Writev ps c).1 in close_on_error n err c
      else (c, (n, None))
  end.

(** The hooks of [AsyncWrite] and [AsyncWritev], run by the loop. *)
Definition asyncWrite (data : list Z) (c : conn) : conn * option error :=
  if negb (opened c) then (c, Some ErrClosed) else let '(c, (_, e)) := write data c in (c, e).
Definition asyncWritev (ps : list (list Z)) (c : conn) : conn * option error :=
  if negb (opened c) then (c, Some ErrClosed) else let '(c, (_, e)) := writev ps c in (c, e).

(** ** The loop's events *)

(** [iov[0]], or the vectored call, and what it took off the buffer. *)
Definition write_once (c : conn) : outcome (conn * (Z * option error)) :=
  let iov := out_Peek c in
  '(c, (n, err)) ← (if bool_decide (1 < len iov) then Ok (xio_Writev (take iovMax iov) c)
                    else p ← index iov 0; Ok (unix_Write p c));
  Ok (out_Discard n c, (n, err)).

(** The loop of [el.write]: it returns, or it breaks. *)
Fixpoint el_write_loop (fuel : nat) (sent_ : Z) (c : conn) : outcome (conn * option (option error)) :=
  match fuel with
  | O => Ok (c, None)
  | S fuel =>
      '(c, (n, err)) ← write_once c;
      match err with
      | Some e => if decide (e = EAGAIN) then Ok (c, Some None)
                  else let '(c, e) := close (Some e) c in Ok (c, Some e)
      | None =>
          let sent_ := sent_ + n in
          if isET && negb (out_IsEmpty c) && bool_decide (sent_ < chunk) then el_write_loop fuel sent_ c
          else Ok (c, None)
      end
  end.

(** [el.write], also [Flush]. *)
Definition el_write (c : conn) : outcome (conn * option error) :=
  if out_IsEmpty c then Ok (c, None) else
  '(c, x) ← el_write_loop (S (Z.to_nat (ob_Buffered (outboundBuffer c)))) 0 c;
  match x with
  | Some e => Ok (c, e)
  | None =>
      if negb isET && out_IsEmpty c then Ok (ModRead c)
      else if isET && negb (out_IsEmpty c) then Ok (Trigger write0 c, None)
      else Ok (c, None)
  end.

(** What [OnTraffic] left goes behind the inbound ring. *)
Definition keep_rest (c : conn) : conn :=
  set_buffer [] (set_in (ElasticRing.Write pooled fresh (buffer c) (inboundBuffer c)).1 c).

(** The loop of [el.read]; [fuel] is for the reads that the kernel answers. *)
Fixpoint el_read_loop (fuel : nat) (recv : Z) (c : conn) : conn * (Z * option (option error)) :=
  match fuel with
  | O => (c, (recv, None))
  | S fuel =>
      let '(c, (d, err)) := unix_Read read_cap c in
      if bool_decide (err ≠ None ∨ d = []) then
        if decide (err = Some EAGAIN) then (c, (recv, Some None)) else
        let '(c, e) := close (Some (match err with Some e => e | None => EOF end)) c in (c, (recv, Some e))
      else
        let recv := recv + len d in
        let '(c, action) := OnTraffic (set_buffer d c) in
        match action with
        | Close => let '(c, e) := close None c in (c, (recv, Some e))
        | Shutdown => (c, (recv, Some (Some ErrEngineShutdown)))
        | None_ =>
            let c := keep_rest c in
            if isEOF c || isET && bool_decide (recv < chunk) then el_read_loop fuel recv c
            else (c, (recv, None))
        end
  end.

Definition el_read (c : conn) : conn * option error :=
  if negb (opened c) then (c, None) else
  match el_read_loop (S (reads_left (sock c))) 0 c with
  | (c, (_, Some e)) => (c, e)
  | (c, (recv, None)) =>
      if isET && bool_decide (chunk <= recv) then (Trigger read0 c, None) else (c, None)
  end.

Definition wake (c : conn) : conn * option error :=
  if negb (opened c) || negb (registered c) then (c, None) else
  let '(c, action) := OnTraffic c in handleAction action c.

(** [c.open]: what [OnOpen] returned. *)
Fixpoint open_loop (fuel : nat) (buf : list Z) (c : conn) : conn * option error :=
  match fuel with
  | O => (c, None)
  | S fuel =>
      if bool_decide (len buf = 0) then (c, None) else
      let '(c, (n, err)) := unix_Write buf c in
      match err with
      | Some e => if decide (e = EAGAIN) then ((out_Write buf c).1, None) else (c, Some e)
      | None => open_loop fuel (drop (Z.to_nat n) buf) c
      end
  end.
Definition conn_open (buf : list Z) : conn → conn * option error := open_loop (S (length buf)) buf.

Definition el_open (c : conn) : conn * option error :=
  let '(c, (out, action)) := OnOpen (set_opened true c) in
  let '(c, err) := match out with Some out => conn_open out c | None => (c, None) end in
  match err with
  | Some e => (c, Some e)
  | None =>
      let '(c, err) := if negb (out_IsEmpty c) && negb isET then ModReadWrite c else (c, None) in
      match err with Some e => (c, Some e) | None => handleAction action c end
  end.

Definition register0 (c : conn) : conn * option error :=
  let '(k, err) := sys_add isET (sock c) in
  match err with
  | Some e => (release (set_sock (sys_close k).1 c), Some e)
  | None => el_open (set_registered true (set_polled (Some (if isET then ReadWrite else Read_)) (set_sock k c)))
  end.

(** epoll's bits *)
Definition EPOLLIN : Z := 1.
Definition EPOLLPRI : Z := 2.
Definition EPOLLOUT : Z := 4.
Definition EPOLLERR : Z := 8.
Definition EPOLLHUP : Z := 16.
Definition EPOLLRDHUP : Z := 8192.
Definition ReadEvents : Z := Z.lor EPOLLIN EPOLLPRI.
Definition WriteEvents : Z := EPOLLOUT.
Definition ReadWriteEvents : Z := Z.lor ReadEvents WriteEvents.
Definition ErrEvents : Z := Z.lor EPOLLERR EPOLLHUP.
Definition has (ev mask : Z) : bool := negb (bool_decide (Z.land ev mask = 0)).

Definition processIO (ev : Z) (c : conn) : outcome (conn * option error) :=
  if has ev (Z.lor ErrEvents EPOLLRDHUP) && negb (has ev ReadWriteEvents)
  then Ok (close (Some EOF) (set_out (ob_Release (outboundBuffer c)) c)) else
  '(c, err) ← (if has ev (Z.lor WriteEvents ErrEvents) then el_write c else Ok (c, None));
  match err with
  | Some e => Ok (c, Some e)
  | None =>
      let '(c, err) := if has ev (Z.lor ReadEvents ErrEvents) then el_read c else (c, None) in
      match err with
      | Some e => Ok (c, Some e)
      | None =>
          if has ev EPOLLRDHUP && opened c then
            if negb (has ev EPOLLIN) then Ok (close (Some EOF) c)
            else Ok (el_read (set_isEOF true c))
          else Ok (c, None)
      end
  end.

(** ** Reading *)

Definition InboundBuffered (c : conn) : Z := ElasticRing.Buffered (inboundBuffer c) + len (buffer c).
Definition OutboundBuffered (c : conn) : Z := ob_Buffered (outboundBuffer c).

Definition resetBuffer (c : conn) : conn :=
  set_in (ElasticRing.Done (ElasticRing.Reset (inboundBuffer c))) (set_buffer [] c).

(** [copy(p, c.buffer)] for a [p] of length [k]. *)
Definition copy_buffer (k : Z) (c : conn) : conn * list Z :=
  let p := take (Z.to_nat k) (buffer c) in (set_buffer (drop (length p) (buffer c)) c, p).

Definition Read (k : Z) (c : conn) : conn * (list Z * option error) :=
  if ElasticRing.IsEmpty (inboundBuffer c) then
    let '(c, p) := copy_buffer k c in
    (c, (p, if bool_decide (len p = 0 ∧ 0 < k) then Some ErrShortBuffer else None))
  else
    let '(rb, x) := ElasticRing.Read k (inboundBuffer c) in
    let c := set_in rb c in
    let p := val_of [] x in
    if bool_decide (len p = k) then (c, (p, None)) else
    let '(c, q) := copy_buffer (k - len p) c in (c, (p ++ q, None)).

(** The number that [Next] and [Peek] mean, none when there is less. *)
Definition asked (n : Z) (c : conn) : option Z :=
  if bool_decide (InboundBuffered c < n) then None
  else Some (if bool_decide (n <= 0) then InboundBuffered c else n).

(** What [Read] puts into a block of the pool is what is returned of it. *)
Definition Next (n : Z) (c : conn) : conn * outcome (list Z * option error) :=
  match asked n c with
  | None => (c, Err ErrShortBuffer)
  | Some n =>
      if ElasticRing.IsEmpty (inboundBuffer c) then
        (set_buffer (drop (Z.to_nat n) (buffer c)) c, p ← slice (buffer c) 0 n; Ok (p, None))
      else
        let '(c, (p, e)) := Read n c in
        let block := fresh n in (c, Ok (p ++ drop (length p) block, e))
  end.

Definition Peek (n : Z) (c : conn) : conn * outcome (list Z) :=
  match asked n c with
  | None => (c, Err ErrShortBuffer)
  | Some n =>
      if ElasticRing.IsEmpty (inboundBuffer c) then (c, slice (buffer c) 0 n) else
      match ElasticRing.Peek n (inboundBuffer c) with
      | Ok (head, tail) =>
          if bool_decide (len head = n) then (c, Ok head) else
          let buf := head ++ tail in
          if bool_decide (n <= ElasticRing.Buffered (inboundBuffer c)) then (c, Ok buf) else
          match slice (buffer c) 0 (n - ElasticRing.Buffered (inboundBuffer c)) with
          | Ok p => (set_cache (buf ++ p) c, Ok (buf ++ p))
          | x => (c, x)
          end
      | Err e => (c, Err e)
      | Panic => (c, Panic)
      end
  end.

Definition Discard (n : Z) (c : conn) : conn * Z :=
  let c := set_cache [] c in
  let inBufferLen := ElasticRing.Buffered (inboundBuffer c) in
  let totalLen := inBufferLen + len (buffer c) in
  if bool_decide (totalLen <= n ∨ n <= 0) then (resetBuffer c, totalLen) else
  if ElasticRing.IsEmpty (inboundBuffer c) then (set_buffer (drop (Z.to_nat n) (buffer c)) c, n) else
  let '(rb, (discarded, _)) := ElasticRing.Discard n (inboundBuffer c) in
  let c := set_in rb c in
  if bool_decide (discarded < inBufferLen) then (c, discarded)
  else (set_buffer (drop (Z.to_nat (n - inBufferLen)) (buffer c)) c, n).

(** ** What waits to be read *)

Definition unread (c : conn) : list Z := ElasticRing.contents (inboundBuffer c) ++ buffer c.
Definition in_ok (c : conn) : Prop := ElasticRing.wf (inboundBuffer c).

(** ** The bytes to be sent *)

(** What the kernel took, and what is to follow. *)
Definition total (c : conn) : list Z := sent (sock c) ++ pending (outboundBuffer c).
Definition out_ok (c : conn) : Prop := ob_ok (outboundBuffer c) ∧ len (pending (outboundBuffer c)) <= MaxPending.

(** The application writes nothing from [OnClose], and does not register the
    connection again. *)
Context (OnClose_law : ∀ e c, outboundBuffer (OnClose e c).1 = outboundBuffer c ∧ sock (OnClose e c).1 = sock c).

Lemma unix_Write_spec p c :
  ∃ k n e, unix_Write p c = (set_sock k c, (n, e)) ∧ arrived k = arrived (sock c) ∧
  reads_left k = reads_left (sock c) ∧
  match e with
  | None => 0 <= n ∧ n <= len p ∧ (p ≠ [] → 0 < n) ∧ sent k = sent (sock c) ++ take (Z.to_nat n) p
  | Some _ => n = -1 ∧ sent k = sent (sock c)
  end.
Proof.
  unfold unix_Write. pose proof (sys_write_law p (sock c)) as H. destruct (sys_write p (sock c)) as [k [n e]].
  by exists k, n, e.
Qed.

Lemma xio_Writev_spec ps c :
  ∃ k n e, xio_Writev ps c = (set_sock k c, (n, e)) ∧ arrived k = arrived (sock c) ∧
  reads_left k = reads_left (sock c) ∧
  match e with
  | None => 0 <= n ∧ n <= len (concat ps) ∧ (concat ps ≠ [] → 0 < n) ∧
            sent k = sent (sock c) ++ take (Z.to_nat n) (concat ps)
  | Some _ => n = -1 ∧ sent k = sent (sock c)
  end.
Proof.
  destruct ps as [|p ps].
  - exists (sock c), 0, None. cbn. rewrite app_nil_r. split_and!; try done; try lia. by destruct c.
  - unfold xio_Writev. pose proof (sys_writev_law (p :: ps) (sock c)) as H.
    destruct (sys_writev (p :: ps) (sock c)) as [k [n e]]. by exists k, n, e.
Qed.

Lemma out_Write_spec p c :
  out_ok c → len (pending (outboundBuffer c)) + len p <= MaxPending →
  ∃ b, out_Write p c = (set_out b c, None) ∧ out_ok (set_out b c) ∧ pending b = pending (outboundBuffer c) ++ p.
Proof.
  intros [Hok _] Hl. destruct (ob_Write_law p _ Hok Hl) as (b & E & Hb & Hp). exists b.
  unfold out_Write. rewrite E. split; [done|]. split; [|done]. split; [done|]. cbn. rewrite Hp. len_solve.
Qed.

Lemma out_Writev_spec ps c :
  out_ok c → len (pending (outboundBuffer c)) + len (concat ps) <= MaxPending →
  ∃ b, out_Writev ps c = (set_out b c, None) ∧ out_ok (set_out b c) ∧
  pending b = pending (outboundBuffer c) ++ concat ps.
Proof.
  intros [Hok _] Hl. destruct (ob_Writev_law ps _ Hok Hl) as (b & E & Hb & Hp). exists b.
  unfold out_Writev. rewrite E. split; [done|]. split; [|done]. split; [done|]. cbn. rewrite Hp. len_solve.
Qed.

Lemma out_Discard_spec n c :
  out_ok c → out_ok (out_Discard n c) ∧ pending (outboundBuffer (out_Discard n c)) = drop (Z.to_nat n) (pending (outboundBuffer c)).
Proof.
  intros [Hok Hl]. destruct (ob_Discard_law n _ Hok) as (b & x & E & Hb & Hp). unfold out_Discard, out_ok. cbn.
  rewrite E. cbn. rewrite Hp. split; [split; [done|]|done]. len_solve.
Qed.

Lemma out_Peek_spec c :
  out_ok c → concat (out_Peek c) = pending (outboundBuffer c) ∧
  (pending (outboundBuffer c) ≠ [] → ∃ p ps, out_Peek c = p :: ps ∧ p ≠ []).
Proof.
  intros [Hok Hl]. destruct (ob_PeekAll_law _ Hok Hl) as (iov & E & Hc & Hne). unfold out_Peek. rewrite E. cbn.
  split; [done|]. intros Hp. destruct Hne as [|p ps Hp']; [cbn in Hc; by rewrite <- Hc in Hp|by exists p, ps].
Qed.

Lemma out_IsEmpty_spec c : out_ok c → out_IsEmpty c = bool_decide (pending (outboundBuffer c) = []).
Proof. intros [Hok _]. by apply ob_IsEmpty_law. Qed.

(** Some of the first slices are some of the first bytes. *)
Lemma take_concat (n : nat) (ps : list (list Z)) k :
  k <= len (concat (take n ps)) → take (Z.to_nat k) (concat (take n ps)) = take (Z.to_nat k) (concat ps).
Proof.
  intros Hk. rewrite <- (take_drop n ps) at 2. rewrite concat_app, take_app_le; [done|lia].
Qed.

(** A write from the front of the buffer, then the discard of what was taken. *)
Lemma sent_and_discarded c k n m :
  out_ok c → m = Z.to_nat n → (m <= length (pending (outboundBuffer c)))%nat →
  sent k = sent (sock c) ++ take m (pending (outboundBuffer c)) →
  out_ok (out_Discard n (set_sock k c)) ∧ total (out_Discard n (set_sock k c)) = total c ∧
  len (pending (outboundBuffer (out_Discard n (set_sock k c)))) = len (pending (outboundBuffer c)) - Z.of_nat m.
Proof.
  intros Hok -> Hm Hs. destruct (out_Discard_spec n (set_sock k c) Hok) as [Hok' Hp].
  split; [done|]. unfold total. rewrite Hp. cbn [sock out_Discard set_out set_sock outboundBuffer] in *.
  rewrite Hs, <- app_assoc, take_drop. split; [done|]. rewrite length_drop. lia.
Qed.

(** The loop of [close]. *)
Lemma flush_loop_spec fuel c :
  out_ok c → (length (pending (outboundBuffer c)) < fuel)%nat →
  let c' := flush_loop fuel c in
  out_ok c' ∧ total c' = total c ∧
  (pending (outboundBuffer c') = [] ∨ ∃ c1 n e, xio_Writev (take iovMax (out_Peek c1)) c1 = (c', (n, Some e))) ∧
  ∀ more, flush_loop (fuel + more) c = c'.
Proof.
  revert c; induction fuel as [|fuel IH]; intros c Hok Hf; [lia|]. cbn [flush_loop Nat.add].
  rewrite (out_IsEmpty_spec c Hok). case_bool_decide as He; [by split_and!; auto|].
  destruct (out_Peek_spec c Hok) as [Hc Hne]. destruct (Hne He) as (p & ps & Ep & Hp).
  destruct (xio_Writev_spec (take iovMax (out_Peek c)) c) as (k & n & [e|] & E & _ & _ & Hs); rewrite E.
  - destruct Hs as [-> Hs]. split; [done|]. split; [unfold total; cbn; by rewrite Hs|]. split; [|done].
    right. by eexists _, _, _.
  - destruct Hs as (H0 & H1 & Hpos & Hs).
    assert (Hle : len (concat (take iovMax (out_Peek c))) <= len (pending (outboundBuffer c))).
    { rewrite <- Hc. rewrite <- (take_drop iovMax (out_Peek c)) at 2. rewrite concat_app, length_app. lia. }
    assert (0 < n) by (apply Hpos; rewrite Ep; unfold iovMax; cbn; by destruct p).
    rewrite take_concat, Hc in Hs by done.
    destruct (sent_and_discarded c k n (Z.to_nat n) Hok) as (Hok' & Ht & Hl); [done|lia|done|].
    destruct (IH (out_Discard n (set_sock k c)) Hok') as (G1 & G2 & G3 & G4); [lia|].
    split; [done|]. split; [by rewrite G2|]. split; [done|]. intros more. by apply G4.
Qed.

Lemma close_idle e c : opened c = false ∨ registered c = false → close e c = (c, None).
Proof. intros H. unfold close. by destruct (opened c), (registered c); destruct H. Qed.

(** A connection that is closed has sent a part of what it was to send, from the
    front. *)
Lemma close_spec e c :
  out_ok c → opened c = true → registered c = true →
  let c' := (close e c).1 in
  out_ok c' ∧ opened c' = false ∧ pending (outboundBuffer c') = [] ∧ sent (sock c') `prefix_of` total c.
Proof.
  intros Hok Ho Hr. unfold close. rewrite Ho, Hr. cbn [negb orb].
  destruct (OnClose_law e (set_registered false c)) as [Hb Hk].
  destruct (OnClose e (set_registered false c)) as [c1 action]. cbn [fst] in Hb, Hk.
  assert (Hok1 : out_ok c1) by (unfold out_ok; by rewrite Hb).
  set (fuel := S (Z.to_nat (ob_Buffered (outboundBuffer c1)))).
  destruct (flush_loop_spec fuel c1 Hok1) as ([Hok2 Hl2] & Ht & _ & _).
  { unfold fuel. rewrite (ob_Buffered_law _ (proj1 Hok1)). lia. }
  set (c2 := flush_loop fuel c1) in *.
  pose proof (sys_delete_law (sock (release c2))) as Hd.
  destruct (sys_delete (sock (release c2))) as [k1 err0]. cbn [fst] in Hd.
  pose proof (sys_close_law k1) as Hc. destruct (sys_close k1) as [k2 err1]. cbn [fst] in Hc.
  destruct (ob_Release_law _ Hok2) as [Hr1 Hr2].
  assert (Hgoal : let c3 := set_polled None (set_sock k2 (release c2)) in
    out_ok c3 ∧ opened c3 = false ∧ pending (outboundBuffer c3) = [] ∧ sent (sock c3) `prefix_of` total c).
  { clearbody c2. unfold out_ok. cbn [outboundBuffer opened sock set_polled set_sock release set_out]. rewrite Hr2.
    split_and!; try done. rewrite Hc, Hd. cbn [sock release set_out set_in set_buffer set_isEOF set_opened].
    assert (Ht1 : total c1 = total c) by (unfold total; by rewrite Hb, Hk).
    rewrite <- Ht1, <- Ht. unfold total. by apply prefix_app_r. }
  destruct err0, err1; exact Hgoal.
Qed.

(** ** Attempts to write *)

Definition same_life (c c' : conn) : Prop := opened c' = opened c ∧ registered c' = registered c.

Lemma poller_Mod_spec i c :
  let '(c', e) := poller_Mod i c in
  same_life c c' ∧ outboundBuffer c' = outboundBuffer c ∧ sent (sock c') = sent (sock c) ∧
  polled c' = (match e with None => Some i | Some _ => polled c end).
Proof.
  unfold poller_Mod. pose proof (sys_mod_law (bool_decide (i = ReadWrite)) (sock c)) as (H & _ & _).
  destruct (sys_mod (bool_decide (i = ReadWrite)) (sock c)) as [k [e|]]; cbn in *; by split_and!.
Qed.

(** How an attempt to write [data] with nothing pending ends. *)
Definition attempted (data : list Z) (c c' : conn) (err : option error) : Prop :=
  same_life c c' ∧ out_ok c' ∧
  match err with
  | None => total c' = total c ++ data ∧ (isET = false → pending (outboundBuffer c') ≠ [] → polled c' = Some ReadWrite)
  | Some _ => total c' `prefix_of` total c ++ data
  end.

(** The rest is kept for later, and the poller told of it. *)
Lemma attempted_polled data c b :
  out_ok (set_out b c) → pending b = pending (outboundBuffer c) ++ data →
  attempted data c (ModReadWrite (set_out b c)).1 (ModReadWrite (set_out b c)).2.
Proof.
  intros Hb Hpb. pose proof (poller_Mod_spec ReadWrite (set_out b c)) as H. unfold ModReadWrite.
  destruct (poller_Mod ReadWrite (set_out b c)) as [c' e]. destruct H as (Hlife & Hout & Hsent & Hpol).
  cbn [outboundBuffer sock set_out fst snd] in *.
  assert (Ht : total c' = total c ++ data) by (unfold total; by rewrite Hout, Hsent, Hpb, app_assoc).
  split; [done|]. split; [unfold out_ok in *; by rewrite Hout|]. destruct e; [by rewrite Ht|]. auto.
Qed.

Lemma attempted_buffered data c b :
  out_ok (set_out b c) → pending b = pending (outboundBuffer c) ++ data → isET = true →
  attempted data c (set_out b c) None.
Proof.
  intros Hb Hpb Het. split; [done|]. split; [done|]. split; [|by rewrite Het].
  unfold total. cbn. by rewrite Hpb, app_assoc.
Qed.

(** After a part of it was taken. *)
Lemma attempted_rest part rest c c1 c' e :
  same_life c c1 → outboundBuffer c1 = outboundBuffer c → sent (sock c1) = sent (sock c) ++ part →
  pending (outboundBuffer c) = [] → attempted rest c1 c' e → attempted (part ++ rest) c c' e.
Proof.
  intros [Ho Hr] Hb Hs Hp ([Ho' Hr'] & Hok & H). split; [split; congruence|]. split; [done|].
  assert (Ht : total c1 = total c ++ part) by (unfold total; by rewrite Hb, Hs, Hp, !app_nil_r).
  rewrite Ht in H. by rewrite app_assoc.
Qed.

Lemma attempted_failed data c k e : out_ok c → sent k = sent (sock c) → attempted data c (set_sock k c) (Some e).
Proof.
  intros Hok Hs. split; [done|]. split; [done|]. unfold total. cbn. rewrite Hs. by apply prefix_app_r.
Qed.

(** What falls out of the loop of attempts has been taken from the front. *)
Definition left_over (data rest : list Z) (c c' : conn) : Prop :=
  ∃ part, data = part ++ rest ∧ outboundBuffer c' = outboundBuffer c ∧
  sent (sock c') = sent (sock c) ++ part ∧ same_life c c'.

Lemma left_over_more part data rest c k c' :
  sent k = sent (sock c) ++ part → left_over data rest (set_sock k c) c' →
  left_over (part ++ data) rest c c'.
Proof.
  intros Hs (p & -> & Hb & Hs' & Hl). exists (part ++ p). cbn in Hs'. rewrite Hs', Hs, <- !app_assoc. by split_and!.
Qed.

Lemma conn_write_loop_spec fuel n data c :
  out_ok c → pending (outboundBuffer c) = [] → len data <= MaxPending → (length data < fuel)%nat →
  match write_loop fuel n data c with
  | (c', Returns _ m e) => (e = None → m = n) ∧ attempted data c c' e
  | (c', LeftOver _ rest) => left_over data rest c c' ∧ (isET = true → rest = [])
  end.
Proof.
  revert data c; induction fuel as [|fuel IH]; intros data c Hok Hp Hl Hf; [lia|]. cbn [write_loop].
  case_bool_decide as Hd.
  { apply len_nil in Hd as ->. split; [|done]. exists []. split_and!; try done. by rewrite app_nil_r. }
  destruct (unix_Write_spec data c) as (k & m & [e|] & E & _ & _ & Hs); rewrite E.
  - destruct Hs as [-> Hs]. destruct (decide (e = EAGAIN)); [|split; [done|by apply attempted_failed]].
    destruct (out_Write_spec data (set_sock k c) Hok) as (b & E' & Hb & Hpb); [cbn; rewrite Hp; cbn; lia|].
    rewrite E'. assert (Hcase : isET = true ∨ isET = false) by (by destruct isET; auto).
    destruct Hcase as [Het|Het]; rewrite Het.
    + split; [done|]. apply (attempted_rest [] data c (set_sock k c)); try done; [by rewrite app_nil_r|]. by apply attempted_buffered.
    + pose proof (attempted_polled data (set_sock k c) b Hb Hpb) as H.
      destruct (ModReadWrite (set_out b (set_sock k c))) as [c' e']. cbn [fst snd] in H.
      split; [done|]. apply (attempted_rest [] data c (set_sock k c)); try done. by rewrite app_nil_r.
  - destruct Hs as (H0 & H1 & Hpos & Hs). pose proof (take_drop (Z.to_nat m) data) as Etd.
    destruct isET eqn:Het.
    + specialize (IH (drop (Z.to_nat m) data) (set_sock k c) Hok Hp).
      assert (data ≠ []) as Hdn by (intros ->; done).
      specialize (Hpos Hdn). destruct (write_loop fuel n (drop (Z.to_nat m) data) (set_sock k c)) as [c' [rest|m' e]].
      * destruct IH as [IH1 IH2]; [len_solve|len_solve|]. split; [|done]. rewrite <- Etd. by eapply left_over_more.
      * destruct IH as [IH1 IH2]; [len_solve|len_solve|]. split; [done|]. rewrite <- Etd. by apply (attempted_rest _ _ c (set_sock k c)).
    + split; [|done]. eexists. by split_and!.
Qed.

Lemma consumeIovecs_spec ps n :
  0 <= n → n <= len (concat ps) → concat (consumeIovecs ps n) = drop (Z.to_nat n) (concat ps).
Proof.
  revert n; induction ps as [|p ps IH]; intros n H0 Hn; cbn [consumeIovecs concat] in *; [by rewrite drop_nil|].
  rewrite length_app in Hn. case_bool_decide.
  - cbn. by rewrite drop_app_le by lia.
  - rewrite IH, drop_app_ge by lia. f_equal. lia.
Qed.

Lemma conn_writev_loop_spec fuel n ps c :
  out_ok c → pending (outboundBuffer c) = [] → len (concat ps) <= MaxPending → (length (concat ps) < fuel)%nat →
  match writev_loop fuel n (len (concat ps)) ps c with
  | (c', Returns _ m e) => (e = None → m = n) ∧ attempted (concat ps) c c' e
  | (c', LeftOver _ (remaining, rest)) =>
      left_over (concat ps) (concat rest) c c' ∧ remaining = len (concat rest)
  end.
Proof.
  revert ps c; induction fuel as [|fuel IH]; intros ps c Hok Hp Hl Hf; [lia|]. cbn [writev_loop].
  case_bool_decide as Hd; cbn [negb].
  2: { split; [|done]. exists []. split_and!; try done. by rewrite app_nil_r. }
  destruct (xio_Writev_spec ps c) as (k & m & [e|] & E & _ & _ & Hs); rewrite E.
  - destruct Hs as [-> Hs]. destruct (decide (e = EAGAIN)); [|split; [done|by apply attempted_failed]].
    destruct (out_Writev_spec ps (set_sock k c) Hok) as (b & E' & Hb & Hpb); [cbn; rewrite Hp; cbn; lia|].
    rewrite E'. assert (Hcase : isET = true ∨ isET = false) by (by destruct isET; auto).
    destruct Hcase as [Het|Het]; rewrite Het.
    + split; [done|]. apply (attempted_rest [] (concat ps) c (set_sock k c)); try done; [by rewrite app_nil_r|].
      by apply attempted_buffered.
    + pose proof (attempted_polled (concat ps) (set_sock k c) b Hb Hpb) as H.
      destruct (ModReadWrite (set_out b (set_sock k c))) as [c' e']. cbn [fst snd] in H.
      split; [done|]. apply (attempted_rest [] (concat ps) c (set_sock k c)); try done. by rewrite app_nil_r.
  - destruct Hs as (H0 & H1 & Hpos & Hs). pose proof (take_drop (Z.to_nat m) (concat ps)) as Etd.
    assert (concat ps ≠ []) as Hne by (intros Hz; rewrite Hz in Hd; cbn in Hd; lia). specialize (Hpos Hne).
    rewrite (bool_decide_false (m <= 0)) by lia.
    pose proof (consumeIovecs_spec ps m H0 H1) as Hcons. set (rest := consumeIovecs ps m) in *.
    assert (Hrem : len (concat ps) - m = len (concat rest)) by (rewrite Hcons; len_solve). rewrite Hrem.
    destruct isET eqn:Het.
    + specialize (IH rest (set_sock k c) Hok Hp).
      destruct (writev_loop fuel n (len (concat rest)) rest (set_sock k c)) as [c' [[remaining rest']|m' e]].
      * destruct IH as [IH1 IH2]; [lia|lia|]. split; [|done]. rewrite <- Etd, <- Hcons. by eapply left_over_more.
      * destruct IH as [IH1 IH2]; [lia|lia|]. split; [done|].
        rewrite <- Etd, <- Hcons. by apply (attempted_rest _ _ c (set_sock k c)).
    + split; [|done]. exists (take (Z.to_nat m) (concat ps)). rewrite Hcons. by split_and!.
Qed.

(** ** The order of what is sent

    [T] is all that the connection has accepted so far. *)
Record ordered (T : list Z) (c : conn) : Prop := {
  ord_ok : out_ok c;
  ord_open : opened c = true → registered c = true ∧ total c = T;
  ord_closed : opened c = false → pending (outboundBuffer c) = [];
  ord_sent : sent (sock c) `prefix_of` T;
  ord_polled : isET = false → opened c = true → pending (outboundBuffer c) ≠ [] → polled c = Some ReadWrite;
}.

Lemma sent_total c : sent (sock c) `prefix_of` total c.
Proof. by apply prefix_app_r. Qed.

(** An attempt, and the deferred close. *)
Lemma attempted_ordered {A} (x : A) T data c c' err :
  ordered T c → opened c = true → attempted data c c' err →
  ordered (T ++ data) (close_on_error x err c').1 ∧ (close_on_error x err c').2 = (x, err).
Proof.
  intros Ho Hopen ([Hl1 Hl2] & Hok & H). destruct (ord_open _ _ Ho Hopen) as [Hreg Ht]. rewrite Ht in H.
  split; [|by destruct err]. destruct err as [e|]; cbn [close_on_error fst].
  - destruct (close_spec (Some e) c' Hok) as (Hok' & Hc & Hp & Hs); [congruence..|].
    constructor; try done; try congruence. by etrans.
  - destruct H as [Ht' Hpol]. constructor; try done.
    + intros _. split; [congruence|done].
    + congruence.
    + rewrite <- Ht'. apply sent_total.
    + auto.
Qed.

Lemma ordered_left_over T data rest c c' :
  ordered T c → opened c = true → pending (outboundBuffer c) = [] → left_over data rest c c' →
  out_ok c' ∧ pending (outboundBuffer c') = [] ∧ ∀ c2 e, attempted rest c' c2 e → attempted data c c2 e.
Proof.
  intros Ho Hopen Hp (part & -> & Hb & Hs & Hl). unfold out_ok. rewrite Hb. split; [apply Ho|]. split; [done|].
  intros c2 e H. by apply (attempted_rest part rest c c').
Qed.

Lemma attempted_nothing c : out_ok c → pending (outboundBuffer c) = [] → attempted [] c c None.
Proof. intros Hok Hp. split; [done|]. split; [done|]. rewrite app_nil_r. by rewrite Hp. Qed.

Lemma ordered_appended T data c b :
  ordered T c → opened c = true → pending (outboundBuffer c) ≠ [] → out_ok (set_out b c) →
  pending b = pending (outboundBuffer c) ++ data → ordered (T ++ data) (set_out b c).
Proof.
  intros Ho Hopen Hp Hok Hb. destruct (ord_open _ _ Ho Hopen) as [Hreg Ht].
  assert (Ht' : total (set_out b c) = T ++ data) by (unfold total in *; cbn; by rewrite Hb, app_assoc, Ht).
  constructor; try done.
  - cbn. congruence.
  - rewrite <- Ht'. apply sent_total.
  - intros Het _ _. by apply Ho.
Qed.

(** The end of both writes: what was left over is kept, or nothing is. *)
Lemma left_over_ordered T data rest b c c' n :
  ordered T c → opened c = true → pending (outboundBuffer c) = [] → left_over data rest c c' →
  out_ok (set_out b c') → pending b = pending (outboundBuffer c') ++ rest →
  let '(c2, e) := ModReadWrite (set_out b c') in
  ordered (T ++ data) (close_on_error n e c2).1 ∧ (close_on_error n e c2).2 = ((n : Z), e).
Proof.
  intros Ho Hopen Hp Hleft Hb Hpb. pose proof (attempted_polled rest c' b Hb Hpb) as H.
  destruct (ordered_left_over T data rest c c' Ho Hopen Hp Hleft) as (_ & _ & Hatt).
  destruct (ModReadWrite (set_out b c')) as [c2 e]. cbn [fst snd] in H.
  by apply (attempted_ordered n T data c), Hatt.
Qed.

Lemma nothing_left_ordered T data c c' :
  ordered T c → opened c = true → pending (outboundBuffer c) = [] → left_over data [] c c' →
  ordered (T ++ data) c'.
Proof.
  intros Ho Hopen Hp Hleft. destruct (ordered_left_over T data [] c c' Ho Hopen Hp Hleft) as (Hok & Hp' & Hatt).
  by destruct (attempted_ordered () T data c c' None Ho Hopen (Hatt _ _ (attempted_nothing c' Hok Hp'))).
Qed.

Lemma write_ordered T data c :
  ordered T c → opened c = true → len (pending (outboundBuffer c)) + len data <= MaxPending →
  ordered (T ++ data) (write data c).1 ∧ ((write data c).2.2 = None → (write data c).2.1 = len data).
Proof.
  intros Ho Hopen Hl. pose proof (ord_ok _ _ Ho) as Hok. unfold write.
  rewrite (out_IsEmpty_spec c Hok). case_bool_decide as Hp; cbn [negb].
  2: { destruct (out_Write_spec data c Hok Hl) as (b & -> & Hb & Hpb). cbn [fst snd].
       split; [by apply (ordered_appended T data)|done]. }
  rewrite Hp in Hl. cbn [length] in Hl.
  pose proof (conn_write_loop_spec (S (length data)) (len data) data c Hok Hp) as H.
  destruct (write_loop (S (length data)) (len data) data c) as [c' [rest|m e]].
  - destruct H as [Hleft _]; [lia|lia|]. destruct (ordered_left_over T data rest c c' Ho Hopen Hp Hleft) as (Hok' & Hp' & _).
    case_bool_decide as Hr.
    + destruct (out_Write_spec rest c' Hok') as (b & -> & Hb & Hpb).
      { rewrite Hp'. destruct Hleft as (part & -> & _). len_solve. }
      cbn [fst]. pose proof (left_over_ordered T data rest b c c' (len data) Ho Hopen Hp Hleft Hb Hpb) as H.
      destruct (ModReadWrite (set_out b c')) as [c2 e]. destruct H as [H1 ->]. done.
    + assert (rest = []) as -> by (apply len_nil; lia). split; [by apply (nothing_left_ordered T data c)|done].
  - destruct H as [Hm Hatt]; [lia|lia|].
    destruct (attempted_ordered m T data c c' e Ho Hopen Hatt) as [H1 ->]. by split.
Qed.

Lemma writev_ordered T ps c :
  ordered T c → opened c = true → len (pending (outboundBuffer c)) + len (concat ps) <= MaxPending →
  ordered (T ++ concat ps) (writev ps c).1 ∧ ((writev ps c).2.2 = None → (writev ps c).2.1 = len (concat ps)).
Proof.
  intros Ho Hopen Hl. pose proof (ord_ok _ _ Ho) as Hok. unfold writev.
  rewrite (out_IsEmpty_spec c Hok). case_bool_decide as Hp; cbn [negb].
  2: { destruct (out_Writev_spec ps c Hok Hl) as (b & -> & Hb & Hpb). cbn [fst snd].
       split; [by apply (ordered_appended T (concat ps))|done]. }
  rewrite Hp in Hl. cbn [length] in Hl.
  pose proof (conn_writev_loop_spec (S (Z.to_nat (len (concat ps)))) (len (concat ps)) ps c Hok Hp) as H.
  destruct (writev_loop (S (Z.to_nat (len (concat ps)))) (len (concat ps)) (len (concat ps)) ps c)
    as [c' [[remaining rest]|m e]].
  - destruct H as [Hleft ->]; [lia|lia|].
    destruct (ordered_left_over T _ (concat rest) c c' Ho Hopen Hp Hleft) as (Hok' & Hp' & _).
    case_bool_decide as Hr.
    + destruct (out_Writev_spec rest c' Hok') as (b & -> & Hb & Hpb).
      { rewrite Hp'. destruct Hleft as (part & Ep & _). rewrite Ep in *. len_solve. }
      cbn [fst]. pose proof (left_over_ordered T _ (concat rest) b c c' (len (concat ps)) Ho Hopen Hp Hleft Hb Hpb) as H.
      destruct (ModReadWrite (set_out b c')) as [c2 e]. destruct H as [H1 ->]. done.
    + assert (concat rest = []) as Hz.
      { apply len_nil. destruct rest as [|p rest]; [done|]. cbn [length] in Hr. lia. }
      rewrite Hz in Hleft. split; [by apply (nothing_left_ordered T _ c)|done].
  - destruct H as [Hm Hatt]; [lia|lia|].
    destruct (attempted_ordered m T _ c c' e Ho Hopen Hatt) as [H1 ->]. by split.
Qed.

(** ** The event that the socket can be written *)

Lemma write_once_spec c :
  out_ok c → pending (outboundBuffer c) ≠ [] →
  ∃ c' n e, write_once c = Ok (c', (n, e)) ∧ out_ok c' ∧ total c' = total c ∧ same_life c c' ∧
  polled c' = polled c ∧
  (e = None → (length (pending (outboundBuffer c')) < length (pending (outboundBuffer c)))%nat).
Proof.
  intros Hok Hp. destruct (out_Peek_spec c Hok) as [Hc Hne]. destruct (Hne Hp) as (p & ps & Ep & Hpn).
  unfold write_once.
  assert (Hfail : ∀ k, sent k = sent (sock c) → let c' := out_Discard (-1) (set_sock k c) in
    out_ok c' ∧ total c' = total c ∧ same_life c c' ∧ polled c' = polled c).
  { intros k Hk. destruct (sent_and_discarded c k (-1) 0 Hok) as (H1 & H2 & _); [done|lia| |done].
    by rewrite Hk, app_nil_r. }
  assert (Htook : ∀ k n, 0 < n → n <= len (pending (outboundBuffer c)) →
    sent k = sent (sock c) ++ take (Z.to_nat n) (pending (outboundBuffer c)) → let c' := out_Discard n (set_sock k c) in
    out_ok c' ∧ total c' = total c ∧ same_life c c' ∧ polled c' = polled c ∧
    (length (pending (outboundBuffer c')) < length (pending (outboundBuffer c)))%nat).
  { intros k n H0 Hn Hk. destruct (sent_and_discarded c k n (Z.to_nat n) Hok) as (H1 & H2 & H3); [done|lia|done|].
    split_and!; try done. lia. }
  destruct (decide (1 < len (out_Peek c))) as [Hlen|Hlen].
  - rewrite bool_decide_true by done. run.
    destruct (xio_Writev_spec (take iovMax (out_Peek c)) c) as (k & n & [e|] & E & _ & _ & Hs); rewrite E.
    + destruct Hs as [-> Hs]. eexists _, _, _. split; [done|]. by destruct (Hfail k Hs) as (? & ? & ? & ?).
    + destruct Hs as (H0 & H1 & Hpos & Hs). rewrite take_concat, Hc in Hs by done. eexists _, n, None. split; [done|].
      destruct (Htook k n) as (? & ? & ? & ? & ?); [..|by split_and!]; [| |done].
      * apply Hpos. rewrite Ep. unfold iovMax. cbn. by destruct p.
      * etrans; [exact H1|]. rewrite <- Hc. rewrite <- (take_drop iovMax (out_Peek c)) at 2.
        rewrite concat_app, length_app. lia.
  - rewrite bool_decide_false by done. rewrite Ep in *. destruct ps as [|? ?]; [|cbn in Hlen; lia].
    change (index [p] 0) with (Ok p). run. cbn in Hc. rewrite app_nil_r in Hc.
    destruct (unix_Write_spec p c) as (k & n & [e|] & E & _ & _ & Hs); rewrite E.
    + destruct Hs as [-> Hs]. eexists _, _, _. split; [done|]. by destruct (Hfail k Hs) as (? & ? & ? & ?).
    + destruct Hs as (H0 & H1 & Hpos & Hs). rewrite <- Hc in *. eexists _, n, None. split; [done|].
      destruct (Htook k n) as (? & ? & ? & ? & ?); [by apply Hpos|done|done|by split_and!].
Qed.

Lemma ordered_same T c c' :
  ordered T c → opened c = true → out_ok c' → total c' = total c → same_life c c' →
  (pending (outboundBuffer c') ≠ [] → polled c' = polled c ∧ pending (outboundBuffer c) ≠ []) → ordered T c'.
Proof.
  intros Ho Hopen Hok Ht [Hl1 Hl2] Hpol. destruct (ord_open _ _ Ho Hopen) as [Hreg Htot]. constructor; try done.
  - intros _. split; congruence.
  - congruence.
  - rewrite <- Htot, <- Ht. apply sent_total.
  - intros Het _ Hp. destruct (Hpol Hp) as [-> Hp']. by apply Ho.
Qed.

Lemma el_write_loop_spec fuel T s c :
  ordered T c → opened c = true → pending (outboundBuffer c) ≠ [] → (length (pending (outboundBuffer c)) <= fuel)%nat →
  ∃ c' x, el_write_loop (S fuel) s c = Ok (c', x) ∧ ordered T c' ∧ (x = None → opened c' = true) ∧
  ∀ more, el_write_loop (S fuel + more) s c = Ok (c', x).
Proof.
  revert s c; induction fuel as [|fuel IH]; intros s c Ho Hopen Hp Hf.
  { destruct (pending (outboundBuffer c)); [done|cbn in Hf; lia]. }
  destruct (write_once_spec c (ord_ok _ _ Ho) Hp) as (c1 & n & e & E & Hok1 & Ht1 & Hl1 & Hpol1 & Hless).
  assert (Ho1 : ordered T c1) by by apply (ordered_same T c).
  assert (Hopen1 : opened c1 = true) by (destruct Hl1; congruence).
  assert (Hgo : ∀ k, el_write_loop (S k) s c =
    match e with
    | Some e => if decide (e = EAGAIN) then Ok (c1, Some None) else let '(c, e) := close (Some e) c1 in Ok (c, Some e)
    | None => if isET && negb (out_IsEmpty c1) && bool_decide (s + n < chunk)
              then el_write_loop k (s + n) c1 else Ok (c1, None)
    end).
  { intros k. cbn [el_write_loop]. rewrite E. run. by destruct e. }
  cbn [Nat.add]. setoid_rewrite Hgo. destruct e as [e|].
  - destruct (decide (e = EAGAIN)); [by exists c1, (Some None)|].
    destruct (ord_open _ _ Ho1 Hopen1) as [Hreg Ht].
    destruct (close_spec (Some e) c1 Hok1 Hopen1 Hreg) as (H1 & H2 & H3 & H4).
    destruct (close (Some e) c1) as [c2 e2]. cbn [fst] in *. rewrite Ht in H4. exists c2, (Some e2). split; [done|]. split; [|done].
    constructor; try done; try congruence.
  - specialize (Hless eq_refl). destruct (isET && negb (out_IsEmpty c1) && bool_decide (s + n < chunk)) eqn:Eb.
    + apply andb_true_iff in Eb as [[_ Eb]%andb_true_iff _]. rewrite (out_IsEmpty_spec c1 Hok1) in Eb.
      apply negb_true_iff, bool_decide_eq_false in Eb.
      destruct (IH (s + n) c1 Ho1 Hopen1 Eb) as (c' & x & G1 & G2 & G3 & G4); [lia|].
      exists c', x. by split_and!.
    + by exists c1, None.
Qed.

Lemma ordered_read_only T c :
  ordered T c → opened c = true → pending (outboundBuffer c) = [] → ordered T (ModRead c).1.
Proof.
  intros Ho Hopen Hp. pose proof (poller_Mod_spec Read_ c) as H. unfold ModRead.
  destruct (poller_Mod Read_ c) as [c' e]. destruct H as (Hl & Hb & Hs & _). cbn [fst].
  apply (ordered_same T c); try done.
  - unfold out_ok. rewrite Hb. apply Ho.
  - unfold total. by rewrite Hb, Hs.
  - by rewrite Hb.
Qed.

Lemma el_write_ordered T c :
  ordered T c → ∃ c' e, el_write c = Ok (c', e) ∧ ordered T c'.
Proof.
  intros Ho. unfold el_write. rewrite (out_IsEmpty_spec c (ord_ok _ _ Ho)). case_bool_decide as Hp; [by eexists _, _|].
  destruct (opened c) eqn:Hopen; [|by rewrite (ord_closed _ _ Ho Hopen) in Hp].
  rewrite (ob_Buffered_law _ (proj1 (ord_ok _ _ Ho))), Nat2Z.id.
  destruct (el_write_loop_spec _ T 0 c Ho Hopen Hp (le_n _)) as (c' & x & -> & Ho' & Hop & _). run.
  destruct x as [e|]; [by eexists _, _|]. specialize (Hop eq_refl).
  destruct (negb isET && out_IsEmpty c') eqn:Eb.
  - apply andb_true_iff in Eb as [_ Eb]. rewrite (out_IsEmpty_spec c' (ord_ok _ _ Ho')) in Eb.
    apply bool_decide_eq_true in Eb. pose proof (ordered_read_only T c' Ho' Hop Eb) as H.
    destruct (ModRead c') as [c2 e]. by eexists _, _.
  - destruct (isET && negb (out_IsEmpty c')); [|by eexists _, _]. eexists _, _. split; [done|].
    destruct Ho'. by constructor.
Qed.

(** ** Any sequence of calls and events *)

Inductive op := AsyncWrite (data : list Z) | AsyncWritev (ps : list (list Z)) | Writable | CloseConn.

Definition data_of (o : op) : list Z :=
  match o with AsyncWrite data => data | AsyncWritev ps => concat ps | _ => [] end.
Definition exec (o : op) (c : conn) : outcome conn :=
  match o with
  | AsyncWrite data => Ok (asyncWrite data c).1
  | AsyncWritev ps => Ok (asyncWritev ps c).1
  | Writable => '(c, _) ← el_write c; Ok c
  | CloseConn => Ok (close None c).1
  end.
Definition fits (o : op) (c : conn) : Prop := len (pending (outboundBuffer c)) + len (data_of o) <= MaxPending.

(** A connection just opened, with nothing written. *)
Definition fresh_conn (c : conn) : Prop :=
  ob_ok (outboundBuffer c) ∧ pending (outboundBuffer c) = [] ∧ opened c = true ∧ registered c = true ∧
  sent (sock c) = [].

Inductive runs : list Z → conn → Prop :=
  | runs_start c : fresh_conn c → runs [] c
  | runs_step T c o c' : runs T c → fits o c → exec o c = Ok c' → runs (T ++ data_of o) c'.

Lemma ordered_more T data c : opened c = false → ordered T c → ordered (T ++ data) c.
Proof. intros Hc [? ? ? ? ?]. constructor; try done; [congruence|]. by apply prefix_app_r. Qed.

Lemma exec_ordered T o c : ordered T c → fits o c → ∃ c', exec o c = Ok c' ∧ ordered (T ++ data_of o) c'.
Proof.
  intros Ho Hf. destruct o as [data|ps| |]; cbn [exec data_of] in *.
  - unfold asyncWrite. destruct (opened c) eqn:Hopen; cbn [negb]; [|eexists; split; [done|by apply ordered_more]].
    destruct (write_ordered T data c Ho Hopen Hf) as [H _]. destruct (write data c) as [c' [n e]].
    by eexists.
  - unfold asyncWritev. destruct (opened c) eqn:Hopen; cbn [negb]; [|eexists; split; [done|by apply ordered_more]].
    destruct (writev_ordered T ps c Ho Hopen Hf) as [H _]. destruct (writev ps c) as [c' [n e]].
    by eexists.
  - rewrite app_nil_r. destruct (el_write_ordered T c Ho) as (c' & e & -> & H). run. by eexists.
  - rewrite app_nil_r. eexists. split; [done|].
    destruct (opened c) eqn:Hopen; [|by rewrite close_idle by auto].
    destruct (ord_open _ _ Ho Hopen) as [Hreg Ht].
    destruct (close_spec None c (ord_ok _ _ Ho) Hopen Hreg) as (H1 & H2 & H3 & H4). rewrite Ht in H4.
    constructor; try done; try congruence.
Qed.

Lemma runs_ordered T c : runs T c → ordered T c.
Proof.
  intros H. induction H as [c (Hok & Hp & Hopen & Hreg & Hs)|T c o c' _ IH Hf E].
  - constructor.
    + split; [done|]. by rewrite Hp.
    + intros _. split; [done|]. unfold total. by rewrite Hs, Hp.
    + done.
    + by rewrite Hs.
    + by rewrite Hp.
  - destruct (exec_ordered T o c IH Hf) as (c2 & E2 & H). congruence.
Qed.


(** Nothing that waits is forgotten: in the level-triggered mode an open
    connection that has bytes to send is always registered for the event that it
    can be written. *)
Theorem waiting_is_polled T c :
  runs T c → isET = false → opened c = true → pending (outboundBuffer c) ≠ [] → polled c = Some ReadWrite.
Proof. intros H%runs_ordered. by apply H. Qed.

(** The loop in which a connection being closed writes out what is left ends:
    there is a turn for every byte that waits at most, whatever fuel there is
    beyond that changes nothing; and it stops only when all has been sent or the
    kernel refuses. *)
Theorem closing_ends c more :
  out_ok c →
  let fuel := S (Z.to_nat (ob_Buffered (outboundBuffer c))) in
  let c' := flush_loop fuel c in
  flush_loop (fuel + more) c = c' ∧
  (sent (sock c') = total c ∨
   ∃ c1 n e, xio_Writev (take iovMax (out_Peek c1)) c1 = (c', (n, Some e))).
Proof.
  intros Hok fuel c'. destruct (flush_loop_spec fuel c Hok) as (_ & Ht & Hend & Hmore).
  { unfold fuel. rewrite (ob_Buffered_law _ (proj1 Hok)). lia. }
  fold c' in Ht, Hend. split; [apply Hmore|]. destruct Hend as [Hp|H]; [left|by right].
  rewrite <- Ht. unfold total. by rewrite Hp, app_nil_r.
Qed.

(** ** What is read *)

Lemma InboundBuffered_spec c : in_ok c → InboundBuffered c = len (unread c).
Proof. intros H. unfold InboundBuffered, unread. rewrite ElasticRing.ering_Buffered_spec by done. len_solve. Qed.

Lemma copy_buffer_spec k c :
  copy_buffer k c = (set_buffer (drop (Z.to_nat k) (buffer c)) c, take (Z.to_nat k) (buffer c)).
Proof.
  unfold copy_buffer. do 2 f_equal. rewrite length_take. destruct (decide (Z.to_nat k <= length (buffer c))%nat).
  - by rewrite Nat.min_l.
  - rewrite Nat.min_r by lia. by rewrite drop_all, drop_ge by lia.
Qed.

Lemma conn_Read_spec k c :
  in_ok c → 0 <= k →
  ∃ c', Read k c = (c', (take (Z.to_nat k) (unread c),
    if bool_decide (unread c = [] ∧ 0 < k) then Some ErrShortBuffer else None)) ∧
  in_ok c' ∧ unread c' = drop (Z.to_nat k) (unread c).
Proof.
  intros H Hk. unfold Read. rewrite ElasticRing.ering_IsEmpty_spec by done. unfold unread.
  set (rc := ElasticRing.contents (inboundBuffer c)) in *. case_bool_decide as He.
  - rewrite copy_buffer_spec, He. cbn [app]. exists (set_buffer (drop (Z.to_nat k) (buffer c)) c).
    split; [|split; [done|]].
    + rewrite (bool_decide_ext (len (take (Z.to_nat k) (buffer c)) = 0 ∧ 0 < k) (buffer c = [] ∧ 0 < k)); [done|].
      split; intros [H1 H2]; (split; [|done]).
      * apply len_nil. rewrite length_take in H1. lia.
      * by rewrite H1, take_nil.
    + unfold unread. cbn. fold rc. by rewrite He.
  - destruct (ElasticRing.ering_Read_spec k (inboundBuffer c) H Hk) as (rb' & x & -> & Hr' & Hc' & Hx). fold rc in Hc', Hx.
    destruct Hx as [->|[_ Hz]]; [|done]. cbn [val_of].
    assert (Hl : len (take (Z.to_nat k) rc) = Z.min k (len rc)) by len_solve. rewrite Hl.
    assert (Hne : ∀ b, rc ++ b ≠ []) by (intros b Hz; by apply app_nil in Hz as [Hz _]).
    rewrite (bool_decide_false (_ ∧ 0 < k)) by (intros [Hz _]; by apply Hne in Hz).
    case_bool_decide as Hmin.
    + exists (set_in rb' c). split; [|split; [done|]].
      * do 2 f_equal. by rewrite take_app_le by lia.
      * unfold unread. cbn. by rewrite Hc', drop_app_le by lia.
    + rewrite copy_buffer_spec.
      exists (set_buffer (drop (Z.to_nat (k - len rc)) (buffer c)) (set_in rb' c)). assert (len rc < k) by lia. rewrite Z.min_r in * by lia.
      assert (Ek : (Z.to_nat k - length rc)%nat = Z.to_nat (k - len rc)) by lia.
      split; [|split; [done|]].
      * cbn [buffer set_in]. by rewrite (take_ge rc), take_app_ge, Ek by lia.
      * unfold unread. cbn. rewrite Hc', (drop_ge rc), drop_app_ge by lia. cbn. f_equal. lia.
Qed.

(** The number of bytes that [Next] and [Peek] of [n] mean. *)
Definition meant (n : Z) (l : list Z) : nat := if bool_decide (n <= 0) then length l else Z.to_nat n.

Lemma asked_spec n c :
  in_ok c → asked n c = if bool_decide (len (unread c) < n) then None else Some (Z.of_nat (meant n (unread c))).
Proof.
  intros H. unfold asked, meant. rewrite (InboundBuffered_spec c H). case_bool_decide; [done|].
  case_bool_decide; f_equal; lia.
Qed.

Lemma conn_Next_spec n c :
  (∀ m, 0 <= m → len (fresh m) = m) → in_ok c → n <= len (unread c) →
  ∃ c', Next n c = (c', Ok (take (meant n (unread c)) (unread c), None)) ∧ in_ok c' ∧
  unread c' = drop (meant n (unread c)) (unread c).
Proof.
  intros Hf H Hn. unfold Next. rewrite asked_spec, bool_decide_false by (done || lia).
  set (m := meant n (unread c)) in *.
  assert (Hm : Z.of_nat m <= len (unread c)) by (unfold m, meant; case_bool_decide; lia).
  rewrite ElasticRing.ering_IsEmpty_spec by done. case_bool_decide as He.
  - unfold unread in *. rewrite He in *. cbn [app] in *. rewrite Nat2Z.id.
    exists (set_buffer (drop m (buffer c)) c). split; [|split; [done|]].
    + f_equal. rewrite slice_Ok by lia. run. do 2 f_equal. rewrite Z.sub_0_r, Nat2Z.id. done.
    + unfold unread. cbn. by rewrite He.
  - destruct (conn_Read_spec (Z.of_nat m) c H) as (c' & -> & Hok & Hu); [lia|]. rewrite Nat2Z.id in *.
    exists c'. split; [|done]. f_equal. rewrite bool_decide_false.
    + do 2 f_equal. rewrite drop_ge; [by rewrite app_nil_r|]. pose proof (Hf (Z.of_nat m)).
      rewrite length_take. lia.
    + intros [Hz _]. unfold unread in Hz. by apply app_nil in Hz as [Hz _].
Qed.

Lemma conn_Peek_spec n c :
  in_ok c → n <= len (unread c) →
  ∃ c', Peek n c = (c', Ok (take (meant n (unread c)) (unread c))) ∧ in_ok c' ∧ unread c' = unread c.
Proof.
  intros H Hn. unfold Peek. rewrite asked_spec, bool_decide_false by (done || lia).
  set (m := meant n (unread c)) in *.
  assert (Hm : Z.of_nat m <= len (unread c)) by (unfold m, meant; case_bool_decide; lia).
  rewrite ElasticRing.ering_IsEmpty_spec by done. unfold unread in *. case_bool_decide as He.
  - rewrite He in *. cbn [app] in *. exists c. rewrite He. split; [|done]. f_equal.
    rewrite slice_Ok by lia. by rewrite Z.sub_0_r, Nat2Z.id.
  - set (rc := ElasticRing.contents (inboundBuffer c)) in *.
    assert (0 < Z.of_nat m).
    { unfold m, meant. case_bool_decide; [|lia]. apply nonempty_len in He. rewrite length_app. lia. }
    destruct (ElasticRing.ering_Peek_spec (Z.of_nat m) (inboundBuffer c) H) as (h & t & -> & Ep). fold rc in Ep.
    rewrite bool_decide_false, Nat2Z.id in Ep by lia. rewrite ElasticRing.ering_Buffered_spec by done. fold rc.
    case_bool_decide as Hh.
    { exists c. split; [|done]. do 2 f_equal.
      assert (Hlen : length (h ++ t) = Nat.min m (length rc)) by (by rewrite Ep, length_take).
      rewrite length_app in Hlen. assert (t = []) as -> by (apply len_nil; lia).
      rewrite app_nil_r in Ep. rewrite Ep. rewrite length_app in Hm. rewrite take_app_le by lia. done. }
    case_bool_decide as Hb.
    { exists c. split; [|done]. do 2 f_equal. by rewrite Ep, take_app_le by lia. }
    rewrite length_app in Hm. rewrite slice_Ok by lia. change (drop (Z.to_nat 0) (buffer c)) with (buffer c). rewrite Z.sub_0_r.
    assert (Eb : (h ++ t) ++ take (Z.to_nat (Z.of_nat m - len rc)) (buffer c) = take m (rc ++ buffer c)).
    { rewrite Ep, (take_ge rc), take_app_ge by lia. do 2 f_equal. lia. }
    rewrite Eb. by exists (set_cache (take m (rc ++ buffer c)) c).
Qed.

Lemma conn_Discard_spec n c :
  in_ok c →
  ∃ c', Discard n c = (c', if bool_decide (n <= 0) then len (unread c) else Z.min n (len (unread c))) ∧
  in_ok c' ∧ unread c' = drop (meant n (unread c)) (unread c).
Proof.
  intros H. unfold Discard. cbn [inboundBuffer buffer set_cache].
  pose proof (InboundBuffered_spec c H) as Hl. unfold InboundBuffered in Hl. rewrite Hl.
  unfold meant. case_bool_decide as Hall.
  - exists (resetBuffer (set_cache [] c)). split_and!; [|done|].
    + f_equal. case_bool_decide; lia.
    + unfold unread. cbn. symmetry. apply nil_length_inv. rewrite length_drop. unfold unread in *. case_bool_decide; lia.
  - rewrite !(bool_decide_false (n <= 0)) by lia. rewrite Z.min_l by lia.
    rewrite ElasticRing.ering_IsEmpty_spec by done. unfold unread in *. case_bool_decide as He.
    + eexists. split; [done|]. split; [done|]. unfold unread. cbn. by rewrite He.
    + rewrite ElasticRing.ering_Buffered_spec in * by done. set (rc := ElasticRing.contents (inboundBuffer c)) in *.
      destruct (ElasticRing.ering_Discard_spec n (inboundBuffer c) H) as (rb' & e & -> & Hr' & Hc'). fold rc in Hc' |- *.
      case_bool_decide as Hd.
      * eexists. split; [f_equal; lia|]. split; [done|]. unfold unread. cbn. by rewrite Hc', drop_app_le by lia.
      * eexists. split; [done|]. split; [done|]. unfold unread. cbn.
        rewrite Hc', (drop_ge rc), drop_app_ge by lia. cbn. f_equal. lia.
Qed.

(** What a connection has received and the handler not yet taken is one queue
    of bytes, wherever they are, in the inbound ring or in the last read:
    [Read], [Next], [Peek] and [Discard] give what is first in it, take it off or
    leave it, and fail, [Next] and [Peek] with nothing changed, only when there
    is less than was asked for. *)
Theorem inbound_is_a_queue c :
  (∀ m, 0 <= m → len (fresh m) = m) → in_ok c →
  (∀ k, 0 <= k → ∃ c', Read k c = (c', (take (Z.to_nat k) (unread c),
     if bool_decide (unread c = [] ∧ 0 < k) then Some ErrShortBuffer else None)) ∧
   in_ok c' ∧ unread c' = drop (Z.to_nat k) (unread c)) ∧
  (∀ n, n <= len (unread c) → let m := meant n (unread c) in
   (∃ c', Next n c = (c', Ok (take m (unread c), None)) ∧ in_ok c' ∧ unread c' = drop m (unread c)) ∧
   (∃ c', Peek n c = (c', Ok (take m (unread c))) ∧ in_ok c' ∧ unread c' = unread c)) ∧
  (∀ n, len (unread c) < n → Next n c = (c, Err ErrShortBuffer) ∧ Peek n c = (c, Err ErrShortBuffer)) ∧
  (∀ n, ∃ c', Discard n c = (c', if bool_decide (n <= 0) then len (unread c) else Z.min n (len (unread c))) ∧
   in_ok c' ∧ unread c' = drop (meant n (unread c)) (unread c)).
Proof.
  intros Hf H. split_and!.
  - intros k Hk. by apply conn_Read_spec.
  - intros n Hn m. split; [by apply conn_Next_spec|by apply conn_Peek_spec].
  - intros n Hn. unfold Next, Peek. by rewrite (asked_spec n c H), bool_decide_true by done.
  - intros n. by apply conn_Discard_spec.
Qed.

(** ** The event that the socket can be read *)

Context (pooled_empty : Ring.rep pooled []) (fresh_len : ∀ n, 0 <= n → len (fresh n) = n)
  (cap_pos : 0 < read_cap).

Definition small (c : conn) : Prop :=
  ElasticRing.ring_size pooled (inboundBuffer c) <= 2 ^ 32 ∧ len (unread c) <= 2 ^ 31.

(** The handler takes what it takes from the front, leaves 2 GB at most, does not
    read the socket itself and opens nothing. *)
Context (OnTraffic_law : ∀ c, let c' := (OnTraffic c).1 in
  arrived (sock c') = arrived (sock c) ∧ (reads_left (sock c') <= reads_left (sock c))%nat ∧
  (opened c' = true → opened c = true) ∧
  (opened c' = true → in_ok c → ElasticRing.ring_size pooled (inboundBuffer c) <= 2 ^ 32 →
   in_ok c' ∧ small c' ∧ ∃ used, unread c = used ++ unread c')).

Lemma unix_Read_spec m c :
  0 <= m →
  ∃ k d e, unix_Read m c = (set_sock k c, (d, e)) ∧ arrived k = arrived (sock c) ++ d ∧
  (e ≠ None → d = []) ∧ (d ≠ [] → (reads_left k < reads_left (sock c))%nat) ∧
  (reads_left k <= reads_left (sock c))%nat.
Proof.
  intros Hm. unfold unix_Read. pose proof (sys_read_law m (sock c)) as H.
  destruct (sys_read m (sock c)) as [k [d e]]. exists k, d, e. by destruct H as (_ & _ & ? & ? & ? & ?).
Qed.

Lemma keep_rest_spec c :
  in_ok c → small c →
  in_ok (keep_rest c) ∧ small (keep_rest c) ∧ unread (keep_rest c) = unread c ∧ buffer (keep_rest c) = [].
Proof.
  intros H [Hs Hl]. unfold keep_rest. unfold unread in Hl. rewrite length_app in Hl.
  destruct (ElasticRing.ering_Write_spec pooled fresh pooled_empty fresh_len (inboundBuffer c) (buffer c) H)
    as (b' & -> & Hwf & Hc & Hsz); [lia|].
  unfold small, unread, in_ok. cbn [fst inboundBuffer buffer set_buffer set_in]. rewrite Hc, app_nil_r.
  unfold DefaultBufferSize in Hsz. split_and!; [done|lia|rewrite length_app; lia|done|done].
Qed.

(** Since [c0], so long as the connection is open. *)
Definition received (c0 c : conn) : Prop :=
  opened c = true →
  in_ok c ∧ small c ∧ ∃ d used, arrived (sock c) = arrived (sock c0) ++ d ∧ unread c0 ++ d = used ++ unread c.

Lemma close_opened e c : opened (close e c).1 = false ∨ (close e c).1 = c.
Proof.
  unfold close. destruct (negb (opened c) || negb (registered c)); [by right|].
  destruct (OnClose e (set_registered false c)) as [c1 a].
  set (c2 := flush_loop _ c1). destruct (sys_delete (sock (release c2))) as [k1 e1].
  destruct (sys_close k1) as [k2 e2]. left. by destruct e1, e2.
Qed.

Lemma close_received e c0 c : received c0 c → received c0 (close e c).1.
Proof. intros H. destruct (close_opened e c) as [Hc| ->]; [|done]. by intros Ho; rewrite Hc in Ho. Qed.

(** A read, then the handler. *)
Lemma handled_received c0 c k d :
  received c0 c → (opened c = true → buffer c = []) → arrived k = arrived (sock c) ++ d →
  received c0 (OnTraffic (set_buffer d (set_sock k c))).1.
Proof.
  intros Hrec Hbuf Hk Ho. destruct (OnTraffic_law (set_buffer d (set_sock k c))) as (Ha & _ & Hop & Hlaw).
  specialize (Hop Ho). cbn [opened set_buffer set_sock] in Hop. specialize (Hbuf Hop).
  destruct (Hrec Hop) as (Hin & [Hs1 Hs2] & d0 & used & Had & Hu).
  destruct (Hlaw Ho Hin Hs1) as (Hin' & Hs' & used' & Hu').
  split; [done|]. split; [done|]. exists (d0 ++ d), (used ++ used'). split.
  - by rewrite Ha, app_assoc, <- Had.
  - unfold unread in Hu at 2. rewrite Hbuf, app_nil_r in Hu. unfold unread in Hu' at 1. cbn [inboundBuffer buffer set_buffer set_sock] in Hu'.
    by rewrite app_assoc, Hu, <- !app_assoc, Hu'.
Qed.

Lemma el_read_loop_spec fuel recv c0 c :
  (reads_left (sock c) < fuel)%nat → received c0 c → (opened c = true → buffer c = []) →
  received c0 (el_read_loop fuel recv c).1 ∧
  ∀ more, el_read_loop (fuel + more) recv c = el_read_loop fuel recv c.
Proof.
  revert recv c; induction fuel as [|fuel IH]; intros recv c Hf Hrec Hbuf; [lia|].
  destruct (unix_Read_spec read_cap c) as (k & d & e & E & Ha & He & Hd & Hle); [lia|].
  cbn [el_read_loop Nat.add]. rewrite E. case_bool_decide as Hstop.
  - assert (d = []) as -> by (destruct Hstop as [Hs| ->]; [by apply He|done]). rewrite app_nil_r in Ha.
    assert (Hr : received c0 (set_sock k c)).
    { intros Ho. destruct (Hrec Ho) as (H1 & H2 & d & used & H3 & H4). split; [done|]. split; [done|].
      exists d, used. split; [cbn; by rewrite Ha|done]. }
    destruct (decide (e = Some EAGAIN)); [done|].
    set (err := Some (match e with Some e => e | None => EOF end)).
    pose proof (close_received err c0 (set_sock k c) Hr) as Hc. by destruct (close err (set_sock k c)).
  - assert (d ≠ []) as Hdn by (intros Hz; apply Hstop; by right). specialize (Hd Hdn).
    pose proof (handled_received c0 c k d Hrec Hbuf Ha) as Hr.
    destruct (OnTraffic_law (set_buffer d (set_sock k c))) as (_ & Hleft & _ & _).
    destruct (OnTraffic (set_buffer d (set_sock k c))) as [c1 action]. cbn [fst] in Hr, Hleft. cbn [sock set_buffer set_sock] in Hleft.
    destruct action; [| |done].
    + assert (Hrk : received c0 (keep_rest c1)).
      { intros Ho. destruct (Hr Ho) as (H1 & H2 & d' & used & H3 & H4).
        destruct (keep_rest_spec c1 H1 H2) as (K1 & K2 & K3 & _). split; [done|]. split; [done|].
        exists d', used. split; [exact H3|by rewrite K3]. }
      destruct (isEOF (keep_rest c1) || isET && bool_decide (recv + len d < chunk)); [|done].
      apply IH; [|done|done]. cbn [sock keep_rest set_buffer set_in]. lia.
    + pose proof (close_received None c0 c1 Hr) as Hc. by destruct (close None c1).
Qed.

(** What arrives on a connection is not lost and not reordered, in any number
    of reads of one event, level- or edge-triggered: so long as the connection
    stays open, what was unread and what the kernel gave is what the handler
    took, from the front, and what is unread now; and the event ends, with a
    turn at most for every read that the kernel answers. *)
Theorem reading_keeps_order c more :
  in_ok c → small c → (opened c = true → buffer c = []) →
  received c (el_read c).1 ∧
  (let fuel := S (reads_left (sock c)) in el_read_loop (fuel + more) 0 c = el_read_loop fuel 0 c).
Proof.
  intros Hin Hs Hbuf.
  assert (Hrec : received c c).
  { intros _. split; [done|]. split; [done|]. exists [], []. by rewrite !app_nil_r. }
  destruct (el_read_loop_spec (S (reads_left (sock c))) 0 c c) as [H Hmore]; [lia|done|done|].
  split; [|apply Hmore]. unfold el_read. destruct (opened c) eqn:Ho; cbn [negb]; [|done].
  destruct (el_read_loop (S (reads_left (sock c))) 0 c) as [c' [recv [e|]]]; [done|]. cbn [fst] in H.
  by destruct (isET && bool_decide (chunk <= recv)).
Qed.
End conn.

(** ** Streams

    [ReadFrom] fills the outbound buffer, [WriteTo] empties the inbound side. *)
Section streams.
Context {B : Type} {K : Type} {R : Type} {RD : IoReader R} {W : Type} {WR : IoWriter W}.

Definition ReadFrom (pooled : Ring.XBuffer) (fresh : Z → list Z) (fuel : nat)
    (c : conn (B := Elastic.XBuffer) (K := K)) (rd : R)
    : conn * R * outcome (option (Z * option error)) :=
  let '((b, rd), x) := Elastic.ReadFrom pooled fresh fuel (outboundBuffer c, rd) in (set_out b c, rd, x).

(** The rest of [WriteTo], after the ring. *)
Definition write_buffer (n : Z) (c : conn (B := B) (K := K)) (wr : W) : conn * W * outcome (Z * option error) :=
  let '(wr, (m, err)) := io_Write (buffer c) wr in
  match slice_from (buffer c) m with
  | Ok rest => (set_buffer rest c, wr, Ok (n + m, err))
  | _ => (c, wr, Panic)
  end.
Definition WriteTo (c : conn (B := B) (K := K)) (wr : W) : conn * W * outcome (Z * option error) :=
  if ElasticRing.IsEmpty (inboundBuffer c) then write_buffer 0 c wr else
  let '((rb, wr), x) := ElasticRing.WriteTo (inboundBuffer c, wr) in
  let c := set_in rb c in
  match x with
  | Ok (n, None) => write_buffer n c wr
  | x => (c, wr, x)
  end.

(** Out of the inbound side: what goes to the writer is what is first in it, what
    stays is the rest, but for what the ring may forget of itself. *)
Lemma conn_WriteTo_spec (c : conn (B := B) (K := K)) (wr : W) :
  in_ok c →
  ∃ c' wr' n e lost, WriteTo c wr = (c', wr', Ok (n, e)) ∧ in_ok c' ∧ 0 <= n <= len (unread c) ∧
  taken wr' = taken wr ++ take (Z.to_nat n) (unread c) ∧
  drop (Z.to_nat n) (unread c) = lost ++ unread c' ∧ (e = None → n = len (unread c)).
Proof.
  intros Hin.
  assert (Hbuf : ∀ (c : conn (B := B) (K := K)) wr n, ∃ c' wr' m e,
    write_buffer n c wr = (c', wr', Ok (n + m, e)) ∧ inboundBuffer c' = inboundBuffer c ∧
    0 <= m <= len (buffer c) ∧ taken wr' = taken wr ++ take (Z.to_nat m) (buffer c) ∧
    buffer c' = drop (Z.to_nat m) (buffer c) ∧ (e = None → m = len (buffer c))).
  { clear. intros c wr n. unfold write_buffer. pose proof (io_Write_law (buffer c) wr) as H.
    destruct (io_Write (buffer c) wr) as [wr' [m e]]. destruct H as (H0 & H1 & H2 & H3).
    rewrite slice_from_Ok by lia. eexists _, wr', m, e. by split_and!. }
  unfold WriteTo. rewrite ElasticRing.ering_IsEmpty_spec by done. unfold unread. case_bool_decide as He.
  - destruct (Hbuf c wr 0) as (c' & wr' & m & e & -> & Hi & Hm & Ht & Hb & Hn).
    exists c', wr', m, e, []. unfold in_ok in *. rewrite Hi, Hb, He. cbn [app]. by split_and!; try apply Hm.
  - set (rc := ElasticRing.contents (inboundBuffer c)) in *.
    destruct (ring_WriteTo_spec (inboundBuffer c) wr Hin He) as (b' & wr1 & n & e & lost & -> & Hwf & H0 & H1 & Ht & Hd & Hn).
    fold rc in H1, Ht, Hd, Hn. destruct e as [e|].
    + exists (set_in b' c), wr1, n, (Some e), lost. split_and!; try done; cbn.
      * rewrite length_app. lia.
      * by rewrite take_app_le by lia.
      * by rewrite drop_app_le, Hd, app_assoc by lia.
    + specialize (Hn eq_refl). subst n. rewrite Nat2Z.id, firstn_all in Ht. rewrite Nat2Z.id, drop_all in Hd.
      symmetry in Hd. apply app_nil in Hd as [-> Hb'].
      destruct (Hbuf (set_in b' c) wr1 (len rc)) as (c' & wr2 & m & e & -> & Hi & Hm & Ht2 & Hb2 & Hn2).
      cbn [inboundBuffer buffer set_in] in *.
      assert (Em : Z.to_nat (len rc + m) = (length rc + Z.to_nat m)%nat) by lia.
      exists c', wr2, (len rc + m), e, []. unfold in_ok. rewrite Hi, Hb2, Hb', Em, length_app. split_and!; try done; try lia.
      * by rewrite Ht2, Ht, <- app_assoc, firstn_app_2.
      * by rewrite <- drop_drop, drop_app_length.
      * intros Hz. rewrite (Hn2 Hz). lia.
Qed.
End streams.

(** ** The elastic buffer keeps what is asked of an outbound buffer *)
Section elastic.
Context (pooled : Ring.XBuffer) (fresh : Z → list Z).
Context (pooled_empty : Ring.rep pooled []) (fresh_len : ∀ n, 0 <= n → len (fresh n) = n)
  (pooled_small : Ring.size pooled <= 2 ^ 32).

Definition elastic_ok (b : Elastic.XBuffer) : Prop :=
  Elastic.wf b ∧ Elastic.solid b ∧ ElasticRing.ring_size pooled (ringBuffer b) <= 2 ^ 32.

Lemma roof_small n b b' :
  roof pooled 0 b' <= roof pooled n b → len (Elastic.contents b) + n <= MaxPending →
  ElasticRing.ring_size pooled (ringBuffer b) <= 2 ^ 32 → ElasticRing.ring_size pooled (ringBuffer b') <= 2 ^ 32.
Proof. unfold roof, MaxPending, MaxInt32, DefaultBufferSize. lia. Qed.

#[export, refine] Instance elastic_outbound : OutboundBuffer Elastic.XBuffer := {
  ob_Write := Elastic.Write pooled fresh;
  ob_Writev := Elastic.Writev pooled fresh;
  ob_PeekAll := Elastic.Peek MaxInt32;
  ob_Discard := Elastic.Discard;
  ob_IsEmpty := Elastic.IsEmpty;
  ob_Buffered := Elastic.Buffered;
  ob_Release := Elastic.Release;
  pending := Elastic.contents;
  ob_ok := elastic_ok;
}.
Proof.
  - intros p b (Hwf & Hs & Hr) Hl.
    destruct (Elastic.elastic_Write_spec pooled fresh pooled_empty fresh_len p b Hwf) as (b' & -> & H1 & H2 & H3 & H4).
    { unfold roof, MaxPending, MaxInt32, DefaultBufferSize in *. lia. }
    exists b'. split; [done|]. split; [|exact H2]. split; [done|]. split; [by apply H3|]. apply (roof_small (len p) b); [|done|done].
    specialize (H4 0 ltac:(lia)). by rewrite Z.add_0_r in H4.
  - intros ps b (Hwf & Hs & Hr) Hl.
    destruct (Elastic.Writev_spec pooled fresh pooled_empty fresh_len ps b Hwf) as (b' & -> & H1 & H2 & H3 & H4).
    { unfold roof, MaxPending, MaxInt32, DefaultBufferSize in *. lia. }
    exists b'. split; [done|]. split; [|exact H2]. split; [done|]. split; [by apply H3|].
    apply (roof_small (len (concat ps)) b); [|done|done].
    specialize (H4 0 ltac:(lia)). by rewrite Z.add_0_r in H4.
  - intros b (Hwf & Hs & Hr) Hl. unfold MaxPending in Hl.
    destruct (Elastic.Peek_all b Hwf) as (out & E & Hc); [lia|]. exists out. split; [done|]. split; [done|].
    apply (Elastic.Peek_all_some b out); try done. lia.
  - intros n b (Hwf & Hs & Hr). destruct (Elastic.elastic_Discard_spec n b Hwf) as (b' & e & E & H1 & H2 & H3).
    exists b', (Z.max 0 (Z.min n (len (Elastic.contents b))), e). split; [done|]. split; [|done].
    split_and!; [done|by apply H3|]. pose proof (Elastic.Discard_size pooled n b Hwf) as H. rewrite E in H. cbn in H. lia.
  - intros b (Hwf & Hs & _). by apply Elastic.elastic_IsEmpty_spec.
  - intros b (Hwf & _). by apply Elastic.elastic_Buffered_spec.
  - intros b (Hwf & _). split; [|done]. split_and!; [done|by constructor|exact pooled_small].
Defined.
End elastic.

(** ** Examples

    A kernel that answers writes with the counts or errors it is told, and then
    takes everything, and that gives the reads it is told, and then none. *)
Record script := mkScript { s_sent : list Z; s_arrived : list Z; answers : list (Z + error); chunks_ : list (list Z) }.

Definition script_write (p : list Z) (s : script) : script * (Z * option error) :=
  match answers s with
  | inr e :: l => (mkScript (s_sent s) (s_arrived s) l (chunks_ s), (-1, Some e))
  | l =>
      let n := match l with inl n :: _ => Z.min (len p) (Z.max 1 n) | _ => len p end in
      (mkScript (s_sent s ++ take (Z.to_nat n) p) (s_arrived s) (tail l) (chunks_ s), (n, None))
  end.
Definition script_read (m : Z) (s : script) : script * (list Z * option error) :=
  match chunks_ s with
  | [] => (s, ([], Some EAGAIN))
  | d :: l =>
      let d := take (Z.to_nat m) d in
      (mkScript (s_sent s) (s_arrived s ++ d) (answers s) l, (d, None))
  end.

Lemma script_write_law p s :
  let '(s', (n, e)) := script_write p s in
  s_arrived s' = s_arrived s ∧ length (chunks_ s') = length (chunks_ s) ∧
  match e with
  | None => 0 <= n ∧ n <= len p ∧ (p ≠ [] → 0 < n) ∧ s_sent s' = s_sent s ++ take (Z.to_nat n) p
  | Some _ => n = -1 ∧ s_sent s' = s_sent s
  end.
Proof.
  assert (Hp : p ≠ [] → 0 < len p) by apply nonempty_len.
  unfold script_write. destruct (answers s) as [|[n|e] l]; cbn; split_and!; try done; try lia; intros H; specialize (Hp H); lia.
Qed.

(** writev(2): more than [IOV_MAX] slices are an invalid argument. *)
Definition EINVAL : error := ErrConn 22.
Definition script_writev (ps : list (list Z)) (s : script) : script * (Z * option error) :=
  if bool_decide (1024 < len ps) then (s, (-1, Some EINVAL)) else script_write (concat ps) s.

#[export, refine] Instance script_socket : Socket script := {
  sys_write := script_write;
  sys_writev := script_writev;
  sys_read := script_read;
  sys_mod _ s := (s, None);
  sys_add _ s := (s, None);
  sys_delete s := (s, None);
  sys_close s := (s, None);
  sent := s_sent;
  arrived := s_arrived;
  reads_left s := length (chunks_ s);
}.
Proof.
  - intros p s. apply script_write_law.
  - intros ps s. unfold script_writev. case_bool_decide; [done|]. apply script_write_law.
  - intros m s Hm. unfold script_read. destruct (chunks_ s) as [|d l] eqn:E; cbn; rewrite ?E.
    + rewrite app_nil_r. split_and!; done || lia.
    + split_and!; try done; try lia. len_solve.
  - done.
  - done.
  - done.
  - done.
Defined.

(** The connection of an elastic buffer that keeps four bytes in its ring, with
    the ring and the blocks of Ring.v's examples. *)
Definition small_out : OutboundBuffer Elastic.XBuffer := elastic_outbound no_ring zeros no_ring_empty zeros_len ltac:(done).
Definition econn : Type := conn (B := Elastic.XBuffer) (K := script).
Definition conn_of (k : script) : econn :=
  mkConn true false fresh_elastic None [] [] true (Some Read_) [] k.
Definition silent : option error → econn → econn * Action := λ _ c, (c, None_).

Lemma conn_of_fresh answers chunks : fresh_conn (OB := small_out) (conn_of (mkScript [] [] answers chunks)).
Proof. split_and!; try done. split; [done|]. split; [by constructor|done]. Qed.

(** The kernel takes two bytes, is full, then takes one, then all. *)
Definition slow : script := mkScript [] [] [inl 2; inr EAGAIN; inl 1] [].
Definition run_ops (et : bool) (os : list op) (c : econn) : outcome econn :=
  foldl (λ (x : outcome econn) o, c ← x; exec (OB := small_out) et 100 silent o c) (Ok c) os.
Lemma slow_run :
  match run_ops true [AsyncWrite [1; 2; 3; 4; 5; 6]; AsyncWritev [[7]; [8; 9]]; Writable] (conn_of slow) with
  | Ok c => s_sent (sock c) = [1; 2; 3; 4; 5; 6; 7; 8; 9] ∧ Elastic.contents (outboundBuffer c) = []
  | _ => False
  end.
Proof. by vm_compute. Qed.

(** [OnOpen] writes three bytes, for which there is no room yet, and returns
    another, which is sent at once: it overtakes them. *)
Lemma open_overtakes :
  let OnOpen := λ c : econn, ((write (OB := small_out) false silent [1; 2; 3] c).1, (Some [9], None_)) in
  let c := (el_open (OB := small_out) false OnOpen silent (conn_of (mkScript [] [] [inr EAGAIN] []))).1 in
  s_sent (sock c) = [9] ∧ Elastic.contents (outboundBuffer c) = [1; 2; 3].
Proof. by vm_compute. Qed.

(** [ReadFrom] and [Flush], level-triggered, and a kernel that takes one byte:
    nothing asks for the event that the rest can be written, and no later write
    does. *)
Lemma read_from_stalls :
  let '(c, _, x) := ReadFrom no_ring zeros 9 (conn_of (mkScript [] [] [inl 1] [])) (([], [([1; 2; 3], None)]) : chunks) in
  x = Ok (Some (3, None)) ∧
  match run_ops false [Writable; AsyncWrite [4]] c with
  | Ok c => s_sent (sock c) = [1] ∧ Elastic.contents (outboundBuffer c) = [2; 3; 4] ∧ polled c = Some Read_
  | _ => False
  end.
Proof. by vm_compute. Qed.

(** More slices than the kernel allows at once close the connection. *)
Lemma many_slices_close :
  match run_ops false [AsyncWritev (replicate 1025 [1])] (conn_of (mkScript [] [] [] [])) with
  | Ok c => opened c = false ∧ s_sent (sock c) = []
  | _ => False
  end.
Proof. by vm_compute. Qed.

(** ** Witnesses *)

Lemma silent_law e c : outboundBuffer (silent e c).1 = outboundBuffer c ∧ sock (silent e c).1 = sock c.
Proof. done. Qed.

Definition slow_written (et : bool) : econn :=
  (asyncWrite (OB := small_out) et silent [1; 2; 3; 4; 5; 6] (conn_of slow)).1.
Definition slow_runs (et : bool) : runs (OB := small_out) et 100 silent ([] ++ [1; 2; 3; 4; 5; 6]) (slow_written et) :=
  runs_step et 100 silent [] (conn_of slow) (AsyncWrite [1; 2; 3; 4; 5; 6]) (slow_written et)
    (runs_start et 100 silent (conn_of slow) (conn_of_fresh _ _)) ltac:(by vm_compute) eq_refl.

Lemma slow_written_open et : opened (slow_written et) = true.
Proof. by destruct et; vm_compute. Qed.


Lemma slow_written_waits : Elastic.contents (outboundBuffer (slow_written false)) ≠ [].
Proof. by vm_compute. Qed.
Lemma waiting_is_polled_witness : polled (slow_written false) = Some ReadWrite.
Proof.
  exact (waiting_is_polled (OB := small_out) false 100 silent silent_law _ _ (slow_runs false) eq_refl
    (slow_written_open false) slow_written_waits).
Defined.

Lemma slow_written_ok : out_ok (OB := small_out) (slow_written true).
Proof. by apply (ord_ok (OB := small_out) true _ _ (runs_ordered (OB := small_out) true 100 silent silent_law _ _ (slow_runs true))). Qed.
Lemma closing_ends_witness :
  let c' := flush_loop (OB := small_out) 5 (slow_written true) in
  flush_loop (OB := small_out) 8 (slow_written true) = c'.
Proof.
  destruct (closing_ends (OB := small_out) (slow_written true) 3 slow_written_ok) as [H _]. exact H.
Defined.

(** A handler that takes everything. *)
Definition take_all (c : econn) : econn * Action := ((Discard 0 c).1, None_).

Definition half_read : econn :=
  set_buffer [4; 5] (set_in (ElasticRing.Write no_ring zeros [1; 2; 3] None).1 (conn_of slow)).
Lemma half_read_ok : in_ok half_read.
Proof. by split; vm_compute; repeat split. Qed.
Lemma half_read_unread : unread half_read = [1; 2; 3; 4; 5].
Proof. by vm_compute. Qed.

Lemma inbound_is_a_queue_witness : (Next zeros 4 half_read).2 = Ok ([1; 2; 3; 4], None).
Proof.
  destruct (inbound_is_a_queue zeros half_read zeros_len half_read_ok) as (_ & H & _).
  destruct (H 4) as [(c' & E & _) _]; [by vm_compute|]. rewrite E, half_read_unread. done.
Defined.

Lemma discard_all_law (c : econn) : let c' := (take_all c).1 in
  arrived (sock c') = arrived (sock c) ∧ (reads_left (sock c') <= reads_left (sock c))%nat ∧
  (opened c' = true → opened c = true) ∧
  (opened c' = true → in_ok c → ElasticRing.ring_size no_ring (inboundBuffer c) <= 2 ^ 32 →
   in_ok c' ∧ small no_ring c' ∧ ∃ used, unread c = used ++ unread c').
Proof.
  assert (Hd : (Discard 0 c).1 = resetBuffer (set_cache [] c)).
  { unfold Discard. by rewrite bool_decide_true by (by right). }
  unfold take_all. cbn [fst]. rewrite Hd. split_and!; try done. intros Ho Hin Hs.
  split_and!; try done. exists (unread c). unfold unread at 3. cbn. by rewrite app_nil_r.
Qed.

(** A connection to which two reads' worth of bytes have come. *)
Definition with_bytes : econn := conn_of (mkScript [] [] [] [[1; 2]; [3]]).
Lemma with_bytes_ok : in_ok with_bytes ∧ small no_ring with_bytes.
Proof. by split; vm_compute. Qed.

Lemma reading_keeps_order_witness :
  let c' := (el_read (OB := small_out) true 100 64 no_ring zeros take_all silent with_bytes).1 in
  opened c' = true ∧ s_arrived (sock c') = [1; 2; 3] ∧ received no_ring with_bytes c'.
Proof.
  split; [by vm_compute|]. split; [by vm_compute|].
  destruct (reading_keeps_order (OB := small_out) true 100 64 no_ring zeros take_all silent no_ring_empty zeros_len
    ltac:(by vm_compute) discard_all_law with_bytes 0 (proj1 with_bytes_ok) (proj2 with_bytes_ok)
    (λ _, eq_refl)) as [H _]. exact H.
Defined.
