(* ===== verification/ConnMatrix.v ===== *)
(** * utils/xnet: the connections of an event loop

    conn_map.go and conn_matrix.go, the two implementations of one store (the
    build tag gc_opt chooses), and utils/xgfd, the identifiers that say where in
    the matrix a connection is.  An array of fixed size is a function of its
    index, a row of the matrix that is nil is absent from [table]. *)
From S2P Require Import Prelude.
From stdpp Require Import functions.
#[local] Close Scope nat_scope.
Open Scope Z_scope.

(** ** utils/xgfd: sixteen bytes *)
Module Gfd.

Definition ConnMatrixColumnOffset : nat := 2.
Definition SequenceOffset : nat := 4.
Definition FdOffset : nat := 8.
Definition EventLoopIndexMax : Z := 256.
Definition ConnMatrixRowMax : Z := 256.
Definition ConnMatrixColumnMax : Z := 65536.

Definition GFD : Type := list Z.

Definition Inc (seq : Z) : Z := wrapU 32 (seq + 1).

(** [seq] is what [monoSeq.Inc] returned. *)
Definition NewGFD (seq fd elIndex row column : Z) : GFD :=
  [wrapU 8 elIndex; wrapU 8 row] ++ put_uint BigEndian 2 (wrapU 16 column) ++
  put_uint BigEndian 4 seq ++ put_uint BigEndian 8 (wrapU 64 fd).

Definition part (lo hi : nat) (g : GFD) : Z := get_uint BigEndian (take (hi - lo) (drop lo g)).
Definition Fd (g : GFD) : Z := wrapS 64 (part FdOffset 16 g).
Definition EventLoopIndex (g : GFD) : Z := nth 0 g 0.
Definition ConnMatrixRow (g : GFD) : Z := nth 1 g 0.
Definition ConnMatrixColumn (g : GFD) : Z := part ConnMatrixColumnOffset SequenceOffset g.
Definition Sequence (g : GFD) : Z := part SequenceOffset FdOffset g.

Definition UpdateIndexes (row column : Z) (g : GFD) : GFD :=
  take 1 g ++ [wrapU 8 row] ++ put_uint BigEndian 2 (wrapU 16 column) ++ drop SequenceOffset g.

Definition Validate (g : GFD) : bool :=
  bool_decide (2 < Fd g ∧ Fd g <= 2 ^ 63 - 1 ∧ 0 <= EventLoopIndex g ∧ EventLoopIndex g < EventLoopIndexMax ∧
    0 <= ConnMatrixRow g ∧ ConnMatrixRow g < ConnMatrixRowMax ∧
    0 <= ConnMatrixColumn g ∧ ConnMatrixColumn g < ConnMatrixColumnMax ∧ 0 < Sequence g).

(** The five parts of one. *)
Definition made (seq fd el row column : Z) (g : GFD) : Prop :=
  EventLoopIndex g = el ∧ ConnMatrixRow g = row ∧ ConnMatrixColumn g = column ∧ Sequence g = seq ∧ Fd g = fd.

Definition ranges (seq fd el row column : Z) : Prop :=
  in_u 32 seq ∧ in_s 64 fd ∧ in_u 8 el ∧ in_u 8 row ∧ in_u 16 column.

Lemma NewGFD_made seq fd el row column :
  ranges seq fd el row column → made seq fd el row column (NewGFD seq fd el row column).
Proof.
  intros (Hs & Hf & He & Hr & Hc). unfold NewGFD, made, EventLoopIndex, ConnMatrixRow, ConnMatrixColumn, Sequence, Fd, part.
  rewrite !wrapU_id by done.
  pose proof (length_put_uint BigEndian 2 column) as L2. pose proof (length_put_uint BigEndian 4 seq) as L4.
  pose proof (length_put_uint BigEndian 8 (wrapU 64 fd)) as L8.
  assert (G2 : get_uint BigEndian (put_uint BigEndian 2 column) = column) by (apply get_put_uint; exact Hc).
  assert (G4 : get_uint BigEndian (put_uint BigEndian 4 seq) = seq) by (apply get_put_uint; exact Hs).
  assert (G8 : get_uint BigEndian (put_uint BigEndian 8 (wrapU 64 fd)) = wrapU 64 fd).
  { apply get_put_uint. exact (wrapU_range 64 fd ltac:(lia)). }
  destruct (put_uint BigEndian 2 column) as [|a1 [|a2 [|]]]; try done.
  destruct (put_uint BigEndian 4 seq) as [|b1 [|b2 [|b3 [|b4 [|]]]]]; try done.
  destruct (put_uint BigEndian 8 (wrapU 64 fd)) as [|c1 [|c2 [|c3 [|c4 [|c5 [|c6 [|c7 [|c8 [|]]]]]]]]]; try done.
  cbn [app nth drop take FdOffset SequenceOffset ConnMatrixColumnOffset Nat.sub].
  rewrite G2, G4, G8. split_and!; try done. by apply wrapS_wrapU_id.
Qed.

Lemma UpdateIndexes_made seq fd el r c row column :
  ranges seq fd el r c → in_u 8 row → in_u 16 column →
  UpdateIndexes row column (NewGFD seq fd el r c) = NewGFD seq fd el row column.
Proof.
  intros (Hs & Hf & He & Hr & Hc) Hrow Hcol. unfold UpdateIndexes, NewGFD.
  pose proof (length_put_uint BigEndian 2 (wrapU 16 c)) as L2.
  by destruct (put_uint BigEndian 2 (wrapU 16 c)) as [|a1 [|a2 [|]]].
Qed.
Lemma NewGFD_valid seq fd el row column :
  ranges seq fd el row column → Validate (NewGFD seq fd el row column) = bool_decide (2 < fd ∧ 0 < seq).
Proof.
  intros H. destruct (NewGFD_made _ _ _ _ _ H) as (E1 & E2 & E3 & E4 & E5). unfold Validate. rewrite E1, E2, E3, E4, E5.
  destruct H as (Hs & Hf & He & Hr & Hc). unfold in_u, in_s, EventLoopIndexMax, ConnMatrixRowMax, ConnMatrixColumnMax in *.
  apply bool_decide_ext. lia.
Qed.
End Gfd.
Export Gfd.

(** ** conn_matrix.go *)

(** A connection; what it keeps of its own besides its socket is in the
    stores ([gfds]). *)
Definition conn : Type := nat.

Section stores.
Context (fd : conn → Z).

Record connMatrix := mkMatrix {
  disableCompact : bool;
  connCounts : Z → Z;
  row : Z;
  column : Z;
  table : gmap Z (gmap Z conn);
  fd2gfd : gmap Z GFD;
  gfds : conn → GFD;
  monoSeq : Z;
}.

Definition set_counts x (cm : connMatrix) := mkMatrix (disableCompact cm) x (row cm) (column cm) (table cm) (fd2gfd cm)
  (gfds cm) (monoSeq cm).
Definition set_pos r c (cm : connMatrix) := mkMatrix (disableCompact cm) (connCounts cm) r c (table cm) (fd2gfd cm)
  (gfds cm) (monoSeq cm).
Definition set_table x (cm : connMatrix) := mkMatrix (disableCompact cm) (connCounts cm) (row cm) (column cm) x
  (fd2gfd cm) (gfds cm) (monoSeq cm).
Definition set_fd2gfd x (cm : connMatrix) := mkMatrix (disableCompact cm) (connCounts cm) (row cm) (column cm)
  (table cm) x (gfds cm) (monoSeq cm).
Definition set_gfd (c : conn) (g : GFD) (cm : connMatrix) := mkMatrix (disableCompact cm) (connCounts cm) (row cm) (column cm)
  (table cm) (fd2gfd cm) (<[c := g]> (gfds cm)) (monoSeq cm).
Definition set_seq x (cm : connMatrix) := mkMatrix (disableCompact cm) (connCounts cm) (row cm) (column cm)
  (table cm) (fd2gfd cm) (gfds cm) x.

Definition init : connMatrix := mkMatrix false (λ _, 0) 0 0 ∅ ∅ (λ _, replicate 16 0) 0.

Definition incCount (r delta : Z) (cm : connMatrix) : connMatrix :=
  set_counts (<[r := wrapS 32 (connCounts cm r + delta)]> (connCounts cm)) cm.

Definition loadCount (cm : connMatrix) : Z :=
  foldl (λ n i, wrapS 32 (n + connCounts cm (Z.of_nat i))) 0 (seq 0 (Z.to_nat ConnMatrixRowMax)).

(** [table[r][k] = x], where [table[r]] must be there. *)
Definition put (r k : Z) (x : option conn) (cm : connMatrix) : outcome connMatrix :=
  match table cm !! r with
  | Some conns => Ok (set_table (<[r := partial_alter (λ _, x) k conns]> (table cm)) cm)
  | None => Panic
  end.

Definition addConn (c : conn) (index : Z) (cm : connMatrix) : outcome connMatrix :=
  if bool_decide (ConnMatrixRowMax <= row cm) then Ok cm else
  let cm := match table cm !! row cm with
            | None => set_table (<[row cm := ∅]> (table cm)) cm
            | Some _ => cm
            end in
  let seq := Inc (monoSeq cm) in
  let g := NewGFD seq (fd c) index (row cm) (column cm) in
  let cm := set_gfd c g (set_seq seq cm) in
  let cm := set_fd2gfd (<[fd c := g]> (fd2gfd cm)) cm in
  cm ← put (row cm) (column cm) (Some c) cm;
  let cm := incCount (row cm) 1 cm in
  let column' := column cm + 1 in
  Ok (if bool_decide (column' = ConnMatrixColumnMax) then set_pos (row cm + 1) 0 cm else set_pos (row cm) column' cm).

(** The scan of a row from its end; [fuel] is for the columns. *)
Fixpoint last_column (fuel : nat) (k columnMin : Z) (conns : gmap Z conn) : option Z :=
  match fuel with
  | O => None
  | S fuel =>
      if bool_decide (columnMin < k) then
        match conns !! k with Some _ => Some k | None => last_column fuel (k - 1) columnMin conns end
      else None
  end.

(** The scan of the rows from the last; [fuel] is for the rows. *)
Fixpoint last_conn (fuel : nat) (r gr gc : Z) (cm : connMatrix) : outcome (option (Z * Z)) :=
  match fuel with
  | O => Ok None
  | S fuel =>
      if bool_decide (gr <= r) then
        if bool_decide (connCounts cm r = 0) then last_conn fuel (r - 1) gr gc cm else
        let columnMin := if bool_decide (r = gr) then gc else -1 in
        match table cm !! r with
        | None => Panic
        | Some conns =>
            match last_column (Z.to_nat ConnMatrixColumnMax) (ConnMatrixColumnMax - 1) columnMin conns with
            | Some k => Ok (Some (r, k))
            | None => last_conn fuel (r - 1) gr gc cm
            end
        end
      else Ok None
  end.

Definition conn_at (cm : connMatrix) (r k : Z) : option conn := table cm !! r ≫= λ conns, conns !! k.

(** A row without connections is given up, else its place is cleared. *)
Definition clear (r k : Z) (cm : connMatrix) : outcome connMatrix :=
  if bool_decide (connCounts cm r = 0) then Ok (set_table (delete r (table cm)) cm) else put r k None cm.

(** The last connection takes the place that has become free. *)
Definition move_last (gr gc r k : Z) (z : conn) (cm : connMatrix) : outcome connMatrix :=
  let g := UpdateIndexes gr gc (gfds cm z) in
  let cm := set_gfd z g cm in
  let cm := set_fd2gfd (<[Fd g := g]> (fd2gfd cm)) cm in
  cm ← put gr gc (Some z) cm;
  let cm := incCount gr 1 (incCount r (-1) cm) in
  cm ← clear r k cm;
  Ok (set_pos r k cm).

Definition delConn (c : conn) (cm : connMatrix) : outcome connMatrix :=
  let gr := ConnMatrixRow (gfds cm c) in
  let gc := ConnMatrixColumn (gfds cm c) in
  let cm := incCount gr (-1) (set_fd2gfd (delete (fd c) (fd2gfd cm)) cm) in
  cm ← clear gr gc cm;
  let cm := if bool_decide (gr < row cm ∨ gc < column cm) then set_pos gr gc cm else cm in
  if disableCompact cm || bool_decide (table cm !! gr = None) then Ok cm else
  last ← last_conn (Z.to_nat ConnMatrixRowMax) (ConnMatrixRowMax - 1) gr gc cm;
  match last with
  | None => Ok cm
  | Some (r, k) => match conn_at cm r k with Some z => move_last gr gc r k z cm | None => Panic end
  end.

Definition getConn (f : Z) (cm : connMatrix) : option conn :=
  match fd2gfd cm !! f with
  | None => None
  | Some g => conn_at cm (ConnMatrixRow g) (ConnMatrixColumn g)
  end.

(** ** conn_map.go *)

Record connMap := mkMap { connCount : Z; conns : gmap Z conn }.
Definition map_init : connMap := mkMap 0 ∅.
Definition map_addConn (c : conn) (cm : connMap) : connMap :=
  mkMap (wrapS 32 (connCount cm + 1)) (<[fd c := c]> (conns cm)).
Definition map_delConn (c : conn) (cm : connMap) : connMap :=
  mkMap (wrapS 32 (connCount cm - 1)) (delete (fd c) (conns cm)).
Definition map_getConn (f : Z) (cm : connMap) : option conn := conns cm !! f.
Definition map_loadCount (cm : connMap) : Z := connCount cm.

(** ** The places of a matrix

    [o n] is what is in place [n], counting the places row by row. *)
Abbreviation W := ConnMatrixColumnMax.
Abbreviation R := ConnMatrixRowMax.

Definition taken {A} (x : option A) : Z := match x with Some _ => 1 | None => 0 end.
Definition count (o : Z → option conn) (xs : list Z) : Z := foldr (λ x n, taken (o x) + n) 0 xs.
Definition places (r : Z) : list Z := seqZ (r * W) W.

Lemma count_bounds o xs : 0 <= count o xs <= len xs.
Proof.
  induction xs as [|x xs IH]; [done|]. cbn [count foldr]. fold (count o xs). rewrite length_cons.
  destruct (o x); cbn [taken]; lia.
Qed.

Lemma count_insert o p x xs : NoDup xs →
  count (<[p := x]> o) xs = count o xs + (if bool_decide (p ∈ xs) then taken x - taken (o p) else 0).
Proof.
  induction 1 as [|y xs Hy Hnd IH]; [by rewrite bool_decide_false by apply not_elem_of_nil|].
  cbn [count foldr]. fold (count (<[p := x]> o) xs) (count o xs). rewrite IH. destruct (decide (p = y)) as [->|Hne].
  - rewrite fn_lookup_insert, (bool_decide_false _ Hy), bool_decide_true by apply list_elem_of_here. lia.
  - rewrite fn_lookup_insert_ne by done. rewrite (bool_decide_ext (p ∈ y :: xs) (p ∈ xs)); [lia|].
    rewrite elem_of_cons. naive_solver.
Qed.

Lemma count_pos o xs : 0 < count o xs ↔ ∃ x, x ∈ xs ∧ is_Some (o x).
Proof.
  induction xs as [|y xs IH]; cbn [count foldr]; [split; [done|intros (x & H%elem_of_nil & _); done]|].
  fold (count o xs). pose proof (count_bounds o xs). setoid_rewrite elem_of_cons. destruct (o y) as [c|] eqn:E; cbn [taken].
  - split; [|lia]. intros _. exists y. rewrite E. eauto.
  - rewrite Z.add_0_l, IH. split; [naive_solver|]. intros (x & [->|Hx] & Ho); [|eauto]. rewrite E in Ho. by destruct Ho.
Qed.

Lemma elem_of_places n r : n ∈ places r ↔ n / W = r.
Proof.
  unfold places. rewrite elem_of_seqZ. unfold W.
  pose proof (Z.div_mod n 65536 ltac:(lia)). pose proof (Z.mod_pos_bound n 65536 ltac:(lia)). lia.
Qed.

Lemma place_parts r k : 0 <= k < W → (r * W + k) / W = r ∧ (r * W + k) mod W = k.
Proof.
  intros H. split; [rewrite Z.div_add_l, Z.div_small by (done || lia); lia|].
  rewrite Z.add_comm, Z.mod_add, Z.mod_small by (done || lia). done.
Qed.
Lemma place_of n : n / W * W + n mod W = n.
Proof. unfold W. pose proof (Z.div_mod n 65536 ltac:(lia)). lia. Qed.
Lemma part_bounds n : 0 <= n mod W < W.
Proof. by apply Z.mod_pos_bound. Qed.

(** Rows and counts say what is where. *)
Record shows (t : gmap Z (gmap Z conn)) (counts : Z → Z) (o : Z → option conn) : Prop := {
  shows_at r k : 0 <= k < W → t !! r ≫= (λ conns, conns !! k) = o (r * W + k);
  shows_row r : is_Some (t !! r) ↔ 0 < counts r;
  shows_count r : counts r = count o (places r);
}.

Lemma shows_range t counts o r : shows t counts o → 0 <= counts r <= W.
Proof.
  intros H. rewrite (shows_count _ _ _ H). pose proof (count_bounds o (places r)) as Hb.
  assert (len (places r) = W) by (unfold places; rewrite length_seqZ; done). lia.
Qed.

Lemma shows_bump t counts o r d : shows t counts o → -1 <= d <= 1 → wrapS 32 (counts r + d) = counts r + d.
Proof. intros H Hd. pose proof (shows_range _ _ _ r H). apply wrapS_id; unfold in_s, W in *; lia. Qed.

(** A place that was free is taken. *)
Lemma shows_put t counts counts' o r k c :
  shows t counts o → 0 <= k < W → o (r * W + k) = None →
  (∀ x, counts' x = (<[r := counts r + 1]> counts) x) →
  shows (<[r := <[k := c]> (default ∅ (t !! r))]> t) counts' (<[r * W + k := Some c]> o).
Proof.
  intros H Hk Ho Hn. destruct (place_parts r k Hk) as [Hd Hm].
  assert (Hc : ∀ x, counts' x = count (<[r * W + k := Some c]> o) (places x)).
  { intros x. rewrite Hn, count_insert by apply NoDup_seqZ. rewrite Ho.
    rewrite (bool_decide_ext _ (x = r)) by (rewrite elem_of_places; naive_solver). case_bool_decide as E.
    - subst x. by rewrite fn_lookup_insert, (shows_count _ _ _ H).
    - rewrite fn_lookup_insert_ne by done. rewrite (shows_count _ _ _ H). lia. }
  split; [|intros x|done].
  - intros x j Hj. destruct (decide (x = r)) as [->|Hx].
    + rewrite lookup_insert_eq. cbn [mbind option_bind]. destruct (decide (j = k)) as [->|Hjk].
      * by rewrite lookup_insert_eq, fn_lookup_insert.
      * rewrite lookup_insert_ne, fn_lookup_insert_ne by lia. rewrite <- (shows_at _ _ _ H) by done.
        by destruct (t !! r).
    + rewrite lookup_insert_ne, fn_lookup_insert_ne; [by apply H| |done].
      intros E. destruct (place_parts x j Hj) as [Hd' _]. congruence.
  - rewrite Hn. pose proof (shows_range _ _ _ r H). destruct (decide (x = r)) as [->|Hx].
    + rewrite lookup_insert_eq, fn_lookup_insert. split; [lia|eauto].
    + rewrite lookup_insert_ne, fn_lookup_insert_ne by done. apply H.
Qed.

(** A place that was taken is cleared. *)
Lemma shows_clear t counts cm o r k c :
  shows t counts o → table cm = t → 0 <= k < W → o (r * W + k) = Some c →
  (∀ x, connCounts cm x = (<[r := counts r - 1]> counts) x) →
  ∃ t', clear r k cm = Ok (set_table t' cm) ∧ shows t' (connCounts cm) (<[r * W + k := None]> o).
Proof.
  intros H Ht Hk Ho Hn. destruct (place_parts r k Hk) as [Hd Hm].
  assert (Hc : ∀ x, connCounts cm x = count (<[r * W + k := None]> o) (places x)).
  { intros x. rewrite Hn, count_insert by apply NoDup_seqZ. rewrite Ho.
    rewrite (bool_decide_ext _ (x = r)) by (rewrite elem_of_places; naive_solver). case_bool_decide as E.
    - subst x. rewrite fn_lookup_insert, (shows_count _ _ _ H). cbn. lia.
    - rewrite fn_lookup_insert_ne by done. rewrite (shows_count _ _ _ H). lia. }
  assert (Hrow : is_Some (t !! r)).
  { apply (shows_row _ _ _ H). rewrite (shows_count _ _ _ H). apply count_pos. exists (r * W + k).
    rewrite elem_of_places, Ho. eauto. }
  assert (Hother : ∀ x, x ≠ r → ∀ j, 0 <= j < W → (<[r * W + k := None]> o) (x * W + j) = o (x * W + j)).
  { intros x Hx j Hj. apply fn_lookup_insert_ne. intros E. destruct (place_parts x j Hj) as [Hd' _]. congruence. }
  unfold clear, put. rewrite Ht. case_bool_decide as Hz.
  - eexists. split; [done|]. split; [|intros x|done].
    + intros x j Hj. destruct (decide (x = r)) as [->|Hx].
      * rewrite lookup_delete_eq. cbn. symmetry. apply eq_None_not_Some. intros Hs.
        pose proof (proj2 (count_pos (<[r * W + k := None]> o) (places r))) as Hp.
        rewrite <- Hc, Hz in Hp. assert (0 < 0); [|lia]. apply Hp. exists (r * W + j). split; [|done].
        apply elem_of_places. by apply place_parts.
      * rewrite lookup_delete_ne, Hother by done. by apply H.
    + destruct (decide (x = r)) as [->|Hx].
      * rewrite lookup_delete_eq, Hz. split; [by intros []|lia].
      * rewrite lookup_delete_ne, Hn, fn_lookup_insert_ne by done. apply H.
  - destruct Hrow as [conns Hrow]. rewrite Hrow. eexists. split; [done|]. split; [|intros x|done].
    + intros x j Hj. destruct (decide (x = r)) as [->|Hx].
      * rewrite lookup_insert_eq. cbn [mbind option_bind]. destruct (decide (j = k)) as [->|Hjk].
        -- by rewrite lookup_partial_alter_eq, fn_lookup_insert.
        -- rewrite lookup_partial_alter_ne, fn_lookup_insert_ne by lia.
           rewrite <- (shows_at _ _ _ H), Hrow by done. done.
      * rewrite lookup_insert_ne, Hother by done. by apply H.
    + destruct (decide (x = r)) as [->|Hx].
      * rewrite lookup_insert_eq. pose proof (shows_range _ _ _ r H) as Hr.
        assert (0 < counts r) by (apply (shows_row _ _ _ H); eauto).
        rewrite Hn, fn_lookup_insert in Hz |- *. split; [lia|eauto].
      * rewrite lookup_insert_ne, Hn, fn_lookup_insert_ne by done. apply H.
Qed.

(** ** Finding the last connection *)

Lemma last_column_none fuel k m conns :
  (∀ j, m < j → j <= k → conns !! j = None) → last_column fuel k m conns = None.
Proof.
  revert k. induction fuel as [|fuel IH]; intros k H; cbn [last_column]; [done|].
  case_bool_decide; [|done]. rewrite H by lia. apply IH. intros j Hj Hk. apply H; lia.
Qed.

Lemma last_column_some fuel k m j conns :
  m < j → j <= k → k - j < Z.of_nat fuel → is_Some (conns !! j) → (∀ i, j < i → i <= k → conns !! i = None) →
  last_column fuel k m conns = Some j.
Proof.
  revert k. induction fuel as [|fuel IH]; intros k Hm Hk Hf [c Hj] H; cbn [last_column]; [lia|].
  rewrite bool_decide_true by lia. destruct (decide (j = k)) as [->|Hne]; [by rewrite Hj|].
  rewrite H by lia. apply IH; [lia..|eauto|]. intros i Hi Hik. apply H; lia.
Qed.

Section last.
Context (cm : connMatrix) (o : Z → option conn).
Context (Hs : shows (table cm) (connCounts cm) o).

Lemma row_taken r : connCounts cm r ≠ 0 → is_Some (table cm !! r) ∧ ∃ n, n / W = r ∧ is_Some (o n).
Proof using Hs.
  intros Hr. pose proof (shows_range _ _ _ r Hs). split; [apply (shows_row _ _ _ Hs); lia|].
  destruct (proj1 (count_pos o (places r))) as (n & Hn%elem_of_places & Ho); [|eauto].
  rewrite <- (shows_count _ _ _ Hs). lia.
Qed.

Lemma row_at r conns j : table cm !! r = Some conns → 0 <= j < W → conns !! j = o (r * W + j).
Proof using Hs. intros Hr Hj. rewrite <- (shows_at _ _ _ Hs) by done. by rewrite Hr. Qed.

(** Nothing is behind place [gr, gc]. *)
Lemma last_conn_none fuel r gr gc :
  0 <= gc < W → (∀ n, gr * W + gc < n → o n = None) → last_conn fuel r gr gc cm = Ok None.
Proof using Hs.
  intros Hgc Hn. revert r. induction fuel as [|fuel IH]; intros r; cbn [last_conn]; [done|].
  case_bool_decide as Hr; [|done]. case_bool_decide as Hz; [done|].
  destruct (row_taken r Hz) as [[conns Hc] (n & <- & Ho)].
  pose proof (place_of n). pose proof (part_bounds n).
  assert (n <= gr * W + gc). { apply Z.nlt_ge. intros Hlt. rewrite Hn in Ho by done. by destruct Ho. }
  assert (n / W = gr) as Er by (unfold W in *; lia).
  rewrite Hc, last_column_none; [apply IH|]. rewrite Er, bool_decide_true by done.
  intros j Hj Hk. rewrite Er in Hc. rewrite (row_at _ _ _ Hc) by (unfold W in *; lia). apply Hn. lia.
Qed.

(** [p] is the last place that is taken. *)
Lemma last_conn_some fuel r gr gc p :
  0 <= gc < W → gr * W + gc < p → is_Some (o p) → (∀ n, p < n → o n = None) →
  p / W <= r → r - p / W < Z.of_nat fuel → last_conn fuel r gr gc cm = Ok (Some (p / W, p mod W)).
Proof using Hs.
  intros Hgc Hp Hop Hn. pose proof (place_of p) as Ep. pose proof (part_bounds p) as Hpb.
  assert (Hgp : gr <= p / W) by (unfold W in *; lia).
  revert r. induction fuel as [|fuel IH]; intros r Hr Hf; cbn [last_conn]; [lia|].
  rewrite bool_decide_true by lia. destruct (decide (r = p / W)) as [->|Hne].
  - assert (0 < connCounts cm (p / W)) as Hc.
    { rewrite (shows_count _ _ _ Hs). apply count_pos. exists p. by rewrite elem_of_places. }
    rewrite bool_decide_false by lia. destruct (proj2 (shows_row _ _ _ Hs (p / W)) Hc) as [conns Ht]. rewrite Ht.
    rewrite (last_column_some _ _ _ (p mod W)); [done| |unfold W in *; lia..| |].
    + case_bool_decide; unfold W in *; lia.
    + rewrite (row_at _ _ _ Ht), Ep by done. done.
    + intros i Hi Hk. rewrite (row_at _ _ _ Ht) by (unfold W in *; lia). apply Hn. lia.
  - case_bool_decide as Hz; [apply IH; lia|]. destruct (row_taken r Hz) as [_ (n & <- & Ho)].
    assert (p < n) as Hlt. { pose proof (place_of n). pose proof (part_bounds n). unfold W in *. lia. }
    rewrite Hn in Ho by done. by destruct Ho.
Qed.
End last.

(** ** The matrix keeps its connections *)

(** The connection in a place knows the place, and is found by its socket. *)
Definition placed (cm : connMatrix) (n : Z) (c : conn) : Prop :=
  0 <= n < R * W ∧ fd2gfd cm !! fd c = Some (gfds cm c) ∧
  ∃ seq el, ranges seq (fd c) el (n / W) (n mod W) ∧ gfds cm c = NewGFD seq (fd c) el (n / W) (n mod W).

Record keeps (cm : connMatrix) (o : Z → option conn) : Prop := {
  keeps_shows : shows (table cm) (connCounts cm) o;
  keeps_placed n c : o n = Some c → placed cm n c;
  keeps_found f g : fd2gfd cm !! f = Some g → ∃ n c, o n = Some c ∧ fd c = f;
  keeps_apart n n' c c' : o n = Some c → o n' = Some c' → fd c = fd c' → n = n';
  keeps_column : 0 <= column cm < W;
}.

(** The places up to the next one are taken, no other. *)
Definition next_place (cm : connMatrix) : Z := row cm * W + column cm.
Definition dense (cm : connMatrix) (o : Z → option conn) : Prop :=
  ∀ n, is_Some (o n) ↔ 0 <= n < next_place cm.

Lemma getConn_spec cm o f c : keeps cm o → getConn f cm = Some c ↔ ∃ n, o n = Some c ∧ fd c = f.
Proof.
  intros H. unfold getConn, conn_at.
  assert (Hat : ∀ n c', o n = Some c' →
    table cm !! ConnMatrixRow (gfds cm c') ≫= (λ conns, conns !! ConnMatrixColumn (gfds cm c')) = Some c').
  { intros n c' Ho. destruct (keeps_placed _ _ H _ _ Ho) as (_ & _ & seq & el & Hr & ->).
    destruct (NewGFD_made _ _ _ _ _ Hr) as (_ & -> & -> & _).
    rewrite (shows_at _ _ _ (keeps_shows _ _ H)) by apply part_bounds. by rewrite place_of. }
  destruct (fd2gfd cm !! f) as [g|] eqn:E.
  - destruct (keeps_found _ _ H _ _ E) as (n & c' & Ho & <-).
    destruct (keeps_placed _ _ H _ _ Ho) as (_ & Hg & _). assert (g = gfds cm c') as -> by congruence.
    rewrite (Hat n c' Ho). split; [intros [= <-]; eauto|]. intros (n' & Ho' & Hf).
    assert (n' = n) as -> by (by eapply (keeps_apart _ _ H)). congruence.
  - split; [done|]. intros (n & Ho & <-). destruct (keeps_placed _ _ H _ _ Ho) as (_ & Hg & _). congruence.
Qed.

(** ** The operations *)

Definition holds (o : Z → option conn) (c : conn) : Prop := ∃ n, o n = Some c.

Lemma Inc_range n : in_u 32 (Inc n).
Proof. by apply wrapU_range. Qed.

Lemma place_free (o : Z → option conn) n c (x : option conn) m : (<[n := x]> o) m = Some c → (m = n ∧ x = Some c) ∨ (m ≠ n ∧ o m = Some c).
Proof.
  destruct (decide (m = n)) as [->|Hne]; [rewrite fn_lookup_insert; auto|].
  rewrite fn_lookup_insert_ne by done. auto.
Qed.

(** A new connection in a free place. *)
Lemma addConn_spec cm o c el :
  keeps cm o → row cm < R → 0 <= row cm → o (next_place cm) = None →
  in_s 64 (fd c) → in_u 8 el → (∀ c', holds o c' → fd c' ≠ fd c) →
  ∃ cm', addConn c el cm = Ok cm' ∧ keeps cm' (<[next_place cm := Some c]> o) ∧
    next_place cm' = next_place cm + 1 ∧ 0 <= row cm' ∧ disableCompact cm' = disableCompact cm.
Proof.
  intros H Hr0 Hr1 Hfree Hfd Hel Hnew. pose proof (keeps_shows _ _ H) as Hs. pose proof (keeps_column _ _ H) as Hcol.
  set (seq := Inc (monoSeq cm)). set (g := NewGFD seq (fd c) el (row cm) (column cm)).
  set (counts := <[row cm := connCounts cm (row cm) + 1]> (connCounts cm)).
  set (t := <[row cm := <[column cm := c]> (default ∅ (table cm !! row cm))]> (table cm)).
  set (cm1 := mkMatrix (disableCompact cm) counts (row cm) (column cm) t (<[fd c := g]> (fd2gfd cm)) (<[c := g]> (gfds cm)) seq).
  assert (E : addConn c el cm = Ok (if bool_decide (column cm + 1 = W) then set_pos (row cm + 1) 0 cm1
                                    else set_pos (row cm) (column cm + 1) cm1)).
  { unfold addConn. rewrite bool_decide_false by lia. unfold cm1, counts.
    rewrite <- (shows_bump _ _ _ (row cm) 1 Hs) by lia. unfold t.
    destruct (table cm !! row cm) as [conns|] eqn:Ec; cbn [default from_option].
    - unfold put. cbn -[wrapS]. rewrite Ec. done.
    - unfold put. cbn -[wrapS]. rewrite lookup_insert_eq, insert_insert_eq. done. }
  assert (Hparts : next_place cm / W = row cm ∧ next_place cm mod W = column cm) by (by apply place_parts).
  assert (Hnc : ∀ n c', o n = Some c' → c' ≠ c) by (intros n c' Ho ->; by apply (Hnew c); [exists n|]).
  assert (K : ∀ r k, 0 <= k < W → keeps (set_pos r k cm1) (<[next_place cm := Some c]> o)).
  { intros r k Hk. split; [| | | |done].
    - exact (shows_put _ _ counts _ (row cm) (column cm) c Hs Hcol Hfree (λ _, eq_refl)).
    - intros n c' [[-> [= <-]]|[Hn Ho]]%place_free.
      + unfold placed. rewrite (proj1 Hparts), (proj2 Hparts). cbn. rewrite lookup_insert_eq, fn_lookup_insert.
        split; [|split; [done|]].
        * unfold next_place, R, W in *. lia.
        * exists seq, el. split; [|done]. unfold ranges, R, W in *.
          split_and!; [apply Inc_range|done|done|unfold in_u; lia|unfold in_u; lia].
      + destruct (keeps_placed _ _ H _ _ Ho) as (H1 & H2 & H3). unfold placed. cbn.
        rewrite lookup_insert_ne by (intros E'; by eapply Hnew; [exists n|]).
        rewrite fn_lookup_insert_ne by (intros ->; by apply (Hnc n c')). done.
    - intros f g'. cbn. destruct (decide (f = fd c)) as [->|Hf].
      + intros _. exists (next_place cm), c. by rewrite fn_lookup_insert.
      + rewrite lookup_insert_ne by done. intros (n & c' & Ho & <-)%(keeps_found _ _ H).
        exists n, c'. rewrite fn_lookup_insert_ne; [done|]. intros <-. congruence.
    - intros n n' c1 c2 [[-> [= <-]]|[Hn Ho]]%place_free [[-> [= <-]]|[Hn' Ho']]%place_free Ef; [done| | |].
      + exfalso. by eapply Hnew; [exists n'|].
      + exfalso. by eapply Hnew; [exists n|].
      + by eapply (keeps_apart _ _ H). }
  eexists. split; [exact E|]. case_bool_decide as Ew; unfold next_place; cbn;
    (split; [apply K; unfold W in *; lia|]); unfold W in *; split_and!; try done; lia.
Qed.

(** What [delConn] does before it looks for the last connection. *)
Lemma removed cm o n c :
  keeps cm o → o n = Some c →
  ∃ t counts, let cm' := mkMatrix (disableCompact cm) counts (row cm) (column cm) t (delete (fd c) (fd2gfd cm))
                           (gfds cm) (monoSeq cm) in
    clear (n / W) (n mod W) (incCount (n / W) (-1) (set_fd2gfd (delete (fd c) (fd2gfd cm)) cm)) = Ok cm' ∧
    ∀ r k, 0 <= k < W → keeps (set_pos r k cm') (<[n := None]> o).
Proof.
  intros H Ho. pose proof (keeps_shows _ _ H) as Hs.
  destruct (shows_clear (table cm) (connCounts cm) (incCount (n / W) (-1) (set_fd2gfd (delete (fd c) (fd2gfd cm)) cm))
    o (n / W) (n mod W) c Hs eq_refl (part_bounds n)) as (t & -> & Hs').
  { by rewrite place_of. }
  { intros x. cbn -[wrapS]. rewrite (shows_bump _ _ _ _ _ Hs) by lia. done. }
  rewrite place_of in Hs'. eexists t, _. split; [done|]. intros r k Hk. split; [exact Hs'| | | |done].
  - intros m c' [[_ [=]]|[Hm Ho']]%place_free. destruct (keeps_placed _ _ H _ _ Ho') as (H1 & H2 & H3). unfold placed. cbn.
    rewrite lookup_delete_ne; [done|]. intros E. apply Hm. by eapply (keeps_apart _ _ H).
  - intros f g. cbn. intros [Hf Hg]%lookup_delete_Some. destruct (keeps_found _ _ H _ _ Hg) as (m & c' & Ho' & <-).
    exists m, c'. rewrite fn_lookup_insert_ne; [done|]. intros ->. congruence.
  - intros m m' c1 c2 [[_ [=]]|[Hm Ho1]]%place_free [[_ [=]]|[Hm' Ho2]]%place_free. by eapply (keeps_apart _ _ H).
Qed.

(** The last connection moves to a free place. *)
Lemma move_last_spec cm o q p z :
  keeps cm o → 0 <= q < R * W → o q = None → o p = Some z → is_Some (table cm !! (q / W)) →
  ∃ cm', move_last (q / W) (q mod W) (p / W) (p mod W) z cm = Ok cm' ∧
    keeps cm' (<[p := None]> (<[q := Some z]> o)) ∧ next_place cm' = p ∧ row cm' = p / W ∧
    disableCompact cm' = disableCompact cm.
Proof.
  intros H Hq Hoq Hop [conns Hrow]. pose proof (keeps_shows _ _ H) as Hs.
  destruct (keeps_placed _ _ H _ _ Hop) as (Hp & Hfz & seq & el & Hrange & Hg).
  assert (Hqp : q ≠ p) by congruence.
  assert (Hrq : ranges seq (fd z) el (q / W) (q mod W)).
  { destruct Hrange as (H1 & H2 & H3 & _). pose proof (part_bounds q). pose proof (place_of q).
    unfold ranges, R, W in *. split_and!; try done; unfold in_u; lia. }
  assert (Eg : UpdateIndexes (q / W) (q mod W) (gfds cm z) = NewGFD seq (fd z) el (q / W) (q mod W)).
  { rewrite Hg. apply UpdateIndexes_made; [done|apply Hrq..]. }
  unfold move_last. rewrite Eg. destruct (NewGFD_made _ _ _ _ _ Hrq) as (_ & _ & _ & _ & ->).
  unfold put at 1. cbn [table set_fd2gfd set_gfd]. rewrite Hrow. cbn [mbind outcome_bind].
  set (g := NewGFD seq (fd z) el (q / W) (q mod W)).
  set (t1 := <[q / W := partial_alter (λ _, Some z) (q mod W) conns]> (table cm)).
  set (n1 := <[q / W := connCounts cm (q / W) + 1]> (connCounts cm)).
  assert (Hs1 : shows t1 n1 (<[q := Some z]> o)).
  { pose proof (shows_put _ _ n1 _ (q / W) (q mod W) z Hs (part_bounds q)) as X. rewrite place_of, Hrow in X.
    by apply X. }
  match goal with |- context [clear _ _ ?m] => set (cm1 := m) end.
  destruct (shows_clear t1 n1 cm1 (<[q := Some z]> o) (p / W) (p mod W) z Hs1 eq_refl (part_bounds p)) as (t & -> & Hs2).
  { by rewrite place_of, fn_lookup_insert_ne. }
  { intros x. unfold cm1, n1. cbn -[wrapS]. rewrite (shows_bump _ _ _ _ _ Hs) by lia.
    pose proof (shows_range _ _ _ (q / W) Hs). pose proof (shows_range _ _ _ (p / W) Hs).
    assert (0 < connCounts cm (p / W)).
    { rewrite (shows_count _ _ _ Hs). apply count_pos. exists p. rewrite elem_of_places, Hop. eauto. }
    unfold insert, fn_insert. unfold W in *.
    rewrite wrapS_id; [|lia|unfold in_s; destruct (decide (p / 65536 = q / 65536)); lia].
    generalize dependent (p / 65536). generalize dependent (q / 65536). intros. repeat case_decide; subst; try congruence; lia. }
  rewrite place_of in Hs2. eexists. split; [done|]. cbn. split; [|unfold next_place; cbn; rewrite place_of; done].
  assert (Hnz : ∀ m c', o m = Some c' → m ≠ p → c' ≠ z ∧ fd c' ≠ fd z).
  { intros m c' Ho Hm. assert (fd c' ≠ fd z) by (intros E; apply Hm; by eapply (keeps_apart _ _ H)). naive_solver. }
  split; [exact Hs2| | | |cbn; apply part_bounds].
  - intros m c' [[_ [=]]|[Hm [[-> [= <-]]|[Hm' Ho]]%place_free]]%place_free; unfold placed; cbn.
    + rewrite lookup_insert_eq, fn_lookup_insert. split_and!; [lia..|done|]. by exists seq, el.
    + destruct (Hnz m c' Ho Hm). rewrite lookup_insert_ne, fn_lookup_insert_ne by congruence. by apply (keeps_placed _ _ H).
  - intros f g'. cbn. destruct (decide (f = fd z)) as [->|Hf].
    + intros _. exists q, z. by rewrite fn_lookup_insert_ne, fn_lookup_insert.
    + rewrite lookup_insert_ne by done. intros (m & c' & Ho & <-)%(keeps_found _ _ H). exists m, c'.
      rewrite !fn_lookup_insert_ne by congruence. done.
  - assert (K : ∀ m c', (<[p := None]> (<[q := Some z]> o)) m = Some c' → (m = q ∧ c' = z) ∨ (m ≠ p ∧ o m = Some c')).
    { intros m c' [[_ [=]]|[Hm [[-> [= <-]]|[Hm' Ho]]%place_free]]%place_free; auto. }
    intros m m' c1 c2 [[-> ->]|[Hm Ho1]]%K [[-> ->]|[Hm' Ho2]]%K Ef; [done| | |by eapply (keeps_apart _ _ H)].
    + by destruct (Hnz m' c2 Ho2 Hm').
    + by destruct (Hnz m c1 Ho1 Hm).
Qed.

Lemma dense_dec cm o n : dense cm o → 0 <= n → (n < next_place cm ∧ is_Some (o n)) ∨ (next_place cm <= n ∧ o n = None).
Proof.
  intros Hd Hn. destruct (Z.lt_ge_cases n (next_place cm)) as [Hlt|Hge]; [left; split; [done|]; by apply Hd|right].
  split; [done|]. apply eq_None_not_Some. rewrite (Hd n). lia.
Qed.

Lemma dense_none cm o n : dense cm o → next_place cm <= n → o n = None.
Proof. intros Hd Hn. apply eq_None_not_Some. rewrite (Hd n). lia. Qed.

Lemma delConn_spec cm o n c :
  keeps cm o → dense cm o → disableCompact cm = false → 0 <= row cm → o n = Some c →
  ∃ cm' o', delConn c cm = Ok cm' ∧ keeps cm' o' ∧ dense cm' o' ∧ next_place cm' = next_place cm - 1 ∧
    disableCompact cm' = false ∧ 0 <= row cm' ∧ (∀ c', holds o' c' ↔ holds o c' ∧ c' ≠ c).
Proof.
  intros H Hd Hdc Hrow Ho. destruct (keeps_placed _ _ H _ _ Ho) as (Hn & _ & seq & el & Hr & Hg).
  pose proof (keeps_column _ _ H) as Hcol. pose proof (part_bounds n) as Hnb. pose proof (place_of n) as Hpn.
  assert (Hlt : 0 <= n < next_place cm) by (apply Hd; eauto).
  destruct (removed cm o n c H Ho) as (t & counts & E1 & K1).
  set (cm1 := mkMatrix (disableCompact cm) counts (row cm) (column cm) t (delete (fd c) (fd2gfd cm)) (gfds cm) (monoSeq cm)) in *.
  set (cm2 := set_pos (n / W) (n mod W) cm1). set (o1 := <[n := None]> o) in *.
  assert (H2 : keeps cm2 o1) by (apply K1; lia). pose proof (keeps_shows _ _ H2) as Hs2.
  assert (E : delConn c cm = if disableCompact cm2 || bool_decide (table cm2 !! (n / W) = None) then Ok cm2 else
    last ← last_conn (Z.to_nat R) (R - 1) (n / W) (n mod W) cm2;
    match last with
    | None => Ok cm2
    | Some (r, k) => match conn_at cm2 r k with Some z => move_last (n / W) (n mod W) r k z cm2 | None => Panic end
    end).
  { unfold delConn. rewrite Hg. destruct (NewGFD_made _ _ _ _ _ Hr) as (_ & -> & -> & _). rewrite E1. cbn [mbind outcome_bind].
    rewrite bool_decide_true; [done|]. unfold cm1. cbn. unfold next_place, W in *. lia. }
  assert (Hn2 : next_place cm2 = n) by (unfold next_place; cbn; lia).
  assert (Hholds : ∀ c', holds o1 c' ↔ holds o c' ∧ c' ≠ c).
  { intros c'. split.
    - intros (m & [[_ [=]]|[Hm Ho']]%place_free). split; [by exists m|]. intros ->. apply Hm.
      by apply (keeps_apart _ _ H _ _ c c).
    - intros [(m & Ho') Hne]. exists m. unfold o1. rewrite fn_lookup_insert_ne; [done|]. intros <-. congruence. }
  assert (Hd1 : ∀ m, m ≠ n → is_Some (o1 m) ↔ 0 <= m < next_place cm).
  { intros m Hm. unfold o1. rewrite fn_lookup_insert_ne by done. apply Hd. }
  destruct (decide (n = next_place cm - 1)) as [Hlast|Hlast].
  - (* it was the last *)
    assert (Ed : delConn c cm = Ok cm2).
    { rewrite E. destruct (_ || _); [done|].
      rewrite (last_conn_none cm2 o1 Hs2); [done|done|]. intros m Hm. apply eq_None_not_Some. rewrite Hd1; lia. }
    exists cm2, o1. split; [done|]. split; [done|]. split.
    { intros m. rewrite Hn2. destruct (decide (m = n)) as [->|Hm]; [|rewrite Hd1; lia].
      unfold o1. rewrite fn_lookup_insert. split; [by intros []|lia]. }
    split_and!; try done; [lia|]. cbn. unfold W in *. lia.
  - assert (∃ p, p = next_place cm - 1) as [p Ep] by eauto. rewrite <- Ep in Hlast.
    destruct (proj2 (Hd1 p ltac:(lia)) ltac:(lia)) as [z Hz].
    assert (Hp : 0 <= p < R * W) by apply (keeps_placed _ _ H2 _ _ Hz).
    assert (Hnil : is_Some (table cm2 !! (n / W))).
    { apply (shows_row _ _ _ Hs2). rewrite (shows_count _ _ _ Hs2). apply count_pos.
      setoid_rewrite elem_of_places. destruct (decide (n mod W = 0)).
      - exists (n + 1). split; [|apply Hd1; lia]. pose proof (place_of (n + 1)). pose proof (part_bounds (n + 1)).
        unfold W in *. lia.
      - exists (n - 1). split; [|apply Hd1; unfold W in *; lia]. pose proof (place_of (n - 1)). pose proof (part_bounds (n - 1)).
        unfold W in *. lia. }
    destruct (move_last_spec cm2 o1 n p z H2 ltac:(lia)) as (cm' & Em & K & Hnp & Hrp & Hdp);
      [unfold o1; apply fn_lookup_insert|done..|].
    exists cm', (<[p := None]> (<[n := Some z]> o1)). split.
    { rewrite E, bool_decide_false by (by destruct Hnil as [? ->]). rewrite orb_false_r.
      change (disableCompact cm2) with (disableCompact cm). rewrite Hdc.
      rewrite (last_conn_some cm2 o1 Hs2 _ _ _ _ p); [|done|lia|eauto| |pose proof (place_of p); pose proof (part_bounds p); unfold R, W in *; lia..].
      - cbn [mbind outcome_bind]. unfold conn_at. by rewrite (shows_at _ _ _ Hs2), place_of, Hz by apply part_bounds.
      - intros m Hm. apply eq_None_not_Some. rewrite Hd1; lia. }
    split; [done|]. split; [|split_and!].
    + intros m. rewrite Hnp. destruct (decide (m = p)) as [->|Hm]; [rewrite fn_lookup_insert; split; [by intros []|lia]|].
      rewrite fn_lookup_insert_ne by done. destruct (decide (m = n)) as [->|Hmn].
      * rewrite fn_lookup_insert. split; [lia|eauto].
      * rewrite fn_lookup_insert_ne, Hd1 by done. lia.
    + lia.
    + by rewrite Hdp.
    + rewrite Hrp. apply Z.div_pos; [lia|done].
    + intros c'. rewrite <- Hholds. split.
      * intros (m & [[_ [=]]|[Hm [[-> [= <-]]|[Hm' Ho']]%place_free]]%place_free); [by exists p|by exists m].
      * intros (m & Hm). destruct (decide (m = p)) as [->|Hmp].
        -- assert (c' = z) as -> by congruence. exists n. by rewrite fn_lookup_insert_ne, fn_lookup_insert by lia.
        -- exists m. rewrite !fn_lookup_insert_ne; [done| |done]. intros <-. unfold o1 in Hm. by rewrite fn_lookup_insert in Hm.
Qed.

(** ** The count *)

Lemma count_dense cm o a m :
  dense cm o → 0 <= a → count o (seqZ a (Z.of_nat m)) = Z.max 0 (Z.min (Z.of_nat m) (next_place cm - a)).
Proof.
  intros Hd. revert a. induction m as [|m IH]; intros a Ha; [rewrite seqZ_nil by done; cbn; lia|].
  rewrite seqZ_cons by lia. cbn [count foldr]. fold (count o (seqZ (Z.succ a) (Z.pred (Z.of_nat (S m))))).
  replace (Z.pred (Z.of_nat (S m))) with (Z.of_nat m) by lia. rewrite IH by lia.
  destruct (dense_dec cm o a Hd Ha) as [[Hlt [c ->]]|[Hge ->]]; cbn [taken]; lia.
Qed.

Lemma loadCount_spec cm o :
  keeps cm o → dense cm o → 0 <= next_place cm <= R * W → loadCount cm = next_place cm.
Proof.
  intros H Hd Hb. unfold loadCount. pose proof (keeps_shows _ _ H) as Hs.
  assert (K : ∀ k : nat, Z.of_nat k <= R →
    foldl (λ n i, wrapS 32 (n + connCounts cm (Z.of_nat i))) 0 (seq 0 k) = Z.min (next_place cm) (Z.of_nat k * W)).
  { induction k as [|k IH]; intros Hk; [cbn; lia|]. rewrite seq_S, foldl_app. cbn [foldl]. rewrite IH by lia.
    rewrite (shows_count _ _ _ Hs). unfold places. replace W with (Z.of_nat (Z.to_nat W)) at 3 by done.
    rewrite (count_dense cm o) by (done || unfold W; lia). unfold R, W in *. rewrite Z2Nat.id by lia.
    rewrite Nat.add_0_l, wrapS_id by (unfold in_s; lia). lia. }
  rewrite K by done. unfold R, W in *. lia.
Qed.

(** ** The two stores, side by side *)

Inductive op := OAdd (c : conn) (el : Z) | ODel (c : conn) | OGet (f : Z) | OCount.
Inductive answer := ADone | AConn (x : option conn) | ACount (n : Z) | APanic.

Definition matrix_step (o : op) (cm : connMatrix) : connMatrix * answer :=
  match o with
  | OAdd c el => match addConn c el cm with Ok cm => (cm, ADone) | _ => (cm, APanic) end
  | ODel c => match delConn c cm with Ok cm => (cm, ADone) | _ => (cm, APanic) end
  | OGet f => (cm, AConn (getConn f cm))
  | OCount => (cm, ACount (loadCount cm))
  end.

Definition map_step (o : op) (cm : connMap) : connMap * answer :=
  match o with
  | OAdd c el => (map_addConn c cm, ADone)
  | ODel c => (map_delConn c cm, ADone)
  | OGet f => (cm, AConn (map_getConn f cm))
  | OCount => (cm, ACount (map_loadCount cm))
  end.

Fixpoint matrix_run (os : list op) (cm : connMatrix) : connMatrix * list answer :=
  match os with
  | [] => (cm, [])
  | o :: os => let '(cm, a) := matrix_step o cm in let '(cm, l) := matrix_run os cm in (cm, a :: l)
  end.
Fixpoint map_run (os : list op) (cm : connMap) : connMap * list answer :=
  match os with
  | [] => (cm, [])
  | o :: os => let '(cm, a) := map_step o cm in let '(cm, l) := map_run os cm in (cm, a :: l)
  end.

(** What an event loop does: a socket that is added is not in use, a connection
    that is deleted is one that [getConn] gives for its socket, and there is
    room. *)
Definition legal (o : op) (cm : connMap) : Prop :=
  match o with
  | OAdd c el => conns cm !! fd c = None ∧ connCount cm < R * W ∧ in_s 64 (fd c) ∧ in_u 8 el
  | ODel c => conns cm !! fd c = Some c
  | _ => True
  end.

Fixpoint legal_run (os : list op) (cm : connMap) : Prop :=
  match os with
  | [] => True
  | o :: os => legal o cm ∧ legal_run os (map_step o cm).1
  end.

Record agree (cm : connMatrix) (m : connMap) (o : Z → option conn) : Prop := {
  agree_keeps : keeps cm o;
  agree_dense : dense cm o;
  agree_compact : disableCompact cm = false;
  agree_row : 0 <= row cm;
  agree_count : connCount m = next_place cm;
  agree_room : next_place cm <= R * W;
  agree_conns c : conns m !! fd c = Some c ↔ holds o c;
  agree_fds f c : conns m !! f = Some c → fd c = f;
}.

Lemma agree_init : agree init map_init (λ _, None).
Proof.
  split; try done.
  - split; try done.
    split; [done|intros r; cbn; rewrite lookup_empty; split; [by intros []|lia]|intros r; cbn].
    destruct (decide (0 < count (λ _, None) (places r))) as [H|H].
    + apply count_pos in H as (x & _ & []). done.
    + pose proof (count_bounds (λ _, None) (places r)). lia.
  - intros n. unfold next_place. cbn. split; [by intros []|lia].
  - intros c. cbn. rewrite lookup_empty. split; [done|]. by intros (n & ?).
Qed.

Lemma agree_next cm m o : agree cm m o → 0 <= next_place cm.
Proof. intros H. pose proof (agree_row _ _ _ H). pose proof (keeps_column _ _ (agree_keeps _ _ _ H)). unfold next_place, W in *. lia. Qed.

Lemma agree_step op cm m o : agree cm m o → legal op m →
  (matrix_step op cm).2 = (map_step op m).2 ∧ ∃ o', agree (matrix_step op cm).1 (map_step op m).1 o'.
Proof.
  intros H Hl. pose proof (agree_next _ _ _ H) as Hn. destruct H as [Hk Hd Hc Hr Hm Hroom Ha Hf].
  pose proof (keeps_column _ _ Hk) as Hcol. destruct op as [c el|c|f|]; cbn [matrix_step map_step].
  - destruct Hl as (Hfree & Hlt & Hfd & Hel). rewrite Hm in Hlt.
    assert (Hno : ∀ c', holds o c' → fd c' ≠ fd c).
    { intros c' Hc' E. apply Ha in Hc'. rewrite E in Hc'. congruence. }
    destruct (addConn_spec cm o c el Hk) as (cm' & -> & Hk' & Hn' & Hr' & Hc'); try done.
    { unfold next_place, R, W in *. lia. }
    { by apply (dense_none cm). }
    split; [done|]. cbn [fst]. eexists. split; [exact Hk'| |by rewrite Hc'|done| |lia| |].
    + intros n. rewrite Hn'. destruct (decide (n = next_place cm)) as [->|Hne].
      * rewrite fn_lookup_insert. split; [lia|eauto].
      * rewrite fn_lookup_insert_ne by done. rewrite (Hd n). lia.
    + cbn -[wrapS]. rewrite Hm, Hn'. apply wrapS_id; [done|]. unfold in_s, R, W in *. lia.
    + intros c'. cbn. destruct (decide (c' = c)) as [->|Hne].
      * rewrite lookup_insert_eq. split; [|done]. intros _. exists (next_place cm). by rewrite fn_lookup_insert.
      * split.
        -- intros [[_ [=]]|[Hfc Hin]]%lookup_insert_Some; [done|]. apply Ha in Hin as (n & Ho). exists n.
           rewrite fn_lookup_insert_ne; [done|]. intros <-. rewrite (dense_none cm o) in Ho by done. done.
        -- intros (n & [[_ [= ?]]|[_ Ho]]%place_free); [done|]. assert (holds o c') as Hh by (by exists n).
           rewrite lookup_insert_ne; [by apply Ha|]. intros E. by apply (Hno c').
    + intros f c'. cbn. intros [[<- <-]|[_ Hin]]%lookup_insert_Some; [done|by apply Hf].
  - cbn in Hl. assert (holds o c) as [n Ho] by (by apply Ha).
    destruct (delConn_spec cm o n c Hk Hd Hc Hr Ho) as (cm' & o' & -> & Hk' & Hd' & Hn' & Hc' & Hr' & Hh).
    split; [done|]. cbn [fst]. exists o'. split; try done.
    + cbn -[wrapS]. rewrite Hm, Hn'. apply wrapS_id; [done|]. unfold in_s, R, W in *. lia.
    + lia.
    + intros c'. rewrite Hh, <- Ha. cbn. rewrite lookup_delete_Some. split.
      * intros [Hne Hin]. split; [done|]. by intros ->.
      * intros [Hin Hne]. split; [|done]. intros E. rewrite E in Hl. congruence.
    + intros f c' Hin. cbn in Hin. apply lookup_delete_Some in Hin as [_ Hin]. by apply Hf.
  - split; [|by exists o]. cbn [snd]. f_equal. apply option_eq. intros c. rewrite (getConn_spec _ _ _ _ Hk).
    unfold map_getConn. split.
    + intros (n & Ho & <-). apply Ha. by exists n.
    + intros Hin. pose proof (Hf _ _ Hin) as <-. apply Ha in Hin as [n Ho]. eauto.
  - split; [|by exists o]. cbn [snd]. f_equal. rewrite (loadCount_spec cm o) by (done || lia). done.
Qed.

Lemma agree_run os cm m o : agree cm m o → legal_run os m →
  (matrix_run os cm).2 = (map_run os m).2 ∧ ∃ o', agree (matrix_run os cm).1 (map_run os m).1 o'.
Proof.
  revert cm m o. induction os as [|op os IH]; intros cm m o H; [split; [done|by exists o]|]. intros [Hl Hls].
  cbn [matrix_run map_run]. destruct (agree_step op cm m o H Hl) as [E [o' H']].
  destruct (matrix_step op cm) as [cm1 a1], (map_step op m) as [m1 a2]. cbn [fst snd] in *. subst a2.
  destruct (IH cm1 m1 o' H' Hls) as [E1 E2].
  destruct (matrix_run os cm1), (map_run os m1). cbn [fst snd] in *. split; [by rewrite E1|done].
Qed.


End stores.

(** ** Concrete stores *)

(** Connection [c] has socket [c + 3]. *)
Definition some_fd (c : conn) : Z := Z.of_nat c + 3.
Definition four_and_one_less : list op := [OAdd 0%nat 1; OAdd 1%nat 1; OAdd 2%nat 1; OAdd 3%nat 1; ODel 1%nat; OGet 6; OGet 4; OCount].

Lemma four_and_one_less_legal : legal_run some_fd four_and_one_less map_init.
Proof. cbn -[wrapS]. split_and!; try done; by vm_compute. Qed.



(** A connection that is deleted while the matrix is gone through leaves a hole
    behind which the next but one is put on top of another. *)
Lemma holes_are_overwritten :
  let cm := (matrix_run some_fd [OAdd 0%nat 1; OAdd 1%nat 1; OAdd 2%nat 1] init).1 in
  let iterating := mkMatrix true (connCounts cm) (row cm) (column cm) (table cm) (fd2gfd cm) (gfds cm) (monoSeq cm) in
  (matrix_run some_fd [ODel 0%nat; OAdd 3%nat 1; OAdd 4%nat 1; OGet 4; OCount] iterating).2 =
  [ADone; ADone; ADone; AConn (Some 4%nat); ACount 4].
Proof. by vm_compute. Qed.
