(* ===== verification/LoadBalance.v ===== *)
(** * utils/xnet: the event loop that a connection goes to (load_balancer.go)

    Loops in the order in which they registered, and the three policies.  Locks
    are held over a whole operation, which is one step here. *)
From S2P Require Import Prelude.
#[local] Close Scope nat_scope.
Open Scope Z_scope.

(** [idx], and what [countConn] says. *)
Record eventloop := mkLoop { idx : Z; countConn : Z }.
#[export] Instance eventloop_dec : EqDecision eventloop := ltac:(solve_decision).

Record baseLoadBalancer := mkBase { eventLoops : list eventloop; size : Z }.
Definition no_loops : baseLoadBalancer := mkBase [] 0.

Definition register (el : eventloop) (lb : baseLoadBalancer) : baseLoadBalancer :=
  mkBase (eventLoops lb ++ [mkLoop (size lb) (countConn el)]) (size lb + 1).

(** [eventLoops[i]] *)
Definition loop_at (i : Z) (lb : baseLoadBalancer) : outcome eventloop :=
  if bool_decide (i < 0) then Panic else
  match eventLoops lb !! Z.to_nat i with Some el => Ok el | None => Panic end.

Definition index (i : Z) (lb : baseLoadBalancer) : outcome (option eventloop) :=
  if bool_decide (i < 0 ∨ size lb <= i) then Ok None else el ← loop_at i lb; Ok (Some el).

(** The loops that [f] is called with, up to the first that it answers false. *)
Fixpoint visited (f : Z → eventloop → bool) (i : Z) (els : list eventloop) : list eventloop :=
  match els with [] => [] | el :: els => el :: (if f i el then visited f (i + 1) els else []) end.
Definition iterate (f : Z → eventloop → bool) (lb : baseLoadBalancer) : list eventloop := visited f 0 (eventLoops lb).

Definition num (lb : baseLoadBalancer) : Z := size lb.

(** ** RoundRobin *)

Record roundRobinLoadBalancer := mkRR { rr_base : baseLoadBalancer; nextIndex : Z }.

Definition rr_next (lb : roundRobinLoadBalancer) : roundRobinLoadBalancer * outcome (option eventloop) :=
  if bool_decide (size (rr_base lb) = 0) then (lb, Ok None) else
  let added := wrapU 64 (nextIndex lb + 1) in
  let i := wrapU 64 (added - 1) in
  (mkRR (rr_base lb) added, el ← loop_at (i mod wrapU 64 (size (rr_base lb))) (rr_base lb); Ok (Some el)).

(** ** LeastConnections *)

Fixpoint least (el : eventloop) (minN : Z) (els : list eventloop) : eventloop :=
  match els with
  | [] => el
  | candidate :: els =>
      let n := countConn candidate in
      if bool_decide (n < minN) then least candidate n els else least el minN els
  end.

Definition lc_next (lb : baseLoadBalancer) : outcome (option eventloop) :=
  if bool_decide (size lb = 0) then Ok None else
  match eventLoops lb with
  | [] => Panic
  | el :: els => Ok (Some (least el (countConn el) els))
  end.

(** ** SourceAddrHash *)

(** [hash/crc32]: the reflected polynomial of IEEE 802.3, bit by bit. *)
Definition IEEE : Z := 0xEDB88320.
Definition crc_bit (c : Z) : Z := if Z.odd c then Z.lxor (Z.shiftr c 1) IEEE else Z.shiftr c 1.
Definition crc_byte (c b : Z) : Z := Nat.iter 8 crc_bit (Z.lxor c b).
Definition ChecksumIEEE (s : list Z) : Z := Z.lxor (foldl crc_byte (2 ^ 32 - 1) s) (2 ^ 32 - 1).

Definition hash (s : list Z) : Z :=
  let v := wrapS 64 (ChecksumIEEE s) in if bool_decide (0 <= v) then v else wrapS 64 (- v).

(** [addr] is [addr.String()]. *)
Definition sh_next (addr : list Z) (lb : baseLoadBalancer) : outcome (option eventloop) :=
  if bool_decide (size lb = 0) then Ok None else el ← loop_at (Z.rem (hash addr) (size lb)) lb; Ok (Some el).

Example crc_check : ChecksumIEEE [49; 50; 51; 52; 53; 54; 55; 56; 57] = 0xCBF43926.
Proof. by vm_compute. Qed.

(** ** What registering keeps *)

Record numbered (lb : baseLoadBalancer) : Prop := {
  numbered_size : size lb = len (eventLoops lb);
  numbered_idx i el : eventLoops lb !! i = Some el → idx el = Z.of_nat i;
}.

Lemma no_loops_numbered : numbered no_loops.
Proof. by split. Qed.

Lemma register_numbered el lb : numbered lb → numbered (register el lb).
Proof.
  intros [Hs Hi]. split; cbn.
  - rewrite length_app. cbn. lia.
  - intros i el'. rewrite lookup_app_Some. intros [H|[Hge H]]; [by apply Hi|].
    apply list_lookup_singleton_Some in H as [H <-]. cbn. lia.
Qed.

Lemma loop_at_spec i lb :
  numbered lb → 0 <= i < size lb →
  ∃ el, loop_at i lb = Ok el ∧ eventLoops lb !! Z.to_nat i = Some el ∧ idx el = i.
Proof.
  intros [Hs Hi] H. destruct (lookup_lt_is_Some_2 (eventLoops lb) (Z.to_nat i)) as [el E]; [lia|].
  exists el. unfold loop_at. rewrite bool_decide_false, E by lia. split_and!; [done..|]. rewrite (Hi _ _ E). lia.
Qed.

(** ** RoundRobin: one loop after the other *)

Fixpoint rr_picks (n : nat) (lb : roundRobinLoadBalancer) : roundRobinLoadBalancer * list (outcome (option eventloop)) :=
  match n with
  | O => (lb, [])
  | S n => let '(lb, x) := rr_next lb in let '(lb, xs) := rr_picks n lb in (lb, x :: xs)
  end.

Lemma rr_next_spec lb :
  numbered (rr_base lb) → 0 < size (rr_base lb) < 2 ^ 63 → in_u 64 (nextIndex lb) →
  ∃ el, rr_next lb = (mkRR (rr_base lb) (wrapU 64 (nextIndex lb + 1)), Ok (Some el)) ∧
    idx el = nextIndex lb mod size (rr_base lb) ∧ el ∈ eventLoops (rr_base lb).
Proof.
  intros Hn Hs Hi. unfold rr_next. rewrite bool_decide_false by lia.
  rewrite (wrapU_id 64 (size _)) by (unfold in_u; lia).
  assert (E : wrapU 64 (wrapU 64 (nextIndex lb + 1) - 1) = nextIndex lb).
  { unfold wrapU. rewrite Zminus_mod_idemp_l. replace (nextIndex lb + 1 - 1) with (nextIndex lb) by lia. by apply Z.mod_small. }
  rewrite E. destruct (loop_at_spec (nextIndex lb mod size (rr_base lb)) (rr_base lb) Hn) as (el & -> & Hl & Hx).
  { apply Z.mod_pos_bound. lia. }
  exists el. split_and!; [done..|]. by apply list_elem_of_lookup_2 in Hl.
Qed.

(** The [n] picks from counter [c] on are the loops [c], [c+1], ... modulo their
    number. *)
Lemma rr_picks_spec n lb :
  numbered (rr_base lb) → 0 < size (rr_base lb) < 2 ^ 63 → 0 <= nextIndex lb → nextIndex lb + Z.of_nat n <= 2 ^ 64 →
  Forall2 (λ i x, ∃ el, x = Ok (Some el) ∧ idx el = i mod size (rr_base lb) ∧ el ∈ eventLoops (rr_base lb))
    (seqZ (nextIndex lb) (Z.of_nat n)) (rr_picks n lb).2.
Proof.
  revert lb. induction n as [|n IH]; intros lb Hn Hs Hi Hb; [by rewrite seqZ_nil|]. cbn [rr_picks].
  destruct (rr_next_spec lb Hn Hs) as (el & -> & Hx & Hin); [unfold in_u; lia|].
  set (lb' := mkRR (rr_base lb) (wrapU 64 (nextIndex lb + 1))).
  rewrite seqZ_cons by lia. destruct n as [|n].
  { cbn. constructor; [by exists el|]. by rewrite seqZ_nil by lia. }
  assert (Hnext : nextIndex lb' = nextIndex lb + 1) by (unfold lb'; cbn [nextIndex]; apply wrapU_id; unfold in_u; lia).
  destruct (rr_picks (S n) lb') as [lb2 xs] eqn:E. cbn [snd]. constructor; [by exists el|].
  specialize (IH lb' Hn Hs ltac:(lia) ltac:(lia)). rewrite E, Hnext in IH. cbn [snd] in IH.
  replace (Z.succ (nextIndex lb)) with (nextIndex lb + 1) by lia.
  by replace (Z.pred (Z.of_nat (S (S n)))) with (Z.of_nat (S n)) by lia.
Qed.

(** ** LeastConnections *)

Lemma least_spec el els :
  let el' := least el (countConn el) els in
  el' ∈ el :: els ∧ ∀ x, x ∈ el :: els → countConn el' <= countConn x.
Proof.
  revert el. induction els as [|e els IH]; intros el; cbn [least].
  { split; [by left|]. intros x ->%list_elem_of_singleton. lia. }
  case_bool_decide as Hlt.
  - destruct (IH e) as [H1 H2]. split; [by right|]. intros x [->|Hx]%elem_of_cons; [|by apply H2].
    specialize (H2 e ltac:(by left)). lia.
  - destruct (IH el) as [H1 H2]. split; [set_solver|]. intros x [->|[->|Hx]%elem_of_cons]%elem_of_cons.
    + apply H2. by left.
    + specialize (H2 el ltac:(by left)). lia.
    + apply H2. by right.
Qed.

Lemma lc_next_spec lb : numbered lb → 0 < size lb →
  ∃ el, lc_next lb = Ok (Some el) ∧ el ∈ eventLoops lb ∧ ∀ x, x ∈ eventLoops lb → countConn el <= countConn x.
Proof.
  intros [Hs _] H. unfold lc_next. rewrite bool_decide_false by lia.
  destruct (eventLoops lb) as [|el els] eqn:E; [cbn in *; lia|].
  destruct (least_spec el els) as [H1 H2]. eauto.
Qed.

(** A connection that the chosen loop has taken in. *)
Definition one_more (el : eventloop) : eventloop := mkLoop (idx el) (countConn el + 1).
Definition accept (lb : baseLoadBalancer) : baseLoadBalancer :=
  match lc_next lb with
  | Ok (Some el) => mkBase (alter one_more (Z.to_nat (idx el)) (eventLoops lb)) (size lb)
  | _ => lb
  end.

Definition all_conns (els : list eventloop) : Z := foldr (λ el n, countConn el + n) 0 els.
Definition level (els : list eventloop) : Prop := ∀ x y, x ∈ els → y ∈ els → countConn x <= countConn y + 1.

Lemma all_conns_alter els i el :
  els !! i = Some el → all_conns (alter one_more i els) = all_conns els + 1.
Proof.
  revert i. induction els as [|e els IH]; intros [|i] H; [done..| |].
  - injection H as <-. cbn. lia.
  - cbn [all_conns foldr alter list_alter]. specialize (IH i H). unfold all_conns in IH. cbn. 
    change (list_alter one_more i els) with (alter one_more i els). lia.
Qed.

Lemma accept_spec lb :
  numbered lb → 0 < size lb → level (eventLoops lb) →
  numbered (accept lb) ∧ size (accept lb) = size lb ∧ level (eventLoops (accept lb)) ∧
  all_conns (eventLoops (accept lb)) = all_conns (eventLoops lb) + 1.
Proof.
  intros Hn Hs Hl. destruct (lc_next_spec lb Hn Hs) as (el & E & Hin & Hmin). unfold accept. rewrite E. cbn.
  destruct Hn as [Hsz Hidx]. apply list_elem_of_lookup in Hin as [i Hi]. pose proof (Hidx _ _ Hi) as Hel.
  rewrite Hel, Nat2Z.id. split_and!; [split; cbn|done| |by apply (all_conns_alter _ _ el)].
  - by rewrite length_alter.
  - intros j x Hj. destruct (decide (i = j)) as [<-|Hne].
    + rewrite list_lookup_alter_eq, Hi in Hj. injection Hj as <-. done.
    + rewrite list_lookup_alter_ne in Hj by done. by apply Hidx.
  - assert (K : ∀ x, x ∈ alter one_more i (eventLoops lb) → x = one_more el ∨ x ∈ eventLoops lb).
    { intros x [j Hj]%list_elem_of_lookup. destruct (decide (i = j)) as [<-|Hne].
      - rewrite list_lookup_alter_eq, Hi in Hj. injection Hj as <-. by left.
      - rewrite list_lookup_alter_ne in Hj by done. right. by apply list_elem_of_lookup_2 in Hj. }
    apply list_elem_of_lookup_2 in Hi.
    intros x y [->|Hx]%K [->|Hy]%K; cbn.
    + lia.
    + specialize (Hmin y Hy). lia.
    + specialize (Hl x el Hx Hi). lia.
    + by apply Hl.
Qed.

(** [n] loops that have registered. *)
Definition registered (n : nat) : baseLoadBalancer := Nat.iter n (register (mkLoop 0 0)) no_loops.

Lemma registered_spec n :
  numbered (registered n) ∧ size (registered n) = Z.of_nat n ∧
  level (eventLoops (registered n)) ∧ all_conns (eventLoops (registered n)) = 0 ∧
  Forall (λ el, countConn el = 0) (eventLoops (registered n)).
Proof.
  assert (H : numbered (registered n) ∧ size (registered n) = Z.of_nat n ∧
    Forall (λ el, countConn el = 0) (eventLoops (registered n))).
  { induction n as [|n (H1 & H2 & H3)]; [done|]. change (registered (S n)) with (register (mkLoop 0 0) (registered n)). split_and!.
    - by apply register_numbered.
    - change (size (registered n) + 1 = Z.of_nat (S n)). lia.
    - cbn. apply Forall_app. split; [done|]. by apply Forall_singleton. }
  destruct H as (H1 & H2 & H3). split_and!; try done.
  - intros x y Hx Hy. rewrite Forall_forall in H3. rewrite (H3 x Hx), (H3 y Hy). lia.
  - clear H1 H2. induction H3 as [|x l Hx H IH]; [done|]. cbn. rewrite Hx. unfold all_conns in IH. lia.
Qed.

(** The policy of the least connections levels the loops: after any number of
    connections, each counted before the next is given out, they have all of
    them, and no loop has two more than another. *)
Theorem least_connections_level n k :
  (0 < n)%nat →
  let els := eventLoops (Nat.iter k accept (registered n)) in
  length els = n ∧ all_conns els = Z.of_nat k ∧ (∀ x y, x ∈ els → y ∈ els → countConn x <= countConn y + 1).
Proof.
  intros Hn. destruct (registered_spec n) as (H1 & H2 & H3 & H4 & _).
  assert (K : let lb := Nat.iter k accept (registered n) in numbered lb ∧ size lb = Z.of_nat n ∧
    level (eventLoops lb) ∧ all_conns (eventLoops lb) = Z.of_nat k).
  { induction k as [|k (K1 & K2 & K3 & K4)]; [done|]. rewrite Nat.iter_succ.
    destruct (accept_spec (Nat.iter k accept (registered n))) as (A1 & A2 & A3 & A4); [done|lia|done|].
    split_and!; [done|congruence|done|]. rewrite A4, K4. lia. }
  destruct K as ([Hs _] & K2 & K3 & K4). split_and!; [lia|done|done].
Qed.

(** Turns of the round robin: any [size] picks in a row, before the 64-bit
    counter wraps, are each of the loops once, in the order of their numbers,
    starting at the counter's. *)
Theorem round_robin_turns lb :
  numbered (rr_base lb) → 0 < size (rr_base lb) < 2 ^ 63 → 0 <= nextIndex lb →
  nextIndex lb + size (rr_base lb) <= 2 ^ 64 →
  let k := Z.to_nat (nextIndex lb mod size (rr_base lb)) in
  let els := eventLoops (rr_base lb) in
  (rr_picks (length els) lb).2 = (λ el, Ok (Some el)) <$> drop k els ++ take k els.
Proof.
  intros Hn Hs Hi Hb k els. pose proof Hn as [Hsz Hidx]. fold els in Hsz.
  pose proof (rr_picks_spec (length els) lb Hn Hs Hi ltac:(lia)) as H.
  assert (Hk : (k < length els)%nat). { pose proof (Z.mod_pos_bound (nextIndex lb) (size (rr_base lb)) ltac:(lia)). lia. }
  apply list_eq_Forall2, Forall2_same_length_lookup_2.
  { rewrite <- (Forall2_length _ _ _ H), length_seqZ, length_fmap, length_app, length_drop, length_take. lia. }
  intros j x y Hx Hy. rewrite list_lookup_fmap in Hy. apply fmap_Some in Hy as (e & He & ->).
  destruct (Forall2_lookup_r _ _ _ _ _ H Hx) as (i & Hi' & el & -> & Ei & Hin). do 2 f_equal.
  apply lookup_seqZ in Hi' as [-> Hj].
  apply list_elem_of_lookup in Hin as [m Hm]. fold els in Hm. pose proof (Hidx _ _ Hm) as Em.
  assert (Hm' : m = (if decide (j < length els - k)%nat then k + j else j - (length els - k))%nat).
  { rewrite Em in Ei. pose proof (Z.div_mod (nextIndex lb) (size (rr_base lb)) ltac:(lia)) as Hd.
    assert (Hkz : Z.of_nat k = nextIndex lb mod size (rr_base lb)).
    { unfold k. rewrite Z2Nat.id; [done|]. apply Z.mod_pos_bound. lia. }
    apply Nat2Z.inj. rewrite Ei.
    rewrite Zplus_mod, <- Hkz. case_decide.
    - rewrite (Z.mod_small (Z.of_nat j)), Z.mod_small by lia. lia.
    - rewrite (Z.mod_small (Z.of_nat j)) by lia.
      replace (Z.of_nat k + Z.of_nat j) with (Z.of_nat k + Z.of_nat j - size (rr_base lb) + 1 * size (rr_base lb)) by lia.
      rewrite Z.mod_add, Z.mod_small by lia. lia. }
  case_decide.
  - rewrite lookup_app_l in He by (rewrite length_drop; lia). rewrite lookup_drop in He. subst m. congruence.
  - rewrite lookup_app_r, length_drop in He by (rewrite length_drop; lia).
    apply lookup_take_Some in He as [He _]. subst m. congruence.
Qed.

(** ** SourceAddrHash: a number of 32 bits *)

Lemma lxor_u w a b : 0 <= w → in_u w a → in_u w b → in_u w (Z.lxor a b).
Proof.
  unfold in_u. intros Hw Ha Hb. assert (0 <= Z.lxor a b) as H0 by (apply Z.lxor_nonneg; lia). split; [done|].
  destruct (decide (Z.lxor a b = 0)) as [->|Hne]; [lia|]. apply Z.log2_lt_pow2; [lia|].
  pose proof (Z.log2_lxor a b ltac:(lia) ltac:(lia)).
  assert (K : ∀ x, 0 <= x < 2 ^ w → Z.log2 x < w ∨ Z.log2 x <= 0).
  { intros x Hx. destruct (decide (x = 0)) as [->|]; [right; done|]. left. apply Z.log2_lt_pow2; lia. }
  destruct (decide (w = 0)) as [->|].
  { change (2 ^ 0) with 1 in *. assert (a = 0) as -> by lia. assert (b = 0) as -> by lia. done. }
  destruct (K a Ha), (K b Hb); lia.
Qed.

Lemma crc_bit_u c : in_u 32 c → in_u 32 (crc_bit c).
Proof.
  intros H. unfold crc_bit. assert (in_u 32 (Z.shiftr c 1)) as Hs.
  { unfold in_u in *. rewrite Z.shiftr_div_pow2 by lia. change (2 ^ 1) with 2.
    pose proof (Z.div_mod c 2 ltac:(lia)). pose proof (Z.mod_pos_bound c 2 ltac:(lia)). lia. }
  destruct (Z.odd c); [|done]. by apply lxor_u.
Qed.

Lemma ChecksumIEEE_u s : Forall is_byte s → in_u 32 (ChecksumIEEE s).
Proof.
  intros H. unfold ChecksumIEEE. apply lxor_u; [done| |done].
  assert (K : ∀ c, in_u 32 c → in_u 32 (foldl crc_byte c s)); [|by apply K].
  induction H as [|b s Hb Hs IH]; intros c Hc; [done|]. cbn [foldl]. apply IH. unfold crc_byte.
  apply Nat.iter_invariant; [intros; by apply crc_bit_u|]. apply lxor_u; [done..|].
  unfold is_byte, in_u in *. lia.
Qed.

(** With loops of its own every policy picks one of them; the same address
    always the same. *)
Lemma sh_next_spec addr lb :
  numbered lb → 0 < size lb → Forall is_byte addr →
  ∃ el, sh_next addr lb = Ok (Some el) ∧ el ∈ eventLoops lb ∧ idx el = ChecksumIEEE addr mod size lb.
Proof.
  intros Hn Hs Hb. pose proof (ChecksumIEEE_u addr Hb) as Hu. unfold sh_next, hash. rewrite bool_decide_false by lia.
  rewrite wrapS_id by (unfold in_u, in_s in *; lia). rewrite bool_decide_true by (unfold in_u in Hu; lia).
  rewrite Z.rem_mod_nonneg by (unfold in_u in Hu; lia).
  destruct (loop_at_spec (ChecksumIEEE addr mod size lb) lb Hn) as (el & -> & Hl & Hx); [by apply Z.mod_pos_bound|].
  exists el. split_and!; [done| |done]. by apply list_elem_of_lookup_2 in Hl.
Qed.

(** ** Witnesses *)

Lemma least_connections_level_witness :
  countConn <$> eventLoops (Nat.iter 7 accept (registered 3)) = [3; 2; 2] ∧
  all_conns (eventLoops (Nat.iter 7 accept (registered 3))) = 7.
Proof.
  split; [by vm_compute|]. destruct (least_connections_level 3 7) as (_ & H & _); [lia|]. exact H.
Defined.

Lemma round_robin_turns_witness :
  (rr_picks 3 (mkRR (registered 3) 4)).2 =
  [Ok (Some (mkLoop 1 0)); Ok (Some (mkLoop 2 0)); Ok (Some (mkLoop 0 0))].
Proof.
  apply (round_robin_turns (mkRR (registered 3) 4)); [apply registered_spec|by vm_compute..].
Defined.
