(* ===== verification/TcpConn.v ===== *)
(** * network/tcp: the server's end of a player's connection

    server_conn.go, server_conn_mgr.go and network/queue.go.  A [serverConn] is
    an object of a pool: one after the other it is the connection of several
    players, each time with new channels.  Such a time is a [life]; the atomic
    variables, the timer and what the manager knows are those of the object
    ([serverConn]).  Every goroutine that is inside one of the methods is a
    [thread] that stands before its next access to something shared; [turn] is
    one access of one thread, or the start of a new call, and [run] any sequence
    of them.  What a read or a write of the socket gives is chosen with the turn.

    A compare-and-swap that fails and the load after it are one turn, and so are
    the evaluation of a channel and the load before it; a second caller of
    [closeOnce.Do] does not wait for the first, which changes only when it
    returns.  A timer that is replaced or stopped does not fire.

    [xcall.Call] answers a panic with a panic, so a thread that is [Crashed]
    means that the process is gone. *)
From S2P Require Import Prelude.
#[local] Close Scope nat_scope.
Open Scope Z_scope.

(** ** The data *)

Definition DefaultRecvQueueSize : nat := 1024.
Definition DefaultWriteQueueSize : nat := 4096.

Definition msg : Type := list Z.
Inductive ConnState := ConnZero | ConnOpened | ConnHanged | ConnClosed.
#[export] Instance connstate_dec : EqDecision ConnState := ltac:(solve_decision).
Inductive chwrite := closeSig | dataPacket (m : msg).

(** The channels of one [init], whether [closeOnce] has run, and the socket:
    what has been written to it and whether it has been closed. *)
Record life := mkLife {
  recvQ : list msg;
  recv_closed : bool;
  chWrite : list chwrite;
  done_ : bool;
  close_ : bool;
  closeOnce : bool;
  out : list Z;
  sock_closed : bool;
}.
Definition new_life : life := mkLife [] false [] false false false [] false.

Definition set_recvQ x (l : life) := mkLife x (recv_closed l) (chWrite l) (done_ l) (close_ l) (closeOnce l) (out l) (sock_closed l).
Definition close_recvQ (l : life) := mkLife (recvQ l) true (chWrite l) (done_ l) (close_ l) (closeOnce l) (out l) (sock_closed l).
Definition set_chWrite x (l : life) := mkLife (recvQ l) (recv_closed l) x (done_ l) (close_ l) (closeOnce l) (out l) (sock_closed l).
Definition set_done (l : life) := mkLife (recvQ l) (recv_closed l) (chWrite l) true (close_ l) (closeOnce l) (out l) (sock_closed l).
Definition set_close (l : life) := mkLife (recvQ l) (recv_closed l) (chWrite l) (done_ l) true true (out l) (sock_closed l).
Definition add_out x (l : life) := mkLife (recvQ l) (recv_closed l) (chWrite l) (done_ l) (close_ l) (closeOnce l) (out l ++ x) (sock_closed l).
Definition close_sock (l : life) := mkLife (recvQ l) (recv_closed l) (chWrite l) (done_ l) (close_ l) (closeOnce l) (out l) true.

(** The object and the manager.  [conn] and [authorizeTimer] name the life they
    are of; a socket is named by its life too, in [connections] (the
    partitions); [pooled]: the pool holds the object. *)
Record serverConn := mkConn {
  generation : Z;
  uid : Z;
  state : ConnState;
  conn : option nat;
  authorizeTimer : option Z;
  lives : list life;
  connections : list nat;
  total : Z;
  pooled : bool;
}.

Definition set_uid x (s : serverConn) := mkConn (generation s) x (state s) (conn s) (authorizeTimer s) (lives s) (connections s) (total s) (pooled s).
Definition set_state x (s : serverConn) := mkConn (generation s) (uid s) x (conn s) (authorizeTimer s) (lives s) (connections s) (total s) (pooled s).
Definition set_conn x (s : serverConn) := mkConn (generation s) (uid s) (state s) x (authorizeTimer s) (lives s) (connections s) (total s) (pooled s).
Definition set_timer x (s : serverConn) := mkConn (generation s) (uid s) (state s) (conn s) x (lives s) (connections s) (total s) (pooled s).
Definition set_lives x (s : serverConn) := mkConn (generation s) (uid s) (state s) (conn s) (authorizeTimer s) x (connections s) (total s) (pooled s).
Definition set_mgr x n p (s : serverConn) := mkConn (generation s) (uid s) (state s) (conn s) (authorizeTimer s) (lives s) x n p.

(** The fields [recvQ], [chWrite], [done], [close] of the object are those of the
    last life. *)
Definition cur (s : serverConn) : nat := Nat.pred (length (lives s)).
Definition life_at (k : nat) (s : serverConn) : life := default new_life (lives s !! k).
Definition on_life (k : nat) (f : life → life) (s : serverConn) : serverConn := set_lives (alter f k (lives s)) s.

(** A new object. *)
Definition new_serverConn : serverConn := mkConn 0 0 ConnZero None None [] [] 0 true.

(** ** The threads *)

(** [graceClose], [finishGraceClose], [forceClose], [forceCloseIfCurrent] (with a
    generation) and [doClose]. *)
Inductive close_pc :=
  | G_cas
  | G_conn
  | G_sig (k : nat)
  | G_wait (k : nat)
  | G_finish
  | F_gen (g : Z)
  | F_load (g : option Z)
  | F_gen2 (g : Z) (st : ConnState)
  | F_cas (g : option Z) (st : ConnState)
  | F_last (g : Z)
  | C_once
  | C_done
  | C_recvq
  | C_swap
  | C_handler (box : option nat)
  | C_recycle (k : nat)
  | C_end.

(** [enqueueWrite]. *)
Inductive push_pc :=
  | P_state (m : msg)
  | P_conn (m : msg)
  | P_send (k : nat) (m : msg)
  | P_wait (k : nat) (m : msg)
  | P_sent (m : msg)
  | P_check (m : msg)
  | P_end.

Inductive read_pc :=
  | R_start
  | R_top (g : Z) (k : nat)
  | R_read (g : Z) (k : nat)
  | R_gen (g : Z) (k : nat) (d : msg)
  | R_state (g : Z) (k : nat) (d : msg)
  | R_send (g : Z) (k : nat) (d : msg)
  | R_end.

Inductive loop_pc :=
  | L_start (g : Z)
  | L_recv (g : Z) (k : nat)
  | L_gen (g : Z) (k : nat) (d : msg)
  | L_state (g : Z) (k : nat) (d : msg)
  | L_handle (g : Z) (k : nat) (d : msg)
  | L_end.

Inductive write_pc :=
  | W_start
  | W_select (g : Z) (k : nat)
  | W_gen (g : Z) (k : nat) (m : msg)
  | W_closed (g : Z) (k : nat) (m : msg)
  | W_conn (g : Z) (k : nat) (m : msg)
  | W_write (g : Z) (k : nat) (sock : nat) (m : msg)
  | W_end.

Inductive thread :=
  | Closing (p : close_pc)
  | Pushing (p : push_pc)
  | Reading (p : read_pc)
  | Receiving (p : loop_pc)
  | Writing (p : write_pc)
  | Timing (g : Z) (checked : bool)
  | Binding (u : option Z) (stored : bool)
  | Allocating (k : nat) (steps : nat)
  | Crashed.

(** What is seen of a turn. *)
Inductive event :=
  | Accepted (m : msg)
  | Returned (m : msg) (e : option error)
  | SigPut
  | SigTaken
  | Wrote (k : nat) (bs : list Z)
  | Got (d : msg)
  | Queued (d : msg)
  | Handled (d : msg)
  | Forced
  | Connected
  | Disconnected
  | Recycled (k : nat).

(** What a turn may depend on besides the state: which ready case of a [select]
    is taken, that the time is up, the answer of the socket. *)
Inductive pick :=
  | Plain
  | SeeClosed
  | TimeUp
  | Arrives (d : msg)
  | Fails (n : nat).

Section server.
(** [opts.authorizeTimeout > 0] and [opts.maxConnNum]. *)
Context (authorizes : bool) (maxConnNum : Z).

Definition uncheckAuthorize (s : serverConn) : serverConn := if authorizes then set_timer None s else s.
Definition checkAuthorize (s : serverConn) : serverConn :=
  if authorizes then set_timer (Some (generation s)) s else s.

(** [notifyDone]: [doneOnce] is of the current life, as the channel. *)
Definition notifyDone (s : serverConn) : serverConn := on_life (cur s) set_done s.

Definition send (k : nat) (w : chwrite) (s : serverConn) : serverConn :=
  on_life k (λ l, set_chWrite (chWrite l ++ [w]) l) s.
Definition write_room (k : nat) (s : serverConn) : bool :=
  bool_decide (length (chWrite (life_at k s)) < DefaultWriteQueueSize)%nat.

(** ** Closing *)

(** The end of [graceClose] and [forceClose], and [doClose]. *)
Definition close_turn (x : pick) (p : close_pc) (s : serverConn) : serverConn * option close_pc * list event :=
  match p with
  | G_cas =>
      match state s with
      | ConnOpened => (uncheckAuthorize (set_state ConnHanged s), Some G_conn, [])
      | ConnHanged => (s, Some (G_wait (cur s)), [])
      | _ => (s, Some C_end, [])
      end
  | G_conn => (s, Some (match conn s with None => G_finish | Some _ => G_sig (cur s) end), [])
  | G_sig k =>
      match x with
      | SeeClosed => if close_ (life_at k s) then (s, Some C_end, []) else (s, Some p, [])
      | _ => if write_room k s then (send k closeSig s, Some (G_wait (cur s)), [SigPut]) else (s, Some p, [])
      end
  | G_wait k => (s, Some (if done_ (life_at k s) then G_finish else p), [])
  | G_finish =>
      if decide (state s = ConnHanged) then (set_state ConnClosed s, Some C_once, []) else (s, Some C_end, [])
  | F_gen g => (s, Some (if decide (generation s = g) then F_load (Some g) else C_end), [])
  | F_load g =>
      match state s with
      | ConnOpened | ConnHanged =>
          (s, Some (match g with Some g => F_gen2 g (state s) | None => F_cas None (state s) end), [])
      | _ => (s, Some C_end, [])
      end
  | F_gen2 g st => (s, Some (if decide (generation s = g) then F_cas (Some g) st else C_end), [])
  | F_cas g st =>
      if decide (state s = st) then
        (uncheckAuthorize (set_state ConnClosed s), Some (match g with Some g => F_last g | None => C_once end), [Forced])
      else (s, Some (match g with Some g => F_gen g | None => F_load None end), [])
  | F_last g => (s, Some (if decide (generation s = g) then C_once else C_end), [])
  | C_once =>
      let l := life_at (cur s) s in
      if closeOnce l then (s, Some C_end, [])
      else if close_ l then (s, None, [])
      else (on_life (cur s) set_close (uncheckAuthorize s), Some C_done, [])
  | C_done => (notifyDone s, Some C_recvq, [])
  | C_recvq =>
      if recv_closed (life_at (cur s) s) then (s, None, [])
      else (on_life (cur s) close_recvQ s, Some C_swap, [])
  | C_swap =>
      match conn s with
      | Some k => (set_conn None (on_life k close_sock s), Some (C_handler (Some k)), [])
      | None => (s, Some (C_handler None), [])
      end
  | C_handler box => (s, Some (match box with Some k => C_recycle k | None => C_end end), [Disconnected])
  | C_recycle k =>
      if decide (k ∈ connections s) then
        (set_mgr (filter (λ j, j ≠ k) (connections s)) (total s - 1) true s, Some C_end, [Recycled k])
      else (s, Some C_end, [])
  | C_end => (s, Some C_end, [])
  end.

(** ** Pushing, for both [Send] and [Push] *)

Definition checkState (s : serverConn) : option error :=
  match state s with ConnHanged => Some ErrConnectionHanged | ConnClosed => Some ErrConnectionClosed | _ => None end.

Definition push_turn (x : pick) (p : push_pc) (s : serverConn) : serverConn * thread * list event :=
  match p with
  | P_state m => (s, Pushing (if decide (state s = ConnOpened) then P_conn m else P_check m), [])
  | P_conn m =>
      match conn s with
      | None => (s, Pushing P_end, [Returned m (Some ErrConnectionClosed)])
      | Some _ => (s, Pushing (P_send (cur s) m), [])
      end
  | P_send k m =>
      match write_room k s, close_ (life_at k s), x with
      | false, false, _ => (s, Pushing (P_wait (cur s) m), [])
      | false, true, _ | true, true, SeeClosed => (s, Pushing P_end, [Returned m (Some ErrConnectionClosed)])
      | true, _, _ => (send k (dataPacket m) s, Pushing (P_sent m), [Accepted m])
      end
  | P_wait k m =>
      match x with
      | TimeUp => (s, Closing (F_load None), [Returned m (Some ErrWriteQueueTimeout)])
      | SeeClosed => if close_ (life_at k s) then (s, Pushing P_end, [Returned m (Some ErrConnectionClosed)])
                     else (s, Pushing p, [])
      | _ => if write_room k s then (send k (dataPacket m) s, Pushing (P_sent m), [Accepted m])
             else (s, Pushing p, [])
      end
  | P_sent m =>
      if decide (state s = ConnOpened) then (s, Pushing P_end, [Returned m None]) else (s, Pushing (P_check m), [])
  | P_check m => (s, Pushing P_end, [Returned m (checkState s)])
  | P_end => (s, Pushing P_end, [])
  end.

(** ** Reading and receiving *)

Definition read_turn (x : pick) (p : read_pc) (s : serverConn) : serverConn * thread * list event :=
  match p with
  | R_start =>
      (s, match conn s with
          | None => Closing (F_gen (generation s))
          | Some _ => Reading (R_top (generation s) (cur s))
          end, [])
  | R_top g k => (s, Reading (if close_ (life_at k s) then R_end else R_read g k), [])
  | R_read g k =>
      match x, sock_closed (life_at k s) with
      | Fails _, _ | _, true => (s, Closing (F_gen g), [])
      | Arrives d, false => (s, Reading (R_gen g k d), [Got d])
      | _, false => (s, Reading p, [])
      end
  | R_gen g k d => (s, Reading (if decide (generation s = g) then R_state g k d else R_end), [])
  | R_state g k d =>
      (s, Reading (match state s with
                   | ConnHanged => R_top g k
                   | ConnClosed => R_end
                   | _ => if decide (d = []) then R_top g k else R_send g k d
                   end), [])
  | R_send g k d =>
      let l := life_at (cur s) s in
      if recv_closed l then (s, Crashed, [])
      else if decide (length (recvQ l) < DefaultRecvQueueSize)%nat then
        (on_life (cur s) (λ l, set_recvQ (recvQ l ++ [d]) l) s, Reading (R_top g k), [Queued d])
      else (s, Closing (F_gen g), [])
  | R_end => (s, Reading R_end, [])
  end.

Definition loop_turn (p : loop_pc) (s : serverConn) : serverConn * thread * list event :=
  match p with
  | L_start g => (s, Receiving (L_recv g (cur s)), [])
  | L_recv g k =>
      match recvQ (life_at k s) with
      | d :: _ => (on_life k (λ l, set_recvQ (tail (recvQ l)) l) s, Receiving (L_gen g k d), [])
      | [] => (s, Receiving (if recv_closed (life_at k s) then L_end else p), [])
      end
  | L_gen g k d => (s, Receiving (if decide (generation s = g) then L_state g k d else L_end), [])
  | L_state g k d => (s, Receiving (if decide (state s = ConnOpened) then L_handle g k d else L_end), [])
  | L_handle g k d => (s, Receiving (L_recv g k), [Handled d])
  | L_end => (s, Receiving L_end, [])
  end.

(** ** Writing *)

Definition write_turn (x : pick) (p : write_pc) (s : serverConn) : serverConn * thread * list event :=
  match p with
  | W_start => (s, Writing (W_select (generation s) (cur s)), [])
  | W_select g k =>
      match x, close_ (life_at k s), chWrite (life_at k s) with
      | SeeClosed, true, _ | _, true, [] => (s, Writing W_end, [])
      | _, false, [] => (s, Writing p, [])
      | _, _, closeSig :: q => (notifyDone (on_life k (set_chWrite q) s), Writing W_end, [SigTaken])
      | _, _, dataPacket m :: q =>
          (on_life k (set_chWrite q) s, Writing (if decide (m = []) then p else W_gen g k m), [])
      end
  | W_gen g k m => (s, Writing (if decide (generation s = g) then W_closed g k m else W_end), [])
  | W_closed g k m => (s, Writing (if decide (state s = ConnClosed) then W_end else W_conn g k m), [])
  | W_conn g k m =>
      (s, match conn s with None => Closing (F_gen g) | Some j => Writing (W_write g k j m) end, [])
  | W_write g k j m =>
      match x, sock_closed (life_at j s) with
      | _, true => (s, Closing (F_gen g), [])
      | Fails n, false => (on_life j (add_out (take n m)) s, Closing (F_gen g), [Wrote j (take n m)])
      | _, false => (on_life j (add_out m) s, Writing (W_select g k), [Wrote j m])
      end
  | W_end => (s, Writing W_end, [])
  end.

(** ** The timer, binding, and what [allocate] does after [init] *)

Definition timer_turn (g : Z) (checked : bool) (s : serverConn) : thread :=
  if negb checked then (if decide (generation s = g) then Timing g true else Closing C_end)
  else if decide (uid s = 0) then Closing (F_gen g) else Closing C_end.

Definition bind_turn (u : option Z) (stored : bool) (s : serverConn) : serverConn * thread :=
  match u, stored with
  | Some v, false => (set_uid v s, Binding u true)
  | None, false => (set_uid 0 s, Binding u true)
  | Some _, true => (uncheckAuthorize s, Closing C_end)
  | None, true => (checkAuthorize s, Closing C_end)
  end.

Definition alloc_turn (k steps : nat) (s : serverConn) : serverConn * thread * list event :=
  match steps with
  | 0%nat => (checkAuthorize s, Allocating k 1, [])
  | 1%nat => (s, Allocating k 2, [Connected])
  | 2%nat => (set_mgr (connections s ++ [k]) (total s) (pooled s) s, Allocating k 3, [])
  | 3%nat => (set_mgr (connections s) (total s + 1) (pooled s) s, Allocating k 4, [])
  | _ => (s, Closing C_end, [])
  end.

Definition thread_turn (x : pick) (t : thread) (s : serverConn) : serverConn * thread * list event :=
  match t with
  | Closing p =>
      let '(s, p, es) := close_turn x p s in (s, match p with Some p => Closing p | None => Crashed end, es)
  | Pushing p => push_turn x p s
  | Reading p => read_turn x p s
  | Receiving p => loop_turn p s
  | Writing p => write_turn x p s
  | Timing g b => (s, timer_turn g b s, [])
  | Binding u b => let '(s, t) := bind_turn u b s in (s, t, [])
  | Allocating k n => alloc_turn k n s
  | Crashed => (s, Crashed, [])
  end.

(** ** The system *)

Record system := mkSystem { object : serverConn; threads : list thread }.

(** [init] in one step, up to the check of the authorization. *)
Definition init (s : serverConn) : serverConn :=
  mkConn (generation s + 1) 0 ConnOpened (Some (length (lives s))) None (lives s ++ [new_life])
    (connections s) (total s) false.
Definition started (s : serverConn) : list thread :=
  [Reading R_start; Receiving (L_start (generation s)); Writing W_start; Allocating (cur s) 0].

Inductive choice :=
  | Go (t : nat) (x : pick)
  | DoPush (m : msg)
  | DoClose (force : bool)
  | DoBind (u : Z)
  | DoUnbind
  | Fire
  | Allocate.

Definition spawn (ts : list thread) (y : system) : system := mkSystem (object y) (threads y ++ ts).

Definition turn (c : choice) (y : system) : system * list event :=
  match c with
  | Go t x =>
      match threads y !! t with
      | Some p =>
          let '(s, p, es) := thread_turn x p (object y) in (mkSystem s (<[t := p]> (threads y)), es)
      | None => (y, [])
      end
  | DoPush m => (if decide (m = []) then y else spawn [Pushing (P_state m)] y, [])
  | DoClose force => (spawn [Closing (if force : bool then F_load None else G_cas)] y, [])
  | DoBind u => (spawn [Binding (Some u) false] y, [])
  | DoUnbind => (spawn [Binding None false] y, [])
  | Fire =>
      match authorizeTimer (object y) with
      | Some g => (mkSystem (set_timer None (object y)) (threads y ++ [Timing g false]), [])
      | None => (y, [])
      end
  | Allocate =>
      if pooled (object y) && negb (bool_decide (maxConnNum <= total (object y))) then
        let s := init (object y) in (mkSystem s (threads y ++ started s), [])
      else (y, [])
  end.

Fixpoint run (cs : list choice) (y : system) : system * list event :=
  match cs with
  | [] => (y, [])
  | c :: cs => let '(y, es) := turn c y in let '(y, es') := run cs y in (y, es ++ es')
  end.

(** A connection just made of a new object. *)
Definition start : system := (turn Allocate (mkSystem new_serverConn [])).1.
End server.

(** ** What can go wrong *)

Definition go (n t : nat) : list choice := replicate n (Go t Plain).

(** A message arrives while the connection is being closed: [doClose] has closed
    the queue that the reader sends to, and the process panics. *)
Lemma reader_crashes :
  let cs := go 4 3 ++ go 2 0 ++ [Go 0 (Arrives [7])] ++ go 2 0 ++ [DoClose true] ++ go 5 4 ++ go 1 0 in
  threads (run false 100 cs (start false 100)).1 !! 0%nat = Some Crashed.
Proof. by vm_compute. Qed.

(** A connection that fails before [allocate] has stored it is not found by
    [recycle], and then stored and counted for ever, although it is closed. *)
Lemma early_failure_leaks :
  let cs := go 1 3 ++ go 2 0 ++ [Go 0 (Fails 0)] ++ go 11 0 ++ go 4 3 ++ go 5 0 ++ go 5 1 ++ go 5 2 ++ go 5 3 in
  let y := (run false 100 cs (start false 100)).1 in
  state (object y) = ConnClosed ∧ pooled (object y) = false ∧ connections (object y) = [0%nat] ∧
  total (object y) = 1 ∧ Forall (λ t, t = Closing C_end ∨ t = Receiving L_end ∨ t = Writing W_end) (threads y).
Proof. vm_compute. split_and!; try done. repeat apply Forall_cons_2; auto. Qed.

(** A push that was under way when the connection closed sends its message to
    the next player whom the pool gives the object to. *)
Lemma late_push_reaches_another :
  let cs := go 4 3 ++ [DoPush [7]] ++ go 1 4 ++ [DoClose true] ++ go 8 5 ++ [Allocate] ++ go 4 9 ++ go 2 4 ++ go 6 8 in
  let '(y, log) := run false 100 cs (start false 100) in
  out (life_at 1 (object y)) = [7] ∧ last log = Some (Wrote 1 [7]).
Proof. vm_compute. split_and!; done. Qed.

(** The same goes for its reader, when it had not run before. *)
Lemma two_readers :
  let cs := go 4 3 ++ [DoClose true] ++ go 8 4 ++ [Allocate] ++ go 1 0 ++ go 1 5 in
  let y := (run false 100 cs (start false 100)).1 in
  threads y !! 0%nat = Some (Reading (R_top 2 1)) ∧ threads y !! 5%nat = Some (Reading (R_top 2 1)).
Proof. by vm_compute. Qed.
