(* ===== verification/TcpLife.v ===== *)
(** * network/tcp: the threads of one life

    What a turn of each kind of thread of [TcpConn] changes and what it leaves
    alone, as long as the object is not given to another player. *)
From S2P Require Import Prelude TcpConn.
#[local] Close Scope nat_scope.
Open Scope Z_scope.

(** ** One life

    From here on the object is not given to another player: no [Allocate].  All
    threads are then of the one life, number 0. *)
Section life.
Context (authorizes : bool) (maxConnNum : Z).

(** ** Where threads stand *)

Definition close_ids (p : close_pc) : Prop :=
  match p with
  | G_sig k | G_wait k | C_recycle k => k = 0%nat
  | F_gen g | F_last g => g = 1
  | F_load g => g = None ∨ g = Some 1
  | F_gen2 g st => g = 1 ∧ st ≠ ConnClosed
  | F_cas g st => (g = None ∨ g = Some 1) ∧ st ≠ ConnClosed
  | C_handler b => b = None ∨ b = Some 0%nat
  | _ => True
  end.
Definition push_ids (p : push_pc) : Prop := match p with P_send k _ | P_wait k _ => k = 0%nat | _ => True end.
Definition read_ids (p : read_pc) : Prop :=
  match p with
  | R_top g k | R_read g k | R_gen g k _ | R_state g k _ | R_send g k _ => g = 1 ∧ k = 0%nat
  | _ => True
  end.
Definition loop_ids (p : loop_pc) : Prop :=
  match p with
  | L_start g => g = 1
  | L_recv g k | L_gen g k _ | L_state g k _ | L_handle g k _ => g = 1 ∧ k = 0%nat
  | L_end => True
  end.
Definition write_ids (p : write_pc) : Prop :=
  match p with
  | W_select g k | W_gen g k _ | W_closed g k _ | W_conn g k _ => g = 1 ∧ k = 0%nat
  | W_write g k j _ => g = 1 ∧ k = 0%nat ∧ j = 0%nat
  | _ => True
  end.

(** Threads 0, 1 and 2 are those that [init] starts. *)
Definition placed (i : nat) (t : thread) : Prop :=
  match t with
  | Closing p => close_ids p ∧ i ≠ 1%nat
  | Pushing p => push_ids p ∧ (3 <= i)%nat
  | Reading p => read_ids p ∧ i = 0%nat
  | Receiving p => loop_ids p ∧ i = 1%nat
  | Writing p => write_ids p ∧ i = 2%nat
  | Timing g _ => g = 1 ∧ (3 <= i)%nat
  | Binding _ _ => (3 <= i)%nat
  | Allocating k _ => k = 0%nat ∧ (3 <= i)%nat
  | Crashed => i ≠ 1%nat
  end.

Record one_life (y : system) (l : life) : Prop := {
  one_lives : lives (object y) = [l];
  one_gen : generation (object y) = 1;
  one_conn : conn (object y) = None ∨ conn (object y) = Some 0%nat;
  one_timer g : authorizeTimer (object y) = Some g → g = 1;
  one_threads : (3 <= length (threads y))%nat;
  one_placed i t : threads y !! i = Some t → placed i t;
}.

Lemma cur_one s l : lives s = [l] → cur s = 0%nat.
Proof. unfold cur. by intros ->. Qed.
Lemma life_one s l : lives s = [l] → life_at 0 s = l.
Proof. unfold life_at. by intros ->. Qed.
Lemma on_life_one s l f : lives s = [l] → on_life 0 f s = set_lives [f l] s.
Proof. unfold on_life. by intros ->. Qed.

Lemma on_life_timer s k f x : on_life k f (set_timer x s) = set_timer x (on_life k f s).
Proof. done. Qed.

(** A turn of a thread: its functions unfolded, the one life put in, and the
    cases. *)
Ltac turn_cases Hl :=
  unfold thread_turn, close_turn, push_turn, read_turn, loop_turn, write_turn, timer_turn, bind_turn, alloc_turn,
    notifyDone, send, write_room, checkAuthorize, uncheckAuthorize, set_mgr in *;
  rewrite ?(cur_one _ _ Hl), ?(life_one _ _ Hl), ?(on_life_one _ _ _ Hl), ?on_life_timer, ?(on_life_one _ _ _ Hl);
  repeat (case_match; simplify_eq; try done;
          rewrite ?(cur_one _ _ Hl), ?(life_one _ _ Hl), ?(on_life_one _ _ _ Hl), ?on_life_timer, ?(on_life_one _ _ _ Hl)).

Lemma thread_turn_one x t s l i :
  lives s = [l] → generation s = 1 → (conn s = None ∨ conn s = Some 0%nat) →
  (∀ g, authorizeTimer s = Some g → g = 1) → placed i t →
  let '(s', t', _) := thread_turn authorizes x t s in
  (∃ l', lives s' = [l']) ∧ generation s' = 1 ∧ (conn s' = None ∨ conn s' = Some 0%nat) ∧
  (∀ g, authorizeTimer s' = Some g → g = 1) ∧ placed i t'.
Proof.
  intros Hl Hg Hc Ht Hp.
  destruct t as [p|p|p|p|p|g b|u b|k n|]; try destruct p; cbn [placed close_ids push_ids read_ids loop_ids write_ids] in Hp;
    destruct_and?; destruct_or?; subst.
  all: turn_cases Hl; cbn [lives generation conn authorizeTimer set_uid set_state set_conn set_timer set_lives placed
     close_ids push_ids read_ids loop_ids write_ids] in *; rewrite ?Hl; split_and!; eauto; intros; simplify_eq; eauto; try congruence; try lia.
Qed.

Lemma turn_one c y l :
  c ≠ Allocate → one_life y l → ∃ l', one_life (turn authorizes maxConnNum c y).1 l'.
Proof.
  intros Hc H0. pose proof H0 as [Hl Hg Hco Hti Hlen Hp].
  assert (Hadd : ∀ t i t', (threads y ++ [t]) !! i = Some t' → placed (length (threads y)) t → placed i t').
  { intros t i t' [H|[Hge H]]%lookup_app_Some Ht; [by apply Hp|].
    apply list_lookup_singleton_Some in H as [Hi <-]. by replace i with (length (threads y)) by lia. }
  assert (Hspawn : ∀ t, placed (length (threads y)) t → one_life (spawn [t] y) l).
  { intros t Ht. split; try done; cbn; [rewrite length_app; lia|]. intros i t' H. by eapply Hadd. }
  destruct c as [i x|m|force|u| | |]; cbn [turn]; try done.
  - destruct (threads y !! i) as [t|] eqn:Et; [|by exists l]. specialize (Hp i t Et) as Hpt.
    assert (K : ∀ s' t' l', lives s' = [l'] → generation s' = 1 → (conn s' = None ∨ conn s' = Some 0%nat) →
      (∀ g, authorizeTimer s' = Some g → g = 1) → placed i t' →
      one_life (mkSystem s' (<[i := t']> (threads y))) l').
    { intros s' t' l' H1 H2 H3 H4 H5. split; try done; cbn; [by rewrite length_insert|]. intros j t''.
      rewrite list_lookup_insert_Some. intros [(<- & <- & _)|[Hne Hj]]; [done|by apply Hp]. }
    pose proof (thread_turn_one x t _ l i Hl Hg Hco Hti Hpt) as H.
    destruct (thread_turn authorizes x t (object y)) as [[s' t'] es]. destruct H as ([l' H1] & H2 & H3 & H4 & H5).
    exists l'. by apply K.
  - case_decide; [by exists l|]. exists l. apply Hspawn. split; [done|lia].
  - exists l. apply Hspawn. split; [by destruct force; [left|]|lia].
  - exists l. apply Hspawn. cbn. lia.
  - exists l. apply Hspawn. cbn. lia.
  - destruct (authorizeTimer (object y)) as [g|] eqn:Eg; [|by exists l].
    pose proof (Hti g eq_refl) as ->. exists l.
    split; try done; cbn; [rewrite length_app; lia|]. intros i t' H. eapply Hadd; [done|]. split; [done|lia].
Qed.

(** ** What has been seen *)

Definition msgs_of (f : event → option msg) (log : list event) : list msg := omap f log.
Definition accepted (log : list event) : list msg := msgs_of (λ e, match e with Accepted m => Some m | _ => None end) log.
Definition got (log : list event) : list msg := msgs_of (λ e, match e with Got d => Some d | _ => None end) log.
Definition queued (log : list event) : list msg := msgs_of (λ e, match e with Queued d => Some d | _ => None end) log.
Definition handled (log : list event) : list msg := msgs_of (λ e, match e with Handled d => Some d | _ => None end) log.
Definition disconnects (log : list event) : nat := length (omap (λ e, match e with Disconnected => Some tt | _ => None end) log).
Definition recycles (log : list event) : nat := length (omap (λ e, match e with Recycled _ => Some tt | _ => None end) log).

Definition taken (log : list event) : bool := existsb (λ e, match e with SigTaken => true | _ => false end) log.
Definition forced (log : list event) : bool := existsb (λ e, match e with Forced => true | _ => false end) log.

(** What was accepted before the close signal was put into the queue. *)
Fixpoint before (acc : list msg) (log : list event) : option (list msg) :=
  match log with
  | [] => None
  | SigPut :: _ => Some acc
  | Accepted m :: log => before (acc ++ [m]) log
  | _ :: log => before acc log
  end.

Lemma msgs_app f l1 l2 : msgs_of f (l1 ++ l2) = msgs_of f l1 ++ msgs_of f l2.
Proof. apply omap_app. Qed.
Lemma disconnects_app l1 l2 : disconnects (l1 ++ l2) = (disconnects l1 + disconnects l2)%nat.
Proof. unfold disconnects. by rewrite omap_app, length_app. Qed.
Lemma recycles_app l1 l2 : recycles (l1 ++ l2) = (recycles l1 + recycles l2)%nat.
Proof. unfold recycles. by rewrite omap_app, length_app. Qed.

Lemma before_app acc l1 l2 :
  before acc (l1 ++ l2) = match before acc l1 with Some a => Some a | None => before (acc ++ accepted l1) l2 end.
Proof.
  revert acc. induction l1 as [|e l1 IH]; intros acc; [cbn; by rewrite app_nil_r|].
  destruct e; cbn [app before accepted msgs_of omap list_omap]; try apply IH; [|done].
  rewrite IH. by rewrite <- app_assoc.
Qed.

(** ** What each kind of thread leaves alone *)

Definition put_event (w : chwrite) : event := match w with closeSig => SigPut | dataPacket m => Accepted m end.

Lemma not_writing x t s l i :
  lives s = [l] → (conn s = None ∨ conn s = Some 0%nat) → placed i t → (∀ p, t ≠ Writing p) →
  let '(s', t', es) := thread_turn authorizes x t s in
  ∀ l', lives s' = [l'] → out l' = out l ∧ (∀ p, t' ≠ Writing p) ∧ taken es = false ∧
  ((chWrite l' = chWrite l ∧ accepted es = [] ∧ ∀ a, before a es = None) ∨
   ∃ w, chWrite l' = chWrite l ++ [w] ∧ es = [put_event w]).
Proof.
  intros Hl Hc Hp Hw.
  destruct t as [p|p|p|p|p|g b|u b|k n|]; try destruct p; cbn [placed close_ids push_ids read_ids loop_ids write_ids] in Hp;
    destruct_and?; destruct_or?; subst; try (exfalso; by eapply Hw); clear Hw.
  all: turn_cases Hl; cbn [lives set_uid set_state set_conn set_timer set_lives] in *; intros l'; rewrite ?Hl; intros [= <-];
    (split_and!; [done..|]); first [by left | by right; eexists].
Qed.

Lemma not_reading x t s l i :
  lives s = [l] → (conn s = None ∨ conn s = Some 0%nat) → placed i t → (2 <= i)%nat →
  let '(s', t', es) := thread_turn authorizes x t s in
  ∀ l', lives s' = [l'] → recvQ l' = recvQ l ∧ got es = [] ∧ queued es = [] ∧ handled es = [].
Proof.
  intros Hl Hc Hp Hi.
  destruct t as [p|p|p|p|p|g b|u b|k n|]; try destruct p; cbn [placed close_ids push_ids read_ids loop_ids write_ids] in Hp;
    destruct_and?; destruct_or?; subst; try lia.
  all: turn_cases Hl; cbn [lives set_uid set_state set_conn set_timer set_lives] in *; intros l'; rewrite ?Hl; intros [= <-];
    by split_and!.
Qed.

(** A closing thread touches no queue of messages; what it puts is the signal. *)
Lemma closing_reads x p s l :
  lives s = [l] → (conn s = None ∨ conn s = Some 0%nat) → close_ids p →
  let '(s', p', es) := close_turn authorizes x p s in
  ∀ l', lives s' = [l'] → recvQ l' = recvQ l ∧ got es = [] ∧ queued es = [] ∧ handled es = [].
Proof.
  intros Hl Hc Hp. destruct p; cbn [close_ids] in Hp; destruct_or?; subst.
  all: turn_cases Hl; cbn [lives set_uid set_state set_conn set_timer set_lives] in *; intros l'; rewrite ?Hl; intros [= <-];
    by split_and!.
Qed.

(** What only closing threads change. *)
Record settled (s s' : serverConn) (l l' : life) (es : list event) : Prop := {
  settled_state : state s' = state s;
  settled_conn : conn s' = conn s;
  settled_once : closeOnce l' = closeOnce l;
  settled_close : close_ l' = close_ l;
  settled_recv : recv_closed l' = recv_closed l;
  settled_sock : sock_closed l' = sock_closed l;
  settled_done : done_ l' = done_ l || taken es;
  settled_forced : forced es = false;
  settled_disconnects : disconnects es = 0%nat;
  settled_recycles : recycles es = 0%nat;
}.

(** Where a thread is that starts to close. *)
Definition starts_closing (t : thread) : Prop :=
  match t with
  | Closing (F_gen _ | F_load _ | C_end) => True
  | Closing _ => False
  | _ => True
  end.

Lemma not_closing x t s l i :
  lives s = [l] → (conn s = None ∨ conn s = Some 0%nat) → placed i t → (∀ p, t ≠ Closing p) →
  let '(s', t', es) := thread_turn authorizes x t s in
  ∀ l', lives s' = [l'] → settled s s' l l' es ∧ starts_closing t' ∧
    (t' = Crashed → t = Crashed ∨ i = 0%nat ∧ recv_closed l = true).
Proof.
  intros Hl Hc Hp Hw.
  destruct t as [p|p|p|p|p|g b|u b|k n|]; try destruct p; cbn [placed close_ids push_ids read_ids loop_ids write_ids] in Hp;
    destruct_and?; destruct_or?; subst; try (exfalso; by eapply Hw); clear Hw.
  all: turn_cases Hl; cbn [lives set_uid set_state set_conn set_timer set_lives] in *; intros l'; rewrite ?Hl; intros [= <-];
    (split_and!; [split; cbn; by rewrite ?orb_true_r, ?orb_false_r|done|intros; simplify_eq; auto]).
Qed.
(** Only a push returns to its caller, and a connection never opens again. *)
Definition acked (log : list event) : list msg :=
  msgs_of (λ e, match e with Returned m None => Some m | _ => None end) log.

Lemma not_pushing x t s l i :
  lives s = [l] → (conn s = None ∨ conn s = Some 0%nat) → placed i t → (∀ p, t ≠ Pushing p) →
  let '(s', t', es) := thread_turn authorizes x t s in acked es = [] ∧ ∀ p, t' ≠ Pushing p.
Proof.
  intros Hl Hc Hp Hw.
  destruct t as [p|p|p|p|p|g b|u b|k n|]; try destruct p; cbn [placed close_ids push_ids read_ids loop_ids write_ids] in Hp;
    destruct_and?; destruct_or?; subst; try (exfalso; by eapply Hw); clear Hw.
  all: turn_cases Hl; by split.
Qed.

Lemma never_reopens x t s l i :
  lives s = [l] → (conn s = None ∨ conn s = Some 0%nat) → placed i t →
  let '(s', t', es) := thread_turn authorizes x t s in state s' = ConnOpened → state s = ConnOpened.
Proof.
  intros Hl Hc Hp.
  destruct t as [p|p|p|p|p|g b|u b|k n|]; try destruct p; cbn [placed close_ids push_ids read_ids loop_ids write_ids] in Hp;
    destruct_and?; destruct_or?; subst.
  all: turn_cases Hl; intros; cbn in *; congruence.
Qed.
End life.
