(* ===== verification/TcpServe.v ===== *)
(** * network/tcp: what a connection promises

    Order, closing and receiving, for any number of threads and any
    interleaving of them, over one life of a [serverConn]. *)
From S2P Require Import Prelude TcpConn TcpLife.
#[local] Close Scope nat_scope.
Open Scope Z_scope.

Section serve.
Context (authorizes : bool) (maxConnNum : Z).

(** ** Sending in order *)

Definition datas (q : list chwrite) : list msg := omap (λ w, match w with dataPacket m => Some m | closeSig => None end) q.

(** The message in the writer's hand; none once it is not writing any more. *)
Definition hand (w : thread) : option msg :=
  match w with
  | Writing (W_start | W_select _ _) => Some []
  | Writing (W_gen _ _ m | W_closed _ _ m | W_conn _ _ m | W_write _ _ _ m) => Some m
  | _ => None
  end.

Record order (l : life) (w : thread) (log : list event) : Prop := {
  order_all : match hand w with
              | Some h => out l ++ h ++ concat (datas (chWrite l)) = concat (accepted log)
              | None => prefix (out l) (concat (accepted log))
              end;
  order_none : before [] log = None → (closeSig ∉ chWrite l) ∧ taken log = false;
  order_sig a : before [] log = Some a →
    if taken log then prefix (concat a) (out l)
    else ∀ h, hand w = Some h → ∃ q1 q2, chWrite l = q1 ++ closeSig :: q2 ∧ (closeSig ∉ q1) ∧
           out l ++ h ++ concat (datas q1) = concat a;
}.

Lemma taken_app l1 l2 : taken (l1 ++ l2) = taken l1 || taken l2.
Proof. apply existsb_app. Qed.
Lemma forced_app l1 l2 : forced (l1 ++ l2) = forced l1 || forced l2.
Proof. apply existsb_app. Qed.
Lemma accepted_app l1 l2 : accepted (l1 ++ l2) = accepted l1 ++ accepted l2.
Proof. apply msgs_app. Qed.
Lemma datas_app q1 q2 : datas (q1 ++ q2) = datas q1 ++ datas q2.
Proof. apply omap_app. Qed.

(** A thread that is not the writer puts something behind the queue, or nothing. *)
Lemma order_put l l' w log es :
  order l w log → out l' = out l → taken es = false →
  ((chWrite l' = chWrite l ∧ accepted es = [] ∧ ∀ a, before a es = None) ∨
   ∃ x, chWrite l' = chWrite l ++ [x] ∧ es = [put_event x]) →
  order l' w (log ++ es).
Proof.
  intros [Ha Hn Hs] Ho Ht Hq.
  assert (Hd : concat (datas (chWrite l')) = concat (datas (chWrite l)) ++ concat (accepted es)).
  { destruct Hq as [(-> & -> & _)|(x & -> & ->)]; [by rewrite app_nil_r|].
    rewrite datas_app, concat_app. by destruct x. }
  split.
  - rewrite Ho, accepted_app, concat_app. destruct (hand w) as [h|].
    + rewrite Hd, <- Ha. by rewrite <- !app_assoc.
    + by apply prefix_app_r.
  - rewrite before_app, taken_app, Ht, orb_false_r. destruct (before [] log) as [a|]; [done|]. intros Hb.
    destruct (Hn eq_refl) as [Hn1 Hn2]. split; [|done]. destruct Hq as [(-> & _ & _)|(x & -> & ->)]; [done|].
    destruct x; [done|]. rewrite elem_of_app, list_elem_of_singleton. naive_solver.
  - intros a. rewrite before_app, taken_app, Ht, orb_false_r, Ho. destruct (before [] log) as [a'|] eqn:Eb.
    + intros [= <-]. specialize (Hs a' eq_refl). destruct (taken log); [done|]. intros h Hh.
      destruct (Hs h Hh) as (q1 & q2 & E & Hq1 & Ea). destruct Hq as [(-> & _)|(x & -> & _)]; [by exists q1, q2|].
      exists q1, (q2 ++ [x]). rewrite E. by rewrite <- app_assoc.
    + destruct (Hn eq_refl) as [Hn1 Hn2]. rewrite Hn2. intros Hb. destruct Hq as [(_ & _ & Hq)|(x & E & ->)].
      { by rewrite Hq in Hb. }
      destruct x; [|done]. cbn in Hb. injection Hb as <-. intros h Hh. exists (chWrite l), []. rewrite Hh in Ha. done.
Qed.

(** The writer. *)
Lemma order_write x p s l log :
  lives s = [l] → (conn s = None ∨ conn s = Some 0%nat) → write_ids p → order l (Writing p) log →
  let '(s', t', es) := write_turn x p s in
  ∀ l', lives s' = [l'] → order l' t' (log ++ es).
Proof.
  intros Hl Hc Hp Ho.
  assert (Hstay : ∀ t', (hand t' = None ∨ hand t' = hand (Writing p)) → order l t' (log ++ [])).
  { intros t' Ht. rewrite app_nil_r. destruct Ho as [Ha Hn Hs]. split; [|done|].
    - destruct Ht as [->| ->]; [|done]. destruct (hand (Writing p)); [|done]. rewrite <- Ha. by apply prefix_app_r.
    - intros a Hb. specialize (Hs a Hb). destruct (taken log); [done|]. intros h Hh. apply Hs.
      destruct Ht as [Ht|Ht]; congruence. }
  assert (Hwrote : ∀ k h n t', hand (Writing p) = Some h → (hand t' = None ∨ (length h <= n)%nat ∧ hand t' = Some []) →
    order (add_out (take n h) l) t' (log ++ [Wrote k (take n h)])).
  { intros k h n t' Hh Ht. destruct Ho as [Ha Hn Hs]. rewrite Hh in Ha.
    assert (E : ∀ es, taken (log ++ [Wrote k es]) = taken log ∧ accepted (log ++ [Wrote k es]) = accepted log ∧
      before [] (log ++ [Wrote k es]) = before [] log).
    { intros es. rewrite taken_app, accepted_app, before_app. cbn. rewrite orb_false_r, app_nil_r. by destruct (before [] log). }
    split; cbn [out chWrite add_out].
    - rewrite (proj1 (proj2 (E _))), <- Ha. destruct Ht as [->|[Hle ->]].
      + apply prefix_app, prefix_app_r. rewrite <- (take_drop n h) at 2. by apply prefix_app_r.
      + rewrite take_ge by done. by rewrite <- app_assoc.
    - rewrite (proj1 (E _)), (proj2 (proj2 (E _))). apply Hn.
    - intros a. rewrite (proj1 (E _)), (proj2 (proj2 (E _))). intros Hb. specialize (Hs a Hb). destruct (taken log).
      + by apply prefix_app_r.
      + intros h' Hh'. destruct Ht as [Ht|[Hle Ht]]; [congruence|]. assert (h' = []) as -> by congruence.
        destruct (Hs h Hh) as (q1 & q2 & E1 & E2 & E3). exists q1, q2. split_and!; [done..|].
        rewrite take_ge by done. by rewrite <- E3, <- app_assoc. }
  assert (Htake : ∀ q m t', hand (Writing p) = Some [] → chWrite l = dataPacket m :: q → hand t' = Some m →
    order (set_chWrite q l) t' (log ++ [])).
  { intros q m t' Hh Hq Ht. rewrite app_nil_r. destruct Ho as [Ha Hn Hs]. rewrite Hh in Ha. rewrite Hq in Ha, Hn, Hs.
    split; cbn [out chWrite set_chWrite].
    - by rewrite Ht.
    - intros Hb. destruct (Hn Hb) as [Hn1 Hn2]. split; [|done]. intros Hin. apply Hn1. by right.
    - intros a Hb. specialize (Hs a Hb). destruct (taken log); [done|]. intros h Hh'. assert (h = m) as -> by congruence.
      destruct (Hs [] Hh) as ([|x1 q1] & q2 & E1 & E2 & E3); [done|]. injection E1 as <- ->.
      exists q1, q2. split; [done|]. split; [intros Hin; apply E2; by right|done]. }
  assert (Hsig : ∀ q t', hand (Writing p) = Some [] → chWrite l = closeSig :: q → hand t' = None →
    order (set_done (set_chWrite q l)) t' (log ++ [SigTaken])).
  { intros q t' Hh Hq Ht. destruct Ho as [Ha Hn Hs]. rewrite Hh in Ha. rewrite Hq in Ha, Hn, Hs.
    split; cbn [out chWrite set_chWrite set_done].
    - rewrite Ht, accepted_app, app_nil_r, <- Ha. by apply prefix_app_r.
    - rewrite before_app. destruct (before [] log); [done|]. intros _. destruct (Hn eq_refl) as [Hn1 _].
      exfalso. apply Hn1. by left.
    - intros a. rewrite before_app, taken_app, orb_true_r. destruct (before [] log) as [a'|]; [|done]. intros [= <-].
      specialize (Hs a' eq_refl). destruct (taken log); [done|].
      destruct (Hs [] Hh) as ([|x1 q1] & q2 & E1 & E2 & E3).
      + rewrite <- E3. by rewrite app_nil_r.
      + injection E1 as <- _. exfalso. apply E2. by left. }
  destruct p as [|g k|g k m|g k m|g k m|g k j m|]; cbn [write_ids] in Hp; destruct_and?; subst.
  - cbn. intros l'. rewrite Hl. intros [= <-]. apply Hstay. by right.
  - cbn [write_turn]. rewrite (life_one _ _ Hl). unfold notifyDone.
    assert (Hq1 : ∀ q, cur (on_life 0 (set_chWrite q) s) = 0%nat) by (intros q; by rewrite (on_life_one _ _ _ Hl)).
    assert (Hq2 : ∀ q, on_life 0 set_done (on_life 0 (set_chWrite q) s) = set_lives [set_done (set_chWrite q l)] s).
    { intros q. rewrite (on_life_one _ _ _ Hl). by rewrite (on_life_one _ (set_chWrite q l)). }
    destruct (chWrite l) as [|[|m] q] eqn:Eq, x, (close_ l); intros l';
      rewrite ?Hq1, ?Hq2, ?(on_life_one _ _ _ Hl); cbn [lives set_lives]; rewrite ?Hl; intros [= <-];
      try (by apply Hstay; auto); try (by apply (Hsig q)); case_decide; subst; by eapply (Htake q).
  - cbn. intros l'. rewrite Hl. intros [= <-]. apply Hstay. case_decide; auto.
  - cbn. intros l'. rewrite Hl. intros [= <-]. apply Hstay. case_decide; auto.
  - cbn. intros l'. rewrite Hl. intros [= <-]. apply Hstay. case_match; auto.
  - cbn [write_turn]. rewrite (life_one _ _ Hl).
    assert (Hwhole : ∀ t', hand t' = Some [] → order (add_out m l) t' (log ++ [Wrote 0 m])).
    { intros t' Ht. rewrite <- (take_ge m (length m)) by done. eapply (Hwrote _ m); [done|]. right. split; [lia|done]. }
    destruct x, (sock_closed l); intros l'; rewrite ?(on_life_one _ _ _ Hl); cbn [lives set_lives]; rewrite ?Hl; intros [= <-];
      try (by apply Hstay; auto); try (by apply Hwhole). apply (Hwrote _ m); auto.
  - cbn. intros l'. rewrite Hl. intros [= <-]. apply Hstay. by right.
Qed.

(** ** Receiving in order *)

Definition loop_hand (t : thread) : option (list msg) :=
  match t with
  | Receiving (L_start _ | L_recv _ _) => Some []
  | Receiving (L_gen _ _ d | L_state _ _ d | L_handle _ _ d) => Some [d]
  | _ => None
  end.
Definition read_hand (t : thread) : list msg :=
  match t with Reading (R_gen _ _ d | R_state _ _ d | R_send _ _ d) => [d] | _ => [] end.

Record receives (l : life) (rd lp : thread) (log : list event) : Prop := {
  receives_loop : match loop_hand lp with
                  | Some h => handled log ++ h ++ recvQ l = queued log
                  | None => prefix (handled log) (queued log)
                  end;
  receives_read : sublist (queued log ++ read_hand rd) (got log);
}.

Lemma receives_other l l' rd rd' lp log es :
  receives l rd lp log → recvQ l' = recvQ l → got es = [] → queued es = [] → handled es = [] →
  (read_hand rd' = [] ∨ read_hand rd' = read_hand rd) → receives l' rd' lp (log ++ es).
Proof.
  intros [H1 H2] Hq Hg Hqu Hh Hrd. unfold got, queued, handled in *.
  split; unfold got, queued, handled; rewrite !msgs_app, ?Hg, ?Hqu, ?Hh, !app_nil_r, ?Hq; [done|].
  destruct Hrd as [->| ->]; [|done]. rewrite app_nil_r. etrans; [|exact H2]. by apply sublist_inserts_r.
Qed.

Lemma receives_read_turn x p s l lp log :
  lives s = [l] → read_ids p → receives l (Reading p) lp log →
  let '(s', t', es) := read_turn x p s in ∀ l', lives s' = [l'] → receives l' t' lp (log ++ es).
Proof.
  intros Hl Hp Hr.
  assert (Hstay : ∀ t', (read_hand t' = [] ∨ read_hand t' = read_hand (Reading p)) → receives l t' lp (log ++ [])).
  { intros t' Ht. by eapply receives_other. }
  destruct p as [|g k|g k|g k d|g k d|g k d|]; cbn [read_ids] in Hp; destruct_and?; subst; cbn [read_turn];
    rewrite ?(life_one _ _ Hl), ?(cur_one _ _ Hl), ?(life_one _ _ Hl).
  - intros l'. rewrite Hl. intros [= <-]. apply Hstay. case_match; auto.
  - intros l'. rewrite Hl. intros [= <-]. apply Hstay. case_match; auto.
  - destruct x as [| | |d|n], (sock_closed l); intros l'; rewrite Hl; intros [= <-]; try (apply Hstay; auto; done).
    destruct Hr as [H1 H2]. split; unfold got, queued, handled in *; rewrite !msgs_app; cbn [msgs_of omap list_omap]; rewrite ?app_nil_r.
    + done.
    + cbn [read_hand] in *. rewrite ?app_nil_r in *. by apply sublist_app.
  - intros l'. rewrite Hl. intros [= <-]. apply Hstay. case_match; auto.
  - intros l'. rewrite Hl. intros [= <-]. apply Hstay. repeat case_match; auto.
  - rewrite ?(on_life_one _ _ _ Hl). destruct (recv_closed l); [|case_decide]; intros l'; cbn [lives set_lives]; rewrite ?Hl;
      intros [= <-]; try (apply Hstay; auto; done).
    destruct Hr as [H1 H2]. split; unfold got, queued, handled in *; rewrite !msgs_app; cbn [msgs_of omap list_omap recvQ set_recvQ];
      rewrite ?app_nil_r.
    + destruct (loop_hand lp) as [h|]; [|by apply prefix_app_r]. rewrite <- H1. by rewrite <- !app_assoc.
    + cbn [read_hand] in *. by rewrite ?app_nil_r.
  - intros l'. rewrite Hl. intros [= <-]. apply Hstay. auto.
Qed.

Lemma receives_loop_turn p s l rd log :
  lives s = [l] → loop_ids p → receives l rd (Receiving p) log →
  let '(s', t', es) := loop_turn p s in ∀ l', lives s' = [l'] → receives l' rd t' (log ++ es).
Proof.
  intros Hl Hp [H1 H2].
  assert (Hstay : ∀ t', (loop_hand t' = None ∨ loop_hand t' = loop_hand (Receiving p)) → receives l rd t' (log ++ [])).
  { intros t' Ht. rewrite app_nil_r. split; [|done]. destruct Ht as [->| ->]; [|done].
    destruct (loop_hand (Receiving p)); [|done]. rewrite <- H1. by apply prefix_app_r. }
  destruct p as [g|g k|g k d|g k d|g k d|]; cbn [loop_ids] in Hp; destruct_and?; subst; cbn [loop_turn];
    rewrite ?(life_one _ _ Hl).
  - intros l'. rewrite Hl. intros [= <-]. apply Hstay. auto.
  - destruct (recvQ l) as [|d q] eqn:Eq.
    + intros l'. rewrite Hl. intros [= <-]. apply Hstay. destruct (recv_closed l); auto.
    + intros l'. rewrite (on_life_one _ _ _ Hl). cbn [lives set_lives]. intros [= <-]. rewrite app_nil_r.
      split; [|done]. cbn [loop_hand recvQ set_recvQ] in *. by rewrite Eq.
  - intros l'. rewrite Hl. intros [= <-]. apply Hstay. case_decide; auto.
  - intros l'. rewrite Hl. intros [= <-]. apply Hstay. case_decide; auto.
  - intros l'. rewrite Hl. intros [= <-]. split; unfold got, queued, handled in *; rewrite !msgs_app;
      cbn [msgs_of omap list_omap]; rewrite ?app_nil_r; [|done]. cbn [loop_hand] in *. rewrite <- H1. by rewrite <- !app_assoc.
  - intros l'. rewrite Hl. intros [= <-]. apply Hstay. auto.
Qed.

(** ** Closing once *)

(** How far a thread inside [doClose] is. *)
Definition stage (t : thread) : option nat :=
  match t with
  | Closing (C_once | F_last _) => Some 0%nat
  | Closing C_done => Some 1%nat
  | Closing C_recvq => Some 2%nat
  | Closing C_swap => Some 3%nat
  | Closing (C_handler _) => Some 4%nat
  | Closing (C_recycle _) => Some 5%nat
  | _ => None
  end.

Definition stages (ts : list thread) (who : option nat) (n : nat) : Prop :=
  (∀ i t, ts !! i = Some t → stage t = if decide (who = Some i) then Some n else None) ∧
  ∀ i, who = Some i → is_Some (ts !! i).

(** What is done when the closing is at stage [n]; 6 is its end. *)
Record phase (s : serverConn) (l : life) (log : list event) (n : nat) : Prop := {
  phase_once : closeOnce l = (1 <=? n)%nat;
  phase_close : close_ l = (1 <=? n)%nat;
  phase_done : (2 <= n)%nat → done_ l = true;
  phase_recv : recv_closed l = (3 <=? n)%nat;
  phase_conn : conn s = if (4 <=? n)%nat then None else Some 0%nat;
  phase_sock : sock_closed l = (4 <=? n)%nat;
  phase_disconnects : disconnects log = if (5 <=? n)%nat then 1%nat else 0%nat;
  phase_recycles : (recycles log <= if 6 <=? n then 1 else 0)%nat;
}.

Record closes (s : serverConn) (ts : list thread) (l : life) (log : list event) (who : option nat) (n : nat) : Prop := {
  closes_state : match who with
                 | Some _ => state s = ConnClosed ∧ (n <= 5)%nat
                 | None => n = 0%nat ∧ (state s = ConnOpened ∨ state s = ConnHanged) ∨ n = 6%nat ∧ state s = ConnClosed
                 end;
  closes_stages : stages ts who n;
  closes_phase : phase s l log n;
  closes_handler i b : ts !! i = Some (Closing (C_handler b)) → b = Some 0%nat;
  closes_crash i : ts !! i = Some Crashed → i = 0%nat ∧ recv_closed l = true;
}.

Lemma stages_insert ts who n i t t' n' :
  stages ts who n → ts !! i = Some t → (who = None ∨ who = Some i) →
  stage t' = (if decide (is_Some (stage t')) then Some n' else None) →
  stages (<[i := t']> ts) (if decide (is_Some (stage t')) then Some i else None) n'.
Proof.
  intros [Hs He'] Ht Hw He. split.
  - intros j u. rewrite list_lookup_insert_Some. intros [(<- & <- & _)|[Hne Hj]].
    + rewrite He at 1. repeat case_decide; naive_solver.
    + rewrite (Hs j u Hj). repeat case_decide; naive_solver.
  - intros j. case_decide; [|done]. intros [= <-]. apply lookup_lt_is_Some. rewrite length_insert. by apply lookup_lt_Some in Ht.
Qed.

Lemma stages_same ts who n i t t' :
  stages ts who n → ts !! i = Some t → stage t' = stage t → stages (<[i := t']> ts) who n.
Proof.
  intros [Hs He'] Ht He. split.
  - intros j u. rewrite list_lookup_insert_Some. intros [(<- & <- & _)|[Hne Hj]]; [|by apply Hs].
    rewrite He. by apply Hs.
  - intros j [u Hu%lookup_lt_Some]%He'. apply lookup_lt_is_Some. by rewrite length_insert.
Qed.

Lemma closes_same s s' ts l l' log es who n i t t' :
  closes s ts l log who n → ts !! i = Some t → stage t' = stage t → (∀ b, t' ≠ Closing (C_handler b)) →
  (t' = Crashed → i = 0%nat ∧ recv_closed l = true) →
  (state s' = state s ∨ state s = ConnOpened ∧ state s' = ConnHanged) → conn s' = conn s →
  closeOnce l' = closeOnce l → close_ l' = close_ l → recv_closed l' = recv_closed l → sock_closed l' = sock_closed l →
  (done_ l = true → done_ l' = true) → disconnects es = 0%nat → recycles es = 0%nat →
  closes s' (<[i := t']> ts) l' (log ++ es) who n.
Proof.
  intros [H1 H2 [P1 P2 P3 P4 P5 P6 P7 P8] H4 H5] Ht Hst Hh Hcr Hs Hc E1 E2 E3 E4 E5 E6 E7. split.
  - destruct who as [j|]; [destruct H1 as [H1 Hn]|]; destruct Hs as [->|[Ha ->]]; try done; [congruence|].
    destruct H1 as [[-> _]|[_ H1]]; [left; auto|congruence].
  - by eapply stages_same.
  - split; rewrite ?disconnects_app, ?recycles_app, ?E6, ?E7, ?Nat.add_0_r; try congruence. auto.
  - intros j b. rewrite list_lookup_insert_Some. intros [(<- & E & _)|[Hne Hj]]; [|by eapply H4].
    exfalso. by eapply Hh.
  - intros j. rewrite list_lookup_insert_Some, E3. intros [(<- & E & _)|[Hne Hj]]; [by apply Hcr|by apply H5].
Qed.

(** The closer goes on, or a thread becomes the closer, or it is through. *)
Lemma closes_next s s' ts l l' log log' who n n' i t t' :
  closes s ts l log who n → ts !! i = Some t → (who = None ∨ who = Some i) →
  (recv_closed l = true → recv_closed l' = true) → t' ≠ Crashed → (∀ b, t' = Closing (C_handler b) → b = Some 0%nat) →
  state s' = ConnClosed → phase s' l' log' n' →
  match stage t' with Some m => m = n' ∧ (n' <= 5)%nat | None => n' = 6%nat end →
  ∃ who', closes s' (<[i := t']> ts) l' log' who' n'.
Proof.
  intros [H1 H2 H3 H4 H5] Ht Hw Hr Hcr Hh Hs Hp Hst.
  pose proof (stages_insert ts who n i t t' n' H2 Ht Hw) as Hstages.
  exists (if decide (is_Some (stage t')) then Some i else None). split.
  - case_decide as Hd; destruct (stage t') as [m|]; [|by destruct Hd|naive_solver|naive_solver]. destruct Hst as [-> Hm]. done.
  - apply Hstages. destruct (stage t') as [m|]; case_decide as Hd; try done; [destruct Hst; congruence|by destruct Hd].
  - done.
  - intros j b. rewrite list_lookup_insert_Some. intros [(<- & E & _)|[Hne Hj]]; [by apply Hh|by eapply H4].
  - intros j. rewrite list_lookup_insert_Some. intros [(<- & E & _)|[Hne Hj]]; [done|].
    destruct (H5 j Hj) as [-> Hj']. auto.
Qed.

Lemma state_uncheck s : state (uncheckAuthorize authorizes s) = state s.
Proof. unfold uncheckAuthorize. by destruct authorizes. Qed.
Lemma conn_uncheck s : conn (uncheckAuthorize authorizes s) = conn s.
Proof. unfold uncheckAuthorize. by destruct authorizes. Qed.
Lemma lives_uncheck s : lives (uncheckAuthorize authorizes s) = lives s.
Proof. unfold uncheckAuthorize. by destruct authorizes. Qed.

Lemma closes_close_turn x p s l ts i log who n :
  lives s = [l] → generation s = 1 → close_ids p → ts !! i = Some (Closing p) → closes s ts l log who n →
  let '(s', p', es) := close_turn authorizes x p s in
  ∀ l', lives s' = [l'] →
  ∃ who' n', closes s' (<[i := match p' with Some p => Closing p | None => Crashed end]> ts) l' (log ++ es) who' n'.
Proof.
  intros Hl Hg Hp Ht Hc. pose proof Hc as [H1 H2 H3 H4 H5]. pose proof (proj1 H2 i _ Ht) as Hst.
  assert (Hsame : ∀ s' l' t' es, stage t' = stage (Closing p) → (∀ b, t' ≠ Closing (C_handler b)) → t' ≠ Crashed →
    (state s' = state s ∨ state s = ConnOpened ∧ state s' = ConnHanged) → conn s' = conn s →
    closeOnce l' = closeOnce l → close_ l' = close_ l → recv_closed l' = recv_closed l → sock_closed l' = sock_closed l →
    (done_ l = true → done_ l' = true) → disconnects es = 0%nat → recycles es = 0%nat →
    ∃ who' n', closes s' (<[i := t']> ts) l' (log ++ es) who' n').
  { intros. exists who, n. by eapply closes_same. }
  assert (Hstay : ∀ t', stage t' = stage (Closing p) → (∀ b, t' ≠ Closing (C_handler b)) → t' ≠ Crashed →
    ∀ l', lives s = [l'] → ∃ who' n', closes s (<[i := t']> ts) l' (log ++ []) who' n').
  { intros t' ??? l'. rewrite Hl. intros [= <-]. apply Hsame; auto. }
  assert (Hstart : ∀ s' l' t' es, stage t' = Some 0%nat → state s ≠ ConnClosed → state s' = ConnClosed → conn s' = conn s →
    l' = l → disconnects es = 0%nat → recycles es = 0%nat → (∀ b, t' ≠ Closing (C_handler b)) →
    ∃ who' n', closes s' (<[i := t']> ts) l' (log ++ es) who' n').
  { intros s' l' t' es E1 E2 E3 E4 -> E5 E6 E7.
    assert (who = None ∧ n = 0%nat) as [-> ->] by (destruct who; naive_solver).
    destruct (closes_next s s' ts l l log (log ++ es) None 0 0 i (Closing p) t') as [who' K]; auto; [by intros ->|naive_solver| | |eauto].
    - destruct H3 as [P1 P2 P3 P4 P5 P6 P7 P8]. split; rewrite ?disconnects_app, ?recycles_app, ?E5, ?E6, ?Nat.add_0_r; try congruence; auto.
    - rewrite E1. split; [done|lia]. }
  assert (Hgo : ∀ s' l' t' es n', who = Some i → (recv_closed l = true → recv_closed l' = true) → t' ≠ Crashed →
    (∀ b, t' = Closing (C_handler b) → b = Some 0%nat) → state s' = state s → phase s' l' (log ++ es) n' →
    match stage t' with Some m => m = n' ∧ (n' <= 5)%nat | None => n' = 6%nat end →
    ∃ who' n', closes s' (<[i := t']> ts) l' (log ++ es) who' n').
  { intros s' l' t' es n' -> ? ? ? Hs' ? ?. destruct H1 as [H1 _].
    destruct (closes_next s s' ts l l' log (log ++ es) (Some i) n n' i (Closing p) t') as [who' K]; auto; [congruence|]. eauto. }
  destruct H3 as [P1 P2 P3 P4 P5 P6 P7 P8].
  assert (Hi : is_Some (stage (Closing p)) → who = Some i ∧ stage (Closing p) = Some n).
  { rewrite Hst. case_decide; [done|]. by intros []. }
  clear Hst.
  destruct p as [| |k|k| |g|g|g st|g st|g| | | | |b|k|]; cbn [close_ids stage] in *; destruct_and?; subst;
    try (destruct (Hi ltac:(eauto)) as [-> [= <-]]; clear Hi Hstart; cbn in P1, P2, P4, P5, P6, P7, P8);
    cbn [close_turn]; rewrite ?(cur_one _ _ Hl), ?(life_one _ _ Hl), ?(on_life_one _ _ _ Hl).
  - destruct (state s) eqn:Es; try (by apply Hstay). intros l'. rewrite lives_uncheck. cbn [lives set_state]. rewrite Hl.
    intros [= <-]. apply Hsame; rewrite ?state_uncheck, ?conn_uncheck; auto.
  - destruct (conn s); by apply Hstay.
  - destruct x; try (destruct (close_ l); by apply Hstay); (destruct (write_room 0 s); [|by apply Hstay]);
      unfold send; rewrite (on_life_one _ _ _ Hl); intros l'; cbn [lives set_lives]; intros [= <-]; by apply Hsame; auto.
  - destruct (done_ l); by apply Hstay.
  - destruct (decide (state s = ConnHanged)) as [Hd|Hd]; [|by apply Hstay]. intros l'. cbn [lives set_state]. rewrite Hl. intros [= <-].
    apply Hstart; auto. by rewrite Hd.
  - rewrite Hg. by apply Hstay.
  - destruct (state s); try (by apply Hstay); destruct g; by apply Hstay.
  - rewrite Hg. by apply Hstay.
  - destruct (decide (state s = st)) as [Hd|Hd]; [|destruct g; by apply Hstay]. intros l'. rewrite lives_uncheck. cbn [lives set_state]. rewrite Hl.
    intros [= <-]. apply Hstart; rewrite ?state_uncheck, ?conn_uncheck; auto; [by destruct g|by subst|by destruct g].
  - rewrite Hg. by apply Hstay.
  - rewrite P1, P2. intros l'. rewrite (on_life_one _ l) by (by rewrite lives_uncheck). cbn [lives set_lives]. intros [= <-].
    unfold uncheckAuthorize. apply (Hgo _ _ _ _ 1%nat); auto; try (by intros ?); [by destruct authorizes| |by split; [|lia]].
    split; cbn; rewrite ?disconnects_app, ?recycles_app; try done; try (by destruct authorizes);
      try (intros _; apply P3; lia); unfold disconnects, recycles in *; cbn; lia.
  - intros l'. unfold notifyDone. rewrite (cur_one _ _ Hl), (on_life_one _ _ _ Hl). cbn [lives set_lives]. intros [= <-].
    apply (Hgo _ _ _ _ 2%nat); auto; try (by intros ?); [|by split; [|lia]].
    split; cbn; rewrite ?disconnects_app, ?recycles_app; try done; try (by destruct authorizes);
      try (intros _; apply P3; lia); unfold disconnects, recycles in *; cbn; lia.
  - rewrite P4. intros l'. cbn [lives set_lives]. intros [= <-].
    apply (Hgo _ _ _ _ 3%nat); auto; try (by intros ?); [|by split; [|lia]].
    split; cbn; rewrite ?disconnects_app, ?recycles_app; try done; try (by destruct authorizes);
      try (intros _; apply P3; lia); unfold disconnects, recycles in *; cbn; lia.
  - rewrite P5, (on_life_one _ _ _ Hl). intros l'. cbn [lives set_lives set_conn]. intros [= <-].
    apply (Hgo _ _ _ _ 4%nat); auto; try (by intros ?); [by intros b [= <-]| |by split; [|lia]].
    split; cbn; rewrite ?disconnects_app, ?recycles_app; try done; try (by destruct authorizes);
      try (intros _; apply P3; lia); unfold disconnects, recycles in *; cbn; lia.
  - rewrite (H4 i b Ht). intros l'. rewrite Hl. intros [= <-].
    apply (Hgo _ _ _ _ 5%nat); auto; try (by intros ?); [|by split; [|lia]].
    split; cbn; rewrite ?disconnects_app, ?recycles_app; try done; try (by destruct authorizes);
      try (intros _; apply P3; lia); unfold disconnects, recycles in *; cbn; lia.
  - assert (K : ∀ s' l' es, lives s' = [l] → state s' = state s → conn s' = conn s → disconnects es = 0%nat → (recycles es <= 1)%nat →
      lives s' = [l'] → ∃ who' n', closes s' (<[i := Closing C_end]> ts) l' (log ++ es) who' n').
    { intros s' l' es E1 E2 E3 E4 E5. rewrite E1. intros [= <-]. apply (Hgo _ _ _ _ 6%nat); auto; try (by intros ?); [|done].
      split; rewrite ?disconnects_app, ?recycles_app, ?E3, ?E4; cbn; try done; try (intros _; apply P3; lia); lia. }
    destruct (decide (0%nat ∈ connections s)); intros l' ?; apply K; auto.
  - by apply Hstay.
Qed.

(** ** Closing gracefully *)

(** Nobody has closed by force, and then nothing is done before the writer has
    taken the signal. *)
Definition graceful (s : serverConn) (ts : list thread) (l : life) (log : list event) : Prop :=
  forced log = true ∨
  (state s = ConnClosed → taken log = true) ∧ (done_ l = true → taken log = true) ∧
  (∀ i, ts !! i = Some (Closing G_finish) → taken log = true).

Lemma graceful_turn s s' ts l l' log es i t t' :
  graceful s ts l log → ts !! i = Some t →
  (forced es = true ∨
   (state s' = ConnClosed → state s = ConnClosed ∨ t = Closing G_finish) ∧
   (done_ l' = true → done_ l = true ∨ state s = ConnClosed ∨ taken es = true) ∧
   (t' = Closing G_finish → t = Closing G_finish ∨ done_ l = true ∨ state s = ConnClosed)) →
  graceful s' (<[i := t']> ts) l' (log ++ es).
Proof.
  unfold graceful. rewrite forced_app, taken_app. intros [->|(H1 & H2 & H3)] Ht; [by left|].
  intros [->|(E1 & E2 & E3)]; [left; apply orb_true_r|right].
  assert (Hl : taken log = true → taken log || taken es = true) by (by intros ->).
  split_and!.
  - intros [Hc|Hc]%E1; apply Hl; [by apply H1|]. subst. by eapply H3.
  - intros [Hc|[Hc|Hc]]%E2; [by apply Hl, H2|by apply Hl, H1|by rewrite Hc, orb_true_r].
  - intros j. rewrite list_lookup_insert_Some. intros [(<- & E & _)|[Hne Hj]]; [|apply Hl; by eapply H3].
    apply Hl. destruct (E3 E) as [->|[Hd|Hc]]; [by eapply H3|by apply H2|by apply H1].
Qed.

Lemma graceful_close_turn x p s l ts i log who n :
  lives s = [l] → generation s = 1 → close_ids p → ts !! i = Some (Closing p) → closes s ts l log who n →
  graceful s ts l log →
  let '(s', p', es) := close_turn authorizes x p s in
  ∀ l', lives s' = [l'] →
  graceful s' (<[i := match p' with Some p => Closing p | None => Crashed end]> ts) l' (log ++ es).
Proof.
  intros Hl Hg Hp Ht Hc Hgr.
  assert (Hclosed : is_Some (stage (Closing p)) → state s = ConnClosed).
  { intros Hs. pose proof (proj1 (closes_stages _ _ _ _ _ _ Hc) i _ Ht) as E. pose proof (closes_state _ _ _ _ _ _ Hc) as K.
    destruct who; [by apply K|]. rewrite E in Hs. by destruct Hs. }
  assert (Hnil : conn s = None → state s = ConnClosed).
  { intros Hn. pose proof (phase_conn _ _ _ _ (closes_phase _ _ _ _ _ _ Hc)) as E. rewrite Hn in E.
    pose proof (closes_state _ _ _ _ _ _ Hc) as K. destruct who; [by apply K|].
    destruct K as [[-> _]|[_ K]]; [done|done]. }
  assert (Hgo : ∀ s' l' t' es, 
    (forced es = true ∨
     (state s' = ConnClosed → state s = ConnClosed ∨ p = G_finish) ∧
     (done_ l' = true → done_ l = true ∨ state s = ConnClosed ∨ taken es = true) ∧
     (t' = Closing G_finish → p = G_finish ∨ done_ l = true ∨ state s = ConnClosed)) →
    graceful s' (<[i := t']> ts) l' (log ++ es)).
  { intros s' l' t' es [H|(H1 & H2 & H3)]; eapply graceful_turn; try done; [by left|right].
    split_and!; [intros ?%H1; naive_solver|done|intros ?%H3; naive_solver]. }
  assert (Hstay : ∀ t', (t' = Closing G_finish → p = G_finish ∨ done_ l = true ∨ state s = ConnClosed) →
    ∀ l', lives s = [l'] → graceful s (<[i := t']> ts) l' (log ++ [])).
  { intros t' H l'. rewrite Hl. intros [= <-]. apply Hgo. right. split_and!; try done; auto. }
  destruct p as [| |k|k| |g|g|g st|g st|g| | | | |b|k|]; cbn [close_ids stage] in *; destruct_and?; subst; 
    cbn [close_turn]; rewrite ?(cur_one _ _ Hl), ?(life_one _ _ Hl), ?(on_life_one _ _ _ Hl).
  - destruct (state s); try (by apply Hstay). intros l'. rewrite lives_uncheck. cbn [lives set_state]. rewrite Hl.
    intros [= <-]. apply Hgo. right. rewrite state_uncheck. split_and!; try done; auto.
  - destruct (conn s); apply Hstay; [done|auto].
  - destruct x; try (destruct (close_ l); by apply Hstay); (destruct (write_room 0 s); [|by apply Hstay]);
      unfold send; rewrite (on_life_one _ _ _ Hl); intros l'; cbn [lives set_lives]; intros [= <-]; apply Hgo; right; split_and!; try done; auto.
  - destruct (done_ l) eqn:Ed; apply Hstay; [auto|done].
  - destruct (decide (state s = ConnHanged)); [|by apply Hstay]. intros l'. cbn [lives set_state]. rewrite Hl. intros [= <-].
    apply Hgo. right. split_and!; try done; auto.
  - destruct (decide (generation s = 1)); by apply Hstay.
  - destruct (state s); try (by apply Hstay); destruct g; by apply Hstay.
  - destruct (decide (generation s = 1)); by apply Hstay.
  - destruct (decide (state s = st)); [|destruct g; by apply Hstay]. intros l' _. apply Hgo. by left.
  - destruct (decide (generation s = 1)); by apply Hstay.
  - destruct (closeOnce l); [by apply Hstay|]. destruct (close_ l); [by apply Hstay|]. intros l' _. apply Hgo. right. split_and!; try done; auto.
  - intros l' _. apply Hgo. right. split_and!; try done; auto.
  - destruct (recv_closed l); [by apply Hstay|]. intros l' _. apply Hgo. right. split_and!; try done; auto.
  - destruct (conn s); intros l' _; apply Hgo; right; split_and!; try done; auto.
  - intros l' _. apply Hgo. right. split_and!; try done; auto.
  - destruct (decide (0%nat ∈ connections s)); intros l' _; apply Hgo; right; split_and!; try done; auto.
  - by apply Hstay.
Qed.

(** ** Pushing *)

Record pushes (s : serverConn) (ts : list thread) (log : list event) : Prop := {
  pushes_sent i m : ts !! i = Some (Pushing (P_sent m)) → m ∈ accepted log;
  pushes_check i m : ts !! i = Some (Pushing (P_check m)) → state s ≠ ConnOpened;
  pushes_acked m : m ∈ acked log → m ∈ accepted log;
}.

Lemma acked_app l1 l2 : acked (l1 ++ l2) = acked l1 ++ acked l2.
Proof. apply msgs_app. Qed.

Lemma pushes_other s s' ts log es i t t' :
  pushes s ts log → ts !! i = Some t → (state s' = ConnOpened → state s = ConnOpened) →
  (∀ p, t' = Pushing p → p = P_end ∨ (∃ m, p = P_sent m ∧ m ∈ accepted es) ∨ (∃ m, p = P_check m ∧ state s' ≠ ConnOpened) ∨
     (∀ m, p ≠ P_sent m ∧ p ≠ P_check m)) →
  (∀ m, m ∈ acked es → m ∈ accepted log) → pushes s' (<[i := t']> ts) (log ++ es).
Proof.
  intros [H1 H2 H3] Ht Hs Hp Ha. split.
  - intros j m. rewrite list_lookup_insert_Some, accepted_app, elem_of_app. intros [(<- & E & _)|[_ Hj]]; [|left; by eapply H1].
    destruct (Hp _ E) as [?|[(m' & [= <-] & ?)|[(m' & ? & _)|Hno]]]; [done|by right|done|by destruct (Hno m)].
  - intros j m. rewrite list_lookup_insert_Some. intros [(<- & E & _)|[_ Hj]]; [|intros E; by eapply H2, Hs].
    destruct (Hp _ E) as [?|[(m' & ? & _)|[(m' & _ & ?)|Hno]]]; [done|done|done|by destruct (Hno m)].
  - intros m. rewrite acked_app, accepted_app, !elem_of_app. intros [Hm|Hm]; left; auto.
Qed.

Lemma pushes_push_turn x p s ts i log :
  ts !! i = Some (Pushing p) → pushes s ts log → state s ≠ ConnZero →
  let '(s', t', es) := push_turn x p s in pushes s' (<[i := t']> ts) (log ++ es).
Proof.
  intros Ht Hpu Hz. pose proof Hpu as [H1 H2 H3].
  assert (Hgo : ∀ s' t' es, state s' = state s →
    (∀ p, t' = Pushing p → p = P_end ∨ (∃ m, p = P_sent m ∧ m ∈ accepted es) ∨ (∃ m, p = P_check m ∧ state s' ≠ ConnOpened) ∨
     (∀ m, p ≠ P_sent m ∧ p ≠ P_check m)) →
    (∀ m, m ∈ acked es → m ∈ accepted log) → pushes s' (<[i := t']> ts) (log ++ es)).
  { intros s' t' es E ? ?. eapply pushes_other; try done. by rewrite E. }
  destruct p as [m|m|k m|k m|m|m|]; cbn [push_turn].
  - apply Hgo; [done| |by intros m' ?%elem_of_nil]. intros p [= <-]. case_decide; [right; right; right; done|].
    right; right; left. eauto.
  - destruct (conn s); apply Hgo; try done; try (by intros m' ?%elem_of_nil); intros p [= <-]; auto 6.
  - destruct (write_room k s), (close_ (life_at k s)), x; apply Hgo; try done; try (by intros m' ?%elem_of_nil);
      intros p [= <-]; auto 6; right; left; exists m; (split; [done|]); by left.
  - destruct x; try (destruct (write_room k s)); try (destruct (close_ (life_at k s))); apply Hgo; try done;
      try (by intros m' ?%elem_of_nil); intros p [= <-]; auto 6; try (right; left; exists m; (split; [done|]); by left);
      by right; right; right.
  - case_decide as Hd; apply Hgo; try done; try (by intros m' ?%elem_of_nil).
    + intros p [= <-]. by left.
    + intros m' ->%list_elem_of_singleton. by eapply H1.
    + intros p [= <-]. right; right; left. eauto.
  - apply Hgo; [done|intros p [= <-]; by left|]. intros m'. cbn. pose proof (H2 _ _ Ht) as Hno.
    unfold checkState. destruct (state s); try done; by intros ?%elem_of_nil.
  - apply Hgo; [done|intros p [= <-]; by left|by intros m' ?%elem_of_nil].
Qed.

(** ** All of it, in every reachable state *)

Lemma order_hand l w w' log : order l w log → hand w' = hand w → order l w' log.
Proof. intros [H1 H2 H3] E. split; rewrite ?E; auto. Qed.

(** Turn of thread [i], which is [t]; [u'] is what thread [j], which was [u], is then. *)
Definition then_ (i j : nat) (t' u : thread) : thread := if decide (i = j) then t' else u.

Lemma insert_then {ts : list thread} {i j t t' u} :
  ts !! i = Some t → ts !! j = Some u → <[i := t']> ts !! j = Some (then_ i j t' u).
Proof.
  intros Ht Hu. unfold then_. case_decide as Hd; [subst|by rewrite list_lookup_insert_ne].
  apply list_lookup_insert_eq. by apply lookup_lt_Some in Ht.
Qed.

Section turn.
Context (x : pick) (t : thread) (y : system) (l : life) (i : nat) (log : list event).
Context (H1 : one_life y l) (Ht : threads y !! i = Some t).

Lemma turn_sends w :
  threads y !! 2%nat = Some w → order l w log →
  let '(s', t', es) := thread_turn authorizes x t (object y) in
  ∀ l', lives s' = [l'] → order l' (then_ i 2 t' w) (log ++ es).
Proof using H1 Ht.
  intros Hw Ho. pose proof (one_lives _ _ H1) as Hl. pose proof (one_conn _ _ H1) as Hc.
  pose proof (one_placed _ _ H1 i t Ht) as Hp. unfold then_.
  assert (Hcase : (∃ p, t = Writing p) ∨ (∀ p, t ≠ Writing p)).
  { destruct t; try (right; discriminate). left. eauto. }
  destruct Hcase as [[p ->]|Hno].
  - cbn in Hp. destruct Hp as [Hp ->]. assert (w = Writing p) as -> by congruence.
    pose proof (order_write x p (object y) l log Hl Hc Hp Ho) as K. cbn [thread_turn].
    destruct (write_turn x p (object y)) as [[s' t'] es]. by rewrite decide_True.
  - pose proof (not_writing authorizes x t (object y) l i Hl Hc Hp Hno) as K.
    destruct (thread_turn authorizes x t (object y)) as [[s' t'] es]. intros l' Hl'. destruct (K l' Hl') as (E1 & E2 & E3 & E4).
    pose proof (order_put l l' w log es Ho E1 E3 E4) as Ho'. case_decide; [|done]. subst.
    assert (w = t) as -> by congruence. apply (order_hand _ t); [done|].
    assert (N : ∀ v, (∀ p, v ≠ Writing p) → hand v = None) by (intros [ ] Hv; try done; by edestruct Hv).
    by rewrite !N.
Qed.

Lemma turn_receives rd lp :
  threads y !! 0%nat = Some rd → threads y !! 1%nat = Some lp → receives l rd lp log → (t = Crashed → i = 0%nat) →
  let '(s', t', es) := thread_turn authorizes x t (object y) in
  ∀ l', lives s' = [l'] → receives l' (then_ i 0 t' rd) (then_ i 1 t' lp) (log ++ es).
Proof using H1 Ht.
  intros Hr Hlp Hre Hcr. pose proof (one_lives _ _ H1) as Hl. pose proof (one_conn _ _ H1) as Hc.
  pose proof (one_placed _ _ H1 i t Ht) as Hp. unfold then_. destruct (decide (2 <= i)%nat) as [Hi|Hi].
  - pose proof (not_reading authorizes x t (object y) l i Hl Hc Hp Hi) as K.
    destruct (thread_turn authorizes x t (object y)) as [[s' t'] es]. intros l' Hl'. destruct (K l' Hl') as (E1 & E2 & E3 & E4).
    rewrite !decide_False by lia. eapply receives_other; [exact Hre|..]; auto.
  - destruct t as [p|p|p|p|p|g b|u b|k n|] eqn:Et; cbn in Hp; try lia.
    + assert (i = 0%nat) as -> by lia. destruct Hp as [Hp _]. pose proof (closing_reads authorizes x p (object y) l Hl Hc Hp) as K.
      cbn [thread_turn]. destruct (close_turn authorizes x p (object y)) as [[s' p'] es]. intros l' Hl'.
      destruct (K l' Hl') as (E1 & E2 & E3 & E4). rewrite decide_True, decide_False by done.
      eapply receives_other; try done. left. by destruct p'.
    + destruct Hp as [Hp ->]. assert (rd = Reading p) as -> by congruence.
      pose proof (receives_read_turn x p (object y) l lp log Hl Hp Hre) as K. cbn [thread_turn].
      destruct (read_turn x p (object y)) as [[s' t'] es]. by rewrite decide_True, decide_False.
    + destruct Hp as [Hp ->]. assert (lp = Receiving p) as -> by congruence.
      pose proof (receives_loop_turn p (object y) l rd log Hl Hp Hre) as K. cbn [thread_turn].
      destruct (loop_turn p (object y)) as [[s' t'] es]. by rewrite decide_False, decide_True.
    + rewrite (Hcr eq_refl). cbn. intros l'. rewrite Hl. intros [= <-]. rewrite (decide_True (P := 0%nat = 0%nat)), decide_False by done.
      eapply receives_other; [exact Hre|..]; auto.
Qed.

Lemma turn_closes who n :
  closes (object y) (threads y) l log who n → graceful (object y) (threads y) l log →
  let '(s', t', es) := thread_turn authorizes x t (object y) in
  ∀ l', lives s' = [l'] → (∃ who' n', closes s' (<[i := t']> (threads y)) l' (log ++ es) who' n') ∧
    graceful s' (<[i := t']> (threads y)) l' (log ++ es).
Proof using H1 Ht.
  intros Hcl Hgr. pose proof (one_lives _ _ H1) as Hl. pose proof (one_conn _ _ H1) as Hc. pose proof (one_gen _ _ H1) as Hg.
  pose proof (one_placed _ _ H1 i t Ht) as Hp.
  assert (Hcase : (∃ p, t = Closing p) ∨ (∀ p, t ≠ Closing p)).
  { destruct t; try (right; discriminate). left. eauto. }
  destruct Hcase as [[p ->]|Hno].
  - cbn in Hp. destruct Hp as [Hp _]. pose proof (closes_close_turn x p (object y) l (threads y) i log who n Hl Hg Hp Ht Hcl) as K1.
    pose proof (graceful_close_turn x p (object y) l (threads y) i log who n Hl Hg Hp Ht Hcl Hgr) as K2.
    cbn [thread_turn]. destruct (close_turn authorizes x p (object y)) as [[s' p'] es]. intros l' Hl'. auto.
  - pose proof (not_closing authorizes x t (object y) l i Hl Hc Hp Hno) as K.
    destruct (thread_turn authorizes x t (object y)) as [[s' t'] es]. intros l' Hl'. destruct (K l' Hl') as ([] & Hst & Hcr).
    assert (Hs0 : stage t = None) by (destruct t; try done; by edestruct Hno).
    assert (Hs1 : stage t' = None) by (destruct t' as [[]|?|?|?|?|?|?|?|]; done).
    split.
    + exists who, n. eapply closes_same; try done.
      * by rewrite Hs0, Hs1.
      * by intros b ->.
      * intros ->. destruct (Hcr eq_refl) as [->|?]; [|done]. by eapply (closes_crash _ _ _ _ _ _ Hcl).
      * by left.
      * rewrite settled_done. by intros ->.
    + eapply graceful_turn; [done..|]. right. rewrite settled_state, settled_done. split_and!; [by left| |by intros ->].
      intros [Hd|Hd]%orb_true_iff; auto.
Qed.

Lemma turn_pushes :
  pushes (object y) (threads y) log → state (object y) ≠ ConnZero →
  let '(s', t', es) := thread_turn authorizes x t (object y) in pushes s' (<[i := t']> (threads y)) (log ++ es).
Proof using H1 Ht.
  intros Hpu Hz. pose proof (one_lives _ _ H1) as Hl. pose proof (one_conn _ _ H1) as Hc.
  pose proof (one_placed _ _ H1 i t Ht) as Hp.
  assert (Hcase : (∃ p, t = Pushing p) ∨ (∀ p, t ≠ Pushing p)).
  { destruct t; try (right; discriminate). left. eauto. }
  destruct Hcase as [[p ->]|Hno].
  - pose proof (pushes_push_turn x p (object y) (threads y) i log Ht Hpu Hz) as K. cbn [thread_turn].
    by destruct (push_turn x p (object y)) as [[s' t'] es].
  - pose proof (not_pushing authorizes x t (object y) l i Hl Hc Hp Hno) as K.
    pose proof (never_reopens authorizes x t (object y) l i Hl Hc Hp) as Hro.
    destruct (thread_turn authorizes x t (object y)) as [[s' t'] es]. destruct K as [Ha Hno'].
    eapply pushes_other; try done; [intros p ->; by edestruct Hno'|]. rewrite Ha. by intros m ?%elem_of_nil.
Qed.
End turn.

Record inv (y : system) (log : list event) (l : life) (rd lp w : thread) : Prop := {
  inv_one : one_life y l;
  inv_rd : threads y !! 0%nat = Some rd;
  inv_lp : threads y !! 1%nat = Some lp;
  inv_w : threads y !! 2%nat = Some w;
  inv_order : order l w log;
  inv_receives : receives l rd lp log;
  inv_closes : ∃ who n, closes (object y) (threads y) l log who n;
  inv_graceful : graceful (object y) (threads y) l log;
  inv_pushes : pushes (object y) (threads y) log;
}.

(** A new call. *)
Lemma inv_spawn y y' log l rd lp w t :
  inv y log l rd lp w → one_life y' l → threads y' = threads y ++ [t] →
  state (object y') = state (object y) → conn (object y') = conn (object y) →
  stage t = None → (∀ b, t ≠ Closing (C_handler b)) → t ≠ Crashed → t ≠ Closing G_finish →
  (∀ m, t ≠ Pushing (P_sent m) ∧ t ≠ Pushing (P_check m)) → inv y' log l rd lp w.
Proof.
  intros [H1 H2 H3 H4 H5 H6 (who & n & [C1 [C2 C3] [] C4 C5]) H8 [P1 P2 P3]] Hone Ets Es Ec Hst Hh Hcr Hf Hp.
  assert (K : ∀ j u, threads y' !! j = Some u → threads y !! j = Some u ∨ u = t).
  { intros j u. rewrite Ets, lookup_app_Some. intros [Hj|[_ Hj]]; [by left|right].
    by apply list_lookup_singleton_Some in Hj as [_ <-]. }
  assert (L : ∀ j u, threads y !! j = Some u → threads y' !! j = Some u).
  { intros j u Hj. rewrite Ets. by apply lookup_app_l_Some. }
  split; auto.
  - exists who, n. split.
    + by rewrite Es.
    + split; [|intros j [u Hj]%C3; eauto]. intros j u Hj'.
      destruct (lookup_lt_is_Some (threads y) j) as [_ Hlt]. rewrite Ets in Hj'.
      apply lookup_app_Some in Hj' as [Hj|[Hge Hj]]; [by apply C2|].
      apply list_lookup_singleton_Some in Hj as [_ <-]. rewrite Hst. case_decide as Hd; [|done].
      apply C3 in Hd as [u Hu%lookup_lt_Some]. lia.
    + split; rewrite ?Ec; done.
    + intros j b [Hj|E]%K; [by eapply C4|by destruct (Hh b)].
    + intros j [Hj|E]%K; [by apply C5|done].
  - destruct H8 as [?|(G1 & G2 & G3)]; [by left|right]. rewrite Es. split_and!; [done..|].
    intros j [Hj|E]%K; [by eapply G3|done].
  - split; [| |done].
    + intros j m [Hj|E]%K; [by eapply P1|by destruct (Hp m)].
    + intros j m [Hj|E]%K; [rewrite Es; by eapply P2|by destruct (Hp m)].
Qed.

Lemma closes_not_zero s ts l log who n : closes s ts l log who n → state s ≠ ConnZero.
Proof. intros [H _ _ _ _] E. destruct who; rewrite E in H; [by destruct H|]. by destruct H as [[_ [?|?]]|[_ ?]]. Qed.

Lemma inv_go x y log l rd lp w i t :
  inv y log l rd lp w → threads y !! i = Some t →
  let '(y', es) := turn authorizes maxConnNum (Go i x) y in ∃ l' rd' lp' w', inv y' (log ++ es) l' rd' lp' w'.
Proof.
  intros [H1 H2 H3 H4 H5 H6 (who & n & H7) H8 H9] Ht.
  destruct (turn_one authorizes maxConnNum (Go i x) y l ltac:(done) H1) as [l' H1'].
  pose proof (turn_sends x t y l i log H1 Ht w H4 H5) as K1.
  assert (Hcr : t = Crashed → i = 0%nat) by (intros ->; by eapply (closes_crash _ _ _ _ _ _ H7)).
  pose proof (turn_receives x t y l i log H1 Ht rd lp H2 H3 H6 Hcr) as K2.
  pose proof (turn_closes x t y l i log H1 Ht who n H7 H8) as K3.
  pose proof (turn_pushes x t y l i log H1 Ht H9 (closes_not_zero _ _ _ _ _ _ H7)) as K4.
  cbn [turn] in *. rewrite Ht in *. destruct (thread_turn authorizes x t (object y)) as [[s' t'] es]. cbn in H1'.
  pose proof (one_lives _ _ H1') as Hl'. cbn in Hl'.
  exists l', (then_ i 0 t' rd), (then_ i 1 t' lp), (then_ i 2 t' w).
  split; cbn; [done|by eapply insert_then..|by apply K1|by apply K2|by apply K3|by apply K3|done].
Qed.

Lemma inv_turn c y log l rd lp w :
  inv y log l rd lp w → c ≠ Allocate →
  let '(y', es) := turn authorizes maxConnNum c y in ∃ l' rd' lp' w', inv y' (log ++ es) l' rd' lp' w'.
Proof.
  intros H Hc. pose proof (inv_one _ _ _ _ _ _ H) as H1.
  destruct (turn_one authorizes maxConnNum c y l Hc H1) as [l1 H1'].
  assert (Hstay : ∃ l' rd' lp' w', inv y (log ++ []) l' rd' lp' w') by (rewrite app_nil_r; eauto).
  assert (K : ∀ y' t, one_life y' l1 → lives (object y') = lives (object y) → threads y' = threads y ++ [t] →
    state (object y') = state (object y) → conn (object y') = conn (object y) →
    stage t = None → (∀ b, t ≠ Closing (C_handler b)) → t ≠ Crashed → t ≠ Closing G_finish →
    (∀ m, t ≠ Pushing (P_sent m) ∧ t ≠ Pushing (P_check m)) → ∃ l' rd' lp' w', inv y' (log ++ []) l' rd' lp' w').
  { intros y' t Ho El. rewrite (one_lives _ _ Ho), (one_lives _ _ H1) in El. injection El as ->.
    intros. rewrite app_nil_r. exists l, rd, lp, w. by eapply inv_spawn. }
  destruct c as [i x|m|force|u| | |]; [|cbn [turn] in *..]; try done.
  - destruct (threads y !! i) as [t|] eqn:Et; [by eapply inv_go|]. cbn [turn]. by rewrite Et.
  - case_decide; [done|]. by apply (K _ (Pushing (P_state m))).
  - apply (K _ (Closing (if force then F_load None else G_cas))); by destruct force.
  - by apply (K _ (Binding (Some u) false)).
  - by apply (K _ (Binding None false)).
  - destruct (authorizeTimer (object y)) as [g|]; [|done]. by apply (K _ (Timing g false)).
Qed.

Lemma inv_start : 0 < maxConnNum →
  inv (start authorizes maxConnNum) [] new_life (Reading R_start) (Receiving (L_start 1)) (Writing W_start).
Proof.
  intros Hm. unfold start. cbn [turn]. cbn [object pooled new_serverConn total]. rewrite bool_decide_false by lia. cbn.
  assert (Hi : ∀ i t, [Reading R_start; Receiving (L_start 1); Writing W_start; Allocating 0 0] !! i = Some t →
    t = Reading R_start ∧ i = 0%nat ∨ t = Receiving (L_start 1) ∧ i = 1%nat ∨ t = Writing W_start ∧ i = 2%nat ∨ t = Allocating 0 0 ∧ i = 3%nat).
  { intros [|[|[|[|i]]]] t Hi; cbn in Hi; simplify_eq; auto 6. }
  split; auto.
  - split; cbn; [done|done|by right|by intros ?|lia|]. intros i t [[-> ->]|[[-> ->]|[[-> ->]|[-> ->]]]]%Hi; cbn; auto with lia.
  - split; cbn; auto; [|done]. intros _. split; [by intros ?%elem_of_nil|done].
  - by split.
  - exists None, 0%nat. split; cbn.
    + auto.
    + split; [|done]. intros i t [[-> _]|[[-> _]|[[-> _]|[-> _]]]]%Hi; done.
    + split; cbn; auto; lia.
    + by intros i b [[? _]|[[? _]|[[? _]|[? _]]]]%Hi.
    + by intros i [[? _]|[[? _]|[[? _]|[? _]]]]%Hi.
  - right. split_and!; try done. by intros i [[? _]|[[? _]|[[? _]|[? _]]]]%Hi.
  - split.
    + by intros i m [[? _]|[[? _]|[[? _]|[? _]]]]%Hi.
    + by intros i m [[? _]|[[? _]|[[? _]|[? _]]]]%Hi.
    + by intros m ?%elem_of_nil.
Qed.

Lemma inv_run cs : ∀ y log l rd lp w, inv y log l rd lp w → (Allocate ∉ cs) →
  let '(y', es) := run authorizes maxConnNum cs y in ∃ l' rd' lp' w', inv y' (log ++ es) l' rd' lp' w'.
Proof.
  induction cs as [|c cs IH]; intros y log l rd lp w H Hcs; [cbn; rewrite app_nil_r; eauto|]. cbn [run].
  apply not_elem_of_cons in Hcs as [Hc Hcs]. pose proof (inv_turn c y log l rd lp w H) as K.
  destruct (turn authorizes maxConnNum c y) as [y1 es]. destruct K as (l1 & rd1 & lp1 & w1 & K); [done|].
  specialize (IH y1 _ _ _ _ _ K Hcs). destruct (run authorizes maxConnNum cs y1) as [y2 es2].
  by rewrite <- app_assoc in IH.
Qed.

(** ** A forced close goes to its end *)

Lemma run_go n i p s ts s' p' es :
  ts !! i = Some (Closing p) → close_turn authorizes Plain p s = (s', Some p', es) →
  run authorizes maxConnNum (go (S n) i) (mkSystem s ts) =
    let '(y, es') := run authorizes maxConnNum (go n i) (mkSystem s' (<[i := Closing p']> ts)) in (y, es ++ es').
Proof. intros Ht Hc. cbn [go replicate run turn threads object]. rewrite Ht. cbn [thread_turn]. by rewrite Hc. Qed.

Lemma run_forced s l ts i :
  lives s = [l] → conn s = Some 0%nat → (state s = ConnOpened ∨ state s = ConnHanged) →
  closeOnce l = false → close_ l = false → recv_closed l = false → ts !! i = Some (Closing (F_load None)) →
  let '(y, es) := run authorizes maxConnNum (go 8 i) (mkSystem s ts) in
  threads y = <[i := Closing C_end]> ts ∧ state (object y) = ConnClosed.
Proof.
  intros Hl Hc Hst H1 H2 H3 Ht. set (s1 := uncheckAuthorize authorizes (set_state ConnClosed s)).
  assert (Hi : ∀ t', <[i := t']> ts !! i = Some t').
  { intros t'. apply list_lookup_insert_eq. by apply lookup_lt_Some in Ht. }
  assert (El : lives s1 = [l]) by (unfold s1; by rewrite lives_uncheck).
  assert (Ec : conn s1 = Some 0%nat) by (unfold s1; by rewrite conn_uncheck).
  assert (Es : state s1 = ConnClosed) by (unfold s1; by rewrite state_uncheck).
  assert (E1 : close_turn authorizes Plain (F_load None) s = (s, Some (F_cas None (state s)), [])).
  { cbn [close_turn]. by destruct Hst as [->| ->]. }
  erewrite run_go; [|exact Ht|exact E1].
  erewrite run_go; [|apply Hi|cbn [close_turn]; rewrite decide_True by done; reflexivity]. fold s1.
  erewrite run_go; [|rewrite list_insert_insert_eq; apply Hi|].
  2:{ cbn [close_turn]. rewrite (cur_one _ _ El), (life_one _ _ El), H1, H2, (on_life_one _ l) by (by rewrite lives_uncheck).
      reflexivity. }
  erewrite run_go; [|rewrite !list_insert_insert_eq; apply Hi|cbn [close_turn notifyDone]; reflexivity].
  erewrite run_go; [|rewrite !list_insert_insert_eq; apply Hi|].
  2:{ cbn [close_turn]. unfold notifyDone, cur, on_life, life_at. cbn. rewrite H3. reflexivity. }
  erewrite run_go; [|rewrite !list_insert_insert_eq; apply Hi|].
  2:{ cbn [close_turn]. cbn. rewrite conn_uncheck, Ec. reflexivity. }
  erewrite run_go; [|rewrite !list_insert_insert_eq; apply Hi|cbn [close_turn]; reflexivity].
  cbn [go replicate run turn threads]. rewrite !list_insert_insert_eq, Hi. cbn [thread_turn close_turn].
  case_decide; cbn [threads object run]; rewrite ?list_insert_insert_eq; (split; [done|]);
    unfold set_mgr, notifyDone; cbn; by rewrite state_uncheck.
Qed.

Lemma tcp_run_app cs1 cs2 y :
  run authorizes maxConnNum (cs1 ++ cs2) y =
    let '(y1, es1) := run authorizes maxConnNum cs1 y in
    let '(y2, es2) := run authorizes maxConnNum cs2 y1 in (y2, es1 ++ es2).
Proof.
  revert y. induction cs1 as [|c cs1 IH]; intros y; cbn [app run]; [by destruct (run _ _ cs2 y)|].
  destruct (turn authorizes maxConnNum c y) as [y1 es]. rewrite IH.
  destruct (run authorizes maxConnNum cs1 y1) as [y2 es2], (run authorizes maxConnNum cs2 y2) as [y3 es3].
  by rewrite app_assoc.
Qed.

(** ** What it promises *)

(** All that is left of a connection that is closed. *)
Definition gone (y : system) (log : list event) : Prop :=
  state (object y) = ConnClosed ∧ conn (object y) = None ∧ sock_closed (life_at 0 (object y)) = true ∧
  close_ (life_at 0 (object y)) = true ∧ done_ (life_at 0 (object y)) = true ∧
  recv_closed (life_at 0 (object y)) = true ∧ disconnects log = 1%nat.

Lemma closes_gone y l log who n :
  one_life y l → closes (object y) (threads y) l log who n → state (object y) = ConnClosed →
  (∀ i t, threads y !! i = Some t → stage t = None) → gone y log.
Proof.
  intros H1 [C1 [C2 C3] [P1 P2 P3 P4 P5 P6 P7 P8] C4 C5] Hst Hno. unfold gone. rewrite (life_one _ _ (one_lives _ _ H1)).
  destruct who as [j|].
  { destruct (C3 j eq_refl) as [t Ht]. pose proof (C2 j t Ht) as E. by rewrite (Hno j t Ht), decide_True in E. }
  destruct C1 as [[_ C1]|[-> _]]; [destruct C1; congruence|]. cbn in *. split_and!; auto. apply P3. lia.
Qed.

(** What a run from the start, of one player, gives. *)
Lemma inv_reached cs :
  0 < maxConnNum → (Allocate ∉ cs) →
  let '(y, log) := run authorizes maxConnNum cs (start authorizes maxConnNum) in ∃ l rd lp w, inv y log l rd lp w.
Proof. intros Hm Hcs. by apply (inv_run cs _ [] _ _ _ _ (inv_start Hm)). Qed.




(** C38. A forced close of a connection that is open or hanging is through after
    eight turns of its own, wherever the other threads stand. *)
Theorem force_close_completes cs :
  0 < maxConnNum → (Allocate ∉ cs) →
  let y := (run authorizes maxConnNum cs (start authorizes maxConnNum)).1 in
  (state (object y) = ConnOpened ∨ state (object y) = ConnHanged) →
  let '(y', log) := run authorizes maxConnNum (cs ++ DoClose true :: go 8 (length (threads y))) (start authorizes maxConnNum) in
  gone y' log.
Proof.
  intros Hm Hcs y Hst. subst y.
  assert (Hcs' : ∀ k, Allocate ∉ cs ++ DoClose true :: go 8 k).
  { intros k. rewrite not_elem_of_app, not_elem_of_cons. split_and!; try done. by intros [? _]%elem_of_replicate. }
  pose proof (inv_reached cs Hm Hcs) as K. pose proof (inv_reached _ Hm (Hcs' (length (threads (run authorizes maxConnNum cs (start authorizes maxConnNum)).1)))) as K'.
  rewrite tcp_run_app in *. destruct (run authorizes maxConnNum cs _) as [y log]. cbn [fst run turn] in *.
  destruct K as (l & rd & lp & w & [H1 _ _ _ _ _ (who & n & [C1 [C2 C3] [P1 P2 P3 P4 P5 _ _ _] _ _]) _ _]).
  assert (who = None ∧ n = 0%nat) as [-> ->].
  { destruct who; [destruct C1 as [C1 _], Hst; congruence|]. destruct C1 as [[-> _]|[_ C1]]; [done|destruct Hst; congruence]. }
  cbn in P1, P2, P4, P5. set (i := length (threads y)) in *. unfold spawn in *.
  pose proof (run_forced (object y) l (threads y ++ [Closing (F_load None)]) i (one_lives _ _ H1) P5 Hst P1 P2 P4) as F.
  destruct (run _ _ (go 8 i) _) as [y' es']. destruct K' as (l' & rd' & lp' & w' & [H1' _ _ _ _ _ (who' & n' & H7) _ _]).
  destruct F as [Ft Fs]. { apply lookup_app_Some. right. by rewrite Nat.sub_diag. }
  eapply closes_gone; [done..|]. rewrite Ft. intros j t. rewrite list_lookup_insert_Some.
  intros [(_ & <- & _)|[Hne Hj]]; [done|]. apply lookup_app_Some in Hj as [Hj|[_ Hj]]; [by apply (C2 j t Hj)|].
  by apply list_lookup_singleton_Some in Hj as [_ <-].
Qed.

End serve.

(** ** A connection that serves and is closed *)

Definition demo_serve : list choice :=
  go 4 3 ++ [DoPush [1; 2]; DoPush [3]] ++ go 4 4 ++ go 4 5 ++ go 6 2 ++ go 2 0 ++ [Go 0 (Arrives [9])] ++ go 3 0 ++ go 5 1.
Definition demo_close : list choice := demo_serve ++ [DoClose false] ++ go 3 6 ++ go 6 2 ++ go 9 6.

Lemma demo_one : Allocate ∉ demo_close.
Proof. intros H. vm_compute in H. repeat (apply elem_of_cons in H as [?|H]; [done|]). by apply elem_of_nil in H. Qed.
Lemma demo_one_serve : Allocate ∉ demo_serve.
Proof. intros H. apply demo_one. unfold demo_close. by apply elem_of_app; left. Qed.




Lemma force_close_completes_witness :
  let '(y', log) := run false 100 (demo_serve ++ DoClose true :: go 8 6) (start false 100) in gone y' log.
Proof. apply (force_close_completes false 100 demo_serve); [done|apply demo_one_serve|left; by vm_compute]. Defined.

