(* ===== verification/Decimals.v ===== *)
(** * utils/decimal: fixed-point decimal numbers

    decimal.go without the transcendental functions and the conversion of a
    float to its shortest decimal.  A [big.Int] is a [Z]; the pointer to it may
    be nil ([value d = None]: the zero [Decimal]), and a function that uses it
    without [ensureInitialized] panics on nil ([deref]).  The exponent is an
    int32 and wraps ([i32]) wherever the code computes with it.  Strings are
    their bytes. *)
From S2P Require Import Prelude.
#[local] Close Scope nat_scope.
Open Scope Z_scope.

(** ** The data *)

Record Decimal := mkDecimal { value : option Z; exp : Z }.
#[export] Instance decimal_dec : EqDecision Decimal := ltac:(solve_decision).

Definition i32 (z : Z) : Z := wrapS 32 z.
Definition MinInt32 : Z := - 2 ^ 31.
Definition MaxInt32 : Z := 2 ^ 31 - 1.

(** The zero value of the type, and a decimal with its pointer set. *)
Definition zero_Decimal : Decimal := mkDecimal None 0.
Definition New (v e : Z) : Decimal := mkDecimal (Some v) e.
Definition NewFromInt (v : Z) : Decimal := New v 0.

(** What [ensureInitialized] makes of the pointer. *)
Definition coef (d : Decimal) : Z := default 0 (value d).
Definition ensureInitialized (d : Decimal) : Decimal := New (coef d) (exp d).
Definition deref (v : option Z) : outcome Z := match v with Some z => Ok z | None => Panic end.

(** [big.Int.Cmp]. *)
Definition int_cmp (a b : Z) : Z := match a ?= b with Lt => -1 | Eq => 0 | Gt => 1 end.

Definition Copy (d : Decimal) : Decimal := ensureInitialized d.

(** ** Scales *)

(** The difference of two int32 is exact in a float64. *)
Definition rescale (e : Z) (d : Decimal) : Decimal :=
  let diff := Z.abs (e - exp d) in
  if decide (exp d = e) then New (coef d) (exp d)
  else if decide (exp d < e) then New (Z.quot (coef d) (10 ^ diff)) e
  else New (coef d * 10 ^ diff) e.

Definition RescalePair (d1 d2 : Decimal) : Decimal * Decimal :=
  let d1 := ensureInitialized d1 in let d2 := ensureInitialized d2 in
  if decide (exp d1 < exp d2) then (d1, rescale (exp d1) d2)
  else if decide (exp d2 < exp d1) then (rescale (exp d2) d1, d2)
  else (d1, d2).

(** ** Signs and comparison *)

Definition Sign (d : Decimal) : Z := match value d with None => 0 | Some v => Z.sgn v end.
Definition IsPositive (d : Decimal) : bool := bool_decide (Sign d = 1).
Definition IsNegative (d : Decimal) : bool := bool_decide (Sign d = -1).
Definition IsZero (d : Decimal) : bool := bool_decide (Sign d = 0).

Definition Cmp (d d2 : Decimal) : Z :=
  let d := ensureInitialized d in let d2 := ensureInitialized d2 in
  if decide (exp d = exp d2) then int_cmp (coef d) (coef d2)
  else let '(rd, rd2) := RescalePair d d2 in int_cmp (coef rd) (coef rd2).
Definition Equal (d d2 : Decimal) : bool := bool_decide (Cmp d d2 = 0).
Definition GreaterThan (d d2 : Decimal) : bool := bool_decide (Cmp d d2 = 1).
Definition GreaterThanOrEqual (d d2 : Decimal) : bool :=
  let cmp := Cmp d d2 in bool_decide (cmp = 1) || bool_decide (cmp = 0).
Definition LessThan (d d2 : Decimal) : bool := bool_decide (Cmp d d2 = -1).
Definition LessThanOrEqual (d d2 : Decimal) : bool :=
  let cmp := Cmp d d2 in bool_decide (cmp = -1) || bool_decide (cmp = 0).

Definition Min (first : Decimal) (rest : list Decimal) : Decimal :=
  foldl (λ ans item, if decide (Cmp item ans < 0) then item else ans) first rest.
Definition Max (first : Decimal) (rest : list Decimal) : Decimal :=
  foldl (λ ans item, if decide (Cmp item ans > 0) then item else ans) first rest.

(** ** Arithmetic *)

Definition Abs (d : Decimal) : Decimal := if negb (IsNegative d) then d else New (Z.abs (coef d)) (exp d).
Definition Neg (d : Decimal) : Decimal := New (- coef d) (exp d).
Definition Add (d d2 : Decimal) : Decimal :=
  let '(rd, rd2) := RescalePair d d2 in New (coef rd + coef rd2) (exp rd).
Definition Sub (d d2 : Decimal) : Decimal :=
  let '(rd, rd2) := RescalePair d d2 in New (coef rd - coef rd2) (exp rd).
Definition Mul (d d2 : Decimal) : outcome Decimal :=
  let e := exp d + exp d2 in
  if decide (e > MaxInt32 ∨ e < MinInt32) then Panic else Ok (New (coef d * coef d2) e).
Definition Shift (shift : Z) (d : Decimal) : Decimal := New (coef d) (i32 (exp d + shift)).

Definition Sum (first : Decimal) (rest : list Decimal) : Decimal := foldl Add first rest.

Definition QuoRem (d d2 : Decimal) (precision : Z) : outcome (Decimal * Decimal) :=
  if decide (coef d2 = 0) then Panic else
  let scale := i32 (- precision) in
  let e := exp d - exp d2 - scale in
  if decide (e > MaxInt32 ∨ e < MinInt32) then Panic else
  let '(aa, bb, scalerest) :=
    if decide (e < 0) then (coef d, coef d2 * 10 ^ (- e), exp d)
    else (coef d * 10 ^ e, coef d2, i32 (scale + exp d2)) in
  Ok (New (Z.quot aa bb) scale, New (Z.rem aa bb) scalerest).

Definition DivRound (d d2 : Decimal) (precision : Z) : outcome Decimal :=
  '(q, r) ← QuoRem d d2 precision;
  let r2 := New (Z.abs (coef r) * 2) (i32 (exp r + precision)) in
  let c := Cmp r2 (Abs d2) in
  if decide (c < 0) then mret q else
  v ← deref (value d);
  v2 ← deref (value d2);
  if decide (Z.sgn v * Z.sgn v2 < 0) then mret (Sub q (New 1 (i32 (- precision))))
  else mret (Add q (New 1 (i32 (- precision)))).

Definition Mod (d d2 : Decimal) : outcome Decimal := '(_, r) ← QuoRem d d2 0; mret r.

(** [n] is [NewFromBigInt] of the numerator and denominator of a [big.Rat]. *)
Definition NewFromBigRat (num denom precision : Z) : outcome Decimal :=
  DivRound (New num 0) (New denom 0) precision.

(** [DivisionPrecision] and [PowPrecisionNegativeExponent] are variables of the
    package. *)
Definition default_DivisionPrecision : Z := 16.
Definition default_PowPrecisionNegativeExponent : Z := 16.

Section config.
Context (DivisionPrecision PowPrecisionNegativeExponent : Z).

Definition Div (d d2 : Decimal) : outcome Decimal := DivRound d d2 (i32 DivisionPrecision).
Definition Avg (first : Decimal) (rest : list Decimal) : outcome Decimal :=
  Div (Sum first rest) (New (len rest + 1) 0).

(** ** Powers *)

Definition abs32 (n : Z) : Z := if decide (n < 0) then i32 (- n) else n.

(** The loop of both powers: [n] is squared and [result] multiplied while the
    exponent lasts. *)
Fixpoint pow_loop (fuel : nat) (e : Z) (n result : Decimal) : outcome Decimal :=
  match fuel with
  | O => mret result
  | S fuel =>
      if decide (e > 0) then
        result ← (if decide (Z.rem e 2 = 1) then Mul result n else mret result);
        let e := Z.quot e 2 in
        n ← (if decide (e > 0) then Mul n n else mret n);
        pow_loop fuel e n result
      else mret result
  end.
Definition pow_fuel (e : Z) : nat := Z.to_nat (Z.log2 e + 1).

Definition PowInt32 (d : Decimal) (e : Z) : outcome Decimal :=
  if IsZero d && bool_decide (e = 0) then Err ErrUndefinedPower else
  let a := abs32 e in
  result ← pow_loop (pow_fuel a) a d (New 1 0);
  if decide (e < 0) then DivRound (New 1 0) result (i32 PowPrecisionNegativeExponent) else mret result.

Definition powBigIntWithPrecision (d : Decimal) (e precision : Z) : outcome Decimal :=
  if IsZero d && bool_decide (e = 0) then Err ErrUndefinedPower else
  result ← pow_loop (pow_fuel (Z.abs e)) (Z.abs e) d (New 1 0);
  if decide (e < 0) then DivRound (New 1 0) result precision else mret result.
Definition PowBigInt (d : Decimal) (e : Z) : outcome Decimal :=
  powBigIntWithPrecision d e (i32 PowPrecisionNegativeExponent).

(** ** Rounding *)

Definition Round (d : Decimal) (places : Z) : Decimal :=
  if decide (exp d = i32 (- places)) then d else
  let ret := rescale (i32 (i32 (- places) - 1)) d in
  let v := if decide (Z.sgn (coef ret) < 0) then coef ret - 5 else coef ret + 5 in
  let '(v, m) := (v / 10, v mod 10) in
  let e := i32 (exp ret + 1) in
  if decide (Z.sgn v < 0 ∧ m ≠ 0) then New (v + 1) e else New v e.

(** [RoundCeil], [RoundFloor], [RoundUp] and [RoundDown] differ in what they add to
    the truncated number, by the sign of the number. *)
Definition round_by (adjust : Z → Z) (d : Decimal) (places : Z) : outcome Decimal :=
  if decide (exp d >= i32 (- places)) then mret d else
  let rescaled := rescale (i32 (- places)) d in
  if Equal d rescaled then mret d else
  v ← deref (value d);
  mret (New (coef rescaled + adjust (Z.sgn v)) (exp rescaled)).
Definition RoundCeil : Decimal → Z → outcome Decimal := round_by (λ s, if decide (s > 0) then 1 else 0).
Definition RoundFloor : Decimal → Z → outcome Decimal := round_by (λ s, if decide (s < 0) then -1 else 0).
Definition RoundUp : Decimal → Z → outcome Decimal :=
  round_by (λ s, if decide (s > 0) then 1 else if decide (s < 0) then -1 else 0).
Definition RoundDown (d : Decimal) (places : Z) : Decimal :=
  if decide (exp d >= i32 (- places)) then d else
  let rescaled := rescale (i32 (- places)) d in
  if Equal d rescaled then d else rescaled.

Definition RoundBank (d : Decimal) (places : Z) : outcome Decimal :=
  let round := Round d places in
  let remainder := Abs (Sub d round) in
  let half := New 5 (i32 (i32 (- places) - 1)) in
  if decide (Cmp remainder half = 0) then
    v ← deref (value round);
    mret (if Z.odd v then New (if decide (Z.sgn v < 0) then v + 1 else v - 1) (exp round) else round)
  else mret round.

Definition Truncate (precision : Z) (d : Decimal) : Decimal :=
  let d := ensureInitialized d in
  if decide (precision >= 0 ∧ i32 (- precision) > exp d) then rescale (i32 (- precision)) d else d.

Definition cash_unit (interval : Z) : option Z :=
  if decide (interval = 5) then Some 20
  else if decide (interval = 10) then Some 10
  else if decide (interval = 25) then Some 4
  else if decide (interval = 50) then Some 2
  else if decide (interval = 100) then Some 1
  else None.
Definition RoundCash (d : Decimal) (interval : Z) : outcome Decimal :=
  match cash_unit interval with
  | None => Panic
  | Some iVal =>
      let dVal := New iVal 0 in
      m ← Mul d dVal;
      q ← Div (Round m 0) dVal;
      mret (Truncate 2 q)
  end.

Definition Floor (d : Decimal) : Decimal :=
  if decide (exp d >= 0) then ensureInitialized d else New (coef d / 10 ^ (- exp d)) 0.
Definition Ceil (d : Decimal) : Decimal :=
  if decide (exp d >= 0) then ensureInitialized d else
  let p := 10 ^ (- exp d) in
  New (if decide (coef d mod p = 0) then coef d / p else coef d / p + 1) 0.

(** The digits behind the point one by one, from the last. *)
Fixpoint no_fraction (z : nat) (q : Z) : bool :=
  match z with
  | O => true
  | S z => if decide (Z.rem q 10 = 0) then no_fraction z (Z.quot q 10) else false
  end.
Definition IsInteger (d : Decimal) : outcome bool :=
  if decide (exp d >= 0) then mret true else
  v ← deref (value d); mret (no_fraction (Z.to_nat (abs32 (exp d))) v).

Definition BigInt (d : Decimal) : Z := coef (rescale 0 d).
Definition IntPart (d : Decimal) : Z := wrapS 64 (BigInt d).
(** The fraction that [Rat] makes, before it is reduced. *)
Definition Rat (d : Decimal) : Z * Z :=
  if decide (exp d <= 0) then (coef d, 10 ^ (- exp d)) else (coef d * 10 ^ exp d, 1).
End config.
