(* ===== verification/DecimalMath.v ===== *)
(** * utils/decimal: exact arithmetic

    What the decimals of [Decimals] stand for and what the operations do to it.
    [units e d] is [d] in units of 10^e, an integer when [e] is no larger than
    the exponent of [d]; two decimals are compared, added and so on in any unit
    that is fine enough for both. *)
From S2P Require Import Prelude Decimals.
#[local] Close Scope nat_scope.
Open Scope Z_scope.

Definition units (e : Z) (d : Decimal) : Z := coef d * 10 ^ (exp d - e).

Lemma pow10_pos k : 0 <= k → 0 < 10 ^ k.
Proof. intros. by apply Z.pow_pos_nonneg. Qed.
Lemma pow10_split a b : 0 <= a → 0 <= b → 10 ^ (a + b) = 10 ^ a * 10 ^ b.
Proof. intros. by apply Z.pow_add_r. Qed.

(** A finer unit. *)
Lemma units_finer e e' d : e' <= e → e <= exp d → units e' d = units e d * 10 ^ (e - e').
Proof. intros. unfold units. rewrite <- Z.mul_assoc, <- pow10_split by lia. do 2 f_equal. lia. Qed.

Lemma units_init e d : units e (ensureInitialized d) = units e d.
Proof. done. Qed.

Lemma units_new e v x : units e (New v x) = v * 10 ^ (x - e).
Proof. done. Qed.

Lemma units_same e v : units e (New v e) = v.
Proof. rewrite units_new, Z.sub_diag. lia. Qed.

Lemma exp_rescale e d : exp (rescale e d) = e.
Proof. unfold rescale. repeat case_decide; cbn; lia. Qed.

(** Rescaling to a smaller exponent loses nothing; to a larger one it truncates. *)
Lemma units_rescale e x d : e <= x → x <= exp d → units e (rescale x d) = units e d.
Proof.
  intros He Hx. unfold rescale. case_decide as H1; [done|]. case_decide as H2; [lia|].
  rewrite units_new. unfold units. rewrite <- Z.mul_assoc, <- pow10_split by lia. do 2 f_equal. lia.
Qed.

Lemma coef_rescale_up x d : exp d <= x → coef (rescale x d) = Z.quot (coef d) (10 ^ (x - exp d)).
Proof.
  intros Hx. unfold rescale. case_decide as H1.
  - cbn. by rewrite <- H1, Z.sub_diag, Z.pow_0_r, Z.quot_1_r.
  - case_decide as H2; [|lia]. cbn. do 2 f_equal. lia.
Qed.

Lemma RescalePair_spec d d2 :
  let '(rd, rd2) := RescalePair d d2 in
  exp rd = Z.min (exp d) (exp d2) ∧ exp rd2 = Z.min (exp d) (exp d2) ∧
  ∀ e, e <= exp d → e <= exp d2 → units e rd = units e d ∧ units e rd2 = units e d2.
Proof.
  unfold RescalePair. cbn. repeat case_decide; cbn; rewrite ?exp_rescale; (split; [lia|split; [lia|]]); intros e H1 H2;
    split; try done; by rewrite units_rescale by (cbn; lia).
Qed.

(** ** Comparison *)

Lemma int_cmp_scale k a b : 0 < k → int_cmp (a * k) (b * k) = int_cmp a b.
Proof. intros Hk. unfold int_cmp. by rewrite <- Zmult_compare_compat_r by lia. Qed.

Lemma Cmp_units e d d2 : e <= exp d → e <= exp d2 → Cmp d d2 = int_cmp (units e d) (units e d2).
Proof.
  intros H1 H2. unfold Cmp. cbn [ensureInitialized New exp]. case_decide as Hd.
  - unfold units. rewrite <- Hd. rewrite int_cmp_scale; [done|]. apply pow10_pos. lia.
  - pose proof (RescalePair_spec (ensureInitialized d) (ensureInitialized d2)) as K. cbn in K.
    destruct (RescalePair _ _) as [rd rd2]. destruct K as (E1 & E2 & K). destruct (K e H1 H2) as [K1 K2].
    rewrite units_init in K1, K2. rewrite <- K1, <- K2. unfold units. rewrite E1, E2.
    rewrite int_cmp_scale; [done|]. apply pow10_pos. lia.
Qed.

Lemma int_cmp_spec a b :
  (int_cmp a b = -1 ↔ a < b) ∧ (int_cmp a b = 0 ↔ a = b) ∧ (int_cmp a b = 1 ↔ b < a).
Proof. unfold int_cmp. destruct (Z.compare_spec a b); lia. Qed.

(** A unit that is fine enough for two decimals. *)
Definition fine (d d2 : Decimal) : Z := Z.min (exp d) (exp d2).

Lemma Cmp_fine d d2 : Cmp d d2 = int_cmp (units (fine d d2) d) (units (fine d d2) d2).
Proof. apply Cmp_units; unfold fine; lia. Qed.

Lemma Equal_units e d d2 : e <= exp d → e <= exp d2 → Equal d d2 = true ↔ units e d = units e d2.
Proof.
  intros H1 H2. unfold Equal. rewrite bool_decide_eq_true, (Cmp_units e) by done. apply int_cmp_spec.
Qed.

(** Two decimals that stand for one number. *)
Definition same_number (d d2 : Decimal) : Prop := Equal d d2 = true.

Lemma same_units e d d2 : e <= exp d → e <= exp d2 → same_number d d2 ↔ units e d = units e d2.
Proof. apply Equal_units. Qed.

#[export] Instance same_number_equiv : Equivalence same_number.
Proof.
  split.
  - intros d. by apply (same_units (exp d)).
  - intros d d2. rewrite !(same_units (fine d d2)) by (unfold fine; lia). done.
  - intros d d2 d3. set (e := Z.min (exp d) (Z.min (exp d2) (exp d3))).
    rewrite !(same_units e) by lia. congruence.
Qed.

(** ** Arithmetic *)

Lemma coef_same d d2 : exp d = exp d2 → ∀ e, units e d = coef d * 10 ^ (exp d2 - e).
Proof. intros H e. unfold units. by rewrite H. Qed.

Lemma Add_units e d d2 : e <= exp d → e <= exp d2 → units e (Add d d2) = units e d + units e d2.
Proof.
  intros H1 H2. unfold Add. pose proof (RescalePair_spec d d2) as K.
  destruct (RescalePair d d2) as [rd rd2]. destruct K as (E1 & E2 & K). destruct (K e H1 H2) as [K1 K2].
  rewrite <- K1, <- K2, units_new. unfold units. rewrite E1, E2. lia.
Qed.
Lemma Sub_units e d d2 : e <= exp d → e <= exp d2 → units e (Sub d d2) = units e d - units e d2.
Proof.
  intros H1 H2. unfold Sub. pose proof (RescalePair_spec d d2) as K.
  destruct (RescalePair d d2) as [rd rd2]. destruct K as (E1 & E2 & K). destruct (K e H1 H2) as [K1 K2].
  rewrite <- K1, <- K2, units_new. unfold units. rewrite E1, E2. lia.
Qed.
Lemma exp_Add d d2 : exp (Add d d2) = Z.min (exp d) (exp d2).
Proof. unfold Add. pose proof (RescalePair_spec d d2). destruct (RescalePair d d2). tauto. Qed.
Lemma exp_Sub d d2 : exp (Sub d d2) = Z.min (exp d) (exp d2).
Proof. unfold Sub. pose proof (RescalePair_spec d d2). destruct (RescalePair d d2). tauto. Qed.

Lemma Neg_units e d : units e (Neg d) = - units e d.
Proof. unfold Neg, units. cbn. lia. Qed.

Lemma Sign_coef d : Sign d = Z.sgn (coef d).
Proof. unfold Sign, coef. by destruct (value d). Qed.

Lemma exp_Abs d : exp (Abs d) = exp d.
Proof. unfold Abs. by destruct (negb _). Qed.
Lemma coef_Abs d : coef (Abs d) = Z.abs (coef d).
Proof.
  unfold Abs, IsNegative. rewrite Sign_coef. case_bool_decide as Hd; cbn; [done|]. symmetry. apply Z.abs_eq. lia.
Qed.
Lemma Abs_units e d : e <= exp d → units e (Abs d) = Z.abs (units e d).
Proof.
  intros He. unfold units. rewrite exp_Abs, coef_Abs, Z.abs_mul. f_equal.
  pose proof (pow10_pos (exp d - e)). lia.
Qed.

Lemma Mul_units e e2 d d2 y : e <= exp d → e2 <= exp d2 → Mul d d2 = Ok y →
  exp y = exp d + exp d2 ∧ units (e + e2) y = units e d * units e2 d2.
Proof.
  intros H1 H2. unfold Mul. case_decide; [done|]. intros [= <-]. split; [done|]. rewrite units_new.
  unfold units. replace (exp d + exp d2 - (e + e2)) with ((exp d - e) + (exp d2 - e2)) by lia.
  rewrite pow10_split by lia. lia.
Qed.

#[export] Instance Add_proper : Proper (same_number ==> same_number ==> same_number) Add.
Proof.
  intros a a' Ha b b' Hb. set (e := Z.min (Z.min (exp a) (exp a')) (Z.min (exp b) (exp b'))).
  apply (same_units e) in Ha; [|lia..]. apply (same_units e) in Hb; [|lia..].
  apply (same_units e); rewrite ?exp_Add; [lia..|]. rewrite !Add_units by lia. lia.
Qed.
#[export] Instance Sub_proper : Proper (same_number ==> same_number ==> same_number) Sub.
Proof.
  intros a a' Ha b b' Hb. set (e := Z.min (Z.min (exp a) (exp a')) (Z.min (exp b) (exp b'))).
  apply (same_units e) in Ha; [|lia..]. apply (same_units e) in Hb; [|lia..].
  apply (same_units e); rewrite ?exp_Sub; [lia..|]. rewrite !Sub_units by lia. lia.
Qed.
#[export] Instance Cmp_proper : Proper (same_number ==> same_number ==> eq) Cmp.
Proof.
  intros a a' Ha b b' Hb. set (e := Z.min (Z.min (exp a) (exp a')) (Z.min (exp b) (exp b'))).
  apply (same_units e) in Ha; [|lia..]. apply (same_units e) in Hb; [|lia..].
  rewrite !(Cmp_units e) by lia. by rewrite Ha, Hb.
Qed.

Lemma Sum_units e rest : ∀ first, e <= exp first → Forall (λ d, e <= exp d) rest →
  e <= exp (Sum first rest) ∧ units e (Sum first rest) = units e first + foldr (λ d s, units e d + s) 0 rest.
Proof.
  unfold Sum. induction rest as [|d rest IH]; intros first Hf Hr; cbn; [lia|].
  apply Forall_cons in Hr as [Hd Hr]. destruct (IH (Add first d)) as [IH1 IH2]; [rewrite exp_Add; lia|done|].
  split; [done|]. rewrite IH2, Add_units by done. lia.
Qed.

(** Folding keeps the best of what it meets, as long as [better] is about the keys
    of members. *)
Lemma fold_best (better : Decimal → Decimal → Prop) `{∀ a b, Decision (better a b)} (ok : Decimal → Prop) (key : Decimal → Z) :
  (∀ a b, ok a → ok b → better a b ↔ key a < key b) → ∀ rest first, Forall ok (first :: rest) →
  let y := foldl (λ ans item, if decide (better item ans) then item else ans) first rest in
  y ∈ first :: rest ∧ Forall (λ x, key y <= key x) (first :: rest).
Proof.
  intros Hb. induction rest as [|d rest IH]; intros first Hok; cbn.
  { split; [by left|]. constructor; [lia|constructor]. }
  apply Forall_cons in Hok as [Hf Hok]. apply Forall_cons in Hok as [Hd Hok].
  specialize (IH (if decide (better d first) then d else first)). cbn in IH. destruct IH as [Hin H1].
  { constructor; [by case_decide|done]. }
  apply Forall_cons in H1 as [H1 H2]. rewrite elem_of_cons in Hin. pose proof (Hb d first Hd Hf) as K.
  destruct (decide (better d first)) as [Hbd|Hbd]; rewrite !elem_of_cons; (split; [tauto|]).
  - apply K in Hbd. constructor; [lia|]. by constructor.
  - constructor; [done|]. constructor; [rewrite K in Hbd; lia|done].
Qed.

(** C20. A decimal is a number: in any unit that is fine enough for the arguments,
    sums, differences, products, negation, absolute value, sign, comparison,
    minimum and maximum are those of the integers; a product panics exactly when its
    exponent is no int32. *)
Theorem decimal_arithmetic_exact e d d2 rest :
  e <= exp d → e <= exp d2 → Forall (λ x, e <= exp x) rest →
  units e (Add d d2) = units e d + units e d2 ∧ units e (Sub d d2) = units e d - units e d2 ∧
  units e (Neg d) = - units e d ∧ units e (Abs d) = Z.abs (units e d) ∧ Sign d = Z.sgn (units e d) ∧
  Cmp d d2 = int_cmp (units e d) (units e d2) ∧
  (if decide (MinInt32 <= exp d + exp d2 <= MaxInt32)
   then ∃ y, Mul d d2 = Ok y ∧ units (e + e) y = units e d * units e d2 else Mul d d2 = Panic) ∧
  units e (Sum d rest) = units e d + foldr (λ x s, units e x + s) 0 rest ∧
  (Min d rest ∈ d :: rest ∧ Forall (λ x, units e (Min d rest) <= units e x) (d :: rest)) ∧
  (Max d rest ∈ d :: rest ∧ Forall (λ x, units e x <= units e (Max d rest)) (d :: rest)).
Proof.
  intros H1 H2 Hr. assert (Hall : Forall (λ x, e <= exp x) (d :: rest)) by (by constructor).
  split; [by apply Add_units|]. split; [by apply Sub_units|]. split; [apply Neg_units|]. split; [by apply Abs_units|].
  split. { rewrite Sign_coef. unfold units. rewrite Z.sgn_mul, (Z.sgn_pos (10 ^ _)) by (apply pow10_pos; lia). lia. }
  split; [by apply Cmp_units|]. split.
  { case_decide as Hd; unfold Mul; [rewrite decide_False by lia|by rewrite decide_True by lia].
    eexists. split; [done|]. eapply (Mul_units e e); [done..|]. unfold Mul. by rewrite decide_False by lia. }
  split; [by apply Sum_units|]. split.
  - apply (fold_best (λ item ans, Cmp item ans < 0) (λ x, e <= exp x) (units e)); [|done].
    intros a b Ha Hb. rewrite (Cmp_units e) by done. unfold int_cmp. destruct (Z.compare_spec (units e a) (units e b)); lia.
  - enough (Max d rest ∈ d :: rest ∧ Forall (λ x, - units e (Max d rest) <= - units e x) (d :: rest)) as [K1 K2].
    { split; [done|]. eapply Forall_impl; [exact K2|]. cbn. lia. }
    apply (fold_best (λ item ans, Cmp item ans > 0) (λ x, e <= exp x) (λ x, - units e x)); [|done].
    intros a b Ha Hb. rewrite (Cmp_units e) by done. unfold int_cmp. destruct (Z.compare_spec (units e a) (units e b)); lia.
Qed.

Lemma decimal_arithmetic_exact_witness :
  let d := New 15 (-1) in let d2 := New 25 (-2) in let rest := [New 3 0; zero_Decimal] in let e := -2 in
  units e (Add d d2) = units e d + units e d2 ∧ units e (Sub d d2) = units e d - units e d2 ∧
  units e (Neg d) = - units e d ∧ units e (Abs d) = Z.abs (units e d) ∧ Sign d = Z.sgn (units e d) ∧
  Cmp d d2 = int_cmp (units e d) (units e d2) ∧
  (if decide (MinInt32 <= exp d + exp d2 <= MaxInt32)
   then ∃ y, Mul d d2 = Ok y ∧ units (e + e) y = units e d * units e d2 else Mul d d2 = Panic) ∧
  units e (Sum d rest) = units e d + foldr (λ x s, units e x + s) 0 rest ∧
  (Min d rest ∈ d :: rest ∧ Forall (λ x, units e (Min d rest) <= units e x) (d :: rest)) ∧
  (Max d rest ∈ d :: rest ∧ Forall (λ x, units e x <= units e (Max d rest)) (d :: rest)).
Proof.
  cbn zeta. apply (decimal_arithmetic_exact (-2) (New 15 (-1)) (New 25 (-2)) [New 3 0; zero_Decimal]);
    [cbn; lia|cbn; lia|repeat constructor; cbn; lia].
Defined.
