(* ===== verification/DecimalRound.v ===== *)
(** * utils/decimal: rounding and division

    A way of rounding is a relation between a number [N], a unit [M] and the
    multiple [r * M] that is taken for [N] ([rounded]); it determines [r]
    ([rounded_unique]) and does not depend on the scale ([rounded_scale]).  The
    roundings and the divisions of [Decimals] are shown to be of the ways their
    names say. *)
From S2P Require Import Prelude Decimals DecimalMath.
#[local] Close Scope nat_scope.
Open Scope Z_scope.

Inductive mode := HalfAway | HalfEven | Ceiling | Flooring | AwayFromZero | TowardsZero.

Definition rounded (m : mode) (M N r : Z) : Prop :=
  match m with
  | HalfAway => 2 * Z.abs (N - r * M) <= M ∧ (2 * Z.abs (N - r * M) = M → Z.abs N <= Z.abs (r * M))
  | HalfEven => 2 * Z.abs (N - r * M) <= M ∧ (2 * Z.abs (N - r * M) = M → Z.even r = true)
  | Ceiling => N <= r * M < N + M
  | Flooring => r * M <= N < r * M + M
  | AwayFromZero => Z.abs N <= Z.abs (r * M) < Z.abs N + M ∧ 0 <= N * r
  | TowardsZero => Z.abs (r * M) <= Z.abs N < Z.abs (r * M) + M ∧ 0 <= N * r
  end.

(** Splitting on the signs of a product. *)
Lemma mul_sign M r : 0 < M → (0 < r ∧ M <= r * M) ∨ r = 0 ∨ (r < 0 ∧ r * M <= - M).
Proof. intros. destruct (Z.lt_trichotomy r 0) as [?|[?|?]]; [right; right|right; left|left]; split_and?; try nia. Qed.

Lemma diff_small M r r' : 0 < M → - M < (r - r') * M < M → r = r'.
Proof. intros HM [H1 H2]. destruct (mul_sign M (r - r') HM) as [?|[?|?]]; lia. Qed.

Lemma next_odd r r' : Z.even r = true → Z.even r' = true → r' = r + 1 → False.
Proof. intros H H' ->. rewrite Z.even_add, H in H'. done. Qed.

Lemma diff_le M r r' : 0 < M → - M <= (r - r') * M <= M → r = r' ∨ r = r' + 1 ∨ r' = r + 1.
Proof. intros HM [H1 H2]. destruct (mul_sign M (r - r') HM) as [?|[?|?]]; nia. Qed.

Lemma rounded_unique m M N r r' : 0 < M → rounded m M N r → rounded m M N r' → r = r'.
Proof.
  intros HM H H'. destruct m; cbn in H, H'.
  - destruct H as [H1 H2], H' as [H1' H2']. destruct (diff_le M r r' HM) as [?|[->| ->]]; [lia|done|exfalso|exfalso].
    + assert (2 * Z.abs (N - r' * M) = M ∧ 2 * Z.abs (N - (r' + 1) * M) = M) as [E1 E2] by lia.
      specialize (H2 E2). specialize (H2' E1). destruct (mul_sign M r' HM) as [?|[->|?]]; nia.
    + assert (2 * Z.abs (N - r * M) = M ∧ 2 * Z.abs (N - (r + 1) * M) = M) as [E1 E2] by lia.
      specialize (H2 E1). specialize (H2' E2). destruct (mul_sign M r HM) as [?|[->|?]]; nia.
  - destruct H as [H1 H2], H' as [H1' H2']. destruct (diff_le M r r' HM) as [?|[->| ->]]; [lia|done|exfalso|exfalso].
    + eapply (next_odd r' (r' + 1)); [apply H2'|apply H2|]; lia.
    + eapply (next_odd r (r + 1)); [apply H2|apply H2'|]; lia.
  - apply (diff_small M); lia.
  - apply (diff_small M); lia.
  - destruct H as [H1 H2], H' as [H1' H2']. destruct (mul_sign M r HM) as [?|[?|?]], (mul_sign M r' HM) as [?|[?|?]]; 
      apply (diff_small M); nia.
  - destruct H as [H1 H2], H' as [H1' H2']. destruct (mul_sign M r HM) as [?|[?|?]], (mul_sign M r' HM) as [?|[?|?]]; 
      apply (diff_small M); nia.
Qed.

Lemma rounded_scale m k M N r : 0 < k → rounded m M N r → rounded m (M * k) (N * k) r.
Proof.
  intros Hk. unfold rounded.
  assert (E : ∀ a, Z.abs (a * k) = Z.abs a * k) by (intros; rewrite Z.abs_mul; lia).
  replace (N * k - r * (M * k)) with ((N - r * M) * k) by lia. rewrite !Z.mul_assoc, !E.
  replace (N * k * r) with (N * r * k) by lia.
  destruct m; try nia; intros [H1 H2]; (split; [nia|]); intros H; try (apply Z.mul_le_mono_nonneg_r; [lia|]); apply H2; nia.
Qed.

(** What is a multiple already stays as it is. *)
Lemma rounded_exact m M r : 0 < M → rounded m M (r * M) r.
Proof. intros HM. destruct m; cbn; rewrite ?Z.sub_diag; cbn; try nia; (split; [lia|]); lia. Qed.

(** ** Quotients *)

Lemma quot_TowardsZero M N : 0 < M → rounded TowardsZero M N (Z.quot N M).
Proof.
  intros HM. cbn. pose proof (Z.quot_rem' N M) as E. pose proof (Z.rem_bound_abs N M ltac:(lia)) as B.
  pose proof (Z.rem_sign_mul N M ltac:(lia)) as S.
  set (q := Z.quot N M) in *. set (x := Z.rem N M) in *. clearbody q x.
  assert (N = q * M + x) by lia. destruct (mul_sign M q HM) as [?|[?|?]]; nia.
Qed.

Lemma div_Flooring M N : 0 < M → rounded Flooring M N (N / M).
Proof. intros HM. cbn. pose proof (Z.div_mod N M ltac:(lia)). pose proof (Z.mod_pos_bound N M HM). lia. Qed.

(** ** Rounding to places *)

(** [places] as an int32 whose negation is one. *)
Definition places_ok (places : Z) : Prop := MinInt32 < places <= MaxInt32.

Lemma i32_id z : MinInt32 <= z <= MaxInt32 → i32 z = z.
Proof. intros. apply wrapS_id; unfold in_s, MinInt32, MaxInt32 in *; lia. Qed.
Lemma i32_places places : places_ok places → i32 (- places) = - places.
Proof. intros []. apply i32_id. unfold MinInt32, MaxInt32 in *. lia. Qed.

(** [y] is [d] rounded to [places], in any unit that is fine enough. *)
Definition rounds (m : mode) (places : Z) (d y : Decimal) : Prop :=
  Z.min (exp d) (- places) <= exp y ∧
  ∀ e, e <= exp d → e <= - places →
    ∃ r, units e y = r * 10 ^ (- places - e) ∧ rounded m (10 ^ (- places - e)) (units e d) r.

Lemma rounds_from m places d y r :
  exp d <= - places → value y = Some r → exp y = - places → rounded m (10 ^ (- places - exp d)) (coef d) r →
  rounds m places d y.
Proof.
  intros Hd Hv He Hr. split; [lia|]. intros e H1 H2. exists r.
  assert (coef y = r) as Hc by (unfold coef; by rewrite Hv). split; [unfold units; by rewrite Hc, He|].
  replace (- places - e) with ((- places - exp d) + (exp d - e)) by lia. rewrite pow10_split by lia.
  unfold units. apply rounded_scale; [|done]. apply pow10_pos. lia.
Qed.

Lemma rounds_exact m places d y :
  - places <= exp d → - places <= exp y → (∀ e, e <= exp d → e <= - places → units e y = units e d) → rounds m places d y.
Proof.
  intros Hd Hy E. split; [lia|]. intros e H1 H2. exists (units (- places) d). rewrite E by done.
  rewrite (units_finer (- places) e) by done. split; [done|]. apply rounded_exact. apply pow10_pos. lia.
Qed.

Lemma rounds_self m places d : - places <= exp d → rounds m places d d.
Proof. intros. by apply rounds_exact. Qed.

Definition half_up (t : Z) : Z :=
  let v := if decide (Z.sgn t < 0) then t - 5 else t + 5 in
  if decide (Z.sgn (v / 10) < 0 ∧ v mod 10 ≠ 0) then v / 10 + 1 else v / 10.

Lemma half_up_HalfAway M N : 0 < M → rounded HalfAway (M * 10) N (half_up (Z.quot N M)).
Proof.
  intros HM. pose proof (quot_TowardsZero M N HM) as [Hq Hs]. set (t := Z.quot N M) in *. clearbody t.
  unfold half_up. cbn zeta. set (v := if decide (Z.sgn t < 0) then t - 5 else t + 5). pose proof (Z.div_mod v 10 ltac:(lia)) as E.
  pose proof (Z.mod_pos_bound v 10 ltac:(lia)) as B. set (q := v / 10) in *. set (x := v mod 10) in *. clearbody q x.
  assert (Hv : v = t - 5 ∧ t < 0 ∨ v = t + 5 ∧ 0 <= t) by (unfold v; case_decide; lia). clearbody v.
  destruct Hv as [[-> Ht]|[-> Ht]].
  - assert (N < 0) by (destruct (mul_sign M t HM) as [?|[?|?]]; nia).
    assert (Z.abs (t * M) = - t * M ∧ Z.abs N = - N) as [E1 E2] by nia. rewrite E1, E2 in Hq.
    cbn. destruct (decide _) as [[_ Hx]|Hx].
    + split; [nia|]. intros Htie. exfalso. nia.
    + assert (x = 0) as -> by lia. split; [nia|]. intros _. nia.
  - rewrite decide_False by lia. destruct (decide (t = 0)) as [->|Ht0].
    + assert (q = 0) as -> by lia. cbn. lia.
    + assert (0 < N) by nia. cbn. split; nia.
Qed.

Lemma half_up_exact z : half_up (10 * z) = z.
Proof.
  pose proof (half_up_HalfAway 1 (10 * z) ltac:(lia)) as H. rewrite Z.quot_1_r in H.
  apply (rounded_unique HalfAway (1 * 10) (10 * z)); [lia|done|].
  replace (10 * z) with (z * (1 * 10)) by lia. apply rounded_exact. lia.
Qed.

Lemma Round_coef d places :
  places_ok places → exp d ≠ - places →
  Round d places = New (half_up (coef (rescale (- places - 1) d))) (- places).
Proof.
  intros Hp Hd. unfold Round. rewrite (i32_places _ Hp), decide_False by done.
  rewrite !i32_id by (destruct Hp; unfold MinInt32, MaxInt32 in *; rewrite ?exp_rescale; lia).
  rewrite exp_rescale. unfold half_up. cbn zeta. 
  set (v := if decide (Z.sgn (coef (rescale (- places - 1) d)) < 0) then _ - 5 else _ + 5).
  replace (- places - 1 + 1) with (- places) by lia. destruct (decide (Z.sgn (v / 10) < 0 ∧ _)); done.
Qed.

Lemma Round_rounds d places : places_ok places → rounds HalfAway places d (Round d places).
Proof.
  intros Hp. destruct (decide (exp d = - places)) as [Hd|Hd].
  { unfold Round. rewrite (i32_places _ Hp), decide_True by done. apply rounds_self. lia. }
  rewrite Round_coef by done. destruct (decide (exp d < - places)) as [Hl|Hl].
  - eapply rounds_from; [lia|done|done|]. rewrite coef_rescale_up by lia.
    replace (- places - exp d) with ((- places - 1 - exp d) + 1) by lia. rewrite pow10_split by lia.
    apply half_up_HalfAway. apply pow10_pos. lia.
  - apply rounds_exact; [lia|cbn; lia|]. intros e He He'.
    assert (E : coef (rescale (- places - 1) d) = 10 * units (- places) d).
    { rewrite <- (units_same (- places - 1) (coef _)). transitivity (units (- places - 1) (rescale (- places - 1) d)).
      - unfold units. by rewrite exp_rescale.
      - rewrite units_rescale by lia. rewrite (units_finer (- places)) by lia.
        replace (- places - (- places - 1)) with 1 by lia. lia. }
    rewrite E, half_up_exact, units_new. rewrite (units_finer (- places) e) by lia. done.
Qed.

Lemma exp_Round d places : places_ok places → exp (Round d places) = - places.
Proof.
  intros Hp. unfold Round. rewrite (i32_places _ Hp). case_decide as Hd; [done|].
  rewrite !i32_id by (destruct Hp; unfold MinInt32, MaxInt32 in *; rewrite ?exp_rescale; lia).
  rewrite exp_rescale. cbn zeta. case_decide; cbn; lia.
Qed.

(** Whether truncating lost something. *)
Lemma rescale_equal d x : exp d <= x →
  Equal d (rescale x d) = true ↔ coef d = Z.quot (coef d) (10 ^ (x - exp d)) * 10 ^ (x - exp d).
Proof.
  intros Hx. rewrite (Equal_units (exp d)) by (rewrite ?exp_rescale; lia). unfold units at 1.
  rewrite Z.sub_diag, Z.pow_0_r, Z.mul_1_r. unfold units. by rewrite exp_rescale, coef_rescale_up.
Qed.

Lemma round_by_rounds m adjust d places :
  (∀ M N, 0 < M → N ≠ Z.quot N M * M → rounded m M N (Z.quot N M + adjust (Z.sgn N))) →
  places_ok places → ∃ y, round_by adjust d places = Ok y ∧ rounds m places d y.
Proof.
  intros Hadj Hp. unfold round_by. rewrite (i32_places _ Hp). case_decide as Hd.
  { exists d. split; [done|]. apply rounds_self. lia. }
  pose proof (pow10_pos (- places - exp d) ltac:(lia)) as HM.
  destruct (Equal d (rescale (- places) d)) eqn:Eq.
  - exists d. split; [done|]. apply rescale_equal in Eq; [|lia]. split; [lia|]. intros e H1 H2.
    exists (Z.quot (coef d) (10 ^ (- places - exp d))). replace (- places - e) with ((- places - exp d) + (exp d - e)) by lia.
    rewrite pow10_split by lia. unfold units. rewrite Eq at 1 3. rewrite <- !Z.mul_assoc. split; [done|].
    apply rounded_exact. pose proof (pow10_pos (exp d - e)). nia.
  - destruct (value d) as [v|] eqn:Ev.
    + eexists. split; [done|]. assert (Hc : coef d = v) by (unfold coef; by rewrite Ev).
      eapply rounds_from; [lia|done|apply exp_rescale|]. rewrite coef_rescale_up, Hc by lia. apply Hadj; [done|].
      rewrite <- Hc. intros E. apply not_true_iff_false in Eq. apply Eq, rescale_equal; [lia|done].
    + exfalso. apply not_true_iff_false in Eq. apply Eq, rescale_equal; [lia|].
      unfold coef. rewrite Ev. cbn. by rewrite Z.quot_0_l by lia.
Qed.

Lemma not_whole M N : 0 < M → N ≠ Z.quot N M * M →
  let q := Z.quot N M in 0 < N ∧ 0 <= q * M < N ∧ N < q * M + M ∨ N < 0 ∧ N < q * M <= 0 ∧ q * M - M < N.
Proof.
  intros HM Hne. pose proof (quot_TowardsZero M N HM) as [H1 H2]. set (q := Z.quot N M) in *. clearbody q.
  cbn. destruct (mul_sign M q HM) as [?|[->|?]]; nia.
Qed.

Lemma RoundCeil_rounds d places : places_ok places → ∃ y, RoundCeil d places = Ok y ∧ rounds Ceiling places d y.
Proof.
  apply round_by_rounds. intros M N HM Hne. pose proof (not_whole M N HM Hne) as H. cbn in *.
  case_decide; destruct H; lia.
Qed.
Lemma RoundFloor_rounds d places : places_ok places → ∃ y, RoundFloor d places = Ok y ∧ rounds Flooring places d y.
Proof.
  apply round_by_rounds. intros M N HM Hne. pose proof (not_whole M N HM Hne) as H. cbn in *.
  case_decide; destruct H; lia.
Qed.
Lemma RoundUp_rounds d places : places_ok places → ∃ y, RoundUp d places = Ok y ∧ rounds AwayFromZero places d y.
Proof.
  apply round_by_rounds. intros M N HM Hne. pose proof (not_whole M N HM Hne) as H. cbn in *.
  repeat case_decide; destruct H; nia.
Qed.
Lemma RoundDown_rounds d places : places_ok places → rounds TowardsZero places d (RoundDown d places).
Proof.
  intros Hp. destruct (round_by_rounds TowardsZero (λ _, 0) d places) as (y & Hy & Hr); [|done|].
  { intros M N HM _. rewrite Z.add_0_r. by apply quot_TowardsZero. }
  unfold round_by, RoundDown in *. repeat case_decide; [by injection Hy as <-|].
  destruct (Equal d _); [by injection Hy as <-|]. destruct (value d) eqn:Ev; [|done]. cbn in Hy. injection Hy as <-.
  rewrite Z.add_0_r in Hr. unfold rounds in *. cbn in *. unfold units in *. cbn in *. by rewrite !exp_rescale in *.
Qed.


(** Going back by one from a tie that went away from zero. *)
Lemma tie_to_even M N r : 0 < M → rounded HalfAway M N r → 2 * Z.abs (N - r * M) = M → Z.odd r = true →
  rounded HalfEven M N (if decide (Z.sgn r < 0) then r + 1 else r - 1).
Proof.
  intros HM [H1 H2] Ht Ho. specialize (H2 Ht). rewrite <- Z.negb_even in Ho. apply negb_true_iff in Ho.
  assert (Hr : r ≠ 0) by (by intros ->).
  cbn. destruct (mul_sign M r HM) as [?|[?|?]]; [|done|]; case_decide; try lia;
    rewrite ?Z.even_add, ?Z.even_sub, Ho; cbn; (split; [nia|done]).
Qed.

Lemma away_is_even M N r : rounded HalfAway M N r → (2 * Z.abs (N - r * M) ≠ M ∨ Z.odd r = false) → rounded HalfEven M N r.
Proof.
  intros [H1 H2] H. split; [done|]. intros E. destruct H as [H|H]; [done|].
  rewrite <- Z.negb_odd, H. done.
Qed.

(** A tie is one in any unit. *)
Lemma tie_units places d r e e' : e' <= e → e <= exp d → e <= - places →
  2 * Z.abs (units e d - r * 10 ^ (- places - e)) = 10 ^ (- places - e) ↔
  2 * Z.abs (units e' d - r * 10 ^ (- places - e')) = 10 ^ (- places - e').
Proof.
  intros H1 H2 H3. rewrite (units_finer e e') by lia. replace (- places - e') with ((- places - e) + (e - e')) by lia.
  rewrite pow10_split by lia. pose proof (pow10_pos (e - e') ltac:(lia)). rewrite Z.mul_assoc, <- Z.mul_sub_distr_r, Z.abs_mul.
  rewrite (Z.abs_eq (10 ^ (e - e'))) by lia. rewrite Z.mul_assoc. nia.
Qed.

Lemma RoundBank_rounds d places : places_ok places → ∃ y, RoundBank d places = Ok y ∧ rounds HalfEven places d y.
Proof.
  intros Hp. unfold RoundBank. pose proof (Round_rounds d places Hp) as Hr. pose proof (exp_Round d places Hp) as He.
  set (y := Round d places) in *. rewrite (i32_places _ Hp).
  rewrite i32_id by (destruct Hp; unfold MinInt32, MaxInt32 in *; lia).
  set (e := Z.min (exp d) (- places - 1)).
  assert (Hcmp : Cmp (Abs (Sub d y)) (New 5 (- places - 1)) = 0 ↔ 2 * Z.abs (units e d - units e y) = 10 ^ (- places - e)).
  { rewrite (Cmp_units e) by (rewrite ?exp_Abs, ?exp_Sub; cbn; lia). rewrite (proj1 (proj2 (int_cmp_spec _ _))).
    rewrite Abs_units, Sub_units, units_new by (rewrite ?exp_Sub; lia).
    replace (- places - e) with (1 + (- places - 1 - e)) by lia. rewrite (pow10_split 1) by lia. lia. }
  assert (Hy : ∀ e', e' <= - places → ∀ r, units e' y = r * 10 ^ (- places - e') → coef y = r).
  { intros e' H r E. unfold units in E. rewrite He in E. pose proof (pow10_pos (- places - e')). nia. }
  destruct Hr as [Hle Hr]. pose proof (Hr e ltac:(lia) ltac:(lia)) as (r0 & E0 & R0).
  pose proof (Hy e ltac:(lia) r0 E0) as E1. subst r0. rewrite E0 in Hcmp.
  case_decide as Hd.
  - assert (Ht : 2 * Z.abs (units e d - coef y * 10 ^ (- places - e)) = 10 ^ (- places - e)) by (by apply Hcmp).
    assert (Hlt : exp d < - places).
    { destruct (decide (exp d < - places)); [done|]. exfalso.
      rewrite (units_finer (- places) e d) in Ht, R0 by lia.
      assert (units (- places) d = coef y).
      { eapply (rounded_unique HalfAway (10 ^ (- places - e))); [|apply rounded_exact|exact R0]; apply pow10_pos; lia. }
      rewrite H, Z.sub_diag in Ht. pose proof (pow10_pos (- places - e)). cbn in Ht. lia. }
    unfold y in *. rewrite Round_coef in * by (done || lia). cbn [value New mbind outcome_bind deref coef default] in *.
    set (v := half_up _) in *. eexists. split; [done|].
    assert (Hee : e = exp d) by lia. clear Hcmp. rewrite Hee in *.
    unfold units in R0, Ht. rewrite Z.sub_diag, Z.pow_0_r, Z.mul_1_r in R0, Ht. cbn in R0, Ht.
    destruct (Z.odd v) eqn:Ho.
    + eapply rounds_from; [lia|done|done|]. apply tie_to_even; [apply pow10_pos; lia|done|done|done].
    + eapply rounds_from; [lia|done|done|]. apply away_is_even; auto.
  - exists y. split; [done|]. split; [done|]. intros e' H1 H2. destruct (Hr e' H1 H2) as (r & Er & Rr).
    exists r. split; [done|]. apply away_is_even; [done|]. left. rewrite (Hy e' H2 r Er) in *.
    intros Ht. apply Hd, Hcmp.
    apply (tie_units places d _ e (Z.min e e')); [lia..|]. by apply (tie_units places d _ e' (Z.min e e')); [lia..|].
Qed.

(** ** Division *)

(** [y] is the quotient of [d] and [d2], rounded to [precision] places; both are
    taken in the unit 10^u, multiplied by the sign of [d2]. *)
Definition quotient (m : mode) (precision : Z) (d d2 y : Decimal) : Prop :=
  exp y = - precision ∧
  ∀ u, u <= exp d → u <= exp d2 - precision →
    rounded m (Z.abs (coef d2) * 10 ^ (exp d2 - precision - u)) (Z.sgn (coef d2) * units u d) (coef y).

(** No exponent on the way is outside of an int32. *)
Record div_ok (d d2 : Decimal) (precision : Z) : Prop := {
  div_by : coef d2 ≠ 0;
  div_places : places_ok precision;
  div_d2 : MinInt32 <= exp d2 <= MaxInt32;
  div_range : MinInt32 <= exp d - exp d2 + precision <= MaxInt32;
  div_rest : MinInt32 <= exp d2 - precision <= MaxInt32;
  div_rest2 : MinInt32 <= exp d + precision;
}.

(** The coarsest unit of [d] and of the quotient times [d2]. *)
Definition rest_exp (d d2 : Decimal) (precision : Z) : Z := Z.min (exp d) (exp d2 - precision).

Lemma quotient_at m precision d d2 y :
  exp y = - precision → coef d2 ≠ 0 →
  (let u := rest_exp d d2 precision in
   rounded m (Z.abs (coef d2) * 10 ^ (exp d2 - precision - u)) (Z.sgn (coef d2) * units u d) (coef y)) →
  quotient m precision d d2 y.
Proof.
  intros Hy Hd H. split; [done|]. intros u H1 H2. cbn zeta in H. set (u0 := rest_exp d d2 precision) in *.
  assert (Hu : u <= u0 ∧ u0 <= exp d ∧ u0 <= exp d2 - precision) by (unfold u0, rest_exp; lia). clearbody u0.
  rewrite (units_finer u0 u) by lia. replace (exp d2 - precision - u) with ((exp d2 - precision - u0) + (u0 - u)) by lia.
  rewrite pow10_split by lia. rewrite !Z.mul_assoc. apply rounded_scale; [|done]. apply pow10_pos. lia.
Qed.

Lemma QuoRem_spec d d2 precision : div_ok d d2 precision →
  ∃ q r, QuoRem d d2 precision = Ok (New q (- precision), New r (rest_exp d d2 precision)) ∧
    let u := rest_exp d d2 precision in
    let M := coef d2 * 10 ^ (exp d2 - precision - u) in
    units u d = q * M + r ∧ Z.abs r < Z.abs M ∧ 0 <= r * coef d ∧
    rounded TowardsZero (Z.abs M) (Z.sgn M * units u d) q.
Proof.
  intros [Hb Hp H2 He Hr Hr2]. unfold QuoRem. rewrite decide_False by done. rewrite (i32_places _ Hp).
  replace (exp d - exp d2 - - precision) with (exp d - exp d2 + precision) by lia. rewrite decide_False by lia.
  rewrite (i32_id (- precision + exp d2)) by lia. set (u := rest_exp d d2 precision).
  assert (K : ∀ a b, b ≠ 0 → a = units u d → b = coef d2 * 10 ^ (exp d2 - precision - u) → 0 <= a * coef d →
    let q := Z.quot a b in let r := Z.rem a b in
    units u d = q * b + r ∧ Z.abs r < Z.abs b ∧ 0 <= r * coef d ∧ rounded TowardsZero (Z.abs b) (Z.sgn b * units u d) q).
  { intros a b Hb0 Ha Hb' Hs. cbn zeta. rewrite <- Ha. pose proof (Z.quot_rem' a b) as E.
    pose proof (Z.rem_bound_abs a b Hb0) as B. pose proof (Z.rem_sign_mul a b Hb0) as S.
    pose proof (quot_TowardsZero (Z.abs b) (Z.sgn b * a) ltac:(lia)) as Q.
    assert (Eq : Z.quot (Z.sgn b * a) (Z.abs b) = Z.quot a b).
    { rewrite <- (Z.quot_mul_cancel_l a b (Z.sgn b)) by lia. f_equal. lia. }
    rewrite Eq in Q. split; [lia|]. split; [done|]. split; [|exact Q]. destruct (decide (a = 0)) as [->|Ha0]; [|nia].
    rewrite Z.rem_0_l by done. lia. }
  assert (Hpos : 0 < 10 ^ (exp d2 - precision - u)) by (apply pow10_pos; unfold u, rest_exp; lia).
  destruct (decide (exp d - exp d2 + precision < 0)) as [Hn|Hn].
  - assert (u = exp d) as Hu by (unfold u, rest_exp; lia).
    assert (Eb : coef d2 * 10 ^ (- (exp d - exp d2 + precision)) = coef d2 * 10 ^ (exp d2 - precision - u)) by (do 2 f_equal; lia).
    eexists _, _. split; [rewrite Hu; reflexivity|]. cbn zeta. rewrite <- Eb. apply K; [rewrite Eb; nia| |done|nia].
    rewrite Hu. unfold units. rewrite Z.sub_diag. lia.
  - assert (u = exp d2 - precision) as Hu by (unfold u, rest_exp; lia).
    assert (Eb : coef d2 = coef d2 * 10 ^ (exp d2 - precision - u)) by (rewrite Hu, Z.sub_diag; lia).
    eexists _, _. split; [replace (- precision + exp d2) with u by lia; reflexivity|]. cbn zeta. rewrite <- Eb. apply K; [done| |done|].
    + rewrite Hu. unfold units. do 2 f_equal. lia.
    + pose proof (pow10_pos (exp d - exp d2 + precision)). nia.
Qed.

Lemma divisor_parts d d2 precision : let u := rest_exp d d2 precision in
  Z.abs (coef d2 * 10 ^ (exp d2 - precision - u)) = Z.abs (coef d2) * 10 ^ (exp d2 - precision - u) ∧
  Z.sgn (coef d2 * 10 ^ (exp d2 - precision - u)) = Z.sgn (coef d2).
Proof.
  intros u. assert (0 < 10 ^ (exp d2 - precision - u)) by (apply pow10_pos; unfold u, rest_exp; lia).
  rewrite Z.abs_mul, Z.sgn_mul. lia.
Qed.

Lemma Sub_same a b x : Sub (New a x) (New b x) = New (a - b) x.
Proof.
  unfold Sub, RescalePair. change (exp (ensureInitialized (New a x))) with x.
  change (exp (ensureInitialized (New b x))) with x. rewrite !decide_False by lia. reflexivity.
Qed.
Lemma Add_same a b x : Add (New a x) (New b x) = New (a + b) x.
Proof.
  unfold Add, RescalePair. change (exp (ensureInitialized (New a x))) with x.
  change (exp (ensureInitialized (New b x))) with x. rewrite !decide_False by lia. reflexivity.
Qed.

(** A truncated quotient taken one further from zero, when the rest is half of the
    divisor or more. *)
Lemma round_up M N q : 0 < M → rounded TowardsZero M N q → M <= 2 * Z.abs (N - q * M) →
  rounded HalfAway M N (if decide (Z.sgn N < 0) then q - 1 else q + 1).
Proof.
  intros HM [H1 H2] Hh. assert (HN : N ≠ 0). { intros ->. destruct (mul_sign M q HM) as [?|[->|?]]; lia. }
  cbn. case_decide; destruct (mul_sign M q HM) as [?|[->|?]]; split; nia.
Qed.

Lemma round_down M N q : 0 < M → rounded TowardsZero M N q → 2 * Z.abs (N - q * M) < M → rounded HalfAway M N q.
Proof. intros HM [H1 H2] Hh. cbn. split; lia. Qed.

Lemma DivRound_quotient d d2 precision : div_ok d d2 precision →
  ∃ y, DivRound d d2 precision = Ok y ∧ quotient HalfAway precision d d2 y.
Proof.
  intros H. pose proof H as [Hb Hp H2 He Hr Hr2]. destruct (QuoRem_spec d d2 precision H) as (q & r & E & K).
  unfold DivRound. rewrite E. cbn [mbind outcome_bind]. clear E. cbn zeta in K.
  destruct (divisor_parts d d2 precision) as [Ea Es]. rewrite Ea, Es in K. clear Ea Es.
  set (u := rest_exp d d2 precision) in *. set (P := 10 ^ (exp d2 - precision - u)) in *.
  assert (HP : 0 < P) by (apply pow10_pos; unfold u, rest_exp; lia).
  change (coef (New r u)) with r. change (exp (New r u)) with u. rewrite (i32_id (u + precision)) by (unfold u, rest_exp in *; lia).
  destruct K as (Eu & Hlt & Hs & Rq). set (M := Z.abs (coef d2) * P) in *. set (N := Z.sgn (coef d2) * units u d) in *.
  assert (HM : 0 < M) by (unfold M; nia).
  assert (Hrest : Z.abs (N - q * M) = Z.abs r).
  { unfold N, M. rewrite Eu. replace (Z.sgn (coef d2) * (q * (coef d2 * P) + r) - q * (Z.abs (coef d2) * P))
      with (Z.sgn (coef d2) * r + q * P * (Z.sgn (coef d2) * coef d2 - Z.abs (coef d2))) by lia.
    rewrite (Z.mul_comm (Z.sgn _) (coef d2)), <- Z.abs_sgn at 1. lia. }
  assert (Hc : Cmp (New (Z.abs r * 2) (u + precision)) (Abs d2) = int_cmp (2 * Z.abs (N - q * M)) M).
  { rewrite (Cmp_units (u + precision)) by (rewrite ?exp_Abs; cbn; unfold u, rest_exp; lia).
    rewrite units_same, Hrest, Abs_units by (unfold u, rest_exp; lia). f_equal; [lia|]. unfold M, units.
    rewrite Z.abs_mul. f_equal. replace (exp d2 - (u + precision)) with (exp d2 - precision - u) by lia. fold P. lia. }
  rewrite Hc. destruct (int_cmp_spec (2 * Z.abs (N - q * M)) M) as (C1 & C2 & C3).
  assert (Hlow : exp d2 - precision - u = exp d2 - precision - rest_exp d d2 precision) by done.
  case_decide as Hd.
  - eexists. split; [done|]. apply quotient_at; [done..|]. cbn zeta. fold u. fold P. fold M. fold N. change (coef (New q (- precision))) with q.
    apply round_down; [done..|]. unfold int_cmp in *. destruct (Z.compare_spec (2 * Z.abs (N - q * M)) M); lia.
  - assert (Hge : M <= 2 * Z.abs (N - q * M)).
    { unfold int_cmp in *. destruct (Z.compare_spec (2 * Z.abs (N - q * M)) M); lia. }
    pose proof (round_up M N q HM Rq Hge) as R.
    assert (HN : N ≠ 0). { intros HN. destruct Rq as [Rq _]. rewrite HN in Rq, Hge. destruct (mul_sign M q HM) as [?|[->|?]]; lia. }
    assert (HsN : Z.sgn N = Z.sgn (coef d) * Z.sgn (coef d2)).
    { unfold N, units. rewrite !Z.sgn_mul. rewrite (Z.sgn_pos (10 ^ _)) by (apply pow10_pos; unfold u, rest_exp; lia).
      rewrite Z.sgn_sgn. lia. }
    assert (Hd1 : ∃ v, value d = Some v ∧ coef d = v).
    { unfold coef. destruct (value d) eqn:Ev; [eauto|]. exfalso. apply HN. unfold N, units, coef. rewrite Ev. cbn. lia. }
    assert (Hd2 : ∃ v, value d2 = Some v ∧ coef d2 = v) by (unfold coef in *; destruct (value d2); eauto; done).
    destruct Hd1 as (v & -> & Ev), Hd2 as (v2 & -> & Ev2). cbn [deref mbind outcome_bind]. rewrite <- Ev, <- Ev2, <- HsN.
    rewrite (i32_places _ Hp).
    rewrite Sub_same, Add_same.
    case_decide; eexists; (split; [done|]); (apply quotient_at; [done..|]); cbn zeta; fold u; fold P; fold M; fold N; done.
Qed.

(** ** Truncate, Floor, Ceil, IsInteger *)

Lemma Truncate_rounds d places : places_ok places → 0 <= places → rounds TowardsZero places d (Truncate places d).
Proof.
  intros Hp H0. unfold Truncate. rewrite (i32_places _ Hp). change (exp (ensureInitialized d)) with (exp d).
  case_decide as Hd; [|by apply rounds_exact; cbn; try lia].
  assert (E : value (rescale (- places) (ensureInitialized d)) = Some (coef (rescale (- places) d))).
  { unfold rescale. cbn. by repeat case_decide. }
  eapply rounds_from; [lia|exact E|apply exp_rescale|]. rewrite coef_rescale_up by lia.
  apply quot_TowardsZero, pow10_pos. lia.
Qed.

Lemma Floor_rounds d : rounds Flooring 0 d (Floor d).
Proof.
  unfold Floor. case_decide as Hd; [by apply rounds_exact; cbn; try lia|].
  eapply rounds_from; [lia|done|done|]. apply div_Flooring, pow10_pos. lia.
Qed.

Lemma Ceil_rounds d : rounds Ceiling 0 d (Ceil d).
Proof.
  unfold Ceil. case_decide as Hd; [by apply rounds_exact; cbn; try lia|].
  pose proof (pow10_pos (- exp d) ltac:(lia)) as HM.
  eapply rounds_from; [lia|done|done|]. change (- 0 - exp d) with (- exp d). cbn.
  pose proof (Z.div_mod (coef d) (10 ^ (- exp d)) ltac:(lia)). pose proof (Z.mod_pos_bound (coef d) _ HM).
  case_decide; nia.
Qed.

Lemma no_fraction_divide z : ∀ q, no_fraction z q = true ↔ (10 ^ Z.of_nat z | q).
Proof.
  induction z as [|z IH]; intros q; [cbn; split; [intros; apply Z.divide_1_l|done]|].
  cbn [no_fraction]. rewrite Nat2Z.inj_succ, Z.pow_succ_r by lia. pose proof (Z.quot_rem' q 10) as E.
  case_decide as Hd.
  - rewrite IH. split; intros [k Hk]; exists k; lia.
  - split; [done|]. intros [k Hk]. exfalso. apply Hd. apply Z.rem_divide; [lia|].
    exists (k * 10 ^ Z.of_nat z). lia.
Qed.

Lemma IsInteger_spec d : MinInt32 < exp d → (exp d < 0 → value d ≠ None) →
  ∃ b, IsInteger d = Ok b ∧ (b = true ↔ ∃ n, same_number d (NewFromInt n)).
Proof.
  intros He Hv. unfold IsInteger. case_decide as Hd.
  - exists true. split; [done|]. split; [intros _|done]. exists (coef d * 10 ^ exp d).
    apply (same_units 0); [cbn; lia..|]. unfold NewFromInt. rewrite units_same. unfold units. by rewrite Z.sub_0_r.
  - destruct (value d) as [v|] eqn:Ev; [|exfalso; apply Hv; [lia|done]]. eexists. split; [done|].
    assert (Hc : coef d = v) by (unfold coef; by rewrite Ev).
    unfold abs32. rewrite decide_True by lia. rewrite i32_id by (unfold MinInt32, MaxInt32 in *; lia).
    rewrite no_fraction_divide, Z2Nat.id by lia. split; intros [n Hn].
    + exists n. apply (same_units (exp d)); [lia|cbn; lia|]. unfold units. cbn. rewrite Z.sub_diag, Z.pow_0_r, Hc, Z.sub_0_l. lia.
    + exists n. apply (same_units (exp d)) in Hn; [|lia|cbn; lia]. unfold units in Hn. cbn in Hn.
      rewrite Z.sub_diag, Z.pow_0_r, Hc, Z.sub_0_l in Hn. lia.
Qed.

(** ** Cash *)

Lemma HalfAway_unscale k M N r : 0 < k → rounded HalfAway (M * k) (N * k) r → rounded HalfAway M N r.
Proof.
  intros Hk [H1 H2]. cbn. assert (E : ∀ a, Z.abs (a * k) = Z.abs a * k) by (intros; rewrite Z.abs_mul; lia).
  replace (N * k - r * (M * k)) with ((N - r * M) * k) in * by lia. rewrite Z.mul_assoc, !E in *.
  split; [nia|]. intros H. assert (Z.abs N * k <= Z.abs (r * M) * k) by (apply H2; nia). nia.
Qed.

Lemma cash_units interval iv : cash_unit interval = Some iv → 0 < iv ∧ iv * interval = 100.
Proof. unfold cash_unit. repeat case_decide; intros [= <-]; subst; lia. Qed.

Lemma RoundCash_nearest d interval iv :
  MinInt32 <= exp d <= MaxInt32 → cash_unit interval = Some iv →
  ∃ r, RoundCash default_DivisionPrecision d interval = Ok (New (r * interval) (-2)) ∧
    ∀ e, e <= exp d → e <= -2 → rounded HalfAway (interval * 10 ^ (-2 - e)) (units e d) r.
Proof.
  intros He Hc. destruct (cash_units _ _ Hc) as [Hiv Hi]. unfold RoundCash. rewrite Hc.
  unfold Mul. change (exp (New iv 0)) with 0. rewrite Z.add_0_r, decide_False by lia.
  cbn [mbind outcome_bind]. set (m := New (coef d * coef (New iv 0)) (exp d)).
  assert (H0 : places_ok 0) by (unfold places_ok, MinInt32, MaxInt32; lia).
  pose proof (exp_Round m 0 H0) as Er. pose proof (Round_rounds m 0 H0) as [_ Hr].
  set (y := Round m 0) in *. change (- 0) with 0 in *. change (exp m) with (exp d) in *.
  assert (Hd : div_ok y (New iv 0) 16).
  { split; cbn; unfold places_ok, MinInt32, MaxInt32; lia. }
  destruct (DivRound_quotient y (New iv 0) 16 Hd) as (z & Ez & Hze & Hz).
  unfold Div. change (i32 default_DivisionPrecision) with 16. rewrite Ez. cbn [mbind outcome_bind].
  specialize (Hz (-16) ltac:(lia) ltac:(cbn; lia)). cbn in Hz. rewrite (Z.sgn_pos iv), (Z.abs_eq iv) in Hz by lia.
  rewrite Z.mul_1_l, Z.mul_1_r in Hz. unfold units in Hz. rewrite Er in Hz. change (0 - -16) with 16 in Hz.
  assert (Hzc : coef z = coef y * interval * 10 ^ 14).
  { apply (rounded_unique HalfAway iv (coef y * 10 ^ 16)); [lia|exact Hz|].
    replace (coef y * 10 ^ 16) with (coef y * interval * 10 ^ 14 * iv) by (change (10 ^ 16) with (100 * 10 ^ 14); rewrite <- Hi; ring).
    apply rounded_exact. lia. }
  exists (coef y). split.
  - change (mret ?a) with (@Ok Decimal a). f_equal. unfold Truncate. change (exp (ensureInitialized z)) with (exp z).
    rewrite Hze. change (i32 (- (2))) with (-2). rewrite decide_True by lia. unfold rescale.
    change (exp (ensureInitialized z)) with (exp z). change (coef (ensureInitialized z)) with (coef z).
    rewrite Hze, Hzc. rewrite decide_False, decide_True by lia. f_equal.
    change (Z.abs (-2 - - (16))) with 14. by rewrite Z.quot_mul.
  - intros e H1 H2. destruct (Hr e H1 ltac:(lia)) as (r & E1 & R1).
    assert (r = coef y) as ->.
    { unfold units in E1. rewrite Er in E1. pose proof (pow10_pos (0 - e)). nia. }
    apply (HalfAway_unscale iv); [lia|].
    replace (0 - e) with (2 + (-2 - e)) in R1 by lia. rewrite pow10_split in R1 by lia.
    replace (interval * 10 ^ (-2 - e) * iv) with (10 ^ 2 * 10 ^ (-2 - e)) by (change (10 ^ 2) with 100; rewrite <- Hi; ring).
    replace (units e d * iv) with (units e m); [done|]. unfold units, m. cbn. ring.
Qed.

(** ** Powers *)

Lemma Mul_exact d d2 :
  Mul d d2 = if decide (MinInt32 <= exp d + exp d2 <= MaxInt32) then Ok (New (coef d * coef d2) (exp d + exp d2)) else Panic.
Proof. unfold Mul. repeat case_decide; done || lia. Qed.

(** The exponents of the squares and of the partial products are parts of that of
    the result, so that the loop panics exactly when the result does not fit. *)
Lemma pow_loop_spec fuel : ∀ e n result,
  0 <= e < 2 ^ Z.of_nat fuel → MinInt32 <= exp result <= MaxInt32 →
  (0 <= exp result ∧ 0 <= exp n ∨ exp result <= 0 ∧ exp n <= 0) →
  pow_loop fuel e n result =
    if decide (e = 0) then Ok result
    else if decide (MinInt32 <= exp result + exp n * e <= MaxInt32)
         then Ok (New (coef result * coef n ^ e) (exp result + exp n * e)) else Panic.
Proof.
  induction fuel as [|fuel IH]; intros e n result He Hr Hs.
  { cbn in He. by rewrite decide_True by lia. }
  cbn [pow_loop]. rewrite Nat2Z.inj_succ, Z.pow_succ_r in He by lia.
  case_decide as He0; [|by rewrite decide_True by lia]. rewrite (decide_False (P := e = 0)) by lia.
  rewrite Z.quot_div_nonneg, Z.rem_mod_nonneg by lia.
  pose proof (Z.div_mod e 2 ltac:(lia)) as Ee. pose proof (Z.mod_pos_bound e 2 ltac:(lia)) as B.
  set (h := e / 2) in *. set (x := e mod 2) in *. clearbody h x.
  assert (K : ∀ result', MinInt32 <= exp result' <= MaxInt32 → exp result' = exp result + exp n * x →
    coef result' = coef result * coef n ^ x →
    (n0 ← (if decide (h > 0) then Mul n n else mret n); pow_loop fuel h n0 result') =
      if decide (h = 0) then Ok result' else
      if decide (MinInt32 <= exp result + exp n * e <= MaxInt32)
      then Ok (New (coef result * coef n ^ e) (exp result + exp n * e)) else Panic).
  { intros result' Hr' E1 E2. destruct (decide (h > 0)) as [Hh|Hh].
    - rewrite (decide_False (P := h = 0)) by lia. rewrite Mul_exact. case_decide as Hn.
      + cbn [mbind outcome_bind]. rewrite IH; [|lia|done|cbn; nia].
        rewrite decide_False by lia. change (exp (New ?v ?x)) with x. change (coef (New ?v ?x)) with v.
        replace (exp result' + (exp n + exp n) * h) with (exp result + exp n * e) by (rewrite E1, Ee; ring).
        case_decide; [|done]. do 2 f_equal. rewrite E2, Ee, Z.pow_add_r, Z.pow_mul_r by lia.
        rewrite Z.pow_2_r, <- Z.pow_2_r, Z.pow_2_r. lia.
      + cbn. rewrite decide_False; [done|]. unfold MinInt32, MaxInt32 in *.
        destruct Hs as [[? ?]|[? ?]]; [assert (exp n * 2 <= exp n * e) by nia|assert (exp n * e <= exp n * 2) by nia]; lia.
    - assert (h = 0) as -> by lia. rewrite (decide_True (P := 0 = 0)) by done. cbn [mbind outcome_bind mret outcome_ret].
      rewrite IH; [|lia|done|nia]. by rewrite decide_True. }
  destruct (decide (x = 1)) as [Hx|Hx].
  - rewrite (Mul_exact result n). destruct (decide (MinInt32 <= exp result + exp n <= MaxInt32)) as [Hm|Hm].
    + cbn [mbind outcome_bind]. rewrite K; [|cbn; lia|cbn; lia|cbn; rewrite Hx; by rewrite Z.pow_1_r].
      destruct (decide (h = 0)) as [Hh|Hh]; [|done]. assert (e = 1) as -> by lia. rewrite Z.mul_1_r, Z.pow_1_r. by rewrite decide_True.
    + cbn. rewrite decide_False; [done|]. unfold MinInt32, MaxInt32 in *.
      destruct Hs as [[? ?]|[? ?]]; [assert (exp n * 1 <= exp n * e) by nia|assert (exp n * e <= exp n * 1) by nia]; lia.
  - assert (x = 0) as -> by lia. cbn [mbind outcome_bind mret outcome_ret]. rewrite K; [|done|lia|rewrite Z.pow_0_r; lia].
    rewrite decide_False by lia. done.
Qed.

Lemma PowBigInt_exact prec d n : MinInt32 <= exp d <= MaxInt32 → 0 < n →
  PowBigInt prec d n =
    if decide (MinInt32 <= exp d * n <= MaxInt32) then Ok (New (coef d ^ n) (exp d * n)) else Panic.
Proof.
  intros He Hn. unfold PowBigInt, powBigIntWithPrecision. rewrite (bool_decide_false (n = 0)) by lia.
  rewrite andb_false_r, (Z.abs_eq n) by lia.
  rewrite pow_loop_spec; [| |cbn; unfold MinInt32, MaxInt32; lia|cbn; lia].
  - rewrite decide_False by lia. change (exp (New 1 0)) with 0. change (coef (New 1 0)) with 1.
    rewrite Z.add_0_l, Z.mul_1_l. destruct (decide (MinInt32 <= exp d * n <= MaxInt32)); [|done]. cbn [mbind outcome_bind]. rewrite decide_False by lia. done.
  - unfold pow_fuel. pose proof (Z.log2_nonneg n). rewrite Z2Nat.id by lia. pose proof (Z.log2_spec n Hn). rewrite Z.add_1_r. lia.
Qed.

(** The other cases: the zeroth power, a negative one, and what goes wrong. *)
Lemma PowBigInt_zero prec d : coef d ≠ 0 → PowBigInt prec d 0 = Ok (New 1 0).
Proof.
  intros Hd. unfold PowBigInt, powBigIntWithPrecision, IsZero. rewrite Sign_coef, bool_decide_false by lia. done.
Qed.

Lemma PowBigInt_negative prec d n : coef d ≠ 0 → MinInt32 <= exp d <= MaxInt32 → 0 < n →
  PowBigInt prec d (- n) =
    (p ← PowBigInt prec d n; DivRound (New 1 0) p (i32 prec)).
Proof.
  intros Hd He Hn. unfold PowBigInt, powBigIntWithPrecision. rewrite !bool_decide_false by lia.
  rewrite !andb_false_r, Z.abs_opp. destruct (pow_loop _ _ _ _); try done. cbn.
  rewrite (decide_True (P := - n < 0)) by lia. by rewrite decide_False by lia.
Qed.

(** [abs] of the smallest int32 is itself, so that the loop does not run. *)
Lemma smallest_power_is_one d : coef d ≠ 0 →
  PowInt32 default_PowPrecisionNegativeExponent d MinInt32 = Ok (New (10 ^ 16) (-16)).
Proof.
  intros Hd. unfold PowInt32, IsZero. rewrite Sign_coef, bool_decide_false by lia. by vm_compute.
Qed.

(** Zero to a negative power is no error but a division by zero. *)
Lemma zero_to_negative_panics : PowInt32 default_PowPrecisionNegativeExponent (NewFromInt 0) (-1) = Panic.
Proof. by vm_compute. Qed.

(** ** What the package promises *)

Definition round_to (m : mode) (d : Decimal) (places : Z) : outcome Decimal :=
  match m with
  | HalfAway => Ok (Round d places)
  | HalfEven => RoundBank d places
  | Ceiling => RoundCeil d places
  | Flooring => RoundFloor d places
  | AwayFromZero => RoundUp d places
  | TowardsZero => Ok (RoundDown d places)
  end.



(** C22. Division, as long as no exponent on the way leaves the int32: [QuoRem] gives the
    quotient truncated to [precision] places and the exact rest, which is smaller than
    the last place of the quotient times the divisor and has the sign of the dividend;
    [DivRound] gives the nearest quotient, a tie away from zero. *)
Theorem division_rounds d d2 precision : div_ok d d2 precision →
  (∃ q r, QuoRem d d2 precision = Ok (q, r) ∧ quotient TowardsZero precision d d2 q ∧
     exp r = rest_exp d d2 precision ∧
     units (exp r) d = coef q * coef d2 * 10 ^ (exp d2 - precision - exp r) + coef r ∧
     Z.abs (coef r) < Z.abs (coef d2) * 10 ^ (exp d2 - precision - exp r) ∧ 0 <= coef r * coef d) ∧
  ∃ y, DivRound d d2 precision = Ok y ∧ quotient HalfAway precision d d2 y.
Proof.
  intros H. split; [|by apply DivRound_quotient].
  destruct (QuoRem_spec d d2 precision H) as (q & r & E & K). cbn zeta in K.
  destruct (divisor_parts d d2 precision) as [Ea Es]. rewrite Ea, Es in K. destruct K as (K1 & K2 & K3 & K4).
  eexists _, _. split; [exact E|]. change (exp (New r ?x)) with x. change (coef (New ?x ?y)) with x.
  split; [by apply quotient_at; [|apply (div_by _ _ _ H)|]|]. split; [done|]. split; [lia|]. by split.
Qed.

Lemma division_rounds_witness :
  let d := New (-2) 0 in let d2 := New 3 0 in div_ok d d2 16 ∧
  (∃ q r, QuoRem d d2 16 = Ok (q, r) ∧ quotient TowardsZero 16 d d2 q ∧
     exp r = rest_exp d d2 16 ∧
     units (exp r) d = coef q * coef d2 * 10 ^ (exp d2 - 16 - exp r) + coef r ∧
     Z.abs (coef r) < Z.abs (coef d2) * 10 ^ (exp d2 - 16 - exp r) ∧ 0 <= coef r * coef d) ∧
  ∃ y, DivRound d d2 16 = Ok y ∧ quotient HalfAway 16 d d2 y.
Proof.
  assert (H : div_ok (New (-2) 0) (New 3 0) 16) by (split; cbn; unfold places_ok, MinInt32, MaxInt32; lia).
  split; [exact H|]. apply (division_rounds (New (-2) 0) (New 3 0) 16). exact H.
Defined.
Example two_thirds : DivRound (New (-2) 0) (New 3 0) 16 = Ok (New (-6666666666666667) (-16)).
Proof. by vm_compute. Qed.
