(* ===== verification/DecimalText.v ===== *)
(** * utils/decimal: decimals as text and bytes

    [NewFromString], [String] and its kin, and the encodings of JSON and gob, with
    what they use of strconv and math/big.  What is printed is read back as the
    same number. *)
From S2P Require Import Prelude Decimals DecimalMath DecimalRound.
#[local] Close Scope nat_scope.
Open Scope Z_scope.

(** ** Bytes *)

Definition is_digit (c : Z) : bool := (48 <=? c) && (c <=? 57).
Definition plus : Z := 43.
Definition minus : Z := 45.
Definition point : Z := 46.
Definition quote : Z := 34.

(** [big.Int.String] of a natural number: its digits, the last one first. *)
Fixpoint digits_loop (fuel : nat) (z : Z) (acc : list Z) : list Z :=
  match fuel with
  | O => acc
  | S fuel => if decide (z < 10) then (48 + z) :: acc else digits_loop fuel (z / 10) ((48 + z mod 10) :: acc)
  end.
Definition digits (z : Z) : list Z := digits_loop (S (Z.to_nat (Z.log2 z))) z [].
Definition int_String (z : Z) : list Z := if decide (z < 0) then minus :: digits (- z) else digits z.

(** [strconv.ParseInt] with base 10. *)
Inductive parsed := Parsed (z : Z) | SyntaxError | RangeError.
Fixpoint ParseUint_loop (maxVal : Z) (s : list Z) (n : Z) : parsed :=
  match s with
  | [] => Parsed n
  | c :: s =>
      if negb (is_digit c) then SyntaxError
      else let n1 := n * 10 + (c - 48) in if decide (n1 > maxVal) then RangeError else ParseUint_loop maxVal s n1
  end.
Definition signed (s : list Z) : bool * list Z :=
  match s with
  | c :: s' => if decide (c = minus) then (true, s') else if decide (c = plus) then (false, s') else (false, s)
  | [] => (false, [])
  end.
Definition ParseInt (bitSize : Z) (s : list Z) : parsed :=
  let '(neg, s) := signed s in
  if decide (s = []) then SyntaxError else
  match ParseUint_loop (2 ^ bitSize - 1) s 0 with
  | Parsed un =>
      let cutoff := 2 ^ (bitSize - 1) in
      if negb neg && (cutoff <=? un) || neg && (cutoff <? un) then RangeError
      else Parsed (if neg : bool then - un else un)
  | e => e
  end.

(** [big.Int.SetString] with base 10. *)
Fixpoint digits_value (s : list Z) (n : Z) : option Z :=
  match s with
  | [] => Some n
  | c :: s => if is_digit c then digits_value s (n * 10 + (c - 48)) else None
  end.
Definition SetString (s : list Z) : option Z :=
  let '(neg, s) := signed s in
  if decide (s = []) then None else (λ n, if neg : bool then - n else n) <$> digits_value s 0.

(** ** Reading *)

(** What is before the first byte that satisfies [p], and what is behind it. *)
Fixpoint cut (p : Z → bool) (s : list Z) : list Z * option (list Z) :=
  match s with
  | [] => ([], None)
  | c :: s => if p c then ([], Some s) else let '(a, b) := cut p s in (c :: a, b)
  end.
Definition is_e (c : Z) : bool := bool_decide (c = 69) || bool_decide (c = 101).
Definition is_point (c : Z) : bool := bool_decide (c = point).

Definition parse_coefficient (intString : list Z) : outcome Z :=
  if decide (len intString <= 18) then
    match ParseInt 64 intString with Parsed z => mret z | _ => Err ErrNotDecimal end
  else match SetString intString with Some z => mret z | None => Err ErrNotDecimal end.

Definition NewFromString (s : list Z) : outcome Decimal :=
  '(v, e) ← (match cut is_e s with
             | (v, None) => mret (v, 0)
             | (v, Some t) =>
                 match ParseInt 32 t with
                 | Parsed e => mret (v, e)
                 | RangeError => Err ErrTooLong
                 | SyntaxError => Err ErrExponent
                 end
             end);
  '(intString, e) ← (match cut is_point v with
                     | (a, None) => mret (a, e)
                     | (a, Some b) => if existsb is_point b then Err ErrTooManyPoints else mret (a ++ b, e - len b)
                     end);
  dValue ← parse_coefficient intString;
  if decide (e < MinInt32 ∨ e > MaxInt32) then Err ErrTooLong else mret (New dValue e).

Definition RequireFromString (s : list Z) : outcome Decimal :=
  match NewFromString s with Err _ => Panic | r => r end.

(** ** Writing *)

(** The two loops over the fraction: from its end, to the first byte that is not
    a zero. *)
Fixpoint trim_zeros (s : list Z) : list Z :=
  match s with
  | [] => []
  | c :: s => let t := trim_zeros s in if decide (t = [] ∧ c = 48) then [] else c :: t
  end.

Definition to_string (trimTrailingZeros : bool) (d : Decimal) : outcome (list Z) :=
  if decide (exp d >= 0) then mret (int_String (coef (rescale 0 d))) else
  v ← deref (value d);
  let str := int_String (Z.abs v) in
  let dExpInt := exp d in
  let '(intPart, fractionalPart) :=
    if decide (len str > - dExpInt) then
      (take (Z.to_nat (len str + dExpInt)) str, drop (Z.to_nat (len str + dExpInt)) str)
    else ([48], replicate (Z.to_nat (- dExpInt - len str)) 48 ++ str) in
  let fractionalPart := if trimTrailingZeros then trim_zeros fractionalPart else fractionalPart in
  let number := if decide (len fractionalPart > 0) then intPart ++ point :: fractionalPart else intPart in
  mret (if decide (Z.sgn v < 0) then minus :: number else number).

Definition String (d : Decimal) : outcome (list Z) := to_string true d.
Definition StringFixed (places : Z) (d : Decimal) : outcome (list Z) := to_string false (Round d places).
Definition StringFixedBank (places : Z) (d : Decimal) : outcome (list Z) :=
  rounded ← RoundBank d places; to_string false rounded.
Definition StringFixedCash (DivisionPrecision interval : Z) (d : Decimal) : outcome (list Z) :=
  rounded ← RoundCash DivisionPrecision d interval; to_string false rounded.

(** ** JSON and text *)

Definition unquoteIfQuoted (s : list Z) : list Z :=
  match s with
  | c :: t =>
      if decide (len s > 2 ∧ c = quote ∧ last s = Some quote) then take (pred (length t)) t else s
  | [] => s
  end.

Definition null : list Z := [110; 117; 108; 108].
Definition MarshalJSON (MarshalJSONWithoutQuotes : bool) (d : Decimal) : outcome (list Z) :=
  s ← String d; mret (if MarshalJSONWithoutQuotes then s else quote :: s ++ [quote]).
(** The decimal after the call, and the error. *)
Definition assign (r : outcome Decimal) : Decimal * option error :=
  match r with Ok d => (d, None) | Err e => (zero_Decimal, Some e) | Panic => (zero_Decimal, None) end.
Definition UnmarshalJSON (bs : list Z) (d : Decimal) : Decimal * option error :=
  if decide (bs = null) then (d, None) else assign (NewFromString (unquoteIfQuoted bs)).
Definition UnmarshalText (bs : list Z) (d : Decimal) : Decimal * option error := assign (NewFromString bs).
Definition MarshalText (d : Decimal) : outcome (list Z) := String d.
Definition Value (d : Decimal) : outcome (list Z) := String d.

(** A decimal that may be null. *)
Record NullDecimal := mkNull { the_decimal : Decimal; Valid : bool }.
Definition NewNullDecimal (d : Decimal) : NullDecimal := mkNull d true.
Definition null_MarshalJSON (unquoted : bool) (d : NullDecimal) : outcome (list Z) :=
  if negb (Valid d) then mret null else MarshalJSON unquoted (the_decimal d).
Definition null_UnmarshalJSON (bs : list Z) (d : NullDecimal) : NullDecimal * option error :=
  if decide (bs = null) then (mkNull (the_decimal d) false, None)
  else let '(x, err) := UnmarshalJSON bs (the_decimal d) in (mkNull x true, err).

Definition null_UnmarshalText (bs : list Z) (d : NullDecimal) : NullDecimal * option error :=
  if decide (bs = []) then (mkNull (the_decimal d) false, None)
  else let '(x, err) := UnmarshalText bs (the_decimal d) in (mkNull x (bool_decide (err = None)), err).
Definition null_MarshalText (d : NullDecimal) : outcome (list Z) :=
  if negb (Valid d) then mret [] else MarshalText (the_decimal d).
Definition null_Value (d : NullDecimal) : outcome (option (list Z)) :=
  if negb (Valid d) then mret None else s ← Value (the_decimal d); mret (Some s).

(** ** gob *)

(** [big.Int.GobEncode] and [GobDecode]: the version and the sign in one byte, and
    the bytes of the absolute value, the highest first. *)
Fixpoint bytes_loop (fuel : nat) (z : Z) (acc : list Z) : list Z :=
  match fuel with
  | O => acc
  | S fuel => if decide (z = 0) then acc else bytes_loop fuel (z / 256) (z mod 256 :: acc)
  end.
Definition big_bytes (z : Z) : list Z := bytes_loop (S (Z.to_nat (Z.log2 z))) z [].
Definition big_value (bs : list Z) : Z := foldl (λ n b, n * 256 + b) 0 bs.
Definition GobEncode (v : option Z) : list Z :=
  match v with None => [] | Some z => (if decide (z < 0) then 3 else 2) :: big_bytes (Z.abs z) end.
Definition GobDecode (bs : list Z) : outcome Z :=
  match bs with
  | [] => mret 0
  | b :: bs =>
      if decide (Z.shiftr b 1 ≠ 1) then Err ErrBinary
      else mret (if Z.odd b then - big_value bs else big_value bs)
  end.

Definition be32 (z : Z) : list Z := (λ k, Z.shiftr z k mod 256) <$> [24; 16; 8; 0].
Definition MarshalBinary (d : Decimal) : list Z := be32 (wrapU 32 (exp d)) ++ GobEncode (value d).
Definition UnmarshalBinary (data : list Z) (d : Decimal) : Decimal * option error :=
  if decide (len data < 4) then (d, Some ErrBinary) else
  let e := i32 (big_value (take 4 data)) in
  match GobDecode (drop 4 data) with
  | Ok v => (New v e, None)
  | Err err => (New 0 e, Some err)
  | Panic => (d, None)
  end.

(** A sign behind the point is taken for that of the number. *)
Lemma sign_behind_point : NewFromString [46; 45; 53] = Ok (New (-5) (-2)).
Proof. reflexivity. Qed.

(** ** Digits *)

Definition all_digits (s : list Z) : Prop := Forall (λ c, is_digit c = true) s.

Lemma is_digit_range c : is_digit c = true ↔ 48 <= c <= 57.
Proof. unfold is_digit. rewrite andb_true_iff, !Z.leb_le. done. Qed.

Lemma digits_value_app s1 s2 n : all_digits s1 →
  digits_value (s1 ++ s2) n = n1 ← digits_value s1 n; digits_value s2 n1.
Proof.
  revert n. induction s1 as [|c s1 IH]; intros n H; [done|]. apply Forall_cons in H as [Hc H]. cbn. rewrite Hc. by apply IH.
Qed.

Lemma digits_value_bounds s : ∀ n, all_digits s → 0 <= n →
  ∃ v, digits_value s n = Some v ∧ n * 10 ^ len s <= v < (n + 1) * 10 ^ len s.
Proof.
  induction s as [|c s IH]; intros n H Hn; [exists n; cbn; split; [done|lia]|].
  apply Forall_cons in H as [Hc H]. cbn [digits_value]. rewrite Hc. apply is_digit_range in Hc.
  destruct (IH (n * 10 + (c - 48)) H ltac:(lia)) as (v & Hv & B). exists v. split; [done|].
  cbn [length]. rewrite Nat2Z.inj_succ, Z.pow_succ_r by lia. pose proof (pow10_pos (len s) ltac:(lia)). nia.
Qed.

Lemma digits_loop_spec fuel : ∀ z acc n, 0 <= z < 2 ^ Z.of_nat fuel → (0 < fuel)%nat → all_digits acc → digits_value acc z = Some n →
  ∃ c s, digits_loop fuel z acc = c :: s ∧ all_digits (c :: s) ∧ digits_value (c :: s) 0 = Some n.
Proof.
  induction fuel as [|fuel IH]; intros z acc n Hz Hf Ha Hv; [lia|]. cbn [digits_loop]. case_decide as Hd.
  - exists (48 + z), acc. assert (Hc : is_digit (48 + z) = true) by (apply is_digit_range; lia).
    split; [done|]. split; [by constructor|]. cbn [digits_value]. rewrite Hc. by replace (0 * 10 + (48 + z - 48)) with z by lia.
  - rewrite Nat2Z.inj_succ, Z.pow_succ_r in Hz by lia. pose proof (Z.div_mod z 10 ltac:(lia)). pose proof (Z.mod_pos_bound z 10 ltac:(lia)).
    assert (Hc : is_digit (48 + z mod 10) = true) by (apply is_digit_range; lia).
    apply IH; [nia|destruct fuel; [cbn in Hz|]; lia|by constructor|]. cbn [digits_value]. rewrite Hc, <- Hv. f_equal. lia.
Qed.

Lemma digits_spec z : 0 <= z →
  ∃ c s, digits z = c :: s ∧ all_digits (c :: s) ∧ digits_value (c :: s) 0 = Some z.
Proof.
  intros Hz. unfold digits. eapply digits_loop_spec; [|lia|constructor|done].
  rewrite Nat2Z.inj_succ, Z2Nat.id by apply Z.log2_nonneg.
  destruct (decide (z = 0)) as [->|]; [done|]. pose proof (Z.log2_spec z ltac:(lia)). lia.
Qed.

Lemma zeros_value n s : digits_value (replicate n 48 ++ s) 0 = digits_value s 0.
Proof. induction n; done. Qed.

Lemma all_digits_zeros n : all_digits (replicate n 48).
Proof. by apply Forall_replicate. Qed.

Lemma zeros_append n : ∀ v, digits_value (replicate n 48) v = Some (v * 10 ^ Z.of_nat n).
Proof.
  induction n as [|n IH]; intros v; [cbn; f_equal; lia|]. cbn [replicate digits_value is_digit].
  change (is_digit 48) with true. cbn match. rewrite IH, Nat2Z.inj_succ, Z.pow_succ_r by lia. f_equal. lia.
Qed.

(** ** The coefficient *)

Lemma ParseUint_digits maxVal s : ∀ n v, digits_value s n = Some v → all_digits s → 0 <= n → v <= maxVal →
  ParseUint_loop maxVal s n = Parsed v.
Proof.
  induction s as [|c s IH]; intros n v Hv Ha Hn Hm; cbn in *; [by injection Hv as ->|].
  apply Forall_cons in Ha as [Hc Ha]. rewrite Hc in *. cbn. apply is_digit_range in Hc.
  destruct (digits_value_bounds s (n * 10 + (c - 48)) Ha ltac:(lia)) as (v' & Ev & B). rewrite Hv in Ev. injection Ev as <-.
  pose proof (pow10_pos (len s) ltac:(lia)). rewrite decide_False by nia. apply IH; [done|done|lia|done].
Qed.

Definition sign_text (neg : bool) (s : list Z) : list Z := if neg then minus :: s else s.

Lemma signed_digits neg c s : is_digit c = true → signed (sign_text neg (c :: s)) = (neg, c :: s).
Proof.
  intros Hc%is_digit_range. destruct neg; cbn; [done|]. unfold minus, plus. rewrite !decide_False by lia. done.
Qed.

Lemma parse_coefficient_digits neg c s v :
  all_digits (c :: s) → digits_value (c :: s) 0 = Some v →
  parse_coefficient (sign_text neg (c :: s)) = Ok (if neg then - v else v).
Proof.
  intros Ha Hv. pose proof Ha as [Hc _]%Forall_cons. unfold parse_coefficient.
  destruct (digits_value_bounds (c :: s) 0 Ha ltac:(lia)) as (v' & Ev & B). rewrite Hv in Ev. injection Ev as <-.
  case_decide as Hl.
  - assert (Hlen : len (c :: s) <= 18) by (destruct neg; cbn [sign_text length] in *; lia).
    assert (v < 10 ^ 18).
    { eapply Z.lt_le_trans; [apply B|]. rewrite Z.mul_1_l. apply Z.pow_le_mono_r; lia. }
    unfold ParseInt. rewrite signed_digits by done. rewrite decide_False by done.
    rewrite (ParseUint_digits _ _ 0 v) by (done || lia).
    rewrite (proj2 (Z.leb_gt _ _)), (proj2 (Z.ltb_ge _ _)) by lia. by destruct neg.
  - unfold SetString. rewrite signed_digits by done. rewrite decide_False by done. by rewrite Hv.
Qed.

(** ** Numbers *)

Definition number (ip fp : list Z) : list Z := if decide (len fp > 0) then ip ++ point :: fp else ip.

Lemma cut_none p s : Forall (λ c, p c = false) s → cut p s = (s, None).
Proof. induction 1 as [|c s Hc _ IH]; [done|]. cbn. by rewrite Hc, IH. Qed.
Lemma cut_some p a c b : Forall (λ c, p c = false) a → p c = true → cut p (a ++ c :: b) = (a, Some b).
Proof. intros Ha Hc. induction Ha as [|c' a Hc' _ IH]; cbn; [by rewrite Hc|]. by rewrite Hc', IH. Qed.

Lemma digit_plain c : is_digit c = true → is_e c = false ∧ is_point c = false.
Proof. rewrite is_digit_range. unfold is_e, is_point, point. intros. rewrite !bool_decide_false by lia. done. Qed.

Lemma digits_plain s : all_digits s → Forall (λ c, is_e c = false) s ∧ Forall (λ c, is_point c = false) s.
Proof. intros H. split; eapply Forall_impl; try exact H; intros c Hc; by apply digit_plain. Qed.

Lemma sign_plain neg s (p : Z → bool) : p minus = false → Forall (λ c, p c = false) s → Forall (λ c, p c = false) (sign_text neg s).
Proof. intros. destruct neg; [by constructor|done]. Qed.

Lemma sign_text_app neg a b : sign_text neg (a ++ b) = sign_text neg a ++ b.
Proof. by destruct neg. Qed.

Lemma read_number neg c s fp v :
  all_digits (c :: s) → all_digits fp → digits_value ((c :: s) ++ fp) 0 = Some v → len fp <= 2 ^ 31 →
  NewFromString (sign_text neg (number (c :: s) fp)) = Ok (New (if neg then - v else v) (- len fp)).
Proof.
  intros Hi Hf Hv Hl. destruct (digits_plain _ Hi) as [Hi1 Hi2], (digits_plain _ Hf) as [Hf1 Hf2].
  assert (He : Forall (λ c, is_e c = false) (sign_text neg (number (c :: s) fp))).
  { apply sign_plain; [done|]. unfold number. case_decide; [|done]. apply Forall_app. split; [done|]. by constructor. }
  assert (Hcut : (match cut is_point (sign_text neg (number (c :: s) fp)) with
                  | (a, None) => mret (a, 0)
                  | (a, Some b) => if existsb is_point b then Err ErrTooManyPoints else mret (a ++ b, 0 - len b)
                  end) = Ok (sign_text neg ((c :: s) ++ fp), - len fp)).
  { unfold number. case_decide as Hd.
    - rewrite sign_text_app, cut_some; [|by apply sign_plain|done].
      assert (existsb is_point fp = false) as ->.
      { apply not_true_iff_false. rewrite existsb_exists. intros (x & Hx & Hp).
        rewrite Forall_forall in Hf2. apply list_elem_of_In in Hx. by rewrite Hf2 in Hp. }
      by rewrite sign_text_app.
    - assert (fp = []) as -> by (destruct fp; cbn in *; [done|lia]). rewrite cut_none by (by apply sign_plain).
      by rewrite app_nil_r. }
  unfold NewFromString. rewrite (cut_none is_e) by done. cbn [mbind outcome_bind mret outcome_ret].
  change (@mret outcome _ (list Z * Z)) with (@Ok (list Z * Z)) in *. rewrite Hcut. cbn [mbind outcome_bind].
  change ((c :: s) ++ fp) with (c :: (s ++ fp)) in *. rewrite (parse_coefficient_digits neg c (s ++ fp) v); [|by apply (Forall_app_2 _ (c :: s))|done]. cbn [mbind outcome_bind].
  rewrite decide_False by (unfold MinInt32, MaxInt32; lia). done.
Qed.

Lemma trim_zeros_spec s : ∃ j, s = trim_zeros s ++ replicate j 48.
Proof.
  induction s as [|c s [j IH]]; [by exists 0%nat|]. cbn. case_decide as Hd.
  - destruct Hd as [Ht ->]. exists (S j). cbn. rewrite Ht in IH. by rewrite IH at 1.
  - exists j. cbn. by rewrite <- IH.
Qed.

(** The two parts of a number with a fraction. *)
Lemma parts_of str n v c s :
  str = c :: s → all_digits str → digits_value str 0 = Some v → 0 < n →
  ∃ ip fp, (if decide (len str > n) then (take (Z.to_nat (len str - n)) str, drop (Z.to_nat (len str - n)) str)
            else ([48], replicate (Z.to_nat (n - len str)) 48 ++ str)) = (ip, fp) ∧
    ip ≠ [] ∧ all_digits ip ∧ all_digits fp ∧ len fp = n ∧ digits_value (ip ++ fp) 0 = Some v.
Proof.
  intros -> Ha Hv Hn. case_decide as Hd.
  - eexists _, _. split; [done|]. rewrite take_drop. split_and!; [|by apply Forall_take|by apply Forall_drop| |done].
    + replace (Z.to_nat (len (c :: s) - n)) with (S (Z.to_nat (len (c :: s) - n - 1))) by lia. done.
    + rewrite length_drop. lia.
  - eexists _, _. split; [done|]. split_and!; [done|by constructor| | |].
    + apply Forall_app. split; [apply all_digits_zeros|done].
    + rewrite length_app, length_replicate. lia.
    + change ([48] ++ ?x) with (replicate 1 48 ++ x). by rewrite !zeros_value.
Qed.

Lemma to_string_parts trim d v : exp d < 0 → value d = Some v →
  ∃ c s fp, to_string trim d = Ok (sign_text (v <? 0) (number (c :: s) (if trim : bool then trim_zeros fp else fp))) ∧
    all_digits (c :: s) ∧ all_digits fp ∧ len fp = - exp d ∧ digits_value ((c :: s) ++ fp) 0 = Some (Z.abs v).
Proof.
  intros He Hv. unfold to_string. rewrite decide_False by lia. rewrite Hv. cbn [deref mbind outcome_bind].
  destruct (digits_spec (Z.abs v) ltac:(lia)) as (c0 & s0 & Ed & Ha & Hd).
  assert (Es : int_String (Z.abs v) = c0 :: s0) by (unfold int_String; by rewrite decide_False by lia). rewrite Es.
  destruct (parts_of (c0 :: s0) (- exp d) (Z.abs v) c0 s0 eq_refl Ha Hd ltac:(lia)) as (ip & fp & E & Hi & Hai & Haf & Hl & Hval).
  replace (len (c0 :: s0) + exp d) with (len (c0 :: s0) - - exp d) by lia. rewrite E.
  destruct ip as [|c s]; [done|]. exists c, s, fp. split_and!; try done.
  fold (number (c :: s) (if trim then trim_zeros fp else fp)). destruct (Z.ltb_spec v 0), (decide (Z.sgn v < 0)); try lia; done.
Qed.

(** ** Round trips *)

(** A decimal whose pointer is set if it has a fraction, and whose exponent is an
    int32: all that the package makes are such. *)
Definition well_made (d : Decimal) : Prop :=
  MinInt32 <= exp d <= MaxInt32 ∧ (exp d < 0 → value d ≠ None).

Lemma read_int z : ∃ c s, int_String z = sign_text (z <? 0) (c :: s) ∧ NewFromString (int_String z) = Ok (New z 0).
Proof.
  destruct (digits_spec (Z.abs z) ltac:(lia)) as (c & s & Ed & Ha & Hd). exists c, s.
  assert (E : int_String z = sign_text (z <? 0) (c :: s)).
  { unfold int_String. destruct (Z.ltb_spec z 0), (decide (z < 0)); try lia.
    - replace (Z.abs z) with (- z) in Ed by lia. by rewrite Ed.
    - replace (Z.abs z) with z in Ed by lia. by rewrite Ed. }
  split; [done|]. rewrite E. pose proof (read_number (z <? 0) c s [] (Z.abs z) Ha ltac:(constructor)) as R.
  rewrite app_nil_r in R. specialize (R Hd ltac:(cbn; lia)). change (number (c :: s) []) with (c :: s) in R.
  rewrite R. do 2 f_equal. destruct (Z.ltb_spec z 0); lia.
Qed.

(** Printed without trimming, the exponent comes back too. *)
Lemma untrimmed_roundtrip d : well_made d → exp d < 0 →
  ∃ s, to_string false d = Ok s ∧ NewFromString s = Ok (ensureInitialized d).
Proof.
  intros [He Hv] Hneg. destruct (value d) as [v|] eqn:Ev; [|by destruct (Hv Hneg)].
  destruct (to_string_parts false d v Hneg Ev) as (c & s & fp & E & Hi & Hf & Hl & Hval).
  eexists. split; [exact E|]. rewrite (read_number _ c s fp (Z.abs v)) by (done || unfold MinInt32 in *; lia).
  assert (Hc : coef d = v) by (unfold coef; by rewrite Ev). unfold ensureInitialized. rewrite Hl, Hc. do 2 f_equal; [|lia].
  destruct (Z.ltb_spec v 0); lia.
Qed.


Lemma int_roundtrip trim d : 0 <= exp d →
  ∃ s, to_string trim d = Ok s ∧ NewFromString s = Ok (New (units 0 d) 0).
Proof.
  intros He. unfold to_string. rewrite decide_True by lia. eexists. split; [done|].
  destruct (read_int (coef (rescale 0 d))) as (_ & _ & _ & ->). do 2 f_equal.
  rewrite <- (units_rescale 0 0 d) by lia. unfold units. rewrite exp_rescale. change (10 ^ (0 - 0)) with 1. lia.
Qed.

Lemma trimmed_roundtrip d : well_made d → exp d < 0 →
  ∃ s d', String d = Ok s ∧ NewFromString s = Ok d' ∧ same_number d' d.
Proof.
  intros [He Hv] Hneg. destruct (value d) as [v|] eqn:Ev; [|by destruct (Hv Hneg)].
  destruct (to_string_parts true d v Hneg Ev) as (c & s & fp & E & Hi & Hf & Hl & Hval).
  destruct (trim_zeros_spec fp) as [j Hj]. set (t := trim_zeros fp) in *.
  assert (Ht : all_digits t) by (unfold all_digits in *; rewrite Hj in Hf; by apply Forall_app in Hf as [? _]).
  assert (Hlen : len fp = len t + Z.of_nat j) by (rewrite Hj, length_app, length_replicate; lia).
  destruct (digits_value_bounds ((c :: s) ++ t) 0) as (w & Hw & _); [by apply Forall_app|lia|].
  assert (Hwv : Z.abs v = w * 10 ^ Z.of_nat j).
  { rewrite Hj, app_assoc, digits_value_app in Hval by (by apply Forall_app). rewrite Hw in Hval. cbn in Hval.
    rewrite zeros_append in Hval. by injection Hval as <-. }
  eexists _, _. split; [exact E|]. split; [rewrite (read_number _ c s t w) by (done || unfold MinInt32 in *; lia); done|].
  assert (Hc : coef d = v) by (unfold coef; by rewrite Ev).
  apply (same_units (exp d)); [cbn; lia..|]. rewrite units_new. unfold units. rewrite Hc, Z.sub_diag, Z.pow_0_r, Z.mul_1_r.
  replace (- len t - exp d) with (Z.of_nat j) by lia. destruct (Z.ltb_spec v 0); lia.
Qed.

(** ** Bytes *)

Definition all_bytes (s : list Z) : Prop := Forall (λ b, 0 <= b < 256) s.

Lemma big_value_app s t : big_value (s ++ t) = foldl (λ n b, n * 256 + b) (big_value s) t.
Proof. unfold big_value. by rewrite foldl_app. Qed.

Lemma big_value_shift t : ∀ n, foldl (λ n b, n * 256 + b) n t = n * 256 ^ len t + big_value t.
Proof.
  unfold big_value. induction t as [|b t IH]; intros n; cbn [foldl length]; [cbn; lia|].
  rewrite IH, (IH (0 * 256 + b)), Nat2Z.inj_succ, Z.pow_succ_r by lia. lia.
Qed.

Lemma bytes_loop_value fuel : ∀ z acc, 0 <= z < 2 ^ Z.of_nat fuel →
  big_value (bytes_loop fuel z acc) = z * 256 ^ len acc + big_value acc.
Proof.
  induction fuel as [|fuel IH]; intros z acc Hz; cbn [bytes_loop]; [cbn in Hz; replace z with 0 by lia; lia|].
  case_decide as Hd; [subst; lia|]. rewrite Nat2Z.inj_succ, Z.pow_succ_r in Hz by lia.
  pose proof (Z.div_mod z 256 ltac:(lia)). pose proof (Z.mod_pos_bound z 256 ltac:(lia)).
  rewrite IH by (split; [apply Z.div_pos; lia|]; nia). unfold big_value at 1. cbn [foldl length]. rewrite big_value_shift.
  rewrite Nat2Z.inj_succ, Z.pow_succ_r by lia. nia.
Qed.

Lemma big_bytes_value z : 0 <= z → big_value (big_bytes z) = z.
Proof.
  intros Hz. unfold big_bytes. rewrite bytes_loop_value; [cbn; lia|].
  rewrite Nat2Z.inj_succ, Z2Nat.id by apply Z.log2_nonneg.
  destruct (decide (z = 0)) as [->|]; [done|]. pose proof (Z.log2_spec z ltac:(lia)). lia.
Qed.

Lemma GobDecode_Encode v : GobDecode (GobEncode v) = Ok (default 0 v).
Proof.
  destruct v as [v|]; [|done]. unfold GobEncode. destruct (decide (v < 0)); unfold GobDecode; rewrite big_bytes_value by lia.
  - change (Z.shiftr 3 1) with 1. rewrite decide_False by (by intros H). cbn. f_equal. lia.
  - change (Z.shiftr 2 1) with 1. rewrite decide_False by (by intros H). cbn. f_equal. lia.
Qed.

Lemma be32_value z : 0 <= z < 2 ^ 32 → big_value (be32 z) = z.
Proof.
  intros Hz. unfold be32, big_value. cbn -[Z.shiftr Z.modulo]. rewrite !Z.shiftr_div_pow2 by lia. 
  change (2 ^ 24) with 16777216. change (2 ^ 16) with 65536. change (2 ^ 8) with 256. change (2 ^ 0) with 1.
  change (2 ^ 32) with 4294967296 in Hz. Z.to_euclidean_division_equations. lia.
Qed.

Lemma i32_wrapU z : MinInt32 <= z <= MaxInt32 → i32 (wrapU 32 z) = z.
Proof.
  intros Hz. unfold i32, wrapU, wrapS. unfold MinInt32, MaxInt32 in Hz. change (2 ^ (32 - 1)) with 2147483648.
  change (2 ^ 31) with 2147483648 in Hz. change (2 ^ 32) with 4294967296. Z.to_euclidean_division_equations. lia.
Qed.

Lemma binary_roundtrip d x : MinInt32 <= exp d <= MaxInt32 →
  UnmarshalBinary (MarshalBinary d) x = (ensureInitialized d, None).
Proof.
  intros He. unfold UnmarshalBinary, MarshalBinary. rewrite decide_False by (rewrite length_app; cbn; lia).
  rewrite take_app_length' by done. rewrite drop_app_length' by done. rewrite GobDecode_Encode.
  rewrite be32_value by (pose proof (wrapU_range 32 (exp d)); unfold in_u in *; lia). by rewrite i32_wrapU.
Qed.

(** ** Quotes *)

Lemma unquote_quoted s : s ≠ [] → unquoteIfQuoted (quote :: s ++ [quote]) = s.
Proof.
  intros Hs. unfold unquoteIfQuoted. rewrite decide_True.
  - rewrite length_app. cbn. replace (pred (length s + 1)) with (length s) by lia. by rewrite take_app_length.
  - split_and!; [|done|change (quote :: s ++ [quote]) with ((quote :: s) ++ [quote]); by rewrite last_snoc]. cbn. rewrite length_app. cbn. destruct s; [done|]. cbn. lia.
Qed.

(** What [String] prints starts with a digit or the sign, and reads as the number. *)
Lemma String_reads d : well_made d →
  ∃ c s d', String d = Ok (c :: s) ∧ c ≠ quote ∧ c :: s ≠ null ∧ NewFromString (c :: s) = Ok d' ∧ same_number d' d.
Proof.
  intros Hd.
  assert (K : ∀ neg c s fp x, all_digits (c :: s) → x = sign_text neg (number (c :: s) fp) →
    ∃ c' s', x = c' :: s' ∧ c' ≠ quote ∧ c' :: s' ≠ null).
  { intros neg c s fp x Ha ->. apply Forall_cons in Ha as [Hc%is_digit_range _]. unfold quote, null.
    destruct neg; [exists minus, (number (c :: s) fp); by split_and!|].
    unfold number. case_decide; [exists c, (s ++ point :: fp)|exists c, s]; split_and!; try done; try lia; intros [= -> _]; lia. }
  destruct (decide (exp d < 0)) as [Hneg|Hpos].
  - destruct (trimmed_roundtrip d Hd Hneg) as (str & d' & E & R & S). destruct Hd as [He Hv].
    destruct (value d) as [v|] eqn:Ev; [|by destruct (Hv Hneg)].
    destruct (to_string_parts true d v Hneg Ev) as (c & s & fp & E' & Hi & _).
    unfold String in E. rewrite E in E'. injection E' as E'.
    destruct (K _ c s _ str Hi E') as (c' & s' & -> & H1 & H2). exists c', s', d'. by split_and!.
  - destruct (int_roundtrip true d ltac:(lia)) as (str & E & R).
    assert (E' : String d = Ok (int_String (coef (rescale 0 d)))) by (unfold String, to_string; by rewrite decide_True by lia).
    unfold String in E'. rewrite E in E'. injection E' as E'.
    destruct (read_int (coef (rescale 0 d))) as (c & s & Ei & _).
    destruct (digits_spec (Z.abs (coef (rescale 0 d))) ltac:(lia)) as (c0 & s0 & Ed & Ha & _).
    destruct (K (coef (rescale 0 d) <? 0) c0 s0 [] str Ha) as (c' & s' & -> & H1 & H2).
    { rewrite E'. change (number (c0 :: s0) []) with (c0 :: s0). rewrite <- Ed. unfold int_String.
      destruct (Z.ltb_spec (coef (rescale 0 d)) 0), (decide (coef (rescale 0 d) < 0)); try lia; cbn [sign_text].
      - by rewrite Z.abs_neq by lia.
      - by rewrite Z.abs_eq by lia. }
    exists c', s', (New (units 0 d) 0). split_and!; try done. apply (same_units 0); [cbn; lia|lia|]. apply units_same.
Qed.



(** A number printed to so many places has exactly these. *)
Lemma StringFixed_reads d places : well_made d → places_ok places → 0 < places →
  ∃ s, StringFixed places d = Ok s ∧ NewFromString s = Ok (ensureInitialized (Round d places)).
Proof.
  intros [He Hv] Hp H0. pose proof (exp_Round d places Hp) as Er. apply untrimmed_roundtrip; [|lia].
  split; [rewrite Er; destruct Hp; unfold MinInt32, MaxInt32 in *; lia|]. intros _.
  destruct (decide (exp d = - places)) as [E|E].
  - unfold Round. rewrite (i32_places _ Hp), decide_True by done. apply Hv. lia.
  - by rewrite Round_coef.
Qed.
