(* ===== verification/DecimalFloat.v ===== *)
(** * utils/decimal: decimals from floats

    [NewFromFloatWithExponent], on the bits of the float64. *)
From S2P Require Import Prelude Decimals DecimalMath DecimalRound.
#[local] Close Scope nat_scope.
Open Scope Z_scope.

(** The loop that makes the mantissa odd. *)
Fixpoint normalize (fuel : nat) (mant exp2 : Z) : Z * Z :=
  match fuel with
  | O => (mant, exp2)
  | S fuel => if Z.even mant then normalize fuel (Z.shiftr mant 1) (exp2 + 1) else (mant, exp2)
  end.

Definition mantissa (bits : Z) : Z := Z.land bits (2 ^ 52 - 1).
Definition biased (bits : Z) : Z := Z.land (Z.shiftr bits 52) (2 ^ 11 - 1).
Definition sign_bit (bits : Z) : Z := Z.shiftr bits 63.

(** The scaling by 5^exp and 2^exp2, and the rounding. *)
Definition scale_float (mant exp2 exp : Z) : Z :=
  let exp2 := i32 (exp2 - exp) in
  let '(temp, dMant) :=
    if decide (exp > 0) then (5 ^ exp, mant)
    else if decide (exp < 0) then (1, mant * 5 ^ (- exp)) else (1, mant) in
  let '(temp, dMant) :=
    if decide (exp2 > 0) then (temp, Z.shiftl dMant exp2)
    else if decide (exp2 < 0) then (Z.shiftl temp (- exp2), dMant) else (temp, dMant) in
  if decide (exp > 0 ∨ exp2 < 0) then Z.quot (dMant + Z.shiftr temp 1) temp else dMant.

Definition NewFromFloatWithExponent (bits exp : Z) : outcome Decimal :=
  if decide (biased bits = 2 ^ 11 - 1) then Panic else
  if decide (biased bits = 0 ∧ mantissa bits = 0) then mret zero_Decimal else
  let '(mant, exp2) := if decide (biased bits = 0) then (mantissa bits, 1)
                       else (Z.lor (mantissa bits) (2 ^ 52), biased bits) in
  let '(mant, exp2) := normalize 53 mant (exp2 - (1023 + 52)) in
  let exp := if decide (exp < 0 ∧ exp < exp2) then Z.min exp2 0 else exp in
  let dMant := scale_float mant exp2 exp in
  mret (New (if decide (sign_bit bits = 1) then - dMant else dMant) exp).

(** 123.456 to two places, as in the comment; a half; the smallest float. *)
Example float_123_456 : NewFromFloatWithExponent 4638387860618067575 (-2) = Ok (New 12346 (-2)).
Proof. by vm_compute. Qed.
Example float_minus_half : NewFromFloatWithExponent 13826050856027422720 (-5) = Ok (New (-5) (-1)).
Proof. by vm_compute. Qed.

(** What the float is: a mantissa and a power of two. *)
Definition float_parts (bits : Z) : Z * Z :=
  if decide (biased bits = 0) then (mantissa bits, 1 - 1075) else (mantissa bits + 2 ^ 52, biased bits - 1075).

(** [r] is m * 2^x in units of 10^e, to the nearest, a tie going up. *)
Definition nearest (m x e r : Z) : Prop :=
  rounded HalfAway (2 ^ Z.max (- x) 0 * 10 ^ Z.max e 0) (m * 2 ^ Z.max x 0 * 10 ^ Z.max (- e) 0) r.

Lemma mantissa_range bits : 0 <= mantissa bits < 2 ^ 52.
Proof.
  unfold mantissa. change (2 ^ 52 - 1) with (Z.ones 52). rewrite Z.land_ones by lia. apply Z.mod_pos_bound. lia.
Qed.
Lemma biased_range bits : 0 <= biased bits < 2 ^ 11.
Proof.
  unfold biased. change (2 ^ 11 - 1) with (Z.ones 11). rewrite Z.land_ones by lia. apply Z.mod_pos_bound. lia.
Qed.

Lemma mantissa_lor bits : Z.lor (mantissa bits) (2 ^ 52) = mantissa bits + 2 ^ 52.
Proof.
  symmetry. rewrite <- Z.add_lor_land.
  replace (Z.land (mantissa bits) (2 ^ 52)) with 0; [lia|]. symmetry. apply Z.bits_inj'. intros k Hk.
  rewrite Z.land_spec, Z.bits_0, Z.pow2_bits_eqb by lia. destruct (Z.eqb_spec 52 k) as [<-|]; [|apply andb_false_r].
  rewrite andb_true_r. pose proof (mantissa_range bits). destruct (decide (mantissa bits = 0)) as [->|]; [apply Z.bits_0|].
  apply Z.bits_above_log2; [lia|]. apply Z.log2_lt_pow2; lia.
Qed.

(** Normalizing keeps the number. *)
Lemma normalize_spec fuel : ∀ m x, 0 < m →
  let '(m', x') := normalize fuel m x in 0 < m' ∧ x <= x' <= x + Z.of_nat fuel ∧ m = m' * 2 ^ (x' - x).
Proof.
  induction fuel as [|fuel IH]; intros m x Hm; cbn [normalize].
  { split_and!; [done|lia|lia|]. rewrite Z.sub_diag. lia. }
  destruct (Z.even m) eqn:He; [|rewrite Z.sub_diag; split_and!; lia].
  apply Z.even_spec in He as [k ->]. change (Z.shiftr (2 * k) 1) with (Z.div2 (2 * k)). rewrite Z.div2_div.
  replace (2 * k / 2) with k by (rewrite Z.mul_comm, Z.div_mul; lia).
  specialize (IH k (x + 1) ltac:(lia)). destruct (normalize fuel k (x + 1)) as [m' x']. destruct IH as (H1 & H2 & H3).
  split_and!; [done|lia|lia|]. replace (x' - x) with (1 + (x' - (x + 1))) by lia. rewrite Z.pow_add_r by lia. lia.
Qed.

(** Rounding a fraction does not depend on how it is written. *)
Lemma rounded_cross A B A' B' r : 0 < B → 0 < B' → A * B' = A' * B →
  rounded HalfAway B A r → rounded HalfAway B' A' r.
Proof.
  intros HB HB' E H. apply (HalfAway_unscale B); [done|]. rewrite <- E, (Z.mul_comm B' B).
  by apply rounded_scale.
Qed.

Lemma pow2_join a b c d : 0 <= a → 0 <= b → 0 <= c → 0 <= d → a + b = c + d → 2 ^ a * 2 ^ b = 2 ^ c * 2 ^ d.
Proof. intros. rewrite <- !Z.pow_add_r by done. by f_equal. Qed.

Lemma nearest_normalized m x m0 x0 e r : x0 <= x → m0 = m * 2 ^ (x - x0) → nearest m x e r → nearest m0 x0 e r.
Proof.
  intros Hx -> H. unfold nearest in *. eapply rounded_cross; [| | |exact H].
  1,2: apply Z.mul_pos_pos; apply Z.pow_pos_nonneg; lia.
  assert (E : 2 ^ Z.max x 0 * 2 ^ Z.max (- x0) 0 = 2 ^ (x - x0) * 2 ^ Z.max x0 0 * 2 ^ Z.max (- x) 0).
  { rewrite <- (Z.pow_add_r 2 (x - x0)) by lia. apply pow2_join; lia. }
  set (p := 10 ^ Z.max (- e) 0). set (q := 10 ^ Z.max e 0).
  transitivity (m * (2 ^ Z.max x 0 * 2 ^ Z.max (- x0) 0) * p * q); [ring|]. rewrite E. ring.
Qed.

(** What the code computes with: a fraction of powers of five and two. *)
Definition numerator (m x e : Z) : Z := m * 5 ^ Z.max (- e) 0 * 2 ^ Z.max (x - e) 0.
Definition denominator (x e : Z) : Z := 5 ^ Z.max e 0 * 2 ^ Z.max (e - x) 0.

Lemma half_up_quot T D : 0 < T → 0 <= D → rounded HalfAway T D (Z.quot (D + Z.shiftr T 1) T).
Proof.
  intros HT HD. change (Z.shiftr T 1) with (Z.div2 T). rewrite Z.div2_div.
  pose proof (Z.div_mod T 2 ltac:(lia)). pose proof (Z.mod_pos_bound T 2 ltac:(lia)).
  rewrite Z.quot_div_nonneg by lia. set (h := T / 2) in *. set (y := T mod 2) in *. clearbody h y.
  pose proof (Z.div_mod (D + h) T ltac:(lia)). pose proof (Z.mod_pos_bound (D + h) T HT).
  pose proof (Z.div_pos (D + h) T ltac:(lia) HT). set (q := (D + h) / T) in *. set (z := (D + h) mod T) in *. clearbody q z.
  cbn. split; nia.
Qed.

Lemma scale_float_fraction m x e : 0 < m → MinInt32 <= x - e <= MaxInt32 →
  rounded HalfAway (denominator x e) (numerator m x e) (scale_float m x e).
Proof.
  intros Hm Hr. unfold scale_float. rewrite (i32_id (x - e)) by done.
  set (T := denominator x e). set (D := numerator m x e).
  assert (HT : 0 < T) by (apply Z.mul_pos_pos; apply Z.pow_pos_nonneg; lia).
  assert (HD : 0 <= D).
  { unfold D, numerator. pose proof (Z.pow_nonneg 5 (Z.max (- e) 0)). pose proof (Z.pow_nonneg 2 (Z.max (x - e) 0)). nia. }
  assert (E1 : (if decide (e > 0) then (5 ^ e, m) else if decide (e < 0) then (1, m * 5 ^ (- e)) else (1, m)) =
               (5 ^ Z.max e 0, m * 5 ^ Z.max (- e) 0)).
  { repeat case_decide.
    - rewrite Z.max_l, Z.max_r by lia. by rewrite Z.mul_1_r.
    - rewrite Z.max_r, Z.max_l by lia. done.
    - rewrite !Z.max_r by lia. by rewrite Z.mul_1_r. }
  rewrite E1. clear E1.
  assert (E2 : (if decide (x - e > 0) then (5 ^ Z.max e 0, Z.shiftl (m * 5 ^ Z.max (- e) 0) (x - e))
                else if decide (x - e < 0) then (Z.shiftl (5 ^ Z.max e 0) (- (x - e)), m * 5 ^ Z.max (- e) 0)
                else (5 ^ Z.max e 0, m * 5 ^ Z.max (- e) 0)) = (T, D)).
  { unfold T, D, numerator, denominator. repeat case_decide; rewrite ?Z.shiftl_mul_pow2 by lia.
    - rewrite (Z.max_l (x - e)), (Z.max_r (e - x)) by lia. by rewrite Z.pow_0_r, Z.mul_1_r.
    - rewrite (Z.max_r (x - e)), (Z.max_l (e - x)) by lia. rewrite Z.pow_0_r, Z.mul_1_r. do 3 f_equal. lia.
    - rewrite (Z.max_r (x - e)), (Z.max_r (e - x)) by lia. by rewrite Z.pow_0_r, !Z.mul_1_r. }
  rewrite E2. clear E2. case_decide as Hd; [by apply half_up_quot|].
  assert (T = 1) as ->.
  { unfold T, denominator. rewrite !Z.max_r by lia. done. }
  replace D with (D * 1) at 1 by lia. by apply rounded_exact.
Qed.

Lemma scale_float_nearest m x e : 0 < m → MinInt32 <= x - e <= MaxInt32 → nearest m x e (scale_float m x e).
Proof.
  intros Hm Hr. unfold nearest. eapply rounded_cross; [| | |by apply scale_float_fraction].
  1,2: apply Z.mul_pos_pos; apply Z.pow_pos_nonneg; lia.
  unfold numerator, denominator. change 10 with (2 * 5). rewrite !Z.pow_mul_l.
  assert (E : 2 ^ Z.max (x - e) 0 * (2 ^ Z.max (- x) 0 * 2 ^ Z.max e 0) =
              2 ^ Z.max x 0 * (2 ^ Z.max (- e) 0 * 2 ^ Z.max (e - x) 0)).
  { rewrite <- !Z.pow_add_r by lia. f_equal. lia. }
  set (a := 5 ^ Z.max (- e) 0). set (b := 5 ^ Z.max e 0).
  transitivity (m * a * b * (2 ^ Z.max (x - e) 0 * (2 ^ Z.max (- x) 0 * 2 ^ Z.max e 0))); [ring|]. rewrite E. ring.
Qed.

(** A float that is not NaN or infinite, with an exponent that is no giant, becomes the
    nearest decimal with that exponent, or itself, exactly, with a larger one. *)
Lemma NewFromFloat_nearest bits e : 0 <= bits < 2 ^ 64 → biased bits ≠ 2 ^ 11 - 1 → Z.abs e <= 2 ^ 30 →
  ∃ y, NewFromFloatWithExponent bits e = Ok y ∧
    let '(m, x) := float_parts bits in
    let r := if decide (sign_bit bits = 1) then - coef y else coef y in
    (m = 0 ∧ r = 0) ∨ e <= exp y ∧ nearest m x (exp y) r ∧
      (e < exp y → r * 2 ^ Z.max (- x) 0 = m * 2 ^ Z.max x 0 * 10 ^ (- exp y)).
Proof.
  intros Hb Hn He. unfold NewFromFloatWithExponent. rewrite decide_False by done.
  pose proof (mantissa_range bits) as Hm. pose proof (biased_range bits) as Hbi.
  change (2 ^ 52) with 4503599627370496 in Hm. change (2 ^ 11) with 2048 in Hbi.
  case_decide as Hz.
  { eexists. split; [done|]. unfold float_parts. rewrite decide_True by tauto. left. split; [tauto|]. cbn. by case_decide. }
  rewrite mantissa_lor. set (mx := if decide (biased bits = 0) then (mantissa bits, 1) else _).
  assert (Hmx : float_parts bits = (mx.1, mx.2 - 1075) ∧ 0 < mx.1 ∧ 1 <= mx.2 <= 2048).
  { unfold float_parts, mx. case_decide; cbn; (split; [done|]); lia. }
  destruct mx as [m0 x0]. destruct Hmx as (-> & Hm0 & Hx0). cbn [fst snd] in *. change (1023 + 52) with 1075.
  pose proof (normalize_spec 53 m0 (x0 - 1075) Hm0) as N. destruct (normalize 53 m0 (x0 - 1075)) as [m x].
  destruct N as (Nm & Nx & Ne). change (Z.of_nat 53) with 53 in Nx. set (e' := if decide _ then _ else e).
  assert (He' : e <= e' ∧ Z.abs e' <= 2 ^ 30 ∧ (e < e' → e' <= 0 ∧ e' <= x)) by (unfold e'; case_decide; lia). clearbody e'.
  change (2 ^ 30) with 1073741824 in *.
  eexists. split; [done|]. cbn zeta. right. change (exp (New ?v e')) with e'.
  set (D := scale_float m x e').
  assert (Hr : (if decide (sign_bit bits = 1) then - coef (New (if decide (sign_bit bits = 1) then - D else D) e')
                else coef (New (if decide (sign_bit bits = 1) then - D else D) e')) = D) by (case_decide; cbn; lia).
  rewrite Hr. split; [lia|].
  assert (HN : nearest m0 (x0 - 1075) e' D).
  { apply (nearest_normalized m x); [lia|done|]. apply scale_float_nearest; [done|]. unfold MinInt32, MaxInt32. lia. }
  split; [done|]. intros Hlt. destruct He' as (_ & _ & He'). destruct (He' Hlt) as [H0 H1].
  assert (HD : D = numerator m x e').
  { pose proof (scale_float_fraction m x e' Nm ltac:(unfold MinInt32, MaxInt32; lia)) as F.
    assert (HT : denominator x e' = 1) by (unfold denominator; by rewrite !Z.max_r by lia). rewrite HT in F.
    apply (rounded_unique HalfAway 1 (numerator m x e')); [lia|exact F|]. 
    pose proof (rounded_exact HalfAway 1 (numerator m x e') ltac:(lia)) as X. by rewrite Z.mul_1_r in X. }
  rewrite HD, Ne. unfold numerator. rewrite (Z.max_l (- e')), (Z.max_l (x - e')) by lia.
  change 10 with (2 * 5). rewrite Z.pow_mul_l.
  assert (E : 2 ^ (x - e') * 2 ^ Z.max (- (x0 - 1075)) 0 = 2 ^ (x - (x0 - 1075)) * (2 ^ Z.max (x0 - 1075) 0 * 2 ^ (- e'))).
  { rewrite <- !Z.pow_add_r by lia. f_equal. lia. }
  transitivity (m * 5 ^ (- e') * (2 ^ (x - e') * 2 ^ Z.max (- (x0 - 1075)) 0)); [ring|]. rewrite E. ring.
Qed.
