(* ===== verification/XCache.v ===== *)
(** * utils/xcache: a cache whose items expire

    xcache.go and sharded.go.  An operation takes the time in nanoseconds that
    [time.Now] gives it; it holds the lock from its first access to its last and
    is one step.  What [onEvicted] is called with is returned.  Floats are their
    bits, and their arithmetic is a parameter; the order in which a Go map is
    gone through is that of [map_to_list], where it shows at all. *)
From S2P Require Import Prelude.
From stdpp Require Import fin_maps.
#[local] Close Scope nat_scope.
Open Scope Z_scope.

Definition key : Type := list Z.

(** ** Values *)

Inductive kind := KInt | KInt8 | KInt16 | KInt32 | KInt64 | KUint | KUintptr | KUint8 | KUint16 | KUint32 | KUint64.
#[export] Instance kind_dec : EqDecision kind := ltac:(solve_decision).

Definition wrap (kd : kind) : Z → Z :=
  match kd with
  | KInt | KInt64 => wrapS 64
  | KInt8 => wrapS 8
  | KInt16 => wrapS 16
  | KInt32 => wrapS 32
  | KUint | KUintptr | KUint64 => wrapU 64
  | KUint8 => wrapU 8
  | KUint16 => wrapU 16
  | KUint32 => wrapU 32
  end.

Inductive any :=
  | AInt (kd : kind) (z : Z)
  | AFloat32 (bits : Z)
  | AFloat64 (bits : Z)
  | AOther (id : Z).
#[export] Instance any_dec : EqDecision any := ltac:(solve_decision).

Record Item := mkItem { Object : any; Expiration : Z }.

Definition NoExpiration : Z := -1.
Definition DefaultExpiration : Z := 0.

(** [onEvicted]: whether a callback is set. *)
Record xcache := mkCache {
  defaultExpiration : Z;
  items : gmap key Item;
  onEvicted : bool;
}.
Definition set_items x (c : xcache) := mkCache (defaultExpiration c) x (onEvicted c).

(** ** Expiry *)

Definition Expired (now : Z) (item : Item) : bool :=
  if decide (Expiration item = 0) then false else Expiration item <? now.
(** The check that the other methods write out. *)
Definition stale (now : Z) (item : Item) : bool := (0 <? Expiration item) && (Expiration item <? now).

(** ** Writing and reading *)

(** [UnixNano] of a time that is far away wraps around. *)
Definition expiration (now d : Z) (c : xcache) : Z :=
  let d := if decide (d = DefaultExpiration) then defaultExpiration c else d in
  if decide (d > 0) then wrapS 64 (now + d) else 0.

Definition set (now : Z) (k : key) (x : any) (d : Z) (c : xcache) : xcache :=
  set_items (<[k := mkItem x (expiration now d c)]> (items c)) c.
Definition Set_ := set.
Definition SetDefault (now : Z) (k : key) (x : any) : xcache → xcache := Set_ now k x DefaultExpiration.

Definition get (now : Z) (k : key) (c : xcache) : option any :=
  match items c !! k with
  | Some item => if stale now item then None else Some (Object item)
  | None => None
  end.
Definition Get := get.

(** With the expiration, if there is one. *)
Definition GetWithExpiration (now : Z) (k : key) (c : xcache) : option (any * option Z) :=
  match items c !! k with
  | Some item =>
      if decide (Expiration item > 0) then
        if Expiration item <? now then None else Some (Object item, Some (Expiration item))
      else Some (Object item, None)
  | None => None
  end.

Definition Add (now : Z) (k : key) (x : any) (d : Z) (c : xcache) : xcache * outcome unit :=
  match get now k c with
  | Some _ => (c, Err ErrItemExists)
  | None => (set now k x d c, Ok ())
  end.
Definition Replace (now : Z) (k : key) (x : any) (d : Z) (c : xcache) : xcache * outcome unit :=
  match get now k c with
  | None => (c, Err ErrItemNotFound)
  | Some _ => (set now k x d c, Ok ())
  end.

(** ** Counting *)

(** The frame of all increments and decrements: [f] gives the new value and the
    result, or nothing when the type is not the right one. *)
Definition modify_item {A} (now : Z) (k : key) (f : any → option (any * A)) (c : xcache) : xcache * outcome A :=
  match items c !! k with
  | Some v =>
      if Expired now v then (c, Err ErrItemNotFound) else
      match f (Object v) with
      | Some (x, r) => (set_items (<[k := mkItem x (Expiration v)]> (items c)) c, Ok r)
      | None => (c, Err ErrItemType)
      end
  | None => (c, Err ErrItemNotFound)
  end.

(** Addition and subtraction of float32 and float64, and the conversions. *)
Class FloatOps := {
  op32 : bool → Z → Z → Z;
  op64 : bool → Z → Z → Z;
  f32_of_int : Z → Z;
  f64_of_int : Z → Z;
  f32_of_f64 : Z → Z;
}.

Section floats.
Context `{FloatOps}.

(** [neg]: a decrement. *)
Definition op_int (neg : bool) (kd : kind) (a b : Z) : Z := wrap kd (if neg then a - b else a + b).

Definition by_int (neg : bool) (n : Z) (o : any) : option (any * unit) :=
  match o with
  | AInt kd z => Some (AInt kd (op_int neg kd z (wrap kd n)), ())
  | AFloat32 b => Some (AFloat32 (op32 neg b (f32_of_int n)), ())
  | AFloat64 b => Some (AFloat64 (op64 neg b (f64_of_int n)), ())
  | AOther _ => None
  end.
Definition by_float (neg : bool) (n : Z) (o : any) : option (any * unit) :=
  match o with
  | AFloat32 b => Some (AFloat32 (op32 neg b (f32_of_f64 n)), ())
  | AFloat64 b => Some (AFloat64 (op64 neg b n), ())
  | _ => None
  end.
Definition by_kind (neg : bool) (kd : kind) (n : Z) (o : any) : option (any * Z) :=
  match o with
  | AInt kd' rv => if decide (kd' = kd) then let nv := op_int neg kd rv n in Some (AInt kd nv, nv) else None
  | _ => None
  end.
Definition by_float32 (neg : bool) (n : Z) (o : any) : option (any * Z) :=
  match o with AFloat32 rv => let nv := op32 neg rv n in Some (AFloat32 nv, nv) | _ => None end.
Definition by_float64 (neg : bool) (n : Z) (o : any) : option (any * Z) :=
  match o with AFloat64 rv => let nv := op64 neg rv n in Some (AFloat64 nv, nv) | _ => None end.

Definition Increment (now : Z) (k : key) (n : Z) := modify_item now k (by_int false n).
Definition IncrementFloat (now : Z) (k : key) (n : Z) := modify_item now k (by_float false n).
Definition IncrementInt (now : Z) (k : key) (n : Z) := modify_item now k (by_kind false KInt n).
Definition IncrementInt8 (now : Z) (k : key) (n : Z) := modify_item now k (by_kind false KInt8 n).
Definition IncrementInt16 (now : Z) (k : key) (n : Z) := modify_item now k (by_kind false KInt16 n).
Definition IncrementInt32 (now : Z) (k : key) (n : Z) := modify_item now k (by_kind false KInt32 n).
Definition IncrementInt64 (now : Z) (k : key) (n : Z) := modify_item now k (by_kind false KInt64 n).
Definition IncrementUint (now : Z) (k : key) (n : Z) := modify_item now k (by_kind false KUint n).
Definition IncrementUintptr (now : Z) (k : key) (n : Z) := modify_item now k (by_kind false KUintptr n).
Definition IncrementUint8 (now : Z) (k : key) (n : Z) := modify_item now k (by_kind false KUint8 n).
Definition IncrementUint16 (now : Z) (k : key) (n : Z) := modify_item now k (by_kind false KUint16 n).
Definition IncrementUint32 (now : Z) (k : key) (n : Z) := modify_item now k (by_kind false KUint32 n).
Definition IncrementUint64 (now : Z) (k : key) (n : Z) := modify_item now k (by_kind false KUint64 n).
Definition IncrementFloat32 (now : Z) (k : key) (n : Z) := modify_item now k (by_float32 false n).
Definition IncrementFloat64 (now : Z) (k : key) (n : Z) := modify_item now k (by_float64 false n).

Definition Decrement (now : Z) (k : key) (n : Z) := modify_item now k (by_int true n).
Definition DecrementFloat (now : Z) (k : key) (n : Z) := modify_item now k (by_float true n).
Definition DecrementInt (now : Z) (k : key) (n : Z) := modify_item now k (by_kind true KInt n).
Definition DecrementInt8 (now : Z) (k : key) (n : Z) := modify_item now k (by_kind true KInt8 n).
Definition DecrementInt16 (now : Z) (k : key) (n : Z) := modify_item now k (by_kind true KInt16 n).
Definition DecrementInt32 (now : Z) (k : key) (n : Z) := modify_item now k (by_kind true KInt32 n).
Definition DecrementInt64 (now : Z) (k : key) (n : Z) := modify_item now k (by_kind true KInt64 n).
Definition DecrementUint (now : Z) (k : key) (n : Z) := modify_item now k (by_kind true KUint n).
Definition DecrementUintptr (now : Z) (k : key) (n : Z) := modify_item now k (by_kind true KUintptr n).
Definition DecrementUint8 (now : Z) (k : key) (n : Z) := modify_item now k (by_kind true KUint8 n).
Definition DecrementUint16 (now : Z) (k : key) (n : Z) := modify_item now k (by_kind true KUint16 n).
Definition DecrementUint32 (now : Z) (k : key) (n : Z) := modify_item now k (by_kind true KUint32 n).
Definition DecrementUint64 (now : Z) (k : key) (n : Z) := modify_item now k (by_kind true KUint64 n).
Definition DecrementFloat32 (now : Z) (k : key) (n : Z) := modify_item now k (by_float32 true n).
Definition DecrementFloat64 (now : Z) (k : key) (n : Z) := modify_item now k (by_float64 true n).
End floats.

(** ** Removing *)

(** [delete]: what is evicted, if there is a callback to tell. *)
Definition delete_ (k : key) (c : xcache) : xcache * option any :=
  (set_items (delete k (items c)) c, if onEvicted c then Object <$> items c !! k else None).
Definition Delete (k : key) (c : xcache) : xcache * list (key * any) :=
  let '(c, v) := delete_ k c in (c, match v with Some x => [(k, x)] | None => [] end).

(** The loop over the items; deleting the one it is at does not disturb it. *)
Definition expire (now : Z) (s : xcache * list (key * any)) (kv : key * Item) : xcache * list (key * any) :=
  let '(c, evictedItems) := s in let '(k, v) := kv in
  if stale now v then
    let '(c, ov) := delete_ k c in (c, match ov with Some x => evictedItems ++ [(k, x)] | None => evictedItems end)
  else (c, evictedItems).
Definition DeleteExpired (now : Z) (c : xcache) : xcache * list (key * any) :=
  foldl (expire now) (c, []) (map_to_list (items c)).

Definition OnEvicted (f : bool) (c : xcache) : xcache := mkCache (defaultExpiration c) (items c) f.

(** ** The whole *)

(** What [Load] does with the items it has decoded. *)
Definition load_one (now : Z) (m : gmap key Item) (kv : key * Item) : gmap key Item :=
  match m !! kv.1 with
  | Some ov => if Expired now ov then <[kv.1 := kv.2]> m else m
  | None => <[kv.1 := kv.2]> m
  end.
Definition Load (now : Z) (decoded : gmap key Item) (c : xcache) : xcache :=
  set_items (foldl (load_one now) (items c) (map_to_list decoded)) c.

Definition Items (now : Z) (c : xcache) : gmap key Item := filter (λ kv, stale now kv.2 = false) (items c).
Definition ItemCount (c : xcache) : nat := size (items c).
Definition Flush (c : xcache) : xcache := set_items ∅ c.

Definition newCache (de : Z) (m : gmap key Item) : xcache :=
  mkCache (if decide (de = 0) then -1 else de) m false.
Definition New (de : Z) : xcache := newCache de ∅.
Definition NewFrom (de : Z) (m : gmap key Item) : xcache := newCache de m.

(** ** Shards *)

Record shardedCache := mkSharded { seed : Z; m : Z; cs : list xcache }.

(** A step of the hash: the product wraps, the exclusive or does not. *)
Definition djb33_step (hash c : Z) : Z := Z.lxor (wrapU 32 (hash * 33)) c.
Definition djb33 (seed : Z) (k : key) : Z :=
  let hash := foldl djb33_step (wrapU 32 (5381 + seed + wrapU 32 (len k))) k in
  Z.lxor hash (Z.shiftr hash 16).
Definition bucket (k : key) (sc : shardedCache) : nat := Z.to_nat (djb33 (seed sc) k mod m sc).

Definition newShardedCache (sd n de : Z) : outcome shardedCache :=
  if decide (n <= 0) then Panic
  else mret (mkSharded sd (wrapU 32 n) (replicate (Z.to_nat n) (mkCache de ∅ false))).
Definition unexportedNewSharded (sd de n : Z) : outcome shardedCache :=
  newShardedCache sd n (if decide (de = 0) then -1 else de).

(** An operation on the shard of its key; the index is in range ([bucket_lt]). *)
Definition on_shard {A} (k : key) (f : xcache → xcache * A) (sc : shardedCache) : shardedCache * option A :=
  match cs sc !! bucket k sc with
  | Some c => let '(c, r) := f c in (mkSharded (seed sc) (m sc) (<[bucket k sc := c]> (cs sc)), Some r)
  | None => (sc, None)
  end.
Definition on_shards (f : xcache → xcache) (sc : shardedCache) : shardedCache :=
  mkSharded (seed sc) (m sc) (f <$> cs sc).

Section sharded.
Context `{FloatOps}.
Definition sh_Set (now : Z) (k : key) (x : any) (d : Z) := on_shard k (λ c, (set now k x d c, ())).
Definition sh_Add (now : Z) (k : key) (x : any) (d : Z) := on_shard k (Add now k x d).
Definition sh_Replace (now : Z) (k : key) (x : any) (d : Z) := on_shard k (Replace now k x d).
Definition sh_Get (now : Z) (k : key) := on_shard k (λ c, (c, get now k c)).
Definition sh_Increment (now : Z) (k : key) (n : Z) := on_shard k (Increment now k n).
Definition sh_IncrementFloat (now : Z) (k : key) (n : Z) := on_shard k (IncrementFloat now k n).
Definition sh_Decrement (now : Z) (k : key) (n : Z) := on_shard k (Decrement now k n).
Definition sh_Delete (k : key) := on_shard k (Delete k).
Definition sh_DeleteExpired (now : Z) := on_shards (λ c, (DeleteExpired now c).1).
Definition sh_Items (now : Z) (sc : shardedCache) : list (gmap key Item) := Items now <$> cs sc.
Definition sh_Flush := on_shards Flush.
End sharded.

(** An item set for three centuries: its expiration wraps around, reading takes it
    for one that does not expire and counting for one that has. *)
Lemma overflowing_expiry (now := 1700000000000000000) (c := set now [107] (AInt KInt 1) (2 ^ 63 - 1) (New 0)) :
  get now [107] c = Some (AInt KInt 1) ∧ ∀ `{FloatOps}, (Increment now [107] 1 c).2 = Err ErrItemNotFound.
Proof. by vm_compute. Qed.
