(* ===== verification/XCacheMap.v ===== *)
(** * utils/xcache: a cache is a map with deadlines

    The specification never removes anything by itself: an item past its deadline
    is just not seen.  No client that looks at the clock can tell the cache from
    it, whenever the items are cleaned. *)
From stdpp Require Import fin_maps.
From S2P Require Import Prelude XCache.
#[local] Close Scope nat_scope.
Open Scope Z_scope.

(** ** Requests and answers *)

Inductive request :=
  | RSet (k : key) (x : any) (d : Z)
  | RAdd (k : key) (x : any) (d : Z)
  | RReplace (k : key) (x : any) (d : Z)
  | RGet (k : key)
  | RGetExp (k : key)
  | RInc (neg : bool) (k : key) (n : Z)
  | RIncFloat (neg : bool) (k : key) (n : Z)
  | RIncKind (neg : bool) (kd : kind) (k : key) (n : Z)
  | RIncFloat32 (neg : bool) (k : key) (n : Z)
  | RIncFloat64 (neg : bool) (k : key) (n : Z)
  | RDelete (k : key)
  | RClean
  | RItems
  | RLoad (decoded : gmap key Item)
  | RFlush.

Definition entry : Type := any * option Z.
Inductive answer :=
  | Done
  | Found (o : option any)
  | FoundExp (o : option entry)
  | Fails (e : error)
  | Number (z : Z)
  | All (m : gmap key entry).

Definition done_or (r : outcome unit) : answer := match r with Ok _ => Done | Err e => Fails e | Panic => Fails ErrUnknownError end.
Definition number_or (r : outcome Z) : answer := match r with Ok z => Number z | Err e => Fails e | Panic => Fails ErrUnknownError end.

(** An item as an entry: what it holds and its deadline. *)
Definition entry_of (i : Item) : entry := (Object i, if 0 <? Expiration i then Some (Expiration i) else None).

Section cache.
Context `{FloatOps}.

Definition serve (now : Z) (r : request) (c : xcache) : xcache * answer :=
  match r with
  | RSet k x d => (set now k x d c, Done)
  | RAdd k x d => let '(c, e) := Add now k x d c in (c, done_or e)
  | RReplace k x d => let '(c, e) := Replace now k x d c in (c, done_or e)
  | RGet k => (c, Found (get now k c))
  | RGetExp k => (c, FoundExp (GetWithExpiration now k c))
  | RInc neg k n => let '(c, e) := (if neg : bool then Decrement else Increment) now k n c in (c, done_or e)
  | RIncFloat neg k n => let '(c, e) := (if neg : bool then DecrementFloat else IncrementFloat) now k n c in (c, done_or e)
  | RIncKind neg kd k n => let '(c, e) := modify_item now k (by_kind neg kd n) c in (c, number_or e)
  | RIncFloat32 neg k n => let '(c, e) := (if neg : bool then DecrementFloat32 else IncrementFloat32) now k n c in (c, number_or e)
  | RIncFloat64 neg k n => let '(c, e) := (if neg : bool then DecrementFloat64 else IncrementFloat64) now k n c in (c, number_or e)
  | RDelete k => ((Delete k c).1, Done)
  | RClean => ((DeleteExpired now c).1, Done)
  | RItems => (c, All (entry_of <$> Items now c))
  | RLoad decoded => (Load now decoded c, Done)
  | RFlush => (Flush c, Done)
  end.

Fixpoint serve_all (rs : list (Z * request)) (c : xcache) : xcache * list answer :=
  match rs with
  | [] => (c, [])
  | (now, r) :: rs => let '(c, a) := serve now r c in let '(c, l) := serve_all rs c in (c, a :: l)
  end.

(** ** The specification *)

Definition alive (now : Z) (e : entry) : bool := match e.2 with Some dl => negb (dl <? now) | None => true end.
(** What is seen of an entry that may be past its deadline. *)
Definition seen (now : Z) (o : option entry) : option entry :=
  match o with Some e => if alive now e then Some e else None | None => None end.

Definition deadline (now de d : Z) : option Z :=
  let d := if decide (d = 0) then de else d in if decide (d > 0) then Some (now + d) else None.

Definition spec_modify {A} (now : Z) (k : key) (f : any → option (any * A)) (sp : gmap key entry) : gmap key entry * outcome A :=
  match seen now (sp !! k) with
  | None => (sp, Err ErrItemNotFound)
  | Some (x, dl) =>
      match f x with
      | None => (sp, Err ErrItemType)
      | Some (x, r) => (<[k := (x, dl)]> sp, Ok r)
      end
  end.

Definition spec (de now : Z) (r : request) (sp : gmap key entry) : gmap key entry * answer :=
  match r with
  | RSet k x d => (<[k := (x, deadline now de d)]> sp, Done)
  | RAdd k x d =>
      match seen now (sp !! k) with
      | Some _ => (sp, Fails ErrItemExists)
      | None => (<[k := (x, deadline now de d)]> sp, Done)
      end
  | RReplace k x d =>
      match seen now (sp !! k) with
      | Some _ => (<[k := (x, deadline now de d)]> sp, Done)
      | None => (sp, Fails ErrItemNotFound)
      end
  | RGet k => (sp, Found (fst <$> seen now (sp !! k)))
  | RGetExp k => (sp, FoundExp (seen now (sp !! k)))
  | RInc neg k n => let '(sp, e) := spec_modify now k (by_int neg n) sp in (sp, done_or e)
  | RIncFloat neg k n => let '(sp, e) := spec_modify now k (by_float neg n) sp in (sp, done_or e)
  | RIncKind neg kd k n => let '(sp, e) := spec_modify now k (by_kind neg kd n) sp in (sp, number_or e)
  | RIncFloat32 neg k n => let '(sp, e) := spec_modify now k (by_float32 neg n) sp in (sp, number_or e)
  | RIncFloat64 neg k n => let '(sp, e) := spec_modify now k (by_float64 neg n) sp in (sp, number_or e)
  | RDelete k => (delete k sp, Done)
  | RClean => (sp, Done)
  | RItems => (sp, All (filter (λ kv, alive now kv.2 = true) sp))
  | RLoad decoded =>
      (merge (λ l o, match seen now o with Some e => Some e | None => match l with Some i => Some (entry_of i) | None => None end end) decoded sp, Done)
  | RFlush => (∅, Done)
  end.
Fixpoint spec_all (de : Z) (rs : list (Z * request)) (sp : gmap key entry) : gmap key entry * list answer :=
  match rs with
  | [] => (sp, [])
  | (now, r) :: rs => let '(sp, a) := spec de now r sp in let '(sp, l) := spec_all de rs sp in (sp, a :: l)
  end.

(** ** The simulation *)

(** No expiration is negative, as long as the clock and the durations are such that
    none wraps around. *)
Definition sane (m : gmap key Item) : Prop := ∀ k i, m !! k = Some i → 0 <= Expiration i.
Definition in_time (now de d : Z) : Prop := 0 < now ∧ now + (if decide (d = 0) then de else d) < 2 ^ 63.
Definition request_ok (de now : Z) (r : request) : Prop :=
  match r with
  | RSet _ _ d | RAdd _ _ d | RReplace _ _ d => in_time now de d
  | RLoad decoded => sane decoded
  | _ => True
  end.

(** At [now] and later, the cache and the map show the same. *)
Record shows (now : Z) (c : xcache) (de : Z) (sp : gmap key entry) : Prop := {
  shows_sane : sane (items c);
  shows_default : defaultExpiration c = de;
  shows_seen k : seen now (entry_of <$> items c !! k) = seen now (sp !! k);
}.

Lemma alive_later now now' e : now <= now' → alive now' e = true → alive now e = true.
Proof. unfold alive. destruct e as [x [dl|]]; cbn; [|done]. rewrite !negb_true_iff, !Z.ltb_ge. lia. Qed.

Lemma seen_later now now' o o' : now <= now' → seen now o = seen now o' → seen now' o = seen now' o'.
Proof.
  intros Hn. assert (K : ∀ e, alive now e = false → alive now' e = false).
  { intros e He. apply not_true_iff_false. intros H'. apply not_true_iff_false in He. apply He. by eapply alive_later. }
  unfold seen. destruct o as [e|], o' as [e'|]; try done;
    repeat match goal with |- context [alive now ?e] => destruct (alive now e) eqn:? end; intros; simplify_eq; try done.
  all: by rewrite ?K.
Qed.

Lemma shows_later now now' c de sp : now <= now' → shows now c de sp → shows now' c de sp.
Proof. intros Hn [H1 H2 H3]. split; [done|done|]. intros k. by eapply seen_later. Qed.

Lemma stale_alive now i : stale now i = negb (alive now (entry_of i)).
Proof. unfold stale, alive, entry_of. cbn. destruct (Z.ltb_spec 0 (Expiration i)); cbn; [by rewrite negb_involutive|done]. Qed.

Lemma expired_alive now i : 0 <= Expiration i → Expired now i = negb (alive now (entry_of i)).
Proof.
  intros Hi. rewrite <- stale_alive. unfold Expired, stale. case_decide as Hd; [by rewrite Hd|].
  destruct (Z.ltb_spec 0 (Expiration i)); [done|lia].
Qed.

Lemma entry_set now x d c : in_time now (defaultExpiration c) d →
  entry_of (mkItem x (expiration now d c)) = (x, deadline now (defaultExpiration c) d) ∧ 0 <= expiration now d c.
Proof.
  intros [Hn Ht]. unfold entry_of, expiration, deadline, DefaultExpiration. cbn. set (d' := if decide (d = 0) then _ else d) in *.
  case_decide as Hd; [|done]. rewrite wrapS_id by (done || (unfold in_s; lia)).
  destruct (Z.ltb_spec 0 (now + d')); [split; [done|lia]|lia].
Qed.

Lemma get_seen now k c : get now k c = fst <$> seen now (entry_of <$> items c !! k).
Proof.
  unfold get. destruct (items c !! k) as [i|]; [|done]. cbn [fmap option_fmap option_map seen]. rewrite stale_alive.
  by destruct (alive now (entry_of i)).
Qed.

Lemma getexp_seen now k c : GetWithExpiration now k c = seen now (entry_of <$> items c !! k).
Proof.
  unfold GetWithExpiration. destruct (items c !! k) as [i|]; [|done]. cbn. unfold alive, entry_of. cbn.
  destruct (Z.ltb_spec 0 (Expiration i)), (decide (Expiration i > 0)); try lia; [|done]. by destruct (_ <? now).
Qed.

(** Writing one key. *)
Lemma shows_insert now c de sp k i e :
  shows now c de sp → entry_of i = e → 0 <= Expiration i →
  shows now (set_items (<[k := i]> (items c)) c) de (<[k := e]> sp).
Proof.
  intros [H1 H2 H3] <- Hi. split; [|done|].
  - intros k' i'. cbn. rewrite lookup_insert_Some. intros [[_ <-]|[_ Hk]]; [done|by eapply H1].
  - intros k'. cbn. destruct (decide (k = k')) as [<-|Hne]; [by rewrite !lookup_insert_eq|by rewrite !lookup_insert_ne].
Qed.

Lemma shows_modify {A} now k (f : any → option (any * A)) c de sp :
  shows now c de sp →
  let '(c', r) := modify_item now k f c in let '(sp', r') := spec_modify now k f sp in
  r = r' ∧ shows now c' de sp'.
Proof.
  intros Hs. pose proof Hs as [H1 H2 H3]. unfold modify_item, spec_modify. rewrite <- H3.
  destruct (items c !! k) as [i|] eqn:Ei; [|by split]. pose proof (H1 k i Ei) as Hi. cbn [fmap option_fmap option_map seen].
  rewrite (expired_alive now i Hi). destruct (alive now (entry_of i)); cbn [negb]; [|by split].
  unfold entry_of at 1. destruct (f (Object i)) as [[x r]|]; [|cbn; by split]. cbn.
  split; [done|]. by apply shows_insert.
Qed.

(** ** Cleaning *)

Lemma expire_items now l : ∀ c ev k,
  items (foldl (expire now) (c, ev) l).1 !! k =
    if decide (Exists (λ kv, kv.1 = k ∧ stale now kv.2 = true) l) then None else items c !! k.
Proof.
  induction l as [|[k' v] l IH]; intros c ev k; cbn [foldl].
  { rewrite decide_False; [done|]. by intros H1%Exists_nil. }
  cbn [expire]. destruct (stale now v) eqn:Es.
  - unfold delete_. rewrite IH. cbn. case_decide as Hd.
    + rewrite decide_True; [done|]. by right.
    + destruct (decide (k' = k)) as [<-|Hne].
      * rewrite lookup_delete_eq. rewrite decide_True; [done|]. left. by split.
      * rewrite lookup_delete_ne by done. rewrite decide_False; [done|].
        intros [[? _]|?]%Exists_cons; [done|by apply Hd].
  - rewrite IH. case_decide as Hd; [rewrite decide_True; [done|by right]|].
    rewrite decide_False; [done|]. intros [[_ H1]|H1]%Exists_cons; [cbn in H1; congruence|by apply Hd].
Qed.

Lemma DeleteExpired_items now c k :
  items (DeleteExpired now c).1 !! k = match items c !! k with Some v => if stale now v then None else Some v | None => None end.
Proof.
  unfold DeleteExpired. rewrite expire_items. case_decide as Hd.
  - apply Exists_exists in Hd as ([k' v] & Hin & [Hk Hs]). cbn in *. subst k'. apply elem_of_map_to_list in Hin.
    by rewrite Hin, Hs.
  - destruct (items c !! k) as [v|] eqn:Ev; [|done]. destruct (stale now v) eqn:Es; [|done]. exfalso. apply Hd, Exists_exists.
    exists (k, v). split; [by apply elem_of_map_to_list|done].
Qed.

Lemma DeleteExpired_rest now c :
  defaultExpiration (DeleteExpired now c).1 = defaultExpiration c ∧ onEvicted (DeleteExpired now c).1 = onEvicted c.
Proof.
  unfold DeleteExpired. generalize (map_to_list (items c)). intros l. generalize (@nil (key * any)). revert c.
  induction l as [|[k v] l IH]; intros c ev; [done|]. cbn [foldl expire]. destruct (stale now v); [|apply IH].
  unfold delete_. destruct (IH (set_items (delete k (items c)) c) (match (if onEvicted c then Object <$> items c !! k else None) with Some x => ev ++ [(k, x)] | None => ev end)) as [-> ->]. done.
Qed.

(** Each stale item is told to the callback once, with what it held. *)
Lemma DeleteExpired_told now c :
  (DeleteExpired now c).2 =
    if onEvicted c then (λ kv, (kv.1, Object kv.2)) <$> filter (λ kv, stale now kv.2 = true) (map_to_list (items c)) else [].
Proof.
  unfold DeleteExpired.
  assert (K : ∀ l c ev, NoDup l.*1 → (∀ k v, (k, v) ∈ l → items c !! k = Some v) →
    (foldl (expire now) (c, ev) l).2 =
      ev ++ if onEvicted c then (λ kv, (kv.1, Object kv.2)) <$> filter (λ kv, stale now kv.2 = true) l else []).
  { clear c. induction l as [|[k v] l IH]; intros c ev Hnd Hl; cbn [foldl].
    { destruct (onEvicted c); by rewrite app_nil_r. }
    cbn [fmap list_fmap] in Hnd. apply NoDup_cons in Hnd as [Hk Hnd]. cbn [expire].
    assert (Hl' : ∀ k' v', (k', v') ∈ l → delete k (items c) !! k' = Some v').
    { intros k' v' Hin. rewrite lookup_delete_ne; [apply Hl; by right|]. intros ->. apply Hk.
      apply list_elem_of_fmap. by exists (k', v'). }
    rewrite filter_cons. cbn. destruct (stale now v) eqn:Es.
    - unfold delete_. rewrite (Hl k v) by (by left). rewrite IH by done. cbn.
      destruct (onEvicted c); [by rewrite <- app_assoc|done].
    - apply IH; [done|]. intros k' v' Hin. apply Hl. by right. }
  rewrite K; [done|apply NoDup_fst_map_to_list|]. intros k v. by rewrite elem_of_map_to_list.
Qed.

(** ** Loading *)

Lemma load_lookup now decoded items0 k :
  foldl (load_one now) items0 (map_to_list decoded) !! k =
    match decoded !! k with
    | Some v => match items0 !! k with Some ov => if Expired now ov then Some v else Some ov | None => Some v end
    | None => items0 !! k
    end.
Proof.
  assert (K : ∀ l m, NoDup l.*1 → foldl (load_one now) m l !! k =
    match (list_to_map l : gmap key Item) !! k with
    | Some v => match m !! k with Some ov => if Expired now ov then Some v else Some ov | None => Some v end
    | None => m !! k
    end).
  { induction l as [|[k' v] l IH]; intros m Hnd; cbn [foldl]; [by rewrite list_to_map_nil, lookup_empty|].
    cbn [fmap list_fmap] in Hnd. apply NoDup_cons in Hnd as [Hk Hnd]. cbn in Hk.
    rewrite IH by done. rewrite list_to_map_cons. destruct (decide (k' = k)) as [->|Hne].
    - rewrite lookup_insert_eq. rewrite (not_elem_of_list_to_map_1 l k) by done. unfold load_one. cbn.
      destruct (m !! k) as [ov|] eqn:Em; [destruct (Expired now ov)|]; by rewrite ?lookup_insert_eq.
    - rewrite lookup_insert_ne by done. unfold load_one. cbn.
      destruct (m !! k') as [ov|]; [destruct (Expired now ov)|]; by rewrite ?lookup_insert_ne by done. }
  rewrite K by apply NoDup_fst_map_to_list. by rewrite list_to_map_to_list.
Qed.

(** ** Every request *)

Lemma shows_request now r c de sp : shows now c de sp → request_ok de now r →
  let '(c', a) := serve now r c in let '(sp', a') := spec de now r sp in a = a' ∧ shows now c' de sp'.
Proof.
  intros Hs Hr. pose proof Hs as [H1 H2 H3].
  assert (Hset : ∀ k x d, in_time now de d → shows now (set now k x d c) de (<[k := (x, deadline now de d)]> sp)).
  { intros k x d Ht. rewrite <- H2 in Ht. destruct (entry_set now x d c Ht) as [E E0]. rewrite <- H2. rewrite <- E.
    apply shows_insert; [by rewrite H2|done|done]. }
  assert (Hmod : ∀ {A} k (f : any → option (any * A)) (g : outcome A → answer),
    let '(c', a) := (let '(c', e) := modify_item now k f c in (c', g e)) in
    let '(sp', a') := (let '(sp', e) := spec_modify now k f sp in (sp', g e)) in a = a' ∧ shows now c' de sp').
  { intros A k f g. pose proof (shows_modify now k f c de sp Hs) as K. destruct (modify_item now k f c), (spec_modify now k f sp).
    destruct K as [-> K]. by split. }
  destruct r as [k x d|k x d|k x d|k|k|neg k n|neg k n|neg kd k n|neg k n|neg k n|k| | |decoded|]; cbn [serve spec request_ok] in *.
  - split; [done|]. by apply Hset.
  - unfold Add. rewrite get_seen, H3. destruct (seen now (sp !! k)) as [e|]; cbn; [by split|]. split; [done|]. by apply Hset.
  - unfold Replace. rewrite get_seen, H3. destruct (seen now (sp !! k)) as [e|]; cbn; [|by split]. split; [done|]. by apply Hset.
  - split; [|done]. by rewrite get_seen, H3.
  - split; [|done]. by rewrite getexp_seen, H3.
  - destruct neg; apply Hmod.
  - destruct neg; apply Hmod.
  - apply Hmod.
  - destruct neg; apply Hmod.
  - destruct neg; apply Hmod.
  - split; [done|]. unfold Delete, delete_. cbn. split; cbn; [|done|].
    + intros k' i. rewrite lookup_delete_Some. intros [_ Hi]. by eapply H1.
    + intros k'. destruct (decide (k = k')) as [<-|Hne]; [by rewrite !lookup_delete_eq|]. by rewrite !lookup_delete_ne.
  - split; [done|]. split; [|by rewrite (proj1 (DeleteExpired_rest now c))|].
    + intros k i. rewrite DeleteExpired_items. destruct (items c !! k) as [v|] eqn:Ev; [|done].
      destruct (stale now v); [done|]. intros [= <-]. by eapply H1.
    + intros k. rewrite DeleteExpired_items, <- H3. destruct (items c !! k) as [v|]; [|done].
      rewrite stale_alive. cbn. destruct (alive now (entry_of v)) eqn:Ea; cbn; by rewrite ?Ea.
  - split; [|done]. f_equal. apply map_eq. intros k. rewrite lookup_fmap. unfold Items. rewrite !map_lookup_filter.
    specialize (H3 k). destruct (items c !! k) as [v|], (sp !! k) as [e|]; cbn in *; rewrite ?stale_alive.
    + destruct (alive now (entry_of v)) eqn:Ea, (alive now e) eqn:Ee; try done; cbn; by simplify_option_eq.
    + destruct (alive now (entry_of v)) eqn:Ea; by simplify_option_eq.
    + destruct (alive now e) eqn:Ee; by simplify_option_eq.
    + done.
  - split; [done|]. unfold Load. split; cbn; [|done|].
    + intros k i. rewrite load_lookup. destruct (decoded !! k) as [v|] eqn:Ed, (items c !! k) as [ov|] eqn:Ei; try done.
      * destruct (Expired now ov); intros [= <-]; [by eapply Hr|by eapply H1].
      * intros [= <-]. by eapply Hr.
      * intros [= <-]. by eapply H1.
    + intros k. rewrite load_lookup, lookup_merge. specialize (H3 k).
      destruct (decoded !! k) as [v|] eqn:Ed, (items c !! k) as [ov|] eqn:Ei, (sp !! k) as [e|]; cbn in *; try done.
      all: rewrite ?expired_alive by (by eapply H1).
      all: repeat match goal with
           | |- context [if alive ?t ?e then _ else _] => destruct (alive t e) eqn:?
           | H3 : context [if alive ?t ?e then _ else _] |- _ => destruct (alive t e) eqn:?
           end; cbn in *; simplify_eq; try done.
      all: repeat match goal with E : alive _ _ = _ |- _ => rewrite E; clear E end; done.
  - split; [done|]. split; cbn; [|done|done]. intros k i. by rewrite lookup_empty.
Qed.

(** ** Any sequence of requests *)

(** The clock does not go back, and no expiration wraps around. *)
Fixpoint trace_ok (de t : Z) (rs : list (Z * request)) : Prop :=
  match rs with [] => True | (now, r) :: rs => t <= now ∧ request_ok de now r ∧ trace_ok de now rs end.

Lemma serve_all_spec de rs : ∀ t c sp, shows t c de sp → trace_ok de t rs →
  (serve_all rs c).2 = (spec_all de rs sp).2.
Proof.
  induction rs as [|[now r] rs IH]; intros t c sp Hs Ht; [done|]. destruct Ht as (Hle & Hr & Ht).
  cbn [serve_all spec_all]. pose proof (shows_request now r c de sp (shows_later _ _ _ _ _ Hle Hs) Hr) as K.
  destruct (serve now r c) as [c' a], (spec de now r sp) as [sp' a']. destruct K as [-> K].
  specialize (IH now c' sp' K Ht). destruct (serve_all rs c') as [? l], (spec_all de rs sp') as [? l']. cbn in *. by rewrite IH.
Qed.

Lemma shows_new t de m : sane m → shows t (NewFrom de m) (if decide (de = 0) then -1 else de) (entry_of <$> m).
Proof. intros Hm. split; [done|done|]. intros k. by rewrite lookup_fmap. Qed.


(** Cleaning removes the items that are past their deadline and no other, and tells
    the callback of each of them, when there is one. *)
Lemma cleaning_exact now c :
  (∀ k, items (DeleteExpired now c).1 !! k =
     match items c !! k with Some v => if stale now v then None else Some v | None => None end) ∧
  (DeleteExpired now c).2 =
    if onEvicted c then (λ kv, (kv.1, Object kv.2)) <$> filter (λ kv, stale now kv.2 = true) (map_to_list (items c)) else [].
Proof. split; [intros k; apply DeleteExpired_items|apply DeleteExpired_told]. Qed.
End cache.

(** Floats are left as they are, for the example. *)
Definition no_floats : FloatOps := {| op32 _ a _ := a; op64 _ a _ := a; f32_of_int z := z; f64_of_int z := z; f32_of_f64 z := z |}.
Definition demo_requests : list (Z * request) :=
  [(10, RSet [1] (AInt KInt8 127) 5); (11, RIncKind false KInt8 [1] 1); (12, RAdd [1] (AOther 0) 0);
   (15, RGet [1]); (16, RGet [1]); (16, RAdd [1] (AInt KUint 0) 0); (17, RInc true [1] 1); (18, RClean); (19, RItems)].

Example demo_answers : take 7 (@serve_all no_floats demo_requests (NewFrom 0 ∅)).2 =
  [Done; Number (-128); Fails ErrItemExists; Found (Some (AInt KInt8 (-128))); Found None; Done; Done].
Proof. by vm_compute. Qed.
