(* ===== verification/XCacheShards.v ===== *)
(** * utils/xcache: shards

    The shards of sharded.go together are one cache: each key has one shard, and
    what is asked of it there is answered as by the one map of [XCacheMap]. *)
From stdpp Require Import fin_maps.
From S2P Require Import Prelude XCache XCacheMap.
#[local] Close Scope nat_scope.
Open Scope Z_scope.

(** ** The hash *)

(** The index is that of a shard, so that [bucket] does not panic. *)
Lemma bucket_lt k sc : 0 < m sc → (bucket k sc < Z.to_nat (m sc))%nat.
Proof. intros Hm. unfold bucket. pose proof (Z.mod_pos_bound (djb33 (seed sc) k) (m sc) Hm). lia. Qed.

Section shards.
Context `{FloatOps}.

(** ** Requests *)

(** The requests that the sharded cache has. *)
Definition keyed (r : request) : option key :=
  match r with
  | RSet k _ _ | RAdd k _ _ | RReplace k _ _ | RGet k | RDelete k | RInc _ k _ | RIncFloat false k _ => Some k
  | _ => None
  end.

Definition sh_serve (now : Z) (r : request) (sc : shardedCache) : shardedCache * option answer :=
  match r with
  | RSet k x d => let '(sc, r) := sh_Set now k x d sc in (sc, option_map (λ _, Done) r)
  | RAdd k x d => let '(sc, r) := sh_Add now k x d sc in (sc, option_map done_or r)
  | RReplace k x d => let '(sc, r) := sh_Replace now k x d sc in (sc, option_map done_or r)
  | RGet k => let '(sc, r) := sh_Get now k sc in (sc, option_map Found r)
  | RInc neg k n => let '(sc, r) := (if neg : bool then sh_Decrement else sh_Increment) now k n sc in (sc, option_map done_or r)
  | RIncFloat false k n => let '(sc, r) := sh_IncrementFloat now k n sc in (sc, option_map done_or r)
  | RDelete k => let '(sc, r) := sh_Delete k sc in (sc, option_map (λ _, Done) r)
  | RClean => (sh_DeleteExpired now sc, Some Done)
  | RItems => (sc, Some (All (union_list (map (λ m : gmap key Item, entry_of <$> m) (sh_Items now sc)))))
  | RFlush => (sh_Flush sc, Some Done)
  | _ => (sc, None)
  end.

Lemma on_shard_serve k r now sc c :
  keyed r = Some k → cs sc !! bucket k sc = Some c →
  sh_serve now r sc =
    let '(c', a) := serve now r c in (mkSharded (seed sc) (m sc) (<[bucket k sc := c']> (cs sc)), Some a).
Proof.
  intros Hr Hc. destruct r; cbn in Hr; simplify_eq; cbn [sh_serve serve];
    unfold sh_Set, sh_Add, sh_Replace, sh_Get, sh_Increment, sh_IncrementFloat, sh_Decrement, sh_Delete, on_shard.
  - by rewrite Hc.
  - rewrite Hc. by destruct (Add now k x d c).
  - rewrite Hc. by destruct (Replace now k x d c).
  - by rewrite Hc.
  - destruct neg; rewrite Hc; [by destruct (Decrement now k n c)|by destruct (Increment now k n c)].
  - destruct neg; [done|]. injection Hr as ->. rewrite Hc. by destruct (IncrementFloat now k n c).
  - rewrite Hc. by destruct (Delete k c).
Qed.

(** ** The part of the map that one shard has *)

Definition part (sc : shardedCache) (j : nat) (sp : gmap key entry) : gmap key entry :=
  filter (λ kv, bucket kv.1 sc = j) sp.

Lemma part_lookup sc j sp k : part sc j sp !! k = if decide (bucket k sc = j) then sp !! k else None.
Proof. unfold part. rewrite map_lookup_filter. destruct (sp !! k); cbn; repeat case_guard; by simplify_option_eq. Qed.

(** A request for a key asks and changes only the entry of that key. *)
Lemma spec_entry de now r k sp sp' :
  keyed r = Some k → sp !! k = sp' !! k →
  (spec de now r sp).2 = (spec de now r sp').2 ∧ (spec de now r sp).1 !! k = (spec de now r sp').1 !! k ∧
  ∀ k', k' ≠ k → (spec de now r sp).1 !! k' = sp !! k'.
Proof.
  intros Hr Hk. destruct r; cbn in Hr; try (destruct neg; [done|]); simplify_eq; cbn [spec]; unfold spec_modify;
    try destruct neg; rewrite ?Hk; repeat case_match; simplify_eq; cbn;
    rewrite ?lookup_insert_eq, ?lookup_delete_eq; split_and!; try done; intros k' Hk'; by rewrite ?lookup_insert_ne, ?lookup_delete_ne by done.
Qed.

Lemma shows_ext now c de sp sp' : (∀ k, sp !! k = sp' !! k) → shows now c de sp → shows now c de sp'.
Proof. intros E [H1 H2 H3]. split; [done|done|]. intros k. by rewrite <- E. Qed.

Record sh_shows (now : Z) (sc : shardedCache) (de : Z) (sp : gmap key entry) : Prop := {
  sh_size : 0 < m sc ∧ length (cs sc) = Z.to_nat (m sc);
  sh_part j c : cs sc !! j = Some c → shows now c de (part sc j sp);
}.

Lemma union_lookup {A} (Ms : list (gmap key A)) (k : key) (t : option A) (n : nat) : ∀ off,
  (∀ j M, Ms !! j = Some M → M !! k = if decide (n = off + j)%nat then t else None) →
  (off <= n < off + length Ms)%nat → union_list Ms !! k = t.
Proof.
  induction Ms as [|M Ms IH]; intros off HM Hn; cbn in *; [lia|]. rewrite lookup_union.
  pose proof (HM 0%nat M eq_refl) as H0. rewrite H0. destruct (decide (n = off + 0)%nat) as [E|E].
  - replace (union_list Ms !! k) with (@None A); [by destruct t|]. symmetry. clear IH Hn H0.
    assert (K : ∀ j M', Ms !! j = Some M' → M' !! k = None).
    { intros j M' Hj. rewrite (HM (S j) M' Hj). by rewrite decide_False by lia. }
    clear HM. induction Ms as [|M' Ms IH]; [apply lookup_empty|]. cbn. rewrite lookup_union.
    rewrite (K 0%nat M' eq_refl), IH; [done|]. intros j M'' Hj. by apply (K (S j)).
  - rewrite (IH (S off)); [by destruct t| |lia]. intros j M' Hj. rewrite (HM (S j) M' Hj).
    by replace (S off + j)%nat with (off + S j)%nat by lia.
Qed.

Lemma sh_shows_request now r sc de sp :
  sh_shows now sc de sp → request_ok de now r → (is_Some (keyed r) ∨ r = RClean ∨ r = RItems ∨ r = RFlush) →
  let '(sc', a) := sh_serve now r sc in let '(sp', a') := spec de now r sp in a = Some a' ∧ sh_shows now sc' de sp'.
Proof.
  intros [[Hm Hl] Hp] Hr Hk. destruct Hk as [[k Hk]|[->|[->| ->]]].
  - pose proof (bucket_lt k sc Hm) as Hb. rewrite <- Hl in Hb. apply lookup_lt_is_Some in Hb as [c Hc].
    rewrite (on_shard_serve k r now sc c Hk Hc).
    pose proof (shows_request now r c de _ (Hp _ c Hc) Hr) as K.
    assert (Ek : sp !! k = part sc (bucket k sc) sp !! k) by (by rewrite part_lookup, decide_True).
    destruct (spec_entry de now r k sp _ Hk Ek) as (E1 & E2 & E3).
    pose proof (spec_entry de now r k _ sp Hk (eq_sym Ek)) as (_ & _ & E4).
    destruct (serve now r c) as [c' a], (spec de now r sp) as [sp' a'], (spec de now r (part sc (bucket k sc) sp)) as [spp ap].
    cbn [fst snd] in *. destruct K as [-> K]. split; [by f_equal|]. split; cbn; [by rewrite length_insert|].
    intros j c0. rewrite list_lookup_insert_Some. intros [(<- & <- & _)|[Hne Hj]].
    + eapply shows_ext; [|exact K]. intros k'. rewrite part_lookup. unfold bucket. cbn. fold (bucket k' sc). fold (bucket k sc).
      destruct (decide (k' = k)) as [->|Hk']; [by rewrite decide_True by done|].
      rewrite E4, part_lookup, E3 by done. done.
    + eapply shows_ext; [|by apply Hp]. intros k'. rewrite !part_lookup. unfold bucket. cbn. fold (bucket k' sc).
      case_decide as Hd; [|done]. destruct (decide (k' = k)) as [->|Hk']; [done|]. by rewrite E3.
  - cbn. split; [done|]. split; cbn; [by rewrite length_fmap|]. intros j c'. rewrite list_lookup_fmap.
    destruct (cs sc !! j) as [c|] eqn:Ej; [|done]. intros [= <-]. cbn.
    pose proof (shows_request now RClean c de _ (Hp j c Ej) Hr) as [_ K]. exact K.
  - cbn. split; [|by split]. do 2 f_equal. apply map_eq. intros k.
    apply (union_lookup _ _ _ (bucket k sc) 0%nat).
    + intros j M. unfold sh_Items. rewrite list_lookup_fmap, list_lookup_fmap. destruct (cs sc !! j) as [c|] eqn:Ej; [|done].
      intros [= <-]. pose proof (shows_request now RItems c de _ (Hp j c Ej) Hr) as [K _]. injection K as K.
      rewrite K, !map_lookup_filter, part_lookup. cbn. by destruct (decide (bucket k sc = j)).
    + unfold sh_Items. rewrite !length_map, Hl. pose proof (bucket_lt k sc Hm). lia.
  - cbn. split; [done|]. split; cbn; [by rewrite length_fmap|]. intros j c'. rewrite list_lookup_fmap.
    destruct (cs sc !! j) as [c|] eqn:Ej; [|done]. intros [= <-]. cbn.
    pose proof (shows_request now RFlush c de _ (Hp j c Ej) Hr) as [_ K]. eapply shows_ext; [|exact K].
    intros k. by rewrite part_lookup, lookup_empty; case_decide.
Qed.

Fixpoint sh_serve_all (rs : list (Z * request)) (sc : shardedCache) : shardedCache * list (option answer) :=
  match rs with
  | [] => (sc, [])
  | (now, r) :: rs => let '(sc, a) := sh_serve now r sc in let '(sc, l) := sh_serve_all rs sc in (sc, a :: l)
  end.

Lemma sh_serve_all_spec de rs : ∀ t sc sp, sh_shows t sc de sp → trace_ok de t rs →
  Forall (λ '(_, r), is_Some (keyed r) ∨ r = RClean ∨ r = RItems ∨ r = RFlush) rs →
  (sh_serve_all rs sc).2 = map Some (spec_all de rs sp).2.
Proof.
  induction rs as [|[now r] rs IH]; intros t sc sp [Hs Hp] Ht Hk; [done|]. destruct Ht as (Hle & Hr & Ht).
  apply Forall_cons in Hk as [Hk Hks]. cbn [sh_serve_all spec_all].
  assert (Hs' : sh_shows now sc de sp) by (split; [done|]; intros j c Hj; eapply shows_later; [done|by apply Hp]).
  pose proof (sh_shows_request now r sc de sp Hs' Hr Hk) as K.
  destruct (sh_serve now r sc) as [sc' a], (spec de now r sp) as [sp' a']. destruct K as [-> K].
  specialize (IH now sc' sp' K Ht Hks). destruct (sh_serve_all rs sc') as [? l], (spec_all de rs sp') as [? l']. cbn in *. by rewrite IH.
Qed.

(** However many shards there are and whatever the seed of the hash, a sharded cache
    gives the answers of one map, and [bucket] finds a shard for every key. *)
Theorem shards_are_one_map sd de n rs sc :
  0 < n < 2 ^ 32 → unexportedNewSharded sd de n = Ok sc → trace_ok (if decide (de = 0) then -1 else de) 0 rs →
  Forall (λ '(_, r), is_Some (keyed r) ∨ r = RClean ∨ r = RItems ∨ r = RFlush) rs →
  (sh_serve_all rs sc).2 = map Some (spec_all (if decide (de = 0) then -1 else de) rs ∅).2.
Proof.
  intros Hn. unfold unexportedNewSharded, newShardedCache. rewrite decide_False by lia. intros [= <-] Ht Hk.
  apply (sh_serve_all_spec _ rs 0); [|done|done]. split; cbn [m cs].
  - rewrite wrapU_id by (unfold in_u; lia). rewrite length_replicate. split; [lia|done].
  - intros j c [-> _]%lookup_replicate. split; cbn; [intros k i; by rewrite lookup_empty|done|].
    intros k. rewrite part_lookup. change (items _) with (∅ : gmap key Item). rewrite !lookup_empty. f_equal. by destruct (decide (bucket _ _ = _)).
Qed.
End shards.

Lemma shards_are_one_map_witness :
  let rs := [(1, RSet [1; 2] (AInt KInt 5) 10); (2, RInc true [1; 2] 7); (3, RSet [9] (AOther 1) 0); (4, RItems); (12, RClean); (12, RGet [1; 2])] in
  ∃ sc, unexportedNewSharded 77 0 3 = Ok sc ∧ (@sh_serve_all no_floats rs sc).2 = map Some (@spec_all no_floats (-1) rs ∅).2.
Proof.
  eexists. split; [reflexivity|].
  apply (@shards_are_one_map no_floats 77 0 3 [(1, RSet [1; 2] (AInt KInt 5) 10); (2, RInc true [1; 2] 7); (3, RSet [9] (AOther 1) 0); (4, RItems); (12, RClean); (12, RGet [1; 2])]);
    [lia|reflexivity|cbn; unfold in_time; cbn; repeat split; lia|].
  repeat (apply Forall_cons_2; [first [left; eexists; reflexivity|right; left; reflexivity|right; right; left; reflexivity]|]). apply Forall_nil_2.
Defined.
