(* ===== verification/Snowflake.v ===== *)
(** * utils/xsnowflake: identifiers from a clock

    snowflake.go and default.go.  The readings that [now] gives, one after the
    other, are a list of milliseconds; a call that needs more of them than there
    are is still waiting ([None]).  [Generate] holds its lock and is one step. *)
From S2P Require Import Prelude.
From Stdlib Require Import Sorted.
#[local] Close Scope nat_scope.
Open Scope Z_scope.

Definition nodeBits : Z := 10.
Definition sequenceBits : Z := 12.
Definition maxNodeID : Z := 2 ^ nodeBits - 1.
Definition maxSequence : Z := 2 ^ sequenceBits - 1.
Definition nodeShift : Z := sequenceBits.
Definition timestampShift : Z := nodeBits + sequenceBits.
Definition defaultEpoch : Z := 1704067200000.

Record Generator := mkGenerator { nodeID : Z; sequence : Z; lastTimestamp : Z; epoch : Z }.

Definition New (node : Z) : outcome Generator :=
  if decide (node < 0 ∨ node > maxNodeID) then Err ErrInvalidNodeID
  else mret (mkGenerator node 0 0 defaultEpoch).

Fixpoint waitNextMillis (last timestamp : Z) (clock : list Z) : option (Z * list Z) :=
  if decide (timestamp <= last) then
    match clock with [] => None | t :: clock => waitNextMillis last t clock end
  else Some (timestamp, clock).

Definition make_id (g : Generator) : Z :=
  Z.lor (Z.lor (wrapS 64 (Z.shiftl (lastTimestamp g - epoch g) timestampShift)) (wrapS 64 (Z.shiftl (nodeID g) nodeShift)))
    (sequence g).

Definition Generate (clock : list Z) (g : Generator) : option (Generator * outcome Z * list Z) :=
  match clock with
  | [] => None
  | timestamp :: clock =>
      if decide (timestamp < lastTimestamp g) then Some (g, Err ErrClockMovedBackwards, clock)
      else
        '(sequence, timestamp, clock) ←
          (if decide (timestamp = lastTimestamp g) then
             let sequence := Z.land (sequence g + 1) maxSequence in
             if decide (sequence = 0) then
               '(timestamp, clock) ← waitNextMillis (lastTimestamp g) timestamp clock;
               mret (sequence, timestamp, clock)
             else mret (sequence, timestamp, clock)
           else mret (0, timestamp, clock));
        let g := mkGenerator (nodeID g) sequence timestamp (epoch g) in
        mret (g, Ok (make_id g), clock)
  end.

Record Info := mkInfo { Time : Z; NodeID : Z; Sequence : Z }.
Definition Parse (id : Z) : Info :=
  mkInfo (Z.shiftr id timestampShift + defaultEpoch) (Z.land (Z.shiftr id nodeShift) maxNodeID) (Z.land id maxSequence).

(** ** The generator of the process *)

Definition Init (node : Z) (d : option Generator) : option Generator * outcome unit :=
  match New node with
  | Ok generator => match d with Some _ => (d, Err ErrAlreadyInitialized) | None => (Some generator, Ok ()) end
  | Err e => (d, Err e)
  | Panic => (d, Panic)
  end.
Definition ID (clock : list Z) (d : option Generator) : option (option Generator * outcome Z * list Z) :=
  match d with
  | None => Some (None, Err ErrNotInitialized, clock)
  | Some g => '(g, r, clock) ← Generate clock g; mret (Some g, r, clock)
  end.
Definition MustID (clock : list Z) (d : option Generator) : option (option Generator * outcome Z * list Z) :=
  '(d, r, clock) ← ID clock d; mret (d, match r with Err _ => Panic | r => r end, clock).

(** [n] calls of [Generate], one after the other; those that still wait are left out. *)
Fixpoint generate_all (n : nat) (clock : list Z) (g : Generator) : list (outcome Z) :=
  match n with
  | O => []
  | S n => match Generate clock g with Some (g, r, clock) => r :: generate_all n clock g | None => [] end
  end.
Definition ids (rs : list (outcome Z)) : list Z := omap (λ r, match r with Ok z => Some z | _ => None end) rs.

(** ** An identifier and its parts *)

(** Bits below and above a position do not meet. *)
Lemma lor_below a b k : 0 <= k → 0 <= b < 2 ^ k → Z.lor (a * 2 ^ k) b = a * 2 ^ k + b.
Proof.
  intros Hk Hb. rewrite <- Z.add_lor_land. replace (Z.land (a * 2 ^ k) b) with 0; [lia|]. symmetry.
  apply Z.bits_inj'. intros n Hn. rewrite Z.land_spec, Z.bits_0, <- Z.shiftl_mul_pow2 by done.
  destruct (decide (n < k)); [by rewrite Z.shiftl_spec_low|].
  replace (Z.testbit b n) with false; [apply andb_false_r|]. symmetry.
  destruct (decide (b = 0)) as [->|]; [apply Z.bits_0|]. apply Z.bits_above_log2; [lia|].
  assert (Z.log2 b < k) by (apply Z.log2_lt_pow2; lia). lia.
Qed.

Definition pack (t node seq : Z) : Z := t * 4194304 + node * 4096 + seq.

Lemma make_id_pack g : 0 <= lastTimestamp g - epoch g < 2 ^ 41 → 0 <= nodeID g < 1024 → 0 <= sequence g < 4096 →
  make_id g = pack (lastTimestamp g - epoch g) (nodeID g) (sequence g).
Proof.
  intros Ht Hn Hs. unfold make_id, timestampShift, nodeShift, nodeBits, sequenceBits. rewrite !Z.shiftl_mul_pow2 by lia.
  change (10 + 12) with 22. change (2 ^ 41) with 2199023255552 in Ht.
  rewrite !wrapS_id by (done || (unfold in_s; change (2 ^ (64 - 1)) with 9223372036854775808; change (2 ^ 22) with 4194304; change (2 ^ 12) with 4096; lia)).
  rewrite lor_below by (change (2 ^ 22) with 4194304; change (2 ^ 12) with 4096; lia).
  replace ((lastTimestamp g - epoch g) * 2 ^ 22 + nodeID g * 2 ^ 12) with (((lastTimestamp g - epoch g) * 1024 + nodeID g) * 2 ^ 12)
    by (change (2 ^ 22) with (1024 * 2 ^ 12); ring).
  rewrite lor_below by (change (2 ^ 12) with 4096; lia). unfold pack. change (2 ^ 12) with 4096. lia.
Qed.

Lemma Parse_pack t node seq : 0 <= node < 1024 → 0 <= seq < 4096 →
  Parse (pack t node seq) = mkInfo (t + defaultEpoch) node seq.
Proof.
  intros Hn Hs. unfold Parse, timestampShift, nodeShift, maxNodeID, maxSequence, nodeBits, sequenceBits, pack.
  change (2 ^ 10 - 1) with (Z.ones 10). change (2 ^ 12 - 1) with (Z.ones 12). rewrite !Z.land_ones, !Z.shiftr_div_pow2 by lia.
  change (2 ^ (10 + 12)) with 4194304. change (2 ^ 12) with 4096. change (2 ^ 10) with 1024.
  f_equal; Z.to_euclidean_division_equations; lia.
Qed.

(** ** One call *)

Lemma waitNextMillis_later last clock : ∀ t t' clock',
  waitNextMillis last t clock = Some (t', clock') → last < t' ∧ (t' = t ∨ t' ∈ clock) ∧ suffix clock' clock.
Proof.
  induction clock as [|x clock IH]; intros t t' clock'; cbn; case_decide; try done.
  - intros [= <- <-]. split_and!; [lia|by left|done].
  - intros (H1 & H2 & H3)%IH. split_and!; [done| |by apply suffix_cons_r]. right. destruct H2 as [->|?]; [by left|by right].
  - intros [= <- <-]. split_and!; [lia|by left|done].
Qed.

(** It waits for ever only if the clock never gets past the last time. *)
Lemma waitNextMillis_waits last clock : ∀ t, waitNextMillis last t clock = None ↔ t <= last ∧ Forall (λ x, x <= last) clock.
Proof.
  induction clock as [|x clock IH]; intros t; cbn; case_decide; try (split; [done|intros []; lia]); rewrite ?Forall_nil, ?Forall_cons, ?IH; naive_solver.
Qed.

Definition g_ok (g : Generator) : Prop := 0 <= nodeID g < 1024 ∧ 0 <= sequence g < 4096.
(** The readings are times for which there are identifiers: about 69 years. *)
Definition clock_ok (e : Z) (clock : list Z) : Prop := Forall (λ t, e <= t < e + 2 ^ 41) clock.

Lemma Generate_spec clock g g' r clock' :
  g_ok g → clock_ok (epoch g) clock → Generate clock g = Some (g', r, clock') →
  g_ok g' ∧ nodeID g' = nodeID g ∧ epoch g' = epoch g ∧ clock_ok (epoch g) clock' ∧
  ((g' = g ∧ r = Err ErrClockMovedBackwards) ∨
   (lastTimestamp g < lastTimestamp g' ∨ lastTimestamp g = lastTimestamp g' ∧ sequence g < sequence g') ∧
   lastTimestamp g' ∈ clock ∧ r = Ok (pack (lastTimestamp g' - epoch g) (nodeID g) (sequence g'))).
Proof.
  intros Hg Hc. destruct clock as [|t clock]; [done|]. pose proof Hc as [Ht Hcl]%Forall_cons. cbn [Generate].
  case_decide as Hlt; [intros [= <- <- <-]; split_and!; auto|].
  assert (K : ∀ seq t' cl, 0 <= seq < 4096 → t' ∈ t :: clock → suffix cl clock →
    (lastTimestamp g < t' ∨ lastTimestamp g = t' ∧ sequence g < seq) →
    let h := mkGenerator (nodeID g) seq t' (epoch g) in
    g_ok h ∧ nodeID h = nodeID g ∧ epoch h = epoch g ∧ clock_ok (epoch g) cl ∧
    ((h = g ∧ Ok (make_id h) = Err ErrClockMovedBackwards) ∨
     (lastTimestamp g < lastTimestamp h ∨ lastTimestamp g = lastTimestamp h ∧ sequence g < sequence h) ∧
     lastTimestamp h ∈ t :: clock ∧ Ok (make_id h) = Ok (pack (lastTimestamp h - epoch g) (nodeID g) (sequence h)))).
  { intros seq t' cl Hs Hin [pre ->] Hord. destruct Hg as [Hn _]. cbn. split_and!; try done.
    - apply Forall_app in Hcl. apply Hcl.
    - right. split_and!; [done|done|]. unfold clock_ok in Hc. rewrite Forall_forall in Hc. pose proof (Hc t' Hin) as Hr.
      rewrite make_id_pack; [done|cbn; lia|done|done]. }
  destruct (decide (t = lastTimestamp g)) as [->|Hne].
  - set (seq := Z.land (sequence g + 1) maxSequence).
    assert (Hseq : seq = (sequence g + 1) mod 4096).
    { unfold seq, maxSequence, sequenceBits. change (2 ^ 12 - 1) with (Z.ones 12). by rewrite Z.land_ones by lia. }
    destruct Hg as [_ Hs]. pose proof (Z.mod_pos_bound (sequence g + 1) 4096 ltac:(lia)). 
    destruct (decide (seq = 0)) as [H0|H0].
    + destruct (waitNextMillis _ _ clock) as [[t' cl]|] eqn:Ew; [|done]. cbn. intros [= <- <- <-].
      apply waitNextMillis_later in Ew as (W1 & W2 & W3). apply K; [lia| |done|by left].
      destruct W2 as [->|?]; [by left|by right].
    + cbn. intros [= <- <- <-]. apply K; [lia|by left|done|right]. split; [done|]. fold seq. rewrite Hseq in H0. rewrite Hseq.
      destruct (decide (sequence g + 1 = 4096)) as [E|E]; [rewrite E in H0; by destruct H0|]. rewrite Z.mod_small; lia.
  - cbn. intros [= <- <- <-]. apply K; [lia|by left|done|left; lia].
Qed.

(** ** Any number of calls *)

Lemma pack_order t node seq t' seq' : 0 <= node < 1024 → 0 <= seq < 4096 → 0 <= seq' < 4096 →
  (t < t' ∨ t = t' ∧ seq < seq') → pack t node seq < pack t' node seq'.
Proof. unfold pack. lia. Qed.

Lemma generate_all_ids n : ∀ clock g, g_ok g → clock_ok (epoch g) clock →
  let l := ids (generate_all n clock g) in
  StronglySorted Z.lt l ∧
  Forall (λ id, pack (lastTimestamp g - epoch g) (nodeID g) (sequence g) < id ∧
    ∃ t seq, id = pack (t - epoch g) (nodeID g) seq ∧ 0 <= seq < 4096 ∧ epoch g <= t) l.
Proof.
  induction n as [|n IH]; intros clock g Hg Hc; [by split; constructor|]. cbn [generate_all].
  destruct (Generate clock g) as [[[g' r] clock']|] eqn:Eg; [|by split; constructor].
  destruct (Generate_spec _ _ _ _ _ Hg Hc Eg) as (Hg' & En & Ee & Hc' & Hr).
  rewrite <- Ee in Hc'. destruct (IH clock' g' Hg' Hc') as [IH1 IH2]. rewrite En, Ee in IH2.
  destruct Hr as [[-> ->]|(Hord & Hin & ->)]; [by split|]. cbn. fold (ids (generate_all n clock' g')).
  destruct Hg as [Hn Hs], Hg' as [_ Hs'].
  assert (Hlt : pack (lastTimestamp g - epoch g) (nodeID g) (sequence g) <
    pack (lastTimestamp g' - epoch g) (nodeID g) (sequence g')) by (apply pack_order; try done; lia).
  split.
  - apply SSorted_cons; [done|]. apply List.Forall_forall. rewrite Forall_forall in IH2. intros id Hid%list_elem_of_In.
    by apply IH2.
  - apply Forall_cons. split.
    + split; [done|]. exists (lastTimestamp g'), (sequence g'). split_and!; try done; try lia.
      unfold clock_ok in Hc. rewrite Forall_forall in Hc. by apply Hc.
    + eapply Forall_impl; [exact IH2|]. intros id [H1 H2]. split; [lia|done].
Qed.

Lemma New_ok node g : New node = Ok g → g_ok g ∧ nodeID g = node ∧ epoch g = defaultEpoch.
Proof.
  unfold New. case_decide as Hd; [done|]. intros [= <-]. unfold g_ok. cbn. split_and!; try done; try lia.
  unfold maxNodeID, nodeBits in Hd. change (2 ^ 10 - 1) with 1023 in Hd. lia.
Qed.

(** C19. Identifiers are unique: whatever the clock shows, in any order, within 69 years
    from the epoch, those of one generator grow strictly and carry its node, and two
    generators with different nodes never make the same. *)
Theorem snowflake_ids_unique node node' g g' clock clock' n n' :
  New node = Ok g → New node' = Ok g' → clock_ok defaultEpoch clock → clock_ok defaultEpoch clock' →
  let l := ids (generate_all n clock g) in
  StronglySorted Z.lt l ∧ Forall (λ id, 0 <= id ∧ NodeID (Parse id) = node) l ∧
  (node ≠ node' → ∀ id, id ∈ l → id ∉ ids (generate_all n' clock' g')).
Proof.
  intros (Hg & <- & He)%New_ok (Hg' & <- & He')%New_ok Hc Hc'.
  assert (K : ∀ h cl k, g_ok h → epoch h = defaultEpoch → clock_ok defaultEpoch cl →
    StronglySorted Z.lt (ids (generate_all k cl h)) ∧
    Forall (λ id, 0 <= id ∧ NodeID (Parse id) = nodeID h) (ids (generate_all k cl h))).
  { intros h cl k Hh Eh Hcl. rewrite <- Eh in Hcl. destruct (generate_all_ids k cl h Hh Hcl) as [H1 H2]. split; [done|].
    eapply Forall_impl; [exact H2|]. intros id [_ (t & seq & -> & Hs & Ht)]. destruct Hh as [Hn _].
    rewrite Parse_pack by done. split; [unfold pack; lia|done]. }
  destruct (K g clock n Hg He Hc) as [H1 H2]. destruct (K g' clock' n' Hg' He' Hc') as [_ H2'].
  split; [done|]. split; [done|]. intros Hne id Hid Hid'. rewrite Forall_forall in H2, H2'.
  apply Hne. destruct (H2 id Hid) as [_ <-], (H2' id Hid') as [_ <-]. done.
Qed.

Definition demo_clock : list Z := [defaultEpoch + 5; defaultEpoch + 5; defaultEpoch + 4; defaultEpoch + 6].
Lemma snowflake_ids_unique_witness :
  let l := ids (generate_all 4 demo_clock (mkGenerator 3 0 0 defaultEpoch)) in
  StronglySorted Z.lt l ∧ Forall (λ id, 0 <= id ∧ NodeID (Parse id) = 3) l ∧
  (3 ≠ 4 → ∀ id, id ∈ l → id ∉ ids (generate_all 4 demo_clock (mkGenerator 4 0 0 defaultEpoch))).
Proof.
  apply (snowflake_ids_unique 3 4 (mkGenerator 3 0 0 defaultEpoch) (mkGenerator 4 0 0 defaultEpoch) demo_clock demo_clock 4 4);
    [reflexivity|reflexivity|unfold clock_ok, demo_clock; repeat constructor; unfold defaultEpoch; lia..].
Defined.
Example demo_ids : generate_all 4 demo_clock (mkGenerator 3 0 0 defaultEpoch) =
  [Ok (pack 5 3 0); Ok (pack 5 3 1); Err ErrClockMovedBackwards; Ok (pack 6 3 0)].
Proof. by vm_compute. Qed.
